(* ===== verification/_CoqProject ===== *)
-Q . S2P
Prelude.v
Bytes.v
Event.v
ByteIO.v
Protocol.v
GapDetector.v
Memory.v
Layout.v
RingLayout.v
Ring.v
RingSpec.v
RingGeometry.v
RingRefinement.v
RingSafety.v
RingSystem.v
RingInit.v
Weak.v
RingWeak.v
RingWeakSpec.v
RingAttach.v
RingHistory.v
RingConcurrent.v
Posix.v
Udp.v
Segment.v
Config.v
Engine.v
EngineIdle.v
EngineWeak.v
Sender.v
SenderSpec.v
SenderConcurrent.v
Receiver.v
ReceiverSpec.v
ReceiverConcurrent.v
Lifecycle.v
SenderProcess.v
ReceiverProcess.v
Pipeline.v
PipelineConcurrent.v
Deployment.v
UdpSmoke.v
Apps.v
Conformance.v
