(* ===== verification/Prelude.v ===== *)
(** * Low-latency event engine: verification library

    The engine moves small opaque events between processes and hosts. A producer publishes
    events into an ingress ring in POSIX shared memory; the Sender takes them out, encodes
    each as an LLEP DATA packet and sends it over UDP to every destination; a Receiver
    decodes and checks the packets and publishes their events into an egress ring, from
    which a local consumer takes them. This library translates all of that code and proves
    what makes it correct.

    ** The parts and where they are

    - Shared types: [Event] ([include/lle/event.hpp], [detail/alignment.hpp]); views carry
      a span into the buffer they point into, so that what a view reads can change.
    - LLEP v1: [ByteIO] ([protocol/byte_io.hpp]) and [Protocol] ([protocol/types.hpp],
      [encoder.cpp], [decoder.cpp]), over the byte buffers of [Bytes].
    - Gap detection: [GapDetector] ([gap_detector.hpp], [reliability/gap_detector.cpp]).
    - The ring: [RingLayout] ([shm/ring_layout.hpp]), where the classes that live in the
      mapping are declared member by member and [Layout] computes sizes, alignments and
      offsets, and [Ring] ([shm/spsc_ring.hpp], [spsc_ring.cpp]): creation, attachment, [try_publish], [try_acquire], [release],
      [close_publication] and the move constructor. Each is a [prog] of [Memory]: a tree of
      single accesses to the segment, plain or atomic with the memory order the code names.
    - Operating system: [Posix] has the effects and system calls; [Udp]
      ([transport/udp_sender.cpp], [udp_receiver.cpp], [udp_types.hpp]) and [Segment]
      ([shm/segment.hpp], [segment.cpp]) are programs over them.
    - The engines: [Config] ([config.hpp], [stats.hpp], [init_error.hpp]), [Engine] (the
      effects and the environment of a loop), [Sender] ([sender.hpp], [sender.cpp]) and
      [Receiver] ([receiver.hpp], [receiver.cpp]).
    - The command-line smoke test: [UdpSmoke] ([apps/udp_smoke.cpp]). [Apps] has the two
      engine mains, which only print a version so far.

    All paths are under [src/src/], [src/include/] and [src/apps/]. The names are those of
    the source; a member function takes its object first and returns it last if it may
    change it, constructors are [<Class>_construct], destructors [<Class>_destroy], move
    constructors [<Class>_move] with the new and the moved-from object.

    ** How code becomes definitions

    Integers are [Z]; every operation that can leave its width wraps explicitly ([u32],
    [u64] below). [std::expected] is [expected]. A definition that would be undefined
    behaviour (a byte outside a span, a misaligned access, a null dereference, a data
    race, use of a closed descriptor) is [None], so every theorem that says [Some] excludes
    it. Loops that only the environment ends ([run]) take fuel, the number of turns; the
    result says whether the loop has ended, and the termination theorems give fuel that is
    enough. The other loops recurse on what they count.

    ** What the theorems show

    - The protocol. The decoder accepts exactly the wire images of valid packets, stays in
      the packet, and reports the first rule that fails; the encoder writes exactly the
      image or nothing; both round trips hold.
    - The layout. The [static_assert]s hold, the classes in the mapping have no padding, and
      their members are aligned and disjoint.
    - Gap detection. Accepted packets have one session and increasing sequences; accepted
      sequences and reported gaps tile the sequence space.
    - The ring, alone. [RingSpec] is the abstract bounded queue; [RingRefinement] and
      [RingSystem] prove that any sequence of operations on the bytes of a segment gives
      the queue's results, that delivery is first-in first-out, and that an acquired view
      reads the same event until it is released. [RingInit] has creation and attachment,
      [RingGeometry] the arithmetic of slots.
    - The ring, concurrently. [Weak] is release/acquire memory with race detection; in it
      the same programs run access by access in any interleaving. [RingWeak] has the
      invariant and what each thread knows, [RingWeakSpec] what the operations do for a
      thread that knows it, [RingAttach] the same for [attach], [RingHistory] legal
      histories of the queue, and [RingConcurrent] the theorems: a consumer attaches and
      consumes while the producer publishes, without races or other undefined behaviour;
      delivery is in order and without loss, [Closed] means that all is drained, and each
      thread gets the results of a sequential queue.
    - The ring, against a hostile peer. [RingSafety] assumes nothing about the bytes of the
      segment: operations stay inside it; [acquired_view_can_escape] shows what is not
      guaranteed.
    - Resources. Sockets, mappings and names are given back exactly once on every path
      ([Udp], [Segment], [Lifecycle], [UdpSmoke]), whatever the system answers.
    - The engines. In any environment the sender forwards the ring's events in order, each
      once, with exact counters, and ends when it should ([SenderSpec]); so does the
      receiver in its direction ([ReceiverSpec]). What the receiver's publications and its
      consumer's operations returned is what the queue returns in one order of them all
      ([joint] in [RingHistory]). [Lifecycle] proves that a started engine
      satisfies the assumptions of these theorems and of the concurrent ones below. [Pipeline] joins both with a network
      that loses, repeats, reorders and corrupts.
    - The engines, concurrently. [EngineWeak] turns the effects of a loop into its accesses
      to the segment and runs them beside a peer in [Weak]. A program that uses the ring
      only through its interface ([consumes], [produces]), attaching to it first or not, is
      proved to do there exactly what it does in [Engine], for a peer that does a first part
      of what the concurrent peer did. [EngineIdle] is about programs that leave the ring
      and the network alone, as start-up, statistics and destructors do.
      [SenderConcurrent] and [ReceiverConcurrent] apply this to the loops,
      [PipelineConcurrent] to four processes and the network.
    - Whole processes. [SenderProcess] and [ReceiverProcess] run an engine as its process
      does: it is created, runs until it has ended and is destroyed, while its peer uses the
      ring concurrently; the sender attaches to a ring that is already being filled, the
      receiver's consumer may attach at any time. They deliver in order, with exact
      counters, and give every resource back. [Deployment] joins the two hosts: what the
      local consumer gets was published by the remote producer, in that order.
    - [Conformance] evaluates the repository's unit tests ([tests/]) on the definitions.

    ** Parameters and their hypotheses

    System calls, [inet_pton], [inet_ntop] and [strerror] are not code of the repository.
    Theorems quantify over a [system], a function from calls and its own state to answers.
    Where the code relies on documented behaviour a theorem assumes it by name:
    [recvmsg_documented] in [Udp] ([recvmsg] returns at most the size of its buffer),
    [mmap_documented] and [munmap_documented] in [Segment], [mapping_documented] in
    [Lifecycle]. The concrete [demo_system]
    satisfies them and is what the witnesses run.

    ** Simplifications

    - Segments are mapped at an address aligned to [ring_memory_alignment]; addresses in a
      program are offsets into the segment. [invalid_memory] is translated with the address
      the mapping has.
    - [Engine] runs each operation of the peer process atomically between the effects of
      the program. [engine_refines_concurrency] proves that nothing is lost by that: every
      execution of the program beside a concurrent peer, interleaved access by access, has
      the result of such a run. Effects that are not on the ring (the stop flag, sleeping,
      system calls) take no turn of their own in these executions; the peer cannot see
      them.
    - Messages of an atomic are appended in the order of the stores; each atomic of a
      running ring has a single writer, so this is its modification order. Fences and
      compare-and-swap do not occur in the code.
    - The concurrent theorems start from a segment that is initialized: startup must make
      sure of that before anybody attaches ([docs/memory-model.md], section 4; the creator
      constructs the atomics with plain stores). From then on attaching is concurrent
      too. So [ReceiverProcess] has the receiver create its ring alone and is concurrent
      from there.
    - Allocation does not fail: [std::bad_alloc] of strings and vectors is not modelled.

    ** Not modelled

    - [platform/affinity.cpp], [platform/clock.cpp], [reliability/reorder_buffer.cpp] and
      [reliability/retransmit_window.cpp] hold a comment each.
    - [benchmarks/]: timing harnesses around the ring and two third-party queues.
    - [NACK] and retransmission exist only as constants of the protocol. *)

From Stdlib Require Export ZArith Lia Sorted.
From coqutil Require Export Byte Word.LittleEndianList Datatypes.RecordSetters.
From stdpp Require Export base option tactics list.
Export DoubleBraceUpdate.

#[global] Open Scope Z_scope.

(** ** Machine integers *)

(** [wrap w z] is the value an unsigned [w]-bit object holds after [z] is stored
    in it (C++ unsigned arithmetic is arithmetic modulo [2 ^ w]). *)
Definition wrap (w z : Z) : Z := z mod 2 ^ w.
Abbreviation u8 := (wrap 8).
Abbreviation u16 := (wrap 16).
Abbreviation u32 := (wrap 32).
Abbreviation u64 := (wrap 64).

Abbreviation u32_max := (2 ^ 32 - 1).
Abbreviation u64_max := (2 ^ 64 - 1).

(** [is_uint w z]: the type invariant of an unsigned [w]-bit object. *)
Definition is_uint (w z : Z) : Prop := 0 <= z < 2 ^ w.

Lemma wrap_small w z : is_uint w z -> wrap w z = z.
Proof. unfold is_uint, wrap. apply Z.mod_small. Qed.

Lemma wrap_is_uint w z : 0 <= w -> is_uint w (wrap w z).
Proof. intros. apply Z.mod_pos_bound. lia. Qed.

Lemma wrap_idemp w z : 0 <= w -> wrap w (wrap w z) = wrap w z.
Proof. intros. by apply wrap_small, wrap_is_uint. Qed.

Lemma wrap_add_l w a b : wrap w (wrap w a + b) = wrap w (a + b).
Proof. apply Zplus_mod_idemp_l. Qed.

Lemma wrap_add_r w a b : wrap w (a + wrap w b) = wrap w (a + b).
Proof. apply Zplus_mod_idemp_r. Qed.

Lemma wrap_mono w z n : is_uint w z -> w <= n -> is_uint n z.
Proof.
  unfold is_uint. intros [??] ?. split; [done|].
  eapply Z.lt_le_trans; [done|]. by apply Z.pow_le_mono_r.
Qed.

Lemma lor_is_uint w a b : 0 <= w -> is_uint w a -> is_uint w b -> is_uint w (Z.lor a b).
Proof.
  intros Hw Ha Hb.
  assert (Z.lor a b = Z.lor a b mod 2 ^ w) as ->; [|by apply wrap_is_uint].
  rewrite <- Z.land_ones, Z.land_lor_distr_l, !Z.land_ones by done.
  unfold is_uint in *. by rewrite !Z.mod_small.
Qed.

Create HintDb uint.
#[export] Hint Resolve wrap_is_uint wrap_mono : uint.
#[export] Hint Extern 1 (_ <= _) => lia : uint.
Create Rewrite HintDb uint.
#[export] Hint Rewrite wrap_add_l wrap_add_r : uint.

(** Discharge range side conditions with the bounds in the context. *)
Ltac uint := unfold is_uint in *; lia.

(** Replace the wrap-around of a value known to fit by the value. *)
Ltac unwrap :=
  repeat match goal with
    | |- context [wrap ?w ?z] => rewrite (wrap_small w z) by (unfold is_uint in *; lia)
    end.

(** ** Powers of two

    [n land (n - 1)] clears the lowest set bit of [n]; it is zero exactly for the
    powers of two, and then masking with [n - 1] is reduction modulo [n]. *)

Lemma land_pred_pow2 k : 0 <= k -> Z.land (2 ^ k) (2 ^ k - 1) = 0.
Proof.
  intros. replace (2 ^ k - 1) with (Z.ones k) by (rewrite Z.ones_equiv; lia).
  rewrite Z.land_ones by done. by rewrite Z.mod_same by lia.
Qed.

Lemma land_mask_mod k x : 0 <= k -> Z.land x (2 ^ k - 1) = x mod 2 ^ k.
Proof.
  intros. replace (2 ^ k - 1) with (Z.ones k) by (rewrite Z.ones_equiv; lia).
  by apply Z.land_ones.
Qed.

Lemma land_pred_zero_pow2 n :
  0 < n -> Z.land n (n - 1) = 0 -> n = 2 ^ Z.log2 n.
Proof.
  intros Hn Hz. set (k := Z.log2 n).
  pose proof (Z.log2_spec n Hn) as [Hlo Hhi]. fold k in Hlo, Hhi.
  assert (0 <= k) by apply Z.log2_nonneg.
  destruct (Z.eq_dec n (2 ^ k)) as [|Hne]; [done|exfalso].
  assert (Z.log2 (n - 1) = k) as Hlog.
  { apply Z.log2_unique; lia. }
  assert (Z.testbit (Z.land n (n - 1)) k = true) as Hbit.
  { rewrite Z.land_spec. apply andb_true_intro. split.
    - by apply Z.bit_log2.
    - rewrite <- Hlog. apply Z.bit_log2. lia. }
  by rewrite Hz, Z.bits_0 in Hbit.
Qed.

(** ** Results

    [expected A E] is [std::expected<A, E>]. Definitions whose C++ counterpart may
    touch memory return [option (expected A E)]: [None] is an access outside the
    object, which the language leaves undefined. *)

Inductive expected (A E : Type) : Type :=
  | Value (a : A)
  | Unexpected (e : E).
Arguments Value {A E} a.
Arguments Unexpected {A E} e.

#[export] Instance expected_eq_dec `{EqDecision A, EqDecision E} :
  EqDecision (expected A E).
Proof. solve_decision. Defined.

Definition expected_map {A B E} (f : A -> B) (r : expected A E) : expected B E :=
  match r with Value a => Value (f a) | Unexpected e => Unexpected e end.

Definition has_value {A E} (r : expected A E) : bool :=
  match r with Value _ => true | Unexpected _ => false end.

(** The error of the first check that fails. *)
Fixpoint first_failure {E} (cs : list (bool * E)) : option E :=
  match cs with
  | [] => None
  | (ok, e) :: cs => if ok then first_failure cs else Some e
  end.

Lemma first_failure_None {E} (cs : list (bool * E)) : first_failure cs = None <-> Forall (fun c => c.1 = true) cs.
Proof.
  induction cs as [|[[] e] cs IH]; simpl; [by split| |].
  - rewrite IH, Forall_cons. simpl. by split; [|intros [_ ?]].
  - rewrite Forall_cons. simpl. by split; [|intros [? _]].
Qed.

Lemma forallb_iff_Forall {A} (f : A -> bool) (l : list A) :
  forallb f l = true <-> Forall (fun x => f x = true) l.
Proof.
  induction l as [|x l IH]; simpl; [by split|].
  by rewrite andb_true_iff, IH, Forall_cons.
Qed.

(** ** Counting and selecting *)

Definition count {A} (f : A -> bool) (l : list A) : Z := Z.of_nat (length (List.filter f l)).

Lemma count_cons {A} (f : A -> bool) x l : count f (x :: l) = (if f x then 1 else 0) + count f l.
Proof. unfold count. simpl. destruct (f x); simpl; lia. Qed.

Lemma count_app {A} (f : A -> bool) l1 l2 : count f (l1 ++ l2) = count f l1 + count f l2.
Proof. unfold count. rewrite List.filter_app, length_app. lia. Qed.

Lemma count_negb {A} (f : A -> bool) l :
  count f l + count (fun x => negb (f x)) l = Z.of_nat (length l).
Proof. induction l as [|x l IH]; [done|]. rewrite !count_cons. simpl length. destruct (f x); simpl; lia. Qed.

Lemma filter_map_comm {A B} (f : B -> bool) (g : A -> B) l :
  List.filter f (map g l) = map g (List.filter (fun x => f (g x)) l).
Proof. induction l as [|x l IH]; [done|]. simpl. destruct (f (g x)); simpl; by rewrite IH. Qed.

(** The elements of [l] at the positions where [bs] is true. *)
Fixpoint select {A} (l : list A) (bs : list bool) : list A :=
  match l, bs with
  | x :: l, b :: bs => if b then x :: select l bs else select l bs
  | _, _ => []
  end.

Lemma select_app {A} (l1 l2 : list A) b1 b2 :
  length l1 = length b1 -> select (l1 ++ l2) (b1 ++ b2) = select l1 b1 ++ select l2 b2.
Proof.
  revert b1. induction l1 as [|x l1 IH]; intros [|b b1] Hl; try done. simpl in *.
  injection Hl as Hl. rewrite IH by done. by destruct b.
Qed.

Lemma select_sublist {A} (l : list A) bs : sublist (select l bs) l.
Proof.
  revert bs. induction l as [|x l IH]; intros bs; destruct bs as [|b bs]; simpl;
    try apply sublist_nil_l. destruct b; by constructor.
Qed.

(** Writing at the front of a buffer. *)
Lemma take_inserts {A} (k l : list A) :
  (length k <= length l)%nat -> take (length k) (list_inserts 0 k l) = k.
Proof.
  intros Hl. apply list_eq. intros i. destruct (decide (i < length k)%nat).
  - rewrite lookup_take_lt, list_lookup_inserts by lia. f_equal. lia.
  - rewrite lookup_take_ge by lia. symmetry. apply lookup_ge_None. lia.
Qed.

#[global] Arguments count : simpl never.

(** Record updates [r{{ f := v }}] compute. *)
#[global] Arguments constant {E} newValue _ /.
#[global] Arguments apply_update {R E} u /.

(** ** Case analysis on the conditions of the code *)

(** Split every boolean test of the goal, keeping the arithmetic fact it decides. *)
Ltac case_bool :=
  match goal with
  | |- context [if ?b then _ else _] =>
      lazymatch type of b with bool => idtac end;
      let E := fresh "E" in destruct b eqn:E
  end.

Ltac case_bool_in H :=
  match type of H with
  | context [if ?b then _ else _] =>
      lazymatch type of b with bool => idtac end;
      let E := fresh "E" in destruct b eqn:E
  end.

(** Turn the boolean facts of the context into propositions. *)
Ltac to_prop :=
  repeat match goal with
    | H : (_ || _)%bool = false |- _ => apply orb_false_iff in H as [? ?]
    | H : (_ && _)%bool = true |- _ => apply andb_true_iff in H as [? ?]
    | H : negb _ = true |- _ => apply negb_true_iff in H
    | H : negb _ = false |- _ => apply negb_false_iff in H
    | H : (_ <? _) = true |- _ => apply Z.ltb_lt in H
    | H : (_ <? _) = false |- _ => apply Z.ltb_ge in H
    | H : (_ <=? _) = true |- _ => apply Z.leb_le in H
    | H : (_ <=? _) = false |- _ => apply Z.leb_gt in H
    | H : (_ =? _) = true |- _ => apply Z.eqb_eq in H
    | H : (_ =? _) = false |- _ => apply Z.eqb_neq in H
    end.

(** Select the branch of a test whose outcome [lia] knows. *)
Ltac test_true := rewrite (proj2 (Z.ltb_lt _ _)) by lia || rewrite (proj2 (Z.leb_le _ _)) by lia
                  || rewrite (proj2 (Z.eqb_eq _ _)) by lia.
Ltac test_false := rewrite (proj2 (Z.ltb_ge _ _)) by lia || rewrite (proj2 (Z.leb_gt _ _)) by lia
                   || rewrite (proj2 (Z.eqb_neq _ _)) by lia.
