(* ===== verification/Bytes.v ===== *)
(** * Byte buffers

    A buffer (the storage behind a [std::span<std::byte>] or a mapping) is a list of
    bytes addressed by offset. This file has the checked accesses the other files are
    built on (an access outside the buffer is [None]), their read-over-write lemmas,
    and the reference little-endian views of a buffer. The functions of
    [src/src/protocol/byte_io.hpp] are translated and proved equal to these views. *)

From S2P Require Import Prelude.

#[export] Instance byte_eq_dec : EqDecision byte := Byte.byte_eq_dec.

(** ** Checked accesses *)

Definition load_bytes (m : list byte) (off n : nat) : option (list byte) :=
  if decide (off + n <= length m)%nat then Some (take n (drop off m)) else None.

Definition store_bytes (m : list byte) (off : nat) (bs : list byte) : option (list byte) :=
  if decide (off + length bs <= length m)%nat then Some (list_inserts off bs m) else None.

(** The reference view: [w] bytes at [off], little-endian. *)
Definition load_word (m : list byte) (off w : nat) : option Z :=
  le_combine <$> load_bytes m off w.

Definition store_word (m : list byte) (off w : nat) (v : Z) : option (list byte) :=
  store_bytes m off (le_split w v).

Section Accesses.
Implicit Types (m bs : list byte) (off n : nat).

Lemma load_bytes_Some m off n bs :
  load_bytes m off n = Some bs <->
  (off + n <= length m)%nat /\ length bs = n /\
  (forall i, (i < n)%nat -> m !! (off + i)%nat = bs !! i).
Proof.
  unfold load_bytes. case_decide; split; [|intros (_&Hl&Hb)|done|lia].
  - intros [= <-]. split_and!; [lia| |].
    + rewrite length_take, length_drop. lia.
    + intros i Hi. rewrite lookup_take_lt, lookup_drop; [done|lia].
  - f_equal. apply list_eq_same_length with n; [done| |].
    { rewrite length_take, length_drop. lia. }
    { intros i x y Hi. rewrite lookup_take_lt, lookup_drop by lia.
      rewrite Hb by done. congruence. }
Qed.

Lemma load_bytes_is_Some m off n :
  is_Some (load_bytes m off n) <-> (off + n <= length m)%nat.
Proof.
  unfold load_bytes. case_decide; split; done || by eexists.
Qed.

Lemma load_bytes_length m off n bs : load_bytes m off n = Some bs -> length bs = n.
Proof. intros (_&?&_)%load_bytes_Some. done. Qed.

Lemma store_bytes_length m off bs m' :
  store_bytes m off bs = Some m' -> length m' = length m.
Proof.
  unfold store_bytes. case_decide; [|done]. intros [= <-]. apply length_inserts.
Qed.

Lemma store_bytes_is_Some m off bs :
  (off + length bs <= length m)%nat ->
  store_bytes m off bs = Some (list_inserts off bs m).
Proof. intros. unfold store_bytes. by rewrite decide_True. Qed.

(** Reading back the range just written. *)
Lemma load_store_same m off bs m' :
  store_bytes m off bs = Some m' -> load_bytes m' off (length bs) = Some bs.
Proof.
  unfold store_bytes. case_decide; [|done]. intros [= <-].
  apply load_bytes_Some. rewrite length_inserts. split_and!; [lia|done|].
  intros i Hi. rewrite list_lookup_inserts by lia. f_equal. lia.
Qed.

(** Reading a range a write does not touch. *)
Lemma load_store_disjoint m off bs m' off' n :
  store_bytes m off bs = Some m' ->
  (off' + n <= off \/ off + length bs <= off')%nat ->
  load_bytes m' off' n = load_bytes m off' n.
Proof.
  unfold store_bytes. case_decide; [|done]. intros [= <-] Hd.
  unfold load_bytes. rewrite length_inserts. case_decide; [|done]. f_equal.
  apply list_eq. intros i. destruct (decide (i < n)%nat).
  - rewrite !lookup_take_lt, !lookup_drop by lia.
    destruct Hd; [apply list_lookup_inserts_lt|apply list_lookup_inserts_ge]; lia.
  - by rewrite !lookup_take_ge by lia.
Qed.

Lemma load_word_store_disjoint m off bs m' off' n :
  store_bytes m off bs = Some m' ->
  (off' + n <= off \/ off + length bs <= off')%nat ->
  load_word m' off' n = load_word m off' n.
Proof. intros. unfold load_word. by erewrite load_store_disjoint. Qed.

Lemma load_word_store_same m off w v m' :
  store_word m off w v = Some m' ->
  load_word m' off w = Some (wrap (Z.of_nat w * 8) v).
Proof.
  unfold store_word, load_word. intros H. apply load_store_same in H.
  rewrite length_le_split in H. rewrite H. simpl. by rewrite le_combine_split.
Qed.

(** A prefix or a middle part of a range that loads, loads. *)
Lemma load_bytes_sub m off n bs i k :
  load_bytes m off n = Some bs -> (i + k <= n)%nat ->
  load_bytes m (off + i) k = Some (take k (drop i bs)).
Proof.
  intros (?&?&Hb)%load_bytes_Some ?. apply load_bytes_Some. split_and!; [lia| |].
  - rewrite length_take, length_drop. lia.
  - intros j ?. rewrite lookup_take_lt, lookup_drop by lia.
    rewrite <- Hb by lia. f_equal. lia.
Qed.

Lemma load_bytes_inserts_app m off b1 b2 :
  list_inserts (off + length b1) b2 (list_inserts off b1 m) = list_inserts off (b1 ++ b2) m.
Proof. rewrite list_inserts_app_l. f_equal. lia. Qed.

Lemma load_word_range m off w v :
  load_word m off w = Some v -> is_uint (Z.of_nat w * 8) v.
Proof.
  unfold load_word. intros (bs&Hl%load_bytes_length&->)%fmap_Some.
  pose proof (le_combine_bound bs) as Hb. rewrite Hl in Hb.
  unfold is_uint. by rewrite Z.mul_comm.
Qed.

Lemma load_word_load_bytes m off w v :
  load_word m off w = Some v -> load_bytes m off w = Some (le_split w v).
Proof.
  unfold load_word. intros (bs&Hl&->)%fmap_Some.
  pose proof (load_bytes_length _ _ _ _ Hl) as <-. by rewrite split_le_combine.
Qed.

Lemma le_combine_split_small w v :
  is_uint (Z.of_nat w * 8) v -> le_combine (le_split w v) = v.
Proof. intros. rewrite le_combine_split. by apply Z.mod_small. Qed.
End Accesses.

(** ** Layouts

    [loads_at m off fs]: the byte strings [fs] lie one after the other from [off]. *)

Fixpoint loads_at (m : list byte) (off : nat) (fs : list (list byte)) : Prop :=
  match fs with
  | [] => True
  | f :: fs => load_bytes m off (length f) = Some f /\ loads_at m (off + length f) fs
  end.

Section Layouts.
Implicit Types (m bs : list byte) (off n : nat).

Lemma load_bytes_app m off n1 n2 :
  load_bytes m off (n1 + n2) =
    b1 ← load_bytes m off n1; b2 ← load_bytes m (off + n1) n2; Some (b1 ++ b2).
Proof.
  unfold load_bytes. repeat case_decide; simpl; try done; try lia.
  f_equal. rewrite <- drop_drop. by rewrite take_take_drop.
Qed.

Lemma load_bytes_all m : load_bytes m 0 (length m) = Some m.
Proof. unfold load_bytes. rewrite decide_True by lia. by rewrite drop_0, firstn_all. Qed.

Lemma loads_at_concat m off fs :
  (off <= length m)%nat ->
  loads_at m off fs <-> load_bytes m off (length (concat fs)) = Some (concat fs).
Proof.
  revert off. induction fs as [|f fs IH]; intros off Hoff; simpl.
  - split; [intros _|done]. unfold load_bytes. by rewrite decide_True by lia.
  - rewrite length_app, load_bytes_app. split.
    + intros [Hf Hfs]. rewrite Hf. simpl.
      apply load_bytes_Some in Hf as (?&_&_).
      apply IH in Hfs; [|lia]. by rewrite Hfs.
    + intros (b1&Hb1&(b2&Hb2&[= He])%bind_Some)%bind_Some.
      pose proof (load_bytes_length _ _ _ _ Hb1) as Hl.
      apply app_inj_1 in He as [-> ->]; [|done]. split; [done|].
      apply IH; [|done]. apply load_bytes_Some in Hb1. lia.
Qed.

(** A buffer is the concatenation of the fields found in it. *)
Lemma eq_concat_iff m fs :
  m = concat fs <-> length m = length (concat fs) /\ loads_at m 0 fs.
Proof.
  rewrite loads_at_concat by lia. split.
  - intros ->. split; [done|apply load_bytes_all].
  - intros [Hl Hb]. rewrite <- Hl, load_bytes_all in Hb. congruence.
Qed.

Lemma store_bytes_app m off b1 b2 :
  store_bytes m off (b1 ++ b2) =
    m1 ← store_bytes m off b1; store_bytes m1 (off + length b1) b2.
Proof.
  unfold store_bytes. rewrite length_app.
  repeat case_decide; simpl; rewrite ?length_inserts; repeat case_decide; try done; try lia.
  by rewrite load_bytes_inserts_app.
Qed.

(** Two adjacent writes are one; [f] is any function that writes [b2] at [off2]. *)
Lemma store_bytes_then {A} m off off2 b1 b2 f (k : list byte -> option A) :
  (forall m1, f m1 = store_bytes m1 off2 b2) ->
  off2 = (off + length b1)%nat ->
  (m1 ← store_bytes m off b1; m2 ← f m1; k m2) =
  (m2 ← store_bytes m off (b1 ++ b2); k m2).
Proof.
  intros Hf ->. rewrite store_bytes_app.
  destruct (store_bytes m off b1) as [m1|]; simpl; [|done]. by rewrite Hf.
Qed.

Lemma le_split_app a b v :
  le_split (a + b) v = le_split a v ++ le_split b (Z.shiftr v (8 * Z.of_nat a)).
Proof.
  rewrite <- (take_drop a (le_split (a + b) v)). f_equal.
  - apply le_combine_inj; [rewrite length_take, !length_le_split; lia|].
    change (@take byte) with (@List.firstn byte).
    rewrite le_combine_firstn, !le_combine_split, Nat2Z.inj_add.
    rewrite Z.mod_mod_divide.
    + f_equal. f_equal. lia.
    + exists (2 ^ (Z.of_nat b * 8))%Z. rewrite <- Z.pow_add_r by lia. f_equal. lia.
  - change (@drop byte) with (@List.skipn byte). apply skipn_le_split'.
Qed.

Lemma load_word_app m off a b :
  load_word m off (a + b) =
    lo ← load_word m off a; hi ← load_word m (off + a) b;
    Some (Z.lor lo (Z.shiftl hi (Z.of_nat a * 8))).
Proof.
  unfold load_word. rewrite load_bytes_app.
  destruct (load_bytes m off a) as [b1|] eqn:H1; simpl; [|done].
  destruct (load_bytes m (off + a) b) as [b2|] eqn:H2; simpl; [|done].
  f_equal. rewrite le_combine_app. by rewrite (load_bytes_length _ _ _ _ H1).
Qed.
End Layouts.

(** ** Fields *)

(** The [w]-byte little-endian field at [off] of a buffer. *)
Definition field (m : list byte) (off w : nat) : Z := default 0 (load_word m off w).

Lemma load_word_field packet off w :
  (off + w <= length packet)%nat -> load_word packet off w = Some (field packet off w).
Proof.
  intros. unfold field, load_word.
  by destruct (proj2 (load_bytes_is_Some packet off w)) as [bs ->].
Qed.

Lemma field_range packet off w : is_uint (Z.of_nat w * 8) (field packet off w).
Proof.
  unfold field. destruct (load_word packet off w) eqn:E; simpl.
  - by apply load_word_range in E.
  - unfold is_uint. lia.
Qed.

Lemma field_load packet off w :
  (off + w <= length packet)%nat ->
  load_bytes packet off w = Some (le_split w (field packet off w)).
Proof. intros. by apply load_word_load_bytes, load_word_field. Qed.

Lemma load_field packet off w v :
  load_bytes packet off w = Some (le_split w v) -> field packet off w = wrap (Z.of_nat w * 8) v.
Proof. intros H. unfold field, load_word. rewrite H. simpl. by rewrite le_combine_split. Qed.

(** ** Zero bytes *)

Definition is_zero (value : byte) : bool := byte.unsigned value =? 0.

Lemma is_zero_spec b : is_zero b = true <-> b = Byte.x00.
Proof.
  unfold is_zero. rewrite Z.eqb_eq. split; [|by intros ->].
  intros H. by apply byte.unsigned_inj.
Qed.

Lemma forallb_is_zero bs : forallb is_zero bs = true <-> bs = replicate (length bs) Byte.x00.
Proof.
  induction bs as [|b bs IH]; simpl; [done|].
  rewrite andb_true_iff, is_zero_spec, IH.
  split; [by intros [-> <-]|by intros [= -> <-]].
Qed.

Create HintDb bytes.
#[export] Hint Resolve load_bytes_length load_store_same load_word_store_same : bytes.
