(* ===== verification/Event.v ===== *)
(** * Shared types

    The types of [src/include/lle/event.hpp] and the alignment helper of
    [src/include/lle/detail/alignment.hpp].

    An [EventView] carries its payload as a non-owning span. The type of the payload
    is a parameter here: [span] where the code holds a view into a buffer (a ring
    slot, a packet), [list byte] where only the bytes matter. [event_bytes] reads a
    view through the buffer it points into. *)

From S2P Require Import Prelude Bytes.

(** ** Spans *)

(** A [std::span] into a buffer, as the offset of its first byte and its size. *)
Record span := Span { span_offset : nat; span_size : nat }.

#[export] Instance span_eq_dec : EqDecision span.
Proof. solve_decision. Defined.

(** The bytes a span shows: its buffer is read when the span is used. *)
Definition span_bytes (m : list byte) (s : span) : option (list byte) :=
  load_bytes m (span_offset s) (span_size s).

(** ** Events *)

Inductive DeliveryMode := DeliveryMode_BestEffort | DeliveryMode_ReliableOrdered.

#[export] Instance DeliveryMode_eq_dec : EqDecision DeliveryMode.
Proof. solve_decision. Defined.

Inductive PublishResult :=
  | PublishResult_Ok
  | PublishResult_Full
  | PublishResult_PayloadTooLarge
  | PublishResult_Closed.

#[export] Instance PublishResult_eq_dec : EqDecision PublishResult.
Proof. solve_decision. Defined.

Record EventView (P : Type) := Event {
  stream_id : Z;
  sequence : Z;
  source_timestamp_ns : Z;
  payload : P;
}.
Arguments Event {P} _ _ _ _.
Arguments stream_id {P} _.
Arguments sequence {P} _.
Arguments source_timestamp_ns {P} _.
Arguments payload {P} _.

#[export] Instance EventView_eq_dec `{EqDecision P} : EqDecision (EventView P).
Proof. solve_decision. Defined.

(** An event with its payload bytes. *)
Abbreviation EventData := (EventView (list byte)).

(** The type invariant of [EventView]: [StreamId] is 32-bit, [Sequence] and the
    timestamp are 64-bit. *)
Record event_ok {P} (ev : EventView P) : Prop := EventOk {
  stream_id_ok : is_uint 32 (stream_id ev);
  sequence_ok : is_uint 64 (sequence ev);
  timestamp_ok : is_uint 64 (source_timestamp_ns ev);
}.

Definition payload_size (ev : EventData) : Z := Z.of_nat (length (payload ev)).

Definition with_payload {P Q} (ev : EventView P) (q : Q) : EventView Q :=
  Event (stream_id ev) (sequence ev) (source_timestamp_ns ev) q.

(** Read an event view through the buffer its payload points into. *)
Definition event_bytes (m : list byte) (ev : EventView span) : option EventData :=
  with_payload ev <$> span_bytes m (payload ev).

Lemma with_payload_ok {P Q} (ev : EventView P) (q : Q) :
  event_ok (with_payload ev q) <-> event_ok ev.
Proof. split; intros []; by split. Qed.

(** ** Alignment *)

Definition align_up (value alignment : Z) : Z :=
  let remainder := Z.land value (u64 (alignment - 1)) in
  if remainder =? 0 then value else u64 (u64 (value + alignment) - remainder).

(** For a power-of-two alignment, and a result that fits in [size_t], the helper is
    the least multiple of the alignment that is not below the value. *)
Lemma align_up_spec v k :
  0 <= k < 64 -> 0 <= v -> v + 2 ^ k <= 2 ^ 64 ->
  exists q, align_up v (2 ^ k) = q * 2 ^ k /\ v <= q * 2 ^ k < v + 2 ^ k.
Proof.
  intros Hk Hv Hfit. unfold align_up.
  assert (0 < 2 ^ k) by lia.
  assert (2 ^ k < 2 ^ 64) by (apply Z.pow_lt_mono_r; lia).
  rewrite (wrap_small 64 (2 ^ k - 1)) by uint.
  rewrite land_mask_mod by lia.
  pose proof (Z.div_mod v (2 ^ k) ltac:(lia)) as Hdm.
  pose proof (Z.mod_pos_bound v (2 ^ k) ltac:(lia)) as Hr.
  case_bool; to_prop.
  - exists (v / 2 ^ k). lia.
  - exists (v / 2 ^ k + 1).
    assert (u64 (u64 (v + 2 ^ k) - v mod 2 ^ k) = v + 2 ^ k - v mod 2 ^ k) as ->.
    { rewrite <- Z.add_opp_r, wrap_add_l, wrap_small; uint. }
    lia.
Qed.
