(* ===== verification/ByteIO.v ===== *)
(** * Byte order helpers

    [src/src/protocol/byte_io.hpp]: explicit little-endian stores and loads built
    from two-byte accesses, and the bounds helper. Each is proved equal to the
    reference little-endian view of a buffer ([Bytes]). *)

From S2P Require Import Prelude Bytes.

Definition has_bytes (size offset count : Z) : bool :=
  (offset <=? size) && (count <=? u64 (size - offset)).

Definition write_byte (dst : list byte) (i : nat) (value : Z) : option (list byte) :=
  store_bytes dst i [byte.of_Z value].

Definition write_u16 (dst : list byte) (off : nat) (value : Z) : option (list byte) :=
  dst ← write_byte dst (off + 0) value;
  write_byte dst (off + 1) (Z.shiftr value 8).

Definition write_u32 (dst : list byte) (off : nat) (value : Z) : option (list byte) :=
  dst ← write_u16 dst off (u16 value);
  write_u16 dst (off + 2) (u16 (Z.shiftr value 16)).

Definition write_u64 (dst : list byte) (off : nat) (value : Z) : option (list byte) :=
  dst ← write_u32 dst off (u32 value);
  write_u32 dst (off + 4) (u32 (Z.shiftr value 32)).

Definition read_byte (src : list byte) (i : nat) : option Z := byte.unsigned <$> src !! i.

Definition read_u16 (src : list byte) (off : nat) : option Z :=
  b0 ← read_byte src (off + 0);
  b1 ← read_byte src (off + 1);
  Some (u16 (Z.lor (u16 b0) (Z.shiftl (u16 b1) 8))).

Definition read_u32 (src : list byte) (off : nat) : option Z :=
  lo ← read_u16 src off;
  hi ← read_u16 src (off + 2);
  Some (Z.lor (u32 lo) (u32 (Z.shiftl (u32 hi) 16))).

Definition read_u64 (src : list byte) (off : nat) : option Z :=
  lo ← read_u32 src off;
  hi ← read_u32 src (off + 4);
  Some (Z.lor (u64 lo) (u64 (Z.shiftl (u64 hi) 32))).

(** [has_bytes] decides, without overflow, that [count] bytes at [offset] fit. *)
Lemma has_bytes_spec size offset count :
  is_uint 64 size -> is_uint 64 offset -> is_uint 64 count ->
  has_bytes size offset count = true <-> offset + count <= size.
Proof.
  intros. unfold has_bytes. rewrite andb_true_iff, !Z.leb_le. split.
  - intros [? Hc]. rewrite wrap_small in Hc by uint. lia.
  - intros. split; [uint|]. rewrite wrap_small by uint. uint.
Qed.

(** ** Stores *)

Lemma write_u16_spec dst off v : write_u16 dst off v = store_word dst off 2 v.
Proof.
  unfold write_u16, write_byte, store_word.
  change 2%nat with (1 + 1)%nat.
  rewrite (le_split_app 1 1 v), store_bytes_app. by rewrite Nat.add_0_r.
Qed.

(** A store of [a + b] bytes split in two narrower stores. *)
Lemma store_word_split dst off (a b : nat) v :
  (dst ← store_word dst off a (wrap (Z.of_nat a * 8) v);
   store_word dst (off + a) b (wrap (Z.of_nat b * 8) (Z.shiftr v (8 * Z.of_nat a)))) =
  store_word dst off (a + b) v.
Proof.
  unfold store_word. unfold wrap. rewrite <- !le_split_mod, le_split_app, store_bytes_app.
  by rewrite length_le_split.
Qed.

Lemma write_u32_spec dst off v : write_u32 dst off v = store_word dst off 4 v.
Proof.
  change 4%nat with (2 + 2)%nat. rewrite <- (store_word_split dst off 2 2 v).
  unfold write_u32.
  rewrite write_u16_spec. apply option_bind_ext_fun. intros. apply write_u16_spec.
Qed.

Lemma write_u64_spec dst off v : write_u64 dst off v = store_word dst off 8 v.
Proof.
  change 8%nat with (4 + 4)%nat. rewrite <- (store_word_split dst off 4 4 v).
  unfold write_u64.
  rewrite write_u32_spec. apply option_bind_ext_fun. intros. apply write_u32_spec.
Qed.

(** ** Loads *)

Lemma read_byte_spec src i : read_byte src i = load_word src i 1.
Proof.
  unfold read_byte, load_word, load_bytes. case_decide as Hd; simpl.
  - destruct (lookup_lt_is_Some_2 src i) as [b Hb]; [lia|].
    rewrite Hb, (drop_S _ _ _ Hb). simpl. by rewrite le_combine_1.
  - by rewrite lookup_ge_None_2 by lia.
Qed.

Lemma shiftl_is_uint (a b : nat) hi :
  is_uint (Z.of_nat b * 8) hi ->
  is_uint (Z.of_nat (a + b) * 8) (Z.shiftl hi (Z.of_nat a * 8)).
Proof.
  unfold is_uint. intros. rewrite Z.shiftl_mul_pow2 by lia.
  rewrite Nat2Z.inj_add, Z.mul_add_distr_r, Z.pow_add_r by lia. nia.
Qed.

Lemma wrap_lor_shift (a b : nat) hi :
  is_uint (Z.of_nat b * 8) hi ->
  wrap (Z.of_nat (a + b) * 8) (Z.shiftl hi (Z.of_nat a * 8)) = Z.shiftl hi (Z.of_nat a * 8).
Proof.
  intros. by apply wrap_small, shiftl_is_uint.
Qed.

(** Two loads joined the way the readers do it. *)
Lemma load_word_join src off (a b : nat) :
  (lo ← load_word src off a; hi ← load_word src (off + a) b;
   Some (Z.lor (wrap (Z.of_nat (a + b) * 8) lo)
               (wrap (Z.of_nat (a + b) * 8)
                     (Z.shiftl (wrap (Z.of_nat (a + b) * 8) hi) (Z.of_nat a * 8))))) =
  load_word src off (a + b).
Proof.
  rewrite load_word_app.
  destruct (load_word src off a) as [lo|] eqn:Hlo; simpl; [|done].
  destruct (load_word src (off + a) b) as [hi|] eqn:Hhi; simpl; [|done].
  apply load_word_range in Hlo, Hhi. f_equal. f_equal.
  - apply wrap_small. eauto with uint.
  - rewrite (wrap_small _ hi) by eauto with uint. by eapply wrap_lor_shift.
Qed.

Lemma read_u16_spec src off : read_u16 src off = load_word src off 2.
Proof.
  change 2%nat with (1 + 1)%nat. rewrite <- (load_word_join src off 1 1).
  unfold read_u16.
  rewrite Nat.add_0_r, !read_byte_spec.
  destruct (load_word src off 1) as [lo|] eqn:Hlo; simpl; [|done].
  destruct (load_word src (off + 1) 1) as [hi|] eqn:Hhi; simpl; [|done].
  apply load_word_range in Hlo, Hhi. f_equal. simpl Z.of_nat. simpl Z.mul.
  rewrite (wrap_small 16 (Z.shiftl _ _)); [apply wrap_small, lor_is_uint|];
    rewrite ?wrap_small by eauto with uint; eauto with uint;
    apply (shiftl_is_uint 1 1); by eauto with uint.
Qed.

Lemma read_u32_spec src off : read_u32 src off = load_word src off 4.
Proof.
  change 4%nat with (2 + 2)%nat. rewrite <- (load_word_join src off 2 2).
  unfold read_u32.
  by rewrite !read_u16_spec.
Qed.

Lemma read_u64_spec src off : read_u64 src off = load_word src off 8.
Proof.
  change 8%nat with (4 + 4)%nat. rewrite <- (load_word_join src off 4 4).
  unfold read_u64.
  by rewrite !read_u32_spec.
Qed.

Create Rewrite HintDb byte_io.
#[export] Hint Rewrite write_u16_spec write_u32_spec write_u64_spec
  read_u16_spec read_u32_spec read_u64_spec : byte_io.
