(* ===== verification/Protocol.v ===== *)
(** * LLEP single-event DATA packets

    [src/include/lle/protocol/types.hpp], [src/src/protocol/encoder.cpp] and
    [src/src/protocol/decoder.cpp]. Buffers are byte lists; the outer [option] of
    [encode_data] and [decode_data] is [None] if the code touches a byte outside the
    span it was given.

    The specification is the wire image [data_packet]: the fields of a DATA packet in
    order. The encoder writes exactly this image ([encode_data_spec]) and the decoder
    accepts exactly these images ([decode_data_iff]). *)

From S2P Require Import Prelude Bytes Event ByteIO.

(** ** Constants and types *)

Definition kMagic : Z := 0x4c.
Definition kVersion : Z := 1.

Inductive MessageType := MessageType_Invalid | MessageType_Data | MessageType_Nack.

Definition MessageType_value (t : MessageType) : Z :=
  match t with
  | MessageType_Invalid => 0
  | MessageType_Data => 1
  | MessageType_Nack => 2
  end.

Definition kCommonHeaderBytes : Z := 8.
Definition kDataPacketHeaderBytes : Z := 16.
Definition kDataLevelBytes : Z := 20.
Definition kDataFixedBytes : Z := 36.
Definition kEventFrameHeaderBytes : Z := 6.
Definition kNackRangeBytes : Z := 10.
Definition kEventFrameAlignmentBytes : Z := 4.
Definition kMaxPacketBytes : Z := 1416.
Definition kMinDataPacketBytes : Z := 44.
Definition kMaxSingleEventPayloadBytes : Z := 1374.
Definition kMaxNackRanges : Z := 64.
Definition kMaxNackRequestedPackets : Z := 4096.

(** The [static_assert]s on sizes. *)
Definition packet_size_asserts : list bool :=
  [kDataPacketHeaderBytes + kDataLevelBytes =? kDataFixedBytes;
   kDataFixedBytes + kEventFrameHeaderBytes + 2 =? kMinDataPacketBytes;
   kDataFixedBytes + kEventFrameHeaderBytes + kMaxSingleEventPayloadBytes =? kMaxPacketBytes].

Example packet_size_asserts_hold : forallb id packet_size_asserts = true.
Proof. vm_compute. reflexivity. Qed.

Inductive EncodeError :=
  | EncodeError_InvalidSessionId
  | EncodeError_InvalidPacketSequence
  | EncodeError_InvalidEventSequence
  | EncodeError_PayloadTooLarge
  | EncodeError_OutputTooSmall.

#[export] Instance EncodeError_eq_dec : EqDecision EncodeError.
Proof. solve_decision. Defined.

Inductive DecodeError :=
  | DecodeError_Truncated
  | DecodeError_InvalidMagic
  | DecodeError_UnsupportedVersion
  | DecodeError_UnsupportedType
  | DecodeError_PacketLengthMismatch
  | DecodeError_PacketTooLarge
  | DecodeError_InvalidSessionId
  | DecodeError_InvalidPacketSequence
  | DecodeError_InvalidEventSequence
  | DecodeError_MalformedFrame
  | DecodeError_NonZeroPadding
  | DecodeError_ArithmeticOverflow
  | DecodeError_UnsupportedBatch.

#[export] Instance DecodeError_eq_dec : EqDecision DecodeError.
Proof. solve_decision. Defined.

Record DecodedDataView := DecodedData {
  session_id : Z;
  packet_sequence : Z;
  event : EventView span;
}.

#[export] Instance DecodedDataView_eq_dec : EqDecision DecodedDataView.
Proof. solve_decision. Defined.

(** ** Encoder *)

(** Writes the packet into [output] and returns its size. *)
Definition encode_data (event : EventData) (session_id packet_sequence : Z)
    (output : list byte) : option (expected Z EncodeError * list byte) :=
  if session_id =? 0 then Some (Unexpected EncodeError_InvalidSessionId, output) else
  if packet_sequence =? 0 then Some (Unexpected EncodeError_InvalidPacketSequence, output) else
  if sequence event =? 0 then Some (Unexpected EncodeError_InvalidEventSequence, output) else
  if kMaxSingleEventPayloadBytes <? payload_size event
  then Some (Unexpected EncodeError_PayloadTooLarge, output) else
  let payload_size := payload_size event in
  let frame_size :=
    align_up (u64 (payload_size + kEventFrameHeaderBytes)) kEventFrameAlignmentBytes in
  let packet_size := u64 (frame_size + kDataFixedBytes) in
  if Z.of_nat (length output) <? packet_size
  then Some (Unexpected EncodeError_OutputTooSmall, output) else
  output ← write_byte output 0 kMagic;
  output ← write_byte output 1
             (Z.lor (Z.shiftl kVersion 4) (MessageType_value MessageType_Data));
  output ← write_u16 output 2 (u16 packet_size);
  output ← write_u32 output 4 session_id;
  output ← write_u64 output 8 packet_sequence;
  output ← write_u64 output 16 (sequence event);
  output ← write_u64 output 24 (source_timestamp_ns event);
  output ← write_u32 output 32 (stream_id event);
  output ← write_u32 output 36 0;
  output ← write_u16 output 40 (u16 payload_size);
  output ← store_bytes output 42 (payload event);
  output ← store_bytes output (42 + Z.to_nat payload_size)
             (replicate (Z.to_nat (packet_size - (42 + payload_size))) Byte.x00);
  Some (Value packet_size, output).

(** ** Decoder *)

(** [std::span::subspan]: the range must lie within the span. *)
Definition subspan (size offset count : Z) : option span :=
  if (offset <=? size) && (count <=? size - offset)
  then Some (Span (Z.to_nat offset) (Z.to_nat count)) else None.

Definition decode_data (packet : list byte) : option (expected DecodedDataView DecodeError) :=
  let size := Z.of_nat (length packet) in
  if size <? kCommonHeaderBytes then Some (Unexpected DecodeError_Truncated) else
  if kMaxPacketBytes <? size then Some (Unexpected DecodeError_PacketTooLarge) else
  magic ← read_byte packet 0;
  if negb (magic =? kMagic) then Some (Unexpected DecodeError_InvalidMagic) else
  version_and_type ← read_byte packet 1;
  if negb (Z.shiftr version_and_type 4 =? kVersion)
  then Some (Unexpected DecodeError_UnsupportedVersion) else
  if negb (Z.land version_and_type 0x0f =? MessageType_value MessageType_Data)
  then Some (Unexpected DecodeError_UnsupportedType) else
  packet_length ← read_u16 packet 2;
  if negb (packet_length =? size) then Some (Unexpected DecodeError_PacketLengthMismatch) else
  session_id ← read_u32 packet 4;
  if session_id =? 0 then Some (Unexpected DecodeError_InvalidSessionId) else
  if size <? kMinDataPacketBytes then Some (Unexpected DecodeError_Truncated) else
  packet_sequence ← read_u64 packet 8;
  if packet_sequence =? 0 then Some (Unexpected DecodeError_InvalidPacketSequence) else
  event_sequence ← read_u64 packet 16;
  if event_sequence =? 0 then Some (Unexpected DecodeError_InvalidEventSequence) else
  source_timestamp_ns ← read_u64 packet 24;
  stream_id ← read_u32 packet 32;
  timestamp_delta ← read_u32 packet 36;
  if negb (timestamp_delta =? 0) then Some (Unexpected DecodeError_MalformedFrame) else
  payload_size ← read_u16 packet 40;
  if kMaxSingleEventPayloadBytes <? payload_size
  then Some (Unexpected DecodeError_MalformedFrame) else
  let frame_size :=
    align_up (u64 (kEventFrameHeaderBytes + payload_size)) kEventFrameAlignmentBytes in
  if negb (has_bytes size kDataFixedBytes frame_size)
  then Some (Unexpected DecodeError_MalformedFrame) else
  let payload_offset := kDataFixedBytes + kEventFrameHeaderBytes in
  padding ← subspan size (u64 (payload_offset + payload_size))
              (u64 (u64 (kDataFixedBytes + frame_size) - u64 (payload_offset + payload_size)));
  padding_bytes ← span_bytes packet padding;
  if negb (forallb is_zero padding_bytes)
  then Some (Unexpected DecodeError_NonZeroPadding) else
  if negb (size =? u64 (kDataFixedBytes + frame_size))
  then Some (Unexpected DecodeError_UnsupportedBatch) else
  payload ← subspan size payload_offset payload_size;
  Some (Value (DecodedData session_id packet_sequence
                 (Event stream_id event_sequence source_timestamp_ns payload))).

(** ** The wire image *)

(** Frame padding after [n] payload bytes, and the resulting packet size. *)
Definition padding_size (n : Z) : Z := (- (kEventFrameHeaderBytes + n)) mod kEventFrameAlignmentBytes.
Definition data_packet_size (n : Z) : Z :=
  kDataFixedBytes + kEventFrameHeaderBytes + n + padding_size n.

Definition packet_fields (sid pseq : Z) (ev : EventData) : list (list byte) :=
  [ [byte.of_Z 0x4c]; [byte.of_Z 0x11];
    le_split 2 (data_packet_size (payload_size ev)); le_split 4 sid;
    le_split 8 pseq; le_split 8 (sequence ev); le_split 8 (source_timestamp_ns ev);
    le_split 4 (stream_id ev); le_split 4 0;
    le_split 2 (payload_size ev); payload ev;
    replicate (Z.to_nat (padding_size (payload_size ev))) Byte.x00 ].

Definition data_packet (sid pseq : Z) (ev : EventData) : list byte :=
  concat (packet_fields sid pseq ev).

(** What may travel in one packet. *)
Record packet_ok (sid pseq : Z) (ev : EventData) : Prop := PacketOk {
  packet_sid : sid <> 0 /\ is_uint 32 sid;
  packet_pseq : pseq <> 0 /\ is_uint 64 pseq;
  packet_event : sequence ev <> 0 /\ event_ok ev;
  packet_payload : payload_size ev <= kMaxSingleEventPayloadBytes;
}.

(** ** Sizes *)

Lemma padding_size_range n : 0 <= padding_size n < 4.
Proof. apply Z.mod_pos_bound. reflexivity. Qed.

Lemma payload_size_nonneg ev : 0 <= payload_size ev.
Proof. unfold payload_size. lia. Qed.

(** The frame size the code computes is the padded size. *)
Lemma frame_size_spec n :
  0 <= n <= 65535 ->
  align_up (u64 (kEventFrameHeaderBytes + n)) kEventFrameAlignmentBytes =
    kEventFrameHeaderBytes + n + padding_size n.
Proof.
  unfold kEventFrameHeaderBytes, kEventFrameAlignmentBytes. intros.
  unwrap. change 4 with (2 ^ 2).
  destruct (align_up_spec (6 + n) 2) as (q&->&Hq); [lia..|].
  unfold padding_size, kEventFrameHeaderBytes, kEventFrameAlignmentBytes.
  enough ((- (6 + n)) mod 4 = q * 2 ^ 2 - (6 + n)) by lia.
  symmetry. apply Z.mod_unique with (- q); lia.
Qed.

Lemma length_data_packet sid pseq ev :
  Z.of_nat (length (data_packet sid pseq ev)) = data_packet_size (payload_size ev).
Proof.
  unfold data_packet, packet_fields, data_packet_size, payload_size.
  pose proof (padding_size_range (Z.of_nat (length (payload ev)))).
  cbn [concat]. rewrite !length_app, !length_le_split, length_replicate. simpl length.
  unfold kDataFixedBytes, kEventFrameHeaderBytes. lia.
Qed.

(** ** Encoding *)

(** What [encode_data] promises: the first failing check decides the error and the
    output is untouched; otherwise the wire image is written at the front. *)
Definition encode_reference (ev : EventData) (sid pseq : Z) (output : list byte) :
    expected Z EncodeError * list byte :=
  if sid =? 0 then (Unexpected EncodeError_InvalidSessionId, output) else
  if pseq =? 0 then (Unexpected EncodeError_InvalidPacketSequence, output) else
  if sequence ev =? 0 then (Unexpected EncodeError_InvalidEventSequence, output) else
  if kMaxSingleEventPayloadBytes <? payload_size ev
  then (Unexpected EncodeError_PayloadTooLarge, output) else
  if Z.of_nat (length output) <? data_packet_size (payload_size ev)
  then (Unexpected EncodeError_OutputTooSmall, output) else
  (Value (data_packet_size (payload_size ev)),
   data_packet sid pseq ev ++ drop (Z.to_nat (data_packet_size (payload_size ev))) output).

Lemma store_front (m bs : list byte) :
  (length bs <= length m)%nat ->
  store_bytes m 0 bs = Some (bs ++ drop (length bs) m).
Proof.
  intros. rewrite store_bytes_is_Some by lia. f_equal.
  rewrite <- (take_drop (length bs) m) at 1.
  apply list_inserts_0_r. rewrite length_take. lia.
Qed.

Lemma le_split_wrap (w : nat) v : le_split w (wrap (Z.of_nat w * 8) v) = le_split w v.
Proof. symmetry. apply le_split_mod. Qed.

(** The twelve writes of the encoder are one write of the wire image. *)
Lemma encode_writes ev sid pseq output :
  let n := payload_size ev in
  (output ← write_byte output 0 kMagic;
   output ← write_byte output 1 (Z.lor (Z.shiftl kVersion 4) (MessageType_value MessageType_Data));
   output ← write_u16 output 2 (u16 (data_packet_size n));
   output ← write_u32 output 4 sid;
   output ← write_u64 output 8 pseq;
   output ← write_u64 output 16 (sequence ev);
   output ← write_u64 output 24 (source_timestamp_ns ev);
   output ← write_u32 output 32 (stream_id ev);
   output ← write_u32 output 36 0;
   output ← write_u16 output 40 (u16 n);
   output ← store_bytes output 42 (payload ev);
   output ← store_bytes output (42 + Z.to_nat n)
              (replicate (Z.to_nat (data_packet_size n - (42 + n))) Byte.x00);
   Some (Value (E := EncodeError) (data_packet_size n), output)) =
  (output ← store_bytes output 0 (data_packet sid pseq ev);
   Some (Value (data_packet_size n), output)).
Proof.
  intros n. unfold write_byte, data_packet, packet_fields. cbn [concat].
  do 11 (erewrite store_bytes_then;
    [|intros; first [apply write_u16_spec|apply write_u32_spec|apply write_u64_spec|reflexivity]
     |rewrite ?length_app, ?length_le_split; subst n; unfold payload_size; simpl; lia]).
  rewrite !(le_split_wrap 2), app_nil_r, <- !app_assoc.
  replace (data_packet_size n - (42 + n)) with (padding_size n)
    by (unfold data_packet_size, kDataFixedBytes, kEventFrameHeaderBytes; lia).
  reflexivity.
Qed.

Theorem encode_data_spec ev sid pseq output :
  encode_data ev sid pseq output = Some (encode_reference ev sid pseq output).
Proof.
  unfold encode_data, encode_reference.
  destruct (sid =? 0), (pseq =? 0), (sequence ev =? 0); [done..|].
  case_bool; [done|to_prop].
  pose proof (payload_size_nonneg ev). pose proof (padding_size_range (payload_size ev)).
  rewrite (Z.add_comm (payload_size ev)).
  rewrite frame_size_spec by (unfold kMaxSingleEventPayloadBytes in *; lia).
  replace (u64 _) with (data_packet_size (payload_size ev)).
  2: { unfold data_packet_size, kMaxSingleEventPayloadBytes, kDataFixedBytes,
               kEventFrameHeaderBytes in *. unwrap. lia. }
  case_bool; [done|to_prop].
  pose proof (length_data_packet sid pseq ev) as Hl.
  rewrite encode_writes, store_front by lia.
  by replace (length (data_packet sid pseq ev))
    with (Z.to_nat (data_packet_size (payload_size ev))) by lia.
Qed.

(** ** Decoding *)

(** The validation rules in the order the decoder applies them, each with the error
    it reports. *)
Definition decode_checks (packet : list byte) : list (bool * DecodeError) :=
  let size := Z.of_nat (length packet) in
  let n := field packet 40 2 in
  let frame_end := data_packet_size n in
  [ (8 <=? size, DecodeError_Truncated);
    (size <=? 1416, DecodeError_PacketTooLarge);
    (field packet 0 1 =? 0x4c, DecodeError_InvalidMagic);
    (field packet 1 1 / 16 =? 1, DecodeError_UnsupportedVersion);
    (field packet 1 1 mod 16 =? 1, DecodeError_UnsupportedType);
    (field packet 2 2 =? size, DecodeError_PacketLengthMismatch);
    (negb (field packet 4 4 =? 0), DecodeError_InvalidSessionId);
    (44 <=? size, DecodeError_Truncated);
    (negb (field packet 8 8 =? 0), DecodeError_InvalidPacketSequence);
    (negb (field packet 16 8 =? 0), DecodeError_InvalidEventSequence);
    (field packet 36 4 =? 0, DecodeError_MalformedFrame);
    (n <=? 1374, DecodeError_MalformedFrame);
    (frame_end <=? size, DecodeError_MalformedFrame);
    (forallb is_zero (take (Z.to_nat (padding_size n)) (drop (42 + Z.to_nat n) packet)),
       DecodeError_NonZeroPadding);
    (size =? frame_end, DecodeError_UnsupportedBatch) ].

Definition decode_reference (packet : list byte) : expected DecodedDataView DecodeError :=
  match first_failure (decode_checks packet) with
  | Some e => Unexpected e
  | None =>
      Value (DecodedData (field packet 4 4) (field packet 8 8)
        (Event (field packet 32 4) (field packet 16 8) (field packet 24 8)
               (Span 42 (Z.to_nat (field packet 40 2)))))
  end.

Lemma shiftr_4 v : Z.shiftr v 4 = v / 16.
Proof. by rewrite Z.shiftr_div_pow2 by lia. Qed.

Lemma land_0x0f v : Z.land v 0x0f = v mod 16.
Proof. by rewrite (land_mask_mod 4) by lia. Qed.

(** One guard of the decoder against one rule of the reference. *)
Ltac decode_guard :=
  match goal with
  | |- (if negb ?b then _ else _) = _ =>
      destruct b eqn:?; cbn [negb first_failure]; [|reflexivity]
  | |- (if ?b then _ else _) = _ =>
      destruct b eqn:?; cbn [negb first_failure]; [reflexivity|]
  end.

(** One field read of the decoder. *)
Ltac decode_read :=
  match goal with
  | |- mbind _ (read_byte ?p ?o) = _ => rewrite (read_byte_spec p o), (load_word_field p o 1) by lia
  | |- mbind _ (read_u16 ?p ?o) = _ => rewrite (read_u16_spec p o), (load_word_field p o 2) by lia
  | |- mbind _ (read_u32 ?p ?o) = _ => rewrite (read_u32_spec p o), (load_word_field p o 4) by lia
  | |- mbind _ (read_u64 ?p ?o) = _ => rewrite (read_u64_spec p o), (load_word_field p o 8) by lia
  end; cbn [mbind option_bind].

Lemma subspan_Some size off count :
  0 <= off -> 0 <= count -> off + count <= size ->
  subspan size off count = Some (Span (Z.to_nat off) (Z.to_nat count)).
Proof.
  intros. unfold subspan.
  by rewrite (proj2 (Z.leb_le off size)), (proj2 (Z.leb_le count (size - off))) by lia.
Qed.

(** The bounds of the single frame, as the decoder computes them. *)
Lemma frame_bounds n size :
  0 <= n <= 1374 -> 0 <= size <= 1416 ->
  let frame_size := align_up (u64 (kEventFrameHeaderBytes + n)) kEventFrameAlignmentBytes in
  u64 (kDataFixedBytes + frame_size) = data_packet_size n /\
  u64 (kDataFixedBytes + kEventFrameHeaderBytes + n) = 42 + n /\
  u64 (data_packet_size n - (42 + n)) = padding_size n /\
  has_bytes size kDataFixedBytes frame_size = (data_packet_size n <=? size).
Proof.
  intros ??. pose proof (padding_size_range n). rewrite frame_size_spec by lia.
  unfold data_packet_size, kDataFixedBytes, kEventFrameHeaderBytes in *.
  cbv zeta. split_and!; [unwrap; lia..|].
  apply eq_true_iff_eq. rewrite has_bytes_spec, Z.leb_le by uint. lia.
Qed.

Theorem decode_data_spec packet : decode_data packet = Some (decode_reference packet).
Proof.
  unfold decode_data, decode_reference, decode_checks, kMinDataPacketBytes,
    kMaxPacketBytes, kCommonHeaderBytes, kMagic, kVersion, MessageType_value,
    kMaxSingleEventPayloadBytes.
  set (size := Z.of_nat (length packet)). cbn [first_failure].
  rewrite (Z.leb_antisym size 8), (Z.leb_antisym 1416 size), (Z.leb_antisym size 44).
  decode_guard. decode_guard. to_prop. subst size.
  decode_read. decode_guard. decode_read. rewrite shiftr_4, land_0x0f.
  decode_guard. decode_guard.
  do 2 (decode_read; decode_guard). decode_guard. to_prop.
  do 2 (decode_read; decode_guard). do 3 decode_read. decode_guard.
  decode_read. 
  rewrite (Z.leb_antisym 1374). decode_guard. to_prop.
  pose proof (field_range packet 40 2) as Hn.
  set (n := field packet 40 2) in *.
  destruct (frame_bounds n (Z.of_nat (length packet))) as (HA&HB&HC&HD); [uint..|].
  rewrite HA, HB, HC, HD. pose proof (padding_size_range n) as Hpad.
  decode_guard. to_prop.
  assert (42 + n + padding_size n <= Z.of_nat (length packet)) as Hin
    by (unfold data_packet_size, kDataFixedBytes, kEventFrameHeaderBytes in *; lia).
  rewrite !subspan_Some by (unfold kDataFixedBytes, kEventFrameHeaderBytes; uint).
  unfold span_bytes, load_bytes. cbn [mbind option_bind span_offset span_size].
  rewrite decide_True by uint. cbn [mbind option_bind].
  replace (Z.to_nat (42 + n)) with (42 + Z.to_nat n)%nat by uint.
  decode_guard. decode_guard. done.
Qed.

(** ** The decoder accepts exactly the wire images *)

(** The fields of a wire image, read back. *)
Lemma data_packet_loads sid pseq ev :
  let p := data_packet sid pseq ev in
  let n := length (payload ev) in
  field p 0 1 = 0x4c /\ field p 1 1 = 0x11 /\
  field p 2 2 = u16 (data_packet_size (payload_size ev)) /\
  field p 4 4 = u32 sid /\ field p 8 8 = u64 pseq /\ field p 16 8 = u64 (sequence ev) /\
  field p 24 8 = u64 (source_timestamp_ns ev) /\ field p 32 4 = u32 (stream_id ev) /\
  field p 36 4 = 0 /\ field p 40 2 = u16 (payload_size ev) /\
  load_bytes p 42 n = Some (payload ev) /\
  load_bytes p (42 + n) (Z.to_nat (padding_size (payload_size ev))) =
    Some (replicate (Z.to_nat (padding_size (payload_size ev))) Byte.x00).
Proof.
  intros p n. pose proof (proj1 (eq_concat_iff p _) eq_refl) as [_ Hl].
  unfold packet_fields in Hl. cbn [loads_at] in Hl.
  rewrite !length_le_split, length_replicate in Hl. simpl length in Hl. simpl Nat.add in Hl.
  destruct Hl as (H0&H1&H2&H3&H4&H5&H6&H7&H8&H9&H10&H11&_).
  split_and!; try done;
    first [by apply (load_field _ _ 1)|by apply (load_field _ _ 2)
          |by apply (load_field _ _ 4)|by apply (load_field _ _ 8)].
Qed.

Definition decoded_view (sid pseq : Z) (ev : EventData) : DecodedDataView :=
  DecodedData sid pseq (with_payload ev (Span 42 (length (payload ev)))).

Lemma data_packet_size_bounds n :
  0 <= n <= 1374 -> 44 <= data_packet_size n <= 1416 /\ 42 + n + padding_size n = data_packet_size n.
Proof.
  intros. pose proof (padding_size_range n) as Hp.
  unfold data_packet_size, padding_size, kDataFixedBytes, kEventFrameHeaderBytes,
    kEventFrameAlignmentBytes in *.
  pose proof (Z.div_mod (- (6 + n)) 4 ltac:(lia)). lia.
Qed.

(** Soundness of the image: every wire image decodes to its event. *)
Lemma decode_data_packet sid pseq ev :
  packet_ok sid pseq ev ->
  decode_data (data_packet sid pseq ev) = Some (Value (decoded_view sid pseq ev)).
Proof.
  intros [[Hs Hsu] [Hp Hpu] [He [Hst Hsq Hts]] Hn]. unfold kMaxSingleEventPayloadBytes in Hn.
  pose proof (payload_size_nonneg ev) as Hn0.
  pose proof (data_packet_size_bounds (payload_size ev) ltac:(lia)) as [Hsz Hsum].
  pose proof (length_data_packet sid pseq ev) as Hlen.
  destruct (data_packet_loads sid pseq ev) as (F0&F1&F2&F3&F4&F5&F6&F7&F8&F9&L10&L11).
  rewrite decode_data_spec. unfold decode_reference.
  assert (first_failure (decode_checks (data_packet sid pseq ev)) = None) as ->.
  { apply first_failure_None. unfold decode_checks. rewrite F0, F1, F2, F3, F4, F5, F8, F9, Hlen.
    unwrap. replace (Z.to_nat (payload_size ev)) with (length (payload ev))
      by (unfold payload_size; lia).
    unfold load_bytes in L11. destruct (decide _) in L11; [apply (inj Some) in L11|done].
    rewrite L11. repeat constructor; simpl; rewrite ?negb_true_iff; try lia.
    apply forallb_is_zero. by rewrite length_replicate. }
  rewrite F3, F4, F5, F6, F7, F9. unwrap. unfold decoded_view, with_payload, payload_size.
  by rewrite Nat2Z.id.
Qed.

(** The event a decoded packet carries, with its payload bytes. *)
Definition packet_event_of (packet : list byte) : EventData :=
  Event (field packet 32 4) (field packet 16 8) (field packet 24 8)
        (take (Z.to_nat (field packet 40 2)) (drop 42 packet)).

(** Completeness: a packet that passes every rule is the image of its event. *)
Lemma decode_checks_packet packet :
  Forall (fun c => c.1 = true) (decode_checks packet) ->
  let ev := packet_event_of packet in
  packet_ok (field packet 4 4) (field packet 8 8) ev /\
  packet = data_packet (field packet 4 4) (field packet 8 8) ev /\
  length (payload ev) = Z.to_nat (field packet 40 2).
Proof.
  intros Hc ev. unfold decode_checks in Hc.
  repeat (apply Forall_cons in Hc as [? Hc]; cbn [fst] in *); to_prop.
  pose proof (field_range packet 40 2) as Hn. simpl in Hn.
  pose proof (data_packet_size_bounds (field packet 40 2) ltac:(uint)) as [Hsz Hsum].
  pose proof (padding_size_range (field packet 40 2)) as Hpad.
  assert (length (payload ev) = Z.to_nat (field packet 40 2)) as Hl.
  { simpl. rewrite length_take, length_drop. uint. }
  assert (payload_size ev = field packet 40 2) as Hps by (unfold payload_size; rewrite Hl; uint).
  split_and!; [split|..]; try done.
  - split; [done|apply (field_range packet 4 4)].
  - split; [done|apply (field_range packet 8 8)].
  - split; [done|split; [apply (field_range packet 32 4)|apply (field_range packet 16 8)
                        |apply (field_range packet 24 8)]].
  - rewrite Hps. done.
  - apply eq_concat_iff. split.
    { apply Nat2Z.inj. change (concat _) with (data_packet (field packet 4 4) (field packet 8 8) ev).
      rewrite length_data_packet, Hps. lia. }
    unfold packet_fields. rewrite Hps.
    cbn [loads_at]. rewrite !length_le_split, length_replicate, Hl. simpl length. simpl Nat.add.
    assert (forall off w v, (off + w <= 44)%nat -> field packet off w = v ->
              load_bytes packet off w = Some (le_split w v)) as Hf.
    { intros off w v ? <-. apply field_load. lia. }
    split_and!; try done; try (by apply Hf; [lia|]).
    + apply (Hf 0%nat 1%nat); [lia|done].
    + apply (Hf 1%nat 1%nat); [lia|]. pose proof (Z.div_mod (field packet 1 1) 16 ltac:(lia)). lia.
    + apply Hf; lia.
    + unfold load_bytes. by rewrite decide_True by uint.
    + assert (42 + Z.to_nat (field packet 40 2) + Z.to_nat (padding_size (field packet 40 2))
              <= length packet)%nat
        by uint.
      unfold load_bytes. rewrite decide_True by lia.
      match goal with H : forallb is_zero _ = true |- _ =>
        apply forallb_is_zero in H; etransitivity; [exact (f_equal Some H)|] end.
      rewrite length_take, length_drop. do 2 f_equal. lia.
Qed.

Theorem decode_data_iff packet d :
  decode_data packet = Some (Value d) <->
  exists sid pseq ev,
    packet_ok sid pseq ev /\ packet = data_packet sid pseq ev /\ d = decoded_view sid pseq ev.
Proof.
  split; [|intros (?&?&?&?&->&->); by apply decode_data_packet].
  rewrite decode_data_spec. unfold decode_reference.
  destruct (first_failure _) eqn:Hf; [done|]. intros [= <-].
  apply first_failure_None, decode_checks_packet in Hf as (Hok&Hp&Hl).
  eexists _, _, _. split_and!; [exact Hok|exact Hp|].
  unfold decoded_view, with_payload. by rewrite Hl.
Qed.

(** The payload view of a decoded packet, read through the packet. *)
Lemma decoded_event_bytes sid pseq ev :
  packet_ok sid pseq ev ->
  event_bytes (data_packet sid pseq ev) (event (decoded_view sid pseq ev)) = Some ev.
Proof.
  intros _. destruct (data_packet_loads sid pseq ev) as (_&_&_&_&_&_&_&_&_&_&L10&_).
  unfold event_bytes, span_bytes, decoded_view.
  cbn [event payload with_payload span_offset span_size]. rewrite L10.
  by destruct ev.
Qed.

(** ** Properties *)

Lemma encode_reference_length ev sid pseq output :
  length (encode_reference ev sid pseq output).2 = length output.
Proof.
  unfold encode_reference. repeat case_bool; cbn [snd]; try done. to_prop.
  pose proof (length_data_packet sid pseq ev) as Hl.
  pose proof (padding_size_range (payload_size ev)). pose proof (payload_size_nonneg ev).
  rewrite length_app, length_drop. lia.
Qed.

Lemma data_packet_size_mod n : data_packet_size n mod 4 = 0.
Proof.
  unfold data_packet_size, padding_size, kDataFixedBytes, kEventFrameHeaderBytes,
    kEventFrameAlignmentBytes.
  pose proof (Z.div_mod (- (6 + n)) 4 ltac:(lia)).
  replace (_ + _) with ((9 - (- (6 + n)) / 4) * 4) by lia. by apply Z.mod_mul.
Qed.

(** C17. On every input the encoder stays inside the output buffer; the first failing
    check decides the error and leaves the buffer unchanged, and otherwise the wire
    image of the event is written at the front, nothing behind it changes, and the
    returned size is a multiple of four within the protocol's limits. *)
Theorem encode_data_correct ev sid pseq output :
  exists result output',
    encode_data ev sid pseq output = Some (result, output') /\
    (result, output') = encode_reference ev sid pseq output /\
    length output' = length output /\
    (forall size, result = Value size ->
       44 <= size <= 1416 /\ size mod 4 = 0 /\ size <= Z.of_nat (length output)).
Proof.
  rewrite encode_data_spec. pose proof (encode_reference_length ev sid pseq output) as Hl.
  destruct (encode_reference ev sid pseq output) as [result output'] eqn:He.
  exists result, output'. split_and!; [done..|]. intros size ->.
  unfold encode_reference in He. repeat case_bool_in He; simplify_eq. to_prop.
  pose proof (payload_size_nonneg ev). unfold kMaxSingleEventPayloadBytes in *.
  pose proof (data_packet_size_bounds (payload_size ev) ltac:(lia)).
  pose proof (data_packet_size_mod (payload_size ev)). lia.
Qed.

(** C18. On every byte string, however malformed, the decoder stays inside the packet and
    reports the first validation rule that fails, in the order of the rules of
    [decode_reference], which is the code's; it never reports an arithmetic overflow, and an
    accepted payload view lies in the packet. *)
Theorem decode_data_correct packet :
  decode_data packet = Some (decode_reference packet) /\
  decode_reference packet <> Unexpected DecodeError_ArithmeticOverflow /\
  (forall d, decode_reference packet = Value d ->
     is_Some (span_bytes packet (payload (event d)))).
Proof.
  split; [apply decode_data_spec|split].
  - unfold decode_reference, decode_checks. cbn [first_failure].
    repeat case_bool; congruence.
  - intros d Hd. pose proof (decode_data_spec packet) as Hs. rewrite Hd in Hs.
    unfold decode_reference in Hd. destruct (first_failure _) eqn:Hf; [done|].
    injection Hd as <-. apply first_failure_None in Hf.
    unfold decode_checks in Hf.
    repeat (apply Forall_cons in Hf as [? Hf]; cbn [fst] in *); to_prop.
    pose proof (field_range packet 40 2). 
    pose proof (data_packet_size_bounds (field packet 40 2) ltac:(uint)).
    pose proof (padding_size_range (field packet 40 2)).
    apply load_bytes_is_Some. cbn [event payload span_offset span_size]. uint.
Qed.

(** C19. The decoder accepts a datagram exactly when it is the wire image of a
    well-formed event under a nonzero session and packet sequence, and then returns that
    identity and event, with the payload as a view at offset 42. *)
Theorem decode_data_accepts packet d :
  decode_data packet = Some (Value d) <->
  exists sid pseq ev,
    packet_ok sid pseq ev /\ packet = data_packet sid pseq ev /\
    d = decoded_view sid pseq ev /\ event_bytes packet (event d) = Some ev.
Proof.
  rewrite decode_data_iff. split; intros (sid&pseq&ev&Hok&Hp&Hd); exists sid, pseq, ev.
  - subst. split_and!; try done. by apply decoded_event_bytes.
  - by destruct Hd.
Qed.

(** C20. Whatever the encoder writes, the decoder reads back: session, packet sequence
    and event, payload bytes included. *)
Theorem encode_decode_roundtrip ev sid pseq output size output' :
  event_ok ev -> is_uint 32 sid -> is_uint 64 pseq ->
  encode_data ev sid pseq output = Some (Value size, output') ->
  let packet := take (Z.to_nat size) output' in
  exists d, decode_data packet = Some (Value d) /\
    session_id d = sid /\ packet_sequence d = pseq /\ event_bytes packet (event d) = Some ev.
Proof.
  intros Hev Hsid Hpseq He packet. rewrite encode_data_spec in He.
  injection He as He. unfold encode_reference in He. repeat case_bool_in He; simplify_eq. to_prop.
  assert (packet = data_packet sid pseq ev) as ->.
  { subst packet. rewrite take_app_length'; [done|].
    pose proof (length_data_packet sid pseq ev). lia. }
  assert (packet_ok sid pseq ev) as Hok by by split.
  exists (decoded_view sid pseq ev). rewrite decode_data_packet by done.
  by rewrite decoded_event_bytes.
Qed.

(** The encoding is canonical: encoding what was decoded from a datagram gives the
    same bytes back. *)
Theorem decode_encode_canonical packet d ev :
  decode_data packet = Some (Value d) ->
  event_bytes packet (event d) = Some ev ->
  encode_data ev (session_id d) (packet_sequence d) (replicate (length packet) Byte.x00) =
    Some (Value (Z.of_nat (length packet)), packet).
Proof.
  rewrite decode_data_iff. intros (sid&pseq&ev'&Hok&->&->).
  rewrite decoded_event_bytes by done. intros [= ->].
  destruct Hok as [[? ?] [? ?] [? ?] ?].
  rewrite encode_data_spec. unfold encode_reference. simpl session_id. simpl packet_sequence.
  rewrite !(proj2 (Z.eqb_neq _ _)) by done. rewrite length_replicate, length_data_packet.
  rewrite (proj2 (Z.ltb_ge _ _)) by done. rewrite Z.ltb_irrefl.
  rewrite drop_ge; [by rewrite app_nil_r|].
  rewrite length_replicate. pose proof (length_data_packet sid pseq ev). lia.
Qed.

(** ** A known packet

    The event and the 48 expected bytes of [EncoderTest.EncodesKnownSingleEventPacket]
    and of [docs/data-flow.md]. *)

Definition known_event : EventData :=
  Event 0x31323334 0x1112131415161718 0x2122232425262728 (map byte.of_Z [0xde; 0xad; 0xbe]).

Definition known_packet : list byte :=
  map byte.of_Z
    [0x4c; 0x11; 0x30; 0x00; 0x04; 0x03; 0x02; 0x01; 0x08; 0x07; 0x06; 0x05; 0x04; 0x03; 0x02; 0x01;
     0x18; 0x17; 0x16; 0x15; 0x14; 0x13; 0x12; 0x11; 0x28; 0x27; 0x26; 0x25; 0x24; 0x23; 0x22; 0x21;
     0x34; 0x33; 0x32; 0x31; 0x00; 0x00; 0x00; 0x00; 0x03; 0x00; 0xde; 0xad; 0xbe; 0x00; 0x00; 0x00].

Definition known_output : list byte := replicate 64 Byte.x00.

Example encodes_known_packet :
  encode_data known_event 0x01020304 0x0102030405060708 known_output =
    Some (Value 48, known_packet ++ replicate 16 Byte.x00).
Proof. vm_compute. reflexivity. Qed.

Example rejects_batched_packet :
  decode_data (map byte.of_Z
    [0x4c; 0x11; 0x34; 0x00; 1; 0; 0; 0; 1; 0; 0; 0; 0; 0; 0; 0; 1; 0; 0; 0; 0; 0; 0; 0;
     0; 0; 0; 0; 0; 0; 0; 0; 0; 0; 0; 0; 0; 0; 0; 0; 0; 0; 0; 0; 0; 0; 0; 0; 0; 0; 0; 0]) =
    Some (Unexpected DecodeError_UnsupportedBatch).
Proof. vm_compute. reflexivity. Qed.

Lemma encode_decode_roundtrip_witness :
  let output' := known_packet ++ replicate 16 Byte.x00 in
  exists d, decode_data (take (Z.to_nat 48) output') = Some (Value d) /\
    session_id d = 0x01020304 /\ packet_sequence d = 0x0102030405060708 /\
    event_bytes (take (Z.to_nat 48) output') (event d) = Some known_event.
Proof.
  apply (encode_decode_roundtrip known_event 0x01020304 0x0102030405060708 known_output 48).
  - split; vm_compute; split; congruence.
  - vm_compute; split; congruence.
  - vm_compute; split; congruence.
  - vm_compute. reflexivity.
Defined.

Lemma decode_encode_canonical_witness :
  encode_data known_event 0x01020304 0x0102030405060708 (replicate 48 Byte.x00) =
    Some (Value 48, known_packet).
Proof.
  apply (decode_encode_canonical known_packet
           (decoded_view 0x01020304 0x0102030405060708 known_event) known_event);
    vm_compute; reflexivity.
Defined.
