(* ===== verification/GapDetector.v ===== *)
(** * Gap detection

    [src/include/lle/gap_detector.hpp] and [src/src/reliability/gap_detector.cpp]: the
    receiver's check of the transport sequence. The first packet pins the session; from
    then on only strictly increasing packet sequences of that session are accepted, and
    each acceptance reports the inclusive range of sequences it skipped.

    The specification is over a whole run of [check]: what was accepted, what was
    reported missing, and that the two together tile the sequence space up to the
    highest accepted sequence. *)

From S2P Require Import Prelude.

Inductive PacketStatus :=
  | PacketStatus_Accepted
  | PacketStatus_DuplicateOrOld
  | PacketStatus_WrongSession.

#[export] Instance PacketStatus_eq_dec : EqDecision PacketStatus.
Proof. solve_decision. Defined.

Record CheckResult := Check {
  status : PacketStatus;
  gap : Z;
  first_missing : Z;
  last_missing : Z;
}.

Record GapDetector := Detector {
  active_session_ : Z;
  last_sequence_ : Z;
}.

(** A default-constructed detector and result. *)
Definition GapDetector_init : GapDetector := Detector 0 0.
Definition CheckResult_init : CheckResult := Check PacketStatus_Accepted 0 0 0.

(** The part of [check] after its early returns. *)
Definition check_accept (self : GapDetector) (packet_sequence : Z) : CheckResult * GapDetector :=
  let result := CheckResult_init in
  let result := result{{ gap := u64 (u64 (packet_sequence - last_sequence_ self) - 1) }} in
  let result :=
    if 0 <? gap result then
      result{{ first_missing := u64 (last_sequence_ self + 1);
               last_missing := u64 (packet_sequence - 1) }}
    else result in
  (result, self{{ last_sequence_ := packet_sequence }}).

Definition check (self : GapDetector) (session_id packet_sequence : Z) :
    CheckResult * GapDetector :=
  let result := CheckResult_init in
  if active_session_ self =? 0 then
    check_accept (self{{ active_session_ := session_id }}) packet_sequence
  else if negb (session_id =? active_session_ self) then
    (result{{ status := PacketStatus_WrongSession }}, self)
  else if packet_sequence <=? last_sequence_ self then
    (result{{ status := PacketStatus_DuplicateOrOld }}, self)
  else check_accept self packet_sequence.

(** What the decoder guarantees of the arguments. *)
Definition packet_id_ok (id : Z * Z) : Prop :=
  id.1 <> 0 /\ is_uint 32 id.1 /\ id.2 <> 0 /\ is_uint 64 id.2.

(** The detector's invariant: before the first packet both fields are zero. *)
Record detector_ok (d : GapDetector) : Prop := DetectorOk {
  detector_session : is_uint 32 (active_session_ d);
  detector_sequence : is_uint 64 (last_sequence_ d);
  detector_fresh : active_session_ d = 0 <-> last_sequence_ d = 0;
}.

(** The reference step: a detector is a pinned session with its highest accepted
    sequence, or nothing yet. *)
Definition check_reference (self : GapDetector) (sid pseq : Z) : CheckResult * GapDetector :=
  if decide (active_session_ self = 0 \/ active_session_ self = sid) then
    if decide (last_sequence_ self < pseq) then
      (if decide (last_sequence_ self + 1 = pseq)
       then CheckResult_init
       else Check PacketStatus_Accepted (pseq - last_sequence_ self - 1)
                  (last_sequence_ self + 1) (pseq - 1),
       Detector sid pseq)
    else (Check PacketStatus_DuplicateOrOld 0 0 0, self)
  else (Check PacketStatus_WrongSession 0 0 0, self).

Lemma check_accept_spec s q p :
  is_uint 64 q -> is_uint 64 p -> q < p ->
  check_accept (Detector s q) p =
    (if decide (q + 1 = p) then CheckResult_init
     else Check PacketStatus_Accepted (p - q - 1) (q + 1) (p - 1), Detector s p).
Proof.
  intros. unfold check_accept, CheckResult_init. simpl.
  rewrite (wrap_small 64 (p - q)), (wrap_small 64 (p - q - 1)) by uint.
  case_decide as Hd.
  - subst p. assert (q + 1 - q - 1 = 0) as -> by lia. done.
  - rewrite (proj2 (Z.ltb_lt _ _)) by lia. simpl.
    by rewrite (wrap_small 64 (q + 1)), (wrap_small 64 (p - 1)) by uint.
Qed.

Lemma check_spec self sid pseq :
  detector_ok self -> packet_id_ok (sid, pseq) ->
  check self sid pseq = check_reference self sid pseq.
Proof.
  intros [Hs Hq Hf] (Hsid&Hsu&Hp&Hpu). destruct self as [s q]. cbn in *.
  unfold check, check_reference. cbn [active_session_ last_sequence_].
  destruct (Z.eqb_spec s 0) as [->|Hs0].
  - assert (q = 0) as -> by tauto. rewrite decide_True by auto.
    rewrite decide_True by uint. by apply check_accept_spec; uint.
  - destruct (Z.eqb_spec sid s) as [->|Hne]; cbn [negb].
    + rewrite decide_True by auto. destruct (Z.leb_spec pseq q).
      * by rewrite decide_False by lia.
      * rewrite decide_True by done. by apply check_accept_spec.
    + rewrite decide_False; [done|]. intros [?|?]; congruence.
Qed.

Lemma check_preserves_ok self sid pseq :
  detector_ok self -> packet_id_ok (sid, pseq) -> detector_ok (check self sid pseq).2.
Proof.
  intros Hok Hid. rewrite check_spec by done. unfold check_reference.
  repeat case_decide; try done; destruct Hok, Hid as (?&?&?&?); cbn in *;
    split; cbn; try done; uint.
Qed.

(** ** Runs

    The detector fed with the packet identities of a sequence of datagrams. *)
Fixpoint check_all (self : GapDetector) (ids : list (Z * Z)) :
    list (Z * Z * CheckResult) * GapDetector :=
  match ids with
  | [] => ([], self)
  | id :: ids =>
      let '(result, self) := check self id.1 id.2 in
      let '(results, self) := check_all self ids in
      ((id, result) :: results, self)
  end.

Definition is_accepted (x : Z * Z * CheckResult) : bool :=
  bool_decide (status x.2 = PacketStatus_Accepted).

(** The packet identities accepted in a run, in order. *)
Definition accepted (tr : list (Z * Z * CheckResult)) : list (Z * Z) :=
  map fst (List.filter is_accepted tr).

(** The sequences a result reports missing. *)
Definition in_gap (s : Z) (x : Z * Z * CheckResult) : Prop :=
  0 < gap x.2 /\ first_missing x.2 <= s <= last_missing x.2.

Definition total_gap (tr : list (Z * Z * CheckResult)) : Z :=
  foldr (fun x n => gap x.2 + n) 0 tr.

(** The accounting of a run from [d] to [d']. *)
Record run_accounts (d d' : GapDetector) (tr : list (Z * Z * CheckResult)) : Prop := RunAccounts {
  run_ok : detector_ok d';
  run_monotone : last_sequence_ d <= last_sequence_ d';
  run_session : Forall (fun id => id.1 = active_session_ d') (accepted tr);
  run_pinned : active_session_ d <> 0 -> active_session_ d' = active_session_ d;
  run_sorted : StronglySorted Z.lt (map snd (accepted tr));
  run_range : Forall (fun s => last_sequence_ d < s <= last_sequence_ d') (map snd (accepted tr));
  run_total : last_sequence_ d' - last_sequence_ d =
                total_gap tr + Z.of_nat (length (accepted tr));
  run_tiles : forall s, last_sequence_ d < s <= last_sequence_ d' ->
                (s ∈ map snd (accepted tr) <-> ~ Exists (in_gap s) tr);
  run_gaps : Forall (fun x => forall s, in_gap s x ->
                last_sequence_ d < s <= last_sequence_ d') tr;
}.

(** One accepted packet in front of an accounted run. *)
Lemma run_accounts_accept d d' tr sid pseq :
  detector_ok d -> packet_id_ok (sid, pseq) ->
  active_session_ d = 0 \/ active_session_ d = sid -> last_sequence_ d < pseq ->
  run_accounts (Detector sid pseq) d' tr ->
  run_accounts d d' ((sid, pseq, (check d sid pseq).1) :: tr).
Proof.
  intros Hd Hid Hs Hlt [Hok Hm Hses Hpin Hsort Hr Ht Htile Hgaps].
  assert (sid <> 0) by apply Hid.
  rewrite check_spec by done. unfold check_reference.
  rewrite !decide_True by done. cbn [fst].
  set (c := if decide _ then _ else _).
  assert (status c = PacketStatus_Accepted) as Hst by (subst c; by case_decide).
  assert (gap c = pseq - last_sequence_ d - 1) as Hg by (subst c; case_decide; simpl; lia).
  assert (forall s, in_gap s (sid, pseq, c) <-> last_sequence_ d < s < pseq) as Hin.
  { intros s. unfold in_gap. simpl. rewrite Hg. subst c. case_decide; simpl; lia. }
  simpl in Hm, Hpin. specialize (Hpin ltac:(done)).
  assert (accepted ((sid, pseq, c) :: tr) = (sid, pseq) :: accepted tr) as Hacc.
  { unfold accepted. simpl. unfold is_accepted at 1. simpl. by rewrite Hst. }
  split; rewrite ?Hacc; simpl map.
  - done.
  - lia.
  - by constructor.
  - intros ?. destruct Hs; congruence.
  - constructor; [done|]. eapply Forall_impl; [exact Hr|]. simpl. lia.
  - constructor; [simpl; lia|]. eapply Forall_impl; [exact Hr|]. simpl. lia.
  - simpl. rewrite Hg. simpl in Ht. lia.
  - intros s Hsr. rewrite Exists_cons, Hin, elem_of_cons.
    assert (s ∈ map snd (accepted tr) -> pseq < s) as Ha.
    { intros Hel. rewrite Forall_forall in Hr. by apply Hr. }
    assert (Exists (in_gap s) tr -> pseq < s) as Hb.
    { intros (x&Hx&Hxs)%Exists_exists. rewrite Forall_forall in Hgaps. by eapply Hgaps. }
    destruct (Z.lt_trichotomy s pseq) as [?|[?|?]].
    + split; [intros [?|?%Ha]; lia|]. intros Hn. exfalso. apply Hn. left. lia.
    + split; [|by left]. intros _ [?|?%Hb]; lia.
    + specialize (Htile s ltac:(simpl; lia)). split; [|intros Hn; right; tauto].
      intros [?|?]; [lia|]. intros [?|?]; [lia|tauto].
  - constructor; [intros s ?%Hin; simpl in *; lia|].
    eapply Forall_impl; [exact Hgaps|]. simpl. intros x Hx s Hxs. specialize (Hx s Hxs). lia.
Qed.

(** A rejected packet in front changes nothing. *)
Lemma run_accounts_reject d d' tr id r :
  status r <> PacketStatus_Accepted -> gap r = 0 ->
  run_accounts d d' tr -> run_accounts d d' ((id, r) :: tr).
Proof.
  intros Hst Hg [Hok Hm Hses Hpin Hsort Hr Ht Htile Hgaps].
  assert (accepted ((id, r) :: tr) = accepted tr) as Hacc.
  { unfold accepted. simpl. unfold is_accepted at 1. simpl. by rewrite bool_decide_false. }
  assert (forall s, ~ in_gap s (id, r)) as Hin by (intros s [? _]; simpl in *; lia).
  split; rewrite ?Hacc; try done.
  - simpl. lia.
  - intros s Hs. rewrite Exists_cons, (Htile s Hs). specialize (Hin s). tauto.
  - constructor; [intros s Hs; by destruct (Hin s)|done].
Qed.

Lemma check_all_accounts ids d :
  detector_ok d -> Forall packet_id_ok ids ->
  run_accounts d (check_all d ids).2 (check_all d ids).1.
Proof.
  revert d. induction ids as [|[sid pseq] ids IH]; intros d Hd Hids; simpl.
  - split; simpl; try done; try lia; constructor.
  - apply Forall_cons in Hids as [Hid Hids].
    pose proof (check_preserves_ok d sid pseq Hd Hid) as Hd1.
    specialize (IH (check d sid pseq).2 Hd1 Hids). cbn [fst snd].
    pose proof (check_spec d sid pseq Hd Hid) as Hc.
    destruct (check d sid pseq) as [r d1] eqn:Hcd. cbn [fst snd] in *.
    destruct (check_all d1 ids) as [tr d2]. cbn [fst snd] in *.
    unfold check_reference in Hc. repeat case_decide; simplify_eq.
    + replace CheckResult_init with (check d sid (last_sequence_ d + 1)).1 by by rewrite Hcd.
      by apply run_accounts_accept.
    + match goal with |- run_accounts _ _ ((_, ?c) :: _) =>
        replace c with (check d sid pseq).1 by by rewrite Hcd end.
      by apply run_accounts_accept.
    + by apply run_accounts_reject.
    + by apply run_accounts_reject.
Qed.

(** ** Properties *)

Lemma detector_init_ok : detector_ok GapDetector_init.
Proof. split; simpl; unfold is_uint; lia. Qed.

(** C21. On every decoded packet identity the 64-bit code of [check] does what the
    reference says: a foreign session and a sequence not above the highest accepted one
    are refused without changing the detector, anything else is accepted, recorded, and
    reports exactly the range it skipped, with no wrap-around; and the detector's
    invariant is preserved. *)
Theorem check_classifies self sid pseq :
  detector_ok self -> packet_id_ok (sid, pseq) ->
  check self sid pseq = check_reference self sid pseq /\
  detector_ok (check self sid pseq).2.
Proof. intros Hok Hid. split; [by apply check_spec|by apply check_preserves_ok]. Qed.

(** C22. Over any run of a fresh detector the accepted packets all belong to one session
    and their packet sequences are strictly increasing: no packet is accepted twice and
    none after a later one. *)
Theorem accepted_increasing ids tr d :
  Forall packet_id_ok ids -> check_all GapDetector_init ids = (tr, d) ->
  StronglySorted Z.lt (map snd (accepted tr)) /\
  Forall (fun id => id.1 = active_session_ d) (accepted tr).
Proof.
  intros Hids Htr. pose proof (check_all_accounts ids _ detector_init_ok Hids) as [].
  rewrite Htr in *. done.
Qed.

(** C23. Over any run of a fresh detector the reported missing ranges and the accepted
    packets tile the sequences from 1 to the highest accepted one: every such sequence is
    either accepted or reported missing, never both, and the highest accepted sequence is
    the number of accepted packets plus the total of the gap counters. *)
Theorem gaps_tile_sequences ids tr d :
  Forall packet_id_ok ids -> check_all GapDetector_init ids = (tr, d) ->
  (forall s, 1 <= s <= last_sequence_ d ->
     s ∈ map snd (accepted tr) <-> ~ Exists (in_gap s) tr) /\
  (forall s, Exists (in_gap s) tr -> 1 <= s <= last_sequence_ d) /\
  last_sequence_ d = total_gap tr + Z.of_nat (length (accepted tr)).
Proof.
  intros Hids Htr.
  pose proof (check_all_accounts ids _ detector_init_ok Hids) as [_ _ _ _ _ _ Ht Htile Hg].
  rewrite Htr in *. simpl in *. split_and!; [|intros s (x&Hx&Hs)%Exists_exists|lia].
  - intros s ?. apply Htile. lia.
  - rewrite Forall_forall in Hg. specialize (Hg x Hx s Hs). lia.
Qed.

(** The run of [docs/architecture.md]: packets 1, 6, 9 with a duplicate and a foreign
    session in between. *)
Definition known_ids : list (Z * Z) := [(7, 1); (7, 6); (7, 6); (8, 7); (7, 9)].
Definition known_run := check_all GapDetector_init known_ids.

Lemma known_ids_ok : Forall packet_id_ok known_ids.
Proof. repeat constructor; simpl; unfold is_uint; lia. Qed.

Lemma check_classifies_witness :
  check (Detector 7 6) 7 9 = (Check PacketStatus_Accepted 2 7 8, Detector 7 9) /\
  detector_ok (check (Detector 7 6) 7 9).2.
Proof.
  apply (check_classifies (Detector 7 6) 7 9).
  - split; simpl; unfold is_uint; lia.
  - unfold packet_id_ok, is_uint. simpl. lia.
Defined.

Lemma accepted_increasing_witness :
  StronglySorted Z.lt (map snd (accepted known_run.1)) /\
  Forall (fun id => id.1 = 7) (accepted known_run.1).
Proof. apply (accepted_increasing known_ids known_run.1 known_run.2 known_ids_ok eq_refl). Defined.

Lemma gaps_tile_sequences_witness :
  (forall s, 1 <= s <= 9 -> s ∈ [1; 6; 9] <-> ~ Exists (in_gap s) known_run.1) /\
  (forall s, Exists (in_gap s) known_run.1 -> 1 <= s <= 9) /\ 9 = 6 + Z.of_nat 3.
Proof. exact (gaps_tile_sequences known_ids known_run.1 known_run.2 known_ids_ok eq_refl). Defined.
