(* ===== verification/Memory.v ===== *)
(** * Programs over a mapped segment

    The ring code reads and writes a mapped segment through atomics with an explicit
    [std::memory_order], plain (non-atomic) fields, and byte ranges. A [prog] is such a
    code fragment as a finite tree of accesses: what it does next may depend on the
    values it has loaded. Addresses are offsets into the segment, whose base is aligned
    to [ring_memory_alignment].

    The same program has two meanings. [run], here, executes it alone on the bytes of
    the segment; an access outside the segment or a misaligned one is [None]. [Weak]
    executes the programs of a producer and a consumer step by step under
    release/acquire memory. *)

From S2P Require Import Prelude Bytes.

Inductive memory_order :=
  | nonatomic
  | memory_order_relaxed
  | memory_order_acquire
  | memory_order_release.

#[export] Instance memory_order_eq_dec : EqDecision memory_order.
Proof. solve_decision. Defined.

(** Addresses ([std::byte *] into the segment; [nullptr] is [None] where it occurs). *)
Abbreviation addr := nat.

Inductive prog (A : Type) : Type :=
  | Ret (a : A)
  | Load (o : memory_order) (w : nat) (a : addr) (k : Z -> prog A)
  | Store (o : memory_order) (w : nat) (a : addr) (v : Z) (k : prog A)
  | ReadBytes (a : addr) (n : nat) (k : list byte -> prog A)
  | WriteBytes (a : addr) (bs : list byte) (k : prog A)
  | Fault.
Arguments Ret {A} a.
Arguments Load {A} o w a k.
Arguments Store {A} o w a v k.
Arguments ReadBytes {A} a n k.
Arguments WriteBytes {A} a bs k.
Arguments Fault {A}.

Fixpoint prog_bind {A B} (f : A -> prog B) (p : prog A) : prog B :=
  match p with
  | Ret a => f a
  | Load o w a k => Load o w a (fun v => prog_bind f (k v))
  | Store o w a v k => Store o w a v (prog_bind f k)
  | ReadBytes a n k => ReadBytes a n (fun bs => prog_bind f (k bs))
  | WriteBytes a bs k => WriteBytes a bs (prog_bind f k)
  | Fault => Fault
  end.

#[export] Instance prog_ret : MRet prog := @Ret.
#[export] Instance prog_mbind : MBind prog := @prog_bind.

#[export] Instance prog_fmap : FMap prog := fun A B f p => prog_bind (fun a => Ret (f a)) p.

(** The single accesses. *)
Definition load (o : memory_order) (w : nat) (a : addr) : prog Z := Load o w a Ret.
Definition store (o : memory_order) (w : nat) (a : addr) (v : Z) : prog unit :=
  Store o w a v (Ret tt).
Definition read_bytes (a : addr) (n : nat) : prog (list byte) := ReadBytes a n Ret.
Definition write_bytes (a : addr) (bs : list byte) : prog unit := WriteBytes a bs (Ret tt).

(** Dereferencing [nullptr] is undefined. *)
Definition deref (p : option addr) : prog addr :=
  match p with Some a => Ret a | None => Fault end.

(** ** Sequential meaning *)

Definition aligned (w : nat) (a : addr) : bool := Nat.eqb (a mod w) 0.

Fixpoint run {A} (p : prog A) (m : list byte) : option (A * list byte) :=
  match p with
  | Ret a => Some (a, m)
  | Load _ w a k =>
      if aligned w a then v ← load_word m a w; run (k v) m else None
  | Store _ w a v k =>
      if aligned w a then m ← store_word m a w v; run k m else None
  | ReadBytes a n k => bs ← load_bytes m a n; run (k bs) m
  | WriteBytes a bs k => m ← store_bytes m a bs; run k m
  | Fault => None
  end.

Lemma run_bind {A B} (p : prog A) (f : A -> prog B) m :
  run (p ≫= f) m = r ← run p m; run (f r.1) r.2.
Proof.
  revert m. induction p as [a|o w a k IH|o w a v k IH|a n k IH|a bs k IH|]; intros m;
    unfold mbind, prog_mbind in *; simpl; try done.
  - destruct (aligned w a); [|done]. destruct (load_word m a w); simpl; [|done]. apply IH.
  - destruct (aligned w a); [|done]. destruct (store_word m a w v); simpl; [|done]. apply IH.
  - destruct (load_bytes m a n); simpl; [|done]. apply IH.
  - destruct (store_bytes m a bs); simpl; [|done]. apply IH.
Qed.

Lemma run_load {A} o w a (f : Z -> prog A) m v :
  aligned w a = true -> load_word m a w = Some v ->
  run (load o w a ≫= f) m = run (f v) m.
Proof. intros Ha Hv. rewrite run_bind. simpl. by rewrite Ha, Hv. Qed.

Lemma run_store {A} o w a v (f : unit -> prog A) m m' :
  aligned w a = true -> store_word m a w v = Some m' ->
  run (store o w a v ≫= f) m = run (f tt) m'.
Proof. intros Ha Hm. rewrite run_bind. simpl. by rewrite Ha, Hm. Qed.

Lemma run_write {A} a bs (f : unit -> prog A) m m' :
  store_bytes m a bs = Some m' -> run (write_bytes a bs ≫= f) m = run (f tt) m'.
Proof. intros Hm. rewrite run_bind. simpl. by rewrite Hm. Qed.

Lemma run_read {A} a n (f : list byte -> prog A) m bs :
  load_bytes m a n = Some bs -> run (read_bytes a n ≫= f) m = run (f bs) m.
Proof. intros Hm. rewrite run_bind. simpl. by rewrite Hm. Qed.

Lemma run_length {A} (p : prog A) m r : run p m = Some r -> length r.2 = length m.
Proof.
  revert m. induction p as [a|o w a k IH|o w a v k IH|a n k IH|a bs k IH|]; intros m; simpl.
  - by intros [= <-].
  - destruct (aligned w a); [|done]. intros (v&_&H)%bind_Some. eauto.
  - destruct (aligned w a); [|done]. intros (m'&Hm&H)%bind_Some.
    apply IH in H. by rewrite H, (store_bytes_length _ _ _ _ Hm).
  - intros (bs&_&H)%bind_Some. eauto.
  - intros (m'&Hm&H)%bind_Some. apply IH in H. by rewrite H, (store_bytes_length _ _ _ _ Hm).
  - done.
Qed.

(** ** Safety whatever the loads return

    [within size p Q]: every access of [p] is aligned and inside a segment of [size]
    bytes, [p] never dereferences [nullptr], and its result satisfies [Q], whatever
    value each load returns. This covers a segment with arbitrary contents and one that
    another process writes between any two accesses. [returns p a]: some loads make [p]
    return [a]. *)

Fixpoint within {A} (size : nat) (p : prog A) (Q : A -> Prop) : Prop :=
  match p with
  | Ret a => Q a
  | Load _ w a k =>
      aligned w a = true /\ (a + w <= size)%nat /\
      forall v, is_uint (Z.of_nat w * 8) v -> within size (k v) Q
  | Store _ w a _ k => aligned w a = true /\ (a + w <= size)%nat /\ within size k Q
  | ReadBytes a n k =>
      (a + n <= size)%nat /\ forall bs, length bs = n -> within size (k bs) Q
  | WriteBytes a bs k => (a + length bs <= size)%nat /\ within size k Q
  | Fault => False
  end.

Inductive returns {A} : prog A -> A -> Prop :=
  | returns_ret a : returns (Ret a) a
  | returns_load o w a k v r :
      is_uint (Z.of_nat w * 8) v -> returns (k v) r -> returns (Load o w a k) r
  | returns_store o w a v k r : returns k r -> returns (Store o w a v k) r
  | returns_read a n k bs r :
      length bs = n -> returns (k bs) r -> returns (ReadBytes a n k) r
  | returns_write a bs k r : returns k r -> returns (WriteBytes a bs k) r.

Lemma within_bind {A B} size (p : prog A) (f : A -> prog B) Q :
  within size (p ≫= f) Q <-> within size p (fun a => within size (f a) Q).
Proof.
  unfold mbind, prog_mbind.
  induction p as [a|o w a k IH|o w a v k IH|a n k IH|a bs k IH|]; simpl; try done.
  - split; intros (?&?&H); (split_and!; [done..|]); intros v Hv; by apply IH, H.
  - by rewrite IH.
  - split; intros (?&H); (split; [done|]); intros v Hv; by apply IH, H.
  - by rewrite IH.
Qed.

Lemma within_mono {A} size (p : prog A) (Q Q' : A -> Prop) :
  (forall a, Q a -> Q' a) -> within size p Q -> within size p Q'.
Proof.
  intros HQ. induction p as [a|o w a k IH|o w a v k IH|a n k IH|a bs k IH|]; simpl; try done.
  - auto.
  - intros (?&?&H). split_and!; [done..|]. eauto.
  - intros (?&?&H). split_and!; [done..|]. eauto.
  - intros (?&H). split; [done|]. eauto.
  - intros (?&H). split; [done|]. eauto.
Qed.

(** A program that is safe for every load runs on every segment of the size. *)
Lemma within_run {A} size (p : prog A) Q m :
  within size p Q -> length m = size -> exists r, run p m = Some r /\ Q r.1.
Proof.
  revert m. induction p as [a|o w a k IH|o w a v k IH|a n k IH|a bs k IH|]; intros m; simpl.
  - intros. by exists (a, m).
  - intros (->&?&H) Hm. destruct (load_word m a w) as [v|] eqn:Hv; simpl.
    + eapply IH; [|done]. eapply H, load_word_range, Hv.
    + unfold load_word in Hv. rewrite fmap_None in Hv.
      assert (is_Some (load_bytes m a w)) as [? ?] by (apply load_bytes_is_Some; lia). congruence.
  - intros (->&?&H) Hm. unfold store_word.
    rewrite store_bytes_is_Some by (rewrite length_le_split; lia). simpl.
    apply IH; [done|]. by rewrite length_inserts.
  - intros (?&H) Hm. assert (is_Some (load_bytes m a n)) as [bs Hbs] by (apply load_bytes_is_Some; lia).
    rewrite Hbs. simpl. eapply IH; [|done]. eapply H, load_bytes_length, Hbs.
  - intros (?&H) Hm. rewrite store_bytes_is_Some by lia. simpl.
    apply IH; [done|]. by rewrite length_inserts.
  - done.
Qed.

Lemma within_returns {A} size (p : prog A) Q r : within size p Q -> returns p r -> Q r.
Proof. intros Hw Hr. induction Hr; simpl in Hw; try done; firstorder. Qed.

Lemma within_load {A} size o w a (f : Z -> prog A) Q :
  aligned w a = true -> (a + w <= size)%nat ->
  (forall v, is_uint (Z.of_nat w * 8) v -> within size (f v) Q) ->
  within size (load o w a ≫= f) Q.
Proof. intros. apply within_bind. by split_and!. Qed.

Lemma within_store {A} size o w a v (f : unit -> prog A) Q :
  aligned w a = true -> (a + w <= size)%nat -> within size (f tt) Q ->
  within size (store o w a v ≫= f) Q.
Proof. intros. apply within_bind. by split_and!. Qed.
