(* ===== verification/Layout.v ===== *)
(** * Object layout

    Where C++ puts the members of a standard-layout class: in order of declaration, each at
    the next multiple of its alignment; the size is padded to the alignment of the class,
    which is that of its strictest member or of its [alignas]. The data in shared memory
    relies on it ([RingLayout]), and so does the cache line of a ring handle ([Ring]). *)

From S2P Require Import Prelude.
From stdpp Require Import strings.

(** A scalar is as aligned as it is large (LP64); so is a lock-free atomic of that size. *)
#[warnings="-register-all"]
Inductive ctype :=
  | Scalar (bytes : nat)
  | Array (t : ctype) (n : nat)
  | Struct (alignas : nat) (members : list (string * ctype)).

Definition round_up (n alignment : nat) : nat := ((n + (alignment - 1)) / alignment * alignment)%nat.

Fixpoint alignof (t : ctype) : nat :=
  match t with
  | Scalar bytes => bytes
  | Array t _ => alignof t
  | Struct alignas members =>
      foldr (fun m a => match m with (_, t) => Nat.max (alignof t) a end) alignas members
  end.

Fixpoint sizeof (t : ctype) : nat :=
  match t with
  | Scalar bytes => bytes
  | Array t n => n * sizeof t
  | Struct _ members =>
      round_up (foldl (fun end_ m => match m with (_, t) => round_up end_ (alignof t) + sizeof t end)%nat
        0%nat members) (alignof t)
  end.

(** The members after the first [end_] bytes: name, offset and type. *)
Fixpoint place (end_ : nat) (members : list (string * ctype)) : list (string * nat * ctype) :=
  match members with
  | [] => []
  | (name, t) :: members =>
      let offset := round_up end_ (alignof t) in
      (name, offset, t) :: place (offset + sizeof t) members
  end.

Definition placed (t : ctype) : list (string * nat * ctype) :=
  match t with Struct _ members => place 0 members | _ => [] end.

Definition offsetof (t : ctype) (name : string) : option nat :=
  snd ∘ fst <$> List.find (fun m => bool_decide (m.1.1 = name)) (placed t).

(** Alignments are not zero. *)
Fixpoint ctype_ok (t : ctype) : bool :=
  match t with
  | Scalar bytes => (0 <? bytes)%nat
  | Array t _ => ctype_ok t
  | Struct alignas members =>
      (0 <? alignas)%nat && forallb (fun m => match m with (_, t) => ctype_ok t end) members
  end.

(** No byte of the class is padding. *)
Definition no_padding (t : ctype) : bool :=
  (foldr (fun m n => sizeof m.2 + n) 0 (placed t) =? sizeof t)%nat.

(** ** Facts *)

Lemma round_up_le n a : (0 < a)%nat -> (n <= round_up n a)%nat.
Proof.
  intros Ha. unfold round_up. pose proof (Nat.div_mod_eq (n + (a - 1)) a).
  pose proof (Nat.mod_upper_bound (n + (a - 1)) a ltac:(lia)). nia.
Qed.

Lemma round_up_aligned n a : (0 < a)%nat -> (round_up n a mod a = 0)%nat.
Proof. intros Ha. apply Nat.Div0.mod_mul. Qed.

Lemma alignof_pos t : ctype_ok t = true -> (0 < alignof t)%nat.
Proof.
  induction t as [n|t IH n|a ms]; cbn [ctype_ok alignof]; [by intros ?%Nat.ltb_lt|done|].
  intros [Ha _]%andb_prop. apply Nat.ltb_lt in Ha. induction ms as [|[s t] ms IH]; cbn [foldr]; [done|lia].
Qed.

Lemma sizeof_struct a ms :
  sizeof (Struct a ms) =
    round_up (foldl (fun end_ m => round_up end_ (alignof m.2) + sizeof m.2)%nat 0%nat ms) (alignof (Struct a ms)).
Proof.
  cbn [sizeof]. f_equal. generalize 0%nat. induction ms as [|[s t] ms IH]; intros n; [done|]. apply IH.
Qed.

(** The placed members do not overlap, are aligned, and lie within the bytes up to the end
    of the last one. *)
Lemma place_spec n ms :
  forallb (fun m => ctype_ok m.2) ms = true ->
  let last := foldl (fun end_ m => round_up end_ (alignof m.2) + sizeof m.2)%nat n ms in
  (n <= last)%nat /\
  Forall (fun m => (n <= m.1.2)%nat /\ (m.1.2 mod alignof m.2 = 0)%nat /\ (m.1.2 + sizeof m.2 <= last)%nat)
    (place n ms) /\
  StronglySorted (fun x y => (x.1.2 + sizeof x.2 <= y.1.2)%nat) (place n ms).
Proof.
  cbv zeta. revert n. induction ms as [|[s t] ms IH]; intros n Hok.
  { split; [done|]. split; constructor. }
  apply andb_prop in Hok as [Ht Hok]. cbn [snd] in Ht. cbn [place foldl snd].
  pose proof (alignof_pos t Ht) as Ha. pose proof (round_up_le n _ Ha) as Hn.
  destruct (IH (round_up n (alignof t) + sizeof t)%nat Hok) as (Hlast&Hall&Hsorted).
  split; [lia|]. split; constructor; cbn [fst snd].
  - split; [done|]. split; [by apply round_up_aligned|done].
  - eapply Forall_impl; [exact Hall|]. intros m (?&?&?). split; [lia|done].
  - done.
  - eapply Forall_impl; [exact Hall|]. by intros m (?&_).
Qed.

(** The members of a class lie within it, aligned, without overlap. *)
Lemma members_laid_out a ms :
  ctype_ok (Struct a ms) = true ->
  Forall (fun m => (m.1.2 mod alignof m.2 = 0)%nat /\ (m.1.2 + sizeof m.2 <= sizeof (Struct a ms))%nat)
    (placed (Struct a ms)) /\
  StronglySorted (fun x y => (x.1.2 + sizeof x.2 <= y.1.2)%nat) (placed (Struct a ms)).
Proof.
  intros Hok. pose proof (alignof_pos _ Hok) as Ha. rewrite sizeof_struct.
  pose proof Hok as [_ Hms]%andb_prop.
  assert (forallb (fun m => ctype_ok m.2) ms = true) as Hms'.
  { rewrite <- Hms. clear. induction ms as [|[s t] ms IH]; [done|]. cbn. by rewrite IH. }
  destruct (place_spec 0 ms Hms') as (_&Hall&Hsorted). split; [|done].
  eapply Forall_impl; [exact Hall|]. intros m (_&?&?). split; [done|].
  etransitivity; [done|by apply round_up_le].
Qed.
