(* ===== verification/RingLayout.v ===== *)
(** * Ring layout

    [src/include/shm/ring_layout.hpp]: the constants of shared-memory layout version 1,
    the classes that live in the mapping with the offsets of their members, and the ring
    states. *)

From stdpp Require Import strings.
From S2P Require Import Prelude Bytes Memory Layout.

Definition ring_cache_line_bytes : Z := 64.
Definition ring_memory_alignment : Z := 128.
Definition ring_layout_version : Z := 1.
Definition ring_header_bytes : Z := 192.
Definition ring_slot_metadata_bytes : Z := 32.
(** ['L', 'L', 'E', '1'] *)
Definition ring_magic : list byte := map byte.of_Z [0x4c; 0x4c; 0x45; 0x31].

Inductive RingState :=
  | RingState_Uninitialized
  | RingState_Initializing
  | RingState_Ready
  | RingState_Closed.

Definition RingState_value (s : RingState) : Z :=
  match s with
  | RingState_Uninitialized => 0
  | RingState_Initializing => 1
  | RingState_Ready => 2
  | RingState_Closed => 3
  end.

#[export] Instance RingState_eq_dec : EqDecision RingState.
Proof. solve_decision. Defined.

(** ** The classes in the mapping *)

Definition char : ctype := Scalar 1.
Definition std_byte : ctype := Scalar 1.
Definition uint16_t : ctype := Scalar 2.
Definition uint32_t : ctype := Scalar 4.
Definition uint64_t : ctype := Scalar 8.
(** Always lock-free, so it holds the value and nothing else. *)
Definition atomic (t : ctype) : ctype := t.

Definition RingPreamble : ctype :=
  Struct (Z.to_nat ring_cache_line_bytes)
    [("magic", Array char 4);
     ("layout_version", uint16_t);
     ("header_bytes", uint16_t);
     ("segment_bytes", uint64_t);
     ("slot_count", uint32_t);
     ("slot_stride", uint32_t);
     ("slot_payload_capacity", uint32_t);
     ("reserved", uint32_t);
     ("instance_id", uint64_t);
     ("state", atomic uint32_t);
     ("reserved_bytes", Array std_byte 20)].

Definition RingCursor : ctype :=
  Struct (Z.to_nat ring_cache_line_bytes)
    [("position", atomic uint64_t); ("reserved_bytes", Array std_byte 56)].

Definition RingHeader : ctype :=
  Struct (Z.to_nat ring_cache_line_bytes)
    [("preamble", RingPreamble); ("producer", RingCursor); ("consumer", RingCursor)].

(** No [alignas]: as aligned as its members. *)
Definition RingSlotHeader : ctype :=
  Struct 1
    [("event_sequence", uint64_t);
     ("source_timestamp_ns", uint64_t);
     ("stream_id", uint32_t);
     ("payload_length", uint32_t);
     ("reserved", Array uint32_t 2)].

(** The [static_assert]s on sizes, alignments and offsets, in order. *)
Definition ring_layout_asserts : list bool :=
  [(sizeof RingPreamble =? 64)%nat;
   (alignof RingPreamble =? 64)%nat;
   bool_decide (offsetof RingPreamble "layout_version" = Some 4%nat);
   bool_decide (offsetof RingPreamble "header_bytes" = Some 6%nat);
   bool_decide (offsetof RingPreamble "segment_bytes" = Some 8%nat);
   bool_decide (offsetof RingPreamble "slot_count" = Some 16%nat);
   bool_decide (offsetof RingPreamble "slot_stride" = Some 20%nat);
   bool_decide (offsetof RingPreamble "slot_payload_capacity" = Some 24%nat);
   bool_decide (offsetof RingPreamble "reserved" = Some 28%nat);
   bool_decide (offsetof RingPreamble "instance_id" = Some 32%nat);
   bool_decide (offsetof RingPreamble "state" = Some 40%nat);
   bool_decide (offsetof RingPreamble "reserved_bytes" = Some 44%nat);
   (sizeof RingCursor =? 64)%nat;
   (alignof RingCursor =? 64)%nat;
   Z.of_nat (sizeof RingHeader) =? ring_header_bytes;
   ring_memory_alignment mod Z.of_nat (alignof RingHeader) =? 0;
   bool_decide (offsetof RingHeader "producer" = Some 64%nat);
   bool_decide (offsetof RingHeader "consumer" = Some 128%nat);
   Z.of_nat (sizeof RingSlotHeader) =? ring_slot_metadata_bytes;
   bool_decide (offsetof RingSlotHeader "source_timestamp_ns" = Some 8%nat);
   bool_decide (offsetof RingSlotHeader "stream_id" = Some 16%nat);
   bool_decide (offsetof RingSlotHeader "payload_length" = Some 20%nat);
   bool_decide (offsetof RingSlotHeader "reserved" = Some 24%nat)].

Example ring_layout_asserts_hold : forallb id ring_layout_asserts = true.
Proof. vm_compute. reflexivity. Qed.

(** Every byte of the mapping up to the payloads belongs to a member, so nothing in it is
    left undefined by an assignment of the members. *)
Example ring_no_padding : forallb no_padding [RingPreamble; RingCursor; RingHeader; RingSlotHeader] = true.
Proof. vm_compute. reflexivity. Qed.

(** ** Addresses *)

(** The offset of a member the class has. *)
Definition member (t : ctype) (name : string) : addr := default 0%nat (offsetof t name).

(** Offsets in [RingPreamble]. *)
Definition preamble_magic : addr := Eval vm_compute in member RingPreamble "magic".
Definition preamble_layout_version : addr := Eval vm_compute in member RingPreamble "layout_version".
Definition preamble_header_bytes : addr := Eval vm_compute in member RingPreamble "header_bytes".
Definition preamble_segment_bytes : addr := Eval vm_compute in member RingPreamble "segment_bytes".
Definition preamble_slot_count : addr := Eval vm_compute in member RingPreamble "slot_count".
Definition preamble_slot_stride : addr := Eval vm_compute in member RingPreamble "slot_stride".
Definition preamble_slot_payload_capacity : addr :=
  Eval vm_compute in member RingPreamble "slot_payload_capacity".
Definition preamble_reserved : addr := Eval vm_compute in member RingPreamble "reserved".
Definition preamble_instance_id : addr := Eval vm_compute in member RingPreamble "instance_id".
Definition preamble_state : addr := Eval vm_compute in member RingPreamble "state".
Definition preamble_reserved_bytes : addr := Eval vm_compute in member RingPreamble "reserved_bytes".
Definition preamble_reserved_size : nat := 20.

(** Offsets in [RingHeader]: each cursor is a [RingCursor] on its own cache line. *)
Definition producer_position : addr :=
  Eval vm_compute in (member RingHeader "producer" + member RingCursor "position")%nat.
Definition producer_reserved_bytes : addr :=
  Eval vm_compute in (member RingHeader "producer" + member RingCursor "reserved_bytes")%nat.
Definition consumer_position : addr :=
  Eval vm_compute in (member RingHeader "consumer" + member RingCursor "position")%nat.
Definition consumer_reserved_bytes : addr :=
  Eval vm_compute in (member RingHeader "consumer" + member RingCursor "reserved_bytes")%nat.
Definition cursor_reserved_size : nat := 56.

(** Offsets in [RingSlotHeader]. *)
Definition slot_event_sequence : addr := Eval vm_compute in member RingSlotHeader "event_sequence".
Definition slot_source_timestamp_ns : addr := Eval vm_compute in member RingSlotHeader "source_timestamp_ns".
Definition slot_stream_id : addr := Eval vm_compute in member RingSlotHeader "stream_id".
Definition slot_payload_length : addr := Eval vm_compute in member RingSlotHeader "payload_length".
Definition slot_reserved_0 : addr := Eval vm_compute in member RingSlotHeader "reserved".
Definition slot_reserved_1 : addr := Eval vm_compute in (member RingSlotHeader "reserved" + sizeof uint32_t)%nat.

(** The members in the mapping are aligned and do not overlap: accesses to different members
    are to different bytes. *)
Lemma ring_members_laid_out t :
  In t [RingPreamble; RingCursor; RingHeader; RingSlotHeader] ->
  Forall (fun m => (m.1.2 mod alignof m.2 = 0)%nat /\ (m.1.2 + sizeof m.2 <= sizeof t)%nat) (placed t) /\
  StronglySorted (fun x y => (x.1.2 + sizeof x.2 <= y.1.2)%nat) (placed t).
Proof. intros [<-|[<-|[<-|[<-|[]]]]]; by apply members_laid_out. Qed.
