(* ===== verification/Ring.v ===== *)
(** * The SPSC ring

    [src/include/shm/spsc_ring.hpp] and [src/src/shm/spsc_ring.cpp]. Every operation is
    a [prog] over the mapped segment that also threads the (process-local) ring handle.
    [RingSpec] states what the operations promise, [RingRefinement] proves it for the
    sequential meaning, and [RingConcurrent] for concurrent executions. *)

From stdpp Require Import strings.
From S2P Require Import Prelude Bytes Event Memory Layout RingLayout.

Record RingConfig := Config { slot_count : Z; slot_payload_capacity : Z }.

#[export] Instance RingConfig_eq_dec : EqDecision RingConfig.
Proof. solve_decision. Defined.

Inductive RingError :=
  | RingError_InvalidConfig
  | RingError_SizeOverflow
  | RingError_InvalidMemory
  | RingError_InvalidLayout
  | RingError_NotReady.

#[export] Instance RingError_eq_dec : EqDecision RingError.
Proof. solve_decision. Defined.

Inductive AcquireError :=
  | AcquireError_Empty
  | AcquireError_Closed
  | AcquireError_AlreadyAcquired
  | AcquireError_InvalidSlot.

#[export] Instance AcquireError_eq_dec : EqDecision AcquireError.
Proof. solve_decision. Defined.

(** The handle. Pointers are offsets into the mapped segment. *)
Record SpscRing := Ring {
  header_ : option addr;
  slots_ : option addr;
  slot_count_ : Z;
  slot_stride_ : Z;
  slot_payload_capacity_ : Z;
  cached_read_position_ : Z;
  cached_write_position_ : Z;
  acquired_position_ : Z;
  acquired_ : bool;
  initializer_ : bool;
}.

(** The class, with pointers of 8 bytes, and its [static_assert]s: a handle shares no cache
    line with its neighbours. *)
Definition SpscRing_class : ctype :=
  Struct (Z.to_nat ring_cache_line_bytes)
    [("header_", Scalar 8); ("slots_", Scalar 8);
     ("slot_count_", uint32_t); ("slot_stride_", uint32_t); ("slot_payload_capacity_", uint32_t);
     ("cached_read_position_", uint64_t); ("cached_write_position_", uint64_t);
     ("acquired_position_", uint64_t);
     ("acquired_", Scalar 1); ("initializer_", Scalar 1)].

Definition spsc_ring_asserts : list bool :=
  [Z.of_nat (alignof SpscRing_class) =? ring_cache_line_bytes;
   Z.of_nat (sizeof SpscRing_class) mod ring_cache_line_bytes =? 0].

Example spsc_ring_asserts_hold : forallb id spsc_ring_asserts = true.
Proof. vm_compute. reflexivity. Qed.

#[export] Instance SpscRing_eq_dec : EqDecision SpscRing.
Proof. solve_decision. Defined.

(** [std::span<std::byte>]: the mapped address (0 is [nullptr]) and size. *)
Record memory_span := Memory { mem_data : Z; mem_size : Z }.

(** ** Sizes *)

Definition required_bytes (config : RingConfig) : expected Z RingError :=
  let slot_count := slot_count config in
  if (slot_count <? 2) || negb (Z.land slot_count (u32 (slot_count - 1)) =? 0)
  then Unexpected RingError_InvalidConfig else
  let max_size := u64_max in
  let slot_bytes := u64 (ring_slot_metadata_bytes + slot_payload_capacity config) in
  let stride := align_up slot_bytes ring_cache_line_bytes in
  if u32_max <? stride then Unexpected RingError_SizeOverflow else
  if u64 (max_size - ring_header_bytes) / stride <? slot_count
  then Unexpected RingError_SizeOverflow else
  Value (u64 (ring_header_bytes + u64 (stride * slot_count))).

(** ** Construction *)

Definition invalid_memory (memory : memory_span) : bool :=
  (mem_data memory =? 0) || (mem_size memory <? ring_header_bytes)
  || negb (mem_data memory mod ring_memory_alignment =? 0).

(** [a || b] with its short circuit. *)
Definition prog_or (p q : prog bool) : prog bool := b ← p; if (b : bool) then mret true else q.

Definition invalid_layout (preamble : addr) : prog bool :=
  prog_or (magic ← read_bytes (preamble + preamble_magic) 4;
           mret (negb (bool_decide (magic = ring_magic))))
  (prog_or (v ← load nonatomic 2 (preamble + preamble_layout_version);
            mret (negb (v =? ring_layout_version)))
  (prog_or (v ← load nonatomic 2 (preamble + preamble_header_bytes);
            mret (negb (v =? ring_header_bytes)))
  (prog_or (v ← load nonatomic 8 (preamble + preamble_instance_id); mret (v =? 0))
           (v ← load nonatomic 4 (preamble + preamble_reserved); mret (negb (v =? 0)))))).

Definition validate_state (state : Z) : expected unit RingError :=
  if (state =? RingState_value RingState_Uninitialized)
     || (state =? RingState_value RingState_Initializing)
  then Unexpected RingError_NotReady else
  if negb (state =? RingState_value RingState_Ready)
     && negb (state =? RingState_value RingState_Closed)
  then Unexpected RingError_InvalidLayout else
  Value tt.

(** The private constructor: geometry is copied from the validated header. *)
Definition SpscRing_construct (header slots : addr) (initializer : bool) : prog SpscRing :=
  count ← load nonatomic 4 (header + preamble_slot_count);
  stride ← load nonatomic 4 (header + preamble_slot_stride);
  capacity ← load nonatomic 4 (header + preamble_slot_payload_capacity);
  mret (Ring (Some header) (Some slots) count stride capacity 0 0 0 false initializer).

(** The move constructor: the new handle and what is left in [other]. *)
Definition SpscRing_move (other : SpscRing) : SpscRing * SpscRing :=
  (Ring (header_ other) (slots_ other) (slot_count_ other) (slot_stride_ other)
        (slot_payload_capacity_ other) (cached_read_position_ other)
        (cached_write_position_ other) (acquired_position_ other)
        (acquired_ other) (initializer_ other),
   Ring None None 0 0 0 0 0 0 false false).

Definition fill_preamble (preamble : addr) (size : Z) (config : RingConfig) (instance_id : Z) :
    prog unit :=
  write_bytes (preamble + preamble_magic) ring_magic;;
  store nonatomic 2 (preamble + preamble_layout_version) ring_layout_version;;
  store nonatomic 2 (preamble + preamble_header_bytes) ring_header_bytes;;
  store nonatomic 8 (preamble + preamble_segment_bytes) size;;
  store nonatomic 4 (preamble + preamble_slot_count) (slot_count config);;
  store nonatomic 4 (preamble + preamble_slot_stride)
    (u32 (u64 (size - ring_header_bytes) / slot_count config));;
  store nonatomic 4 (preamble + preamble_slot_payload_capacity) (slot_payload_capacity config);;
  store nonatomic 4 (preamble + preamble_reserved) 0;;
  store nonatomic 8 (preamble + preamble_instance_id) instance_id;;
  write_bytes (preamble + preamble_reserved_bytes) (replicate preamble_reserved_size Byte.x00);;
  store memory_order_relaxed 4 (preamble + preamble_state) (RingState_value RingState_Initializing).

(** [for (index = 0; index < slot_count; ++index)]: value-initialize every slot header. *)
Fixpoint construct_slots (header slots : addr) (index : Z) (remaining : nat) : prog unit :=
  match remaining with
  | O => mret tt
  | S remaining =>
      stride ← load nonatomic 4 (header + preamble_slot_stride);
      write_bytes (slots + Z.to_nat (u64 (index * stride)))
        (replicate (Z.to_nat ring_slot_metadata_bytes) Byte.x00);;
      construct_slots header slots (index + 1) remaining
  end.

Definition initialize (memory : memory_span) (config : RingConfig) (instance_id : Z) :
    prog (expected SpscRing RingError) :=
  if instance_id =? 0 then mret (Unexpected RingError_InvalidConfig) else
  match required_bytes config with
  | Unexpected e => mret (Unexpected e)
  | Value bytes =>
      if invalid_memory memory || negb (mem_size memory =? bytes)
      then mret (Unexpected RingError_InvalidMemory) else
      let header := 0%nat in
      write_bytes header (replicate (Z.to_nat ring_header_bytes) Byte.x00);;
      fill_preamble header bytes config instance_id;;
      store memory_order_relaxed 8 (header + producer_position) 0;;
      store memory_order_relaxed 8 (header + consumer_position) 0;;
      let slots := (header + Z.to_nat ring_header_bytes)%nat in
      construct_slots header slots 0 (Z.to_nat (slot_count config));;
      store memory_order_release 4 (header + preamble_state) (RingState_value RingState_Ready);;
      ring ← SpscRing_construct header slots true;
      mret (Value ring)
  end.

(** [std::ranges::all_of] stops at the first byte that is not zero. *)
Fixpoint all_zero (a : addr) (n : nat) : prog bool :=
  match n with
  | O => mret true
  | S n =>
      bs ← read_bytes a 1;
      if forallb is_zero bs then all_zero (S a) n else mret false
  end.

Definition attach (memory : memory_span) : prog (expected SpscRing RingError) :=
  if invalid_memory memory then mret (Unexpected RingError_InvalidMemory) else
  let header := 0%nat in
  state ← load memory_order_acquire 4 (header + preamble_state);
  match validate_state state with
  | Unexpected e => mret (Unexpected e)
  | Value _ =>
      bad_layout ← invalid_layout header;
      if (bad_layout : bool) then mret (Unexpected RingError_InvalidLayout) else
      bad_reserved ←
        prog_or (negb <$> all_zero (header + preamble_reserved_bytes) preamble_reserved_size)
        (prog_or (negb <$> all_zero (header + producer_reserved_bytes) cursor_reserved_size)
                 (negb <$> all_zero (header + consumer_reserved_bytes) cursor_reserved_size));
      if (bad_reserved : bool) then mret (Unexpected RingError_InvalidLayout) else
      count ← load nonatomic 4 (header + preamble_slot_count);
      capacity ← load nonatomic 4 (header + preamble_slot_payload_capacity);
      let config := Config count capacity in
      match required_bytes config with
      | Unexpected _ => mret (Unexpected RingError_InvalidLayout)
      | Value bytes =>
          let stride := u64 (bytes - ring_header_bytes) / slot_count config in
          bad_size ←
            prog_or (v ← load nonatomic 4 (header + preamble_slot_stride); mret (negb (v =? stride)))
                    (v ← load nonatomic 8 (header + preamble_segment_bytes); mret (negb (v =? bytes)));
          if (bad_size : bool) then mret (Unexpected RingError_InvalidLayout) else
          if negb (mem_size memory =? bytes) then mret (Unexpected RingError_InvalidMemory) else
          ring ← SpscRing_construct header (header + Z.to_nat ring_header_bytes) false;
          mret (Value ring)
      end
  end.

(** ** Producer *)

Definition fill_slot_header (header : addr) (event : EventData) : prog unit :=
  store nonatomic 8 (header + slot_event_sequence) (sequence event);;
  store nonatomic 8 (header + slot_source_timestamp_ns) (source_timestamp_ns event);;
  store nonatomic 4 (header + slot_stream_id) (stream_id event);;
  store nonatomic 4 (header + slot_payload_length) (u32 (payload_size event)).

(** [slots_ + stride * index], the index being the masked logical position. *)
Definition slot_address (self : SpscRing) (slots : addr) (position : Z) : addr :=
  (slots + Z.to_nat (u64 (slot_stride_ self * Z.land position (u32 (slot_count_ self - 1)))))%nat.

(** The end of [try_publish]: fill the slot, then publish it. *)
Definition publish_slot (self : SpscRing) (header : addr) (write_pos : Z) (event : EventData) :
    prog PublishResult :=
  slots ← deref (slots_ self);
  let slot := slot_address self slots write_pos in
  fill_slot_header slot event;;
  (if negb (bool_decide (payload event = []))
   then write_bytes (slot + Z.to_nat ring_slot_metadata_bytes) (payload event)
   else mret tt);;
  store memory_order_release 8 (header + producer_position) (u64 (write_pos + 1));;
  mret PublishResult_Ok.

Definition try_publish (self : SpscRing) (event : EventData) : prog (PublishResult * SpscRing) :=
  match header_ self with
  | None => mret (PublishResult_Closed, self)
  | Some header =>
      state ← load memory_order_acquire 4 (header + preamble_state);
      if negb (state =? RingState_value RingState_Ready)
      then mret (PublishResult_Closed, self) else
      if slot_payload_capacity_ self <? payload_size event
      then mret (PublishResult_PayloadTooLarge, self) else
      write_pos ← load memory_order_relaxed 8 (header + producer_position);
      if write_pos =? u64_max then mret (PublishResult_Closed, self) else
      if slot_count_ self <=? u64 (write_pos - cached_read_position_ self) then
        read_pos ← load memory_order_acquire 8 (header + consumer_position);
        let self := self{{ cached_read_position_ := read_pos }} in
        if (write_pos <? cached_read_position_ self)
           || (slot_count_ self <? u64 (write_pos - cached_read_position_ self))
        then mret (PublishResult_Closed, self) else
        if u64 (write_pos - cached_read_position_ self) =? slot_count_ self
        then mret (PublishResult_Full, self) else
        result ← publish_slot self header write_pos event;
        mret (result, self)
      else
        result ← publish_slot self header write_pos event;
        mret (result, self)
  end.

(** ** Consumer *)

Definition invalid_slot (slot : addr) (payload_capacity : Z) : prog bool :=
  prog_or (len ← load nonatomic 4 (slot + slot_payload_length); mret (payload_capacity <? len))
  (prog_or (r ← load nonatomic 4 (slot + slot_reserved_0); mret (negb (r =? 0)))
           (r ← load nonatomic 4 (slot + slot_reserved_1); mret (negb (r =? 0)))).

(** The end of [try_acquire]: validate the slot at [read_pos] and hand out a view. *)
Definition acquire_slot (self : SpscRing) (read_pos : Z) :
    prog (expected (EventView span) AcquireError * SpscRing) :=
  if (cached_write_position_ self <? read_pos)
     || (slot_count_ self <? u64 (cached_write_position_ self - read_pos))
  then mret (Unexpected AcquireError_InvalidSlot, self) else
  slots ← deref (slots_ self);
  let slot := slot_address self slots read_pos in
  bad ← invalid_slot slot (slot_payload_capacity_ self);
  if (bad : bool) then mret (Unexpected AcquireError_InvalidSlot, self) else
  let self := self{{ acquired_position_ := read_pos; acquired_ := true }} in
  stream_id ← load nonatomic 4 (slot + slot_stream_id);
  sequence ← load nonatomic 8 (slot + slot_event_sequence);
  source_timestamp_ns ← load nonatomic 8 (slot + slot_source_timestamp_ns);
  payload_length ← load nonatomic 4 (slot + slot_payload_length);
  mret (Value (Event stream_id sequence source_timestamp_ns
                 (Span (slot + Z.to_nat ring_slot_metadata_bytes) (Z.to_nat payload_length))),
        self).

Definition try_acquire (self : SpscRing) :
    prog (expected (EventView span) AcquireError * SpscRing) :=
  match header_ self with
  | None => mret (Unexpected AcquireError_Closed, self)
  | Some header =>
      if acquired_ self then mret (Unexpected AcquireError_AlreadyAcquired, self) else
      read_pos ← load memory_order_relaxed 8 (header + consumer_position);
      if cached_write_position_ self <=? read_pos then
        state ← load memory_order_acquire 4 (header + preamble_state);
        write_pos ← load memory_order_acquire 8 (header + producer_position);
        let self := self{{ cached_write_position_ := write_pos }} in
        if read_pos =? cached_write_position_ self
        then mret (Unexpected (if state =? RingState_value RingState_Closed
                               then AcquireError_Closed else AcquireError_Empty), self)
        else acquire_slot self read_pos
      else acquire_slot self read_pos
  end.

Definition release (self : SpscRing) : prog (bool * SpscRing) :=
  if negb (acquired_ self) then mret (false, self) else
  header ← deref (header_ self);
  store memory_order_release 8 (header + consumer_position) (u64 (acquired_position_ self + 1));;
  mret (true, self{{ acquired_ := false; acquired_position_ := 0 }}).

(** ** Closure *)

Definition close_publication (self : SpscRing) : prog bool :=
  if negb (initializer_ self) then mret false else
  header ← deref (header_ self);
  store memory_order_release 4 (header + preamble_state) (RingState_value RingState_Closed);;
  mret true.

(** The view a consumer holds, read through the segment. *)
Definition view_bytes (ev : EventView span) : prog EventData :=
  with_payload ev <$> read_bytes (span_offset (payload ev)) (span_size (payload ev)).
