(* ===== verification/RingSpec.v ===== *)
(** * What the ring promises

    The abstract queue behind a ring segment: a bounded FIFO of events with a state and
    the logical read position. [spec_publish], [spec_acquire], [spec_release] and
    [spec_close] are the specifications of the four operations; they know nothing of
    slots, cursors, cached copies or bytes. *)

From S2P Require Import Prelude Event RingLayout Ring.

Record queue := Queue {
  q_config : RingConfig;
  q_state : RingState;
  q_read : Z;              (** events released so far: the logical read position *)
  q_events : list EventData;  (** published and not yet released, oldest first *)
  q_held : bool;           (** the consumer holds a view of the oldest event *)
}.

Definition q_length (q : queue) : Z := Z.of_nat (length (q_events q)).

(** The logical write position. *)
Definition q_write (q : queue) : Z := q_read q + q_length q.

Definition q_enqueue (q : queue) (ev : EventData) : queue :=
  Queue (q_config q) (q_state q) (q_read q) (q_events q ++ [ev]) (q_held q).
Definition q_hold (q : queue) : queue :=
  Queue (q_config q) (q_state q) (q_read q) (q_events q) true.
Definition q_dequeue (q : queue) : queue :=
  Queue (q_config q) (q_state q) (q_read q + 1) (tail (q_events q)) false.
Definition q_close (q : queue) : queue :=
  Queue (q_config q) RingState_Closed (q_read q) (q_events q) (q_held q).

Definition spec_publish (q : queue) (ev : EventData) : PublishResult * queue :=
  if decide (q_state q <> RingState_Ready) then (PublishResult_Closed, q) else
  if slot_payload_capacity (q_config q) <? payload_size ev
  then (PublishResult_PayloadTooLarge, q) else
  if q_write q =? u64_max then (PublishResult_Closed, q) else
  if q_length q =? slot_count (q_config q) then (PublishResult_Full, q) else
  (PublishResult_Ok, q_enqueue q ev).

Definition spec_acquire (q : queue) : expected EventData AcquireError * queue :=
  if q_held q then (Unexpected AcquireError_AlreadyAcquired, q) else
  match q_events q with
  | [] => (Unexpected (if decide (q_state q = RingState_Closed)
                       then AcquireError_Closed else AcquireError_Empty), q)
  | ev :: _ => (Value ev, q_hold q)
  end.

Definition spec_release (q : queue) : bool * queue :=
  if q_held q then (true, q_dequeue q) else (false, q).

(** For the creator's handle. *)
Definition spec_close (q : queue) : bool * queue :=
  (true, q_close q).

(** The states of a ring in use. *)
Definition in_use (q : queue) : Prop := q_state q = RingState_Ready \/ q_state q = RingState_Closed.

(** The invariant of the abstract queue. *)
Record queue_ok (q : queue) : Prop := QueueOk {
  queue_read : 0 <= q_read q;
  queue_write : q_write q <= u64_max;
  queue_bounded : q_length q <= slot_count (q_config q);
  queue_events : Forall (fun ev => event_ok ev /\
                   payload_size ev <= slot_payload_capacity (q_config q)) (q_events q);
  queue_held : q_held q = true -> q_events q <> [];
}.

#[local] Ltac open_queue :=
  match goal with q : queue |- _ => destruct q as [c st r evs held] end;
  intros [Hr Hw Hb Hev Hheld]; unfold q_write, q_length in *; cbn in *.

Lemma spec_publish_ok q ev :
  queue_ok q -> event_ok ev -> queue_ok (spec_publish q ev).2.
Proof.
  open_queue. intros Hok. unfold spec_publish, q_write, q_length. cbn.
  case_decide; [by split|]. repeat case_bool; try by split. to_prop.
  split; unfold q_write, q_length; cbn; rewrite ?length_app; simpl; try lia.
  - apply Forall_app. split; [done|]. by constructor.
  - by intros _ [_ ?]%app_nil.
Qed.

Lemma q_write_enqueue q ev : q_write (q_enqueue q ev) = q_write q + 1.
Proof. unfold q_write, q_length. cbn. rewrite length_app. simpl. lia. Qed.

(** Releasing moves the read position, not the write position. *)
Lemma q_write_dequeue q : q_events q <> [] -> q_write (q_dequeue q) = q_write q.
Proof. unfold q_write, q_length. cbn. destruct (q_events q); [done|]. simpl. lia. Qed.

(** The successful case, as an equation. *)
Lemma spec_publish_Ok q ev :
  q_state q = RingState_Ready -> payload_size ev <= slot_payload_capacity (q_config q) ->
  q_write q < u64_max -> q_length q < slot_count (q_config q) ->
  spec_publish q ev = (PublishResult_Ok, q_enqueue q ev).
Proof.
  intros Hst ???. unfold spec_publish. rewrite decide_False by (intros []; done).
  rewrite (proj2 (Z.ltb_ge _ _)), !(proj2 (Z.eqb_neq _ _)) by lia. done.
Qed.

Lemma spec_acquire_ok q : queue_ok q -> queue_ok (spec_acquire q).2.
Proof.
  open_queue. unfold spec_acquire. cbn. destruct held; [by split|].
  destruct evs; by split.
Qed.

Lemma spec_release_ok q : queue_ok q -> queue_ok (spec_release q).2.
Proof.
  open_queue. unfold spec_release. cbn. destruct held; [|by split].
  destruct evs as [|ev evs]; [by destruct Hheld|]. apply Forall_cons in Hev as [_ Hev].
  split; unfold q_write, q_length; cbn in *; try done; lia.
Qed.

Lemma spec_close_ok q : queue_ok q -> queue_ok (spec_close q).2.
Proof. open_queue. by split. Qed.

Create HintDb queue.
#[export] Hint Resolve spec_publish_ok spec_acquire_ok spec_release_ok spec_close_ok : queue.
