(* ===== verification/RingGeometry.v ===== *)
(** * Ring geometry

    What [required_bytes] computes, and the arithmetic of slot addresses: slots are
    64-byte aligned, lie inside the segment, and slots at different physical indices do
    not overlap. *)

From S2P Require Import Prelude Bytes Event Memory RingLayout Ring.

(** The type invariant of [RingConfig]. *)
Definition config_ok (c : RingConfig) : Prop :=
  is_uint 32 (slot_count c) /\ is_uint 32 (slot_payload_capacity c).

Definition is_power_of_two (n : Z) : bool := (2 <=? n) && (2 ^ Z.log2 n =? n).

(** Metadata and payload, rounded up to whole cache lines. *)
Definition stride_of (c : RingConfig) : Z := (slot_payload_capacity c + 95) / 64 * 64.

Definition segment_size (c : RingConfig) : Z := 192 + stride_of c * slot_count c.

(** The configurations [required_bytes] accepts. *)
Record valid_config (c : RingConfig) : Prop := ValidConfig {
  valid_ok : config_ok c;
  valid_count : exists k, 1 <= k < 32 /\ slot_count c = 2 ^ k;
  valid_stride : stride_of c <= u32_max;
}.

Lemma is_power_of_two_spec n :
  is_uint 32 n -> is_power_of_two n = true <-> exists k, 1 <= k < 32 /\ n = 2 ^ k.
Proof.
  intros Hn. unfold is_power_of_two. rewrite andb_true_iff, Z.leb_le, Z.eqb_eq. split.
  - intros [Hn2 Hp]. exists (Z.log2 n). split; [|done].
    split; [by apply Z.log2_le_pow2; simpl; lia|]. apply Z.log2_lt_pow2; uint.
  - intros (k&Hk&->). rewrite Z.log2_pow2 by lia. split; [|done].
    apply (Z.pow_le_mono_r 2 1 k); lia.
Qed.

Lemma power_of_two_test n :
  is_uint 32 n ->
  (n <? 2) || negb (Z.land n (u32 (n - 1)) =? 0) = negb (is_power_of_two n).
Proof.
  intros Hn. unfold is_power_of_two. rewrite (Z.leb_antisym n 2).
  destruct (Z.ltb_spec n 2); cbn [orb negb andb]; [done|]. f_equal.
  rewrite wrap_small by uint. apply eq_true_iff_eq. rewrite !Z.eqb_eq. split.
  - intros Hl. by rewrite <- (land_pred_zero_pow2 n) by (done || lia).
  - intros <-. apply land_pred_pow2. apply Z.log2_nonneg.
Qed.

Lemma stride_of_align c :
  config_ok c ->
  align_up (u64 (ring_slot_metadata_bytes + slot_payload_capacity c)) ring_cache_line_bytes =
    stride_of c.
Proof.
  intros [_ Hc]. unfold ring_slot_metadata_bytes, ring_cache_line_bytes, stride_of.
  rewrite wrap_small by uint. change 64 with (2 ^ 6).
  destruct (align_up_spec (32 + slot_payload_capacity c) 6) as (q&->&Hq); [uint..|].
  f_equal. apply Z.div_unique with (slot_payload_capacity c + 95 - 2 ^ 6 * q); lia.
Qed.

Lemma stride_of_bounds c :
  config_ok c -> 32 + slot_payload_capacity c <= stride_of c < slot_payload_capacity c + 96.
Proof.
  intros [_ Hc]. unfold stride_of.
  pose proof (Z.div_mod (slot_payload_capacity c + 95) 64 ltac:(lia)).
  pose proof (Z.mod_pos_bound (slot_payload_capacity c + 95) 64 ltac:(lia)). lia.
Qed.

Lemma stride_of_min c : valid_config c -> 32 <= stride_of c.
Proof.
  intros Hv. pose proof (stride_of_bounds c (valid_ok c Hv)).
  destruct (valid_ok c Hv) as [_ ?]. uint.
Qed.

Lemma power_of_two_le n k : 1 <= k < 32 -> n = 2 ^ k -> 2 <= n <= 2 ^ 31.
Proof.
  intros ? ->. split; [apply (Z.pow_le_mono_r 2 1 k)|apply Z.pow_le_mono_r]; lia.
Qed.

Lemma segment_size_bounds c :
  valid_config c -> 192 <= segment_size c < 2 ^ 63 + 2 ^ 32 /\
    0 <= stride_of c * slot_count c < 2 ^ 63.
Proof.
  intros [Hok (k&Hk&Hn) Hs]. pose proof (power_of_two_le _ _ Hk Hn).
  pose proof (stride_of_bounds c Hok). destruct Hok. unfold segment_size, is_uint in *. nia.
Qed.

Lemma required_bytes_spec c :
  config_ok c ->
  required_bytes c =
    if negb (is_power_of_two (slot_count c)) then Unexpected RingError_InvalidConfig else
    if u32_max <? stride_of c then Unexpected RingError_SizeOverflow else
    Value (segment_size c).
Proof.
  intros Hok. unfold required_bytes. rewrite power_of_two_test by apply Hok.
  case_bool; [done|]. rewrite stride_of_align by done.
  case_bool; [done|]. to_prop.
  assert (valid_config c) as Hv.
  { split; [done| |done]. by apply is_power_of_two_spec; [apply Hok|]. }
  pose proof (segment_size_bounds c Hv) as [Hb1 Hb2].
  destruct Hv as [_ (k&Hk&Hn) _]. pose proof (power_of_two_le _ _ Hk Hn).
  pose proof (stride_of_bounds c Hok). destruct Hok as [_ Hc].
  unfold ring_header_bytes. rewrite (proj2 (Z.ltb_ge _ _)).
  - f_equal. unfold segment_size in *. rewrite (wrap_small 64 (_ * _)) by uint.
    apply wrap_small. uint.
  - apply Z.div_le_lower_bound; [uint|]. rewrite wrap_small by uint. uint.
Qed.

Lemma required_bytes_valid c b :
  config_ok c -> required_bytes c = Value b <-> valid_config c /\ b = segment_size c.
Proof.
  intros Hok. rewrite required_bytes_spec by done.
  pose proof (is_power_of_two_spec (slot_count c) (proj1 Hok)) as Hp.
  destruct (is_power_of_two (slot_count c)); simpl.
  - destruct (Z.ltb_spec u32_max (stride_of c)).
    + split; [done|]. intros [[_ _ ?] _]. lia.
    + split; [intros [= <-]|by intros [_ ->]]. split; [|done]. split; [done|tauto|lia].
  - split; [done|]. intros [[_ ? _] _]. assert (false = true) by tauto. done.
Qed.

(** ** Slot addresses *)

(** The physical index of a logical position, and its slot's offset in the segment. *)
Definition slot_index (c : RingConfig) (pos : Z) : Z := pos mod slot_count c.
Definition slot_offset (c : RingConfig) (pos : Z) : addr :=
  (192 + Z.to_nat (stride_of c * slot_index c pos))%nat.

#[global] Arguments slot_offset : simpl never.
#[global] Arguments segment_size : simpl never.
#[global] Arguments stride_of : simpl never.

Section Slots.
Context (c : RingConfig) (Hc : valid_config c).

Lemma slot_count_pos : 2 <= slot_count c < 2 ^ 32.
Proof using Hc. destruct Hc as [_ (k&Hk&Hn) _]. pose proof (power_of_two_le _ _ Hk Hn). lia. Qed.

Lemma slot_index_range pos : 0 <= slot_index c pos < slot_count c.
Proof using Hc. apply Z.mod_pos_bound. pose proof slot_count_pos. lia. Qed.

(** The code masks with [slot_count - 1]. *)
Lemma slot_index_mask pos :
  Z.land pos (u32 (slot_count c - 1)) = slot_index c pos.
Proof using Hc.
  pose proof slot_count_pos. destruct Hc as [_ (k&Hk&Hn) _].
  rewrite wrap_small by uint. unfold slot_index. rewrite Hn. apply land_mask_mod. lia.
Qed.

Lemma slot_offset_code pos :
  (192 + Z.to_nat (u64 (stride_of c * Z.land pos (u32 (slot_count c - 1)))))%nat =
    slot_offset c pos.
Proof using Hc.
  rewrite slot_index_mask. unfold slot_offset. rewrite wrap_small; [done|].
  pose proof (slot_index_range pos). pose proof slot_count_pos.
  pose proof (stride_of_bounds c (valid_ok c Hc)). pose proof (valid_stride c Hc).
  destruct (valid_ok c Hc) as [_ ?]. uint || (unfold is_uint in *; nia).
Qed.

Lemma slot_offset_aligned pos : exists q, slot_offset c pos = (64 * q)%nat.
Proof using Hc.
  unfold slot_offset, stride_of. pose proof (slot_index_range pos).
  destruct (valid_ok c Hc) as [_ ?].
  assert (0 <= (slot_payload_capacity c + 95) / 64) by (apply Z.div_pos; uint).
  exists (3 + Z.to_nat ((slot_payload_capacity c + 95) / 64 * slot_index c pos))%nat.
  rewrite <- Z.mul_assoc, (Z.mul_comm 64), Z.mul_assoc, Z2Nat.inj_mul by nia. lia.
Qed.

Lemma slot_aligned pos w d :
  (w = 4 \/ w = 8)%nat -> (d mod w = 0)%nat -> aligned w (slot_offset c pos + d) = true.
Proof using Hc.
  intros Hw Hd. destruct (slot_offset_aligned pos) as [q ->]. unfold aligned.
  apply Nat.eqb_eq. destruct Hw; subst w;
    [replace (64 * q)%nat with (q * 16 * 4)%nat by lia
    |replace (64 * q)%nat with (q * 8 * 8)%nat by lia];
    rewrite Nat.add_comm, Nat.Div0.mod_add; done.
Qed.

Lemma slot_offset_in pos :
  (192 <= slot_offset c pos)%nat /\
  (slot_offset c pos + Z.to_nat (stride_of c) <= Z.to_nat (segment_size c))%nat.
Proof using Hc.
  pose proof (slot_index_range pos). pose proof (stride_of_bounds c (valid_ok c Hc)).
  destruct (valid_ok c Hc) as [_ ?]. unfold slot_offset, segment_size.
  split; [lia|]. apply Nat2Z.inj_le. unfold is_uint in *.
  rewrite !Nat2Z.inj_add, !Z2Nat.id; nia.
Qed.

Lemma slot_offset_disjoint pos pos' :
  slot_index c pos <> slot_index c pos' ->
  (slot_offset c pos + Z.to_nat (stride_of c) <= slot_offset c pos' \/
   slot_offset c pos' + Z.to_nat (stride_of c) <= slot_offset c pos)%nat.
Proof using Hc.
  intros Hne. pose proof (slot_index_range pos). pose proof (slot_index_range pos').
  pose proof (stride_of_bounds c (valid_ok c Hc)). destruct (valid_ok c Hc) as [_ ?].
  unfold slot_offset, is_uint in *.
  assert (forall i j, 0 <= i -> i < j -> (192 + Z.to_nat (stride_of c * i) + Z.to_nat (stride_of c)
            <= 192 + Z.to_nat (stride_of c * j))%nat) as Hij.
  { intros i j ??. assert (stride_of c * i + stride_of c <= stride_of c * j) by nia.
    assert (0 <= stride_of c * i) by nia. lia. }
  destruct (Z.lt_total (slot_index c pos) (slot_index c pos')) as [?|[?|?]]; [left|done|right];
    apply Hij; lia.
Qed.

(** Positions less than one lap apart use different slots. *)
Lemma slot_index_ne pos pos' :
  pos < pos' < pos + slot_count c -> slot_index c pos <> slot_index c pos'.
Proof using Hc.
  intros Hlt Heq. unfold slot_index in Heq. pose proof slot_count_pos.
  pose proof (Z.div_mod pos (slot_count c) ltac:(lia)).
  pose proof (Z.div_mod pos' (slot_count c) ltac:(lia)).
  assert (0 < slot_count c * (pos' / slot_count c - pos / slot_count c) < slot_count c)
    by (rewrite Z.mul_sub_distr_l; lia).
  destruct (Z.le_gt_cases (pos' / slot_count c - pos / slot_count c) 0); nia.
Qed.

Lemma slot_offset_lap pos : slot_offset c (pos + slot_count c) = slot_offset c pos.
Proof using Hc.
  unfold slot_offset, slot_index. pose proof slot_count_pos.
  rewrite <- (Z.mul_1_l (slot_count c)) at 1. by rewrite Z.mod_add by lia.
Qed.
End Slots.
