(* ===== verification/RingRefinement.v ===== *)
(** * The sequential ring refines the queue

    [ring_repr m q] says that the bytes [m] of a segment represent the abstract queue
    [q]; [producer_ok] and [consumer_ok] say what the two handles know of it. Their
    cached cursors may be stale: only [<=] is required of them. Each operation, run on
    the bytes, gives the result of its specification in [RingSpec] and leaves bytes that
    represent the specification's next queue; the result never depends on how stale the
    caches are. *)

From S2P Require Import Prelude Bytes Event Memory RingLayout Ring RingSpec RingGeometry.

(** ** Writes and the ranges they leave alone *)

Definition same_outside (m m' : list byte) (a n : nat) : Prop :=
  length m' = length m /\
  forall off k, (off + k <= a \/ a + n <= off)%nat -> load_bytes m' off k = load_bytes m off k.

Lemma store_same_outside m off bs m' :
  store_bytes m off bs = Some m' -> same_outside m m' off (length bs).
Proof.
  intros Hs. split; [by eapply store_bytes_length|]. intros. by eapply load_store_disjoint.
Qed.

Lemma same_outside_weaken m m' a n a' n' :
  same_outside m m' a n -> (a' <= a)%nat -> (a + n <= a' + n')%nat -> same_outside m m' a' n'.
Proof. intros [Hl Hs] ??. split; [done|]. intros off k ?. apply Hs. lia. Qed.

Lemma same_outside_trans m m1 m2 a n :
  same_outside m m1 a n -> same_outside m1 m2 a n -> same_outside m m2 a n.
Proof.
  intros [Hl1 Hs1] [Hl2 Hs2]. split; [congruence|].
  intros off k ?. by rewrite Hs2, Hs1.
Qed.

Lemma same_outside_word m m' a n off w :
  same_outside m m' a n -> (off + w <= a \/ a + n <= off)%nat ->
  load_word m' off w = load_word m off w.
Proof. intros [_ Hs] ?. unfold load_word. by rewrite Hs. Qed.

Lemma loads_at_frame m m' o fs a n :
  same_outside m m' a n -> (o + length (concat fs) <= a \/ a + n <= o)%nat ->
  loads_at m o fs -> loads_at m' o fs.
Proof.
  intros [_ Hs]. revert o. induction fs as [|f fs IH]; intros o Hd; simpl in *; [done|].
  rewrite length_app in Hd. intros [Hf Hfs]. split; [rewrite Hs by lia; done|].
  apply IH; [lia|done].
Qed.

(** ** Slots *)

Definition slot_header_fields (ev : EventData) : list (list byte) :=
  [le_split 8 (sequence ev); le_split 8 (source_timestamp_ns ev);
   le_split 4 (stream_id ev); le_split 4 (payload_size ev)].

Definition slot_header_bytes (ev : EventData) : list byte := concat (slot_header_fields ev).

Lemma length_slot_header_bytes ev : length (slot_header_bytes ev) = 24%nat.
Proof. done. Qed.

(** The slot of logical position [pos] holds [ev]. *)
Definition slot_holds (c : RingConfig) (m : list byte) (pos : Z) (ev : EventData) : Prop :=
  load_bytes m (slot_offset c pos) 24 = Some (slot_header_bytes ev) /\
  load_bytes m (slot_offset c pos + 32) (length (payload ev)) = Some (payload ev).

Definition slot_reserved_zero (c : RingConfig) (m : list byte) (pos : Z) : Prop :=
  load_word m (slot_offset c pos + 24) 4 = Some 0 /\
  load_word m (slot_offset c pos + 28) 4 = Some 0.

(** The fields of a held slot, read one by one. *)
Lemma slot_holds_fields c m pos ev :
  slot_holds c m pos ev -> event_ok ev -> is_uint 32 (payload_size ev) ->
  load_word m (slot_offset c pos + 0) 8 = Some (sequence ev) /\
  load_word m (slot_offset c pos + 8) 8 = Some (source_timestamp_ns ev) /\
  load_word m (slot_offset c pos + 16) 4 = Some (stream_id ev) /\
  load_word m (slot_offset c pos + 20) 4 = Some (payload_size ev).
Proof.
  intros [Hh _] [Hst Hsq Hts] Hp. revert Hh. generalize (slot_offset c pos) as a. intros a Hh.
  assert (a <= length m)%nat by (apply load_bytes_Some in Hh; lia).
  apply (loads_at_concat m a (slot_header_fields ev)) in Hh; [|done].
  unfold slot_header_fields in Hh. cbn [loads_at] in Hh. rewrite !length_le_split in Hh.
  rewrite <- !Nat.add_assoc in Hh. simpl in Hh. destruct Hh as (H0&H1&H2&H3&_).
  rewrite Nat.add_0_r. unfold load_word. rewrite H0, H1, H2, H3. simpl.
  by rewrite !le_combine_split_small.
Qed.

Lemma slot_holds_frame c m m' a n pos ev :
  same_outside m m' a n ->
  (slot_offset c pos + 32 + length (payload ev) <= a \/ a + n <= slot_offset c pos)%nat ->
  slot_holds c m pos ev -> slot_holds c m' pos ev.
Proof. intros [_ Hs] Hd [H1 H2]. split; rewrite Hs; done || lia. Qed.

Lemma slot_reserved_frame c m m' a n pos :
  same_outside m m' a n ->
  (slot_offset c pos + 32 <= a \/ a + n <= slot_offset c pos + 24)%nat ->
  slot_reserved_zero c m pos -> slot_reserved_zero c m' pos.
Proof.
  intros Hs Hd [H1 H2]. split; erewrite same_outside_word; try done; lia.
Qed.

(** ** The header *)

Definition zeros (n : nat) : list byte := replicate n Byte.x00.

Lemma length_zeros n : length (zeros n) = n.
Proof. apply length_replicate. Qed.

(** The fields in front of the state word, for the configuration [c] and instance [id]. *)
Definition preamble_fields (c : RingConfig) (id : Z) : list (list byte) :=
  [ ring_magic; le_split 2 ring_layout_version; le_split 2 ring_header_bytes;
    le_split 8 (segment_size c); le_split 4 (slot_count c); le_split 4 (stride_of c);
    le_split 4 (slot_payload_capacity c); le_split 4 0; le_split 8 id ].

(** What the operations never change: everything but the state and the two cursors. *)
Definition header_holds (c : RingConfig) (m : list byte) : Prop :=
  exists id, is_uint 64 id /\ id <> 0 /\ loads_at m 0 (preamble_fields c id) /\
    load_bytes m preamble_reserved_bytes 20 = Some (zeros 20) /\
    load_bytes m producer_reserved_bytes 56 = Some (zeros 56) /\
    load_bytes m consumer_reserved_bytes 56 = Some (zeros 56).

Lemma header_holds_frame c m m' a n :
  same_outside m m' a n ->
  ((a = preamble_state /\ n = 4) \/ (a = producer_position /\ n = 8) \/
   (a = consumer_position /\ n = 8) \/ 192 <= a)%nat ->
  header_holds c m -> header_holds c m'.
Proof.
  unfold preamble_state, producer_position, consumer_position.
  intros HS Ha (id&?&?&Hp&H1&H2&H3). exists id. split_and!; try done.
  - eapply loads_at_frame; [exact HS| |done].
    assert (length (concat (preamble_fields c id)) = 40%nat) as -> by reflexivity. lia.
  - rewrite (proj2 HS); [done|]. unfold preamble_reserved_bytes. lia.
  - rewrite (proj2 HS); [done|]. unfold producer_reserved_bytes. lia.
  - rewrite (proj2 HS); [done|]. unfold consumer_reserved_bytes. lia.
Qed.

(** ** Representation *)

Record ring_repr (m : list byte) (q : queue) : Prop := RingRepr {
  repr_valid : valid_config (q_config q);
  repr_ok : queue_ok q;
  repr_size : Z.of_nat (length m) = segment_size (q_config q);
  repr_state : load_word m preamble_state 4 = Some (RingState_value (q_state q));
  repr_write : load_word m producer_position 8 = Some (q_write q);
  repr_read : load_word m consumer_position 8 = Some (q_read q);
  repr_slots : forall i ev, q_events q !! i = Some ev ->
                 slot_holds (q_config q) m (q_read q + Z.of_nat i) ev;
  repr_reserved : forall pos, slot_reserved_zero (q_config q) m pos;
  repr_header : header_holds (q_config q) m;
}.

(** A handle made for the segment. *)
Record handle_ok (c : RingConfig) (h : SpscRing) : Prop := HandleOk {
  handle_header : header_ h = Some 0%nat;
  handle_slots : slots_ h = Some 192%nat;
  handle_count : slot_count_ h = slot_count c;
  handle_stride : slot_stride_ h = stride_of c;
  handle_capacity : slot_payload_capacity_ h = slot_payload_capacity c;
}.

Record producer_ok (q : queue) (h : SpscRing) : Prop := ProducerOk {
  prod_handle : handle_ok (q_config q) h;
  prod_cached : 0 <= cached_read_position_ h <= q_read q;
}.

Record consumer_ok (q : queue) (h : SpscRing) : Prop := ConsumerOk {
  cons_handle : handle_ok (q_config q) h;
  cons_cached : 0 <= cached_write_position_ h <= q_write q;
  cons_held : acquired_ h = q_held q;
  cons_position : q_held q = true -> acquired_position_ h = q_read q;
}.

Lemma event_fits c ev :
  valid_config c -> payload_size ev <= slot_payload_capacity c ->
  (32 + length (payload ev) <= Z.to_nat (stride_of c))%nat /\ is_uint 32 (payload_size ev).
Proof.
  intros Hv Hp. pose proof (stride_of_bounds c (valid_ok c Hv)).
  destruct (valid_ok c Hv) as [_ ?]. unfold payload_size in *. uint.
Qed.

(** ** Publishing *)

(** The four header stores are one store of the 24 header bytes. *)
Lemma run_fill_slot_header c pos ev m :
  valid_config c -> is_uint 32 (payload_size ev) ->
  run (fill_slot_header (slot_offset c pos) ev) m =
    m' ← store_bytes m (slot_offset c pos) (slot_header_bytes ev); Some (tt, m').
Proof.
  intros Hv Hp. unfold fill_slot_header, store, mbind, prog_mbind. cbn [prog_bind run].
  unfold slot_event_sequence, slot_source_timestamp_ns, slot_stream_id, slot_payload_length.
  rewrite !(slot_aligned c Hv) by auto. rewrite wrap_small by done.
  unfold store_word, slot_header_bytes, slot_header_fields. cbn [concat].
  rewrite Nat.add_0_r, app_nil_r.
  do 3 (erewrite store_bytes_then;
    [|intros; reflexivity|rewrite ?length_app, ?length_le_split; lia]).
  by rewrite <- !app_assoc.
Qed.

Lemma store_bytes_nil m off : (off <= length m)%nat -> store_bytes m off [] = Some m.
Proof. intros. unfold store_bytes. by rewrite decide_True by (simpl; lia). Qed.

(** Copying an empty payload is no store at all. *)
Lemma run_copy_payload m a (bs : list byte) :
  (a + 32 <= length m)%nat ->
  run (if negb (bool_decide (bs = []))
       then write_bytes (a + Z.to_nat ring_slot_metadata_bytes) bs else mret tt) m =
    m' ← store_bytes m (a + 32) bs; Some (tt, m').
Proof.
  intros. case_bool_decide as Hnil; cbn [negb]; [|done].
  subst bs. by rewrite store_bytes_nil.
Qed.

(** Filling a slot: it holds the event, everything outside it is unchanged. *)
Lemma run_fill_slot c pos ev m :
  valid_config c -> Z.of_nat (length m) = segment_size c ->
  payload_size ev <= slot_payload_capacity c ->
  exists m0 m1,
    run (fill_slot_header (slot_offset c pos) ev) m = Some (tt, m0) /\
    run (if negb (bool_decide (payload ev = []))
         then write_bytes (slot_offset c pos + Z.to_nat ring_slot_metadata_bytes) (payload ev)
         else mret tt) m0 = Some (tt, m1) /\
    same_outside m m1 (slot_offset c pos) (Z.to_nat (stride_of c)) /\
    slot_holds c m1 pos ev /\
    (slot_reserved_zero c m pos -> slot_reserved_zero c m1 pos).
Proof.
  intros Hv Hlen Hp. destruct (event_fits c ev Hv Hp) as [Hfit Hpu].
  pose proof (slot_offset_in c Hv pos) as [Hlo Hin].
  rewrite run_fill_slot_header by done.
  destruct (store_bytes m (slot_offset c pos) (slot_header_bytes ev)) as [ma|] eqn:Hma.
  2: { rewrite store_bytes_is_Some in Hma; [done|]. rewrite length_slot_header_bytes. lia. }
  pose proof (store_bytes_length _ _ _ _ Hma) as Hla.
  destruct (store_bytes ma (slot_offset c pos + 32) (payload ev)) as [mb|] eqn:Hmb.
  2: { rewrite store_bytes_is_Some in Hmb; [done|]. lia. }
  exists ma, mb. split; [done|]. split; [by rewrite run_copy_payload, Hmb by lia|].
  pose proof (store_same_outside _ _ _ _ Hma) as HSa. rewrite length_slot_header_bytes in HSa.
  pose proof (store_same_outside _ _ _ _ Hmb) as HSb.
  split_and!; [|split|intros Hres].
  - eapply same_outside_trans; eapply same_outside_weaken; try done; lia.
  - rewrite (proj2 HSb) by lia. apply load_store_same in Hma.
    by rewrite length_slot_header_bytes in Hma.
  - by apply load_store_same in Hmb.
  - eapply slot_reserved_frame; [exact HSb|lia|].
    eapply slot_reserved_frame; [exact HSa|lia|done].
Qed.

(** What [publish_slot] leaves: the slot is filled and the write cursor is one further. *)
Lemma run_publish_slot c h w ev m :
  valid_config c -> handle_ok c h -> Z.of_nat (length m) = segment_size c ->
  is_uint 64 (w + 1) -> payload_size ev <= slot_payload_capacity c ->
  exists m1 m2,
    run (publish_slot h 0 w ev) m = Some (PublishResult_Ok, m2) /\
    same_outside m m1 (slot_offset c w) (Z.to_nat (stride_of c)) /\
    slot_holds c m1 w ev /\
    (slot_reserved_zero c m w -> slot_reserved_zero c m1 w) /\
    store_word m1 producer_position 8 (w + 1) = Some m2.
Proof.
  intros Hv [_ Hsl Hco Hst _] Hlen Hw Hp.
  destruct (run_fill_slot c w ev m Hv Hlen Hp) as (m0&m1&Hrun0&Hrun1&Hsame&Hhold&Hres).
  pose proof (run_length _ _ _ Hrun0) as Hl0. pose proof (run_length _ _ _ Hrun1) as Hl1. cbn in Hl0, Hl1.
  destruct (store_word m1 producer_position 8 (w + 1)) as [m2|] eqn:Hm2.
  2: { unfold store_word in Hm2. rewrite store_bytes_is_Some in Hm2; [done|].
       pose proof (segment_size_bounds _ Hv). rewrite length_le_split. unfold producer_position. lia. }
  exists m1, m2. split; [|done].
  unfold publish_slot, slot_address. rewrite Hsl, Hst, Hco. cbn [deref].
  change (Ret 192%nat ≫= ?f) with (f 192%nat). cbv beta zeta.
  rewrite (slot_offset_code c Hv), run_bind, Hrun0. cbn [mbind option_bind fst snd].
  rewrite run_bind, Hrun1. cbn [mbind option_bind fst snd].
  rewrite wrap_small by done. by erewrite run_store.
Qed.

(** The slots of the events in the queue are not those written. *)
Lemma publish_frames m m1 q pos ev :
  ring_repr m q -> q_length q < slot_count (q_config q) ->
  same_outside m m1 (slot_offset (q_config q) (q_write q)) (Z.to_nat (stride_of (q_config q))) ->
  (exists i, q_events q !! i = Some ev /\ pos = q_read q + Z.of_nat i) -> slot_holds (q_config q) m1 pos ev.
Proof.
  intros [Hv [Hr0 Hw0 Hb Hevs Hheld] _ _ _ _ Hsl _ _] Hfull Hsame (i&Hi&->).
  apply lookup_lt_Some in Hi as Hil. unfold q_write, q_length in *.
  assert (payload_size ev <= slot_payload_capacity (q_config q)) as Hpe.
  { rewrite Forall_forall in Hevs. eapply Hevs, list_elem_of_lookup_2, Hi. }
  pose proof (event_fits _ _ Hv Hpe) as [? _].
  eapply slot_holds_frame; [exact Hsame| |by apply Hsl].
  destruct (slot_offset_disjoint _ Hv (q_read q + Z.of_nat i)
              (q_read q + Z.of_nat (length (q_events q)))); [|lia..].
  apply slot_index_ne; [done|lia].
Qed.

(** The bytes after [publish_slot] represent the queue with the event appended. *)
Lemma publish_repr m m1 m2 q ev :
  ring_repr m q -> event_ok ev -> q_state q = RingState_Ready -> payload_size ev <= slot_payload_capacity (q_config q) ->
  q_write q < u64_max -> q_length q < slot_count (q_config q) ->
  same_outside m m1 (slot_offset (q_config q) (q_write q)) (Z.to_nat (stride_of (q_config q))) ->
  slot_holds (q_config q) m1 (q_write q) ev ->
  (slot_reserved_zero (q_config q) m (q_write q) ->
   slot_reserved_zero (q_config q) m1 (q_write q)) ->
  store_word m1 producer_position 8 (q_write q + 1) = Some m2 ->
  ring_repr m2 (q_enqueue q ev).
Proof.
  intros Hrepr Hev Hready Hp Hlt Hfull Hsame Hhold Hresw Hm2.
  pose proof Hrepr as [Hv Hok Hsz Hst Hw Hr Hsl Hres Hheader].
  pose proof (event_fits _ _ Hv Hp) as [Hfit _].
  pose proof (slot_offset_in _ Hv (q_write q)) as [Hlo _].
  pose proof (store_same_outside _ _ _ _ Hm2) as HS2. rewrite length_le_split in HS2.
  pose proof (spec_publish_ok q ev Hok Hev) as Hok'. rewrite spec_publish_Ok in Hok' by done.
  destruct Hok as [Hr0 Hw0 Hb Hevs Hheld].
  assert (forall pos e, slot_holds (q_config q) m1 pos e -> slot_holds (q_config q) m2 pos e) as Hh12.
  { intros pos e. pose proof (slot_offset_in _ Hv pos). eapply slot_holds_frame; [exact HS2|].
    unfold producer_position. lia. }
  split; cbn.
  - done.
  - done.
  - rewrite (proj1 HS2), (proj1 Hsame). done.
  - rewrite (same_outside_word _ _ _ _ _ _ HS2) by (unfold preamble_state, producer_position; lia).
    rewrite (same_outside_word _ _ _ _ _ _ Hsame); [done|]. unfold preamble_state. lia.
  - erewrite load_word_store_same by done. f_equal. unfold q_write, q_length in *. cbn.
    rewrite length_app. change (Z.of_nat 8 * 8) with 64.
    rewrite wrap_small by uint. simpl. lia.
  - rewrite (same_outside_word _ _ _ _ _ _ HS2)
      by (unfold consumer_position, producer_position; lia).
    rewrite (same_outside_word _ _ _ _ _ _ Hsame); [done|]. unfold consumer_position. lia.
  - intros i e Hi. apply Hh12. apply lookup_app_Some in Hi as [Hi|[Hge Hi]].
    + eapply (publish_frames m); [exact Hrepr|done..|by exists i].
    + assert (i = length (q_events q)) as -> by (apply lookup_lt_Some in Hi; simpl in Hi; lia).
      rewrite Nat.sub_diag in Hi. by injection Hi as <-.
  - intros pos. pose proof (slot_offset_in _ Hv pos).
    eapply slot_reserved_frame; [exact HS2|unfold producer_position; lia|].
    destruct (decide (slot_index (q_config q) pos = slot_index (q_config q) (q_write q))) as [He|Hne].
    + unfold slot_reserved_zero, slot_offset. rewrite He. by apply Hresw.
    + eapply slot_reserved_frame; [exact Hsame| |by apply Hres].
      pose proof (stride_of_min _ Hv).
      destruct (slot_offset_disjoint _ Hv _ _ Hne); lia.
  - eapply header_holds_frame; [exact HS2|by right; left|].
    eapply header_holds_frame; [exact Hsame|right; right; right; lia|done].
Qed.

Lemma run_deref_some {A} (a : addr) (f : addr -> prog A) m : run (deref (Some a) ≫= f) m = run (f a) m.
Proof. done. Qed.

Lemma run_bind_ret {A B} (p : prog A) (f : A -> prog B) m a m' :
  run p m = Some (a, m') -> run (p ≫= f) m = run (f a) m'.
Proof. intros H. by rewrite run_bind, H. Qed.

Lemma state_is_ready st : (RingState_value st =? RingState_value RingState_Ready) =
  bool_decide (st = RingState_Ready).
Proof. by destruct st. Qed.

Lemma state_is_closed st : (RingState_value st =? RingState_value RingState_Closed) =
  bool_decide (st = RingState_Closed).
Proof. by destruct st. Qed.

(** The successful tail of [try_publish] from a handle that passed the checks. *)
Lemma try_publish_tail m q h' ev :
  ring_repr m q -> producer_ok q h' -> event_ok ev -> q_state q = RingState_Ready ->
  payload_size ev <= slot_payload_capacity (q_config q) ->
  q_write q < u64_max -> q_length q < slot_count (q_config q) ->
  exists m', run (result ← publish_slot h' 0 (q_write q) ev; mret (result, h')) m =
               Some ((PublishResult_Ok, h'), m') /\
    ring_repr m' (q_enqueue q ev).
Proof.
  intros Hm Hh Hev Hst Hp Hw Hl.
  assert (0 <= q_write q) by (destruct (repr_ok _ _ Hm); unfold q_write, q_length; lia).
  destruct (run_publish_slot (q_config q) h' (q_write q) ev m) as (m1&m2&Hrun&?&?&?&?);
    try apply Hm; try apply Hh; try done; [uint|].
  exists m2. split; [|by eapply publish_repr].
  by erewrite run_bind_ret by exact Hrun.
Qed.

(** What [try_publish] makes of its handle. *)
Definition publish_handle (q : queue) (h : SpscRing) (ev : EventData) : SpscRing :=
  if decide (q_state q <> RingState_Ready) then h else
  if slot_payload_capacity (q_config q) <? payload_size ev then h else
  if q_write q =? u64_max then h else
  if slot_count (q_config q) <=? q_write q - cached_read_position_ h
  then h{{ cached_read_position_ := q_read q }} else h.

(** An early return: the bytes and the queue are unchanged. *)
Ltac early_return := eexists; split; [reflexivity|by split].

Lemma try_publish_runs m q h ev :
  ring_repr m q -> producer_ok q h -> event_ok ev ->
  exists m',
    run (try_publish h ev) m = Some (((spec_publish q ev).1, publish_handle q h ev), m') /\
    ring_repr m' (spec_publish q ev).2 /\ producer_ok (spec_publish q ev).2 (publish_handle q h ev).
Proof.
  intros Hm Hp Hev. pose proof Hm as [Hv Hok Hsz Hst Hw Hr _ _ _].
  pose proof Hp as [Hh Hcache]. pose proof Hh as [Hhd Hsl Hco Hstr Hcap].
  pose proof Hok as [Hr0 Hw0 Hb _ _].
  assert (q_write q = q_read q + q_length q) as Hwr by done.
  assert (0 <= q_length q) by (unfold q_length; lia).
  unfold try_publish. rewrite Hhd.
  erewrite run_load by done. rewrite state_is_ready. unfold spec_publish, publish_handle.
  case_bool_decide as Hready; cbn [negb]; (case_decide; try tauto); [|early_return].
  rewrite Hcap. case_bool; [early_return|to_prop].
  erewrite run_load by done. case_bool; [early_return|to_prop].
  rewrite Hco.
  rewrite (wrap_small 64 (q_write q - cached_read_position_ h)) by uint.
  case_bool; to_prop.
  - erewrite run_load by done.
    set (h' := h{{ cached_read_position_ := q_read q }}).
    assert (producer_ok q h') as Hp' by (destruct h; split; [by split|cbn; lia]).
    assert (cached_read_position_ h' = q_read q /\ slot_count_ h' = slot_count (q_config q))
      as [-> ->] by by destruct h.
    rewrite (wrap_small 64 (q_write q - q_read q)) by uint.
    replace (q_write q - q_read q) with (q_length q) by lia.
    rewrite !(proj2 (Z.ltb_ge _ _)) by lia. cbn [orb].
    case_bool; [early_return|to_prop].
    destruct (try_publish_tail m q h' ev) as (m'&->&Hm'); try done; try lia.
    exists m'. by split_and!.
  - destruct (try_publish_tail m q h ev) as (m'&->&Hm'); try done; try lia.
    rewrite (proj2 (Z.eqb_neq _ _)) by lia. exists m'. by split_and!.
Qed.

Lemma try_publish_refines m q h ev :
  ring_repr m q -> producer_ok q h -> event_ok ev ->
  exists h' m',
    run (try_publish h ev) m = Some (((spec_publish q ev).1, h'), m') /\
    ring_repr m' (spec_publish q ev).2 /\ producer_ok (spec_publish q ev).2 h'.
Proof. intros Hm Hp Hev. eexists. by apply try_publish_runs. Qed.

(** ** Acquiring *)

(** The view [try_acquire] hands out: the payload stays in the slot. *)
Definition slot_view (c : RingConfig) (pos : Z) (ev : EventData) : EventView span :=
  with_payload ev (Span (slot_offset c pos + 32) (length (payload ev))).

Lemma slot_view_bytes c m pos ev :
  slot_holds c m pos ev -> event_bytes m (slot_view c pos ev) = Some ev.
Proof.
  intros [_ Hb]. unfold event_bytes, span_bytes, slot_view.
  cbn [payload with_payload span_offset span_size]. rewrite Hb. by destruct ev.
Qed.

Lemma run_prog_or_false p q m m1 :
  run p m = Some (false, m1) -> run (prog_or p q) m = run q m1.
Proof. intros H. unfold prog_or. by rewrite run_bind, H. Qed.

Lemma run_prog_or_true p q m m1 :
  run p m = Some (true, m1) -> run (prog_or p q) m = Some (true, m1).
Proof. intros H. unfold prog_or. by rewrite run_bind, H. Qed.

(** A test on one loaded word. *)
Lemma run_load_test o w a m v (f : Z -> bool) :
  aligned w a = true -> load_word m a w = Some v ->
  run (x ← load o w a; mret (f x)) m = Some (f v, m).
Proof. intros. by erewrite run_load. Qed.

Lemma run_invalid_slot c m pos ev :
  valid_config c -> event_ok ev -> payload_size ev <= slot_payload_capacity c ->
  slot_holds c m pos ev -> slot_reserved_zero c m pos ->
  run (invalid_slot (slot_offset c pos) (slot_payload_capacity c)) m = Some (false, m).
Proof.
  intros Hv Hev Hp Hh [Hr0 Hr1].
  destruct (event_fits c ev Hv Hp) as [_ Hpu].
  destruct (slot_holds_fields c m pos ev Hh Hev Hpu) as (_&_&_&F20).
  unfold invalid_slot.
  erewrite run_prog_or_false.
  2: { erewrite run_load_test by (done || apply slot_aligned; auto).
       by rewrite (proj2 (Z.ltb_ge _ _)) by lia. }
  erewrite run_prog_or_false.
  2: { by erewrite run_load_test by (done || apply slot_aligned; auto). }
  by erewrite run_load_test by (done || apply slot_aligned; auto).
Qed.

(** The loads of [try_acquire] on a slot that holds an event. *)
Lemma run_acquire_slot c h m pos ev :
  valid_config c -> handle_ok c h -> event_ok ev ->
  payload_size ev <= slot_payload_capacity c ->
  slot_holds c m pos ev -> slot_reserved_zero c m pos ->
  pos <= cached_write_position_ h <= pos + slot_count c -> is_uint 64 pos ->
  is_uint 64 (cached_write_position_ h) ->
  run (acquire_slot h pos) m =
    Some ((Value (slot_view c pos ev), h{{ acquired_position_ := pos; acquired_ := true }}), m).
Proof.
  intros Hv [_ Hsl Hco Hst Hcap] Hev Hp Hh Hres Hcw Hpos Hcwu.
  destruct (event_fits c ev Hv Hp) as [_ Hpu].
  destruct (slot_holds_fields c m pos ev Hh Hev Hpu) as (F0&F8&F16&F20).
  unfold acquire_slot, slot_address. rewrite Hco, Hsl, Hst, Hcap.
  rewrite wrap_small by uint. rewrite !(proj2 (Z.ltb_ge _ _)) by lia. cbn [orb].
  rewrite run_deref_some, (slot_offset_code c Hv). cbv zeta.
  erewrite run_bind_ret by by apply (run_invalid_slot c m pos ev).
  cbv beta iota.
  do 4 erewrite run_load by (done || apply slot_aligned; auto).
  unfold slot_view, with_payload, payload_size. cbn [run mret prog_ret].
  by rewrite Nat2Z.id.
Qed.

Lemma repr_hold m q : ring_repr m q -> q_events q <> [] -> ring_repr m (q_hold q).
Proof. intros [Hv [] Hsz Hst Hw Hr Hsl Hres Hheader] Hne. by split. Qed.

(** A handle that has just acquired the head of the queue. *)
Lemma consumer_acquired q h :
  consumer_ok q h ->
  consumer_ok (q_hold q) (h{{ acquired_position_ := q_read q; acquired_ := true }}).
Proof. intros [[] ? ? ?]. destruct h. by split. Qed.

Lemma consumer_refreshed q h :
  queue_ok q -> consumer_ok q h -> consumer_ok q (h{{ cached_write_position_ := q_write q }}).
Proof.
  intros [] [[] ? ? ?]. destruct h. split; try done.
  cbn. unfold q_write, q_length in *. lia.
Qed.

(** What [try_acquire] answers, and what it makes of its handle. *)
Definition acquire_result (q : queue) : expected (EventView span) AcquireError :=
  expected_map (slot_view (q_config q) (q_read q)) (spec_acquire q).1.

Definition acquire_handle (q : queue) (h : SpscRing) : SpscRing :=
  if q_held q then h else
  let h := if cached_write_position_ h <=? q_read q
           then h{{ cached_write_position_ := q_write q }} else h in
  if decide (q_events q = []) then h
  else h{{ acquired_position_ := q_read q; acquired_ := true }}.

Lemma try_acquire_runs m q h :
  ring_repr m q -> consumer_ok q h ->
  run (try_acquire h) m = Some ((acquire_result q, acquire_handle q h), m) /\
  ring_repr m (spec_acquire q).2 /\ consumer_ok (spec_acquire q).2 (acquire_handle q h).
Proof.
  intros Hm Hc. pose proof Hm as [Hv Hok Hsz Hst Hw Hr Hslots Hres Hheader].
  pose proof Hc as [Hh Hcache Hheld Hpos]. pose proof Hh as [Hhd Hsl Hco Hstr Hcap].
  pose proof Hok as [Hr0 Hw0 Hb Hevs _].
  assert (q_write q = q_read q + q_length q) as Hwr by done.
  unfold acquire_result, acquire_handle, try_acquire, spec_acquire. rewrite Hhd, Hheld.
  destruct (q_held q) eqn:Hqh; [by split|].
  erewrite run_load by done.
  pose proof (consumer_refreshed q h Hok Hc) as Hc'.
  set (h' := h{{ cached_write_position_ := q_write q }}) in *.
  assert (cached_write_position_ h' = q_write q) as Hcw by by destruct h.
  destruct (q_events q) as [|ev evs] eqn:Hq.
  - assert (q_length q = 0) by (unfold q_length; by rewrite Hq).
    rewrite (proj2 (Z.leb_le _ _)) by lia. do 2 erewrite run_load by done. fold h'.
    rewrite Hcw, (proj2 (Z.eqb_eq _ _)), state_is_closed by lia.
    split; [|done]. case_bool_decide; case_decide; done.
  - assert (1 <= q_length q) by (unfold q_length; rewrite Hq; simpl; lia).
    assert (q_events q <> []) as Hne by by rewrite Hq.
    specialize (Hslots 0%nat ev eq_refl). rewrite Z.add_0_r in Hslots.
    apply Forall_cons in Hevs as [[Hev Hp] _].
    assert (Hrun : forall g, consumer_ok q g -> q_read q <= cached_write_position_ g ->
      run (acquire_slot g (q_read q)) m = Some ((Value (slot_view (q_config q) (q_read q) ev),
             g{{ acquired_position_ := q_read q; acquired_ := true }}), m)).
    { intros g [Hg [Hg0 Hg1] _ _] ?. apply run_acquire_slot; try done; uint || lia. }
    rewrite decide_False by done. case_bool; to_prop.
    + do 2 erewrite run_load by done. fold h'. rewrite Hcw, (proj2 (Z.eqb_neq _ _)) by lia.
      split; [by apply Hrun; [|lia]|].
      split; [by apply repr_hold|by apply consumer_acquired].
    + split; [by apply Hrun; [|lia]|].
      split; [by apply repr_hold|by apply consumer_acquired].
Qed.

Lemma try_acquire_refines m q h :
  ring_repr m q -> consumer_ok q h ->
  exists h',
    run (try_acquire h) m =
      Some ((expected_map (slot_view (q_config q) (q_read q)) (spec_acquire q).1, h'), m) /\
    ring_repr m (spec_acquire q).2 /\ consumer_ok (spec_acquire q).2 h'.
Proof. intros Hm Hc. eexists. by apply try_acquire_runs. Qed.

(** ** Releasing and closing *)

(** A store to the header keeps every slot; the new queue must agree with the words. *)
Lemma repr_header_store m m' (a : addr) w v q q' :
  ring_repr m q -> store_word m a w v = Some m' ->
  ((a = preamble_state /\ w = 4) \/ (a = consumer_position /\ w = 8))%nat ->
  q_config q' = q_config q -> queue_ok q' ->
  load_word m' preamble_state 4 = Some (RingState_value (q_state q')) ->
  load_word m' producer_position 8 = Some (q_write q') ->
  load_word m' consumer_position 8 = Some (q_read q') ->
  (forall i ev, q_events q' !! i = Some ev ->
     slot_holds (q_config q) m (q_read q' + Z.of_nat i) ev) ->
  ring_repr m' q'.
Proof.
  intros [Hv Hok Hsz _ _ _ _ Hres Hheader] Hm' Ha Hc Hok' ??? Hsl.
  pose proof (store_same_outside _ _ _ _ Hm') as HS. rewrite length_le_split in HS.
  assert (a + w <= 192)%nat as Ha' by (unfold preamble_state, consumer_position in Ha; lia).
  split; try done; rewrite ?Hc; try done.
  - by rewrite (proj1 HS).
  - intros i ev Hi. pose proof (slot_offset_in _ Hv (q_read q' + Z.of_nat i)).
    eapply slot_holds_frame; [exact HS|lia|by apply Hsl].
  - intros pos. pose proof (slot_offset_in _ Hv pos).
    eapply slot_reserved_frame; [exact HS|lia|by apply Hres].
  - eapply header_holds_frame; [exact HS|tauto|done].
Qed.

Lemma queue_ok_dequeue q : queue_ok q -> q_held q = true -> queue_ok (q_dequeue q).
Proof. intros Hok Hh. pose proof (spec_release_ok q Hok) as H. unfold spec_release in H. by rewrite Hh in H. Qed.

(** What [release] makes of its handle. *)
Definition release_handle (h : SpscRing) : SpscRing :=
  if acquired_ h then h{{ acquired_ := false; acquired_position_ := 0 }} else h.

Lemma release_runs m q h :
  ring_repr m q -> consumer_ok q h ->
  exists m',
    run (release h) m = Some (((spec_release q).1, release_handle h), m') /\
    ring_repr m' (spec_release q).2 /\ consumer_ok (spec_release q).2 (release_handle h).
Proof.
  intros Hm Hc. pose proof Hm as [Hv Hok Hsz Hst Hw Hr Hslots Hres Hheader].
  pose proof Hc as [Hh Hcache Hheld Hpos]. pose proof Hh as [Hhd Hsl Hco Hstr Hcap].
  unfold release, release_handle, spec_release. rewrite Hheld.
  destruct (q_held q) eqn:Hqh; cbn [negb]; [|eexists; by split].
  specialize (Hpos eq_refl). pose proof (queue_ok_dequeue q Hok Hqh) as Hok'.
  destruct Hok as [Hr0 Hw0 Hb Hevs Hne].
  specialize (Hne Hqh). pose proof (q_write_dequeue q Hne) as Hwd.
  rewrite Hhd, run_deref_some, Hpos.
  assert (q_read q + 1 <= q_write q)
    by (unfold q_write, q_length; destruct (q_events q); [done|simpl; lia]).
  rewrite (wrap_small 64) by uint.
  destruct (store_word m consumer_position 8 (q_read q + 1)) as [m'|] eqn:Hm'.
  2: { unfold store_word in Hm'. rewrite store_bytes_is_Some in Hm'; [done|].
       rewrite length_le_split. pose proof (segment_size_bounds _ Hv). unfold consumer_position. lia. }
  erewrite run_store by done.
  exists m'. split; [reflexivity|].
  cbn [snd]. split; [|destruct h; split; try done; cbn in *; lia].
  eapply (repr_header_store m m' consumer_position 8); try done; [by right|..]; unfold consumer_position in *.
  - rewrite (load_word_store_disjoint _ _ _ _ _ _ Hm')
      by (rewrite ?length_le_split; unfold preamble_state; lia). done.
  - rewrite (load_word_store_disjoint _ _ _ _ _ _ Hm')
      by (rewrite ?length_le_split; unfold producer_position; lia).
    by rewrite Hwd.
  - erewrite load_word_store_same by done. f_equal.
    change (Z.of_nat 8 * 8) with 64. cbn [q_read q_dequeue]. apply wrap_small. uint.
  - intros i e Hi. cbn in Hi |- *. rewrite lookup_tail in Hi.
    replace (q_read q + 1 + Z.of_nat i) with (q_read q + Z.of_nat (S i)) by lia.
    by apply Hslots.
Qed.

Lemma release_refines m q h :
  ring_repr m q -> consumer_ok q h ->
  exists h' m',
    run (release h) m = Some (((spec_release q).1, h'), m') /\
    ring_repr m' (spec_release q).2 /\ consumer_ok (spec_release q).2 h'.
Proof. intros Hm Hc. eexists. by apply release_runs. Qed.

Lemma close_refines m q h :
  ring_repr m q -> handle_ok (q_config q) h -> initializer_ h = true ->
  exists m', run (close_publication h) m = Some ((spec_close q).1, m') /\
    ring_repr m' (spec_close q).2.
Proof.
  intros Hm [Hhd _ _ _ _] Hini. pose proof Hm as [Hv Hok Hsz Hst Hw Hr Hslots Hres Hheader].
  unfold close_publication. rewrite Hini, Hhd. cbn [negb]. rewrite run_deref_some.
  destruct (store_word m preamble_state 4 (RingState_value RingState_Closed)) as [m'|] eqn:Hm'.
  2: { unfold store_word in Hm'. rewrite store_bytes_is_Some in Hm'; [done|].
       rewrite length_le_split. pose proof (segment_size_bounds _ Hv). unfold preamble_state. lia. }
  erewrite run_store by done. exists m'. split; [done|].
  eapply (repr_header_store m m' preamble_state 4); try done; [by left|..]; unfold preamble_state in *.
  - by apply spec_close_ok.
  - erewrite load_word_store_same by exact Hm'. reflexivity.
  - by rewrite (load_word_store_disjoint _ _ _ _ _ _ Hm')
      by (rewrite ?length_le_split; unfold producer_position; lia).
  - by rewrite (load_word_store_disjoint _ _ _ _ _ _ Hm')
      by (rewrite ?length_le_split; unfold RingLayout.consumer_position; lia).
Qed.

(** A handle that is not the creator's cannot close. *)
Lemma close_refused m h : initializer_ h = false -> run (close_publication h) m = Some (false, m).
Proof. intros Hini. unfold close_publication. by rewrite Hini. Qed.

(** The size of an event is checked before the room for it: also a full ring answers
    [PayloadTooLarge] to an event that fits no slot ([docs/memory-model.md] lists the test
    for a full ring first). *)
Lemma oversized_before_full m q h ev :
  ring_repr m q -> producer_ok q h -> event_ok ev -> q_state q = RingState_Ready ->
  slot_payload_capacity (q_config q) < payload_size ev ->
  exists h' m', run (try_publish h ev) m = Some ((PublishResult_PayloadTooLarge, h'), m') /\
    ring_repr m' q.
Proof.
  intros Hm Hp Hev Hst Hsize.
  destruct (try_publish_refines m q h ev Hm Hp Hev) as (h'&m'&Hrun&Hm'&_).
  unfold spec_publish in *. rewrite decide_False, (proj2 (Z.ltb_lt _ _)) in * by auto.
  by exists h', m'.
Qed.
