(* ===== verification/RingSafety.v ===== *)
(** * Memory safety against any contents of the segment

    The geometry of a handle is private to its process and was validated when the handle
    was made. This file drops every assumption about the bytes of the segment, and lets
    them change between any two accesses: the four operations stay inside the segment and
    never misalign an access. A held view always starts in its slot; for a segment that
    does not change during the call it also ends there ([try_acquire_view_in]). *)

From S2P Require Import Prelude Bytes Event Memory RingLayout Ring RingSpec RingGeometry.
From S2P Require Import RingRefinement.

Section Safety.
Context (c : RingConfig) (Hc : valid_config c).
Abbreviation size := (Z.to_nat (segment_size c)).

Lemma header_in_segment a w : (a + w <= 192)%nat -> (a + w <= size)%nat.
Proof using Hc. pose proof (segment_size_bounds c Hc). lia. Qed.

Lemma slot_in_segment pos d w :
  (d + w <= Z.to_nat (stride_of c))%nat -> (slot_offset c pos + d + w <= size)%nat.
Proof using Hc. pose proof (slot_offset_in c Hc pos). lia. Qed.

Lemma slot_metadata_in_segment pos d w :
  (d + w <= 32)%nat -> (slot_offset c pos + d + w <= size)%nat.
Proof using Hc. pose proof (stride_of_min c Hc). intros. apply slot_in_segment. lia. Qed.

Lemma slot_address_ok h pos :
  handle_ok c h -> slot_address h 192 pos = slot_offset c pos.
Proof using Hc. intros [_ _ Hco Hst _]. unfold slot_address. rewrite Hst, Hco. by apply slot_offset_code. Qed.

(** Header and slot accesses of the right shape are safe. *)
Ltac access :=
  first [ done
        | apply slot_aligned; auto
        | apply header_in_segment; cbv; lia
        | apply slot_metadata_in_segment; cbv; lia ].

Lemma publish_slot_within h ev w Q :
  handle_ok c h -> payload_size ev <= slot_payload_capacity c -> Q PublishResult_Ok ->
  within size (publish_slot h 0 w ev) Q.
Proof using Hc.
  intros Hh Hp HQ. pose proof Hh as [_ Hsl _ _ _].
  destruct (event_fits c ev Hc Hp) as [Hfit _].
  unfold publish_slot. rewrite Hsl. cbn [deref].
  change (Ret 192%nat ≫= ?f) with (f 192%nat). cbv beta zeta.
  rewrite slot_address_ok by done. apply within_bind. unfold fill_slot_header.
  do 3 (apply within_store; [access..|]). split_and!; [access..|]. cbn [within].
  apply within_bind. destruct (negb _) eqn:E; cbn [within write_bytes mret prog_ret].
  - split; [change (Z.to_nat ring_slot_metadata_bytes) with 32%nat; apply slot_in_segment; lia|].
    apply within_store; [access..|]. done.
  - apply within_store; [access..|]. done.
Qed.

(** A handle after an operation: same segment, same role. *)
Definition same_handle (h h' : SpscRing) : Prop :=
  handle_ok c h' /\ initializer_ h' = initializer_ h.

Lemma same_handle_refl h : handle_ok c h -> same_handle h h.
Proof using. by split. Qed.

Lemma try_publish_within h ev :
  handle_ok c h -> within size (try_publish h ev) (fun r => same_handle h r.2).
Proof using Hc.
  intros Hh. pose proof (same_handle_refl h Hh) as Hsame.
  unfold try_publish. pose proof Hh as [-> _ _ _ Hcap].
  apply within_load; [access..|]. intros state _. case_bool; [done|].
  case_bool; [done|]. to_prop. rewrite Hcap in *.
  apply within_load; [access..|]. intros w Hw. case_bool; [done|].
  assert (Htail : forall h', same_handle h h' ->
    within size (result ← publish_slot h' 0 w ev; mret (result, h'))
      (fun r => same_handle h r.2)).
  { intros h' Hs. apply within_bind. by apply publish_slot_within; [apply Hs| |]. }
  case_bool; [|by apply Htail].
  apply within_load; [access..|]. intros r Hr. cbv zeta.
  assert (same_handle h (h{{ cached_read_position_ := r }})) as Hs
    by (destruct h, Hh; by split).
  case_bool; [done|]. case_bool; [done|]. by apply Htail.
Qed.

(** What an acquired view satisfies for any loads: it starts in a slot. *)
Definition view_starts_in_slot (r : expected (EventView span) AcquireError) : Prop :=
  match r with
  | Value view =>
      (exists pos, span_offset (payload view) = (slot_offset c pos + 32)%nat) /\
      Z.of_nat (span_size (payload view)) <= u32_max
  | Unexpected _ => True
  end.

Lemma invalid_slot_within pos cap Q :
  (forall b, Q b) -> within size (invalid_slot (slot_offset c pos) cap) Q.
Proof using Hc.
  intros HQ. unfold invalid_slot, prog_or. apply within_bind.
  apply within_load; [access..|]. intros len _. cbn [within mret prog_ret].
  case_bool; [apply HQ|]. apply within_bind, within_load; [access..|].
  intros r0 _. cbn [within mret prog_ret]. case_bool; [apply HQ|].
  apply within_load; [access..|]. intros r1 _. apply HQ.
Qed.

Lemma acquire_slot_within h0 h pos :
  same_handle h0 h ->
  within size (acquire_slot h pos) (fun r => same_handle h0 r.2 /\ view_starts_in_slot r.1).
Proof using Hc.
  intros [Hh Hi]. pose proof Hh as [Hhd Hsl _ _ _].
  unfold acquire_slot. case_bool; [done|].
  rewrite Hsl. cbn [deref]. change (Ret 192%nat ≫= ?f) with (f 192%nat). cbv beta zeta.
  rewrite slot_address_ok by done. apply within_bind, invalid_slot_within.
  intros b. case_bool; [done|].
  apply within_load; [access..|]. intros st _.
  apply within_load; [access..|]. intros sq _.
  apply within_load; [access..|]. intros ts _.
  apply within_load; [access..|]. intros len Hlen.
  cbn [within mret prog_ret fst snd]. split.
  - destruct h, Hh. by split.
  - split; [by exists pos|]. cbn. change (Z.of_nat 4 * 8) with 32 in Hlen. uint.
Qed.

Lemma try_acquire_within h :
  handle_ok c h ->
  within size (try_acquire h) (fun r => same_handle h r.2 /\ view_starts_in_slot r.1).
Proof using Hc.
  intros Hh. pose proof (same_handle_refl h Hh) as Hsame.
  unfold try_acquire. pose proof Hh as [-> _ _ _ _].
  case_bool; [done|].
  apply within_load; [access..|]. intros r _.
  case_bool; [|by apply acquire_slot_within].
  apply within_load; [access..|]. intros st _.
  apply within_load; [access..|]. intros w _. cbv zeta.
  assert (same_handle h (h{{ cached_write_position_ := w }})) by (destruct h, Hh; by split).
  case_bool; [done|]. by apply acquire_slot_within.
Qed.

Lemma release_within h :
  handle_ok c h -> within size (release h) (fun r => same_handle h r.2).
Proof using Hc.
  intros Hh. pose proof (same_handle_refl h Hh) as Hsame.
  unfold release. case_bool; [done|]. pose proof Hh as [-> _ _ _ _].
  cbn [deref]. change (Ret 0%nat ≫= ?f) with (f 0%nat). cbv beta.
  apply within_store; [access..|]. destruct h, Hh. by split.
Qed.

Lemma close_within h : handle_ok c h -> within size (close_publication h) (fun _ => True).
Proof using Hc.
  intros [Hhd _ _ _ _]. unfold close_publication. case_bool; [done|].
  rewrite Hhd. cbn [deref]. change (Ret 0%nat ≫= ?f) with (f 0%nat). cbv beta.
  by apply within_store; [access..|].
Qed.

(** ** A segment nobody writes during the call *)

(** The view lies in the payload area of a slot. *)
Definition view_in_slot (r : expected (EventView span) AcquireError) : Prop :=
  match r with
  | Value view =>
      Z.of_nat (span_size (payload view)) <= slot_payload_capacity c /\
      exists pos, span_offset (payload view) = (slot_offset c pos + 32)%nat
  | Unexpected _ => True
  end.

Lemma view_in_slot_bytes m view :
  length m = size -> view_in_slot (Value view) ->
  is_Some (event_bytes m view).
Proof using Hc.
  intros Hm [Hle [pos Hoff]]. unfold event_bytes, span_bytes. rewrite fmap_is_Some.
  apply load_bytes_is_Some. rewrite Hoff, Hm, <- Nat.add_assoc, Nat.add_assoc.
  pose proof (stride_of_bounds c (valid_ok c Hc)).
  apply slot_in_segment. lia.
Qed.

Lemma load_word_in m a w :
  length m = size -> (a + w <= size)%nat ->
  exists v, load_word m a w = Some v /\ is_uint (Z.of_nat w * 8) v.
Proof using.
  intros Hm Hw. destruct (load_word m a w) as [v|] eqn:Hv.
  - exists v. split; [done|]. by eapply load_word_range.
  - unfold load_word in Hv. rewrite fmap_None in Hv.
    assert (is_Some (load_bytes m a w)) as [? ?] by (apply load_bytes_is_Some; lia). congruence.
Qed.

(** [invalid_slot] computes; if it passes, the length field is within the capacity. *)
Lemma run_invalid_slot_any m pos :
  length m = size ->
  exists bad, run (invalid_slot (slot_offset c pos) (slot_payload_capacity c)) m = Some (bad, m) /\
    (bad = false -> exists len,
       load_word m (slot_offset c pos + slot_payload_length) 4 = Some len /\
       0 <= len <= slot_payload_capacity c).
Proof using Hc.
  intros Hm. unfold invalid_slot.
  destruct (load_word_in m (slot_offset c pos + slot_payload_length) 4 Hm) as (len&Hlen&Hr); [access|].
  destruct (load_word_in m (slot_offset c pos + slot_reserved_0) 4 Hm) as (r0&Hr0&_); [access|].
  destruct (load_word_in m (slot_offset c pos + slot_reserved_1) 4 Hm) as (r1&Hr1&_); [access|].
  change (Z.of_nat 4 * 8) with 32 in Hr.
  destruct (slot_payload_capacity c <? len) eqn:E; to_prop.
  - exists true. split; [|done]. apply run_prog_or_true.
    erewrite run_load_test by (exact Hlen || access). by rewrite (proj2 (Z.ltb_lt _ _)).
  - erewrite run_prog_or_false.
    2: { erewrite run_load_test by (exact Hlen || access). by rewrite (proj2 (Z.ltb_ge _ _)). }
    destruct (r0 =? 0) eqn:E0.
    + erewrite run_prog_or_false
        by by (erewrite run_load_test by (exact Hr0 || access); rewrite E0).
      erewrite run_load_test by (exact Hr1 || access).
      eexists. split; [done|]. intros _. exists len. split; [done|]. uint.
    + erewrite run_prog_or_true
        by by (erewrite run_load_test by (exact Hr0 || access); rewrite E0).
      exists true. done.
Qed.

Lemma run_acquire_slot_any m h pos :
  length m = size -> handle_ok c h ->
  exists r h', run (acquire_slot h pos) m = Some ((r, h'), m) /\ view_in_slot r.
Proof using Hc.
  intros Hm Hh. pose proof Hh as [Hhd Hsl _ _ Hcap].
  unfold acquire_slot. case_bool; [by eexists _, _|].
  rewrite Hsl, run_deref_some, slot_address_ok, Hcap by done. cbv zeta.
  destruct (run_invalid_slot_any m pos Hm) as (bad&Hrun&Hbad).
  erewrite run_bind_ret by exact Hrun. cbv beta iota.
  destruct bad; [by eexists _, _|]. destruct (Hbad eq_refl) as (len&Hlen&Hle).
  destruct (load_word_in m (slot_offset c pos + slot_stream_id) 4 Hm) as (v1&H1&_); [access|].
  destruct (load_word_in m (slot_offset c pos + slot_event_sequence) 8 Hm) as (v2&H2&_); [access|].
  destruct (load_word_in m (slot_offset c pos + slot_source_timestamp_ns) 8 Hm) as (v3&H3&_); [access|].
  erewrite run_load by (exact H1 || access). erewrite run_load by (exact H2 || access).
  erewrite run_load by (exact H3 || access). erewrite run_load by (exact Hlen || access).
  eexists _, _. split; [reflexivity|]. cbn [view_in_slot payload span_size span_offset].
  split; [lia|]. by exists pos.
Qed.

Lemma run_try_acquire_any m h :
  length m = size -> handle_ok c h ->
  exists r h', run (try_acquire h) m = Some ((r, h'), m) /\ view_in_slot r.
Proof using Hc.
  intros Hm Hh. pose proof Hh as [Hhd _ _ _ _].
  unfold try_acquire. rewrite Hhd. case_bool; [by eexists _, _|].
  destruct (load_word_in m (0 + consumer_position) 8 Hm) as (r&Hr&_); [access|].
  erewrite run_load by (exact Hr || access).
  case_bool; [|by apply run_acquire_slot_any].
  destruct (load_word_in m (0 + preamble_state) 4 Hm) as (st&Hst&_); [access|].
  destruct (load_word_in m (0 + producer_position) 8 Hm) as (w&Hw&_); [access|].
  erewrite run_load by (exact Hst || access). erewrite run_load by (exact Hw || access).
  cbv zeta. case_bool; [by eexists _, _|].
  apply run_acquire_slot_any; [done|]. destruct h, Hh; by split.
Qed.
End Safety.

(** ** Properties *)

(** C11. Whatever the bytes of the segment are, and however another process changes them
    between any two accesses, publishing, acquiring, releasing and closing with a handle
    of validated geometry never access memory outside the segment, never misalign an
    access and never dereference [nullptr]; the handle keeps its geometry and role. *)
Theorem operations_memory_safe c h :
  valid_config c -> handle_ok c h ->
  let size := Z.to_nat (segment_size c) in
  (forall ev, within size (try_publish h ev) (fun r => same_handle c h r.2)) /\
  within size (try_acquire h) (fun r => same_handle c h r.2) /\
  within size (release h) (fun r => same_handle c h r.2) /\
  within size (close_publication h) (fun _ => True).
Proof.
  intros Hc Hh. split_and!.
  - intros ev. by apply try_publish_within.
  - eapply within_mono; [|by apply try_acquire_within]. by intros r [? _].
  - by apply release_within.
  - by apply close_within.
Qed.

(** C12. On a segment of any contents that does not change during the call, [try_acquire]
    returns, leaves the segment unchanged, and a view it hands out is readable: its
    payload lies inside the segment, in the payload area of one slot. *)
Theorem try_acquire_view_in c m h :
  valid_config c -> handle_ok c h -> length m = Z.to_nat (segment_size c) ->
  exists r h', run (try_acquire h) m = Some ((r, h'), m) /\
    forall view, r = Value view ->
      is_Some (event_bytes m view) /\
      Z.of_nat (span_size (payload view)) <= slot_payload_capacity c.
Proof.
  intros Hc Hh Hm. destruct (run_try_acquire_any c Hc m h Hm Hh) as (r&h'&Hrun&Hview).
  exists r, h'. split; [done|]. intros view ->.
  split; [by apply (view_in_slot_bytes c)|apply Hview].
Qed.

Definition demo_config : RingConfig := Config 2 32.
Definition demo_handle : SpscRing := Ring (Some 0%nat) (Some 192%nat) 2 64 32 0 0 0 false true.

Lemma demo_config_valid : valid_config demo_config.
Proof. split; [by split|by exists 1|done]. Qed.

Lemma demo_handle_ok : handle_ok demo_config demo_handle.
Proof. by split. Qed.

Lemma operations_memory_safe_witness :
  within 320 (try_acquire demo_handle) (fun r => same_handle demo_config demo_handle r.2).
Proof.
  exact (proj1 (proj2 (operations_memory_safe demo_config demo_handle
                         demo_config_valid demo_handle_ok))).
Defined.

(** The segment after a ring was created in it and an event published. *)
Definition demo_filled : list byte :=
  Eval vm_compute in
    match run (initialize (Memory 128 320) demo_config 7) (replicate 320 Byte.x00) with
    | Some (Value h, m) =>
        match run (try_publish h (Event 1 2 3 [Byte.x01; Byte.x02])) m with Some r => r.2 | None => [] end
    | _ => []
    end.

(** The acquisition succeeds there. *)
Lemma try_acquire_view_in_witness :
  exists view h', run (try_acquire demo_handle) demo_filled = Some ((Value view, h'), demo_filled) /\
    is_Some (event_bytes demo_filled view) /\ Z.of_nat (span_size (payload view)) <= 32.
Proof.
  destruct (try_acquire_view_in demo_config demo_filled demo_handle demo_config_valid demo_handle_ok eq_refl)
    as (r&h'&Hrun&Hview).
  assert (exists view, r = Value view) as [view ->].
  { vm_compute in Hrun. injection Hrun as <- _. by eexists. }
  exists view, h'. split; [exact Hrun|exact (Hview view eq_refl)].
Defined.

(** C13. [try_acquire] reads the payload length of the slot twice: once to validate it and
    once to build the view. If the segment changes in between, the view it returns can
    reach past the end of the segment. *)
Theorem acquired_view_can_escape :
  exists view h', returns (try_acquire demo_handle) (Value view, h') /\
    (Z.to_nat (segment_size demo_config) <
       span_offset (payload view) + span_size (payload view))%nat.
Proof.
  eexists _, _. split.
  - unfold try_acquire, acquire_slot, demo_handle. cbn [header_ acquired_].
    apply (returns_load _ _ _ _ 0); [by split|]. cbn.
    apply (returns_load _ _ _ _ 1); [by split|]. cbn.
    apply (returns_load _ _ _ _ 1); [by split|]. cbn.
    do 3 (apply (returns_load _ _ _ _ 0); [by split|]; cbn).
    do 3 (apply (returns_load _ _ _ _ 0); [by split|]; cbn).
    apply (returns_load _ _ _ _ 1000); [by split|]. cbn. apply returns_ret.
  - cbn [payload span_offset span_size]. vm_compute. lia.
Qed.

(** A moved-from handle is inert: the new handle is the old one, and every operation on
    what is left behind is refused without touching the segment. *)
Theorem moved_handle_inert h :
  let '(moved, other) := SpscRing_move h in
  moved = h /\
  (forall m ev, run (try_publish other ev) m = Some ((PublishResult_Closed, other), m)) /\
  (forall m, run (try_acquire other) m = Some ((Unexpected AcquireError_Closed, other), m)) /\
  (forall m, run (release other) m = Some ((false, other), m)) /\
  (forall m, run (close_publication other) m = Some (false, m)).
Proof. by destruct h. Qed.
