(* ===== verification/RingSystem.v ===== *)
(** * A ring with its two handles

    A segment shared by a producer handle and a consumer handle, and sequences of
    operations on it in any order. The concrete system refines the abstract queue
    operation by operation; FIFO delivery and the lifetime of acquired views follow. *)

From S2P Require Import Prelude Bytes Event Memory RingLayout Ring RingSpec RingGeometry.
From S2P Require Import RingRefinement RingSafety.

Inductive ring_op :=
  | OpPublish (ev : EventData)
  | OpAcquire
  | OpRelease
  | OpClose.

Inductive ring_result :=
  | ResPublish (r : PublishResult)
  | ResAcquire (r : expected EventData AcquireError)
  | ResRelease (r : bool)
  | ResClose (r : bool).

(** The segment, the producer's handle (the creator's) and the consumer's handle. *)
Record ring_sys := RingSys {
  sys_bytes : list byte;
  sys_producer : SpscRing;
  sys_consumer : SpscRing;
}.

(** An acquired view is read through the segment at once. *)
Definition read_view (m : list byte) (r : expected (EventView span) AcquireError) :
    option (expected EventData AcquireError) :=
  match r with
  | Value view => Value <$> event_bytes m view
  | Unexpected e => Some (Unexpected e)
  end.

Definition exec_op (op : ring_op) (s : ring_sys) : option (ring_result * ring_sys) :=
  let '(RingSys m hp hc) := s in
  match op with
  | OpPublish ev =>
      '(r, hp, m) ← run (try_publish hp ev) m; Some (ResPublish r, RingSys m hp hc)
  | OpAcquire =>
      '(r, hc, m) ← run (try_acquire hc) m;
      r ← read_view m r;
      Some (ResAcquire r, RingSys m hp hc)
  | OpRelease =>
      '(r, hc, m) ← run (release hc) m; Some (ResRelease r, RingSys m hp hc)
  | OpClose =>
      '(r, m) ← run (close_publication hp) m; Some (ResClose r, RingSys m hp hc)
  end.

Definition spec_op (op : ring_op) (q : queue) : ring_result * queue :=
  match op with
  | OpPublish ev => let '(r, q) := spec_publish q ev in (ResPublish r, q)
  | OpAcquire => let '(r, q) := spec_acquire q in (ResAcquire r, q)
  | OpRelease => let '(r, q) := spec_release q in (ResRelease r, q)
  | OpClose => let '(r, q) := spec_close q in (ResClose r, q)
  end.

Fixpoint exec_ops (ops : list ring_op) (s : ring_sys) : option (list ring_result * ring_sys) :=
  match ops with
  | [] => Some ([], s)
  | op :: ops =>
      '(r, s) ← exec_op op s; '(rs, s) ← exec_ops ops s; Some (r :: rs, s)
  end.

Fixpoint spec_ops (ops : list ring_op) (q : queue) : list ring_result * queue :=
  match ops with
  | [] => ([], q)
  | op :: ops =>
      let '(r, q) := spec_op op q in let '(rs, q) := spec_ops ops q in (r :: rs, q)
  end.

(** A ring stays in use. *)
Lemma spec_op_in_use op q : in_use q -> in_use (spec_op op q).2.
Proof.
  intros Hq. destruct op as [ev| | |]; cbn; [| | |by right].
  - unfold spec_publish. destruct (decide _); [done|]. by repeat (case_bool; [done|]).
  - unfold spec_acquire. destruct (q_held q); [done|]. by destruct (q_events q).
  - unfold spec_release. by destruct (q_held q).
Qed.

Lemma spec_ops_in_use ops q : in_use q -> in_use (spec_ops ops q).2.
Proof.
  revert q. induction ops as [|op ops IH]; intros q Hq; [done|]. cbn [spec_ops].
  pose proof (spec_op_in_use op q Hq) as H1. destruct (spec_op op q) as [r q1].
  specialize (IH q1 H1). by destruct (spec_ops ops q1).
Qed.

(** Events obey their C++ types. *)
Definition op_ok (op : ring_op) : Prop :=
  match op with OpPublish ev => event_ok ev | _ => True end.

Record sys_repr (s : ring_sys) (q : queue) : Prop := SysRepr {
  sys_segment : ring_repr (sys_bytes s) q;
  sys_producer_ok : producer_ok q (sys_producer s);
  sys_consumer_ok : consumer_ok q (sys_consumer s);
  sys_creator : initializer_ (sys_producer s) = true;
}.

(** ** What an operation of one side leaves to the other *)

Lemma consumer_ok_publish q ev h :
  consumer_ok q h -> consumer_ok (spec_publish q ev).2 h.
Proof.
  intros [Hh Hc Hheld Hp]. unfold spec_publish.
  case_decide; [by split|]. repeat case_bool; try by split.
  split; try done. cbn [snd]. rewrite q_write_enqueue. lia.
Qed.

Lemma producer_ok_acquire q h : producer_ok q h -> producer_ok (spec_acquire q).2 h.
Proof.
  intros [Hh Hc]. unfold spec_acquire. destruct (q_held q); [by split|].
  destruct (q_events q); by split.
Qed.

Lemma producer_ok_release q h : producer_ok q h -> producer_ok (spec_release q).2 h.
Proof.
  intros [Hh Hc]. unfold spec_release. destruct (q_held q); [|by split].
  split; [done|]. cbn. lia.
Qed.

(** ** Refinement *)

(** The producer's operations never change who created the ring. *)
Lemma publish_initializer c m h ev r h' m' :
  valid_config c -> handle_ok c h -> length m = Z.to_nat (segment_size c) ->
  run (try_publish h ev) m = Some ((r, h'), m') -> initializer_ h' = initializer_ h.
Proof.
  intros Hc Hh Hm Hrun.
  destruct (within_run _ _ _ m (try_publish_within c Hc h ev Hh) Hm) as ([[r1 h1] m1]&Hrun1&Hs).
  rewrite Hrun in Hrun1. injection Hrun1 as <- <- <-. apply Hs.
Qed.

Lemma repr_length m q : ring_repr m q -> length m = Z.to_nat (segment_size (q_config q)).
Proof. intros [_ _ Hsz _ _ _ _ _ _]. lia. Qed.

(** A view of the head reads back the head. *)
Lemma read_view_repr m q :
  ring_repr m q ->
  read_view m (expected_map (slot_view (q_config q) (q_read q)) (spec_acquire q).1) =
    Some (spec_acquire q).1.
Proof.
  intros Hm. unfold spec_acquire. destruct (q_held q); [done|].
  destruct (q_events q) as [|ev evs] eqn:Hq; [done|]. simpl.
  pose proof (repr_slots _ _ Hm 0%nat ev) as H. rewrite Hq, Z.add_0_r in H.
  by rewrite slot_view_bytes by by apply H.
Qed.

Lemma exec_op_refines op s q :
  sys_repr s q -> op_ok op ->
  exists s', exec_op op s = Some ((spec_op op q).1, s') /\ sys_repr s' (spec_op op q).2.
Proof.
  destruct s as [m hp hc]. intros [Hm Hp Hc Hi] Hop. cbn in Hm, Hp, Hc, Hi.
  destruct op as [ev| | |]; cbn [exec_op spec_op op_ok] in *.
  - destruct (try_publish_refines m q hp ev Hm Hp Hop) as (hp'&m'&Hrun&Hm'&Hp').
    rewrite Hrun. cbn [mbind option_bind]. eexists.
    pose proof (consumer_ok_publish q ev hc Hc) as Hc'.
    pose proof (publish_initializer _ _ _ _ _ _ _ (repr_valid _ _ Hm) (prod_handle _ _ Hp)
                  (repr_length _ _ Hm) Hrun) as Hi'.
    destruct (spec_publish q ev). split; [done|]. split; try done. by cbn; rewrite Hi'.
  - destruct (try_acquire_refines m q hc Hm Hc) as (hc'&Hrun&Hm'&Hc').
    rewrite Hrun. cbn [mbind option_bind]. rewrite read_view_repr by done.
    cbn [mbind option_bind]. eexists. pose proof (producer_ok_acquire q hp Hp).
    destruct (spec_acquire q). split; [done|]. by split.
  - destruct (release_refines m q hc Hm Hc) as (hc'&m'&Hrun&Hm'&Hc').
    rewrite Hrun. cbn [mbind option_bind]. eexists. pose proof (producer_ok_release q hp Hp).
    destruct (spec_release q). split; [done|]. by split.
  - destruct (close_refines m q hp Hm (prod_handle _ _ Hp) Hi) as (m'&Hrun&Hm').
    rewrite Hrun. cbn [mbind option_bind]. eexists. split; [done|].
    destruct Hp, Hc. by split.
Qed.

Lemma exec_ops_refines ops s q :
  sys_repr s q -> Forall op_ok ops ->
  exists s', exec_ops ops s = Some ((spec_ops ops q).1, s') /\ sys_repr s' (spec_ops ops q).2.
Proof.
  revert s q. induction ops as [|op ops IH]; intros s q Hs Hops; [by exists s|].
  apply Forall_cons in Hops as [Hop Hops].
  destruct (exec_op_refines op s q Hs Hop) as (s1&Hrun&Hs1). cbn [exec_ops spec_ops].
  rewrite Hrun. cbn [mbind option_bind]. destruct (spec_op op q) as [r q1].
  destruct (IH s1 q1 Hs1 Hops) as (s2&Hrun2&Hs2). cbn [fst snd] in *. rewrite Hrun2.
  cbn [mbind option_bind]. destruct (spec_ops ops q1). by exists s2.
Qed.

(** ** Histories of the queue *)

(** The events a run published successfully, and those whose acquisition succeeded. *)
Fixpoint published (ops : list ring_op) (rs : list ring_result) : list EventData :=
  match ops, rs with
  | OpPublish ev :: ops, ResPublish PublishResult_Ok :: rs => ev :: published ops rs
  | _ :: ops, _ :: rs => published ops rs
  | _, _ => []
  end.

Fixpoint acquired (rs : list ring_result) : list EventData :=
  match rs with
  | ResAcquire (Value ev) :: rs => ev :: acquired rs
  | _ :: rs => acquired rs
  | [] => []
  end.

(** Events published and not yet handed to the consumer. *)
Definition q_pending (q : queue) : list EventData :=
  if q_held q then tail (q_events q) else q_events q.

Lemma spec_publish_pending q ev :
  queue_ok q ->
  q_pending (spec_publish q ev).2 =
    q_pending q ++ if decide ((spec_publish q ev).1 = PublishResult_Ok) then [ev] else [].
Proof.
  intros Hok. unfold spec_publish.
  case_decide as Hs; cbn [fst snd].
  { rewrite decide_False by done. by rewrite app_nil_r. }
  repeat (case_bool; cbn [fst snd]; [rewrite decide_False by done; by rewrite app_nil_r|]).
  rewrite decide_True by done. unfold q_pending. cbn.
  destruct (q_held q) eqn:Hh; [|done].
  pose proof (queue_held _ Hok Hh). by destruct (q_events q).
Qed.

Lemma spec_acquire_pending q :
  q_pending q = acquired [ResAcquire (spec_acquire q).1] ++ q_pending (spec_acquire q).2.
Proof.
  unfold spec_acquire, q_pending. destruct (q_held q) eqn:Hh; cbn; [by rewrite Hh|].
  destruct (q_events q) eqn:Hq; cbn; [by rewrite Hh, Hq|]. by rewrite Hq.
Qed.

Lemma spec_release_pending q : q_pending (spec_release q).2 = q_pending q.
Proof. unfold spec_release, q_pending. by destruct (q_held q) eqn:Hh; cbn; rewrite ?Hh. Qed.

Lemma spec_op_ok op q : queue_ok q -> op_ok op -> queue_ok (spec_op op q).2.
Proof.
  intros Hok Hop. destruct op as [ev| | |]; cbn.
  - pose proof (spec_publish_ok q ev Hok Hop). by destruct (spec_publish q ev).
  - pose proof (spec_acquire_ok q Hok). by destruct (spec_acquire q).
  - pose proof (spec_release_ok q Hok). by destruct (spec_release q).
  - by apply spec_close_ok.
Qed.

(** Nothing is lost, invented, duplicated or reordered. *)
Lemma spec_ops_history ops q :
  queue_ok q -> Forall op_ok ops ->
  let '(rs, q') := spec_ops ops q in
  q_pending q ++ published ops rs = acquired rs ++ q_pending q'.
Proof.
  revert q. induction ops as [|op ops IH]; intros q Hok Hops; [cbn; by rewrite app_nil_r|].
  apply Forall_cons in Hops as [Hop Hops].
  pose proof (spec_op_ok op q Hok Hop) as Hok1. cbn [spec_ops].
  destruct (spec_op op q) as [r q1] eqn:Hspec. specialize (IH q1 Hok1 Hops).
  destruct (spec_ops ops q1) as [rs q2]. destruct op as [ev| | |]; cbn in Hspec.
  - pose proof (spec_publish_pending q ev Hok) as Hp.
    destruct (spec_publish q ev) as [pr q1'] eqn:Hpub. injection Hspec as <- <-. cbn in Hp |- *.
    case_decide as Hr.
    + subst pr. rewrite <- IH, Hp. cbn [published]. by rewrite <- app_assoc.
    + rewrite app_nil_r in Hp. rewrite <- IH, Hp. by destruct pr.
  - pose proof (spec_acquire_pending q) as Hp.
    destruct (spec_acquire q) as [ar q1'] eqn:Ha. injection Hspec as <- <-. cbn in Hp |- *.
    rewrite Hp, <- app_assoc, IH. by destruct ar.
  - pose proof (spec_release_pending q) as Hp.
    destruct (spec_release q) as [b q1'] eqn:Ha. injection Hspec as <- <-. cbn in Hp |- *.
    by rewrite <- Hp.
  - injection Hspec as <- <-. exact IH.
Qed.

(** ** Held views *)

Definition producer_op (op : ring_op) : bool :=
  match op with OpPublish _ | OpClose => true | _ => false end.

(** The producer's operations keep the events of the queue and what is held. *)
Lemma spec_producer_op op q :
  producer_op op = true ->
  q_config (spec_op op q).2 = q_config q /\ q_read (spec_op op q).2 = q_read q /\
  q_held (spec_op op q).2 = q_held q /\ prefix (q_events q) (q_events (spec_op op q).2).
Proof.
  destruct op as [ev| | |]; intros Hop; try done; cbn.
  unfold spec_publish. case_decide; [done|]. repeat (case_bool; [done|]).
  cbn. split_and!; try done. by eexists.
Qed.

Lemma spec_producer_ops ops q :
  forallb producer_op ops = true ->
  q_config (spec_ops ops q).2 = q_config q /\ q_read (spec_ops ops q).2 = q_read q /\
  q_held (spec_ops ops q).2 = q_held q /\ prefix (q_events q) (q_events (spec_ops ops q).2).
Proof.
  revert q. induction ops as [|op ops IH]; intros q Hops; [done|].
  simpl in Hops. apply andb_true_iff in Hops as [Hop Hops].
  destruct (spec_producer_op op q Hop) as (Hc&Hr&Hh&Hp). cbn [spec_ops].
  destruct (spec_op op q) as [r q1]. destruct (IH q1 Hops) as (Hc'&Hr'&Hh'&Hp').
  destruct (spec_ops ops q1). cbn [snd] in *. split_and!; try congruence. by etrans.
Qed.

(** A view of the oldest event reads the same bytes in any segment whose queue still
    starts with that event at the same position. *)
Lemma run_view_bytes m view ev :
  event_bytes m view = Some ev -> run (view_bytes view) m = Some (ev, m).
Proof.
  unfold event_bytes, span_bytes, view_bytes. intros (bs&Hb&->)%fmap_Some. cbn. by rewrite Hb.
Qed.

Lemma head_view_bytes m q ev evs :
  ring_repr m q -> q_events q = ev :: evs ->
  event_bytes m (slot_view (q_config q) (q_read q) ev) = Some ev.
Proof.
  intros Hm Hq. apply slot_view_bytes.
  pose proof (repr_slots _ _ Hm 0%nat ev) as H. rewrite Hq, Z.add_0_r in H. by apply H.
Qed.

(** ** Properties *)

(** C1. Refinement of the whole ring: any sequence of publish, acquire, release and close
    on a segment that represents a queue, by a producer and a consumer whose cached
    cursors may be arbitrarily stale, terminates without a fault, returns exactly the
    results of the abstract queue, and leaves a segment that represents its final
    state. *)
Theorem ring_refines_queue ops s q :
  sys_repr s q -> Forall op_ok ops ->
  exists s', exec_ops ops s = Some ((spec_ops ops q).1, s') /\ sys_repr s' (spec_ops ops q).2.
Proof. apply exec_ops_refines. Qed.

(** FIFO delivery: from an empty ring, the events acquired are exactly a prefix of the
    events published with [Ok], in order, without loss or duplication; the rest are still
    in the ring. *)
Theorem ring_fifo ops s q :
  sys_repr s q -> q_events q = [] -> Forall op_ok ops ->
  exists rs s' q', exec_ops ops s = Some (rs, s') /\ sys_repr s' q' /\
    published ops rs = acquired rs ++ q_pending q'.
Proof.
  intros Hs Hq Hops. destruct (exec_ops_refines ops s q Hs Hops) as (s'&Hrun&Hs').
  pose proof (spec_ops_history ops q (repr_ok _ _ (sys_segment _ _ Hs)) Hops) as Hh.
  destruct (spec_ops ops q) as [rs q']. exists rs, s', q'. split_and!; [done..|].
  rewrite <- Hh. unfold q_pending. rewrite Hq. by destruct (q_held q).
Qed.

(** C10. Lifetime of an acquired view: between [try_acquire] and [release] the view reads
    the acquired event, whatever and however often the producer publishes, also when the
    producer laps the ring or closes it. *)
Theorem acquired_view_stable s q view hc m' ops :
  sys_repr s q -> run (try_acquire (sys_consumer s)) (sys_bytes s) = Some ((Value view, hc), m') ->
  Forall op_ok ops -> forallb producer_op ops = true ->
  exists ev rs s', event_bytes m' view = Some ev /\
    exec_ops ops (RingSys m' (sys_producer s) hc) = Some (rs, s') /\
    event_bytes (sys_bytes s') view = Some ev.
Proof.
  intros [Hm Hp Hc Hi] Hrun Hops Hprod.
  destruct (try_acquire_refines _ _ _ Hm Hc) as (hc'&Hrun'&Hm'&Hc').
  rewrite Hrun in Hrun'. injection Hrun' as Hv -> ->. pose proof (producer_ok_acquire _ _ Hp) as Hp'.
  unfold spec_acquire in *. destruct (q_held q) eqn:Hh; [done|].
  destruct (q_events q) as [|ev evs] eqn:Hq; [done|]. injection Hv as ->. cbn [fst snd] in *.
  exists ev. pose proof (head_view_bytes _ _ _ _ Hm Hq) as Hb.
  destruct (exec_ops_refines ops (RingSys (sys_bytes s) (sys_producer s) hc') (q_hold q))
    as (s'&Hexec&Hs'); [by split|done|].
  destruct (spec_producer_ops ops (q_hold q) Hprod) as (Hcf&Hrd&_&[evs' Hpre]).
  eexists _, s'. split_and!; [exact Hb|exact Hexec|].
  rewrite <- Hb in *. pose proof (head_view_bytes _ _ ev (evs ++ evs') (sys_segment _ _ Hs')) as Hb'.
  cbn [q_hold q_config q_read q_events] in *. rewrite Hcf, Hrd in Hb'. rewrite Hb'.
  - done.
  - by rewrite Hpre, Hq.
Qed.
