(* ===== verification/RingInit.v ===== *)
(** * Creating and attaching

    The header as one image: the fields of [RingPreamble] and of the two cursors, one
    after the other. [initialize] writes the image of an empty ready ring and zeroes the
    slot headers; [attach] accepts exactly the images it validates. Together with
    [RingSystem]: a freshly initialized segment, with the creator's and an attached
    handle, is a [ring_sys] that represents the empty queue. *)

From S2P Require Import Prelude Bytes Event Memory RingLayout Ring RingSpec RingGeometry.
From S2P Require Import RingRefinement RingSafety RingSystem.

(** ** Symbolic execution over a header given by its fields *)

Definition runs {A} (p : prog A) (m : list byte) (Q : A -> list byte -> Prop) : Prop :=
  exists a m', run p m = Some (a, m') /\ Q a m'.

Lemma runs_bind {A B} (p : prog A) (f : A -> prog B) m Q :
  runs p m (fun a m' => runs (f a) m' Q) -> runs (p ≫= f) m Q.
Proof.
  intros (a&m'&Hp&b&m''&Hf&HQ). exists b, m''. split; [|done]. by rewrite run_bind, Hp.
Qed.

Lemma runs_write {A} a bs (f : unit -> prog A) m m' Q :
  store_bytes m a bs = Some m' -> runs (f tt) m' Q -> runs (write_bytes a bs ≫= f) m Q.
Proof. intros Hs (r&m''&Hrun&?). exists r, m''. split; [|done]. by erewrite run_write. Qed.

Lemma runs_mono {A} (p : prog A) m (Q Q' : A -> list byte -> Prop) :
  (forall a m', Q a m' -> Q' a m') -> runs p m Q -> runs p m Q'.
Proof. intros HQ (a&m'&Hp&H). exists a, m'. auto. Qed.

(** Overwriting one field of a layout. *)
Lemma loads_at_store m m' o fs i f f' :
  loads_at m o fs -> fs !! i = Some f -> length f' = length f ->
  store_bytes m (o + length (concat (take i fs))) f' = Some m' ->
  loads_at m' o (<[i := f']> fs).
Proof.
  revert o i. induction fs as [|g fs IH]; intros o i Hl Hi Hlen Hs; [done|].
  destruct Hl as [Hg Hfs]. destruct i as [|i]; simpl in *.
  - injection Hi as ->. rewrite Nat.add_0_r in Hs. split; [by eapply load_store_same|].
    rewrite Hlen. eapply loads_at_frame; [by eapply store_same_outside| |done]. lia.
  - rewrite length_app, Nat.add_assoc in Hs. split; [|by eapply IH].
    erewrite load_store_disjoint by done || lia. done.
Qed.

Section Layout.
Context {A : Type} (size : nat).

(** The segment has [size] bytes and starts with the fields [fs]. *)
Definition starts_with (fs : list (list byte)) (m : list byte) : Prop :=
  length m = size /\ loads_at m 0 fs.

Lemma runs_write_field i fs f f' off (k : unit -> prog A) m Q :
  starts_with fs m -> fs !! i = Some f -> length f' = length f ->
  off = length (concat (take i fs)) -> (off + length f' <= size)%nat ->
  (forall m', same_outside m m' off (length f') -> starts_with (<[i := f']> fs) m' ->
     runs (k tt) m' Q) ->
  runs (write_bytes off f' ≫= k) m Q.
Proof.
  intros [Hm Hl] Hi Hlen Hoff Hsize Hk.
  pose proof (store_bytes_is_Some m off f' ltac:(lia)) as Hs.
  destruct (Hk (list_inserts off f' m)) as (a&m'&Hrun&HQ).
  - by apply store_same_outside.
  - split; [by rewrite length_inserts|]. eapply loads_at_store; [done..|]. simpl. by rewrite <- Hoff.
  - exists a, m'. split; [|done]. by erewrite run_write.
Qed.

Lemma runs_store_field i fs f w o off v (k : unit -> prog A) m Q :
  starts_with fs m -> fs !! i = Some f -> w = length f ->
  off = length (concat (take i fs)) -> (off + w <= size)%nat -> aligned w off = true ->
  (forall m', same_outside m m' off w -> starts_with (<[i := le_split w v]> fs) m' ->
     runs (k tt) m' Q) ->
  runs (store o w off v ≫= k) m Q.
Proof.
  intros Hm Hi Hw Hoff Hsize Ha Hk.
  destruct (runs_write_field i fs f (le_split w v) off k m Q) as (a&m'&Hrun&HQ);
    rewrite ?length_le_split; try done.
  exists a, m'. split; [|done]. rewrite run_bind in Hrun |- *. cbn in Hrun |- *.
  rewrite Ha. unfold store_word. done.
Qed.

Lemma runs_load_field i fs w o off v (k : Z -> prog A) m Q :
  starts_with fs m -> fs !! i = Some (le_split w v) ->
  off = length (concat (take i fs)) -> aligned w off = true ->
  (runs (k (wrap (Z.of_nat w * 8) v)) m Q) ->
  runs (load o w off ≫= k) m Q.
Proof.
  intros [Hm Hl] Hi Hoff Ha (a&m'&Hrun&HQ). exists a, m'. split; [|done].
  erewrite run_load; [exact Hrun|done|].
  assert (load_bytes m off w = Some (le_split w v)) as Hb.
  { rewrite Hoff. clear - Hl Hi. revert Hl Hi. change (length (concat (take i fs))) with
      (0 + length (concat (take i fs)))%nat. generalize 0%nat as o. revert i.
    induction fs as [|f fs IH]; intros i o Hl Hi; [done|].
    destruct Hl as [Hf Hfs]. destruct i as [|i]; simpl in *.
    - injection Hi as ->. rewrite Nat.add_0_r. by rewrite length_le_split in Hf.
    - rewrite length_app, Nat.add_assoc. by apply IH. }
  unfold load_word. rewrite Hb. simpl. by rewrite le_combine_split.
Qed.
End Layout.

(** ** The image of a header *)

(** [c] the configuration, [id] the instance, [st] the state word, [w] and [r] the
    cursors. *)
Definition header_fields (c : RingConfig) (id st w r : Z) : list (list byte) :=
  [ ring_magic; le_split 2 ring_layout_version; le_split 2 ring_header_bytes;
    le_split 8 (segment_size c); le_split 4 (slot_count c); le_split 4 (stride_of c);
    le_split 4 (slot_payload_capacity c); le_split 4 0; le_split 8 id; le_split 4 st;
    zeros 20; le_split 8 w; zeros 56; le_split 8 r; zeros 56 ].

Lemma stride_quotient c :
  valid_config c -> u32 (u64 (segment_size c - ring_header_bytes) / slot_count c) = stride_of c /\
    u64 (segment_size c - ring_header_bytes) / slot_count c = stride_of c.
Proof.
  intros Hc. pose proof (segment_size_bounds c Hc) as [_ Hb].
  pose proof (slot_count_pos c Hc). pose proof (stride_of_min c Hc).
  pose proof (valid_stride c Hc). unfold segment_size, ring_header_bytes.
  rewrite (wrap_small 64) by uint.
  replace (192 + stride_of c * slot_count c - 192) with (stride_of c * slot_count c) by lia.
  rewrite Z.div_mul by lia. split; [|done]. apply wrap_small. uint.
Qed.

(** The fields of a header of zeros. *)
Definition zero_fields : list (list byte) :=
  map zeros [4; 2; 2; 8; 4; 4; 4; 4; 8; 4; 20; 8; 56; 8; 56]%nat.

(** An access to the header is in the segment. *)
Ltac in_header := etransitivity; [|eassumption]; vm_compute; lia.

(** Execute one write of a header field; [i] is the field's index. *)
Ltac write_field i m Hm :=
  first [eapply (runs_write_field _ i); [exact Hm|reflexivity..|in_header|]
        |eapply (runs_store_field _ i); [exact Hm|reflexivity..|in_header|done|]];
  let n := fresh "m" in let Hn := fresh "Hm" in
  intros n _ Hn; clear m Hm; rename n into m; rename Hn into Hm; cbn [zero_fields header_fields map list_insert insert] in Hm.

(** The same for the last write of a sequence. *)
Ltac last_store :=
  match goal with
  | |- runs (store ?o ?w ?a ?v) ?m ?Q => change (runs (store o w a v ≫= mret) m Q)
  end.

Lemma runs_ret {A} (a : A) m (Q : A -> list byte -> Prop) : Q a m -> runs (mret a) m Q.
Proof. by exists a, m. Qed.

(** [fill_preamble] on a zeroed header writes the image, in the initializing state. *)
Lemma runs_fill_preamble c id m (Q : unit -> list byte -> Prop) :
  valid_config c -> starts_with (Z.to_nat (segment_size c)) zero_fields m ->
  (forall m', starts_with (Z.to_nat (segment_size c))
                (header_fields c id (RingState_value RingState_Initializing) 0 0) m' -> Q tt m') ->
  runs (fill_preamble 0 (segment_size c) c id) m Q.
Proof.
  intros Hc Hm Hk. pose proof (segment_size_bounds c Hc).
  unfold fill_preamble. rewrite (proj1 (stride_quotient c Hc)).
  assert (192 <= Z.to_nat (segment_size c))%nat by lia.
  set (size := Z.to_nat (segment_size c)) in *.
  write_field 0%nat m Hm. write_field 1%nat m Hm. write_field 2%nat m Hm.
  write_field 3%nat m Hm. write_field 4%nat m Hm. write_field 5%nat m Hm.
  write_field 6%nat m Hm. write_field 7%nat m Hm. write_field 8%nat m Hm.
  write_field 10%nat m Hm. last_store. write_field 9%nat m Hm.
  apply runs_ret, Hk. exact Hm.
Qed.

Definition slots_zero (c : RingConfig) (n : Z) (m : list byte) : Prop :=
  forall j, 0 <= j < n -> load_bytes m (slot_offset c j) 32 = Some (zeros 32).

Lemma slot_index_small c j : 0 <= j < slot_count c -> slot_index c j = j.
Proof. intros. by apply Z.mod_small. Qed.

Lemma starts_with_frame size m m' fs a n :
  same_outside m m' a n -> (length (concat fs) <= a)%nat ->
  starts_with size fs m -> starts_with size fs m'.
Proof.
  intros Hs Ha [Hm Hl]. split; [by rewrite (proj1 Hs)|].
  eapply loads_at_frame; [done|left; simpl; lia|done].
Qed.

Lemma length_header_fields c id st w r : length (concat (header_fields c id st w r)) = 192%nat.
Proof. reflexivity. Qed.

Lemma runs_construct_slots c id st w r :
  valid_config c -> forall remaining index m (Q : unit -> list byte -> Prop),
  0 <= index -> index + Z.of_nat remaining = slot_count c ->
  starts_with (Z.to_nat (segment_size c)) (header_fields c id st w r) m ->
  slots_zero c index m ->
  (forall m', starts_with (Z.to_nat (segment_size c)) (header_fields c id st w r) m' ->
     slots_zero c (slot_count c) m' -> Q tt m') ->
  runs (construct_slots 0 192 index remaining) m Q.
Proof.
  intros Hc. induction remaining as [|remaining IH]; intros index m Q Hi Hcount Hm Hz HQ.
  { apply runs_ret, HQ; [done|]. by replace (slot_count c) with index by lia. }
  cbn [construct_slots].
  pose proof (slot_count_pos c Hc). pose proof (stride_of_bounds c (valid_ok c Hc)).
  pose proof (valid_stride c Hc). pose proof (stride_of_min c Hc).
  destruct (valid_ok c Hc) as [? _].
  eapply (runs_load_field _ 5); [exact Hm|reflexivity..|done|].
  change (Z.of_nat 4 * 8) with 32. rewrite (wrap_small 32) by uint.
  pose proof (slot_offset_in c Hc index) as [Hlo Hin].
  assert (Haddr : (192 + Z.to_nat (u64 (index * stride_of c)) = slot_offset c index)%nat).
  { unfold slot_offset. rewrite slot_index_small by lia. rewrite wrap_small; [f_equal; lia|].
    unfold is_uint. split; [nia|]. apply Z.lt_le_trans with (2 ^ 32 * 2 ^ 32); [nia|done]. }
  rewrite Haddr. change (replicate (Z.to_nat ring_slot_metadata_bytes) Byte.x00) with (zeros 32).
  pose proof (store_bytes_is_Some m (slot_offset c index) (zeros 32)) as Hs.
  rewrite length_zeros in Hs. specialize (Hs ltac:(destruct Hm; lia)).
  apply store_same_outside in Hs as HS. rewrite length_zeros in HS.
  eapply runs_write; [exact Hs|]. apply IH; [lia|lia| | |done].
  - eapply starts_with_frame; [exact HS| |done]. rewrite length_header_fields. lia.
  - intros j Hj. destruct (decide (j = index)) as [->|Hne].
    + apply load_store_same in Hs. by rewrite length_zeros in Hs.
    + rewrite (proj2 HS); [apply Hz; lia|].
      destruct (slot_offset_disjoint c Hc j index); [|lia..].
      rewrite !slot_index_small by lia. done.
Qed.

(** ** [initialize] *)

Definition empty_queue (c : RingConfig) : queue := Queue c RingState_Ready 0 [] false.

Lemma empty_queue_ok c : valid_config c -> queue_ok (empty_queue c).
Proof.
  intros Hc. pose proof (slot_count_pos c Hc). split; unfold q_write, q_length; cbn; done || lia.
Qed.

(** The image of a ready header with both cursors at zero, over zeroed slot headers,
    represents the empty queue. *)
Lemma image_repr c id m :
  valid_config c -> is_uint 64 id -> id <> 0 ->
  starts_with (Z.to_nat (segment_size c)) (header_fields c id (RingState_value RingState_Ready) 0 0) m ->
  slots_zero c (slot_count c) m -> ring_repr m (empty_queue c).
Proof.
  intros Hc Hid Hid0 [Hm Hl] Hz. unfold header_fields in Hl. cbn [loads_at] in Hl.
  rewrite !length_le_split, !length_zeros in Hl. simpl length in Hl. simpl Nat.add in Hl.
  destruct Hl as (H0&H1&H2&H3&H4&H5&H6&H7&H8&Hst&H10&Hw&H12&Hr&H14&_).
  pose proof (segment_size_bounds c Hc).
  split; [done|by apply empty_queue_ok|cbn; lia| | |  |done| |].
  - unfold load_word, preamble_state. by rewrite Hst.
  - unfold load_word, producer_position. by rewrite Hw.
  - unfold load_word, consumer_position. by rewrite Hr.
  - intros pos. pose proof (slot_index_range c Hc pos) as Hp.
    assert (slot_offset c pos = slot_offset c (slot_index c pos)) as Ho.
    { unfold slot_offset. by rewrite (slot_index_small c (slot_index c pos)). }
    specialize (Hz _ Hp). rewrite <- Ho in Hz.
    split; unfold load_word; erewrite load_bytes_sub by (exact Hz || lia); done.
  - exists id. split_and!; done.
Qed.

Definition construct_handle (c : RingConfig) (initializer : bool) : SpscRing :=
  Ring (Some 0%nat) (Some 192%nat) (slot_count c) (stride_of c) (slot_payload_capacity c)
       0 0 0 false initializer.

Lemma construct_handle_ok c b : handle_ok c (construct_handle c b).
Proof. by split. Qed.

Lemma config_uint32 c :
  valid_config c -> is_uint 32 (slot_count c) /\ is_uint 32 (stride_of c) /\
    is_uint 32 (slot_payload_capacity c).
Proof.
  intros Hc. destruct (valid_ok c Hc). pose proof (stride_of_min c Hc).
  pose proof (valid_stride c Hc). split_and!; [done| |done]. uint.
Qed.

Lemma runs_construct c b id st w r m (Q : SpscRing -> list byte -> Prop) :
  valid_config c -> starts_with (Z.to_nat (segment_size c)) (header_fields c id st w r) m ->
  Q (construct_handle c b) m -> runs (SpscRing_construct 0 192 b) m Q.
Proof.
  intros Hc Hm HQ. destruct (config_uint32 c Hc) as (?&?&?). unfold SpscRing_construct.
  eapply (runs_load_field _ 4); [exact Hm|reflexivity..|done|].
  eapply (runs_load_field _ 5); [exact Hm|reflexivity..|done|].
  eapply (runs_load_field _ 6); [exact Hm|reflexivity..|done|].
  change (Z.of_nat 4 * 8) with 32. rewrite !(wrap_small 32) by done. by apply runs_ret.
Qed.

(** What [initialize] checks, in its order. *)
Definition initialize_checks (memory : memory_span) (c : RingConfig) (id : Z) :
    list (bool * RingError) :=
  [ (negb (id =? 0), RingError_InvalidConfig);
    (is_power_of_two (slot_count c), RingError_InvalidConfig);
    (stride_of c <=? u32_max, RingError_SizeOverflow);
    (negb (invalid_memory memory || negb (mem_size memory =? segment_size c)),
       RingError_InvalidMemory) ].

Lemma initialize_checks_valid memory c id :
  config_ok c -> first_failure (initialize_checks memory c id) = None ->
  valid_config c /\ id <> 0 /\ invalid_memory memory = false /\ mem_size memory = segment_size c.
Proof.
  intros Hok Hchecks. apply first_failure_None in Hchecks. unfold initialize_checks in Hchecks.
  repeat (apply Forall_cons in Hchecks as [? Hchecks]; cbn [fst] in * ); to_prop.
  split; [|done]. split; [done|by apply is_power_of_two_spec; [apply Hok|]|done].
Qed.

Lemma initialize_runs memory c id m :
  config_ok c -> is_uint 64 id -> Z.of_nat (length m) = mem_size memory ->
  first_failure (initialize_checks memory c id) = None ->
  exists m', run (initialize memory c id) m = Some (Value (construct_handle c true), m') /\
    starts_with (Z.to_nat (segment_size c))
      (header_fields c id (RingState_value RingState_Ready) 0 0) m' /\
    slots_zero c (slot_count c) m'.
Proof.
  intros Hok Hid Hlen Hchecks. destruct (initialize_checks_valid memory c id Hok Hchecks) as (Hc&Hid0&Hmem&Hsize).
  unfold initialize. rewrite required_bytes_spec, (proj2 (Z.eqb_neq _ _)) by done.
  rewrite (proj2 (is_power_of_two_spec (slot_count c) ltac:(apply Hok)) (valid_count _ Hc)). cbn [negb].
  rewrite (proj2 (Z.ltb_ge _ _)) by apply Hc. rewrite Hmem.
  rewrite (proj2 (Z.eqb_eq _ _)) by done. cbn [orb negb]. cbv zeta.
  pose proof (segment_size_bounds c Hc). pose proof (slot_count_pos c Hc).
  assert (192 <= Z.to_nat (segment_size c))%nat by lia.
  change (0 + Z.to_nat ring_header_bytes)%nat with 192%nat.
  change (replicate (Z.to_nat ring_header_bytes) Byte.x00) with (zeros 192).
  cut (runs (write_bytes 0 (zeros 192);;
       fill_preamble 0 (segment_size c) c id;;
       store memory_order_relaxed 8 (0 + producer_position) 0;;
       store memory_order_relaxed 8 (0 + consumer_position) 0;;
       construct_slots 0 192 0 (Z.to_nat (slot_count c));;
       store memory_order_release 4 (0 + preamble_state) (RingState_value RingState_Ready);;
       ring ← SpscRing_construct 0 192 true; mret (Value ring : expected SpscRing RingError)) m
    (fun r m' => r = Value (construct_handle c true) /\
       starts_with (Z.to_nat (segment_size c))
         (header_fields c id (RingState_value RingState_Ready) 0 0) m' /\
       slots_zero c (slot_count c) m')).
  { intros (r&m'&Hrun&->&?). by exists m'. }
  pose proof (store_bytes_is_Some m 0 (zeros 192)) as Hs. rewrite length_zeros in Hs.
  specialize (Hs ltac:(lia)).
  assert (starts_with (Z.to_nat (segment_size c)) zero_fields (list_inserts 0 (zeros 192) m)) as Hm0.
  { split; [rewrite length_inserts; lia|]. apply loads_at_concat; [lia|].
    exact (load_store_same _ _ _ _ Hs). }
  revert Hm0. generalize (list_inserts 0 (zeros 192) m) Hs. intros m0 Hs0 Hm0.
  eapply runs_write; [exact Hs0|].
  apply runs_bind, runs_fill_preamble; [done|exact Hm0|]. clear Hs0 Hm0 m0. intros m0 Hm0.
  write_field 11%nat m0 Hm0. write_field 13%nat m0 Hm0.
  apply runs_bind, (runs_construct_slots c id (RingState_value RingState_Initializing) 0 0 Hc);
    [lia|lia|exact Hm0|by intros j ?; lia|].
  clear Hm0 m0. intros m0 Hm0 Hz.
  eapply (runs_store_field _ 9); [exact Hm0|reflexivity..|in_header|done|].
  intros m1 HS Hm1. apply runs_bind.
  eapply (runs_construct c true); [done|exact Hm1|]. apply runs_ret. split_and!; [done..|].
  intros j Hj. pose proof (slot_offset_in c Hc j). rewrite (proj2 HS); [by apply Hz|].
  unfold preamble_state. lia.
Qed.

Lemma initialize_fails memory c id m e :
  config_ok c -> first_failure (initialize_checks memory c id) = Some e ->
  run (initialize memory c id) m = Some (Unexpected e, m).
Proof.
  intros Hok. unfold initialize_checks, initialize. rewrite required_bytes_spec by done.
  rewrite (Z.leb_antisym u32_max). cbn [first_failure].
  destruct (id =? 0); cbn [negb]; [by intros [= <-]|].
  destruct (is_power_of_two (slot_count c)); cbn [negb]; [|by intros [= <-]].
  destruct (u32_max <? stride_of c); cbn [negb]; [by intros [= <-]|].
  destruct (invalid_memory memory || _); cbn [negb]; [by intros [= <-]|done].
Qed.

(** ** [attach] *)

(** The configuration a header states. *)
Definition header_config (m : list byte) : RingConfig :=
  Config (field m preamble_slot_count 4) (field m preamble_slot_payload_capacity 4).

Definition zero_range (m : list byte) (a : addr) (n : nat) : bool :=
  forallb is_zero (take n (drop a m)).

(** What [attach] checks, in its order. *)
Definition attach_checks (memory : memory_span) (m : list byte) : list (bool * RingError) :=
  let state := field m preamble_state 4 in
  let c := header_config m in
  [ (negb (invalid_memory memory), RingError_InvalidMemory);
    (negb ((state =? 0) || (state =? 1)), RingError_NotReady);
    (state <=? 3, RingError_InvalidLayout);
    (bool_decide (take 4 m = ring_magic), RingError_InvalidLayout);
    (field m preamble_layout_version 2 =? 1, RingError_InvalidLayout);
    (field m preamble_header_bytes 2 =? 192, RingError_InvalidLayout);
    (negb (field m preamble_instance_id 8 =? 0), RingError_InvalidLayout);
    (field m preamble_reserved 4 =? 0, RingError_InvalidLayout);
    (zero_range m preamble_reserved_bytes 20, RingError_InvalidLayout);
    (zero_range m producer_reserved_bytes 56, RingError_InvalidLayout);
    (zero_range m consumer_reserved_bytes 56, RingError_InvalidLayout);
    (is_power_of_two (slot_count c), RingError_InvalidLayout);
    (stride_of c <=? u32_max, RingError_InvalidLayout);
    (field m preamble_slot_stride 4 =? stride_of c, RingError_InvalidLayout);
    (field m preamble_segment_bytes 8 =? segment_size c, RingError_InvalidLayout);
    (mem_size memory =? segment_size c, RingError_InvalidMemory) ].

Definition attach_reference (memory : memory_span) (m : list byte) : expected SpscRing RingError :=
  match first_failure (attach_checks memory m) with
  | Some e => Unexpected e
  | None => Value (construct_handle (header_config m) false)
  end.

Lemma header_config_ok m : config_ok (header_config m).
Proof. split; apply (field_range m _ 4). Qed.

(** One load of a header word. *)
Lemma run_load_field {A} o w a (k : Z -> prog A) m :
  aligned w a = true -> (a + w <= length m)%nat ->
  run (load o w a ≫= k) m = run (k (field m a w)) m.
Proof. intros. erewrite run_load; [done|done|by apply load_word_field]. Qed.

Lemma run_or (p q : prog bool) (b1 b2 : bool) m :
  run p m = Some (b1, m) -> (b1 = false -> run q m = Some (b2, m)) ->
  run (prog_or p q) m = Some (b1 || b2, m).
Proof.
  intros Hp Hq. destruct b1; [by apply run_prog_or_true|].
  rewrite (run_prog_or_false p q m m) by done. by apply Hq.
Qed.

Lemma run_load_check o w a (f : Z -> bool) m :
  aligned w a = true -> (a + w <= length m)%nat ->
  run (v ← load o w a; mret (f v)) m = Some (f (field m a w), m).
Proof. intros. by rewrite run_load_field. Qed.

Lemma zero_range_cons m a n :
  (a < length m)%nat -> zero_range m a (S n) = zero_range m a 1 && zero_range m (S a) n.
Proof.
  intros [b Hb]%lookup_lt_is_Some_2. unfold zero_range. rewrite (drop_S _ _ _ Hb). cbn. by rewrite andb_true_r.
Qed.

Lemma run_all_zero m a n :
  (a + n <= length m)%nat -> run (all_zero a n) m = Some (zero_range m a n, m).
Proof.
  revert a. induction n as [|n IH]; intros a Hin; [done|]. cbn [all_zero].
  assert (load_bytes m a 1 = Some (take 1 (drop a m))) as Hload
    by (unfold load_bytes; by rewrite decide_True by lia).
  rewrite (run_read _ _ _ _ _ Hload), zero_range_cons by lia. unfold zero_range at 1.
  destruct (forallb is_zero (take 1 (drop a m))); cbn [andb]; [apply IH; lia|done].
Qed.

Lemma run_not_all_zero m a n :
  (a + n <= length m)%nat -> run (negb <$> all_zero a n) m = Some (negb (zero_range m a n), m).
Proof.
  intros Hin. change (negb <$> all_zero a n) with (b ← all_zero a n; mret (negb b)).
  by rewrite run_bind, run_all_zero.
Qed.

Lemma run_invalid_layout m :
  (192 <= length m)%nat ->
  run (invalid_layout 0) m = Some
    (negb (bool_decide (take 4 m = ring_magic)) ||
     (negb (field m preamble_layout_version 2 =? 1) ||
      (negb (field m preamble_header_bytes 2 =? 192) ||
       ((field m preamble_instance_id 8 =? 0) || negb (field m preamble_reserved 4 =? 0)))), m).
Proof.
  intros Hm. unfold invalid_layout.
  repeat (apply run_or; [|intros _]);
    try (apply run_load_check; [done|etransitivity; [|exact Hm]; vm_compute; lia]).
  erewrite run_read; [done|]. unfold load_bytes. by rewrite decide_True by (simpl; lia).
Qed.

Lemma validate_state_spec st :
  is_uint 32 st ->
  validate_state st =
    if (st =? 0) || (st =? 1) then Unexpected RingError_NotReady else
    if negb (st <=? 3) then Unexpected RingError_InvalidLayout else Value tt.
Proof.
  intros Hst. unfold validate_state. simpl RingState_value.
  destruct ((st =? 0) || (st =? 1)) eqn:E; [done|]. to_prop.
  replace (negb (st =? 2) && negb (st =? 3)) with (negb (st <=? 3)); [done|].
  apply eq_true_iff_eq. rewrite andb_true_iff, !negb_true_iff, Z.leb_gt, !Z.eqb_neq. uint.
Qed.

Lemma run_construct_fields b m :
  (192 <= length m)%nat ->
  run (SpscRing_construct 0 192 b) m =
    Some (Ring (Some 0%nat) (Some 192%nat) (field m preamble_slot_count 4)
            (field m preamble_slot_stride 4) (field m preamble_slot_payload_capacity 4)
            0 0 0 false b, m).
Proof.
  intros Hm. unfold SpscRing_construct.
  by rewrite !run_load_field by (done || (etransitivity; [|exact Hm]; vm_compute; lia)).
Qed.

Lemma attach_runs memory m :
  (invalid_memory memory = false -> (192 <= length m)%nat) ->
  run (attach memory) m = Some (attach_reference memory m, m).
Proof.
  intros Hm. unfold attach, attach_reference, attach_checks.
  destruct (invalid_memory memory) eqn:Hmem; cbn [negb first_failure]; [done|]. specialize (Hm eq_refl).
  assert (Hin : forall a w, (a + w <= 192)%nat -> (a + w <= length m)%nat) by lia.
  rewrite run_load_field by (done || (apply Hin; vm_compute; lia)).
  cbn [Nat.add]. pose proof (field_range m preamble_state 4) as Hst. simpl in Hst.
  rewrite validate_state_spec by done.
  set (st := field m preamble_state 4) in *.
  destruct ((st =? 0) || (st =? 1)); cbn [negb first_failure]; [done|].
  destruct (st <=? 3); cbn [negb first_failure]; [|done].
  erewrite run_bind_ret by by apply run_invalid_layout. cbv beta.
  destruct (bool_decide (take 4 m = ring_magic)); cbn [negb orb first_failure]; [|done].
  destruct (field m preamble_layout_version 2 =? 1); cbn [negb orb first_failure]; [|done].
  destruct (field m preamble_header_bytes 2 =? 192); cbn [negb orb first_failure]; [|done].
  destruct (field m preamble_instance_id 8 =? 0); cbn [negb orb first_failure]; [done|].
  destruct (field m preamble_reserved 4 =? 0); cbn [negb orb first_failure]; [|done].
  erewrite run_bind_ret
    by (repeat (apply run_or; [|intros _]); apply run_not_all_zero, Hin; vm_compute; lia).
  cbv beta. unfold preamble_reserved_size, cursor_reserved_size.
  destruct (zero_range m preamble_reserved_bytes 20); cbn [negb orb first_failure]; [|done].
  destruct (zero_range m producer_reserved_bytes 56); cbn [negb orb first_failure]; [|done].
  destruct (zero_range m consumer_reserved_bytes 56); cbn [negb orb first_failure]; [|done].
  rewrite !run_load_field by (done || (apply Hin; vm_compute; lia)). cbn [Nat.add].
  cbv zeta. fold (header_config m). set (c := header_config m).
  rewrite (required_bytes_spec c (header_config_ok m)), (Z.leb_antisym u32_max).
  destruct (is_power_of_two (slot_count c)) eqn:Hp; cbn [negb first_failure]; [|done].
  destruct (u32_max <? stride_of c) eqn:Hs; cbn [negb first_failure]; [done|]. to_prop.
  assert (valid_config c) as Hc.
  { split; [apply header_config_ok| |done]. apply is_power_of_two_spec; [apply header_config_ok|done]. }
  rewrite (proj2 (stride_quotient c Hc)).
  erewrite run_bind_ret
    by (apply run_or; [|intros _]; apply run_load_check; done || (apply Hin; vm_compute; lia)).
  cbv beta. cbn [Nat.add].
  destruct (field m preamble_slot_stride 4 =? stride_of c) eqn:Hst'; cbn [negb orb first_failure]; [|done].
  destruct (field m preamble_segment_bytes 8 =? segment_size c); cbn [negb orb first_failure]; [|done].
  destruct (mem_size memory =? segment_size c); cbn [negb orb first_failure]; [|done].
  change (Z.to_nat ring_header_bytes) with 192%nat.
  erewrite run_bind_ret by by apply run_construct_fields. to_prop. unfold construct_handle. by rewrite Hst'.
Qed.

Lemma attach_spec memory m :
  Z.of_nat (length m) = mem_size memory ->
  run (attach memory) m = Some (attach_reference memory m, m).
Proof.
  intros Hlen. apply attach_runs. unfold invalid_memory, ring_header_bytes. intros Hmem. to_prop. lia.
Qed.

(** ** Which segments [attach] accepts *)

(** The header is the image of [c], instance [id], in a state an attacher may see. *)
Definition well_formed (c : RingConfig) (id st w r : Z) (m : list byte) : Prop :=
  valid_config c /\ is_uint 64 id /\ id <> 0 /\ (st = 2 \/ st = 3) /\
  starts_with (Z.to_nat (segment_size c)) (header_fields c id st w r) m.

Lemma zero_range_spec m a n :
  (a + n <= length m)%nat -> zero_range m a n = true <-> load_bytes m a n = Some (zeros n).
Proof.
  intros Hin. unfold zero_range, zeros, load_bytes. rewrite decide_True by done.
  rewrite forallb_is_zero, length_take, length_drop, Nat.min_l by lia. split; [by intros ->|congruence].
Qed.

Lemma well_formed_fields c id st w r m :
  well_formed c id st w r m ->
  header_config m = c /\ field m preamble_state 4 = st /\
  first_failure (attach_checks (Memory 128 (Z.of_nat (length m))) m) = None.
Proof.
  intros (Hc&Hid&Hid0&Hst&Hm&Hl). destruct (config_uint32 c Hc) as (U1&U2&U3).
  pose proof (segment_size_bounds c Hc) as [Hsz _].
  assert (length m = Z.to_nat (segment_size c)) as Hlen by done.
  unfold header_fields in Hl. cbn [loads_at] in Hl.
  rewrite !length_le_split, !length_zeros in Hl. simpl length in Hl. simpl Nat.add in Hl.
  destruct Hl as (H0&H1&H2&H3&H4&H5&H6&H7&H8&H9&H10&_&H12&_&H14&_).
  assert (header_config m = c) as Hcfg.
  { unfold header_config, preamble_slot_count, preamble_slot_payload_capacity.
    rewrite (load_field _ _ 4 _ H4), (load_field _ _ 4 _ H6). change (Z.of_nat 4 * 8) with 32.
    rewrite !wrap_small by done. by destruct c. }
  assert (field m preamble_state 4 = st) as Hstate.
  { unfold preamble_state. rewrite (load_field _ _ 4 _ H9). apply wrap_small.
    unfold is_uint. simpl. lia. }
  split_and!; [done..|]. apply first_failure_None. unfold attach_checks.
  rewrite Hcfg, Hstate. cbv zeta.
  unfold preamble_layout_version, preamble_header_bytes, preamble_instance_id,
    preamble_reserved, preamble_slot_stride, preamble_segment_bytes.
  rewrite (load_field _ _ 2 _ H1), (load_field _ _ 2 _ H2), (load_field _ _ 8 _ H3),
    (load_field _ _ 4 _ H5), (load_field _ _ 4 _ H7), (load_field _ _ 8 _ H8).
  change (Z.of_nat 2 * 8) with 16. change (Z.of_nat 4 * 8) with 32. change (Z.of_nat 8 * 8) with 64.
  unfold ring_layout_version, ring_header_bytes. rewrite !wrap_small by (uint || done).
  repeat constructor; cbn [fst]; rewrite ?negb_true_iff, ?orb_false_iff, ?Z.eqb_neq, ?Z.eqb_eq, ?Z.leb_le.
  - unfold invalid_memory, ring_header_bytes. simpl.
    by rewrite (proj2 (Z.ltb_ge _ _)) by lia.
  - lia.
  - lia.
  - apply bool_decide_eq_true. unfold load_bytes in H0. case_decide; [|done].
    rewrite drop_0 in H0. congruence.
  - done.
  - by apply zero_range_spec; [rewrite Hlen; unfold preamble_reserved_bytes; lia|].
  - by apply zero_range_spec; [rewrite Hlen; unfold producer_reserved_bytes; lia|].
  - by apply zero_range_spec; [rewrite Hlen; unfold consumer_reserved_bytes; lia|].
  - apply is_power_of_two_spec; [done|apply Hc].
  - apply Hc.
  - done.
  - done.
  - cbn [mem_size]. lia.
Qed.

(** A header that passes the checks is an image. *)
Lemma checks_well_formed memory m :
  Z.of_nat (length m) = mem_size memory -> first_failure (attach_checks memory m) = None ->
  well_formed (header_config m) (field m preamble_instance_id 8) (field m preamble_state 4)
    (field m producer_position 8) (field m consumer_position 8) m.
Proof.
  intros Hlen Hchecks. apply first_failure_None in Hchecks. unfold attach_checks in Hchecks.
  repeat (apply Forall_cons in Hchecks as [? Hchecks]; cbn [fst] in *); to_prop.
  pose proof (header_config_ok m) as Hok.
  assert (valid_config (header_config m)) as Hc
    by (split; [done|by apply is_power_of_two_spec; [apply Hok|]|done]).
  pose proof (segment_size_bounds _ Hc) as [Hsz _].
  assert (192 <= length m)%nat by lia.
  pose proof (field_range m preamble_state 4) as Hst. simpl in Hst.
  split_and!; [done|apply (field_range m _ 8)|done|uint|].
  split; [lia|]. unfold header_fields. cbn [loads_at].
  rewrite !length_le_split, !length_zeros. simpl length. simpl Nat.add.
  assert (forall off k v, (off + k <= 192)%nat -> field m off k = v ->
            load_bytes m off k = Some (le_split k v)) as Hf.
  { intros off k v ? <-. apply field_load. lia. }
  split_and!; try done; try (apply Hf; [lia|done]);
    try (apply zero_range_spec; [lia|done]).
  unfold load_bytes. rewrite decide_True by lia. f_equal. rewrite drop_0.
  by eapply bool_decide_eq_true.
Qed.

Lemma attach_memory_irrelevant memory m :
  Z.of_nat (length m) = mem_size memory ->
  first_failure (attach_checks memory m) = None <->
  invalid_memory memory = false /\
  first_failure (attach_checks (Memory 128 (Z.of_nat (length m))) m) = None.
Proof.
  intros Hlen. rewrite !first_failure_None. unfold attach_checks. rewrite !Forall_cons.
  cbn [fst mem_size]. rewrite Hlen, !negb_true_iff. split.
  - intros (Hm&?). split; [done|]. split; [|done].
    unfold invalid_memory in *. to_prop. cbn. by rewrite (proj2 (Z.ltb_ge _ _)).
  - intros (?&_&?). done.
Qed.

Lemma handles_empty c b b' :
  valid_config c ->
  producer_ok (empty_queue c) (construct_handle c b) /\
  consumer_ok (empty_queue c) (construct_handle c b').
Proof. intros Hc. split; split; try done; apply construct_handle_ok. Qed.

Lemma fresh_system memory c id m :
  valid_config c -> is_uint 64 id -> id <> 0 ->
  invalid_memory memory = false -> mem_size memory = segment_size c ->
  Z.of_nat (length m) = mem_size memory ->
  exists hp m',
    run (initialize memory c id) m = Some (Value hp, m') /\
    run (attach memory) m' = Some (Value (construct_handle c false), m') /\
    sys_repr (RingSys m' hp (construct_handle c false)) (empty_queue c).
Proof.
  intros Hc Hid Hid0 Hmem Hsize Hlen.
  destruct (initialize_runs memory c id m (valid_ok c Hc) Hid Hlen) as (m'&Hrun&Him&Hz).
  { apply first_failure_None. unfold initialize_checks. rewrite Hmem, Hsize.
    repeat constructor; cbn [fst]; rewrite ?negb_true_iff, ?Z.eqb_neq, ?Z.leb_le; try done.
    - apply is_power_of_two_spec; [apply (valid_ok c Hc)|apply Hc].
    - apply Hc.
    - by rewrite Z.eqb_refl. }
  assert (well_formed c id 2 0 0 m') as Hwf by (split_and!; auto).
  assert (Z.of_nat (length m') = mem_size memory) as Hlen'
    by (pose proof (run_length _ _ _ Hrun); cbn in *; lia).
  destruct (well_formed_fields _ _ _ _ _ _ Hwf) as (Hcfg&_&Hf).
  exists (construct_handle c true), m'. split_and!; [done| |].
  - rewrite attach_spec by done. unfold attach_reference.
    rewrite (proj2 (attach_memory_irrelevant memory m' Hlen')) by done. by rewrite Hcfg.
  - destruct (handles_empty c true false Hc). split; try done. by eapply image_repr.
Qed.

(** What [initialize] does, on success and on failure. *)
Lemma initialize_outcome memory c id m :
  config_ok c -> is_uint 64 id -> Z.of_nat (length m) = mem_size memory ->
  match first_failure (initialize_checks memory c id) with
  | Some e => run (initialize memory c id) m = Some (Unexpected e, m)
  | None =>
      exists ring m', run (initialize memory c id) m = Some (Value ring, m') /\
        ring_repr m' (empty_queue c) /\ producer_ok (empty_queue c) ring /\
        initializer_ ring = true
  end.
Proof.
  intros Hok Hid Hlen. destruct (first_failure _) as [e|] eqn:Hc; [by apply initialize_fails|].
  destruct (initialize_runs memory c id m Hok Hid Hlen Hc) as (m'&Hrun&Him&Hz).
  destruct (initialize_checks_valid memory c id Hok Hc) as (Hv&Hid0&_).
  eexists _, m'. split_and!; [exact Hrun|by eapply image_repr|by apply (handles_empty c true true)|done].
Qed.

(** A segment that represents a queue in a state an attacher may see is well formed. *)
Lemma repr_well_formed m q :
  ring_repr m q -> q_state q = RingState_Ready \/ q_state q = RingState_Closed ->
  exists id, well_formed (q_config q) id (RingState_value (q_state q)) (q_write q) (q_read q) m.
Proof.
  intros [Hv [Hr0 Hw0 _ _ _] Hsz Hst Hw Hr _ _ (id&Hid&Hid0&Hp&Z1&Z2&Z3)] Hstate. exists id.
  assert (0 <= q_write q) by (unfold q_write, q_length in *; lia).
  assert (q_read q <= q_write q) by (unfold q_write, q_length; lia).
  split_and!; try done; [destruct Hstate as [-> | ->]; auto|]. split; [lia|].
  unfold header_fields. cbn [loads_at preamble_fields] in Hp |- *.
  rewrite !length_le_split, !length_zeros in *. simpl length in *. simpl Nat.add in *.
  destruct Hp as (?&?&?&?&?&?&?&?&?&_).
  split_and!; try done.
  - apply load_word_load_bytes, Hst.
  - apply load_word_load_bytes, Hw.
  - apply load_word_load_bytes, Hr.
Qed.

(** The configuration in the header is that of the queue. *)
Lemma header_config_repr m q : ring_repr m q -> header_config m = q_config q.
Proof.
  intros Hm. destruct (repr_header _ _ Hm) as (id&_&_&Hp&_).
  destruct (config_uint32 _ (repr_valid _ _ Hm)) as (U1&_&U3).
  cbn [loads_at preamble_fields] in Hp. rewrite !length_le_split in Hp.
  simpl length in Hp. simpl Nat.add in Hp. destruct Hp as (_&_&_&_&H4&_&H6&_).
  unfold header_config, preamble_slot_count, preamble_slot_payload_capacity.
  rewrite (load_field _ _ 4 _ H4), (load_field _ _ 4 _ H6). change (Z.of_nat 4 * 8) with 32.
  rewrite !wrap_small by done. by destruct (q_config q).
Qed.

(** The bytes of a segment determine its queue. *)
Lemma slot_holds_unique c m pos ev1 ev2 :
  slot_holds c m pos ev1 -> slot_holds c m pos ev2 -> event_ok ev1 -> event_ok ev2 ->
  is_uint 32 (payload_size ev1) -> is_uint 32 (payload_size ev2) -> ev1 = ev2.
Proof.
  intros H1 H2 O1 O2 U1 U2.
  destruct (slot_holds_fields c m pos ev1 H1 O1 U1) as (A1&B1&C1&D1).
  destruct (slot_holds_fields c m pos ev2 H2 O2 U2) as (A2&B2&C2&D2).
  rewrite A1 in A2. rewrite B1 in B2. rewrite C1 in C2. rewrite D1 in D2.
  destruct H1 as [_ P1], H2 as [_ P2]. unfold payload_size in *.
  assert (length (payload ev1) = length (payload ev2)) as Hl by (injection D2; lia).
  rewrite Hl, P2 in P1. destruct ev1, ev2. cbn in *. congruence.
Qed.

(** The bytes of the ring determine all of the queue but the view of the consumer. *)
Lemma ring_repr_content m q1 q2 :
  ring_repr m q1 -> ring_repr m q2 ->
  q_config q1 = q_config q2 /\ q_state q1 = q_state q2 /\ q_read q1 = q_read q2 /\
  q_events q1 = q_events q2.
Proof.
  intros H1 H2.
  assert (q_config q1 = q_config q2) as Hc
    by by rewrite <- (header_config_repr m q1), <- (header_config_repr m q2).
  pose proof H1 as [V1 O1 _ S1 W1 R1 L1 _ _]. pose proof H2 as [_ O2 _ S2 W2 R2 L2 _ _].
  rewrite S1 in S2. rewrite W1 in W2. rewrite R1 in R2.
  assert (q_state q1 = q_state q2) as Hs by (destruct (q_state q1), (q_state q2); done).
  assert (q_read q1 = q_read q2) as Hr by congruence.
  assert (q_events q1 = q_events q2) as He.
  { assert (length (q_events q1) = length (q_events q2)) as Hl
      by (injection W2; unfold q_write, q_length; lia).
    apply (list_eq_same_length _ _ (length (q_events q1))); [done|done|]. intros i e1 e2 _ E1 E2.
    pose proof (queue_events _ O1) as F1. pose proof (queue_events _ O2) as F2.
    rewrite Forall_lookup in F1, F2. destruct (F1 _ _ E1) as [K1 P1]. destruct (F2 _ _ E2) as [K2 P2].
    rewrite <- Hc in P2.
    apply (slot_holds_unique (q_config q1) m (q_read q1 + Z.of_nat i)); try done.
    - by apply L1.
    - rewrite Hr, Hc. by apply L2.
    - apply (event_fits _ _ V1 P1).
    - apply (event_fits _ _ V1 P2). }
  done.
Qed.

Lemma ring_repr_unique m q1 q2 :
  ring_repr m q1 -> ring_repr m q2 -> q_held q1 = q_held q2 -> q1 = q2.
Proof.
  intros H1 H2 Hheld. destruct (ring_repr_content m q1 q2 H1 H2) as (?&?&?&?).
  destruct q1, q2. cbn in *. congruence.
Qed.

(** What [attach] accepts is in use. *)
Lemma attach_reference_Value memory m q h :
  ring_repr m q -> attach_reference memory m = Value h ->
  h = construct_handle (q_config q) false /\ in_use q.
Proof.
  intros Hm Hh. unfold attach_reference in Hh. destruct (first_failure _) eqn:Hf; [done|].
  injection Hh as <-. rewrite (header_config_repr m q Hm). split; [done|].
  apply first_failure_None in Hf. unfold attach_checks in Hf.
  apply Forall_cons in Hf as [_ Hf]. apply Forall_cons in Hf as [Hst _]. cbn [fst] in Hst.
  unfold field in Hst. rewrite (repr_state _ _ Hm) in Hst. cbn [default] in Hst.
  unfold in_use. destruct (q_state q); try done; auto.
Qed.

(** Attaching to a ring in use. *)
Lemma attach_running memory m q :
  ring_repr m q -> q_state q = RingState_Ready \/ q_state q = RingState_Closed ->
  invalid_memory memory = false -> Z.of_nat (length m) = mem_size memory ->
  run (attach memory) m = Some (Value (construct_handle (q_config q) false), m).
Proof.
  intros Hm Hst Hmem Hlen. destruct (repr_well_formed m q Hm Hst) as [id Hwf].
  destruct (well_formed_fields _ _ _ _ _ _ Hwf) as (Hcfg&_&Hf).
  rewrite attach_spec by done. unfold attach_reference.
  rewrite (proj2 (attach_memory_irrelevant memory m Hlen)) by done. by rewrite Hcfg.
Qed.

(** What [attach] gives on a ring in use of configuration [c], whatever buffer it is given. *)
Definition attach_result (c : RingConfig) (memory : memory_span) : expected SpscRing RingError :=
  if invalid_memory memory then Unexpected RingError_InvalidMemory else
  if mem_size memory =? segment_size c then Value (construct_handle c false)
  else Unexpected RingError_InvalidMemory.

Lemma attach_any memory m q :
  ring_repr m q -> in_use q -> run (attach memory) m = Some (attach_result (q_config q) memory, m).
Proof.
  intros Hm Hst. destruct (repr_well_formed m q Hm Hst) as [id Hwf].
  destruct (well_formed_fields _ _ _ _ _ _ Hwf) as (Hcfg&_&Hf).
  pose proof (segment_size_bounds _ (repr_valid _ _ Hm)) as [Hb _]. pose proof (repr_size _ _ Hm) as Hl.
  rewrite attach_runs by lia. unfold attach_reference, attach_result. f_equal. f_equal.
  apply first_failure_None in Hf. unfold attach_checks in Hf |- *. cbv zeta in *. rewrite Hcfg in *.
  repeat (apply Forall_cons in Hf as [? Hf]; cbn [fst] in * ).
  cbn [first_failure]. destruct (invalid_memory memory); cbn [negb]; [done|].
  repeat match goal with H : _ = true |- context [if ?b then _ else _] => rewrite (H : b = true) end.
  by destruct (mem_size memory =? segment_size (q_config q)).
Qed.

(** The handle of a consumer that has just attached. *)
Lemma attached_consumer_ok q :
  queue_ok q -> q_held q = false -> consumer_ok q (construct_handle (q_config q) false).
Proof.
  intros [Hr _ _ _ _] Hh. split; [apply construct_handle_ok| |done|by rewrite Hh].
  cbn. unfold q_write, q_length. lia.
Qed.

(** A fresh ring of two slots with both handles. *)
Definition demo_sys : ring_sys :=
  match run (initialize (Memory 4096 320) demo_config 1) (replicate 320 Byte.x00) with
  | Some (Value ring, m) => RingSys m ring (construct_handle demo_config false)
  | _ => RingSys [] demo_handle demo_handle
  end.

Lemma demo_sys_repr : sys_repr demo_sys (empty_queue demo_config).
Proof.
  destruct (fresh_system (Memory 4096 320) demo_config 1 (replicate 320 Byte.x00))
    as (hp&m'&Hrun&_&Hs); [apply demo_config_valid|by split|done|reflexivity..|].
  unfold demo_sys. by rewrite Hrun.
Qed.

(** ** Properties *)

(** C16. [required_bytes], with its 32- and 64-bit arithmetic, computes the exact size
    192 + stride * slot_count of the segment for every configuration of its types: a slot
    count that is not a power of two of at least two is an invalid configuration, a
    stride above 32 bits is an overflow, and no other configuration is refused. Of the
    two overflow tests only the first can fail. *)
Theorem required_bytes_correct c :
  config_ok c ->
  required_bytes c =
    (if negb (is_power_of_two (slot_count c)) then Unexpected RingError_InvalidConfig
     else if u32_max <? stride_of c then Unexpected RingError_SizeOverflow
     else Value (segment_size c)) /\
  (forall bytes, required_bytes c = Value bytes ->
     bytes < 2 ^ 64 /\ stride_of c mod 64 = 0 /\
     32 + slot_payload_capacity c <= stride_of c < 96 + slot_payload_capacity c).
Proof.
  intros Hok. split; [by apply required_bytes_spec|].
  intros bytes [Hc ->]%required_bytes_valid; [|done].
  pose proof (segment_size_bounds c Hc). pose proof (stride_of_bounds c Hok).
  split_and!; try lia. unfold stride_of. by apply Z.mod_mul.
Qed.

Lemma required_bytes_correct_witness :
  required_bytes (Config 1024 100) = Value 196800 /\
  required_bytes (Config 1000 100) = Unexpected RingError_InvalidConfig /\
  required_bytes (Config 2 u32_max) = Unexpected RingError_SizeOverflow.
Proof.
  split_and!.
  - exact (proj1 (required_bytes_correct (Config 1024 100) ltac:(by split))).
  - exact (proj1 (required_bytes_correct (Config 1000 100) ltac:(by split))).
  - exact (proj1 (required_bytes_correct (Config 2 u32_max) ltac:(by split))).
Defined.

(** C14. [initialize] reports the first of its checks that fails and then leaves the memory
    untouched; otherwise it returns, whatever the memory held before, a handle, and the
    segment represents the empty ready queue for that handle as producer. *)
Theorem initialize_correct memory c id m :
  config_ok c -> is_uint 64 id -> Z.of_nat (length m) = mem_size memory ->
  match first_failure (initialize_checks memory c id) with
  | Some e => run (initialize memory c id) m = Some (Unexpected e, m)
  | None =>
      exists ring m', run (initialize memory c id) m = Some (Value ring, m') /\
        ring_repr m' (empty_queue c) /\ producer_ok (empty_queue c) ring /\
        initializer_ ring = true
  end.
Proof. apply initialize_outcome. Qed.

Lemma initialize_correct_witness :
  exists ring m', run (initialize (Memory 128 320) demo_config 7) (replicate 320 Byte.xff)
      = Some (Value ring, m') /\
    ring_repr m' (empty_queue demo_config) /\ producer_ok (empty_queue demo_config) ring /\
    initializer_ ring = true.
Proof.
  exact (initialize_correct (Memory 128 320) demo_config 7 (replicate 320 Byte.xff)
           ltac:(by split) ltac:(by split) eq_refl).
Defined.

(** C15. [attach] never writes, never faults on a buffer of the stated size however corrupt
    its contents, and reports the first failing validation rule; it returns a handle
    exactly when the mapping is aligned and the buffer starts with a well-formed header
    in the ready or closed state whose size is that of the mapping. *)
Theorem attach_correct memory m :
  Z.of_nat (length m) = mem_size memory ->
  run (attach memory) m = Some (attach_reference memory m, m) /\
  (forall ring, attach_reference memory m = Value ring <->
     invalid_memory memory = false /\
     exists c id st w r, well_formed c id st w r m /\ ring = construct_handle c false).
Proof.
  intros Hlen. split; [by apply attach_spec|]. intros ring. unfold attach_reference.
  pose proof (attach_memory_irrelevant memory m Hlen) as Hirr. split.
  - destruct (first_failure _) eqn:Hf; [done|]. intros [= <-].
    split; [by apply Hirr|]. eexists _, _, _, _, _. split; [by eapply checks_well_formed|done].
  - intros (Hmem&c&id&st&w&r&Hwf&->).
    destruct (well_formed_fields c id st w r m Hwf) as (Hcfg&_&Hf).
    rewrite (proj2 Hirr) by done. by rewrite Hcfg.
Qed.

Lemma attach_correct_witness :
  run (attach (Memory 128 320)) (replicate 320 Byte.x00) =
    Some (Unexpected RingError_NotReady, replicate 320 Byte.x00).
Proof. exact (proj1 (attach_correct (Memory 128 320) (replicate 320 Byte.x00) eq_refl)). Defined.

(** Create, attach, use: on fresh memory of the required size, [initialize] succeeds,
    a second process that maps the same bytes attaches with success, and the two handles
    form a ring system that represents the empty queue. *)
Theorem initialize_then_attach memory c id m :
  valid_config c -> is_uint 64 id -> id <> 0 ->
  invalid_memory memory = false -> mem_size memory = segment_size c ->
  Z.of_nat (length m) = mem_size memory ->
  exists hp m' hc,
    run (initialize memory c id) m = Some (Value hp, m') /\
    run (attach memory) m' = Some (Value hc, m') /\
    sys_repr (RingSys m' hp hc) (empty_queue c).
Proof.
  intros. destruct (fresh_system memory c id m) as (hp&m'&?&?&?); try done.
  by exists hp, m', (construct_handle c false).
Qed.

Lemma initialize_then_attach_witness :
  exists hp m' hc,
    run (initialize (Memory 4096 320) demo_config 1) (replicate 320 Byte.x00) = Some (Value hp, m') /\
    run (attach (Memory 4096 320)) m' = Some (Value hc, m') /\
    sys_repr (RingSys m' hp hc) (empty_queue demo_config).
Proof.
  apply initialize_then_attach; [apply demo_config_valid|by split|done|reflexivity..].
Defined.

(** Late attach: a consumer that maps a segment in use, after any number of publications,
    acquisitions and releases and also after the ring was closed, attaches with success,
    and with its fresh handle the segment and the producer represent the same queue: the
    next event acquired is the oldest one not yet released. *)
Theorem attach_in_use memory s q :
  sys_repr s q -> q_held q = false ->
  q_state q = RingState_Ready \/ q_state q = RingState_Closed ->
  invalid_memory memory = false -> Z.of_nat (length (sys_bytes s)) = mem_size memory ->
  exists hc, run (attach memory) (sys_bytes s) = Some (Value hc, sys_bytes s) /\
    sys_repr (RingSys (sys_bytes s) (sys_producer s) hc) q.
Proof.
  intros [Hm Hp _ Hi] Hh Hst Hmem Hlen. exists (construct_handle (q_config q) false).
  split; [by apply attach_running|]. split; try done. by apply (attached_consumer_ok q (repr_ok _ _ Hm)).
Qed.

Lemma attach_in_use_witness :
  exists hc, run (attach (Memory 4096 320)) (sys_bytes demo_sys) = Some (Value hc, sys_bytes demo_sys) /\
    sys_repr (RingSys (sys_bytes demo_sys) (sys_producer demo_sys) hc) (empty_queue demo_config).
Proof.
  refine (attach_in_use (Memory 4096 320) demo_sys _ demo_sys_repr eq_refl (or_introl eq_refl) eq_refl _).
  vm_compute. reflexivity.
Defined.

(** ** Witnesses of the properties of [RingSystem] *)

Definition demo_event (n : Z) : EventData := Event 1 n 2 [Byte.x41; Byte.x42].

Lemma demo_event_ok n : is_uint 64 n -> event_ok (demo_event n).
Proof. by split. Qed.

(** Two publications fill the ring; the third is refused; then everything is read. *)
Definition demo_ops : list ring_op :=
  [ OpPublish (demo_event 1); OpPublish (demo_event 2); OpPublish (demo_event 3);
    OpAcquire; OpAcquire; OpRelease; OpPublish (demo_event 3); OpClose; OpAcquire ].

Lemma demo_ops_ok : Forall op_ok demo_ops.
Proof. repeat (apply Forall_cons; split; [done || by apply demo_event_ok|]). done. Qed.

Lemma ring_refines_queue_witness :
  exists s', exec_ops demo_ops demo_sys = Some
    ([ ResPublish PublishResult_Ok; ResPublish PublishResult_Ok; ResPublish PublishResult_Full;
       ResAcquire (Value (demo_event 1)); ResAcquire (Unexpected AcquireError_AlreadyAcquired);
       ResRelease true; ResPublish PublishResult_Ok; ResClose true;
       ResAcquire (Value (demo_event 2)) ], s') /\
    sys_repr s' (Queue demo_config RingState_Closed 1 [demo_event 2; demo_event 3] true).
Proof. exact (ring_refines_queue demo_ops demo_sys _ demo_sys_repr demo_ops_ok). Defined.

Lemma ring_fifo_witness :
  exists rs s' q', exec_ops demo_ops demo_sys = Some (rs, s') /\ sys_repr s' q' /\
    published demo_ops rs = acquired rs ++ q_pending q'.
Proof. exact (ring_fifo demo_ops demo_sys _ demo_sys_repr eq_refl demo_ops_ok). Defined.

(** The consumer holds the first event while the producer fills the ring and closes. *)
Definition demo_published : ring_sys :=
  default demo_sys (snd <$> exec_ops [OpPublish (demo_event 1)] demo_sys).

Definition demo_view : EventView span := Event 1 1 2 (Span 224 2).
Definition demo_holder : SpscRing :=
  Ring (Some 0%nat) (Some 192%nat) 2 64 32 0 1 0 true false.

Lemma demo_published_repr :
  sys_repr demo_published (Queue demo_config RingState_Ready 0 [demo_event 1] false).
Proof.
  destruct (exec_ops_refines [OpPublish (demo_event 1)] demo_sys _ demo_sys_repr)
    as (s'&Hrun&Hs'); [by repeat constructor|].
  unfold demo_published. by rewrite Hrun.
Qed.

Lemma demo_acquire :
  run (try_acquire (sys_consumer demo_published)) (sys_bytes demo_published) =
    Some ((Value demo_view, demo_holder), sys_bytes demo_published).
Proof. vm_compute. reflexivity. Qed.

Lemma acquired_view_stable_witness :
  exists ev rs s', event_bytes (sys_bytes demo_published) demo_view = Some ev /\
    exec_ops [OpPublish (demo_event 2); OpPublish (demo_event 3); OpClose]
      (RingSys (sys_bytes demo_published) (sys_producer demo_published) demo_holder) =
        Some (rs, s') /\
    event_bytes (sys_bytes s') demo_view = Some ev.
Proof.
  refine (acquired_view_stable demo_published _ demo_view demo_holder _
            [OpPublish (demo_event 2); OpPublish (demo_event 3); OpClose]
            demo_published_repr demo_acquire _ eq_refl).
  repeat (apply Forall_cons; split; [done || by apply demo_event_ok|]). done.
Defined.
