(* ===== verification/Weak.v ===== *)
(** * Release/acquire memory

    Two threads run programs over a segment access by access, in any order. An atomic
    location has the history of the messages stored to it; a load returns any message that
    is not older than what the thread has already seen of the location. A release store
    puts the view of its thread into the message, an acquire load takes the view of the
    message over. Plain accesses see the bytes, and a vector clock detects data races: an
    access that does not happen after a conflicting one is undefined behaviour.

    Every step is a function of the thread and of a choice among the messages it may read;
    [None] is undefined behaviour: a race, a misaligned access or one outside the segment,
    a plain access to an atomic object or the converse, a null dereference.

    Messages are appended in the order of the stores. For locations with several writers
    the modification order could differ from it; every atomic of a ring has one. *)

From S2P Require Import Prelude Bytes Memory RingLayout.

Inductive thread := Producer | Consumer.

#[export] Instance thread_eq_dec : EqDecision thread.
Proof. solve_decision. Defined.

(** ** Views and messages *)

(** What a thread knows: for each thread the accesses that happen before, for each
    atomic location the last message seen. *)
Record view := View { v_clock : thread -> nat; v_seen : addr -> nat }.

Definition view_init : view := View (fun _ => 0%nat) (fun _ => 0%nat).

Definition view_join (v1 v2 : view) : view :=
  View (fun t => Nat.max (v_clock v1 t) (v_clock v2 t)) (fun a => Nat.max (v_seen v1 a) (v_seen v2 a)).

(** One more access of [t]. *)
Definition tick (t : thread) (v : view) : view :=
  View (fun u => if decide (u = t) then S (v_clock v u) else v_clock v u) (v_seen v).

Definition see (a : addr) (i : nat) (v : view) : view :=
  View (v_clock v) (fun b => if decide (b = a) then i else v_seen v b).

Record message := Message { msg_value : Z; msg_view : view }.

Record weak := WeakMem {
  wm_bytes : list byte;
  wm_written : addr -> thread * nat;   (** the last plain write of a byte *)
  wm_read : thread -> addr -> nat;     (** the last plain read of a byte, by thread *)
  wm_history : addr -> list message;   (** the messages of an atomic location *)
}.

(** The atomic objects of a ring. *)
Definition ring_atomics : list (addr * nat) :=
  [(preamble_state, 4%nat); (producer_position, 8%nat); (consumer_position, 8%nat)].

Definition is_atomic (a : addr) (w : nat) : bool := bool_decide ((a, w) ∈ ring_atomics).

(** The range meets no atomic object. *)
Definition is_plain (a : addr) (n : nat) : bool :=
  forallb (fun o => Nat.leb (a + n) o.1 || Nat.leb (o.1 + o.2) a) ring_atomics.

(** ** Plain accesses *)

Definition in_range (a : addr) (n : nat) (b : addr) : bool := Nat.leb a b && Nat.ltb b (a + n).

(** Every write of the range happens before. *)
Definition readable (v : view) (m : weak) (a : addr) (n : nat) : bool :=
  forallb (fun b => Nat.leb (wm_written m b).2 (v_clock v (wm_written m b).1)) (seq a n).

(** So does every read of the range by any thread. *)
Definition writable (v : view) (m : weak) (a : addr) (n : nat) : bool :=
  readable v m a n &&
  forallb (fun b => Nat.leb (wm_read m Producer b) (v_clock v Producer)
                    && Nat.leb (wm_read m Consumer b) (v_clock v Consumer)) (seq a n).

Definition record_read (t : thread) (v : view) (m : weak) (a : addr) (n : nat) : weak :=
  WeakMem (wm_bytes m) (wm_written m)
    (fun u b => if bool_decide (u = t) && in_range a n b then v_clock v t else wm_read m u b)
    (wm_history m).

Definition record_write (t : thread) (v : view) (m : weak) (a : addr) (n : nat) (bytes : list byte) :
    weak :=
  WeakMem bytes (fun b => if in_range a n b then (t, v_clock v t) else wm_written m b)
    (wm_read m) (wm_history m).

(** ** Atomic accesses *)

(** The message a load by a thread with view [v] reads. *)
Definition pick (v : view) (m : weak) (a : addr) (choice : nat) : nat :=
  Nat.min (v_seen v a + choice) (pred (length (wm_history m a))).

Definition read_message (o : memory_order) (v : view) (a : addr) (i : nat) (msg : message) : view :=
  let v := see a (Nat.max (v_seen v a) i) v in
  if decide (o = memory_order_acquire) then view_join v (msg_view msg) else v.

(** A relaxed store publishes nothing but itself. *)
Definition message_view (o : memory_order) (v : view) (a : addr) : view :=
  if decide (o = memory_order_release) then v else see a (v_seen v a) view_init.

Definition append_message (m : weak) (a : addr) (msg : message) : weak :=
  WeakMem (wm_bytes m) (wm_written m) (wm_read m)
    (fun b => if decide (b = a) then (wm_history m b ++ [msg])%list else wm_history m b).

(** ** One access *)

Definition access {A} (t : thread) (choice : nat) (v : view) (m : weak) (p : prog A) :
    option (view * weak * prog A) :=
  let v := tick t v in
  match p with
  | Ret _ | Fault => None
  | Load nonatomic w a k =>
      if aligned w a && is_plain a w && readable v m a w then
        value ← load_word (wm_bytes m) a w; Some (v, record_read t v m a w, k value)
      else None
  | Load memory_order_release _ _ _ => None
  | Load o w a k =>
      if aligned w a && is_atomic a w then
        let i := pick v m a choice in
        msg ← wm_history m a !! i; Some (read_message o v a i msg, m, k (msg_value msg))
      else None
  | Store nonatomic w a value k =>
      if aligned w a && is_plain a w && writable v m a w then
        bytes ← store_word (wm_bytes m) a w value; Some (v, record_write t v m a w bytes, k)
      else None
  | Store memory_order_acquire _ _ _ _ => None
  | Store o w a value k =>
      if aligned w a && is_atomic a w then
        let v := see a (length (wm_history m a)) v in
        let msg := Message (wrap (Z.of_nat w * 8) value) (message_view o v a) in
        Some (v, append_message m a msg, k)
      else None
  | ReadBytes a n k =>
      if is_plain a n && readable v m a n then
        bytes ← load_bytes (wm_bytes m) a n; Some (v, record_read t v m a n, k bytes)
      else None
  | WriteBytes a bs k =>
      if is_plain a (length bs) && writable v m a (length bs) then
        bytes ← store_bytes (wm_bytes m) a bs; Some (v, record_write t v m a (length bs) bytes, k)
      else None
  end.

(** ** Two threads *)

Record config (A B : Type) := Threads {
  cf_memory : weak;
  cf_producer : view * prog A;
  cf_consumer : view * prog B;
}.
Arguments Threads {A B} _ _ _.
Arguments cf_memory {A B} _.
Arguments cf_producer {A B} _.
Arguments cf_consumer {A B} _.

Definition finished {A} (p : prog A) : bool := match p with Ret _ => true | _ => false end.

(** A turn of [t]; a thread that has finished does nothing. *)
Definition turn {A B} (t : thread) (choice : nat) (s : config A B) : option (config A B) :=
  let '(Threads m (vp, pp) (vc, pc)) := s in
  match t with
  | Producer =>
      if finished pp then Some s else
      '(v, m, p) ← access Producer choice vp m pp; Some (Threads m (v, p) (vc, pc))
  | Consumer =>
      if finished pc then Some s else
      '(v, m, p) ← access Consumer choice vc m pc; Some (Threads m (vp, pp) (v, p))
  end.

Fixpoint execute {A B} (schedule : list (thread * nat)) (s : config A B) : option (config A B) :=
  match schedule with
  | [] => Some s
  | (t, choice) :: schedule => s ← turn t choice s; execute schedule s
  end.

(** Memory that both threads have seen: the bytes of a segment at rest. *)
Definition at_rest (bytes : list byte) : weak :=
  WeakMem bytes (fun _ => (Producer, 0%nat)) (fun _ _ => 0%nat)
    (fun a => match List.find (fun o => Nat.eqb o.1 a) ring_atomics with
              | Some (_, w) =>
                  match load_word bytes a w with
                  | Some value => [Message value view_init]
                  | None => []
                  end
              | None => []
              end).

(** ** Facts about views *)

Definition view_le (v1 v2 : view) : Prop :=
  (forall t, (v_clock v1 t <= v_clock v2 t)%nat) /\ (forall a, (v_seen v1 a <= v_seen v2 a)%nat).

#[export] Instance view_le_preorder : PreOrder view_le.
Proof.
  split; [by intros v; split|]. intros v1 v2 v3 [H1 H2] [H3 H4].
  split; intros x; etransitivity; eauto.
Qed.

Lemma tick_le t v : view_le v (tick t v).
Proof. split; intros x; cbn; [|done]. case_decide; lia. Qed.

Lemma tick_clock t v : v_clock (tick t v) t = S (v_clock v t).
Proof. cbn. by rewrite decide_True. Qed.

Lemma read_message_le o v a i msg : view_le v (read_message o v a i msg).
Proof.
  unfold read_message. destruct (decide (o = _)); split; intros x; cbn; try case_decide; subst; lia.
Qed.

Lemma see_last_le m v a : (v_seen v a < length (wm_history m a))%nat -> view_le v (see a (length (wm_history m a)) v).
Proof. intros H. split; intros x; cbn; [done|]. case_decide; subst; lia. Qed.

Lemma readable_spec v m a n :
  readable v m a n = true <->
  forall b, (a <= b < a + n)%nat -> ((wm_written m b).2 <= v_clock v (wm_written m b).1)%nat.
Proof.
  unfold readable. rewrite forallb_forall. split.
  - intros H b Hb. apply Nat.leb_le, H, in_seq. lia.
  - intros H b Hb. apply Nat.leb_le, H. apply in_seq in Hb. lia.
Qed.

Lemma writable_spec v m a n :
  writable v m a n = true <->
  forall b, (a <= b < a + n)%nat -> ((wm_written m b).2 <= v_clock v (wm_written m b).1)%nat /\
    forall t, (wm_read m t b <= v_clock v t)%nat.
Proof.
  unfold writable. rewrite andb_true_iff, readable_spec, forallb_forall. split.
  - intros [H1 H2] b Hb. split; [by apply H1|].
    assert (In b (seq a n)) as Hin by (apply in_seq; lia). specialize (H2 b Hin).
    apply andb_true_iff in H2 as [Hp Hc]. intros []; by apply Nat.leb_le.
  - intros H. split; [intros b Hb; by apply H|]. intros b Hb.
    apply in_seq in Hb. destruct (H b ltac:(lia)) as [_ Hr].
    apply andb_true_iff. split; by apply Nat.leb_le.
Qed.

Lemma in_range_spec a n b : in_range a n b = true <-> (a <= b < a + n)%nat.
Proof. unfold in_range. rewrite andb_true_iff, Nat.leb_le, Nat.ltb_lt. done. Qed.

(** The atomics lie in front of the slots. *)
Lemma slots_plain a n : (192 <= a)%nat -> is_plain a n = true.
Proof.
  intros Ha. unfold is_plain, ring_atomics, preamble_state, producer_position, consumer_position.
  cbn [forallb fst snd]. rewrite !(proj2 (Nat.leb_le (_ + _) a)) by lia. by rewrite !orb_true_r.
Qed.
