(* ===== verification/RingWeak.v ===== *)
(** * What the two threads of a ring know

    The invariant of a ring in release/acquire memory. The producer knows every event, the
    bytes of the slots and how far it has acquired the consumer's releases; the consumer
    knows how far it has acquired the producer's publications. [inv] relates both to the
    histories of the three atomics and to the clocks: every message carries enough of its
    thread's clock that the slots it hands over are free of races.

    [safe_producer] and [safe_consumer] say that a program only makes accesses its thread
    may make with what it knows, and what it knows afterwards; the two soundness theorems
    carry this over to the steps of [Weak], whatever the other thread does in between. *)

From S2P Require Import Prelude Bytes Event Memory RingLayout Ring RingSpec RingGeometry RingRefinement Weak.

Record pknow := PKnow {
  pk_events : list EventData;   (** every event since the start *)
  pk_read : Z;                  (** a read position it has acquired *)
  pk_state : RingState;
  pk_bytes : list byte;
}.

Record cknow := CKnow {
  ck_events : list EventData;   (** the events whose publication it has acquired *)
  ck_read : Z;                  (** the read position *)
  ck_closed : bool;             (** it has seen the ring closed: there are no more events *)
  ck_header : list byte;        (** the header, whose plain fields never change *)
}.

Section Ring.
Context (c : RingConfig) (Hc : valid_config c).
(** The position of the first event, and how many there are at the start. *)
Context (base : Z) (first : nat).

Definition pk_write (k : pknow) : Z := base + Z.of_nat (length (pk_events k)).
Definition ck_write (k : cknow) : Z := base + Z.of_nat (length (ck_events k)).

Definition in_slot (pos : Z) (b : addr) : Prop :=
  (slot_offset c pos <= b < slot_offset c pos + Z.to_nat (stride_of c))%nat.

(** Events of their types that fit a slot. *)
Definition fits (ev : EventData) : Prop := event_ok ev /\ payload_size ev <= slot_payload_capacity c.

(** The slot of [pos] holds [ev] and passes validation. *)
Definition slot_full (m : list byte) (pos : Z) (ev : EventData) : Prop :=
  slot_holds c m pos ev /\ slot_reserved_zero c m pos /\ fits ev.

(** ** Views *)

(** What a view of either thread, or of a message, covers: the writes of the slots that
    are published up to the write position it has seen, and the reads of the slots that
    are released up to the read position it has seen. *)
Record covers (m : weak) (r w : Z) (v : view) : Prop := Covers {
  cv_seen : forall a n, (a, n) ∈ ring_atomics -> (v_seen v a < length (wm_history m a))%nat;
  cv_written : forall pos b,
    r <= pos < base + Z.of_nat first + Z.of_nat (v_seen v producer_position) -> in_slot pos b ->
    ((wm_written m b).2 <= v_clock v Producer)%nat;
  cv_read : forall pos b,
    w <= pos < base + Z.of_nat (v_seen v consumer_position) + slot_count c -> in_slot pos b ->
    (wm_read m Consumer b <= v_clock v Consumer)%nat;
}.

Lemma covers_weaken m r w v v' :
  covers m r w v -> (forall a, (v_seen v' a <= v_seen v a)%nat) ->
  (forall t, (v_clock v t <= v_clock v' t)%nat) -> covers m r w v'.
Proof.
  intros [H1 H2 H3] Hs Hk. split.
  - intros a n Ha. specialize (H1 a n Ha). specialize (Hs a). lia.
  - intros pos b Hp Hb. etransitivity; [apply (H2 pos b); [|done]|apply Hk].
    specialize (Hs producer_position). lia.
  - intros pos b Hp Hb. etransitivity; [apply (H3 pos b); [|done]|apply Hk].
    specialize (Hs consumer_position). lia.
Qed.

Lemma covers_join m r w v1 v2 : covers m r w v1 -> covers m r w v2 -> covers m r w (view_join v1 v2).
Proof.
  intros [H1 H2 H3] [G1 G2 G3]. split.
  - intros a n Ha. specialize (H1 a n Ha). specialize (G1 a n Ha). cbn. lia.
  - intros pos b Hp Hb. cbn in *.
    destruct (Nat.max_spec (v_seen v1 producer_position) (v_seen v2 producer_position)) as [[_ Hm]|[_ Hm]];
      rewrite Hm in Hp; [specialize (G2 pos b Hp Hb)|specialize (H2 pos b Hp Hb)]; lia.
  - intros pos b Hp Hb. cbn in *.
    destruct (Nat.max_spec (v_seen v1 consumer_position) (v_seen v2 consumer_position)) as [[_ Hm]|[_ Hm]];
      rewrite Hm in Hp; [specialize (G3 pos b Hp Hb)|specialize (H3 pos b Hp Hb)]; lia.
Qed.

Lemma covers_tick m r w v t : covers m r w v -> covers m r w (tick t v).
Proof. intros H. apply (covers_weaken _ _ _ v); [done|done|apply tick_le]. Qed.

(** Acquiring a message that carries its own position. *)
Lemma covers_acquire m r w v a i msg :
  covers m r w v -> covers m r w (msg_view msg) -> (i <= v_seen (msg_view msg) a)%nat ->
  covers m r w (read_message memory_order_acquire v a i msg).
Proof.
  intros Hv Hm Hi. apply (covers_weaken _ _ _ (view_join v (msg_view msg))); [by apply covers_join| |].
  - intros b. unfold read_message. rewrite decide_True by done. cbn. case_decide; subst; lia.
  - intros t. unfold read_message. rewrite decide_True by done. done.
Qed.

(** The positions only move up, and nothing else changes for the view. *)
Lemma covers_advance m r w r' w' v :
  covers m r w v -> r <= r' -> w <= w' -> covers m r' w' v.
Proof.
  intros [H1 H2 H3] Hr Hw. split; [done| |].
  - intros pos b Hp. apply H2. lia.
  - intros pos b Hp. apply H3. lia.
Qed.

(** ** The invariant *)

Definition is_view (m : weak) (vp vc v : view) : Prop :=
  v = vp \/ v = vc \/ exists a n msg, (a, n) ∈ ring_atomics /\ msg ∈ wm_history m a /\ v = msg_view msg.

Definition last_index (m : weak) (a : addr) : nat := pred (length (wm_history m a)).

(** The histories of the atomics. *)
Record histories (m : weak) (kp : pknow) (kc : cknow) : Prop := Histories {
  hs_write : forall i msg, wm_history m producer_position !! i = Some msg ->
    msg_value msg = base + Z.of_nat first + Z.of_nat i;
  hs_writes : base + Z.of_nat first + Z.of_nat (length (wm_history m producer_position)) = pk_write kp + 1;
  hs_read : forall i msg, wm_history m consumer_position !! i = Some msg -> msg_value msg = base + Z.of_nat i;
  hs_reads : base + Z.of_nat (length (wm_history m consumer_position)) = ck_read kc + 1;
  hs_state : exists ss, map msg_value (wm_history m preamble_state) = map RingState_value ss /\
    last ss = Some (pk_state kp) /\ Forall (fun s => s = RingState_Ready \/ s = RingState_Closed) ss;
  hs_closed : forall msg, msg ∈ wm_history m preamble_state ->
    msg_value msg = RingState_value RingState_Closed ->
    pk_state kp = RingState_Closed /\
    v_seen (msg_view msg) producer_position = last_index m producer_position;
  hs_own : forall a n i msg, (a, n) ∈ ring_atomics -> wm_history m a !! i = Some msg ->
    (i <= v_seen (msg_view msg) a)%nat;
  hs_final : forall i j msgi msgj, (i <= j)%nat ->
    wm_history m preamble_state !! i = Some msgi -> wm_history m preamble_state !! j = Some msgj ->
    msg_value msgi = RingState_value RingState_Closed -> msg_value msgj = RingState_value RingState_Closed;
}.

(** What the threads know is true. *)
Record knowledge (vp vc : view) (kp : pknow) (kc : cknow) : Prop := Knowledge {
  kn_base : 0 <= base;
  kn_prefix : prefix (ck_events kc) (pk_events kp);
  kn_closed : ck_closed kc = true -> ck_events kc = pk_events kp /\ pk_state kp = RingState_Closed;
  kn_read : pk_read kp <= base + Z.of_nat (v_seen vp consumer_position);
  kn_write : ck_write kc <= base + Z.of_nat first + Z.of_nat (v_seen vc producer_position);
  kn_order : base <= ck_read kc <= ck_write kc;
  kn_room : pk_write kp <= pk_read kp + slot_count c;
  kn_bound : pk_write kp <= u64_max;
  kn_fits : Forall fits (pk_events kp);
}.

(** From the message [i] on the state is [Closed]. *)
Definition closed_from (m : weak) (i : nat) : Prop :=
  forall j msg, (i <= j)%nat -> wm_history m preamble_state !! j = Some msg ->
    msg_value msg = RingState_value RingState_Closed.

Record inv (m : weak) (vp vc : view) (kp : pknow) (kc : cknow) : Prop := Inv {
  iv_histories : histories m kp kc;
  iv_knowledge : knowledge vp vc kp kc;
  iv_own_write : v_seen vp producer_position = last_index m producer_position;
  iv_own_state : v_seen vp preamble_state = last_index m preamble_state;
  iv_own_read : v_seen vc consumer_position = last_index m consumer_position;
  iv_bytes : wm_bytes m = pk_bytes kp;
  iv_length : length (wm_bytes m) = Z.to_nat (segment_size c);
  iv_slots : forall i ev, pk_events kp !! i = Some ev -> ck_read kc <= base + Z.of_nat i ->
    slot_full (pk_bytes kp) (base + Z.of_nat i) ev;
  iv_written : forall b, (wm_written m b).1 = Producer /\ ((wm_written m b).2 <= v_clock vp Producer)%nat;
  iv_reads : forall b, (wm_read m Consumer b <= v_clock vc Consumer)%nat /\
                       (wm_read m Producer b <= v_clock vp Producer)%nat;
  iv_covers : forall v, is_view m vp vc v -> covers m (ck_read kc) (pk_write kp) v;
  iv_closed : ck_closed kc = true -> closed_from m (v_seen vc preamble_state);
  iv_header : load_bytes (wm_bytes m) 0 192 = Some (ck_header kc);
  iv_unwritten : forall b, (b < 192)%nat -> (wm_written m b).2 = 0%nat;
}.

Lemma prefix_length_le {A} (l1 l2 : list A) : prefix l1 l2 -> (length l1 <= length l2)%nat.
Proof. intros [l ->]. rewrite length_app. lia. Qed.

Lemma ring_atomic_cases a n :
  (a, n) ∈ ring_atomics ->
  (a = preamble_state /\ n = 4%nat) \/ (a = producer_position /\ n = 8%nat) \/
  (a = consumer_position /\ n = 8%nat).
Proof. unfold ring_atomics. rewrite !elem_of_cons, elem_of_nil. intros [[= -> ->]|[[= -> ->]|[[= -> ->]|[]]]]; auto. Qed.

Lemma state_atomic : (preamble_state, 4%nat) ∈ ring_atomics. Proof. apply list_elem_of_here. Qed.
Lemma write_atomic : (producer_position, 8%nat) ∈ ring_atomics. Proof. apply list_elem_of_further, list_elem_of_here. Qed.
Lemma read_atomic : (consumer_position, 8%nat) ∈ ring_atomics.
Proof. do 2 apply list_elem_of_further. apply list_elem_of_here. Qed.

Section Facts.
Context {m : weak} {vp vc : view} {kp : pknow} {kc : cknow} (Hinv : inv m vp vc kp kc).

(** How the positions lie. *)
Lemma inv_order : pk_read kp <= ck_read kc <= ck_write kc /\ ck_write kc <= pk_write kp.
Proof using Hinv.
  destruct Hinv as [[Hw Hws Hr Hrs _ _ _ _] [Hb Hp _ Hkr Hkw Ho Hroom Hbd _] _ _ _ _ _ _ _ _ Hcov _ _ _].
  pose proof (cv_seen _ _ _ _ (Hcov vp (or_introl eq_refl)) _ _ read_atomic).
  pose proof (prefix_length_le _ _ Hp). unfold ck_write, pk_write in *. lia.
Qed.

(** Slots of pending events are not the slot the producer may fill. *)
Lemma free_slot_apart pos b :
  pk_write kp < pk_read kp + slot_count c -> ck_read kc <= pos < pk_write kp ->
  in_slot (pk_write kp) b -> ~ in_slot pos b.
Proof using Hc Hinv.
  intros Hf Hp Hb Hb'. pose proof inv_order. unfold in_slot in *.
  destruct (slot_offset_disjoint c Hc pos (pk_write kp)) as [?|?]; [|lia|lia].
  apply slot_index_ne; [done|]. lia.
Qed.

(** The slot being read is not one the producer may come to fill. *)
Lemma head_slot_apart pos b :
  ck_read kc < pk_write kp -> pk_write kp <= pos < ck_read kc + slot_count c ->
  in_slot (ck_read kc) b -> ~ in_slot pos b.
Proof using Hc.
  clear Hinv. intros Hf Hp Hb Hb'. unfold in_slot in *.
  destruct (slot_offset_disjoint c Hc (ck_read kc) pos) as [?|?]; [|lia|lia].
  apply slot_index_ne; [done|]. lia.
Qed.

(** Nobody has seen more releases than there are. *)
Lemma seen_reads v : is_view m vp vc v -> base + Z.of_nat (v_seen v consumer_position) <= ck_read kc.
Proof using Hinv.
  intros Hv. pose proof (cv_seen _ _ _ _ (iv_covers _ _ _ _ _ Hinv v Hv) _ _ read_atomic).
  pose proof (hs_reads _ _ _ (iv_histories _ _ _ _ _ Hinv)). lia.
Qed.

Lemma seen_writes v :
  is_view m vp vc v -> base + Z.of_nat first + Z.of_nat (v_seen v producer_position) <= pk_write kp.
Proof using Hinv.
  intros Hv. pose proof (cv_seen _ _ _ _ (iv_covers _ _ _ _ _ Hinv v Hv) _ _ write_atomic).
  pose proof (hs_writes _ _ _ (iv_histories _ _ _ _ _ Hinv)). lia.
Qed.

Lemma history_view a n i msg :
  (a, n) ∈ ring_atomics -> wm_history m a !! i = Some msg -> is_view m vp vc (msg_view msg).
Proof using. intros Ha Hi. right; right. exists a, n, msg. split_and!; [done|by eapply list_elem_of_lookup_2|done]. Qed.

(** The last state is the producer's. *)
Lemma last_state msg :
  wm_history m preamble_state !! last_index m preamble_state = Some msg ->
  msg_value msg = RingState_value (pk_state kp).
Proof using Hinv.
  intros Hi. destruct (hs_state _ _ _ (iv_histories _ _ _ _ _ Hinv)) as (ss&Hss&Hl&_).
  apply (f_equal (fmap msg_value)) in Hi. change (msg_value <$> ?o) with (fmap msg_value o) in Hi.
  rewrite <- list_lookup_fmap in Hi. change (msg_value <$> wm_history m preamble_state)
    with (map msg_value (wm_history m preamble_state)) in Hi. rewrite Hss in Hi.
  apply (f_equal length) in Hss. rewrite !length_map in Hss.
  unfold last_index in Hi. rewrite Hss in Hi. change (map RingState_value ss) with (RingState_value <$> ss) in Hi.
  rewrite list_lookup_fmap, <- last_lookup, Hl in Hi. by injection Hi.
Qed.
End Facts.

(** ** Steps that only change a view *)

Definition set_pk_read (k : pknow) (r : Z) : pknow := PKnow (pk_events k) r (pk_state k) (pk_bytes k).
Definition set_pk_bytes (k : pknow) (bytes : list byte) : pknow :=
  PKnow (pk_events k) (pk_read k) (pk_state k) bytes.
Definition push (k : pknow) (ev : EventData) : pknow :=
  PKnow (pk_events k ++ [ev]) (pk_read k) (pk_state k) (pk_bytes k).
Definition close (k : pknow) : pknow :=
  PKnow (pk_events k) (pk_read k) RingState_Closed (pk_bytes k).
Definition advance (k : cknow) : cknow := CKnow (ck_events k) (ck_read k + 1) (ck_closed k) (ck_header k).

(** What the consumer learns: more events, as long as there can be more. *)
Record learns (k k' : cknow) : Prop := Learns {
  ln_read : ck_read k' = ck_read k;
  ln_events : prefix (ck_events k) (ck_events k');
  ln_closed : ck_closed k = true -> k' = k;
  ln_room : ck_write k' <= ck_read k' + slot_count c;
  ln_bound : ck_write k' <= u64_max;
  ln_fits : Forall fits (ck_events k');
  ln_header : ck_header k' = ck_header k;
}.

Lemma is_view_swap m vp vc vp' vc' v :
  is_view m vp' vc' v -> v = vp' \/ v = vc' \/ is_view m vp vc v.
Proof. intros [->|[->|H]]; [by left|right; by left|right; right; right; by right]. Qed.

Lemma inv_producer_view m vp vp' vc kp kc r :
  inv m vp vc kp kc -> view_le vp vp' -> covers m (ck_read kc) (pk_write kp) vp' ->
  v_seen vp' producer_position = v_seen vp producer_position ->
  v_seen vp' preamble_state = v_seen vp preamble_state ->
  pk_read kp <= r <= base + Z.of_nat (v_seen vp' consumer_position) ->
  inv m vp' vc (set_pk_read kp r) kc.
Proof.
  intros [Hh Hk Hw Hs Hr Hb Hl Hsl Hwr Hrd Hcv Hfn Hhd Hun] [Hck Hse] Hc' Hpw Hps Hread.
  split; try done; rewrite ?Hpw, ?Hps; try done.
  - by destruct Hh.
  - destruct Hk. split; try done; cbn in *; unfold pk_write in *; cbn; lia.
  - intros b. specialize (Hwr b). split; [apply Hwr|]. etransitivity; [apply Hwr|apply Hck].
  - intros b. specialize (Hrd b). split; [apply Hrd|]. etransitivity; [apply Hrd|apply Hck].
  - intros v [->|[->|Hv]]%(is_view_swap m vp vc); [done|..]; apply Hcv; [by right; left|done].
Qed.

Lemma inv_consumer_view m vp vc vc' kp kc kc' :
  inv m vp vc kp kc -> view_le vc vc' -> covers m (ck_read kc) (pk_write kp) vc' ->
  v_seen vc' consumer_position = v_seen vc consumer_position ->
  ck_read kc' = ck_read kc -> ck_header kc' = ck_header kc -> prefix (ck_events kc) (ck_events kc') ->
  prefix (ck_events kc') (pk_events kp) ->
  ck_write kc' <= base + Z.of_nat first + Z.of_nat (v_seen vc' producer_position) ->
  (ck_closed kc' = true -> ck_events kc' = pk_events kp /\ pk_state kp = RingState_Closed) ->
  (ck_closed kc' = true -> closed_from m (v_seen vc' preamble_state)) ->
  inv m vp vc' kp kc'.
Proof.
  intros [Hh Hk Hw Hs Hr Hb Hl Hsl Hwr Hrd Hcv Hfn Hhd Hun] [Hck Hse] Hc' Hpc Hread Hhe Hpre Hpre' Hwrite Hcl Hfn'.
  split; try done; rewrite ?Hpc, ?Hread, ?Hhe; try done.
  - destruct Hh. split; try done. by rewrite Hread.
  - destruct Hk. pose proof (prefix_length_le _ _ Hpre). split; try done.
    rewrite Hread. unfold ck_write in *. lia.
  - intros b. specialize (Hrd b). split; [|apply Hrd]. etransitivity; [apply Hrd|apply Hck].
  - intros v [->|[->|Hv]]%(is_view_swap m vp vc); [apply Hcv; by left|done|by apply Hcv].
Qed.

Lemma inv_tick_producer m vp vc kp kc : inv m vp vc kp kc -> inv m (tick Producer vp) vc kp kc.
Proof.
  intros Hinv. replace kp with (set_pk_read kp (pk_read kp)) by by destruct kp.
  apply (inv_producer_view m vp); try done; [apply tick_le| |].
  - apply covers_tick, (iv_covers _ _ _ _ _ Hinv). by left.
  - split; [done|]. apply (iv_knowledge _ _ _ _ _ Hinv).
Qed.

Lemma inv_tick_consumer m vp vc kp kc : inv m vp vc kp kc -> inv m vp (tick Consumer vc) kp kc.
Proof.
  intros Hinv. apply (inv_consumer_view m vp vc _ kp kc kc); try done; [apply tick_le|..].
  - apply covers_tick, (iv_covers _ _ _ _ _ Hinv). right; by left.
  - apply (iv_knowledge _ _ _ _ _ Hinv).
  - apply (iv_knowledge _ _ _ _ _ Hinv).
  - apply (iv_knowledge _ _ _ _ _ Hinv).
  - apply (iv_closed _ _ _ _ _ Hinv).
Qed.

(** ** Plain accesses *)

(** Bytes the producer may write: in the slot of the write position, which is free. *)
Definition free_range (k : pknow) (a : addr) (n : nat) : Prop :=
  pk_write k < pk_read k + slot_count c /\
  (slot_offset c (pk_write k) <= a)%nat /\
  (a + n <= slot_offset c (pk_write k) + Z.to_nat (stride_of c))%nat.

(** Bytes the consumer may read: in the slot of the oldest event it knows of. *)
Definition head_range (k : cknow) (a : addr) (n : nat) : Prop :=
  ck_read k < ck_write k /\ (slot_offset c (ck_read k) <= a)%nat /\
  (a + n <= slot_offset c (ck_read k) + Z.to_nat (stride_of c))%nat.

Lemma free_writable m vp vc kp kc a n :
  inv m vp vc kp kc -> free_range kp a n -> writable vp m a n = true.
Proof.
  intros Hinv (Hf&Ha&Hn). apply writable_spec. intros b Hb.
  assert (in_slot (pk_write kp) b) as Hin by (unfold in_slot; lia).
  destruct (iv_written _ _ _ _ _ Hinv b) as [Ht He]. split; [by rewrite Ht|].
  intros [].
  - apply (iv_reads _ _ _ _ _ Hinv b).
  - pose proof (kn_read _ _ _ _ (iv_knowledge _ _ _ _ _ Hinv)).
    apply (cv_read _ _ _ _ (iv_covers _ _ _ _ _ Hinv vp (or_introl eq_refl)) (pk_write kp) b); [lia|done].
Qed.

Lemma head_readable m vp vc kp kc a n :
  inv m vp vc kp kc -> head_range kc a n -> readable vc m a n = true.
Proof.
  intros Hinv (Hf&Ha&Hn). apply readable_spec. intros b Hb.
  assert (in_slot (ck_read kc) b) as Hin by (unfold in_slot; lia).
  destruct (iv_written _ _ _ _ _ Hinv b) as [-> _].
  pose proof (kn_write _ _ _ _ (iv_knowledge _ _ _ _ _ Hinv)).
  apply (cv_written _ _ _ _ (iv_covers _ _ _ _ _ Hinv vc (or_intror (or_introl eq_refl))) (ck_read kc) b);
    [lia|done].
Qed.

Lemma range_plain k a n : free_range k a n -> is_plain a n = true.
Proof. intros (_&Ha&_). pose proof (slot_offset_in c Hc (pk_write k)). apply slots_plain. lia. Qed.

Lemma head_plain k a n : head_range k a n -> is_plain a n = true.
Proof. intros (_&Ha&_). pose proof (slot_offset_in c Hc (ck_read k)). apply slots_plain. lia. Qed.

(** A slot is full as long as nothing is written to it. *)
Lemma slot_full_frame m m' a n pos ev :
  same_outside m m' a n -> (0 < n)%nat ->
  (forall b, (a <= b < a + n)%nat -> ~ in_slot pos b) -> slot_full m pos ev -> slot_full m' pos ev.
Proof.
  intros HS Hn Hap (Hh&Hr&Hev&Hp). destruct (event_fits c ev Hc Hp) as [Hfit _].
  pose proof (stride_of_min c Hc).
  assert (slot_offset c pos + Z.to_nat (stride_of c) <= a \/ a + n <= slot_offset c pos)%nat as Hd.
  { pose proof (Hap a ltac:(lia)) as H1.
    destruct (decide (slot_offset c pos < a + n)%nat); [|lia]. unfold in_slot in *.
    destruct (decide (a <= slot_offset c pos)%nat); [|lia].
    pose proof (Hap (slot_offset c pos) ltac:(lia)). unfold in_slot in *. lia. }
  split_and!; try done.
  - eapply slot_holds_frame; [exact HS|lia|done].
  - eapply slot_reserved_frame; [exact HS|lia|done].
Qed.

Lemma store_nothing m off m' : store_bytes m off [] = Some m' -> m' = m.
Proof. unfold store_bytes. case_decide; [|done]. by intros [= <-]. Qed.

Lemma inv_write m vp vc kp kc a bs bytes :
  inv m vp vc kp kc -> free_range kp a (length bs) -> store_bytes (pk_bytes kp) a bs = Some bytes ->
  inv (record_write Producer vp m a (length bs) bytes) vp vc (set_pk_bytes kp bytes) kc.
Proof.
  intros Hinv Hfree Hstore. pose proof Hinv as [Hh Hk Hw Hs Hr Hb Hl Hsl Hwr Hrd Hcv Hfn Hhd Hun].
  pose proof (store_same_outside _ _ _ _ Hstore) as HS. pose proof (inv_order Hinv) as Ho.
  assert (Hap : forall pos b, (a <= b < a + length bs)%nat -> ck_read kc <= pos < pk_write kp -> ~ in_slot pos b).
  { intros pos b Hrange Hp. apply (free_slot_apart Hinv); [apply Hfree|done|].
    destruct Hfree as (_&?&?). unfold in_slot. lia. }
  split; try done; cbn [record_write wm_bytes wm_written wm_read wm_history set_pk_bytes pk_bytes pk_events].
  - by destruct Hh.
  - by destruct Hk.
  - rewrite (store_bytes_length _ _ _ _ Hstore), <- Hb. done.
  - intros i ev Hi Hge. destruct bs as [|x bs]; [apply store_nothing in Hstore as ->; by apply Hsl|].
    eapply slot_full_frame; [exact HS|simpl; lia| |by apply Hsl].
    intros b Hrange. apply Hap; [done|]. apply lookup_lt_Some in Hi. unfold pk_write. lia.
  - intros b. destruct (in_range a (length bs) b); [by split|apply Hwr].
  - intros v Hv. assert (is_view m vp vc v) as Hv' by exact Hv. pose proof (seen_writes Hinv v Hv').
    destruct (Hcv v Hv') as [H1 H2 H3]. split; try done.
    intros pos b Hp Hin. cbn. destruct (in_range a (length bs) b) eqn:Hrange; [|by apply (H2 pos)].
    apply in_range_spec in Hrange. exfalso. revert Hin. apply Hap; [done|lia].
  - destruct Hfree as (_&Ha&_). pose proof (slot_offset_in c Hc (pk_write kp)).
    rewrite (proj2 HS) by lia. by rewrite <- Hb.
  - intros b Hlt. destruct Hfree as (_&Ha&_). pose proof (slot_offset_in c Hc (pk_write kp)).
    destruct (in_range a (length bs) b) eqn:Hrange; [|by apply Hun].
    apply in_range_spec in Hrange. lia.
Qed.

(** A read by the consumer away from the slots the producer may come to fill. *)
Lemma inv_read_apart m vp vc kp kc a n :
  inv m vp vc kp kc ->
  (forall pos b, pk_write kp <= pos < ck_read kc + slot_count c -> (a <= b < a + n)%nat -> ~ in_slot pos b) ->
  inv (record_read Consumer vc m a n) vp vc kp kc.
Proof.
  intros Hinv Hap. pose proof Hinv as [Hh Hk Hw Hs Hr Hb Hl Hsl Hwr Hrd Hcv Hfn Hhd Hun]. split; try done.
  - by destruct Hh.
  - intros b. cbn. specialize (Hrd b). destruct (bool_decide _ && _); split; apply Hrd || done.
  - intros v Hv. assert (is_view m vp vc v) as Hv' by exact Hv. pose proof (seen_reads Hinv v Hv').
    destruct (Hcv v Hv') as [H1 H2 H3]. split; try done.
    intros pos b Hp Hin. cbn. rewrite bool_decide_true by done. cbn [andb].
    destruct (in_range a n b) eqn:Hrange; [|by apply (H3 pos)].
    apply in_range_spec in Hrange. exfalso. revert Hin. apply Hap; [lia|done].
Qed.

Lemma inv_read m vp vc kp kc a n :
  inv m vp vc kp kc -> head_range kc a n -> inv (record_read Consumer vc m a n) vp vc kp kc.
Proof.
  intros Hinv (Hhead&Ha&Hn). pose proof (inv_order Hinv) as Ho. apply inv_read_apart; [done|].
  intros pos b Hp Hb. apply (head_slot_apart (kp:=kp) (kc:=kc)); [lia|lia|]. unfold in_slot. lia.
Qed.

(** Bytes of the header that belong to no atomic. *)
Definition header_range (a : addr) (n : nat) : Prop := is_plain a n = true /\ (a + n <= 192)%nat.

Lemma inv_read_header m vp vc kp kc a n :
  inv m vp vc kp kc -> header_range a n -> inv (record_read Consumer vc m a n) vp vc kp kc.
Proof.
  intros Hinv [_ Hn]. apply inv_read_apart; [done|]. intros pos b _ Hb Hin. unfold in_slot in Hin.
  pose proof (slot_offset_in c Hc pos). lia.
Qed.

Lemma header_readable m vp vc kp kc v a n :
  inv m vp vc kp kc -> header_range a n -> readable v m a n = true.
Proof.
  intros Hinv [_ Hn]. apply readable_spec. intros b Hb. rewrite (iv_unwritten _ _ _ _ _ Hinv) by lia. lia.
Qed.

(** The header reads what it held at the start. *)
Lemma header_bytes m vp vc kp kc a n :
  inv m vp vc kp kc -> header_range a n -> load_bytes (wm_bytes m) a n = load_bytes (ck_header kc) a n.
Proof.
  intros Hinv [_ Hn]. pose proof (iv_header _ _ _ _ _ Hinv) as Hh. unfold load_bytes in *.
  destruct (decide (0 + 192 <= length (wm_bytes m))%nat) as [Hl|]; [|done]. injection Hh as Hh.
  rewrite drop_0 in Hh. subst. rewrite <- Hh, length_take, !decide_True by lia.
  f_equal. rewrite skipn_firstn_comm, take_take. f_equal. lia.
Qed.

(** ** Release stores *)

Lemma history_same m a msg : wm_history (append_message m a msg) a = wm_history m a ++ [msg].
Proof. cbn. by rewrite decide_True. Qed.

Lemma history_other m a b msg : b <> a -> wm_history (append_message m a msg) b = wm_history m b.
Proof. intros Hne. cbn. by rewrite decide_False. Qed.

Lemma history_length m a b msg :
  (length (wm_history m b) <= length (wm_history (append_message m a msg) b))%nat.
Proof. cbn. case_decide; [rewrite length_app|]; lia. Qed.

Lemma last_index_same m a msg : last_index (append_message m a msg) a = length (wm_history m a).
Proof. unfold last_index. rewrite history_same, length_app. simpl. lia. Qed.

Lemma last_index_other m a b msg : b <> a -> last_index (append_message m a msg) b = last_index m b.
Proof. intros. unfold last_index. by rewrite history_other. Qed.

Lemma covers_append m a msg r w v : covers m r w v -> covers (append_message m a msg) r w v.
Proof.
  intros [H1 H2 H3]. split; [|done..]. intros b n Hb. specialize (H1 b n Hb).
  pose proof (history_length m a b msg). lia.
Qed.

(** The view of a thread that has just stored to [a]. *)
Definition stored (m : weak) (a : addr) (v : view) : view := see a (length (wm_history m a)) v.

Lemma stored_seen m a v b : b <> a -> v_seen (stored m a v) b = v_seen v b.
Proof. intros. cbn. by rewrite decide_False. Qed.

Lemma stored_last m a v : v_seen (stored m a v) a = length (wm_history m a).
Proof. cbn. by rewrite decide_True. Qed.

(** The views after a store by a thread with view [v]. *)
Lemma is_view_append m a value v vp vp' vc vc' u :
  (vp' = vp \/ vp' = stored m a v) -> (vc' = vc \/ vc' = stored m a v) ->
  is_view (append_message m a (Message value (stored m a v))) vp' vc' u ->
  u = stored m a v \/ is_view m vp vc u.
Proof.
  intros Hp Hv [->|[->|(b&k&msg&Hb&Hin&->)]].
  - destruct Hp as [->| ->]; [right|]; by left.
  - destruct Hv as [->| ->]; [right; right|]; by left.
  - destruct (decide (b = a)) as [->|Hne].
    + rewrite history_same in Hin. apply elem_of_app in Hin as [Hin|Hin%list_elem_of_singleton].
      * right; right; right. by exists a, k, msg.
      * left. by subst msg.
    + rewrite history_other in Hin by done. right; right; right. by exists b, k, msg.
Qed.

(** The new message carries its own position. *)
Lemma own_append m a value v b i msg :
  (forall i msg, wm_history m b !! i = Some msg -> (i <= v_seen (msg_view msg) b)%nat) ->
  wm_history (append_message m a (Message value (stored m a v))) b !! i = Some msg ->
  (i <= v_seen (msg_view msg) b)%nat.
Proof.
  intros Hold Hi. destruct (decide (b = a)) as [->|Hne].
  - rewrite history_same in Hi. apply lookup_snoc_Some in Hi as [[_ Hi]|[-> <-]]; [by apply Hold|].
    cbn [msg_view]. by rewrite stored_last.
  - rewrite history_other in Hi by done. by apply Hold.
Qed.

#[local] Ltac distinct := unfold preamble_state, producer_position, consumer_position; lia.

Lemma inv_publish m vp vc kp kc ev :
  inv m vp vc kp kc -> pk_state kp <> RingState_Closed -> pk_write kp < pk_read kp + slot_count c ->
  pk_write kp < u64_max -> slot_full (pk_bytes kp) (pk_write kp) ev ->
  let v := stored m producer_position vp in
  inv (append_message m producer_position (Message (pk_write kp + 1) v)) v vc (push kp ev) kc.
Proof.
  intros Hinv Hopen Hfree Hmax Hfull v. pose proof (inv_order Hinv) as Ho.
  pose proof Hinv as [[Hw Hws Hr Hrs Hss Hcl Hown Hfin] Hk Hpw Hps Hpr Hb Hl Hsl Hwr Hrd Hcv Hfn Hhd Hun].
  assert (Hpush : pk_write (push kp ev) = pk_write kp + 1).
  { unfold pk_write, push. cbn [pk_events]. rewrite length_app. simpl. lia. }
  assert (Hle : view_le vp v).
  { apply see_last_le. apply (cv_seen _ _ _ _ (Hcv vp (or_introl eq_refl)) _ _ write_atomic). }
  assert (Hold : forall u, is_view m vp vc u -> covers m (ck_read kc) (pk_write kp + 1) u).
  { intros u Hu. eapply covers_advance; [by apply Hcv|lia|lia]. }
  assert (Hv : covers (append_message m producer_position (Message (pk_write kp + 1) v))
                 (ck_read kc) (pk_write kp + 1) v).
  { destruct (Hold vp (or_introl eq_refl)) as [H1 H2 H3]. split.
    - intros b n Hbn. destruct (decide (b = producer_position)) as [->|Hne].
      + rewrite history_same, length_app. unfold v. rewrite stored_last. simpl. lia.
      + rewrite history_other by done. unfold v. rewrite stored_seen by done. by apply (H1 b n).
    - intros pos b Hp Hin. apply Hwr.
    - intros pos b Hp. unfold v in *. rewrite stored_seen in Hp by distinct. by apply H3. }
  split; rewrite ?Hpush; try done.
  - split; rewrite ?Hpush; try done.
    + intros i msg Hi. rewrite history_same in Hi.
      apply lookup_snoc_Some in Hi as [[_ Hi]|[-> <-]]; [by apply Hw|]. cbn [msg_value]. lia.
    + rewrite history_same, length_app. simpl. lia.
    + intros msg Hin Hval. destruct (Hcl msg Hin Hval). done.
    + intros a n i msg Ha Hi. eapply own_append; [|exact Hi]. intros j mj Hj. by eapply Hown.
  - destruct Hk. split; rewrite ?Hpush; try done; try lia.
    + etransitivity; [done|]. by eexists.
    + intros Hcd. by destruct (kn_closed0 Hcd).
    + cbn [push pk_read]. lia.
    + apply Forall_app. split; [done|]. constructor; [apply Hfull|done].
  - rewrite last_index_same. apply stored_last.
  - intros i e Hi Hge. apply lookup_snoc_Some in Hi as [[_ Hi]|[-> <-]]; [by apply Hsl|exact Hfull].
  - intros u Hu. apply (is_view_append m _ _ vp vp _ vc) in Hu as [->|Hu]; [done| |by right|by left].
    by apply covers_append, Hold.
Qed.

(** In bounds after the store. *)
Lemma stored_in_bounds m a msg v :
  (forall b n, (b, n) ∈ ring_atomics -> (v_seen v b < length (wm_history m b))%nat) ->
  forall b n, (b, n) ∈ ring_atomics ->
    (v_seen (stored m a v) b < length (wm_history (append_message m a msg) b))%nat.
Proof.
  intros H b n Hb. destruct (decide (b = a)) as [->|Hne].
  - rewrite history_same, length_app, stored_last. simpl. lia.
  - rewrite history_other, stored_seen by done. by apply (H b n).
Qed.

Lemma inv_close m vp vc kp kc :
  inv m vp vc kp kc ->
  let v := stored m preamble_state vp in
  inv (append_message m preamble_state (Message (RingState_value RingState_Closed) v)) v vc (close kp) kc.
Proof.
  intros Hinv v. pose proof Hinv as [[Hw Hws Hr Hrs (ss&Hss&Hlast&Huse) Hcl Hown Hfin] Hk Hpw Hps Hpr Hb Hl Hsl Hwr Hrd Hcv Hfn Hhd Hun].
  assert (Hseen : forall b, b <> preamble_state -> v_seen v b = v_seen vp b)
    by (intros; by apply stored_seen).
  assert (Hv : covers (append_message m preamble_state (Message (RingState_value RingState_Closed) v))
                 (ck_read kc) (pk_write kp) v).
  { destruct (Hcv vp (or_introl eq_refl)) as [H1 H2 H3]. split; [by apply stored_in_bounds| |].
    - intros pos b Hp. rewrite Hseen in Hp by distinct. by apply H2.
    - intros pos b Hp. rewrite Hseen in Hp by distinct. by apply H3. }
  split; try done.
  - split; try done.
    + exists (ss ++ [RingState_Closed]). rewrite history_same, !map_app, Hss, last_snoc.
      split; [done|]. split; [done|]. apply Forall_app. split; [done|]. constructor; [by right|done].
    + intros msg Hin Hval. split; [done|]. rewrite last_index_other by distinct.
      rewrite history_same in Hin. apply elem_of_app in Hin as [Hin|Hin%list_elem_of_singleton].
      * by destruct (Hcl msg Hin Hval).
      * subst msg. cbn [msg_view]. rewrite Hseen by distinct. done.
    + intros a n i msg Ha Hi. eapply own_append; [|exact Hi]. intros j mj Hj. by eapply Hown.
    + intros i j msgi msgj Hij Hi Hj. rewrite history_same in *.
      apply lookup_snoc_Some in Hj as [[Hjl Hj]|[-> <-]]; [|done].
      apply lookup_snoc_Some in Hi as [[_ Hi]|[-> _]]; [exact (Hfin i j _ _ Hij Hi Hj)|lia].
  - destruct Hk. split; try done. intros Hcd. split; [by apply kn_closed0|done].
  - rewrite last_index_same. apply stored_last.
  - intros u Hu. apply (is_view_append m _ _ vp vp _ vc) in Hu as [->|Hu]; [done| |by right|by left].
    by apply covers_append, Hcv.
  - intros Hcd i msg Hge Hi. rewrite history_same in Hi.
    apply lookup_snoc_Some in Hi as [[_ Hi]|[_ <-]]; [by eapply Hfn|done].
Qed.

Lemma inv_release m vp vc kp kc :
  inv m vp vc kp kc -> ck_read kc < ck_write kc ->
  let v := stored m consumer_position vc in
  inv (append_message m consumer_position (Message (ck_read kc + 1) v)) vp v kp (advance kc).
Proof.
  intros Hinv Hhead v. pose proof (inv_order Hinv) as Ho.
  pose proof Hinv as [[Hw Hws Hr Hrs Hss Hcl Hown Hfin] Hk Hpw Hps Hpr Hb Hl Hsl Hwr Hrd Hcv Hfn Hhd Hun].
  assert (Hseen : forall b, b <> consumer_position -> v_seen v b = v_seen vc b)
    by (intros; by apply stored_seen).
  assert (Hold : forall u, is_view m vp vc u -> covers m (ck_read kc + 1) (pk_write kp) u).
  { intros u Hu. eapply covers_advance; [by apply Hcv|lia|lia]. }
  assert (Hv : covers (append_message m consumer_position (Message (ck_read kc + 1) v))
                 (ck_read kc + 1) (pk_write kp) v).
  { destruct (Hold vc (or_intror (or_introl eq_refl))) as [H1 H2 H3]. split; [by apply stored_in_bounds| |].
    - intros pos b Hp. rewrite Hseen in Hp by distinct. by apply H2.
    - intros pos b Hp Hin. apply Hrd. }
  split; try done.
  - split; try done.
    + intros i msg Hi. rewrite history_same in Hi.
      apply lookup_snoc_Some in Hi as [[_ Hi]|[-> <-]]; [by apply Hr|]. cbn [msg_value]. lia.
    + rewrite history_same, length_app. cbn [advance ck_read]. simpl. lia.
    + intros a n i msg Ha Hi. eapply own_append; [|exact Hi]. intros j mj Hj. by eapply Hown.
  - destruct Hk. split; try done.
    + unfold ck_write in *. cbn [advance ck_read ck_events]. lia.
  - rewrite last_index_same. apply stored_last.
  - intros i ev Hi Hge. cbn [advance ck_read] in Hge. apply Hsl; [done|lia].
  - intros u Hu. apply (is_view_append m _ _ vc vp _ vc) in Hu as [->|Hu]; [done| |by left|by right].
    by apply covers_append, Hold.
Qed.

(** ** Atomic loads *)

(** A load that acquires, or reads what the thread has already seen. *)
Definition may_load (o : memory_order) (v : view) (a : addr) (i : nat) : Prop :=
  o = memory_order_acquire \/ (o = memory_order_relaxed /\ i = v_seen v a).

Lemma covers_load m vp vc kp kc v o a n i msg :
  inv m vp vc kp kc -> is_view m vp vc v -> (a, n) ∈ ring_atomics ->
  wm_history m a !! i = Some msg -> may_load o v a i ->
  covers m (ck_read kc) (pk_write kp) (read_message o v a i msg).
Proof.
  intros Hinv Hv Ha Hi Ho. pose proof (iv_covers _ _ _ _ _ Hinv) as Hcv. destruct Ho as [->|[-> ->]].
  - apply covers_acquire; [by apply Hcv|by eapply Hcv, history_view|].
    by eapply (hs_own _ _ _ (iv_histories _ _ _ _ _ Hinv)).
  - apply (covers_weaken _ _ _ v); [by apply Hcv| |done].
    intros b. unfold read_message. rewrite decide_False by done. cbn. case_decide; subst; lia.
Qed.

(** What has been seen to the end stays seen to the end. *)
Lemma seen_last m vp vc kp kc v v' a n :
  inv m vp vc kp kc -> (a, n) ∈ ring_atomics -> covers m (ck_read kc) (pk_write kp) v' ->
  view_le v v' -> v_seen v a = last_index m a -> v_seen v' a = v_seen v a.
Proof.
  intros Hinv Ha Hc' [_ Hle] Hl. pose proof (cv_seen _ _ _ _ Hc' a n Ha). specialize (Hle a).
  unfold last_index in *. lia.
Qed.

Lemma inv_producer_load m vp vc kp kc o a n i msg r :
  inv m vp vc kp kc -> (a, n) ∈ ring_atomics -> wm_history m a !! i = Some msg -> may_load o vp a i ->
  pk_read kp <= r <= base + Z.of_nat (v_seen (read_message o vp a i msg) consumer_position) ->
  inv m (read_message o vp a i msg) vc (set_pk_read kp r) kc.
Proof.
  intros Hinv Ha Hi Ho Hr. pose proof (covers_load _ _ _ _ _ vp o a n i msg Hinv (or_introl eq_refl) Ha Hi Ho) as Hc'.
  pose proof (read_message_le o vp a i msg) as Hle.
  apply (inv_producer_view m vp); try done.
  - eapply seen_last; [done|apply write_atomic|done..|apply (iv_own_write _ _ _ _ _ Hinv)].
  - eapply seen_last; [done|apply state_atomic|done..|apply (iv_own_state _ _ _ _ _ Hinv)].
Qed.

Lemma inv_consumer_load m vp vc kp kc kc' o a n i msg :
  inv m vp vc kp kc -> (a, n) ∈ ring_atomics -> wm_history m a !! i = Some msg -> may_load o vc a i ->
  ck_read kc' = ck_read kc -> ck_header kc' = ck_header kc -> prefix (ck_events kc) (ck_events kc') ->
  prefix (ck_events kc') (pk_events kp) ->
  ck_write kc' <= base + Z.of_nat first +
    Z.of_nat (v_seen (read_message o vc a i msg) producer_position) ->
  (ck_closed kc' = true -> ck_events kc' = pk_events kp /\ pk_state kp = RingState_Closed) ->
  (ck_closed kc' = true -> closed_from m (v_seen (read_message o vc a i msg) preamble_state)) ->
  inv m vp (read_message o vc a i msg) kp kc'.
Proof.
  intros Hinv Ha Hi Ho Hr Hhe Hp Hp' Hw Hcl Hfn.
  pose proof (covers_load _ _ _ _ _ vc o a n i msg Hinv (or_intror (or_introl eq_refl)) Ha Hi Ho) as Hc'.
  pose proof (read_message_le o vc a i msg) as Hle.
  apply (inv_consumer_view m vp vc _ kp kc); try done.
  eapply seen_last; [done|apply read_atomic|done..|apply (iv_own_read _ _ _ _ _ Hinv)].
Qed.

Lemma closed_from_le m i j : closed_from m i -> (i <= j)%nat -> closed_from m j.
Proof. intros H Hij k msg Hk. apply H. lia. Qed.

(** What the consumer has seen closed stays closed. *)
Lemma closed_load m vp vc kp kc o a i msg :
  inv m vp vc kp kc -> ck_closed kc = true ->
  closed_from m (v_seen (read_message o vc a i msg) preamble_state).
Proof.
  intros Hinv Hcl. eapply closed_from_le; [by eapply iv_closed|]. apply read_message_le.
Qed.

(** The message a thread picks. *)
Lemma pick_message m vp vc kp kc v a n choice :
  inv m vp vc kp kc -> is_view m vp vc v -> (a, n) ∈ ring_atomics ->
  exists msg, wm_history m a !! pick v m a choice = Some msg /\
    (v_seen v a <= pick v m a choice <= last_index m a)%nat.
Proof.
  intros Hinv Hv Ha. pose proof (cv_seen _ _ _ _ (iv_covers _ _ _ _ _ Hinv v Hv) a n Ha).
  unfold pick, last_index in *.
  destruct (lookup_lt_is_Some_2 (wm_history m a)
    (Nat.min (v_seen v a + choice) (pred (length (wm_history m a))))) as [msg Hmsg]; [lia|].
  exists msg. split; [done|lia].
Qed.

Lemma pick_own m v a choice :
  v_seen v a = last_index m a -> pick v m a choice = last_index m a.
Proof. unfold pick, last_index. lia. Qed.

(** ** What the producer may do *)

Definition atomic_load (o : memory_order) : Prop := o = memory_order_relaxed \/ o = memory_order_acquire.

Fixpoint safe_producer {A} (p : prog A) (k : pknow) (Q : A -> pknow -> Prop) : Prop :=
  match p with
  | Ret a => Q a k
  | Load o w a f =>
      (a = preamble_state /\ w = 4%nat /\ atomic_load o /\
         safe_producer (f (RingState_value (pk_state k))) k Q) \/
      (a = producer_position /\ w = 8%nat /\ atomic_load o /\ safe_producer (f (pk_write k)) k Q) \/
      (a = consumer_position /\ w = 8%nat /\ o = memory_order_acquire /\
         forall r, pk_read k <= r <= pk_write k -> safe_producer (f r) (set_pk_read k r) Q)
  | Store o w a value f =>
      (o = nonatomic /\ aligned w a = true /\ free_range k a w /\
         exists bytes, store_word (pk_bytes k) a w value = Some bytes /\
           safe_producer f (set_pk_bytes k bytes) Q) \/
      (o = memory_order_release /\ a = producer_position /\ w = 8%nat /\ value = pk_write k + 1 /\
         pk_state k <> RingState_Closed /\ pk_write k < pk_read k + slot_count c /\
         pk_write k < u64_max /\
         exists ev, slot_full (pk_bytes k) (pk_write k) ev /\ safe_producer f (push k ev) Q) \/
      (o = memory_order_release /\ a = preamble_state /\ w = 4%nat /\
         value = RingState_value RingState_Closed /\ safe_producer f (close k) Q)
  | WriteBytes a bs f =>
      free_range k a (length bs) /\
      exists bytes, store_bytes (pk_bytes k) a bs = Some bytes /\ safe_producer f (set_pk_bytes k bytes) Q
  | ReadBytes _ _ _ | Fault => False
  end.

(** ** What the consumer may do *)

Definition head_event (k : cknow) (ev : EventData) : Prop :=
  ck_events k !! Z.to_nat (ck_read k - base) = Some ev.

(** Every segment with [ev] in the slot at [pos] gives the same answer. *)
Definition in_full_slot {B} (pos : Z) (ev : EventData) (f : list byte -> option B) (b : B) : Prop :=
  forall m, length m = Z.to_nat (segment_size c) -> slot_full m pos ev -> f m = Some b.

Fixpoint safe_consumer {A} (p : prog A) (k : cknow) (Q : A -> cknow -> Prop) : Prop :=
  match p with
  | Ret a => Q a k
  | Load o w a f =>
      (a = consumer_position /\ w = 8%nat /\ atomic_load o /\ safe_consumer (f (ck_read k)) k Q) \/
      (a = preamble_state /\ w = 4%nat /\ o = memory_order_acquire /\
         forall s k', learns k k' -> s = RingState_Ready \/ s = RingState_Closed ->
           (s = RingState_Closed <-> ck_closed k' = true) ->
           safe_consumer (f (RingState_value s)) k' Q) \/
      (a = producer_position /\ w = 8%nat /\ o = memory_order_acquire /\
         forall k', learns k k' -> ck_closed k' = ck_closed k ->
           safe_consumer (f (ck_write k')) k' Q) \/
      (o = nonatomic /\ aligned w a = true /\ head_range k a w /\
         exists ev value, head_event k ev /\
           in_full_slot (ck_read k) ev (fun m => load_word m a w) value /\ safe_consumer (f value) k Q) \/
      (o = nonatomic /\ aligned w a = true /\ header_range a w /\
         exists value, load_word (ck_header k) a w = Some value /\ safe_consumer (f value) k Q)
  | Store o w a value f =>
      o = memory_order_release /\ a = consumer_position /\ w = 8%nat /\ value = ck_read k + 1 /\
      ck_read k < ck_write k /\ safe_consumer f (advance k) Q
  | ReadBytes a n f =>
      (head_range k a n /\
       exists ev bs, head_event k ev /\ in_full_slot (ck_read k) ev (fun m => load_bytes m a n) bs /\
         safe_consumer (f bs) k Q) \/
      (header_range a n /\ exists bs, load_bytes (ck_header k) a n = Some bs /\ safe_consumer (f bs) k Q)
  | WriteBytes _ _ _ | Fault => False
  end.

Lemma safe_producer_bind {A B} (p : prog A) (f : A -> prog B) k Q :
  safe_producer p k (fun a k => safe_producer (f a) k Q) -> safe_producer (p ≫= f) k Q.
Proof.
  unfold mbind, prog_mbind. revert k.
  induction p as [a|o w a g IH|o w a v g IH|a n g IH|a bs g IH|]; intros k; cbn; try done.
  - intros [(?&?&?&H)|[(?&?&?&H)|(?&?&?&H)]]; [left|right; left|right; right]; split_and!; auto.
  - intros [(?&?&?&bytes&?&H)|[(?&?&?&?&?&?&?&ev&?&H)|(?&?&?&?&H)]];
      [left|right; left|right; right]; split_and!; eauto.
  - intros (?&bytes&?&H). split; eauto.
Qed.

Lemma safe_consumer_bind {A B} (p : prog A) (f : A -> prog B) k Q :
  safe_consumer p k (fun a k => safe_consumer (f a) k Q) -> safe_consumer (p ≫= f) k Q.
Proof.
  unfold mbind, prog_mbind. revert k.
  induction p as [a|o w a g IH|o w a v g IH|a n g IH|a bs g IH|]; intros k; cbn; try done.
  - intros [(?&?&?&H)|[(?&?&?&H)|[(?&?&?&H)|[(?&?&?&ev&v&?&?&H)|(?&?&?&v&?&H)]]]];
      [left|right; left|right; right; left|right; right; right; left|right; right; right; right];
      split_and!; eauto 6.
  - intros (?&?&?&?&?&H). split_and!; auto.
  - intros [(?&ev&bs&?&?&H)|(?&bs&?&H)]; [left|right]; split; eauto 6.
Qed.

Lemma safe_producer_mono {A} (p : prog A) k (Q Q' : A -> pknow -> Prop) :
  (forall a k, Q a k -> Q' a k) -> safe_producer p k Q -> safe_producer p k Q'.
Proof.
  intros HQ. revert k. induction p as [a|o w a g IH|o w a v g IH|a n g IH|a bs g IH|]; intros k; cbn; auto.
  - intros [(?&?&?&H)|[(?&?&?&H)|(?&?&?&H)]]; [left|right; left|right; right]; split_and!; auto.
  - intros [(?&?&?&bytes&?&H)|[(?&?&?&?&?&?&?&ev&?&H)|(?&?&?&?&H)]];
      [left|right; left|right; right]; split_and!; eauto.
  - intros (?&bytes&?&H). split; eauto.
Qed.

Lemma safe_consumer_mono {A} (p : prog A) k (Q Q' : A -> cknow -> Prop) :
  (forall a k, Q a k -> Q' a k) -> safe_consumer p k Q -> safe_consumer p k Q'.
Proof.
  intros HQ. revert k. induction p as [a|o w a g IH|o w a v g IH|a n g IH|a bs g IH|]; intros k; cbn; auto.
  - intros [(?&?&?&H)|[(?&?&?&H)|[(?&?&?&H)|[(?&?&?&ev&v&?&?&H)|(?&?&?&v&?&H)]]]];
      [left|right; left|right; right; left|right; right; right; left|right; right; right; right];
      split_and!; eauto 6.
  - intros (?&?&?&?&?&H). split_and!; auto.
  - intros [(?&ev&bs&?&?&H)|(?&bs&?&H)]; [left|right]; split; eauto 6.
Qed.

(** ** Soundness *)

Lemma set_pk_read_same k : set_pk_read k (pk_read k) = k.
Proof. by destruct k. Qed.

(** Loading a location the producer owns. *)
Lemma producer_own_load m vp vc kp kc o a n choice :
  inv m vp vc kp kc -> (a, n) ∈ ring_atomics -> atomic_load o -> v_seen vp a = last_index m a ->
  exists msg, wm_history m a !! pick vp m a choice = Some msg /\
    wm_history m a !! last_index m a = Some msg /\
    inv m (read_message o vp a (pick vp m a choice) msg) vc kp kc.
Proof.
  intros Hinv Ha Ho Hlast.
  destruct (pick_message m vp vc kp kc vp a n choice Hinv (or_introl eq_refl) Ha) as (msg&Hmsg&_).
  exists msg. split; [done|]. split; [by rewrite <- (pick_own m vp a choice)|].
  rewrite <- (set_pk_read_same kp). apply (inv_producer_load _ _ _ _ _ _ _ n); try done.
  - destruct Ho as [->| ->]; [right|by left]. split; [done|]. by rewrite Hlast, pick_own.
  - split; [done|]. etransitivity; [apply (kn_read _ _ _ _ (iv_knowledge _ _ _ _ _ Hinv))|].
    destruct (read_message_le o vp a (pick vp m a choice) msg) as [_ Hs]. specialize (Hs consumer_position). lia.
Qed.

Lemma aligned_state : aligned 4 preamble_state = true. Proof. done. Qed.
Lemma aligned_write : aligned 8 producer_position = true. Proof. done. Qed.
Lemma aligned_read : aligned 8 consumer_position = true. Proof. done. Qed.

Lemma is_atomic_true a n : (a, n) ∈ ring_atomics -> is_atomic a n = true.
Proof. apply bool_decide_eq_true. Qed.

(** A load that may be relaxed or acquire, computed. *)
Lemma access_load {A} t choice v m o w a (f : Z -> prog A) msg :
  atomic_load o -> aligned w a = true -> (a, w) ∈ ring_atomics ->
  wm_history m a !! pick (tick t v) m a choice = Some msg ->
  access t choice v m (Load o w a f) =
    Some (read_message o (tick t v) a (pick (tick t v) m a choice) msg, m, f (msg_value msg)).
Proof.
  intros Ho Ha Hat Hmsg. destruct Ho as [->| ->]; unfold access; rewrite Ha, is_atomic_true by done;
    cbn [andb]; cbv zeta; by rewrite Hmsg.
Qed.

Lemma access_release {A} t choice v m w a value (f : prog A) :
  aligned w a = true -> (a, w) ∈ ring_atomics ->
  access t choice v m (Store memory_order_release w a value f) =
    let v := stored m a (tick t v) in
    Some (v, append_message m a (Message (wrap (Z.of_nat w * 8) value) v), f).
Proof. intros Ha Hat. cbn. by rewrite Ha, is_atomic_true. Qed.

Lemma in_slot_bounds pos a n :
  (slot_offset c pos <= a)%nat -> (a + n <= slot_offset c pos + Z.to_nat (stride_of c))%nat ->
  (a + n <= Z.to_nat (segment_size c))%nat.
Proof. intros. pose proof (slot_offset_in c Hc pos). lia. Qed.

(** A step of the producer, whatever message it reads, is defined and keeps the
    invariant; the consumer knows what it knew. *)
Theorem safe_producer_sound {A} m vp vc kp kc (p : prog A) Q choice :
  inv m vp vc kp kc -> safe_producer p kp Q -> finished p = false ->
  exists v' m' p' kp', access Producer choice vp m p = Some (v', m', p') /\
    inv m' v' vc kp' kc /\ safe_producer p' kp' Q.
Proof.
  intros Hinv Hsafe Hfin. apply inv_tick_producer in Hinv.
  pose proof (iv_bytes _ _ _ _ _ Hinv) as Hb.
  destruct p as [a|o w a f|o w a value f|a n f|a bs f|]; cbn [safe_producer] in Hsafe; try done.
  - destruct Hsafe as [(->&->&Ho&Hs)|[(->&->&Ho&Hs)|(->&->&->&Hs)]].
    + destruct (producer_own_load m _ vc kp kc o _ _ choice Hinv state_atomic Ho
        (iv_own_state _ _ _ _ _ Hinv)) as (msg&Hmsg&Hlast&Hinv').
      rewrite (access_load _ _ _ _ _ _ _ _ msg) by (done || apply state_atomic).
      rewrite (last_state Hinv msg Hlast). by eexists _, _, _, kp.
    + destruct (producer_own_load m _ vc kp kc o _ _ choice Hinv write_atomic Ho
        (iv_own_write _ _ _ _ _ Hinv)) as (msg&Hmsg&Hlast&Hinv').
      rewrite (access_load _ _ _ _ _ _ _ _ msg) by (done || apply write_atomic).
      assert (msg_value msg = pk_write kp) as ->; [|by eexists _, _, _, kp].
      pose proof (iv_histories _ _ _ _ _ Hinv) as [Hw Hws _ _ _ _ _ _]. rewrite (Hw _ _ Hlast).
      apply lookup_lt_Some in Hlast. unfold last_index in *. lia.
    + destruct (pick_message m _ vc kp kc _ _ _ choice Hinv (or_introl eq_refl) read_atomic) as (msg&Hmsg&Hi).
      rewrite (access_load _ _ _ _ _ _ _ _ msg) by (done || apply read_atomic || by right).
      pose proof (hs_read _ _ _ (iv_histories _ _ _ _ _ Hinv) _ _ Hmsg) as ->.
      eexists _, _, _, (set_pk_read kp _). split; [reflexivity|].
      pose proof (kn_read _ _ _ _ (iv_knowledge _ _ _ _ _ Hinv)).
      pose proof (inv_order Hinv) as Ho. pose proof (hs_reads _ _ _ (iv_histories _ _ _ _ _ Hinv)).
      unfold last_index in Hi. pose proof (lookup_lt_Some _ _ _ Hmsg).
      split; [|apply Hs; lia].
      apply (inv_producer_load _ _ _ _ _ _ _ 8 _ msg); [done|apply read_atomic|done|by left|].
      split; [lia|]. unfold read_message. rewrite decide_True by done. cbn. rewrite decide_True by done. lia.
  - destruct Hsafe as [(->&Hal&Hfree&bytes&Hst&Hs)|[(->&->&->&->&Hop&Hroom&Hmax&ev&Hfull&Hs)|(->&->&->&->&Hs)]].
    + unfold access. rewrite Hal, (range_plain _ _ _ Hfree), (free_writable _ _ _ _ _ _ _ Hinv Hfree). cbn [andb].
      rewrite Hb, Hst. eexists _, _, _, _. split; [reflexivity|]. split; [|exact Hs].
      unfold store_word in Hst. rewrite <- (length_le_split w value) in Hfree.
      pose proof (inv_write _ _ _ _ _ _ _ _ Hinv Hfree Hst) as Hinv'. by rewrite length_le_split in Hinv'.
    + rewrite access_release by (done || apply write_atomic). cbv zeta.
      pose proof (kn_base _ _ _ _ (iv_knowledge _ _ _ _ _ Hinv)).
      rewrite wrap_small by (change (Z.of_nat 8 * 8) with 64; unfold pk_write in *; uint).
      eexists _, _, _, _. split; [reflexivity|]. split; [by apply inv_publish|exact Hs].
    + rewrite access_release by (done || apply state_atomic). cbv zeta.
      eexists _, _, _, _. split; [reflexivity|]. split; [by apply inv_close|exact Hs].
  - destruct Hsafe as (Hfree&bytes&Hst&Hs). unfold access.
    rewrite (range_plain _ _ _ Hfree), (free_writable _ _ _ _ _ _ _ Hinv Hfree). cbn [andb].
    rewrite Hb, Hst. eexists _, _, _, _. split; [reflexivity|]. split; [by apply inv_write|exact Hs].
Qed.

(** The slot of the oldest event the consumer knows of holds that event. *)
Lemma head_full m vp vc kp kc ev :
  inv m vp vc kp kc -> head_event kc ev -> slot_full (wm_bytes m) (ck_read kc) ev.
Proof.
  intros Hinv Hev. pose proof (iv_knowledge _ _ _ _ _ Hinv) as [_ Hp _ _ _ Ho _ _ _].
  pose proof (prefix_lookup_Some _ _ _ _ Hev Hp) as Hlk.
  rewrite (iv_bytes _ _ _ _ _ Hinv).
  pose proof (iv_slots _ _ _ _ _ Hinv _ _ Hlk) as Hs.
  rewrite Z2Nat.id in Hs by lia. replace (base + (ck_read kc - base)) with (ck_read kc) in Hs by lia.
  apply Hs. lia.
Qed.

(** What an acquire load of the state tells the consumer. *)
Lemma consumer_load_state m vp vc kp kc choice :
  inv m vp vc kp kc ->
  exists msg s kc', wm_history m preamble_state !! pick vc m preamble_state choice = Some msg /\
    msg_value msg = RingState_value s /\ learns kc kc' /\
    (s = RingState_Ready \/ s = RingState_Closed) /\ (s = RingState_Closed <-> ck_closed kc' = true) /\
    inv m vp (read_message memory_order_acquire vc preamble_state
                (pick vc m preamble_state choice) msg) kp kc'.
Proof.
  intros Hinv. destruct (pick_message m vp vc kp kc vc _ _ choice Hinv (or_intror (or_introl eq_refl)) state_atomic)
    as (msg&Hmsg&Hge&_). pose proof (inv_order Hinv) as Ho.
  pose proof (iv_knowledge _ _ _ _ _ Hinv) as [_ Hp Hcl _ Hkw Hord Hroom Hbd Hfits].
  destruct (hs_state _ _ _ (iv_histories _ _ _ _ _ Hinv)) as (ss&Hss&_&Huse).
  assert (exists s, msg_value msg = RingState_value s /\ (s = RingState_Ready \/ s = RingState_Closed)) as (s&Hs&Hsu).
  { apply (f_equal (fun l => l !! pick vc m preamble_state choice)) in Hss.
    change (map msg_value ?l) with (msg_value <$> l) in Hss. change (map RingState_value ss) with (RingState_value <$> ss) in Hss.
    rewrite !list_lookup_fmap, Hmsg in Hss. destruct (ss !! _) as [s|] eqn:Hlk; [|done]. exists s. cbn in Hss. injection Hss as Hss. split; [done|].
    rewrite Forall_lookup in Huse. by eapply Huse. }
  exists msg, s. pose proof (fun kc' => inv_consumer_load m vp vc kp kc kc' memory_order_acquire _ _ _ msg
    Hinv state_atomic Hmsg (or_introl eq_refl)) as Hload.
  destruct (decide (s = RingState_Closed)) as [->|Hopen].
  - exists (CKnow (pk_events kp) (ck_read kc) true (ck_header kc)).
    destruct (hs_closed _ _ _ (iv_histories _ _ _ _ _ Hinv) msg (list_elem_of_lookup_2 _ _ _ Hmsg) Hs) as [Hst Hseen].
    pose proof (hs_writes _ _ _ (iv_histories _ _ _ _ _ Hinv)) as Hws.
    split; [done|]. split; [done|]. split; [|split; [by right|split; [done|]]].
    + split; try done; cbn.
      * intros Hcd. destruct (Hcl Hcd) as [<- _]. destruct kc; cbn in *. by subst.
      * change (ck_write (CKnow (pk_events kp) (ck_read kc) true (ck_header kc))) with (pk_write kp). lia.
    + apply Hload; try done.
      2: { intros _. apply (closed_from_le m (pick vc m preamble_state choice)).
           - intros k msg' Hk Hmsg'.
             exact (hs_final _ _ _ (iv_histories _ _ _ _ _ Hinv) _ _ _ _ Hk Hmsg Hmsg' Hs).
           - unfold read_message. rewrite decide_True by done. cbn. rewrite decide_True by done. lia. }
      unfold read_message. rewrite decide_True by done. cbn [view_join v_seen]. rewrite Hseen.
      change (ck_write _) with (pk_write kp). unfold last_index.
      pose proof (cv_seen _ _ _ _ (iv_covers _ _ _ _ _ Hinv vc (or_intror (or_introl eq_refl))) _ _ write_atomic). lia.
  - assert (Forall fits (ck_events kc)) by (destruct Hp as [l Hl]; rewrite Hl in Hfits; by apply Forall_app in Hfits as [? _]).
    exists kc. split; [done|]. split; [done|]. split; [split; try done; lia|].
    split; [done|]. split.
    { split; [done|]. intros Hcd. pose proof (iv_closed _ _ _ _ _ Hinv Hcd _ _ Hge Hmsg) as Hval.
      rewrite Hs in Hval. by destruct s. }
    apply Hload; try done; [|by apply (closed_load m vp vc kp kc)]. etransitivity; [apply Hkw|].
    destruct (read_message_le memory_order_acquire vc preamble_state (pick vc m preamble_state choice) msg) as [_ Hle].
    specialize (Hle producer_position). lia.
Qed.

Lemma prefix_take_long {A} (l1 l : list A) n : prefix l1 l -> (length l1 <= n)%nat -> prefix l1 (take n l).
Proof. intros [l2 ->] Hn. rewrite take_app_ge by done. by eexists. Qed.

(** What an acquire load of the write position tells the consumer. *)
Lemma consumer_load_write m vp vc kp kc choice :
  inv m vp vc kp kc ->
  exists msg kc', wm_history m producer_position !! pick vc m producer_position choice = Some msg /\
    msg_value msg = ck_write kc' /\ learns kc kc' /\ ck_closed kc' = ck_closed kc /\
    inv m vp (read_message memory_order_acquire vc producer_position
                (pick vc m producer_position choice) msg) kp kc'.
Proof.
  intros Hinv. destruct (pick_message m vp vc kp kc vc _ _ choice Hinv (or_intror (or_introl eq_refl)) write_atomic)
    as (msg&Hmsg&Hi). pose proof (inv_order Hinv) as Ho.
  pose proof (iv_knowledge _ _ _ _ _ Hinv) as [_ Hp Hcl _ Hkw Hord Hroom Hbd Hfits].
  pose proof (iv_histories _ _ _ _ _ Hinv) as [Hw Hws _ _ _ _ _ _].
  set (i := pick vc m producer_position choice) in *. unfold last_index in Hi.
  pose proof (lookup_lt_Some _ _ _ Hmsg).
  exists msg, (CKnow (take (first + i) (pk_events kp)) (ck_read kc) (ck_closed kc) (ck_header kc)).
  assert (Hck : ck_write (CKnow (take (first + i) (pk_events kp)) (ck_read kc) (ck_closed kc) (ck_header kc)) =
    base + Z.of_nat first + Z.of_nat i).
  { unfold ck_write. cbn. rewrite length_take. unfold pk_write in *. lia. }
  assert (Hle : (length (ck_events kc) <= first + i)%nat) by (unfold ck_write in *; lia).
  split; [done|]. split; [by rewrite Hck, (Hw _ _ Hmsg)|]. split; [|split; [done|]].
  - split; rewrite ?Hck; cbn; try done; try (unfold pk_write in *; lia).
    + by apply prefix_take_long.
    + intros Hcd. destruct (Hcl Hcd) as [He _]. destruct kc; cbn in *. subst. f_equal.
      apply take_ge. lia.
    + by apply Forall_take.
  - apply (inv_consumer_load m vp vc kp kc _ _ _ 8 _ msg); cbn; rewrite ?Hck; try done.
    + apply write_atomic.
    + by left.
    + by apply prefix_take_long.
    + apply prefix_take.
    + unfold read_message. rewrite decide_True by done. cbn. rewrite decide_True by done. lia.
    + intros Hcd. destruct (Hcl Hcd) as [He Hst]. split; [|done]. rewrite <- He. apply take_ge. by rewrite He in Hle |- *.
    + by apply (closed_load m vp vc kp kc).
Qed.

(** Loading its own position. *)
Lemma consumer_load_own o m vp vc kp kc choice :
  atomic_load o -> inv m vp vc kp kc ->
  exists msg, wm_history m consumer_position !! pick vc m consumer_position choice = Some msg /\
    msg_value msg = ck_read kc /\
    inv m vp (read_message o vc consumer_position (pick vc m consumer_position choice) msg) kp kc.
Proof.
  intros Ho Hinv.
  destruct (pick_message m vp _ kp kc _ _ _ choice Hinv (or_intror (or_introl eq_refl)) read_atomic)
    as (msg&Hmsg&_).
  pose proof (iv_own_read _ _ _ _ _ Hinv) as Hown. pose proof (iv_histories _ _ _ _ _ Hinv) as [_ _ Hr Hrs _ _ _ _].
  exists msg. split; [done|]. split.
  { rewrite (Hr _ _ Hmsg). rewrite pick_own in * by done. apply lookup_lt_Some in Hmsg. unfold last_index in *. lia. }
  pose proof (iv_knowledge _ _ _ _ _ Hinv) as [_ Hp Hcl _ Hkw _ _ _ _].
  apply (inv_consumer_load m vp _ kp kc kc _ _ 8); try done; [apply read_atomic| | |].
  - destruct Ho as [->| ->]; [right|by left]. split; [done|]. by rewrite Hown, pick_own.
  - etransitivity; [apply Hkw|].
    destruct (read_message_le o vc consumer_position (pick vc m consumer_position choice) msg) as [_ Hle].
    specialize (Hle producer_position). lia.
  - by apply (closed_load m vp _ kp kc).
Qed.

(** A step of the consumer, whatever message it reads, is defined and keeps the
    invariant; the producer knows what it knew. *)
Theorem safe_consumer_sound {A} m vp vc kp kc (p : prog A) Q choice :
  inv m vp vc kp kc -> safe_consumer p kc Q -> finished p = false ->
  exists v' m' p' kc', access Consumer choice vc m p = Some (v', m', p') /\
    inv m' vp v' kp kc' /\ safe_consumer p' kc' Q.
Proof.
  intros Hinv Hsafe Hfin. apply inv_tick_consumer in Hinv.
  pose proof (iv_length _ _ _ _ _ Hinv) as Hlen.
  destruct p as [a|o w a f|o w a value f|a n f|a bs f|]; cbn [safe_consumer] in Hsafe; try done.
  - destruct Hsafe as [(->&->&Ho&Hs)|[(->&->&->&Hs)|[(->&->&->&Hs)|[(->&Hal&Hhead&ev&value&Hev&Hval&Hs)|(->&Hal&Hhr&value&Hval&Hs)]]]].
    + destruct (consumer_load_own o m vp _ kp kc choice Ho Hinv) as (msg&Hmsg&Hval&Hinv').
      rewrite (access_load _ _ _ _ _ _ _ _ msg) by (done || apply read_atomic).
      rewrite Hval. eexists _, _, _, kc. split; [reflexivity|]. split; [done|exact Hs].
    + destruct (consumer_load_state m vp _ kp kc choice Hinv) as (msg&s&kc'&Hmsg&Hval&Hln&Hsu&Hcl&Hinv').
      rewrite (access_load _ _ _ _ _ _ _ _ msg) by (done || apply state_atomic || by right).
      rewrite Hval. eexists _, _, _, kc'. split; [reflexivity|]. split; [done|by apply Hs].
    + destruct (consumer_load_write m vp _ kp kc choice Hinv) as (msg&kc'&Hmsg&Hval&Hln&Hcl&Hinv').
      rewrite (access_load _ _ _ _ _ _ _ _ msg) by (done || apply write_atomic || by right).
      rewrite Hval. eexists _, _, _, kc'. split; [reflexivity|]. split; [done|by apply Hs].
    + unfold access. rewrite Hal, (head_plain _ _ _ Hhead), (head_readable _ _ _ _ _ _ _ Hinv Hhead).
      cbn [andb]. rewrite (Hval _ Hlen (head_full _ _ _ _ _ _ Hinv Hev)).
      eexists _, _, _, kc. split; [reflexivity|]. split; [by apply inv_read|exact Hs].
    + unfold access. rewrite Hal, (proj1 Hhr), (header_readable _ _ _ _ _ _ _ _ Hinv Hhr). cbn [andb].
      unfold load_word in Hval |- *. rewrite (header_bytes _ _ _ _ _ _ _ Hinv Hhr), Hval.
      eexists _, _, _, kc. split; [reflexivity|]. split; [by apply inv_read_header|exact Hs].
  - destruct Hsafe as (->&->&->&->&Hhead&Hs). rewrite access_release by (done || apply read_atomic). cbv zeta.
    pose proof (iv_knowledge _ _ _ _ _ Hinv) as [Hb0 _ _ _ _ Hord _ Hbd _]. pose proof (inv_order Hinv).
    rewrite wrap_small by (change (Z.of_nat 8 * 8) with 64; uint).
    eexists _, _, _, _. split; [reflexivity|]. split; [by apply inv_release|exact Hs].
  - destruct Hsafe as [(Hhead&ev&bs&Hev&Hval&Hs)|(Hhr&bs&Hval&Hs)]; unfold access.
    + rewrite (head_plain _ _ _ Hhead), (head_readable _ _ _ _ _ _ _ Hinv Hhead). cbn [andb].
      rewrite (Hval _ Hlen (head_full _ _ _ _ _ _ Hinv Hev)).
      eexists _, _, _, kc. split; [reflexivity|]. split; [by apply inv_read|exact Hs].
    + rewrite (proj1 Hhr), (header_readable _ _ _ _ _ _ _ _ Hinv Hhr). cbn [andb].
      rewrite (header_bytes _ _ _ _ _ _ _ Hinv Hhr), Hval.
      eexists _, _, _, kc. split; [reflexivity|]. split; [by apply inv_read_header|exact Hs].
Qed.
End Ring.
