(* ===== verification/RingWeakSpec.v ===== *)
(** * The operations of the ring, for a thread that knows the ring

    The programs of the four operations only make accesses their thread may make
    ([RingWeak]). The thread may learn of what the other one did; then it gets what the
    abstract queue answers on the queue it knows. *)

From S2P Require Import Prelude Bytes Event Memory RingLayout Ring RingSpec RingGeometry.
From S2P Require Import RingRefinement RingSafety RingSystem RingInit Weak RingWeak.

(** ** Clients

    A thread calls operations one after the other; an acquired view is read at once. *)
Definition op_prog (op : ring_op) (h : SpscRing) : prog (ring_result * SpscRing) :=
  match op with
  | OpPublish ev => r ← try_publish h ev; mret (ResPublish r.1, r.2)
  | OpClose => r ← close_publication h; mret (ResClose r, h)
  | OpAcquire =>
      r ← try_acquire h;
      match r.1 with
      | Value view => ev ← view_bytes view; mret (ResAcquire (Value ev), r.2)
      | Unexpected e => mret (ResAcquire (Unexpected e), r.2)
      end
  | OpRelease => r ← release h; mret (ResRelease r.1, r.2)
  end.

Fixpoint client (ops : list ring_op) (h : SpscRing) : prog (list ring_result * SpscRing) :=
  match ops with
  | [] => mret ([], h)
  | op :: ops =>
      r ← op_prog op h; rest ← client ops r.2; mret (r.1 :: rest.1, rest.2)
  end.

(** Producer and consumer over a segment both have seen at rest. *)
Definition start (m : list byte) (hp hc : SpscRing) (ops_p ops_c : list ring_op) :=
  Threads (at_rest m) (view_init, client ops_p hp) (view_init, client ops_c hc).

Section Ring.
Context (c : RingConfig) (Hc : valid_config c) (base : Z).

Abbreviation pk_write := (pk_write base).
Abbreviation ck_write := (ck_write base).
Abbreviation safe_producer := (safe_producer c base).
Abbreviation safe_consumer := (safe_consumer c base).

(** ** The producer *)

(** What the producer knows of the ring and of its handle. *)
Record producer_knows (k : pknow) (h : SpscRing) : Prop := ProducerKnows {
  pn_handle : handle_ok c h;
  pn_creator : initializer_ h = true;
  pn_cached : 0 <= cached_read_position_ h <= pk_read k;
  pn_base : 0 <= base;
  pn_order : base <= pk_read k <= pk_write k;
  pn_room : pk_write k <= pk_read k + slot_count c;
  pn_bound : pk_write k <= u64_max;
  pn_length : Z.of_nat (length (pk_bytes k)) = segment_size c;
  pn_reserved : forall pos, slot_reserved_zero c (pk_bytes k) pos;
}.

(** A program that only writes between [lo] and [hi]. *)
Fixpoint writes_in {A} (lo hi : addr) (p : prog A) : Prop :=
  match p with
  | Ret _ => True
  | Store nonatomic w a _ f => (lo <= a)%nat /\ (a + w <= hi)%nat /\ writes_in lo hi f
  | WriteBytes a bs f => (lo <= a)%nat /\ (a + length bs <= hi)%nat /\ writes_in lo hi f
  | _ => False
  end.

(** In its free slot the producer runs as if it were alone. *)
Lemma safe_private {A} (p : prog A) k a m Q :
  let slot := slot_offset c (pk_write k) in
  pk_write k < pk_read k + slot_count c ->
  writes_in slot (slot + Z.to_nat (stride_of c)) p -> run p (pk_bytes k) = Some (a, m) ->
  Q a (set_pk_bytes k m) -> safe_producer p k Q.
Proof.
  cbv zeta. revert k. induction p as [x|o w b f IH|o w b v f IH|b n f IH|b bs f IH|];
    intros k Hfree Hw Hrun HQ; cbn in *; try done.
  - injection Hrun as <- <-. by destruct k.
  - destruct o; try done. destruct Hw as (Hlo&Hhi&Hw). left.
    destruct (aligned w b); [|done]. destruct (store_word (pk_bytes k) b w v) as [m1|] eqn:Hst; [|done].
    split; [done|]. split; [done|]. split; [by split_and!|]. exists m1. split; [done|].
    by apply IH.
  - destruct Hw as (Hlo&Hhi&Hw). destruct (store_bytes (pk_bytes k) b bs) as [m1|] eqn:Hst; [|done].
    split; [by split_and!|]. exists m1. split; [done|]. by apply IH.
Qed.

Lemma set_pk_bytes_twice k m m' : set_pk_bytes (set_pk_bytes k m) m' = set_pk_bytes k m'.
Proof. done. Qed.

(** Publishing into a free slot. *)
Lemma safe_publish_slot k h ev Q :
  producer_knows k h -> event_ok ev -> payload_size ev <= slot_payload_capacity c ->
  pk_state k <> RingState_Closed -> pk_write k < pk_read k + slot_count c -> pk_write k < u64_max ->
  (forall m, Z.of_nat (length m) = segment_size c -> (forall pos, slot_reserved_zero c m pos) ->
     Q PublishResult_Ok (push (set_pk_bytes k m) ev)) ->
  safe_producer (publish_slot h 0 (pk_write k) ev) k Q.
Proof.
  intros Hk Hev Hp Hopen Hfree Hmax HQ. pose proof Hk as [Hh _ _ Hb _ _ _ Hlen Hres].
  destruct (run_fill_slot c (pk_write k) ev (pk_bytes k) Hc Hlen Hp) as (m0&m1&Hrun0&Hrun1&Hsame&Hhold&Hres1).
  destruct (event_fits c ev Hc Hp) as [Hfit _]. pose proof (stride_of_min c Hc) as Hmin.
  unfold publish_slot. rewrite (handle_slots _ _ Hh). cbn [deref].
  change (Ret 192%nat ≫= ?f) with (f 192%nat). cbv beta zeta. rewrite (slot_address_ok c Hc h) by done.
  apply safe_producer_bind. eapply safe_private; [done| |exact Hrun0|].
  { unfold fill_slot_header, slot_event_sequence, slot_source_timestamp_ns, slot_stream_id,
      slot_payload_length, store, mbind, prog_mbind. cbn [prog_bind writes_in]. lia. }
  apply safe_producer_bind. eapply (safe_private _ (set_pk_bytes k m0)); [done| |exact Hrun1|].
  { change (Z.to_nat ring_slot_metadata_bytes) with 32%nat. change (RingWeak.pk_write base (set_pk_bytes k m0)) with (pk_write k).
    destruct (negb _); [|done]. cbn. lia. }
  rewrite set_pk_bytes_twice. set (k1 := set_pk_bytes k m1).
  apply safe_producer_bind. cbn [RingWeak.safe_producer store]. right; left.
  split; [done|]. split; [done|]. split; [done|].
  split; [rewrite wrap_small by (unfold RingWeak.pk_write in *; uint); done|].
  split; [done|]. split; [done|]. split; [done|]. exists ev. split.
  - split; [done|]. split; [by apply Hres1|done].
  - cbn [RingWeak.safe_producer mret prog_ret]. apply HQ.
    + by rewrite (proj1 Hsame).
    + intros pos. destruct (decide (slot_index c pos = slot_index c (pk_write k))) as [Heq|Hne].
      * unfold slot_reserved_zero, slot_offset in *. rewrite Heq. by apply Hres1.
      * eapply slot_reserved_frame; [exact Hsame| |apply Hres].
        pose proof (slot_offset_disjoint c Hc pos (pk_write k) Hne). lia.
Qed.

(** The queue as the producer knows it. What it has read of the consumer's position are
    releases; [held] is whether the consumer held a view at the start. *)
Definition producer_queue (held : bool) (k : pknow) : queue :=
  Queue c (pk_state k) (pk_read k) (drop (Z.to_nat (pk_read k - base)) (pk_events k))
    (held && (pk_read k =? base)).

Lemma producer_queue_length held k :
  base <= pk_read k <= pk_write k -> q_length (producer_queue held k) = pk_write k - pk_read k.
Proof. unfold q_length, RingWeak.pk_write. cbn. rewrite length_drop. lia. Qed.

Lemma producer_queue_write held k :
  base <= pk_read k <= pk_write k -> q_write (producer_queue held k) = pk_write k.
Proof. intros. unfold q_write. rewrite producer_queue_length by done. cbn. lia. Qed.

Lemma producer_queue_push held k ev :
  base <= pk_read k <= pk_write k -> q_enqueue (producer_queue held k) ev = producer_queue held (push k ev).
Proof.
  intros H. unfold RingWeak.pk_write, q_enqueue, producer_queue in *. cbn. by rewrite drop_app_le by lia.
Qed.

(** The answer of the queue the producer knows. *)
Definition known_publish (held : bool) (k : pknow) (ev : EventData) : PublishResult * queue :=
  if slot_payload_capacity c <? payload_size ev then (PublishResult_PayloadTooLarge, producer_queue held k)
  else if pk_write k =? u64_max then (PublishResult_Closed, producer_queue held k)
  else if pk_write k - pk_read k =? slot_count c then (PublishResult_Full, producer_queue held k)
  else (PublishResult_Ok, producer_queue held (push k ev)).

Lemma spec_publish_known held k ev :
  pk_state k = RingState_Ready -> base <= pk_read k <= pk_write k ->
  spec_publish (producer_queue held k) ev = known_publish held k ev.
Proof.
  intros Hst Hord. unfold spec_publish. rewrite decide_False by (cbn; auto).
  by rewrite producer_queue_write, producer_queue_length, producer_queue_push.
Qed.

Lemma producer_knows_read k h r :
  producer_knows k h -> pk_read k <= r <= pk_write k -> producer_knows (set_pk_read k r) h.
Proof. intros [] Hr. split; try done; unfold RingWeak.pk_write in *; cbn in *; lia. Qed.

Lemma producer_knows_push k h m ev :
  producer_knows k h -> pk_write k < pk_read k + slot_count c -> pk_write k < u64_max ->
  Z.of_nat (length m) = segment_size c -> (forall pos, slot_reserved_zero c m pos) ->
  producer_knows (push (set_pk_bytes k m) ev) h.
Proof.
  intros [] ????. split; try done; unfold RingWeak.pk_write in *; cbn in *; rewrite ?length_app; simpl; lia.
Qed.

(** The end of [try_publish], when there is room. *)
Lemma safe_publish_tail k h ev Q :
  producer_knows k h -> event_ok ev -> payload_size ev <= slot_payload_capacity c ->
  pk_state k = RingState_Ready -> pk_write k < pk_read k + slot_count c -> pk_write k < u64_max ->
  (forall m, producer_knows (push (set_pk_bytes k m) ev) h ->
     Q (PublishResult_Ok, h) (push (set_pk_bytes k m) ev)) ->
  safe_producer (result ← publish_slot h 0 (pk_write k) ev; mret (result, h)) k Q.
Proof.
  intros Hk Hev Hp Hst Hroom Hmax HQ. apply safe_producer_bind.
  apply safe_publish_slot; try done; [by rewrite Hst|]. intros m Hl Hr.
  cbn [RingWeak.safe_producer mret prog_ret]. by apply HQ, producer_knows_push.
Qed.

(** After learning of releases: the answer of the queue it knows, and the handle as the
    operation leaves it when it runs alone on that queue. *)
Definition publish_post (held : bool) (k : pknow) (h : SpscRing) (ev : EventData)
    (Q : PublishResult * SpscRing -> pknow -> Prop) : Prop :=
  forall k' h' r, producer_knows k' h' -> pk_read k <= pk_read k' <= pk_write k ->
    pk_events k' = pk_events k ++ (if decide (r = PublishResult_Ok) then [ev] else []) ->
    spec_publish (producer_queue held (set_pk_read k (pk_read k'))) ev = (r, producer_queue held k') ->
    h' = publish_handle (producer_queue held (set_pk_read k (pk_read k'))) h ev ->
    Q (r, h') k'.

Lemma publish_handle_known held k rd h ev :
  pk_state k = RingState_Ready -> base <= rd <= pk_write k ->
  publish_handle (producer_queue held (set_pk_read k rd)) h ev =
    if slot_payload_capacity c <? payload_size ev then h
    else if pk_write k =? u64_max then h
    else if slot_count c <=? pk_write k - cached_read_position_ h
         then h{{ cached_read_position_ := rd }} else h.
Proof.
  intros Hst Hord. unfold publish_handle. rewrite decide_False by (cbn; auto).
  rewrite producer_queue_write by done. reflexivity.
Qed.

Lemma publish_refused held k h ev Q rd h' r :
  publish_post held k h ev Q -> producer_knows (set_pk_read k rd) h' -> pk_read k <= rd <= pk_write k ->
  r <> PublishResult_Ok ->
  spec_publish (producer_queue held (set_pk_read k rd)) ev = (r, producer_queue held (set_pk_read k rd)) ->
  h' = publish_handle (producer_queue held (set_pk_read k rd)) h ev ->
  Q (r, h') (set_pk_read k rd).
Proof. intros HQ Hk Hrd Hr Hs Hh. apply HQ; [done|done| |done..]. rewrite decide_False by done. by rewrite app_nil_r. Qed.

(** The end of [try_publish], for an open ring and an event that fits. *)
Lemma safe_publish_known held k h0 rd h ev Q :
  publish_post held k h0 ev Q -> producer_knows (set_pk_read k rd) h -> event_ok ev ->
  payload_size ev <= slot_payload_capacity c -> pk_state k = RingState_Ready ->
  pk_read k <= rd <= pk_write k -> pk_write k < rd + slot_count c -> pk_write k <> u64_max ->
  h = publish_handle (producer_queue held (set_pk_read k rd)) h0 ev ->
  safe_producer (result ← publish_slot h 0 (pk_write k) ev; mret (result, h)) (set_pk_read k rd) Q.
Proof.
  intros HQ Hk Hev Hp Hst Hrd Hfree Hmax Hh. pose proof (pn_bound _ _ Hk) as Hbd.
  change (pk_write (set_pk_read k rd)) with (pk_write k) in Hbd.
  apply (safe_publish_tail (set_pk_read k rd)); try done.
  { change (pk_write (set_pk_read k rd)) with (pk_write k). lia. }
  intros m Hk'. pose proof (pn_order _ _ Hk). apply HQ; [done|done|by rewrite decide_True| |done].
  rewrite spec_publish_known by done. unfold known_publish.
  change (pk_write (set_pk_read k _)) with (pk_write k). cbn [push set_pk_bytes set_pk_read pk_read].
  by rewrite (proj2 (Z.ltb_ge _ _)), !(proj2 (Z.eqb_neq _ _)) by lia.
Qed.

(** [try_publish] with the write position loaded. *)
Lemma safe_publish_room held k h ev Q :
  publish_post held k h ev Q -> producer_knows k h -> event_ok ev ->
  payload_size ev <= slot_payload_capacity c -> pk_state k = RingState_Ready -> pk_write k <> u64_max ->
  safe_producer
    (if slot_count_ h <=? u64 (pk_write k - cached_read_position_ h) then
       read_pos ← load memory_order_acquire 8 (0 + consumer_position);
       let h := h{{ cached_read_position_ := read_pos }} in
       if (pk_write k <? cached_read_position_ h)
          || (slot_count_ h <? u64 (pk_write k - cached_read_position_ h))
       then mret (PublishResult_Closed, h) else
       if u64 (pk_write k - cached_read_position_ h) =? slot_count_ h
       then mret (PublishResult_Full, h) else
       result ← publish_slot h 0 (pk_write k) ev; mret (result, h)
     else result ← publish_slot h 0 (pk_write k) ev; mret (result, h)) k Q.
Proof.
  intros HQ Hk Hev Hp Hst Hmax. pose proof Hk as [Hh Hi [Hc0 Hc1] Hb Ho Hroom Hbd _ _].
  pose proof (handle_count _ _ Hh) as Hco. pose proof (set_pk_read_same k) as Hid.
  assert (Hhandle : forall rd, base <= rd <= pk_write k ->
    publish_handle (producer_queue held (set_pk_read k rd)) h ev =
      if slot_count c <=? pk_write k - cached_read_position_ h
      then h{{ cached_read_position_ := rd }} else h).
  { intros rd Hrd. rewrite publish_handle_known by done.
    by rewrite (proj2 (Z.ltb_ge _ _)), (proj2 (Z.eqb_neq _ _)) by done. }
  pose proof (wrap_small 64 (pk_write k - cached_read_position_ h)) as Hw0.
  rewrite Hco, Hw0 in * by uint. clear Hw0. case_bool; to_prop.
  - apply safe_producer_bind. right; right. split; [done|]. split; [done|]. split; [done|].
    intros r Hr. cbn [RingWeak.safe_producer]. set (h' := h{{ cached_read_position_ := r }}). cbv zeta.
    assert (Hk' : producer_knows (set_pk_read k r) h').
    { destruct (producer_knows_read k h r Hk Hr) as [[]], h. split; try done; cbn in *; lia. }
    change (cached_read_position_ h') with r. change (slot_count_ h') with (slot_count_ h). rewrite Hco.
    pose proof (wrap_small 64 (pk_write k - r)) as Hwr. rewrite Hwr by uint.
    rewrite !(proj2 (Z.ltb_ge _ _)) by lia. cbn [orb]. case_bool; to_prop.
    + apply (publish_refused held k h ev); try done; [|symmetry; apply Hhandle; lia].
      rewrite spec_publish_known by (done || (change (base <= r <= pk_write k); lia)).
      unfold known_publish. change (pk_write (set_pk_read k r)) with (pk_write k). cbn [set_pk_read pk_read].
      by rewrite (proj2 (Z.ltb_ge _ _)), (proj2 (Z.eqb_neq _ u64_max)), (proj2 (Z.eqb_eq _ _)) by (done || lia).
    + apply (safe_publish_known held k h); try done; [lia..|]. symmetry. apply Hhandle. lia.
  - pose proof (safe_publish_known held k h (pk_read k) h ev Q) as Ht. rewrite Hid in Ht.
    apply Ht; try done; [lia|lia|]. rewrite <- Hid. symmetry. apply Hhandle. lia.
Qed.

(** What [try_publish] does for a producer that knows the ring. *)
Lemma safe_try_publish held k h ev Q :
  producer_knows k h -> event_ok ev -> publish_post held k h ev Q -> safe_producer (try_publish h ev) k Q.
Proof.
  intros Hk Hev HQ. pose proof Hk as [Hh _ _ _ Ho _ _ _ _].
  assert (Hrefuse : forall r, r <> PublishResult_Ok ->
    spec_publish (producer_queue held k) ev = (r, producer_queue held k) ->
    h = publish_handle (producer_queue held k) h ev -> Q (r, h) k).
  { intros r Hr Hs. pose proof (publish_refused held k h ev Q (pk_read k) h r HQ) as Hq.
    rewrite set_pk_read_same in Hq. apply Hq; done || lia. }
  unfold try_publish. rewrite (handle_header _ _ Hh), (handle_capacity _ _ Hh). apply safe_producer_bind. left.
  split; [done|]. split; [done|]. split; [by right|]. cbn [RingWeak.safe_producer].
  case_bool; to_prop.
  { assert (q_state (producer_queue held k) <> RingState_Ready)
      by (cbn; intros Hst; by rewrite Hst in * ).
    apply Hrefuse; [done|unfold spec_publish|unfold publish_handle]; by rewrite decide_True. }
  assert (pk_state k = RingState_Ready) as Hready by (destruct (pk_state k); done).
  pose proof (publish_handle_known held k (pk_read k) h ev Hready Ho) as Hhandle.
  rewrite set_pk_read_same in Hhandle.
  destruct (slot_payload_capacity c <? payload_size ev) eqn:Hpay.
  { apply Hrefuse; [done| |by rewrite Hhandle]. rewrite spec_publish_known by done.
    unfold known_publish. by rewrite Hpay. }
  apply safe_producer_bind. right; left. split; [done|]. split; [done|]. split; [by left|].
  cbn [RingWeak.safe_producer]. destruct (pk_write k =? u64_max) eqn:Hmax.
  { apply Hrefuse; [done| |by rewrite Hhandle]. rewrite spec_publish_known by done.
    unfold known_publish. by rewrite Hpay, Hmax. }
  apply (safe_publish_room held); try done; to_prop; done || lia.
Qed.

Lemma safe_close held k h Q :
  producer_knows k h ->
  (producer_knows (close k) h ->
     spec_close (producer_queue held k) = (true, producer_queue held (close k)) -> Q true (close k)) ->
  safe_producer (close_publication h) k Q.
Proof.
  intros Hk HQ. pose proof Hk as [Hh Hi Hcd Hb Ho Hroom Hbd Hlen Hres].
  unfold close_publication. rewrite Hi, (handle_header _ _ Hh). cbn [negb deref].
  change (Ret 0%nat ≫= ?f) with (f 0%nat). cbv beta.
  apply safe_producer_bind. right; right. split_and!; [done..|]. cbn [RingWeak.safe_producer mret prog_ret].
  apply HQ; [by split|done].
Qed.

(** ** The consumer *)

Abbreviation head_event := (head_event base).
Abbreviation learns := (learns c base).

(** What the consumer knows of the ring and of its handle. *)
Record consumer_knows (k : cknow) (h : SpscRing) : Prop := ConsumerKnows {
  cn_handle : handle_ok c h;
  cn_cached : 0 <= cached_write_position_ h <= ck_write k;
  cn_base : 0 <= base;
  cn_order : base <= ck_read k <= ck_write k;
  cn_room : ck_write k <= ck_read k + slot_count c;
  cn_bound : ck_write k <= u64_max;
  cn_fits : Forall (fits c) (ck_events k);
  cn_held : acquired_ h = true -> acquired_position_ h = ck_read k /\ ck_read k < ck_write k;
}.

Lemma learns_refl k h : consumer_knows k h -> learns k k.
Proof. intros []. by split. Qed.

Lemma learns_trans k1 k2 k3 : learns k1 k2 -> learns k2 k3 -> learns k1 k3.
Proof.
  intros [R1 E1 C1 _ _ _ D1] [R2 E2 C2 H1 H2 H3 D2]. split; try done.
  - congruence.
  - by etransitivity.
  - intros Hcl. specialize (C1 Hcl). subst k2. by apply C2.
  - congruence.
Qed.

Lemma learns_write k k' : learns k k' -> ck_write k <= ck_write k'.
Proof. intros [_ Hp _ _ _ _ _]. apply prefix_length_le in Hp. unfold RingWeak.ck_write. lia. Qed.

(** Knowledge and handle after a load. *)
Lemma consumer_learns k k' h cached :
  consumer_knows k h -> learns k k' -> 0 <= cached <= ck_write k' ->
  consumer_knows k' (h{{ cached_write_position_ := cached }}).
Proof.
  intros [Hh Hcd Hb Ho Hr Hbd Hf Hheld] Hl Hc'. pose proof (learns_write _ _ Hl).
  destruct Hl as [Lr Le Lc Lroom Lb Lf Lh]. destruct h; split; try done; cbn in *.
  - by destruct Hh.
  - rewrite Lr. lia.
  - intros Hac. destruct (Hheld Hac). rewrite Lr. split; [done|lia].
Qed.

Lemma consumer_learns_same k k' h : consumer_knows k h -> learns k k' -> consumer_knows k' h.
Proof.
  intros Hk Hl. pose proof (learns_write _ _ Hl). pose proof (cn_cached _ _ Hk).
  pose proof (consumer_learns k k' h (cached_write_position_ h) Hk Hl ltac:(lia)). by destruct h.
Qed.

(** The fields of a full slot are the event's. *)
Lemma full_fields pos ev :
  let word d w v := in_full_slot c pos ev (fun m => load_word m (slot_offset c pos + d) w) v in
  word slot_event_sequence 8%nat (sequence ev) /\
  word slot_source_timestamp_ns 8%nat (source_timestamp_ns ev) /\
  word slot_stream_id 4%nat (stream_id ev) /\ word slot_payload_length 4%nat (payload_size ev) /\
  word slot_reserved_0 4%nat 0 /\ word slot_reserved_1 4%nat 0.
Proof.
  unfold in_full_slot, slot_event_sequence, slot_source_timestamp_ns, slot_stream_id, slot_payload_length.
  split_and!; intros m _ (Hh&Hr&Hev&Hp); destruct (event_fits c ev Hc Hp) as [_ Hpu];
    destruct (slot_holds_fields c m pos ev Hh Hev Hpu) as (?&?&?&?); try done; apply Hr.
Qed.

(** A plain load of a field of the slot at the head. *)
Lemma safe_load_field {A} k ev d w v (f : Z -> prog A) Q :
  ck_read k < ck_write k -> head_event k ev -> (w = 4 \/ w = 8)%nat -> (d mod w = 0)%nat -> (d + w <= 32)%nat ->
  in_full_slot c (ck_read k) ev (fun m => load_word m (slot_offset c (ck_read k) + d) w) v ->
  safe_consumer (f v) k Q -> safe_consumer (load nonatomic w (slot_offset c (ck_read k) + d) ≫= f) k Q.
Proof.
  intros Hlt Hev Hw Hd Hin Hv Hs. apply safe_consumer_bind. right; right; right; left.
  pose proof (stride_of_min c Hc). split; [done|]. split; [by apply slot_aligned|].
  split; [split; [done|]; lia|]. by exists ev, v.
Qed.

(** Validation and reading of the slot at the head. *)
Lemma safe_acquire_slot k h ev Q :
  consumer_knows k h -> head_event k ev -> fits c ev ->
  ck_read k < cached_write_position_ h ->
  Q (Value (slot_view c (ck_read k) ev), h{{ acquired_position_ := ck_read k; acquired_ := true }}) k ->
  safe_consumer (acquire_slot h (ck_read k)) k Q.
Proof.
  intros [Hh Hcd Hb Ho Hr Hbd Hf _] Hev [_ Hp] Hlt HQ. pose proof Hh as [_ Hsl Hco _ Hcap].
  destruct (full_fields (ck_read k) ev) as (F0&F8&F16&F20&F24&F28).
  unfold acquire_slot. rewrite Hco, Hcap. rewrite (wrap_small 64) by uint.
  rewrite !(proj2 (Z.ltb_ge _ _)) by lia. cbn [orb]. rewrite Hsl. cbn [deref].
  change (Ret 192%nat ≫= ?f) with (f 192%nat). cbv beta zeta. rewrite (slot_address_ok c Hc h) by done.
  apply safe_consumer_bind. unfold invalid_slot, prog_or.
  apply safe_consumer_bind. eapply safe_load_field; [lia|exact Hev|by left|done|cbv; lia|exact F20|].
  rewrite (proj2 (Z.ltb_ge _ _)) by lia. cbn [RingWeak.safe_consumer mret prog_ret].
  apply safe_consumer_bind. eapply safe_load_field; [lia|exact Hev|by left|done|cbv; lia|exact F24|].
  cbn [RingWeak.safe_consumer mret prog_ret Z.eqb negb].
  eapply safe_load_field; [lia|exact Hev|by left|done|cbv; lia|exact F28|].
  cbn [RingWeak.safe_consumer mret prog_ret Z.eqb negb].
  eapply safe_load_field; [lia|exact Hev|by left|done|cbv; lia|exact F16|].
  eapply safe_load_field; [lia|exact Hev|by right|done|cbv; lia|exact F0|].
  eapply safe_load_field; [lia|exact Hev|by right|done|cbv; lia|exact F8|].
  eapply safe_load_field; [lia|exact Hev|by left|done|cbv; lia|exact F20|].
  cbn [RingWeak.safe_consumer mret prog_ret]. unfold payload_size. rewrite Nat2Z.id. exact HQ.
Qed.

Lemma tail_drop {A} n (l : list A) : tail (drop n l) = drop (S n) l.
Proof. revert n. induction l as [|x l IH]; intros [|n]; [done..|]. apply IH. Qed.

(** The queue as the consumer knows it. *)
Definition consumer_queue (k : cknow) (h : SpscRing) : queue :=
  Queue c (if ck_closed k then RingState_Closed else RingState_Ready) (ck_read k)
    (drop (Z.to_nat (ck_read k - base)) (ck_events k)) (acquired_ h).

Lemma consumer_queue_head k ev :
  head_event k ev -> drop (Z.to_nat (ck_read k - base)) (ck_events k) =
    ev :: drop (S (Z.to_nat (ck_read k - base))) (ck_events k).
Proof. apply drop_S. Qed.

Lemma consumer_queue_empty k :
  ck_read k = ck_write k -> drop (Z.to_nat (ck_read k - base)) (ck_events k) = [].
Proof. intros Hr. apply drop_ge. unfold RingWeak.ck_write in Hr. lia. Qed.

Lemma consumer_queue_write k h : base <= ck_read k <= ck_write k -> q_write (consumer_queue k h) = ck_write k.
Proof. unfold q_write, q_length, RingWeak.ck_write. cbn. rewrite length_drop. lia. Qed.

Lemma head_exists k h :
  consumer_knows k h -> ck_read k < ck_write k -> exists ev, head_event k ev /\ fits c ev.
Proof.
  intros [_ _ _ Ho _ _ Hf _] Hlt. unfold RingWeak.head_event, RingWeak.ck_write in *.
  destruct (lookup_lt_is_Some_2 (ck_events k) (Z.to_nat (ck_read k - base))) as [ev Hev]; [lia|].
  exists ev. split; [done|]. rewrite Forall_lookup in Hf. by apply (Hf _ _ Hev).
Qed.

(** Reading the view of the slot at the head. *)
Lemma safe_view_bytes k ev Q :
  ck_read k < ck_write k -> head_event k ev -> fits c ev -> Q ev k ->
  safe_consumer (view_bytes (slot_view c (ck_read k) ev)) k Q.
Proof.
  intros Hlt Hev [_ Hp] HQ. destruct (event_fits c ev Hc Hp) as [Hfit _].
  unfold view_bytes, slot_view. cbn [payload with_payload span_offset span_size].
  left. split; [split; [done|]; lia|]. exists ev, (payload ev). split; [done|]. split.
  - intros m _ (Hh&_). apply Hh.
  - cbn. by destruct ev.
Qed.

(** What an acquisition that succeeds has taken. *)
Lemma acquired_head k h ev q :
  consumer_knows k h -> spec_acquire (consumer_queue k h) = (Value ev, q) ->
  ck_read k < ck_write k /\ head_event k ev /\ fits c ev /\ q_held q = true.
Proof.
  intros Hk. unfold spec_acquire. cbn. destruct (acquired_ h); [done|].
  destruct (drop _ _) as [|ev' evs] eqn:Hd; [done|]. intros [= <- <-].
  assert (ck_read k < ck_write k) as Hlt.
  { pose proof (cn_order _ _ Hk). destruct (decide (ck_read k = ck_write k)) as [He|]; [|lia].
    by rewrite (consumer_queue_empty k He) in Hd. }
  destruct (head_exists k h Hk Hlt) as (ev2&Hev&Hf). rewrite (consumer_queue_head _ _ Hev) in Hd.
  by injection Hd as -> _.
Qed.

(** What the consumer gets: the answer on the queue it knows after learning of
    publications, and the handle as the operation leaves it when it runs alone. *)
Definition acquire_post (k : cknow) (h : SpscRing)
    (Q : expected (EventView span) AcquireError * SpscRing -> cknow -> Prop) : Prop :=
  forall k' h' r, consumer_knows k' h' -> learns k k' ->
    spec_acquire (consumer_queue k' h) = (r, consumer_queue k' h') ->
    h' = acquire_handle (consumer_queue k' h) h ->
    Q (expected_map (slot_view c (ck_read k')) r, h') k'.

(** The end of [try_acquire], with an event known. *)
Lemma safe_acquire_known k h k' h' Q :
  acquire_post k h Q -> acquired_ h = false ->
  consumer_knows k' h' -> learns k k' -> acquired_ h' = false -> ck_read k < cached_write_position_ h' ->
  h' = (if cached_write_position_ h <=? ck_read k
        then h{{ cached_write_position_ := ck_write k' }} else h) ->
  safe_consumer (acquire_slot h' (ck_read k)) k' Q.
Proof.
  intros HQ Hac Hk' Hl Hac' Hlt Hh'. rewrite <- (ln_read _ _ _ _ Hl) in Hlt, Hh' |- *.
  assert (ck_read k' < ck_write k') as Hlt' by (pose proof (cn_cached _ _ Hk'); lia).
  destruct (head_exists k' h' Hk' Hlt') as (ev&Hev&Hfits).
  pose proof (consumer_queue_head _ _ Hev) as Hd.
  apply (safe_acquire_slot k' h' ev); [done..|].
  refine (HQ k' _ (Value ev) _ Hl _ _).
  - destruct Hk', h'. split; try done. by destruct cn_handle0.
  - unfold spec_acquire, q_hold, consumer_queue. cbn. rewrite Hac, Hd. by destruct h'.
  - unfold acquire_handle. cbn [consumer_queue q_held q_read q_events].
    rewrite Hac, Hd, decide_False by done.
    rewrite (consumer_queue_write k' h) by apply Hk'. by rewrite <- Hh'.
Qed.

(** What [try_acquire] does for a consumer that knows the ring. *)
Lemma safe_try_acquire k h Q :
  consumer_knows k h -> acquire_post k h Q -> safe_consumer (try_acquire h) k Q.
Proof.
  intros Hk HQ. pose proof Hk as [Hh Hcd Hb Ho Hr Hbd Hf Hheld].
  unfold try_acquire. rewrite (handle_header _ _ Hh). destruct (acquired_ h) eqn:Hac.
  { refine (HQ k h (Unexpected AcquireError_AlreadyAcquired) Hk (learns_refl k h Hk) _ _).
    - unfold spec_acquire. cbn. by rewrite Hac.
    - unfold acquire_handle. cbn. by rewrite Hac. }
  apply safe_consumer_bind. left. split; [done|]. split; [done|]. split; [by left|].
  cbn [RingWeak.safe_consumer]. case_bool; to_prop.
  2: { apply (safe_acquire_known k h); [done..|by eapply learns_refl|done|lia|].
       by rewrite (proj2 (Z.leb_gt _ _)). }
  apply safe_consumer_bind. right; left. split; [done|]. split; [done|]. split; [done|].
  intros s k1 Hl1 _ Hcl1. cbn [RingWeak.safe_consumer].
  apply safe_consumer_bind. right; right; left. split; [done|]. split; [done|]. split; [done|].
  intros k2 Hl2 Hcl2. cbn [RingWeak.safe_consumer]. cbv zeta.
  pose proof (learns_trans _ _ _ Hl1 Hl2) as Hl. pose proof (learns_write _ _ Hl) as Hw.
  pose proof (consumer_learns k k2 h (ck_write k2) Hk Hl ltac:(lia)) as Hk2.
  set (h2 := h{{ cached_write_position_ := ck_write k2 }}) in *.
  assert (acquired_ h2 = false) as Hac2 by by destruct h.
  assert (cached_write_position_ h2 = ck_write k2) as Hcw by by destruct h.
  pose proof (ln_read _ _ _ _ Hl) as Hrd. rewrite Hcw. case_bool; to_prop.
  2: { apply (safe_acquire_known k h); [done..| |by rewrite (proj2 (Z.leb_le _ _))].
       pose proof (cn_order _ _ Hk2). lia. }
  assert (Hdrop : drop (Z.to_nat (ck_read k2 - base)) (ck_events k2) = [])
    by (apply consumer_queue_empty; lia).
  refine (HQ k2 h2 (Unexpected _) Hk2 Hl _ _).
  - unfold spec_acquire, consumer_queue. cbn [q_held q_events q_state].
    rewrite Hac, Hac2, Hdrop, Hcl2. f_equal. f_equal. destruct (decide (s = RingState_Closed)) as [->|Hs].
    + by rewrite (proj1 Hcl1).
    + rewrite (proj2 (Z.eqb_neq _ _)) by by destruct s.
      destruct (ck_closed k1) eqn:Hcl; [by destruct Hs; apply Hcl1|done].
  - unfold acquire_handle. cbn [consumer_queue q_held q_read q_events].
    rewrite Hac, Hdrop, decide_True, (consumer_queue_write k2 h) by (done || apply Hk2).
    by rewrite (proj2 (Z.leb_le _ _)) by lia.
Qed.

(** [try_acquire], and reading the view. *)
Lemma safe_acquire k h Q :
  consumer_knows k h ->
  (forall k' h' r, consumer_knows k' h' -> learns k k' ->
     spec_acquire (consumer_queue k' h) = (r, consumer_queue k' h') -> Q (ResAcquire r, h') k') ->
  safe_consumer (op_prog OpAcquire h) k Q.
Proof.
  intros Hk HQ. apply safe_consumer_bind, safe_try_acquire; [done|].
  intros k' h' [ev|e] Hk' Hl Hspec _; cbn [expected_map fst snd]; [|by apply HQ].
  destruct (acquired_head k' h ev _ (consumer_learns_same k k' h Hk Hl) Hspec) as (Hlt&Hev&Hf&_).
  apply safe_consumer_bind, safe_view_bytes; [done..|]. by apply HQ.
Qed.

Lemma safe_release k h Q :
  consumer_knows k h ->
  (forall k' h' r, consumer_knows k' h' -> ck_events k' = ck_events k -> ck_closed k' = ck_closed k ->
     ck_header k' = ck_header k ->
     spec_release (consumer_queue k h) = (r, consumer_queue k' h') -> h' = release_handle h ->
     Q (r, h') k') ->
  safe_consumer (release h) k Q.
Proof.
  intros Hk HQ. pose proof Hk as [Hh Hcd Hb Ho Hr Hbd Hf Hheld]. unfold release.
  destruct (acquired_ h) eqn:Hac; cbn [negb].
  2: { apply HQ; [done..| |]; [unfold spec_release|unfold release_handle]; cbn; by rewrite Hac. }
  destruct (Hheld eq_refl) as [Hpos Hlt]. rewrite (handle_header _ _ Hh). cbn [deref].
  change (Ret 0%nat ≫= ?f) with (f 0%nat). cbv beta. rewrite Hpos, wrap_small by uint.
  apply safe_consumer_bind. cbn [RingWeak.safe_consumer store].
  split_and!; [done..|]. cbn [mret prog_ret RingWeak.safe_consumer].
  apply HQ; try done.
  - destruct h, Hh. split; try done; unfold RingWeak.ck_write in *; cbn in *; lia.
  - unfold spec_release, q_dequeue, consumer_queue. cbn. rewrite Hac. destruct h. cbn in *.
    rewrite tail_drop. by replace (Z.to_nat (ck_read k + 1 - base)) with (S (Z.to_nat (ck_read k - base))) by lia.
  - unfold release_handle. by rewrite Hac.
Qed.
End Ring.
