(* ===== verification/RingAttach.v ===== *)
(** * Attaching to a ring while its producer runs

    [attach] in release/acquire memory. After its acquire load of the state a consumer only
    reads plain fields of the header, which nobody writes any more; so what it finds there
    is what [RingInit] proves of it, whatever the producer does in the meantime. *)

From S2P Require Import Prelude Bytes Event Memory RingLayout Ring RingSpec RingGeometry.
From S2P Require Import RingRefinement RingSafety RingSystem RingInit Weak RingWeak RingWeakSpec.

(** A program that only reads plain fields of the header. *)
Fixpoint reads_header {A} (p : prog A) : Prop :=
  match p with
  | Ret _ => True
  | Load nonatomic w a f => aligned w a = true /\ header_range a w /\ forall v, reads_header (f v)
  | ReadBytes a n f => header_range a n /\ forall bs, reads_header (f bs)
  | _ => False
  end.

Lemma reads_header_bind {A B} (p : prog A) (f : A -> prog B) :
  reads_header p -> (forall a, reads_header (f a)) -> reads_header (p ≫= f).
Proof.
  unfold mbind, prog_mbind. intros Hp Hf.
  induction p as [a|o w a g IH|o w a v g IH|a n g IH|a bs g IH|]; cbn in *; try done.
  - destruct o; try done. destruct Hp as (?&?&?). auto.
  - destruct Hp as (?&?). auto.
Qed.

Lemma reads_header_fmap {A B} (f : A -> B) (p : prog A) : reads_header p -> reads_header (f <$> p).
Proof. intros Hp. by apply reads_header_bind. Qed.

Lemma reads_header_or p q : reads_header p -> reads_header q -> reads_header (prog_or p q).
Proof. intros Hp Hq. apply reads_header_bind; [done|]. by intros []. Qed.

Lemma reads_header_load {A} w a (f : Z -> prog A) :
  aligned w a = true -> header_range a w -> (forall v, reads_header (f v)) ->
  reads_header (load nonatomic w a ≫= f).
Proof. done. Qed.

Lemma reads_header_read {A} a n (f : list byte -> prog A) :
  header_range a n -> (forall bs, reads_header (f bs)) -> reads_header (read_bytes a n ≫= f).
Proof. done. Qed.

Lemma header_range_sub a n b k :
  header_range a n -> (a <= b)%nat -> (b + k <= a + n)%nat -> header_range b k.
Proof.
  unfold header_range, is_plain. rewrite !forallb_forall. intros [Hp Hl] Ha Hb.
  split; [|lia]. intros o Ho. specialize (Hp o Ho).
  rewrite orb_true_iff, !Nat.leb_le in *. lia.
Qed.

Lemma reads_header_all_zero a n : header_range a n -> reads_header (all_zero a n).
Proof.
  revert a. induction n as [|n IH]; intros a Ha; [exact I|]. cbn [all_zero].
  apply reads_header_read; [by apply (header_range_sub a (S n)); [done|lia..]|]. intros bs.
  destruct (forallb is_zero bs); [|exact I]. apply IH. by apply (header_range_sub a (S n)); [done|lia..].
Qed.

Ltac reads_header_step :=
  match goal with
  | |- forall _, _ => intros ?
  | |- header_range _ _ => split; [reflexivity|apply Nat.leb_le; reflexivity]
  | |- aligned _ _ = true => reflexivity
  | |- reads_header (prog_or _ _) => apply reads_header_or
  | |- reads_header (_ <$> _) => apply reads_header_fmap
  | |- reads_header (all_zero _ _) => apply reads_header_all_zero
  | |- reads_header (load nonatomic _ _ ≫= _) => apply reads_header_load
  | |- reads_header (read_bytes _ _ ≫= _) => apply reads_header_read
  | |- reads_header (mret _) => exact I
  | |- reads_header (if ?b then _ else _) => destruct b
  | |- reads_header (match ?r with Value _ => _ | Unexpected _ => _ end) => destruct r
  | |- reads_header (_ ≫= _) => apply reads_header_bind
  end.

(** What [attach] does after its load of the state. *)
Definition attach_header (memory : memory_span) : prog (expected SpscRing RingError) :=
  bad_layout ← invalid_layout 0;
  if (bad_layout : bool) then mret (Unexpected RingError_InvalidLayout) else
  bad_reserved ←
    prog_or (negb <$> all_zero preamble_reserved_bytes preamble_reserved_size)
    (prog_or (negb <$> all_zero producer_reserved_bytes cursor_reserved_size)
             (negb <$> all_zero consumer_reserved_bytes cursor_reserved_size));
  if (bad_reserved : bool) then mret (Unexpected RingError_InvalidLayout) else
  count ← load nonatomic 4 preamble_slot_count;
  capacity ← load nonatomic 4 preamble_slot_payload_capacity;
  let config := Config count capacity in
  match required_bytes config with
  | Unexpected _ => mret (Unexpected RingError_InvalidLayout)
  | Value bytes =>
      let stride := u64 (bytes - ring_header_bytes) / slot_count config in
      bad_size ←
        prog_or (v ← load nonatomic 4 preamble_slot_stride; mret (negb (v =? stride)))
                (v ← load nonatomic 8 preamble_segment_bytes; mret (negb (v =? bytes)));
      if (bad_size : bool) then mret (Unexpected RingError_InvalidLayout) else
      if negb (mem_size memory =? bytes) then mret (Unexpected RingError_InvalidMemory) else
      ring ← SpscRing_construct 0 (Z.to_nat ring_header_bytes) false;
      mret (Value ring)
  end.

Lemma attach_unfold memory :
  attach memory =
    if invalid_memory memory then mret (Unexpected RingError_InvalidMemory) else
    state ← load memory_order_acquire 4 preamble_state;
    match validate_state state with
    | Unexpected e => mret (Unexpected e)
    | Value _ => attach_header memory
    end.
Proof. reflexivity. Qed.

Lemma attach_header_reads memory : reads_header (attach_header memory).
Proof. unfold attach_header, invalid_layout, SpscRing_construct. repeat reads_header_step. Qed.

(** The header bytes read the same alone. *)
Lemma header_load m h a n :
  load_bytes m 0 192 = Some h -> header_range a n -> load_bytes m a n = load_bytes h a n.
Proof.
  intros Hh [_ Hn]. unfold load_bytes in *.
  destruct (decide (0 + 192 <= length m)%nat) as [Hl|]; [|done]. injection Hh as <-.
  rewrite drop_0, length_take, !decide_True by lia.
  f_equal. rewrite skipn_firstn_comm, take_take. f_equal. lia.
Qed.

(** ** A consumer that attaches

    What a consumer process does with a mapping of a segment: it attaches, and if that
    succeeds it calls operations of the handle it got. *)
Definition attach_client (memory : memory_span) (ops : list ring_op) :
    prog (expected (list ring_result * SpscRing) RingError) :=
  r ← attach memory;
  match r with
  | Value h => Value <$> client ops h
  | Unexpected e => mret (Unexpected e)
  end.

Definition start_attaching (m : list byte) (hp : SpscRing) (memory : memory_span)
    (ops_p ops_c : list ring_op) :=
  Threads (at_rest m) (view_init, client ops_p hp) (view_init, attach_client memory ops_c).

Section Ring.
Context (c : RingConfig) (base : Z).

(** It runs as it does alone. *)
Lemma safe_header_reads {A} (p : prog A) m k a m' Q :
  load_bytes m 0 192 = Some (ck_header k) -> reads_header p -> run p m = Some (a, m') -> Q a k ->
  safe_consumer c base p k Q.
Proof using.
  intros Hh Hp Hrun HQ.
  induction p as [x|o w b f IH|o w b v f IH|b n f IH|b bs f IH|]; cbn in *; try done.
  - by injection Hrun as <- <-.
  - destruct o; try done. destruct Hp as (Hal&Hr&Hf). rewrite Hal in Hrun.
    destruct (load_word m b w) as [v|] eqn:Hv; [|done]. right; right; right; right.
    split; [done|]. split; [done|]. split; [done|]. exists v. split; [|by apply (IH v)].
    unfold load_word in *. by rewrite <- (header_load m).
  - destruct Hp as (Hr&Hf). destruct (load_bytes m b n) as [bs|] eqn:Hv; [|done]. right.
    split; [done|]. exists bs. split; [by rewrite <- (header_load m)|by apply (IH bs)].
Qed.

(** Attaching to a ring in use gives what it gives alone, and the consumer may have learned
    of what the producer did. *)
Lemma safe_attach_any memory m q k Q :
  ring_repr m q -> in_use q -> load_bytes m 0 192 = Some (ck_header k) -> learns c base k k ->
  (forall k', learns c base k k' -> Q (attach_result (q_config q) memory) k') ->
  safe_consumer c base (attach memory) k Q.
Proof using.
  intros Hm Hst Hh Hkk HQ. pose proof (attach_any memory m q Hm Hst) as Hrun.
  rewrite attach_unfold in Hrun |- *. destruct (invalid_memory memory) eqn:Hmem.
  { cbn in Hrun |- *. injection Hrun as Hres. rewrite Hres. by apply HQ. }
  unfold load in *. cbn in Hrun. rewrite (repr_state _ _ Hm) in Hrun.
  assert (Hrest : run (attach_header memory) m = Some (attach_result (q_config q) memory, m))
    by by destruct Hst as [Hst|Hst]; rewrite Hst in Hrun.
  right; left. split; [done|]. split; [done|]. split; [done|]. intros s k' Hl Hs _.
  assert (safe_consumer c base (attach_header memory) k' Q).
  { eapply safe_header_reads; [|apply attach_header_reads|exact Hrest|by apply HQ].
    by rewrite (ln_header _ _ _ _ Hl). }
  by destruct Hs as [->| ->].
Qed.

(** It succeeds with a buffer that is the segment. *)
Lemma safe_attach memory m q k Q :
  ring_repr m q -> in_use q -> invalid_memory memory = false -> Z.of_nat (length m) = mem_size memory ->
  load_bytes m 0 192 = Some (ck_header k) -> learns c base k k ->
  (forall k', learns c base k k' -> Q (Value (construct_handle (q_config q) false)) k') ->
  safe_consumer c base (attach memory) k Q.
Proof using.
  intros Hm Hst Hmem Hlen Hh Hkk HQ. eapply safe_attach_any; [done..|].
  unfold attach_result. rewrite Hmem, <- Hlen, (repr_size _ _ Hm), Z.eqb_refl. exact HQ.
Qed.
End Ring.
