(* ===== verification/RingHistory.v ===== *)
(** * Histories of the queue

    A history is a sequence of operations with their results; it is legal if the abstract
    queue gives these results. The successful operations of one side do not depend on the
    order in which they are mixed with those of the other side: the producer's are its
    publications followed by its closures, the consumer's alternate between taking the
    next event and releasing it. This is what allows to put the operations of two
    concurrent threads in one order. *)

From S2P Require Import Prelude Event RingLayout Ring RingSpec.
From S2P Require Import RingSystem.

Abbreviation history := (list (ring_op * ring_result)).

Inductive legal : queue -> history -> queue -> Prop :=
  | legal_nil q : legal q [] q
  | legal_cons q op r q1 log q2 :
      spec_op op q = (r, q1) -> legal q1 log q2 -> legal q ((op, r) :: log) q2.

Lemma map_fst_zip {A B} (l : list A) (k : list B) : length k = length l -> map fst (zip l k) = l.
Proof. intros H. exact (fst_zip l k ltac:(lia)). Qed.

Lemma map_snd_zip {A B} (l : list A) (k : list B) : length k = length l -> map snd (zip l k) = k.
Proof. intros H. exact (snd_zip l k ltac:(lia)). Qed.

Create HintDb history.
#[export] Hint Constructors legal : history.

Lemma legal_spec_ops q log q' : legal q log q' <-> spec_ops (map fst log) q = (map snd log, q').
Proof.
  split.
  - induction 1 as [q|q op r q1 log q2 Hop _ IH]; [done|]. cbn. by rewrite Hop, IH.
  - revert q. induction log as [|[op r] log IH]; intros q; cbn; [intros [= ->]; constructor|].
    destruct (spec_op op q) as [r1 q1] eqn:Hop. specialize (IH q1).
    destruct (spec_ops (map fst log) q1) as [rs q2]. intros [= -> -> ->].
    econstructor; [done|by apply IH].
Qed.

Lemma legal_app q l1 q1 l2 q2 : legal q l1 q1 -> legal q1 l2 q2 -> legal q (l1 ++ l2) q2.
Proof. induction 1; cbn; eauto with history. Qed.

Lemma legal_one q op r q' : spec_op op q = (r, q') -> legal q [(op, r)] q'.
Proof. eauto with history. Qed.
#[export] Hint Resolve legal_app legal_one : history.

(** ** Shares *)

Definition by_producer (log : history) : history := List.filter (fun x => producer_op x.1) log.
Definition by_consumer (log : history) : history := List.filter (fun x => negb (producer_op x.1)) log.

(** The operation had an effect. *)
Definition successful (x : ring_op * ring_result) : bool :=
  match x.2 with
  | ResPublish PublishResult_Ok | ResAcquire (Value _) => true
  | ResRelease b | ResClose b => b
  | _ => false
  end.

Definition successes (log : history) : history := List.filter successful log.

Definition published_in (log : history) : list EventData := published (map fst log) (map snd log).

Definition publications (evs : list EventData) : history :=
  map (fun ev => (OpPublish ev, ResPublish PublishResult_Ok)) evs.
Definition closures (n : nat) : history := replicate n (OpClose, ResClose true).

Lemma by_producer_app l1 l2 : by_producer (l1 ++ l2) = by_producer l1 ++ by_producer l2.
Proof. apply List.filter_app. Qed.
Lemma by_consumer_app l1 l2 : by_consumer (l1 ++ l2) = by_consumer l1 ++ by_consumer l2.
Proof. apply List.filter_app. Qed.

Lemma by_producer_publications evs : by_producer (publications evs) = publications evs.
Proof. induction evs as [|ev evs IH]; [done|]. cbn. by f_equal. Qed.
Lemma by_consumer_publications evs : by_consumer (publications evs) = [].
Proof. by induction evs. Qed.
Lemma by_producer_closures n : by_producer (closures n) = closures n.
Proof. induction n as [|n IH]; [done|]. cbn. by f_equal. Qed.
Lemma by_consumer_closures n : by_consumer (closures n) = [].
Proof. by induction n. Qed.

Create Rewrite HintDb history.
#[export] Hint Rewrite by_producer_app by_consumer_app by_producer_publications
  by_consumer_publications by_producer_closures by_consumer_closures app_nil_r : history.

Lemma published_in_cons op r log :
  published_in ((op, r) :: log) = published_in [(op, r)] ++ published_in log.
Proof. unfold published_in. cbn. destruct op; try done. destruct r as [[]|?|?|?]; done. Qed.

Lemma published_in_publications evs : published_in (publications evs) = evs.
Proof. unfold published_in. induction evs as [|ev evs IH]; [done|]. cbn. by f_equal. Qed.

Lemma published_in_app l1 l2 : published_in (l1 ++ l2) = published_in l1 ++ published_in l2.
Proof.
  induction l1 as [|[op r] l1 IH]; [done|]. cbn [app].
  by rewrite (published_in_cons op r (l1 ++ l2)), (published_in_cons op r l1), IH, app_assoc.
Qed.

Lemma published_in_closures n : published_in (closures n) = [].
Proof. by induction n. Qed.

Lemma published_by_producer log : published_in (by_producer log) = published_in log.
Proof.
  induction log as [|[op r] log IH]; [done|].
  rewrite (published_in_cons op r log), <- IH. cbn [by_producer List.filter fst].
  destruct op; cbn [producer_op]; [apply published_in_cons|done..].
Qed.

Lemma published_successes log : published_in (successes log) = published_in log.
Proof.
  induction log as [|[op r] log IH]; [done|].
  rewrite (published_in_cons op r log), <- IH. cbn [successes List.filter].
  destruct (successful (op, r)) eqn:Hs; [apply published_in_cons|].
  by destruct op, r as [[]|?|?|?].
Qed.

Lemma published_in_zip ops rs :
  length rs = length ops -> published_in (zip ops rs) = published ops rs.
Proof. intros Hl. unfold published_in. by rewrite map_fst_zip, map_snd_zip. Qed.

(** The two sides from [q] to [q']: [produced] and [consumed] are the operations of the sides
    with the results they got, and there is an order of them all in which the queue gives
    exactly these results. *)
Definition joint (q : queue) (produced consumed : history) (q' : queue) : Prop :=
  exists log, legal q log q' /\ by_producer log = produced /\ by_consumer log = consumed.

(** A history of one side only. *)
Lemma shares_producer log :
  forallb producer_op (map fst log) = true -> by_producer log = log /\ by_consumer log = [].
Proof.
  unfold by_producer, by_consumer. induction log as [|[op r] log IH]; [done|]. cbn.
  intros [Hop Hl]%andb_true_iff. destruct (IH Hl) as [H1 H2]. by rewrite Hop, H1, H2.
Qed.

Lemma shares_consumer log :
  forallb (fun op => negb (producer_op op)) (map fst log) = true -> by_producer log = [] /\ by_consumer log = log.
Proof.
  unfold by_producer, by_consumer. induction log as [|[op r] log IH]; [done|]. cbn.
  intros [Hop%negb_true_iff Hl]%andb_true_iff. destruct (IH Hl) as [H1 H2]. by rewrite Hop, H1, H2.
Qed.

Lemma joint_refl q : joint q [] [] q.
Proof. exists []. by split; [constructor|]. Qed.

Lemma joint_app q1 p1 c1 q2 p2 c2 q3 :
  joint q1 p1 c1 q2 -> joint q2 p2 c2 q3 -> joint q1 (p1 ++ p2) (c1 ++ c2) q3.
Proof.
  intros (l1&H1&<-&<-) (l2&H2&<-&<-). exists (l1 ++ l2).
  rewrite by_producer_app, by_consumer_app. split; [by eapply legal_app|done].
Qed.

Lemma joint_one op r q q' :
  spec_op op q = (r, q') ->
  joint q (if producer_op op then [(op, r)] else []) (if producer_op op then [] else [(op, r)]) q'.
Proof.
  intros H. exists [(op, r)]. split; [by apply legal_one|].
  unfold by_producer, by_consumer. cbn. by destruct (producer_op op).
Qed.

Lemma joint_publish q ev : joint q [(OpPublish ev, ResPublish (spec_publish q ev).1)] [] (spec_publish q ev).2.
Proof. apply (joint_one (OpPublish ev)). cbn. by destruct (spec_publish q ev). Qed.

Lemma joint_close q : joint q (closures 1) [] (q_close q).
Proof. by apply (joint_one OpClose). Qed.

(** The publications of [evs] with [results]. *)
Definition attempts (evs : list EventData) (results : list PublishResult) : history :=
  zip (map OpPublish evs) (map ResPublish results).

Lemma attempts_app evs1 rs1 evs2 rs2 :
  length rs1 = length evs1 -> attempts (evs1 ++ evs2) (rs1 ++ rs2) = attempts evs1 rs1 ++ attempts evs2 rs2.
Proof. intros Hl. unfold attempts. rewrite !map_app. apply zip_with_app. by rewrite !length_map. Qed.

(** ** The producer's share *)

Lemma spec_publish_cases q ev r q1 :
  spec_publish q ev = (r, q1) ->
  (r = PublishResult_Ok /\ q_state q = RingState_Ready /\ q1 = q_enqueue q ev) \/
  (r <> PublishResult_Ok /\ q1 = q).
Proof.
  unfold spec_publish. destruct (decide (q_state q <> RingState_Ready)) as [|Hst].
  { intros [= <- <-]. by right. }
  repeat (case_bool; [by intros [= <- <-]; right|]). intros [= <- <-]. left.
  split_and!; [done| |done]. destruct (decide (q_state q = RingState_Ready)); tauto.
Qed.

(** Publications, then closures. *)
Lemma legal_producer q log q' :
  legal q log q' -> q_state q = RingState_Ready \/ q_state q = RingState_Closed ->
  exists n, successes (by_producer log) = publications (published_in log) ++ closures n /\
    (q_state q = RingState_Closed -> published_in log = []) /\
    q_state q' = (if decide (n = 0%nat) then q_state q else RingState_Closed).
Proof.
  unfold successes, by_producer.
  induction 1 as [q|q op r q1 log q2 Hop _ IH]; intros Hst; [by exists 0%nat|].
  rewrite published_in_cons. destruct op as [ev| | |]; cbn in Hop.
  - destruct (spec_publish q ev) as [pr q1'] eqn:Hp. injection Hop as <- <-.
    destruct (spec_publish_cases _ _ _ _ Hp) as [(->&Hready&->)|[Hr ->]].
    + destruct (IH Hst) as (n&Hs&_&Hst'). exists n. cbn in Hst' |- *. rewrite Hs.
      split; [done|]. split; [by rewrite Hready|done].
    + destruct (IH Hst) as (n&Hs&Hpub&Hst'). exists n. by destruct pr.
  - assert (q_state q1 = q_state q) as Heq.
    { unfold spec_acquire in Hop. destruct (q_held q); [by injection Hop as _ <-|].
      destruct (q_events q); by injection Hop as _ <-. }
    rewrite Heq in IH. exact (IH Hst).
  - assert (q_state q1 = q_state q) as Heq.
    { unfold spec_release in Hop. destruct (q_held q); by injection Hop as _ <-. }
    rewrite Heq in IH. exact (IH Hst).
  - injection Hop as <- <-. destruct (IH (or_intror eq_refl)) as (n&Hs&Hpub&Hst').
    exists (S n). cbn in Hpub, Hst' |- *. rewrite Hpub in Hs |- * by done. rewrite Hs.
    split; [done|]. split; [done|]. rewrite Hst'. by destruct (decide _).
Qed.

(** Publishing what there is room for. *)
Lemma legal_publications evs q :
  q_state q = RingState_Ready ->
  Forall (fun ev => payload_size ev <= slot_payload_capacity (q_config q)) evs ->
  q_write q + Z.of_nat (length evs) <= u64_max ->
  q_length q + Z.of_nat (length evs) <= slot_count (q_config q) ->
  legal q (publications evs)
    (Queue (q_config q) (q_state q) (q_read q) (q_events q ++ evs) (q_held q)).
Proof.
  revert q. induction evs as [|ev evs IH]; intros q Hst Hf Hw Hl.
  { rewrite app_nil_r. destruct q. constructor. }
  apply Forall_cons in Hf as [Hev Hf]. cbn [length] in Hw, Hl. cbn [publications map].
  pose proof (spec_publish_Ok q ev Hst Hev ltac:(lia) ltac:(lia)) as Hp.
  apply (legal_cons _ _ _ (q_enqueue q ev)); [cbn; by rewrite Hp|].
  specialize (IH (q_enqueue q ev) Hst Hf). cbn in IH. rewrite <- app_assoc in IH. apply IH.
  - rewrite q_write_enqueue. lia.
  - unfold q_length in *. cbn. rewrite length_app. simpl. lia.
Qed.

Lemma legal_closures n q : (0 < n)%nat -> legal q (closures n) (q_close q).
Proof.
  intros Hn. destruct n as [|n]; [lia|]. clear Hn. econstructor; [done|].
  induction n as [|n IH]; [constructor|]. by econstructor.
Qed.

(** ** The consumer's share *)

(** [n] operations in turn: release what is held, acquire the next event. *)
Fixpoint script (n : nat) (held : bool) (evs : list EventData) : history :=
  match n, held, evs with
  | O, _, _ => []
  | S n, true, _ => (OpRelease, ResRelease true) :: script n false (tail evs)
  | S n, false, ev :: _ => (OpAcquire, ResAcquire (Value ev)) :: script n true evs
  | S n, false, [] => []
  end.

Lemma script_shares n held evs :
  by_producer (script n held evs) = [] /\ by_consumer (script n held evs) = script n held evs /\
  successes (script n held evs) = script n held evs.
Proof.
  revert held evs. induction n as [|n IH]; intros held evs; [done|].
  destruct held; [|destruct evs as [|ev evs]; [done|]]; cbn;
    match goal with |- context [script n ?h ?e] => destruct (IH h e) as (H1&H2&H3) end;
    unfold by_producer, by_consumer, successes in *; cbn; by rewrite H1, H2, H3.
Qed.

Lemma script_legal n q : exists q', legal q (script n (q_held q) (q_events q)) q'.
Proof.
  revert q. induction n as [|n IH]; intros q; [eexists; constructor|]. cbn [script].
  destruct (q_held q) eqn:Hh.
  - destruct (IH (q_dequeue q)) as [q' Hq']. exists q'. econstructor; [|exact Hq'].
    cbn. unfold spec_release. by rewrite Hh.
  - destruct (q_events q) as [|ev evs] eqn:Hq; [eexists; constructor|].
    destruct (IH (q_hold q)) as [q' Hq']. cbn in Hq'. rewrite Hq in Hq'. exists q'.
    econstructor; [|exact Hq']. cbn. unfold spec_acquire. by rewrite Hh, Hq.
Qed.

Lemma legal_consumer q log q' :
  legal q log q' -> queue_ok q -> Forall op_ok (map fst log) ->
  exists n, Z.of_nat n + Z.b2z (q_held q) = 2 * (q_read q' - q_read q) + Z.b2z (q_held q') /\
    forall m, script (n + m) (q_held q) (q_events q ++ published_in log) =
      successes (by_consumer log) ++ script m (q_held q') (q_events q').
Proof.
  unfold successes, by_consumer.
  induction 1 as [q|q op r q1 log q2 Hop _ IH]; intros Hok Hops.
  { exists 0%nat. split; [lia|]. intros m. by rewrite app_nil_r. }
  cbn in Hops. apply Forall_cons in Hops as [Hop' Hops].
  pose proof (spec_op_ok op q Hok Hop') as Hok1. rewrite Hop in Hok1.
  destruct (IH Hok1 Hops) as (n&Hn&Hm). rewrite published_in_cons. destruct op as [ev| | |]; cbn in Hop.
  - destruct (spec_publish q ev) as [pr q1'] eqn:Hp. injection Hop as <- <-. exists n.
    destruct (spec_publish_cases _ _ _ _ Hp) as [(->&_&->)|[Hr ->]].
    + split; [exact Hn|]. intros m. specialize (Hm m). cbn in Hm. by rewrite <- app_assoc in Hm.
    + split; [exact Hn|]. intros m. by destruct pr.
  - unfold spec_acquire in Hop. destruct (q_held q) eqn:Hh; [|destruct (q_events q) as [|ev evs] eqn:Hq].
    + injection Hop as <- <-. exists n. rewrite Hh in *. by split.
    + injection Hop as <- <-. exists n. rewrite Hh, Hq in *. by split.
    + injection Hop as <- <-. exists (S n). cbn [q_hold q_dequeue q_held q_read q_events Z.b2z] in Hn, Hm |- *. split; [lia|].
      intros m. specialize (Hm m). rewrite Hq in Hm. cbn. by rewrite <- Hm.
  - unfold spec_release in Hop. destruct (q_held q) eqn:Hh.
    + injection Hop as <- <-. exists (S n). cbn [q_hold q_dequeue q_held q_read q_events Z.b2z] in Hn, Hm |- *. split; [lia|].
      intros m. specialize (Hm m). pose proof (queue_held _ Hok Hh).
      destruct (q_events q) as [|ev evs]; [done|]. cbn in Hm |- *. by rewrite <- Hm.
    + injection Hop as <- <-. exists n. rewrite Hh in *. by split.
  - injection Hop as <- <-. exists n. by split.
Qed.

(** ** What a legal history says *)

Lemma op_ok_history log : Forall op_ok (map fst (by_producer log)) -> Forall op_ok (map fst log).
Proof.
  unfold by_producer. induction log as [|[op r] log IH]; [done|]. cbn.
  destruct op; cbn; try (intros Hops; constructor; [done|by apply IH]).
  all: intros [Hop Hops]%Forall_cons; constructor; [done|by apply IH].
Qed.

(** Nothing is lost, invented, repeated or reordered. *)
Lemma legal_fifo q log q' :
  legal q log q' -> queue_ok q -> Forall op_ok (map fst log) ->
  q_pending q ++ published_in log = acquired (map snd log) ++ q_pending q'.
Proof.
  intros Hl Hok Hops. apply legal_spec_ops in Hl.
  pose proof (spec_ops_history (map fst log) q Hok Hops) as Hh. by rewrite Hl in Hh.
Qed.

Lemma closed_empty q log q' :
  legal q log q' -> q_state q = RingState_Closed -> q_events q = [] -> q_events q' = [].
Proof.
  induction 1 as [q|q op r q1 log q2 Hop _ IH]; intros Hst Hev; [done|]. destruct op; cbn in Hop.
  - unfold spec_publish in Hop. rewrite decide_True in Hop by by rewrite Hst.
    injection Hop as _ <-. by apply IH.
  - unfold spec_acquire in Hop. rewrite Hev in Hop. destruct (q_held q); injection Hop as _ <-; by apply IH.
  - unfold spec_release in Hop. destruct (q_held q); injection Hop as _ <-; apply IH; try done.
    cbn. by rewrite Hev.
  - injection Hop as _ <-. by apply IH.
Qed.

(** Once an acquisition has said [Closed] there is nothing left. *)
Lemma legal_closed q log q' :
  legal q log q' -> ResAcquire (Unexpected AcquireError_Closed) ∈ map snd log -> q_pending q' = [].
Proof.
  intros Hl Hin. assert (q_events q' = []) as Hev; [|unfold q_pending; by rewrite Hev; destruct (q_held q')].
  induction Hl as [q|q op r q1 log q2 Hop Hl IH]; [by apply elem_of_nil in Hin|].
  apply elem_of_cons in Hin as [Hr|Hin]; [|by apply IH]. cbn in Hr. subst r. destruct op; cbn in Hop.
  - by destruct (spec_publish q ev).
  - unfold spec_acquire in Hop. destruct (q_held q); [done|]. destruct (q_events q) eqn:Hev; [|done].
    destruct (decide (q_state q = RingState_Closed)); [|done]. injection Hop as <-. by apply (closed_empty q log).
  - by destruct (spec_release q).
  - done.
Qed.

Lemma legal_valid q log q' :
  legal q log q' -> ResAcquire (Unexpected AcquireError_InvalidSlot) ∉ map snd log.
Proof.
  induction 1 as [q|q op r q1 log q2 Hop Hl IH]; [by intros ?%elem_of_nil|].
  intros [Hr|Hin]%elem_of_cons; [|done]. cbn in Hr. subst r. destruct op; cbn in Hop.
  - by destruct (spec_publish q ev).
  - unfold spec_acquire in Hop. destruct (q_held q); [done|]. destruct (q_events q); [by destruct (decide _)|done].
  - by destruct (spec_release q).
  - done.
Qed.

(** The results of the consumer are those of its operations. *)
Lemma acquired_by_consumer q log q' :
  legal q log q' -> acquired (map snd (by_consumer log)) = acquired (map snd log).
Proof.
  unfold by_consumer. induction 1 as [q|q op r q1 log q2 Hop Hl IH]; [done|].
  destruct op; cbn in Hop |- *.
  - destruct (spec_publish q ev). injection Hop as <- _. by rewrite IH.
  - destruct (spec_acquire q) as [[] ?]; injection Hop as <- _; by rewrite IH.
  - destruct (spec_release q). injection Hop as <- _. by rewrite IH.
  - injection Hop as <- _. by rewrite IH.
Qed.

Lemma in_by_consumer r log : r ∈ map snd (by_consumer log) -> r ∈ map snd log.
Proof.
  unfold by_consumer. induction log as [|[op r'] log IH]; [done|]. cbn.
  destruct (negb (producer_op op)); cbn; rewrite ?elem_of_cons; intros H; [|auto].
  destruct H as [->|H]; [by left|right; by apply IH].
Qed.
