(* ===== verification/RingConcurrent.v ===== *)
(** * A ring shared by two threads

    A producer publishes while a consumer attaches and acquires, concurrently, access by
    access, under release/acquire memory. No execution has a data race or any other
    undefined behaviour; every execution can be completed; and each thread can explain what
    it saw by one legal history of the abstract queue, which has all its own operations and
    the successful ones of the other thread. First-in first-out delivery follows. *)

From S2P Require Import Prelude Bytes Event Memory RingLayout Ring RingSpec RingGeometry.
From S2P Require Import RingRefinement RingSafety RingSystem RingInit Weak RingWeak RingWeakSpec RingAttach RingHistory.

(** ** Clients *)

Section Clients.
Context (c : RingConfig) (Hc : valid_config c) (base : Z).

Abbreviation consumer_knows := (consumer_knows c base).
Abbreviation producer_knows := (producer_knows c base).
Abbreviation consumer_queue := (consumer_queue c base).
Abbreviation producer_queue := (producer_queue c base).
Abbreviation learns := (learns c base).

(** *** The consumer *)

(** The closures in between, if the consumer has come to know of them. *)
Definition closing (n : nat) (k k' : cknow) : history :=
  if negb (ck_closed k) && ck_closed k' then closures n else [].

Lemma closing_shares n k k' :
  by_producer (closing n k k') = closing n k k' /\ by_consumer (closing n k k') = [] /\
  published_in (closing n k k') = [].
Proof using.
  unfold closing. destruct (_ && _); [|done].
  split_and!; [apply by_producer_closures|apply by_consumer_closures|apply published_in_closures].
Qed.

(** What the consumer learned between [k] and [k'], as operations of the producer; [n] is
    how often that closes the ring, if it does. *)
Definition learned (n : nat) (k k' : cknow) (log : history) : Prop :=
  exists evs, ck_events k' = ck_events k ++ evs /\
    (ck_closed k = true -> ck_closed k' = true /\ evs = []) /\
    log = publications evs ++ closing n k k'.

Lemma learned_nothing n k k' :
  ck_events k' = ck_events k -> ck_closed k' = ck_closed k -> learned n k k' [].
Proof using.
  intros He Hcl. exists []. rewrite He, app_nil_r. split_and!; [done|by rewrite Hcl|].
  unfold closing. rewrite Hcl. by destruct (ck_closed k).
Qed.

Lemma learned_app n k k1 k2 l1 l2 : learned n k k1 l1 -> learned n k1 k2 l2 -> learned n k k2 (l1 ++ l2).
Proof using.
  intros (evs1&E1&C1&->) (evs2&E2&C2&->). exists (evs1 ++ evs2).
  split; [by rewrite E2, E1, app_assoc|]. split.
  { intros Hcl. destruct (C1 Hcl) as [Hcl1 ->]. destruct (C2 Hcl1) as [Hcl2 ->]. done. }
  unfold closing, publications. rewrite map_app. destruct (ck_closed k) eqn:Hk.
  - destruct (C1 eq_refl) as [-> ->]. cbn. by rewrite !app_nil_r.
  - destruct (ck_closed k1) eqn:Hk1; cbn [negb andb].
    + destruct (C2 eq_refl) as [-> ->]. cbn. by rewrite !app_nil_r.
    + by rewrite app_nil_r, app_assoc.
Qed.

Lemma learned_shares n k k' log :
  learned n k k' log -> by_producer log = log /\ by_consumer log = [].
Proof using.
  intros (evs&_&_&->). destruct (closing_shares n k k') as (Hp&Hc'&_).
  autorewrite with history. by rewrite Hp, Hc'.
Qed.

(** It has happened. *)
Lemma learns_legal n k k' h :
  (0 < n)%nat -> consumer_knows k h -> learns k k' ->
  exists log, learned n k k' log /\ legal (consumer_queue k h) log (consumer_queue k' h).
Proof using.
  intros Hn Hk [Hr [evs Hev] Hcl Hroom Hbd Hf _]. exists (publications evs ++ closing n k k').
  assert (Hcl' : ck_closed k = true -> ck_closed k' = true /\ evs = []).
  { intros Hclk. specialize (Hcl Hclk). subst k'. split; [done|].
    apply (app_inv_head (ck_events k)). by rewrite <- Hev, app_nil_r. }
  split; [by exists evs|]. unfold closing. destruct (ck_closed k) eqn:Hclk.
  { destruct (Hcl' eq_refl) as [_ ->]. rewrite (Hcl eq_refl). constructor. }
  cbn [negb andb]. pose proof (cn_order _ _ _ _ Hk) as Ho. unfold ck_write in *.
  assert (length (ck_events k') = (length (ck_events k) + length evs)%nat) as Hl
    by by rewrite Hev, length_app.
  set (q1 := Queue c RingState_Ready (ck_read k) (drop (Z.to_nat (ck_read k - base)) (ck_events k) ++ evs)
               (acquired_ h)).
  apply (legal_app _ _ q1).
  - pose proof (legal_publications evs (consumer_queue k h)) as Hp. cbn in Hp. rewrite Hclk in Hp.
    apply Hp; [done| | |]; unfold q_write, q_length; cbn; rewrite ?length_drop; try lia.
    rewrite Hev in Hf. apply Forall_app in Hf as [_ Hf]. eapply Forall_impl; [exact Hf|]. by intros ev [_ ?].
  - assert (consumer_queue k' h = if ck_closed k' then q_close q1 else q1) as ->.
    { unfold RingWeakSpec.consumer_queue, q_close, q1. cbn. rewrite Hr, Hev, drop_app_le by lia.
      by destruct (ck_closed k'). }
    destruct (ck_closed k'); [by apply legal_closures|constructor].
Qed.

(** A stretch of the consumer: its operations, and what it has learned of the producer's. *)
Definition consumer_explains (n : nat) (k : cknow) (h : SpscRing) (ops : list ring_op)
    (rs : list ring_result) (k' : cknow) (h' : SpscRing) : Prop :=
  exists log, legal (consumer_queue k h) log (consumer_queue k' h') /\
    by_consumer log = zip ops rs /\ learned n k k' (by_producer log).

Lemma explains_learned n k h k' :
  (0 < n)%nat -> consumer_knows k h -> learns k k' -> consumer_explains n k h [] [] k' h.
Proof using.
  intros Hn Hk Hl. destruct (learns_legal n k k' h Hn Hk Hl) as (log&Hlog&Hleg).
  destruct (learned_shares _ _ _ _ Hlog) as [Hp Hc']. exists log. by rewrite Hp, Hc'.
Qed.

(** An operation on the queue as the consumer knows it. *)
Lemma explains_op n k h k' h' op r :
  producer_op op = false -> ck_events k' = ck_events k -> ck_closed k' = ck_closed k ->
  spec_op op (consumer_queue k h) = (r, consumer_queue k' h') ->
  consumer_explains n k h [op] [r] k' h'.
Proof using.
  intros Hop Hev Hcl Hspec. exists [(op, r)]. unfold by_consumer, by_producer. cbn. rewrite Hop.
  split; [by apply legal_one|]. split; [done|by apply learned_nothing].
Qed.

Lemma explains_app n k h ops1 rs1 k1 h1 ops rs k2 h2 :
  length ops1 = length rs1 ->
  consumer_explains n k h ops1 rs1 k1 h1 -> consumer_explains n k1 h1 ops rs k2 h2 ->
  consumer_explains n k h (ops1 ++ ops) (rs1 ++ rs) k2 h2.
Proof using.
  intros Hlen (log1&L1&B1&P1) (log2&L2&B2&P2). exists (log1 ++ log2).
  split; [by eapply legal_app|]. rewrite by_consumer_app, by_producer_app, B1, B2.
  split; [by rewrite zip_with_app|by eapply learned_app].
Qed.

Lemma consumer_client ops k h :
  consumer_knows k h -> forallb (fun op => negb (producer_op op)) ops = true ->
  safe_consumer c base (client ops h) k (fun a k' =>
    length a.1 = length ops /\ consumer_knows k' a.2 /\
    forall n, (0 < n)%nat -> consumer_explains n k h ops a.1 k' a.2).
Proof using Hc.
  revert k h. induction ops as [|op ops IH]; intros k h Hk Hcons.
  { cbn. split; [done|]. split; [done|]. intros n Hn. exists [].
    split; [constructor|]. split; [done|by apply learned_nothing]. }
  cbn [forallb] in Hcons. apply andb_true_iff in Hcons as [Hop Hcons]. cbn [client].
  apply safe_consumer_bind.
  assert (Hrest : forall k1 h1 r, consumer_knows k1 h1 ->
    (forall n, (0 < n)%nat -> consumer_explains n k h [op] [r] k1 h1) ->
    safe_consumer c base (rest ← client ops h1; mret (r :: rest.1, rest.2)) k1 (fun a k' =>
      length a.1 = S (length ops) /\ consumer_knows k' a.2 /\
      forall n, (0 < n)%nat -> consumer_explains n k h (op :: ops) a.1 k' a.2)).
  { intros k1 h1 r Hk1 Hr. apply safe_consumer_bind. eapply safe_consumer_mono; [|by apply IH].
    intros [rs h2] k2 (Hl&Hk2&Hrs). cbn [safe_consumer mret prog_ret fst snd] in *.
    split; [cbn; lia|]. split; [done|]. intros n Hn. apply (explains_app n k h [op] [r] k1 h1); [done|by apply Hr|by apply Hrs]. }
  destruct op as [ev| | |]; try done.
  - apply (safe_acquire c Hc base k h); [done|]. intros k1 h1 r Hk1 Hl Hr. cbn [fst snd].
    apply Hrest; [done|]. intros n Hn.
    apply (explains_app n k h [] [] k1 h [OpAcquire]); [done|by apply explains_learned|].
    apply explains_op; [done..|]. cbn [spec_op]. by rewrite Hr.
  - cbn [op_prog]. apply safe_consumer_bind. apply (safe_release c base k h); [done|].
    intros k1 h1 r Hk1 He Hcl _ Hr _. cbn [safe_consumer mret prog_ret fst snd].
    apply Hrest; [done|]. intros n _.
    apply explains_op; [done..|]. cbn [spec_op]. by rewrite Hr.
Qed.

(** *** The producer *)

(** One release the producer has acquired: the consumer took the event before, unless it
    held it from the start. *)
Lemma release_legal held k h :
  producer_knows k h -> pk_read k < pk_write base k ->
  exists log, legal (producer_queue held k) log (producer_queue held (set_pk_read k (pk_read k + 1))) /\
    by_producer log = [] /\ successes (by_consumer log) = by_consumer log.
Proof using.
  intros Hk Hlt. pose proof (pn_order _ _ _ _ Hk) as Ho. unfold pk_write in *.
  destruct (lookup_lt_is_Some_2 (pk_events k) (Z.to_nat (pk_read k - base))) as [ev Hev]; [lia|].
  apply drop_S in Hev.
  assert (Hnext : forall q, q_config q = c -> q_state q = pk_state k -> q_read q = pk_read k ->
    q_events q = drop (Z.to_nat (pk_read k - base)) (pk_events k) -> q_held q = true ->
    spec_release q = (true, producer_queue held (set_pk_read k (pk_read k + 1)))).
  { intros [c' st r evs hd]. cbn. intros -> -> -> -> ->. unfold spec_release, q_dequeue. cbn.
    unfold RingWeakSpec.producer_queue. cbn. rewrite tail_drop, (proj2 (Z.eqb_neq _ _)), andb_false_r by lia.
    by replace (Z.to_nat (pk_read k + 1 - base)) with (S (Z.to_nat (pk_read k - base))) by lia. }
  destruct (q_held (producer_queue held k)) eqn:Hheld.
  - exists [(OpRelease, ResRelease true)]. split; [|done]. apply legal_one. cbn [spec_op].
    by rewrite (Hnext (producer_queue held k)).
  - exists [(OpAcquire, ResAcquire (Value ev)); (OpRelease, ResRelease true)]. split; [|done].
    apply (legal_cons _ _ _ (q_hold (producer_queue held k))).
    + cbn. unfold spec_acquire. rewrite Hheld. cbn. by rewrite Hev.
    + apply legal_one. cbn [spec_op]. by rewrite (Hnext (q_hold (producer_queue held k))).
Qed.

Lemma releases_legal held k h r :
  producer_knows k h -> pk_read k <= r <= pk_write base k ->
  exists log, legal (producer_queue held k) log (producer_queue held (set_pk_read k r)) /\
    by_producer log = [] /\ successes (by_consumer log) = by_consumer log.
Proof using.
  intros Hk Hr. remember (Z.to_nat (r - pk_read k)) as n eqn:Hn. revert k Hk Hr Hn.
  induction n as [|n IH]; intros k Hk Hr Hn.
  - replace r with (pk_read k) by lia. rewrite set_pk_read_same. exists []. split; [constructor|done].
  - destruct (release_legal held k h Hk ltac:(lia)) as (log1&L1&P1&S1).
    pose proof (producer_knows_read c base k h (pk_read k + 1) Hk ltac:(lia)) as Hk1.
    destruct (IH _ Hk1) as (log2&L2&P2&S2); [unfold pk_write in *; cbn; lia|cbn; lia|].
    exists (log1 ++ log2). split; [by eapply legal_app|].
    rewrite by_producer_app, by_consumer_app, P1, P2. split; [done|].
    unfold successes in *. by rewrite List.filter_app, S1, S2.
Qed.

(** A stretch of the producer: its operations, and what it has learned of the consumer's. *)
Definition producer_explains (held : bool) (k : pknow) (ops : list ring_op) (rs : list ring_result)
    (k' : pknow) : Prop :=
  exists log, legal (producer_queue held k) log (producer_queue held k') /\
    by_producer log = zip ops rs /\ successes (by_consumer log) = by_consumer log.

Lemma explains_publish held k h k' ev r :
  producer_knows k h -> pk_read k <= pk_read k' <= pk_write base k ->
  spec_publish (producer_queue held (set_pk_read k (pk_read k'))) ev = (r, producer_queue held k') ->
  producer_explains held k [OpPublish ev] [ResPublish r] k'.
Proof using.
  intros Hk Hr Hspec. destruct (releases_legal held k h (pk_read k') Hk Hr) as (log&L&P&S).
  exists (log ++ [(OpPublish ev, ResPublish r)]). split.
  - eapply legal_app; [exact L|]. apply legal_one. cbn [spec_op]. by rewrite Hspec.
  - rewrite by_producer_app, by_consumer_app, P. cbn. by rewrite app_nil_r.
Qed.

Lemma producer_explains_cons held k op r k1 ops rs k2 :
  producer_explains held k [op] [r] k1 -> producer_explains held k1 ops rs k2 ->
  producer_explains held k (op :: ops) (r :: rs) k2.
Proof using.
  intros (log1&L1&P1&S1) (log2&L2&P2&S2). exists (log1 ++ log2). split; [by eapply legal_app|].
  rewrite by_producer_app, by_consumer_app, P1, P2. split; [done|].
  unfold successes in *. by rewrite List.filter_app, S1, S2.
Qed.

Lemma producer_client held ops k h :
  producer_knows k h -> Forall op_ok ops -> forallb producer_op ops = true ->
  safe_producer c base (client ops h) k (fun a k' =>
    length a.1 = length ops /\ producer_knows k' a.2 /\
    pk_events k' = pk_events k ++ published ops a.1 /\
    producer_explains held k ops a.1 k').
Proof using Hc.
  revert k h. induction ops as [|op ops IH]; intros k h Hk Hok Hprod.
  { cbn. rewrite app_nil_r. split_and!; try done. exists []. by split; [constructor|]. }
  apply Forall_cons in Hok as [Hop Hok]. cbn [forallb] in Hprod. apply andb_true_iff in Hprod as [Hp Hprod].
  cbn [client]. apply safe_producer_bind.
  assert (Hrest : forall k1 h1 r, producer_knows k1 h1 ->
    pk_events k1 = pk_events k ++ published [op] [r] ->
    (producer_explains held k [op] [r] k1) ->
    safe_producer c base (rest ← client ops h1; mret (r :: rest.1, rest.2)) k1 (fun a k' =>
      length a.1 = S (length ops) /\ producer_knows k' a.2 /\
      pk_events k' = pk_events k ++ published (op :: ops) a.1 /\
      producer_explains held k (op :: ops) a.1 k')).
  { intros k1 h1 r Hk1 He Hr. apply safe_producer_bind. eapply safe_producer_mono; [|by apply IH].
    intros [rs h2] k2 (Hl&Hk2&He2&Hrs). cbn [safe_producer mret prog_ret fst snd] in *.
    split; [cbn; lia|]. split; [done|]. split; [|by eapply producer_explains_cons].
    rewrite He2, He, <- app_assoc. f_equal. by destruct op, r as [[]|?|?|?]. }
  destruct op as [ev| | |]; try done; cbn [op_prog]; apply safe_producer_bind.
  - apply (safe_try_publish c Hc base held k h); [done..|]. intros k1 h1 r Hk1 Hr Hev1 Hspec _.
    cbn [safe_producer mret prog_ret fst snd]. apply Hrest; [done| |].
    + rewrite Hev1. by destruct r.
    + by eapply explains_publish.
  - apply (safe_close c base held k h); [done|]. intros Hk1 Hspec.
    cbn [safe_producer mret prog_ret fst snd]. apply Hrest; [done|by rewrite app_nil_r|].
    exists [(OpClose, ResClose true)]. split; [|done]. apply legal_one. done.
Qed.
End Clients.

(** ** The start *)

Definition start_producer (m : list byte) (q : queue) : pknow :=
  PKnow (q_events q) (q_read q) (q_state q) m.
Definition start_consumer (m : list byte) (q : queue) : cknow :=
  CKnow (q_events q) (q_read q) (bool_decide (q_state q = RingState_Closed)) (take 192 m).

Lemma at_rest_history m q a :
  ring_repr m q ->
  wm_history (at_rest m) preamble_state = [Message (RingState_value (q_state q)) view_init] /\
  wm_history (at_rest m) producer_position = [Message (q_write q) view_init] /\
  wm_history (at_rest m) consumer_position = [Message (q_read q) view_init] /\
  forall msg, msg ∈ wm_history (at_rest m) a -> msg_view msg = view_init.
Proof.
  intros [_ _ _ Hs Hw Hr _ _ _]. split_and!; try (cbn; by rewrite ?Hs, ?Hw, ?Hr).
  intros msg. unfold at_rest. cbn [wm_history].
  destruct (List.find _ _) as [[o w]|]; [destruct (load_word m a w)|].
  - by intros ->%list_elem_of_singleton.
  - by intros ?%elem_of_nil.
  - by intros ?%elem_of_nil.
Qed.

Lemma start_covers m q :
  ring_repr m q ->
  covers (q_config q) (q_read q) (length (q_events q)) (at_rest m) (q_read q) (q_write q) view_init.
Proof.
  intros Hm. destruct (at_rest_history m q 0%nat Hm) as (Hhs&Hhw&Hhr&_). pose proof (repr_ok _ _ Hm) as [Hq0 Hqw _ _ _].
  split; [|by intros; apply Nat.le_0_l|by intros; apply Nat.le_0_l].
  intros a n Ha. apply ring_atomic_cases in Ha as [[-> ->]|[[-> ->]|[-> ->]]];
    rewrite ?Hhs, ?Hhw, ?Hhr; cbn; lia.
Qed.

Lemma start_inv m hp hc q :
  sys_repr (RingSys m hp hc) q -> in_use q ->
  inv (q_config q) (q_read q) (length (q_events q)) (at_rest m) view_init view_init
    (start_producer m q) (start_consumer m q).
Proof.
  intros [Hm Hp Hcs Hi] Huse. cbn in Hm.
  pose proof (fun a => at_rest_history m q a Hm) as Hh.
  destruct (Hh 0%nat) as (Hhs&Hhw&Hhr&_).
  pose proof Hm as [Hv [Hq0 Hqw Hqb Hqe Hqh] Hsz _ _ _ Hslots Hres _].
  pose proof (start_covers m q Hm) as Hcov.
  split.
  - split.
    + intros i msg. rewrite Hhw. intros [-> <-]%list_lookup_singleton_Some. cbn. unfold q_write, q_length. lia.
    + rewrite Hhw. unfold pk_write. cbn. lia.
    + intros i msg. rewrite Hhr. intros [-> <-]%list_lookup_singleton_Some. cbn. lia.
    + rewrite Hhr. cbn. lia.
    + exists [q_state q]. rewrite Hhs. split_and!; [done..|]. by constructor.
    + intros msg. rewrite Hhs. unfold last_index. rewrite Hhw.
      intros ->%list_elem_of_singleton. cbn. intros Hst. split; [|done].
      by destruct (q_state q).
    + intros a n i msg Ha Hmsg. destruct (Hh a) as (_&_&_&Hview).
      rewrite (Hview msg) by by eapply list_elem_of_lookup_2.
      apply ring_atomic_cases in Ha as [[-> ->]|[[-> ->]|[-> ->]]];
        rewrite ?Hhs, ?Hhw, ?Hhr in Hmsg; apply list_lookup_singleton_Some in Hmsg as [-> _]; done.
    + intros i j msgi msgj _. rewrite Hhs.
      by intros [_ <-]%list_lookup_singleton_Some [_ <-]%list_lookup_singleton_Some.
  - unfold q_write, q_length in *.
    split; try done; unfold pk_write, ck_write; cbn; try done; try lia.
    intros Hcl%bool_decide_eq_true. done.
  - unfold last_index. by rewrite Hhw.
  - unfold last_index. by rewrite Hhs.
  - unfold last_index. by rewrite Hhr.
  - done.
  - cbn. lia.
  - intros i ev Hev _. cbn in Hev |- *. split; [by apply Hslots|]. split; [apply Hres|].
    rewrite Forall_lookup in Hqe. by apply (Hqe _ _ Hev).
  - intros b. done.
  - intros b. done.
  - intros v [->|[->|(a&n&msg&Ha&Hin&->)]]; [done..|]. destruct (Hh a) as (_&_&_&->); done.
  - intros Hcl%bool_decide_eq_true i msg _. rewrite Hhs.
    intros [_ <-]%list_lookup_singleton_Some. cbn. by rewrite Hcl.
  - unfold load_bytes. cbn [wm_bytes at_rest]. rewrite decide_True; [done|].
    pose proof (segment_size_bounds (q_config q) Hv). lia.
  - done.
Qed.

Lemma start_producer_knows m hp hc q :
  sys_repr (RingSys m hp hc) q -> producer_knows (q_config q) (q_read q) (start_producer m q) hp.
Proof.
  intros [[_ [Hq0 Hqw Hqb _ _] Hsz _ _ _ _ Hres _] [Hh Hcd] _ Hi].
  unfold q_write, q_length in *. split; try done; unfold pk_write; cbn; lia.
Qed.

Lemma start_consumer_knows m hp hc q :
  sys_repr (RingSys m hp hc) q -> consumer_knows (q_config q) (q_read q) (start_consumer m q) hc.
Proof.
  intros [[_ [Hq0 Hqw Hqb Hqe Hqh] _ _ _ _ _ _ _] _ [Hh Hcd Hheld Hpos] _].
  unfold q_write, q_length in *. split; try done; unfold ck_write; cbn; try lia.
  cbn in Hheld. rewrite Hheld. intros Ht. split; [by apply Hpos|].
  specialize (Hqh Ht). destruct (q_events q); [done|]. cbn. lia.
Qed.

(** A newly attached consumer replaces one that holds no view. *)
Lemma attached_repr m hp hc q :
  sys_repr (RingSys m hp hc) q -> q_held q = false ->
  sys_repr (RingSys m hp (construct_handle (q_config q) false)) q.
Proof.
  intros [Hm Hp _ Hi] Hh. split; try done. apply (attached_consumer_ok q (repr_ok _ _ Hm) Hh).
Qed.

(** ** Executions *)

Section Executions.
Context (c : RingConfig) (Hc : valid_config c) (base : Z) (first : nat).
Context {A B : Type} (QP : A -> pknow -> Prop) (QC : B -> cknow -> Prop).

(** Both threads run safely from here. *)
Definition safe_config (s : config A B) : Prop :=
  exists kp kc, inv c base first (cf_memory s) (cf_producer s).1 (cf_consumer s).1 kp kc /\
    safe_producer c base (cf_producer s).2 kp QP /\ safe_consumer c base (cf_consumer s).2 kc QC.

Lemma turn_safe t choice s : safe_config s -> exists s', turn t choice s = Some s' /\ safe_config s'.
Proof using Hc.
  destruct s as [m [vp pp] [vc pc]]. intros (kp&kc&Hinv&Hp&Hcs). cbn in Hinv, Hp, Hcs. destruct t; cbn [turn].
  - destruct (finished pp) eqn:Hf; [eexists; split; [done|]; by exists kp, kc|].
    destruct (safe_producer_sound c Hc base first m vp vc kp kc pp QP choice Hinv Hp Hf)
      as (v'&m'&p'&kp'&->&Hinv'&Hp'). eexists. split; [done|]. by exists kp', kc.
  - destruct (finished pc) eqn:Hf; [eexists; split; [done|]; by exists kp, kc|].
    destruct (safe_consumer_sound c Hc base first m vp vc kp kc pc QC choice Hinv Hcs Hf)
      as (v'&m'&p'&kc'&->&Hinv'&Hp'). eexists. split; [done|]. by exists kp, kc'.
Qed.

Lemma execute_safe schedule s :
  safe_config s -> exists s', execute schedule s = Some s' /\ safe_config s'.
Proof using Hc.
  revert s. induction schedule as [|[t choice] schedule IH]; intros s Hs; [by exists s|].
  destruct (turn_safe t choice s Hs) as (s1&Hrun&Hs1). cbn [execute]. rewrite Hrun. by apply IH.
Qed.

(** A step goes on with what follows the access. *)
Lemma access_continues {R} t choice v m (p : prog R) v' m' p' :
  access t choice v m p = Some (v', m', p') ->
  match p with
  | Load _ _ _ f => exists x, p' = f x
  | Store _ _ _ _ f | WriteBytes _ _ f => p' = f
  | ReadBytes _ _ f => exists bs, p' = f bs
  | Ret _ | Fault => False
  end.
Proof using.
  destruct p as [a|o w a f|o w a x f|a n f|a bs f|]; unfold access; try done.
  - destruct o; try done; (case_bool; [|done]).
    + destruct (load_word _ _ _); [|done]. intros [= _ _ <-]. by eexists.
    + destruct (wm_history m a !! _); [|done]. intros [= _ _ <-]. by eexists.
    + destruct (wm_history m a !! _); [|done]. intros [= _ _ <-]. by eexists.
  - destruct o; try done; (case_bool; [|done]).
    + destruct (store_word _ _ _ _); [|done]. by intros [= _ _ <-].
    + by intros [= _ _ <-].
    + by intros [= _ _ <-].
  - case_bool; [|done]. destruct (load_bytes _ _ _); [|done]. intros [= _ _ <-]. by eexists.
  - case_bool; [|done]. destruct (store_bytes _ _ _); [|done]. by intros [= _ _ <-].
Qed.

(** A turn of a thread that has not finished is one access. *)
Lemma turn_producer choice m vp (pp : prog A) vc (pc : prog B) s' :
  turn Producer choice (Threads m (vp, pp) (vc, pc)) = Some s' -> finished pp = false ->
  exists v' m' p', access Producer choice vp m pp = Some (v', m', p') /\ s' = Threads m' (v', p') (vc, pc).
Proof using.
  cbn [turn]. intros Hrun Hf. rewrite Hf in Hrun.
  destruct (access _ _ _ _ _) as [[[v' m'] p']|]; [|done]. injection Hrun as <-. by exists v', m', p'.
Qed.

Lemma turn_consumer choice m vp (pp : prog A) vc (pc : prog B) s' :
  turn Consumer choice (Threads m (vp, pp) (vc, pc)) = Some s' -> finished pc = false ->
  exists v' m' p', access Consumer choice vc m pc = Some (v', m', p') /\ s' = Threads m' (vp, pp) (v', p').
Proof using.
  cbn [turn]. intros Hrun Hf. rewrite Hf in Hrun.
  destruct (access _ _ _ _ _) as [[[v' m'] p']|]; [|done]. injection Hrun as <-. by exists v', m', p'.
Qed.

Lemma producer_finishes pp m vp vc pc :
  safe_config (Threads m (vp, pp) (vc, pc)) ->
  exists n m' vp' a, execute (replicate n (Producer, 0%nat)) (Threads m (vp, pp) (vc, pc)) =
    Some (Threads m' (vp', Ret a) (vc, pc)).
Proof using Hc.
  revert m vp. induction pp as [a|o w a f IH|o w a x f IH|a n f IH|a bs f IH|]; intros m vp Hs.
  { by exists 0%nat, m, vp, a. }
  5: { by destruct Hs as (?&?&_&?&_). }
  all: destruct (turn_safe Producer 0 _ Hs) as (s1&Hrun&Hs1).
  all: destruct (turn_producer _ _ _ _ _ _ _ Hrun eq_refl) as (v1&m1&p1&Hacc&->).
  all: apply access_continues in Hacc; match type of Hacc with ex _ => destruct Hacc as [y Hacc] | _ => idtac end; subst p1.
  all: first [destruct (IH _ _ _ Hs1) as (k&m'&vp'&r&Hex)|destruct (IH _ _ Hs1) as (k&m'&vp'&r&Hex)].
  all: exists (S k), m', vp', r; cbn [replicate execute]; by rewrite Hrun.
Qed.

Lemma consumer_finishes pc m vp vc pp :
  safe_config (Threads m (vp, pp) (vc, pc)) ->
  exists n m' vc' a, execute (replicate n (Consumer, 0%nat)) (Threads m (vp, pp) (vc, pc)) =
    Some (Threads m' (vp, pp) (vc', Ret a)).
Proof using Hc.
  revert m vc. induction pc as [a|o w a f IH|o w a x f IH|a n f IH|a bs f IH|]; intros m vc Hs.
  { by exists 0%nat, m, vc, a. }
  5: { by destruct Hs as (?&?&_&_&?). }
  all: destruct (turn_safe Consumer 0 _ Hs) as (s1&Hrun&Hs1).
  all: destruct (turn_consumer _ _ _ _ _ _ _ Hrun eq_refl) as (v1&m1&p1&Hacc&->).
  all: apply access_continues in Hacc; match type of Hacc with ex _ => destruct Hacc as [y Hacc] | _ => idtac end; subst p1.
  all: first [destruct (IH _ _ _ Hs1) as (k&m'&vc'&r&Hex)|destruct (IH _ _ Hs1) as (k&m'&vc'&r&Hex)].
  all: exists (S k), m', vc', r; cbn [replicate execute]; by rewrite Hrun.
Qed.

Lemma execute_app s1 s2 (s : config A B) : execute (s1 ++ s2) s = s' ← execute s1 s; execute s2 s'.
Proof using.
  revert s. induction s1 as [|[t choice] s1 IH]; intros s; [done|]. cbn [execute app].
  destruct (turn t choice s); [apply IH|done].
Qed.

(** Every execution can be continued until both threads have finished. *)
Lemma execution_finishes s :
  safe_config s ->
  exists schedule m vp vc a b, execute schedule s = Some (Threads m (vp, Ret a) (vc, Ret b)).
Proof using Hc.
  destruct s as [m [vp pp] [vc pc]]. intros Hs.
  destruct (producer_finishes pp m vp vc pc Hs) as (n&m1&vp1&a&Hrun1).
  destruct (execute_safe (replicate n (Producer, 0%nat)) _ Hs) as (s1&Hrun1'&Hs1).
  rewrite Hrun1 in Hrun1'. injection Hrun1' as <-.
  destruct (consumer_finishes pc m1 vp1 vc (Ret a) Hs1) as (n'&m2&vc2&b&Hrun2).
  exists (replicate n (Producer, 0%nat) ++ replicate n' (Consumer, 0%nat)), m2, vp1, vc2, a, b.
  rewrite execute_app, Hrun1. exact Hrun2.
Qed.
End Executions.


(** ** Every execution *)

(** What each thread has of the other: its successful operations. *)
Definition explained (q : queue) (own : ring_op -> bool) (ops : list ring_op) (rs : list ring_result)
    (other_ops : list ring_op) (other_rs : list ring_result) : Prop :=
  length rs = length ops /\ exists log q', legal q log q' /\
    List.filter (fun x => own x.1) log = zip ops rs /\
    List.filter (fun x => negb (own x.1)) log = successes (zip other_ops other_rs).

Definition consumer_op (op : ring_op) : bool := negb (producer_op op).

Section Final.
Context (q : queue) (m : list byte) (hp hc : SpscRing) (Hs : sys_repr (RingSys m hp hc) q) (Huse : in_use q).
Context (ops_p ops_c : list ring_op) (Hok : Forall op_ok ops_p).
Context (Hp : forallb producer_op ops_p = true) (Hcs : forallb consumer_op ops_c = true).

Let c := q_config q.
Let base := q_read q.

Definition producer_done (a : list ring_result * SpscRing) (k : pknow) : Prop :=
  length a.1 = length ops_p /\ producer_knows c base k a.2 /\
  pk_events k = q_events q ++ published ops_p a.1 /\
  producer_explains c base (q_held q) (start_producer m q) ops_p a.1 k.

Definition consumer_done (a : list ring_result * SpscRing) (k : cknow) : Prop :=
  length a.1 = length ops_c /\ consumer_knows c base k a.2 /\
  forall n, (0 < n)%nat -> consumer_explains c base n (start_consumer m q) hc ops_c a.1 k a.2.

Lemma start_safe :
  safe_config c base (length (q_events q)) producer_done consumer_done (start m hp hc ops_p ops_c).
Proof using Hs Huse Hok Hp Hcs.
  pose proof (repr_valid _ _ (sys_segment _ _ Hs)) as Hv. cbn in Hv.
  exists (start_producer m q), (start_consumer m q). split; [by eapply start_inv|]. split.
  - apply (producer_client _ Hv); [by eapply start_producer_knows|done..].
  - apply (consumer_client _ Hv); [by eapply start_consumer_knows|done].
Qed.

(** The same when the consumer first attaches, and so holds no view. *)
Definition attaching_done (r : expected (list ring_result * SpscRing) RingError) (k : cknow) : Prop :=
  exists a, r = Value a /\ consumer_done a k.

Lemma attaching_client memory :
  hc = construct_handle c false ->
  invalid_memory memory = false -> Z.of_nat (length m) = mem_size memory ->
  safe_consumer c base (attach_client memory ops_c) (start_consumer m q) attaching_done.
Proof using Hs Huse Hcs.
  intros Hhc Hmem Hlen. pose proof (repr_valid _ _ (sys_segment _ _ Hs)) as Hv. cbn in Hv.
  pose proof (start_inv m hp hc q Hs Huse) as Hinv. pose proof (start_consumer_knows m hp hc q Hs) as Hk.
  apply safe_consumer_bind, (safe_attach c base memory m q);
    [apply Hs|done..|exact (iv_header _ _ _ _ _ _ _ _ Hinv)|by eapply learns_refl|].
  fold c. rewrite <- Hhc. intros k Hl. apply safe_consumer_bind.
  eapply safe_consumer_mono; [|by eapply consumer_client, Hcs; [exact Hv|eapply consumer_learns_same]].
  intros a k' (Hla&Hk'&Hex). cbn. exists a. split; [done|]. split; [done|]. split; [done|].
  intros n Hn. apply (explains_app c base n _ _ [] [] k hc); [done|by apply explains_learned|by apply Hex].
Qed.

Lemma start_attaching_safe memory :
  hc = construct_handle c false ->
  invalid_memory memory = false -> Z.of_nat (length m) = mem_size memory ->
  safe_config c base (length (q_events q)) producer_done attaching_done
    (start_attaching m hp memory ops_p ops_c).
Proof using Hs Huse Hok Hp Hcs.
  intros Hhc Hmem Hlen. pose proof (repr_valid _ _ (sys_segment _ _ Hs)) as Hv. cbn in Hv.
  exists (start_producer m q), (start_consumer m q). split; [by eapply start_inv|].
  split; [|by apply attaching_client]. apply (producer_client _ Hv); [by eapply start_producer_knows|done..].
Qed.

(** Both start from the queue. *)
Lemma start_queues :
  producer_queue c base (q_held q) (start_producer m q) = q /\
  consumer_queue c base (start_consumer m q) hc = q.
Proof using Hs Huse.
  destruct Hs as [_ _ [_ _ Hheld _] _]. cbn in Hheld. pose proof Huse as Hst. unfold in_use in Hst.
  unfold producer_queue, consumer_queue, start_producer, start_consumer, c, base. cbn.
  rewrite !Z.sub_diag, Z.eqb_refl, andb_true_r, Hheld. cbn. destruct q as [c' st r evs held]. cbn in *.
  split; [done|]. f_equal. by destruct Hst as [-> | ->].
Qed.

(** *** The end of an execution *)

Context (first : nat) (mem : weak) (vp vc : view) (kp : pknow) (kc : cknow).
Context (Hinv : inv c base first mem vp vc kp kc).
Context (rs_p rs_c : list ring_result) (hp' hc' : SpscRing).
Context (Hdone_p : producer_done (rs_p, hp') kp) (Hdone_c : consumer_done (rs_c, hc') kc).

Lemma successes_ok : Forall op_ok (map fst (successes (zip ops_p rs_p))).
Proof using Hok.
  clear -Hok. revert rs_p. induction ops_p as [|op ops IH]; intros rs; [done|].
  apply Forall_cons in Hok as [Hop Hops]. destruct rs as [|r rs]; [done|].
  specialize (IH Hops rs). unfold successes in *. cbn. destruct (successful (op, r)); [by constructor|done].
Qed.

(** The producer's history. *)
Lemma producer_history :
  exists log, legal q log (producer_queue c base (q_held q) kp) /\
    by_producer log = zip ops_p rs_p /\ successes (by_consumer log) = by_consumer log.
Proof using Hdone_p Hs Huse.
  destruct Hdone_p as (_&_&_&log&Hleg&Hl). rewrite (proj1 start_queues) in Hleg. by exists log.
Qed.

(** Its successful operations. *)
Lemma producer_successes :
  exists n, successes (zip ops_p rs_p) = publications (published ops_p rs_p) ++ closures n /\
    pk_state kp = (if decide (n = 0%nat) then q_state q else RingState_Closed).
Proof using Hdone_p Hs Huse.
  destruct producer_history as (log&Hleg&Hpr&_).
  destruct (legal_producer _ _ _ Hleg Huse) as (n&Hn&_&Hst). exists n.
  rewrite Hpr, <- published_by_producer, Hpr, published_in_zip in Hn by apply Hdone_p. by split.
Qed.

(** The events the consumer has not learned of. *)
Lemma unlearned evs :
  ck_events kc = q_events q ++ evs ->
  exists rest, published ops_p rs_p = evs ++ rest /\ pk_events kp = ck_events kc ++ rest /\
    (ck_closed kc = true -> rest = [] /\ pk_state kp = RingState_Closed).
Proof using Hdone_p Hinv.
  intros Hck. destruct Hdone_p as (_&_&Hev&_). pose proof (iv_knowledge _ _ _ _ _ _ _ _ Hinv) as Hkn.
  destruct (kn_prefix _ _ _ _ _ _ _ Hkn) as [rest Hrest]. exists rest. split; [|split; [done|]].
  - apply (app_inv_head (q_events q)). cbn in Hev. by rewrite <- Hev, Hrest, Hck, app_assoc.
  - intros Hcl. destruct (kn_closed _ _ _ _ _ _ _ Hkn Hcl) as [He Hcls]. split; [|done].
    apply (app_inv_head (ck_events kc)). by rewrite <- Hrest, He, app_nil_r.
Qed.

(** What a consumer has learned are the first of them; all events, once it knows that the
    ring is closed. *)
Lemma learned_successes log :
  learned 1 (start_consumer m q) kc log ->
  exists rest, successes (zip ops_p rs_p) = log ++ rest /\ (ck_closed kc = true -> published_in rest = []).
Proof using Hdone_p Hinv Hs Huse.
  intros (evs&Hck&_&->). destruct producer_successes as (n&Hn&Hst).
  destruct (unlearned evs Hck) as (rest&Hpub&Hrest&Hall).
  rewrite Hn, Hpub. unfold closing. cbn [start_consumer ck_closed].
  destruct (negb (bool_decide (q_state q = RingState_Closed)) && ck_closed kc) eqn:Hclosing.
  - apply andb_true_iff in Hclosing as [Hopen%negb_true_iff%bool_decide_eq_false Hcl].
    destruct (Hall Hcl) as [-> Hcls]. destruct n as [|n]; [by rewrite Hst in Hcls|].
    exists (closures n). rewrite app_nil_r, <- app_assoc. split; [done|]. intros _. apply published_in_closures.
  - exists (publications rest ++ closures n). unfold publications. rewrite map_app, app_nil_r, <- app_assoc.
    split; [done|]. intros Hcl. destruct (Hall Hcl) as [-> _]. apply published_in_closures.
Qed.

(** The events the consumer has not learned of fit the queue it knows. *)
Lemma rest_legal rest :
  pk_events kp = ck_events kc ++ rest -> rest = [] \/ ck_closed kc = false ->
  exists q2, legal (consumer_queue c base kc hc') (publications rest) q2 /\
    q_read q2 = ck_read kc /\ q_held q2 = acquired_ hc'.
Proof using Hinv.
  intros Hrest Hopen. pose proof (inv_order c base first Hinv) as Ho.
  pose proof (iv_knowledge _ _ _ _ _ _ _ _ Hinv) as [_ _ _ _ _ Hord Hroom Hbd Hfits].
  destruct Hopen as [-> | Hopen]; [eexists; split; [constructor|done]|].
  pose proof (legal_publications rest (consumer_queue c base kc hc')) as Hl.
  cbn in Hl. rewrite Hopen in Hl. unfold pk_write, ck_write, base in *.
  rewrite Hrest in Hfits, Hroom, Hbd. rewrite length_app in Hroom, Hbd.
  eexists. split; [apply Hl; [done| | |]|done].
  - apply Forall_app in Hfits as [_ Hfits]. eapply Forall_impl; [exact Hfits|]. by intros ev [_ ?].
  - unfold q_write, q_length. cbn. rewrite length_drop. lia.
  - unfold q_length. cbn. rewrite length_drop. lia.
Qed.

(** The history that has all the consumer's operations. *)
Lemma consumer_history :
  exists log q', legal q log q' /\ q_read q' = ck_read kc /\ q_held q' = acquired_ hc' /\
    by_consumer log = zip ops_c rs_c /\ by_producer log = successes (zip ops_p rs_p).
Proof using Hdone_c Hdone_p Hinv Hs Huse.
  destruct producer_successes as (n&Hn&Hst).
  destruct Hdone_c as (_&_&Hex).
  assert (0 < if decide (n = 0%nat) then 1 else n)%nat as Hpos by (destruct (decide (n = 0%nat)); lia).
  destruct (Hex _ Hpos)
    as (log&Hleg&Hbc&evs&Hck&_&Hbp). rewrite (proj2 start_queues) in Hleg.
  destruct (unlearned evs Hck) as (rest&Hpub&Hrest&Hall).
  unfold closing in Hbp. cbn [start_consumer ck_closed] in Hbp.
  destruct (negb (bool_decide (q_state q = RingState_Closed)) && ck_closed kc) eqn:Hclosing.
  - apply andb_true_iff in Hclosing as [Hopen%negb_true_iff%bool_decide_eq_false Hcl].
    destruct (Hall Hcl) as [-> Hcls]. rewrite app_nil_r in Hpub.
    destruct (decide (n = 0%nat)) as [->|Hne]; [congruence|].
    exists log, (consumer_queue c base kc hc'). by rewrite Hbp, Hn, Hpub.
  - destruct (rest_legal rest Hrest) as (q2&Hleg2&Hr2&Hh2).
    { destruct (ck_closed kc); [left; by apply Hall|by right]. }
    assert (exists q3, legal q2 (closures n) q3 /\ q_read q3 = q_read q2 /\ q_held q3 = q_held q2)
      as (q3&Hleg3&Hr3&Hh3).
    { destruct n; [exists q2; by split; [constructor|]|]. exists (q_close q2). split; [apply legal_closures, Nat.lt_0_succ|done]. }
    exists (log ++ publications rest ++ closures n), q3.
    split; [eauto using legal_app|]. split; [congruence|]. split; [congruence|].
    autorewrite with history. rewrite Hbc, Hbp, Hn, Hpub. unfold publications. rewrite map_app.
    autorewrite with history. by rewrite <- app_assoc.
Qed.

Lemma published_consumer_history log :
  by_producer log = successes (zip ops_p rs_p) -> published_in log = published ops_p rs_p.
Proof using Hdone_p.
  intros Hbp. by rewrite <- published_by_producer, Hbp, published_successes, published_in_zip by apply Hdone_p.
Qed.

(** The consumer's successful operations begin with those the producer has learned of. *)
Lemma consumer_successes log :
  legal q log (producer_queue c base (q_held q) kp) -> by_producer log = zip ops_p rs_p ->
  successes (by_consumer log) = by_consumer log ->
  exists n, successes (zip ops_c rs_c) = by_consumer log ++
    script n (q_held (producer_queue c base (q_held q) kp)) (q_events (producer_queue c base (q_held q) kp)).
Proof using Hdone_c Hdone_p Hinv Hs Huse Hok.
  intros Hleg Hbp Hsuc. pose proof (repr_ok _ _ (sys_segment _ _ Hs)) as Hq.
  destruct consumer_history as (logc&qc&Hlegc&Hrc&Hhc&Hbc&Hbpc).
  destruct (legal_consumer _ _ _ Hleg Hq) as (np&Hnp&Hsp).
  { apply op_ok_history. rewrite Hbp, map_fst_zip; [done|apply Hdone_p]. }
  destruct (legal_consumer _ _ _ Hlegc Hq) as (nc&Hnc&Hsc).
  { apply op_ok_history. rewrite Hbpc. apply successes_ok. }
  rewrite published_consumer_history, Hbc in Hsc by done.
  rewrite <- published_by_producer, Hbp, published_in_zip, Hsuc in Hsp by apply Hdone_p.
  assert (np <= nc)%nat as Hle.
  { pose proof (inv_order c base first Hinv) as Ho. rewrite Hrc, Hhc in Hnc.
    destruct Hdone_p as (_&Hk&_). pose proof (pn_order _ _ _ _ Hk).
    unfold producer_queue in Hnp. cbn [q_read q_held] in Hnp.
    destruct (q_held q), (Z.eqb_spec (pk_read kp) base), (acquired_ hc');
      cbn [Z.b2z andb] in *; unfold base in *; lia. }
  exists (nc - np)%nat. specialize (Hsc 0%nat). specialize (Hsp (nc - np)%nat).
  rewrite Nat.add_0_r in Hsc. cbn [script] in Hsc. rewrite app_nil_r in Hsc.
  rewrite <- Hsc, <- Hsp. f_equal. lia.
Qed.

Lemma explained_consumer : explained q consumer_op ops_c rs_c ops_p rs_p.
Proof using Hdone_c Hdone_p Hinv Hs Huse.
  destruct consumer_history as (log&q'&Hleg&_&_&Hbc&Hbp). split; [apply Hdone_c|].
  exists log, q'. split; [done|]. split; [done|].
  rewrite <- Hbp. unfold by_producer, consumer_op. apply List.filter_ext. intros [op r]. apply negb_involutive.
Qed.

Lemma explained_producer : explained q producer_op ops_p rs_p ops_c rs_c.
Proof using Hdone_c Hdone_p Hinv Hs Huse Hok.
  destruct producer_history as (log&Hleg&Hbp&Hsuc).
  destruct (consumer_successes log Hleg Hbp Hsuc) as (n&Hn).
  destruct (script_legal n (producer_queue c base (q_held q) kp)) as [q' Hq'].
  split; [apply Hdone_p|]. exists (log ++ script n (q_held (producer_queue c base (q_held q) kp))
            (q_events (producer_queue c base (q_held q) kp))), q'.
  split; [by eapply legal_app|]. rewrite Hn, !List.filter_app.
  destruct (script_shares n (q_held (producer_queue c base (q_held q) kp))
    (q_events (producer_queue c base (q_held q) kp))) as (H1&H2&_).
  unfold by_producer, by_consumer in *. by rewrite H1, H2, Hbp, app_nil_r.
Qed.

Lemma finished_fifo :
  (ResAcquire (Unexpected AcquireError_InvalidSlot) ∉ rs_c) /\
  exists pending, q_pending q ++ published ops_p rs_p = acquired rs_c ++ pending /\
    (ResAcquire (Unexpected AcquireError_Closed) ∈ rs_c -> pending = []).
Proof using Hdone_c Hdone_p Hinv Hs Huse Hok.
  pose proof (repr_ok _ _ (sys_segment _ _ Hs)) as Hq.
  destruct consumer_history as (log&q'&Hleg&_&_&Hbc&Hbp).
  assert (Hrs : map snd (by_consumer log) = rs_c) by (rewrite Hbc; apply map_snd_zip, Hdone_c).
  split.
  - intros Hin. apply (legal_valid _ _ _ Hleg), in_by_consumer. by rewrite Hrs.
  - exists (q_pending q'). split.
    + rewrite <- Hrs, <- (published_consumer_history log Hbp), (acquired_by_consumer _ _ _ Hleg).
      apply legal_fifo; [done|done|]. apply op_ok_history. rewrite Hbp. apply successes_ok.
    + intros Hin. apply (legal_closed _ _ _ Hleg), in_by_consumer. by rewrite Hrs.
Qed.
End Final.

(** ** Properties *)

Definition both_finished {A B} (s : config A B) : bool :=
  finished (cf_producer s).2 && finished (cf_consumer s).2.

(** The results of two clients that have finished. *)
Definition finished_with {A B} (s : config A B) (a : A) (b : B) : Prop :=
  (cf_producer s).2 = Ret a /\ (cf_consumer s).2 = Ret b.

(** C2. A process attaches to a ring in use and consumes from it while the producer goes on
    publishing: both run concurrently, one memory access at a time, in any interleaving and
    with any of the values that the release/acquire memory model lets an atomic load return.
    No execution has a data race, an access outside the segment, or a misaligned one; every
    execution can be continued until both have finished; and when they have, the attachment
    has succeeded, and the events pending at the start followed by those whose publication
    succeeded are, in order, those the consumer acquired followed by the rest. The consumer
    never finds an invalid slot, and when it is told [Closed] it has acquired everything. *)
Theorem ring_weak_memory memory m hp hc q ops_p ops_c schedule :
  sys_repr (RingSys m hp hc) q -> in_use q -> q_held q = false ->
  invalid_memory memory = false -> Z.of_nat (length m) = mem_size memory ->
  Forall op_ok ops_p -> forallb producer_op ops_p = true -> forallb consumer_op ops_c = true ->
  exists s, execute schedule (start_attaching m hp memory ops_p ops_c) = Some s /\
    (exists rest s', execute rest s = Some s' /\ both_finished s' = true) /\
    forall rs_p hp' r, finished_with s (rs_p, hp') r -> exists rs_c hc', r = Value (rs_c, hc') /\
      (ResAcquire (Unexpected AcquireError_InvalidSlot) ∉ rs_c) /\
      exists pending, q_pending q ++ published ops_p rs_p = acquired rs_c ++ pending /\
        (ResAcquire (Unexpected AcquireError_Closed) ∈ rs_c -> pending = []).
Proof.
  intros Hs0 Hu Hh Hmem Hlen Hok Hp Hcs. pose proof (attached_repr m hp hc q Hs0 Hh) as Hs.
  pose proof (repr_valid _ _ (sys_segment _ _ Hs)) as Hv. cbn in Hv.
  destruct (execute_safe _ Hv _ _ _ _ schedule _
    (start_attaching_safe q m hp _ Hs Hu ops_p ops_c Hok Hp Hcs memory eq_refl Hmem Hlen)) as (s&Hrun&Hsafe).
  exists s. split; [exact Hrun|]. split.
  - destruct (execution_finishes _ Hv _ _ _ _ s Hsafe) as (rest&m'&vp&vc&a&b&Hrest).
    eexists rest, _. by split.
  - intros rs_p hp' r [Hrp Hrc]. destruct Hsafe as (kp&kc&Hinv&Hsp&Hsc).
    rewrite Hrp in Hsp. rewrite Hrc in Hsc. cbn [safe_producer safe_consumer] in Hsp, Hsc.
    destruct Hsc as ([rs_c hc']&->&Hsc). exists rs_c, hc'. split; [done|]. by eapply finished_fifo.
Qed.

(** C3. Concurrent executions refine the abstract queue, for each thread, whatever handles
    they start with, also when the consumer holds a view: there is one order
    of all the operations of the thread and the successful operations of the other thread
    in which the queue of [RingSpec] gives exactly the results the thread got. So to its
    client a concurrent ring is the sequential queue; only that a full or an empty ring may
    be reported although the other thread has just changed that. *)
Theorem ring_weak_refines_queue m hp hc q ops_p ops_c schedule s rs_p hp' rs_c hc' :
  sys_repr (RingSys m hp hc) q -> in_use q -> Forall op_ok ops_p -> forallb producer_op ops_p = true ->
  forallb consumer_op ops_c = true ->
  execute schedule (start m hp hc ops_p ops_c) = Some s -> finished_with s (rs_p, hp') (rs_c, hc') ->
  explained q producer_op ops_p rs_p ops_c rs_c /\ explained q consumer_op ops_c rs_c ops_p rs_p.
Proof.
  intros Hs Hu Hok Hp Hcs Hrun [Hrp Hrc]. pose proof (repr_valid _ _ (sys_segment _ _ Hs)) as Hv. cbn in Hv.
  destruct (execute_safe _ Hv _ _ _ _ schedule _ (start_safe q m hp hc Hs Hu ops_p ops_c Hok Hp Hcs))
    as (s'&Hrun'&kp&kc&Hinv&Hsp&Hsc).
  rewrite Hrun in Hrun'. injection Hrun' as <-.
  rewrite Hrp in Hsp. rewrite Hrc in Hsc. cbn [safe_producer safe_consumer] in Hsp, Hsc.
  split; [by eapply explained_producer|by eapply explained_consumer].
Qed.

(** ** A concrete execution *)

(** Two slots, three publications and an acquisition loop, in lockstep. *)
Definition demo_publications : list ring_op :=
  [OpPublish (demo_event 1); OpPublish (demo_event 2); OpPublish (demo_event 3); OpClose].
Definition demo_acquisitions : list ring_op :=
  concat (replicate 5 [OpAcquire; OpRelease]).
Definition demo_lockstep (choice : nat) : list (thread * nat) :=
  concat (replicate 200 [(Producer, choice); (Consumer, choice)]).

Abbreviation demo_weak_run choice :=
  (execute (demo_lockstep choice)
    (start (sys_bytes demo_sys) (sys_producer demo_sys) (sys_consumer demo_sys)
       demo_publications demo_acquisitions)).

Definition results {A B C D} (s : config (A * C) (B * D)) : option (A * B) :=
  match (cf_producer s).2, (cf_consumer s).2 with
  | Ret a, Ret b => Some (a.1, b.1)
  | _, _ => None
  end.

(** A consumer that always reads the newest message gets every event. *)
Definition demo_newest : list ring_result * list ring_result :=
  ([ResPublish PublishResult_Ok; ResPublish PublishResult_Ok; ResPublish PublishResult_Ok;
    ResClose true],
   [ResAcquire (Unexpected AcquireError_Empty); ResRelease false;
    ResAcquire (Unexpected AcquireError_Empty); ResRelease false;
    ResAcquire (Value (demo_event 1)); ResRelease true;
    ResAcquire (Value (demo_event 2)); ResRelease true;
    ResAcquire (Value (demo_event 3)); ResRelease true]).

Example newest_messages :
  match demo_weak_run 9 with Some s => results s | None => None end = Some demo_newest.
Proof. vm_compute. reflexivity. Qed.

(** One that always reads the oldest sees an empty ring, which is also allowed. *)
Example oldest_messages :
  match demo_weak_run 0 with Some s => snd <$> results s | None => None end =
    Some (concat (replicate 5 [ResAcquire (Unexpected AcquireError_Empty); ResRelease false])).
Proof. vm_compute. reflexivity. Qed.

Lemma demo_start : sys_repr (RingSys (sys_bytes demo_sys) (sys_producer demo_sys) (sys_consumer demo_sys))
  (empty_queue demo_config).
Proof. generalize demo_sys_repr. by destruct demo_sys. Qed.

Lemma demo_publications_ok : Forall op_ok demo_publications.
Proof. repeat (apply Forall_cons; split; [done || by apply demo_event_ok|]). done. Qed.

Lemma results_finished {A B C D} (s : config (A * C) (B * D)) a b :
  results s = Some (a, b) -> exists c d, finished_with s (a, c) (b, d).
Proof.
  unfold results, finished_with. destruct (cf_producer s).2 as [[a' c]|?|?|?|?|] eqn:Hp; try done.
  destruct (cf_consumer s).2 as [[b' d]|?|?|?|?|] eqn:Hc; try done. intros [= <- <-]. by exists c, d.
Qed.

(** A consumer that attaches while the producer publishes. *)
Abbreviation demo_attaching_run choice :=
  (execute (demo_lockstep choice)
    (start_attaching (sys_bytes demo_sys) (sys_producer demo_sys) (Memory 4096 320)
       demo_publications demo_acquisitions)).

Example attaching_newest :
  match demo_attaching_run 9 with
  | Some s => match (cf_producer s).2, (cf_consumer s).2 with
              | Ret a, Ret (Value b) => Some (a.1, acquired b.1)
              | _, _ => None
              end
  | None => None
  end = Some ([ResPublish PublishResult_Ok; ResPublish PublishResult_Ok; ResPublish PublishResult_Full;
               ResClose true], [demo_event 1; demo_event 2]).
Proof. vm_compute. reflexivity. Qed.

Lemma demo_span_length : Z.of_nat (length (sys_bytes demo_sys)) = 320.
Proof. vm_compute. reflexivity. Qed.

Lemma ring_weak_memory_witness :
  exists s, demo_attaching_run 9 = Some s /\
    (exists rest s', execute rest s = Some s' /\ both_finished s' = true) /\
    forall rs_p hp' r, finished_with s (rs_p, hp') r -> exists rs_c hc', r = Value (rs_c, hc') /\
      (ResAcquire (Unexpected AcquireError_InvalidSlot) ∉ rs_c) /\
      exists pending, [] ++ published demo_publications rs_p = acquired rs_c ++ pending /\
        (ResAcquire (Unexpected AcquireError_Closed) ∈ rs_c -> pending = []).
Proof.
  exact (ring_weak_memory (Memory 4096 320) _ _ _ (empty_queue demo_config) demo_publications
    demo_acquisitions (demo_lockstep 9) demo_start (or_introl eq_refl) eq_refl eq_refl demo_span_length
    demo_publications_ok eq_refl eq_refl).
Defined.

Lemma ring_weak_refines_queue_witness :
  let q := empty_queue demo_config in
  explained q producer_op demo_publications demo_newest.1 demo_acquisitions demo_newest.2 /\
  explained q consumer_op demo_acquisitions demo_newest.2 demo_publications demo_newest.1.
Proof.
  cbv zeta. pose proof newest_messages as Hres. destruct (demo_weak_run 9) as [s|] eqn:Hrun; [|discriminate].
  destruct (results_finished s demo_newest.1 demo_newest.2 Hres) as (hp'&hc'&Hfin).
  exact (ring_weak_refines_queue _ _ _ (empty_queue demo_config) demo_publications demo_acquisitions
    (demo_lockstep 9) s _ hp' _ hc' demo_start (or_introl eq_refl) demo_publications_ok eq_refl eq_refl Hrun Hfin).
Defined.
