(* ===== verification/Posix.v ===== *)
(** * Effects and system calls

    Code that talks to the operating system is a program [io E A]: a tree whose nodes are
    calls of the effect type [E] and whose branches are the possible answers. A handler
    gives calls a meaning over a world; [interp] runs a program under a handler ([None]
    is a misuse the handler detects).

    [sys] are the POSIX calls the engine makes. What the operating system answers is not
    code of this repository: every theorem about [sys] programs holds for an arbitrary
    system, a function from calls and its own state to answers. [tracked] runs a program
    on such a system and accounts for the resources it holds: descriptors, mappings and
    created names. Using or closing a descriptor that is not open, or unmapping what is
    not mapped, is a misuse. *)

From Stdlib Require Export Ascii.
From stdpp Require Export strings.
From S2P Require Import Prelude Bytes.

(** [strings] opens other scopes; numerals stay integers. *)
#[global] Open Scope Z_scope.

(** ** Programs with effects *)

Inductive io (E : Type -> Type) (A : Type) : Type :=
  | Done (a : A)
  | Call {R : Type} (e : E R) (k : R -> io E A).
Arguments Done {E A} a.
Arguments Call {E A R} e k.

Fixpoint io_bind {E A B} (f : A -> io E B) (p : io E A) : io E B :=
  match p with
  | Done a => f a
  | Call e k => Call e (fun r => io_bind f (k r))
  end.

#[export] Instance io_ret E : MRet (io E) := @Done E.
#[export] Instance io_mbind E : MBind (io E) := @io_bind E.

Definition call {E : Type -> Type} {R} (e : E R) : io E R := Call e Done.

(** The same program with its effects embedded in a larger set. *)
Fixpoint lift {E F : Type -> Type} (f : forall R, E R -> F R) {A} (p : io E A) : io F A :=
  match p with
  | Done a => Done a
  | Call e k => Call (f _ e) (fun r => lift f (k r))
  end.

Definition handler (E : Type -> Type) (W : Type) := forall R, E R -> W -> option (R * W).

Fixpoint interp {E W} (h : handler E W) {A} (p : io E A) (w : W) : option (A * W) :=
  match p with
  | Done a => Some (a, w)
  | Call e k => r ← h _ e w; interp h (k r.1) r.2
  end.

Lemma interp_ret {E W} (h : handler E W) {A} (a : A) w : interp h (mret a) w = Some (a, w).
Proof. done. Qed.

Lemma interp_bind {E W} (h : handler E W) {A B} (p : io E A) (f : A -> io E B) w :
  interp h (p ≫= f) w = r ← interp h p w; interp h (f r.1) r.2.
Proof.
  revert w. induction p as [a|R e k IH]; intros w; [done|].
  unfold mbind, io_mbind in *. simpl. destruct (h R e w) as [[r w']|]; simpl; [apply IH|done].
Qed.

(** A call first. *)
Lemma interp_call {E W} (h : handler E W) {A R} (e : E R) (f : R -> io E A) w :
  interp h (call e ≫= f) w = r ← h _ e w; interp h (f r.1) r.2.
Proof. rewrite interp_bind. simpl. by destruct (h R e w) as [[]|]. Qed.

(** ** System calls *)

(** [struct sockaddr_in]: family, port in host order, address. *)
Record sockaddr_in := SockAddr { sin_family : Z; sin_port : Z; sin_addr : Z }.

Definition AF_INET : Z := 2.

#[export] Instance sockaddr_in_eq_dec : EqDecision sockaddr_in.
Proof. solve_decision. Defined.

(** The return value, and [errno] where it is negative. *)
Record sysret := Sys { ret : Z; errno : Z }.

Definition EPERM : Z := 1.
Definition ENOENT : Z := 2.
Definition EINTR : Z := 4.
Definition EIO : Z := 5.
Definition EINVAL : Z := 22.

(** The answer of [recvmsg]: the bytes it put at the front of the buffer, the flags and
    the peer's address. *)
Record recvret := Recv { recv_ret : sysret; recv_truncated : bool; recv_data : list byte;
                         recv_peer : sockaddr_in }.

Inductive sys : Type -> Type :=
  | sys_socket : sys sysret
  | sys_bind (fd : Z) (address : sockaddr_in) : sys sysret
  | sys_getsockname (fd : Z) : sys (sysret * sockaddr_in)
  | sys_sendto (fd : Z) (data : list byte) (destination : sockaddr_in) : sys sysret
  | sys_poll_in (fd timeout_ms : Z) : sys (sysret * bool)
  | sys_recvmsg (fd : Z) (size : nat) : sys recvret
  | sys_close (fd : Z) : sys sysret
  | sys_shm_open (name : string) (create : bool) : sys sysret
  | sys_shm_unlink (name : string) : sys sysret
  | sys_ftruncate (fd size : Z) : sys sysret
  | sys_fstat_size (fd : Z) : sys (sysret * Z)
  | sys_mmap (size fd : Z) : sys sysret
  | sys_munmap (address size : Z) : sys sysret
  | sys_getrandom (bytes : Z) : sys (sysret * Z).

Definition MAP_FAILED : Z := -1.

(** An operating system with its own state. *)
Definition system (W : Type) := forall R, sys R -> W -> R * W.

(** A system on which every call succeeds and one datagram is waiting. *)
Definition demo_system (datagram : list byte) : system unit :=
  fun R e w =>
    (match e in sys R return R with
     | sys_socket => Sys 3 0
     | sys_bind _ _ => Sys 0 0
     | sys_getsockname _ => (Sys 0 0, SockAddr AF_INET 4000 0)
     | sys_sendto _ data _ => Sys (Z.of_nat (length data)) 0
     | sys_poll_in _ _ => (Sys 1 0, true)
     | sys_recvmsg _ size =>
         Recv (Sys (Z.of_nat (length (take size datagram))) 0) (bool_decide (size < length datagram)%nat)
           (take size datagram) (SockAddr AF_INET 4001 0)
     | sys_close _ => Sys 0 0
     | sys_shm_open _ _ => Sys 4 0
     | sys_shm_unlink _ => Sys 0 0
     | sys_ftruncate _ _ => Sys 0 0
     | sys_fstat_size _ => (Sys 0 0, 320)
     | sys_mmap _ _ => Sys 4096 0
     | sys_munmap _ _ => Sys 0 0
     | sys_getrandom n => (Sys n 0, 7)
     end, w).

(** ** Resources *)

Record resources := Resources {
  r_fds : list Z;               (** open descriptors *)
  r_maps : list (Z * Z);        (** mappings: address and size *)
  r_created : list string;      (** names this program created *)
  r_unlinked : list string;     (** names passed to [shm_unlink] *)
}.

Definition no_resources : resources := Resources [] [] [] [].

(** Remove the first occurrence. *)
Fixpoint remove_one {A} `{EqDecision A} (x : A) (l : list A) : option (list A) :=
  match l with
  | [] => None
  | y :: l => if decide (x = y) then Some l else (y ::.) <$> remove_one x l
  end.

Definition require (b : bool) : option unit := if b then Some tt else None.

Definition is_open (rs : resources) (fd : Z) : bool := bool_decide (fd ∈ r_fds rs).

Definition open_fd (rs : resources) (fd : Z) : resources :=
  Resources (fd :: r_fds rs) (r_maps rs) (r_created rs) (r_unlinked rs).

(** The resources after a call and its answer; [None] is a misuse. *)
Definition track {R} (e : sys R) : R -> resources -> option resources :=
  match e in sys R return R -> resources -> option resources with
  | sys_socket => fun r rs => Some (if 0 <=? ret r then open_fd rs (ret r) else rs)
  | sys_bind fd _ => fun _ rs => require (is_open rs fd);; Some rs
  | sys_getsockname fd => fun _ rs => require (is_open rs fd);; Some rs
  | sys_sendto fd _ _ => fun _ rs => require (is_open rs fd);; Some rs
  | sys_poll_in fd _ => fun _ rs => require (is_open rs fd);; Some rs
  | sys_recvmsg fd _ => fun _ rs => require (is_open rs fd);; Some rs
  | sys_close fd => fun _ rs =>
      fds ← remove_one fd (r_fds rs);
      Some (Resources fds (r_maps rs) (r_created rs) (r_unlinked rs))
  | sys_shm_open name create => fun r rs =>
      if ret r =? -1 then Some rs else
      let rs := open_fd rs (ret r) in
      Some (if create
            then Resources (r_fds rs) (r_maps rs) (name :: r_created rs) (r_unlinked rs)
            else rs)
  | sys_shm_unlink name => fun _ rs =>
      require (bool_decide (name ∈ r_created rs));;
      Some (Resources (r_fds rs) (r_maps rs) (r_created rs) (name :: r_unlinked rs))
  | sys_ftruncate fd _ => fun _ rs => require (is_open rs fd);; Some rs
  | sys_fstat_size fd => fun _ rs => require (is_open rs fd);; Some rs
  | sys_mmap size fd => fun r rs =>
      require (is_open rs fd);;
      Some (if ret r =? MAP_FAILED then rs
            else Resources (r_fds rs) ((ret r, size) :: r_maps rs) (r_created rs) (r_unlinked rs))
  | sys_munmap address size => fun r rs =>
      maps ← remove_one (address, size) (r_maps rs);
      Some (if ret r =? -1 then rs
            else Resources (r_fds rs) maps (r_created rs) (r_unlinked rs))
  | sys_getrandom _ => fun _ rs => Some rs
  end.

(** Run on a system, tracking resources. *)
Definition tracked {W} (os : system W) : handler sys (W * resources) :=
  fun R e '(w, rs) =>
    let '(r, w) := os R e w in
    rs ← track e r rs; Some (r, (w, rs)).

Lemma remove_one_head {A} `{EqDecision A} (x : A) l : remove_one x (x :: l) = Some l.
Proof. simpl. by rewrite decide_True. Qed.

Lemma is_open_head rs fd : is_open (open_fd rs fd) fd = true.
Proof. apply bool_decide_eq_true. simpl. apply list_elem_of_here. Qed.

(** ** Tracking the common patterns *)

Lemma interp_tracked {W} (os : system W) {A R} (e : sys R) (f : R -> io sys A) w rs :
  interp (tracked os) (call e ≫= f) (w, rs) =
    rs' ← track e (os R e w).1 rs; interp (tracked os) (f (os R e w).1) ((os R e w).2, rs').
Proof.
  rewrite interp_call. unfold tracked. destruct (os R e w) as [r w']. simpl.
  by destruct (track e r rs).
Qed.

Lemma track_close rs fd r : track (sys_close fd) r (open_fd rs fd) = Some rs.
Proof. cbn [track open_fd r_fds]. rewrite remove_one_head. by destruct rs. Qed.

(** Closing the descriptor opened last. *)
Lemma interp_close {W} (os : system W) {A} fd (f : sysret -> io sys A) w rs :
  exists r w', interp (tracked os) (call (sys_close fd) ≫= f) (w, open_fd rs fd) =
    interp (tracked os) (f r) (w', rs).
Proof.
  rewrite interp_tracked, track_close. simpl. by eexists _, _.
Qed.

(** A call on the descriptor opened last that changes no resource. *)
Definition uses_fd {R} (e : sys R) (fd : Z) : Prop :=
  forall r rs, is_open rs fd = true -> track e r rs = Some rs.

Lemma interp_use {W} (os : system W) {A R} (e : sys R) fd (f : R -> io sys A) w rs :
  uses_fd e fd -> is_open rs fd = true ->
  interp (tracked os) (call e ≫= f) (w, rs) =
    interp (tracked os) (f (os R e w).1) ((os R e w).2, rs).
Proof. intros He Ho. by rewrite interp_tracked, He. Qed.

Ltac uses_fd := intros ? ? Hopen; cbn [track]; rewrite Hopen; reflexivity.

Lemma uses_bind fd a : uses_fd (sys_bind fd a) fd. Proof. uses_fd. Qed.
Lemma uses_getsockname fd : uses_fd (sys_getsockname fd) fd. Proof. uses_fd. Qed.
Lemma uses_sendto fd d a : uses_fd (sys_sendto fd d a) fd. Proof. uses_fd. Qed.
Lemma uses_poll fd t : uses_fd (sys_poll_in fd t) fd. Proof. uses_fd. Qed.
Lemma uses_recvmsg fd n : uses_fd (sys_recvmsg fd n) fd. Proof. uses_fd. Qed.
Lemma uses_ftruncate fd n : uses_fd (sys_ftruncate fd n) fd. Proof. uses_fd. Qed.
Lemma uses_fstat fd : uses_fd (sys_fstat_size fd) fd. Proof. uses_fd. Qed.

Create HintDb posix.
#[export] Hint Resolve uses_bind uses_getsockname uses_sendto uses_poll uses_recvmsg
  uses_ftruncate uses_fstat is_open_head : posix.
