(* ===== verification/Udp.v ===== *)
(** * UDP transport

    [src/include/lle/transport/udp_types.hpp], [src/src/transport/udp_sender.cpp] and
    [src/src/transport/udp_receiver.cpp]. Destructors are functions; the callers run them
    where C++ does. [inet_pton] belongs to the C library and is a parameter. *)

From S2P Require Import Prelude Bytes Posix.

Inductive UdpErrorCode :=
  | UdpErrorCode_InvalidAddress
  | UdpErrorCode_InvalidPort
  | UdpErrorCode_Socket
  | UdpErrorCode_Bind
  | UdpErrorCode_Poll
  | UdpErrorCode_Timeout
  | UdpErrorCode_Send
  | UdpErrorCode_Receive
  | UdpErrorCode_DatagramTooLarge.

#[export] Instance UdpErrorCode_eq_dec : EqDecision UdpErrorCode.
Proof. solve_decision. Defined.

Record UdpError := UdpErr { code : UdpErrorCode; error_number : Z }.

#[export] Instance UdpError_eq_dec : EqDecision UdpError.
Proof. solve_decision. Defined.

Record UdpAddress := UdpAddr { native : sockaddr_in }.

#[export] Instance UdpAddress_eq_dec : EqDecision UdpAddress.
Proof. solve_decision. Defined.

(** What a C function sees of a [std::string] passed with [c_str()]. *)
Fixpoint c_str (s : string) : string :=
  match s with
  | EmptyString => EmptyString
  | String c s => if decide (c = Ascii.zero) then EmptyString else String c (c_str s)
  end.

(** [UdpAddress::ipv4]. [inet_pton] gives the address of a numeric IPv4 text. *)
Definition UdpAddress_ipv4 (inet_pton : string -> option Z) (address : string) (port : Z) :
    expected UdpAddress UdpError :=
  if port =? 0 then Unexpected (UdpErr UdpErrorCode_InvalidPort 0) else
  match inet_pton (c_str address) with
  | None => Unexpected (UdpErr UdpErrorCode_InvalidAddress 0)
  | Some addr => Value (UdpAddr (SockAddr AF_INET port addr))
  end.

(** ** Sender *)

Record UdpSender := UdpSnd { sender_socket_fd_ : Z }.

Definition UdpSender_open : io sys (expected UdpSender UdpError) :=
  socket_fd ← call sys_socket;
  if ret socket_fd <? 0
  then mret (Unexpected (UdpErr UdpErrorCode_Socket (errno socket_fd)))
  else mret (Value (UdpSnd (ret socket_fd))).

Definition UdpSender_move (other : UdpSender) : UdpSender * UdpSender :=
  (UdpSnd (sender_socket_fd_ other), UdpSnd (-1)).

Definition UdpSender_destroy (self : UdpSender) : io sys unit :=
  if 0 <=? sender_socket_fd_ self then call (sys_close (sender_socket_fd_ self));; mret tt
  else mret tt.

Definition send_to (self : UdpSender) (datagram : list byte) (destination : UdpAddress) :
    io sys (expected unit UdpError) :=
  sent ← call (sys_sendto (sender_socket_fd_ self) datagram (native destination));
  if ret sent <? 0 then mret (Unexpected (UdpErr UdpErrorCode_Send (errno sent))) else
  if negb (ret sent =? Z.of_nat (length datagram))
  then mret (Unexpected (UdpErr UdpErrorCode_Send 0)) else
  mret (Value tt).

(** ** Receiver *)

Record ReceivedDatagram := Datagram { size : Z; peer : sockaddr_in }.

Record UdpReceiver := UdpRcv { receiver_socket_fd_ : Z; local_port_ : Z }.

Definition UdpReceiver_bind (address : UdpAddress) : io sys (expected UdpReceiver UdpError) :=
  if negb (sin_family (native address) =? AF_INET)
  then mret (Unexpected (UdpErr UdpErrorCode_InvalidAddress 0)) else
  socket ← call sys_socket;
  let socket_fd := ret socket in
  if socket_fd <? 0 then mret (Unexpected (UdpErr UdpErrorCode_Socket (errno socket))) else
  bound ← call (sys_bind socket_fd (native address));
  if ret bound <? 0 then
    call (sys_close socket_fd);;
    mret (Unexpected (UdpErr UdpErrorCode_Bind (errno bound))) else
  name ← call (sys_getsockname socket_fd);
  let '(named, local) := name in
  if ret named <? 0 then
    call (sys_close socket_fd);;
    mret (Unexpected (UdpErr UdpErrorCode_Bind (errno named))) else
  mret (Value (UdpRcv socket_fd (sin_port local))).

Definition INADDR_ANY : Z := 0.

Definition UdpReceiver_bind_port (port : Z) : io sys (expected UdpReceiver UdpError) :=
  UdpReceiver_bind (UdpAddr (SockAddr AF_INET port INADDR_ANY)).

Definition UdpReceiver_move (other : UdpReceiver) : UdpReceiver * UdpReceiver :=
  (UdpRcv (receiver_socket_fd_ other) (local_port_ other), UdpRcv (-1) (local_port_ other)).

Definition UdpReceiver_destroy (self : UdpReceiver) : io sys unit :=
  if 0 <=? receiver_socket_fd_ self then call (sys_close (receiver_socket_fd_ self));; mret tt
  else mret tt.

(** The end of [receive]: the datagram goes to the front of the buffer. *)
Definition receive_message (self : UdpReceiver) (buffer : list byte) :
    io sys (expected ReceivedDatagram UdpError * list byte) :=
  received ← call (sys_recvmsg (receiver_socket_fd_ self) (length buffer));
  let buffer := list_inserts 0 (recv_data received) buffer in
  if ret (recv_ret received) <? 0
  then mret (Unexpected (UdpErr UdpErrorCode_Receive (errno (recv_ret received))), buffer) else
  if recv_truncated received
  then mret (Unexpected (UdpErr UdpErrorCode_DatagramTooLarge 0), buffer) else
  mret (Value (Datagram (ret (recv_ret received)) (recv_peer received)), buffer).

Definition receive (self : UdpReceiver) (buffer : list byte) (timeout_ms : Z) :
    io sys (expected ReceivedDatagram UdpError * list byte) :=
  if 0 <=? timeout_ms then
    polled ← call (sys_poll_in (receiver_socket_fd_ self) timeout_ms);
    let '(ready, readable) := polled in
    if ret ready <? 0
    then mret (Unexpected (UdpErr UdpErrorCode_Poll (errno ready)), buffer) else
    if ret ready =? 0 then mret (Unexpected (UdpErr UdpErrorCode_Timeout 0), buffer) else
    if negb (readable : bool)
    then mret (Unexpected (UdpErr UdpErrorCode_Poll EIO), buffer) else
    receive_message self buffer
  else receive_message self buffer.

(** ** Descriptors *)

Section Descriptors.
Context {W : Type} (os : system W).

Lemma UdpSender_open_resources w rs :
  exists r w' rs', interp (tracked os) UdpSender_open (w, rs) = Some (r, (w', rs')) /\
    match r with
    | Value u => 0 <= sender_socket_fd_ u /\ rs' = open_fd rs (sender_socket_fd_ u)
    | Unexpected _ => rs' = rs
    end.
Proof.
  unfold UdpSender_open. rewrite interp_tracked. cbn [track mbind option_bind].
  set (s := (os _ sys_socket w).1). rewrite (Z.leb_antisym (ret s) 0).
  destruct (ret s <? 0) eqn:E; cbn [negb]; eexists _, _, _; (split; [reflexivity|]); [done|].
  to_prop. by cbn.
Qed.

Lemma UdpReceiver_bind_resources address w rs :
  exists r w' rs', interp (tracked os) (UdpReceiver_bind address) (w, rs) = Some (r, (w', rs')) /\
    match r with
    | Value u => 0 <= receiver_socket_fd_ u /\ rs' = open_fd rs (receiver_socket_fd_ u)
    | Unexpected _ => rs' = rs
    end.
Proof.
  unfold UdpReceiver_bind. case_bool; [by eexists _, _, _|].
  rewrite interp_tracked. cbn [track mbind option_bind].
  set (s := (os _ sys_socket w).1). generalize (os _ sys_socket w).2. intros w1. cbv zeta.
  rewrite (Z.leb_antisym (ret s) 0).
  destruct (ret s <? 0) eqn:Es; cbn [negb]; [by eexists _, _, _|]. to_prop.
  rewrite (interp_use _ _ (ret s)) by auto with posix.
  destruct (os _ (sys_bind _ _) w1) as [b w2]. cbn [fst snd]. case_bool.
  { destruct (interp_close os (ret s) (fun _ => mret (Unexpected (UdpErr UdpErrorCode_Bind (errno b))
      : expected UdpReceiver UdpError)) w2 rs) as (r&w3&->). by eexists _, _, _. }
  rewrite (interp_use _ _ (ret s)) by auto with posix.
  destruct (os _ (sys_getsockname _) w2) as [[n local] w3]. cbn [fst snd]. case_bool.
  { destruct (interp_close os (ret s) (fun _ => mret (Unexpected (UdpErr UdpErrorCode_Bind (errno n))
      : expected UdpReceiver UdpError)) w3 rs) as (r&w4&->). by eexists _, _, _. }
  eexists _, _, _. split; [reflexivity|]. by cbn.
Qed.

Lemma destroy_sender_resources u w rs :
  0 <= sender_socket_fd_ u ->
  exists w', interp (tracked os) (UdpSender_destroy u) (w, open_fd rs (sender_socket_fd_ u)) =
    Some (tt, (w', rs)).
Proof.
  intros Hfd. unfold UdpSender_destroy. rewrite (proj2 (Z.leb_le _ _)) by done.
  destruct (interp_close os (sender_socket_fd_ u) (fun _ => mret tt) w rs) as (r&w'&->). by exists w'.
Qed.

Lemma destroy_receiver_resources u w rs :
  0 <= receiver_socket_fd_ u ->
  exists w', interp (tracked os) (UdpReceiver_destroy u) (w, open_fd rs (receiver_socket_fd_ u)) =
    Some (tt, (w', rs)).
Proof.
  intros Hfd. unfold UdpReceiver_destroy. rewrite (proj2 (Z.leb_le _ _)) by done.
  destruct (interp_close os (receiver_socket_fd_ u) (fun _ => mret tt) w rs) as (r&w'&->). by exists w'.
Qed.

(** Documented behaviour of [recvmsg]: it stores no more than the buffer holds, and a
    datagram that is not truncated is returned with its length. *)
Definition recvmsg_documented : Prop :=
  forall fd size w, let r := (os _ (sys_recvmsg fd size) w).1 in
    (length (recv_data r) <= size)%nat /\
    (0 <= ret (recv_ret r) -> recv_truncated r = false ->
       ret (recv_ret r) = Z.of_nat (length (recv_data r))).

(** What [receive] leaves in the buffer. *)
Lemma receive_buffer u buffer timeout w rs :
  recvmsg_documented -> is_open rs (receiver_socket_fd_ u) = true ->
  exists r buffer' w', interp (tracked os) (receive u buffer timeout) (w, rs) =
      Some ((r, buffer'), (w', rs)) /\
    length buffer' = length buffer /\
    match r with
    | Value d => 0 <= size d <= Z.of_nat (length buffer) /\
        exists w0, let answer := (os _ (sys_recvmsg (receiver_socket_fd_ u) (length buffer)) w0).1 in
          recv_truncated answer = false /\ take (Z.to_nat (size d)) buffer' = recv_data answer /\
        size d = Z.of_nat (length (recv_data answer))
    | Unexpected _ => True
    end.
Proof.
  intros Hdoc Hopen.
  assert (Hmsg : forall w, exists r buffer' w',
    interp (tracked os) (receive_message u buffer) (w, rs) = Some ((r, buffer'), (w', rs)) /\
    length buffer' = length buffer /\
    match r with
    | Value d => 0 <= size d <= Z.of_nat (length buffer) /\
        exists w0, let answer := (os _ (sys_recvmsg (receiver_socket_fd_ u) (length buffer)) w0).1 in
          recv_truncated answer = false /\ take (Z.to_nat (size d)) buffer' = recv_data answer /\
        size d = Z.of_nat (length (recv_data answer))
    | Unexpected _ => True
    end).
  { clear w. intros w. unfold receive_message.
    rewrite (interp_use _ _ (receiver_socket_fd_ u)) by auto with posix.
    destruct (Hdoc (receiver_socket_fd_ u) (length buffer) w) as [Hfit Hlen].
    destruct (os _ (sys_recvmsg _ _) w) as [r w'] eqn:Hr. cbn [fst snd] in *.
    cbv zeta. case_bool; [eexists _, _, _; split; [reflexivity|]; by rewrite length_inserts|].
    case_bool; [eexists _, _, _; split; [reflexivity|]; by rewrite length_inserts|].
    to_prop. eexists _, _, _. split; [reflexivity|]. rewrite length_inserts. split; [done|].
    cbn [size]. rewrite Hlen by done. split; [lia|]. exists w. rewrite Hr. cbn [fst].
    split; [done|split; [|done]]. rewrite Nat2Z.id. by apply take_inserts. }
  unfold receive. case_bool; [|apply Hmsg].
  rewrite (interp_use _ _ (receiver_socket_fd_ u)) by auto with posix.
  destruct (os _ (sys_poll_in _ _) w) as [[ready readable] w1]. cbn [fst snd].
  repeat (case_bool; [by eexists _, _, _|]). apply Hmsg.
Qed.
End Descriptors.

(** ** Properties *)

(** C36. Socket lifetimes, on any operating system and whatever its calls answer: opening a
    sender or binding a receiver and then destroying what was made returns every
    descriptor it took, also on each failure path; no descriptor is used after it was
    closed or closed twice, and destroying a moved-from object makes no call. *)
Theorem socket_lifetimes {W} (os : system W) address w rs :
  (exists ok w', interp (tracked os)
     (r ← UdpSender_open;
      match r with
      | Value u => UdpSender_destroy (UdpSender_move u).2;; UdpSender_destroy (UdpSender_move u).1;;
          mret true
      | Unexpected _ => mret false
      end) (w, rs) = Some (ok, (w', rs))) /\
  (exists ok w', interp (tracked os)
     (r ← UdpReceiver_bind address;
      match r with
      | Value u => UdpReceiver_destroy (UdpReceiver_move u).2;;
          UdpReceiver_destroy (UdpReceiver_move u).1;; mret true
      | Unexpected _ => mret false
      end) (w, rs) = Some (ok, (w', rs))).
Proof.
  split.
  - destruct (UdpSender_open_resources os w rs) as (r&w1&rs1&Hrun&Hr).
    rewrite interp_bind, Hrun. cbn [mbind option_bind fst snd].
    destruct r as [u|]; [|subst; by eexists _, _]. destruct Hr as [Hfd ->].
    destruct (destroy_sender_resources os u w1 rs Hfd) as (w2&Hd). destruct u as [fd].
    change (interp _ (_ ;; ?p) _) with (interp (tracked os) p (w1, open_fd rs fd)).
    rewrite interp_bind. cbn in Hd |- *. rewrite Hd. cbn. by eexists _, _.
  - destruct (UdpReceiver_bind_resources os address w rs) as (r&w1&rs1&Hrun&Hr).
    rewrite interp_bind, Hrun. cbn [mbind option_bind fst snd].
    destruct r as [u|]; [|subst; by eexists _, _]. destruct Hr as [Hfd ->].
    destruct (destroy_receiver_resources os u w1 rs Hfd) as (w2&Hd). destruct u as [fd port].
    change (interp _ (_ ;; ?p) _) with (interp (tracked os) p (w1, open_fd rs fd)).
    rewrite interp_bind. cbn in Hd |- *. rewrite Hd. cbn. by eexists _, _.
Qed.

(** [receive] on an open socket returns; it never changes the size of the buffer, and
    when it reports a datagram the reported bytes at the front of the buffer are exactly
    those the system delivered: a truncated datagram is never reported as received. *)
Theorem receive_delivers {W} (os : system W) u buffer timeout w rs :
  recvmsg_documented os -> is_open rs (receiver_socket_fd_ u) = true ->
  exists r buffer' w', interp (tracked os) (receive u buffer timeout) (w, rs) =
      Some ((r, buffer'), (w', rs)) /\
    length buffer' = length buffer /\
    forall d, r = Value d -> 0 <= size d <= Z.of_nat (length buffer) /\
      exists w0, let answer := (os _ (sys_recvmsg (receiver_socket_fd_ u) (length buffer)) w0).1 in
        recv_truncated answer = false /\
        take (Z.to_nat (size d)) buffer' = recv_data answer /\
        size d = Z.of_nat (length (recv_data answer)).
Proof.
  intros Hdoc Hopen. destruct (receive_buffer os u buffer timeout w rs Hdoc Hopen)
    as (r&b&w'&Hrun&Hl&Hr).
  exists r, b, w'. split_and!; [done..|]. by intros d ->.
Qed.

Lemma demo_system_documented datagram : recvmsg_documented (demo_system datagram).
Proof. intros fd size []. cbn. split; [rewrite length_take; lia|done]. Qed.

Lemma receive_delivers_witness :
  exists r buffer' w', interp (tracked (demo_system [Byte.x01; Byte.x02]))
      (receive (UdpRcv 3 4000) [Byte.x00; Byte.x00; Byte.x09] 10)
      (tt, open_fd no_resources 3) = Some ((r, buffer'), (w', open_fd no_resources 3)) /\
    length buffer' = 3%nat /\
    forall d, r = Value d -> 0 <= size d <= 3 /\
      exists w0, let answer := (demo_system [Byte.x01; Byte.x02] _ (sys_recvmsg 3 3) w0).1 in
        recv_truncated answer = false /\
        take (Z.to_nat (size d)) buffer' = recv_data answer /\
        size d = Z.of_nat (length (recv_data answer)).
Proof.
  exact (receive_delivers (demo_system [Byte.x01; Byte.x02]) (UdpRcv 3 4000)
    [Byte.x00; Byte.x00; Byte.x09] 10 tt (open_fd no_resources 3)
    (demo_system_documented _) eq_refl).
Defined.
