(* ===== verification/Segment.v ===== *)
(** * Shared memory segments

    [src/include/shm/segment.hpp] and [src/src/shm/segment.cpp]: creating, attaching,
    closing, unlinking and moving POSIX shared memory, over the system calls of [Posix].
    The theorems are about resources: what a segment holds is exactly what it will give
    back, on every path and whatever the system answers. *)

From S2P Require Import Prelude Posix.

Inductive SegmentOperation :=
  | SegmentOperation_Validate
  | SegmentOperation_Open
  | SegmentOperation_Resize
  | SegmentOperation_Stat
  | SegmentOperation_Map
  | SegmentOperation_Unmap
  | SegmentOperation_Close
  | SegmentOperation_Unlink.

#[export] Instance SegmentOperation_eq_dec : EqDecision SegmentOperation.
Proof. solve_decision. Defined.

Record SegmentError := SegErr { operation : SegmentOperation; seg_error_number : Z }.

(** [address_] is 0 for [nullptr]. *)
Record SharedMemorySegment := Segment {
  name_ : string;
  descriptor_ : Z;
  address_ : Z;
  size_ : Z;
  owner_ : bool;
  linked_ : bool;
}.

(** The default member initializers. *)
Definition Segment_default : SharedMemorySegment := Segment EmptyString (-1) 0 0 false false.

(** ** Names *)

Definition max_segment_name_length : nat := 255.

Definition allowed_characters : string :=
  "abcdefghijklmnopqrstuvwxyzABCDEFGHIJKLMNOPQRSTUVWXYZ0123456789._-".

Fixpoint string_elem (c : Ascii.ascii) (s : string) : bool :=
  match s with
  | EmptyString => false
  | String d s => bool_decide (c = d) || string_elem c s
  end.

(** [identifier.find_first_not_of(allowed) == npos] *)
Fixpoint all_in (allowed identifier : string) : bool :=
  match identifier with
  | EmptyString => true
  | String c s => string_elem c allowed && all_in allowed s
  end.

Definition is_shm_name_valid (name : string) : bool :=
  if (String.length name <? 2)%nat || (max_segment_name_length <? String.length name)%nat
  then false else
  match name with
  | EmptyString => false
  | String front identifier =>
      if negb (bool_decide (front = "/"%char)) then false else
      negb (bool_decide (identifier = ".")) && negb (bool_decide (identifier = ".."))
      && all_in allowed_characters identifier
  end.

(** ** Creating *)

Definition close_descriptor (descriptor : Z) : io sys unit :=
  call (sys_close descriptor);; mret tt.

Definition clean_up_failed_creation (name : string) (descriptor : Z) : io sys unit :=
  close_descriptor descriptor;;
  call (sys_shm_unlink name);; mret tt.

(** [static_cast<off_t>] of a [size_t]. *)
Definition off_t (z : Z) : Z := if z <? 2 ^ 63 then z else z - 2 ^ 64.

(** The private constructor. *)
Definition Segment_construct (name : string) (descriptor address size : Z) (owner : bool) :
    SharedMemorySegment :=
  Segment name descriptor address size owner true.

Definition create_shm (name : string) (size : Z) :
    io sys (expected SharedMemorySegment SegmentError) :=
  if negb (is_shm_name_valid name) || (size =? 0)
  then mret (Unexpected (SegErr SegmentOperation_Validate EINVAL)) else
  opened ← call (sys_shm_open name true);
  let descriptor := ret opened in
  if descriptor =? -1
  then mret (Unexpected (SegErr SegmentOperation_Open (errno opened))) else
  resized ← call (sys_ftruncate descriptor (off_t size));
  if ret resized =? -1 then
    clean_up_failed_creation name descriptor;;
    mret (Unexpected (SegErr SegmentOperation_Resize (errno resized))) else
  mapping ← call (sys_mmap size descriptor);
  if ret mapping =? MAP_FAILED then
    clean_up_failed_creation name descriptor;;
    mret (Unexpected (SegErr SegmentOperation_Map (errno mapping))) else
  mret (Value (Segment_construct name descriptor (ret mapping) size true)).

Definition attach_shm (name : string) : io sys (expected SharedMemorySegment SegmentError) :=
  if negb (is_shm_name_valid name)
  then mret (Unexpected (SegErr SegmentOperation_Validate EINVAL)) else
  opened ← call (sys_shm_open name false);
  let descriptor := ret opened in
  if descriptor =? -1
  then mret (Unexpected (SegErr SegmentOperation_Open (errno opened))) else
  status ← call (sys_fstat_size descriptor);
  let '(stated, st_size) := status in
  if ret stated =? -1 then
    close_descriptor descriptor;;
    mret (Unexpected (SegErr SegmentOperation_Stat (errno stated))) else
  if st_size <=? 0 then
    close_descriptor descriptor;;
    mret (Unexpected (SegErr SegmentOperation_Validate EINVAL)) else
  mapping ← call (sys_mmap st_size descriptor);
  if ret mapping =? MAP_FAILED then
    close_descriptor descriptor;;
    mret (Unexpected (SegErr SegmentOperation_Map (errno mapping))) else
  mret (Value (Segment_construct name descriptor (ret mapping) st_size false)).

(** ** Closing, unlinking, moving *)

(** The first half of [close_shm]: unmap; the error is 0 on success. *)
Definition close_unmap (self : SharedMemorySegment) : io sys (Z * SharedMemorySegment) :=
  if negb (address_ self =? 0) then
    unmapped ← call (sys_munmap (address_ self) (size_ self));
    if ret unmapped =? -1 then mret (errno unmapped, self)
    else mret (0, self{{ address_ := 0; size_ := 0 }})
  else mret (0, self).

(** The second half: close the descriptor. *)
Definition close_file (self : SharedMemorySegment) : io sys (Z * SharedMemorySegment) :=
  if negb (descriptor_ self =? -1) then
    closed ← call (sys_close (descriptor_ self));
    mret (if ret closed =? -1 then errno closed else 0, self{{ descriptor_ := -1 }})
  else mret (0, self).

Definition close_shm (self : SharedMemorySegment) :
    io sys (expected unit SegmentError * SharedMemorySegment) :=
  unmapped ← close_unmap self;
  let '(unmap_error, self) := unmapped in
  closed ← close_file self;
  let '(close_error, self) := closed in
  if negb (unmap_error =? 0)
  then mret (Unexpected (SegErr SegmentOperation_Unmap unmap_error), self) else
  if negb (close_error =? 0)
  then mret (Unexpected (SegErr SegmentOperation_Close close_error), self) else
  mret (Value tt, self).

(** The destructor. *)
Definition Segment_destroy (self : SharedMemorySegment) : io sys SharedMemorySegment :=
  r ← close_shm self; mret r.2.

Definition unlink (self : SharedMemorySegment) :
    io sys (expected unit SegmentError * SharedMemorySegment) :=
  if negb (owner_ self)
  then mret (Unexpected (SegErr SegmentOperation_Unlink EPERM), self) else
  if negb (linked_ self) then mret (Value tt, self) else
  unlinked ← call (sys_shm_unlink (name_ self));
  if ret unlinked =? -1 then
    if errno unlinked =? ENOENT then mret (Value tt, self{{ linked_ := false }})
    else mret (Unexpected (SegErr SegmentOperation_Unlink (errno unlinked)), self)
  else mret (Value tt, self{{ linked_ := false }}).

(** Both [std::string] moves leave a valid but unspecified name; it is never read again,
    since [owner_] is false. *)
Definition Segment_move (other : SharedMemorySegment) :
    SharedMemorySegment * SharedMemorySegment :=
  (Segment (name_ other) (descriptor_ other) (address_ other) (size_ other)
           (owner_ other) (linked_ other),
   Segment EmptyString (-1) 0 0 false false).

(** Move assignment from another object, past the guard against [self]: what [self] held is
    closed first. *)
Definition Segment_assign (self other : SharedMemorySegment) :
    io sys (SharedMemorySegment * SharedMemorySegment) :=
  close_shm self;; mret (Segment_move other).

Definition is_open_segment (self : SharedMemorySegment) : bool :=
  negb (descriptor_ self =? -1) && negb (address_ self =? 0).

(** [bytes()] *)
Definition segment_bytes (self : SharedMemorySegment) : Z * Z := (address_ self, size_ self).

Definition Segment_size (self : SharedMemorySegment) : Z := size_ self.

Definition Segment_is_owner (self : SharedMemorySegment) : bool := owner_ self.

(** ** What a segment holds *)

Definition held_fds (s : SharedMemorySegment) : list Z :=
  if descriptor_ s =? -1 then [] else [descriptor_ s].
Definition held_maps (s : SharedMemorySegment) : list (Z * Z) :=
  if address_ s =? 0 then [] else [(address_ s, size_ s)].

(** Resources [rs] and what the segment [s] holds, as the most recent acquisitions. *)
Definition with_segment (s : SharedMemorySegment) (rs : resources) : resources :=
  Resources (held_fds s ++ r_fds rs) (held_maps s ++ r_maps rs) (r_created rs) (r_unlinked rs).

(** [mmap] without [MAP_FIXED] never maps address 0. *)
Definition mmap_documented {W} (os : system W) : Prop :=
  forall size fd w, ret (os _ (sys_mmap size fd) w).1 <> 0.

Lemma with_segment_inert s rs :
  descriptor_ s = -1 -> address_ s = 0 -> with_segment s rs = rs.
Proof.
  intros Hd Ha. unfold with_segment, held_fds, held_maps. rewrite Hd, Ha. by destruct rs.
Qed.

Section Resources.
Context {W : Type} (os : system W).

Lemma interp_close_segment descriptor rs w :
  exists w', interp (tracked os) (close_descriptor descriptor) (w, open_fd rs descriptor) =
    Some (tt, (w', rs)).
Proof.
  unfold close_descriptor. destruct (interp_close os descriptor (fun _ => mret tt) w rs)
    as (r&w'&->). by exists w'.
Qed.

(** A name this program has just created. *)
Definition created (name : string) (rs : resources) : resources :=
  Resources (r_fds rs) (r_maps rs) (name :: r_created rs) (r_unlinked rs).
Definition unlinked (name : string) (rs : resources) : resources :=
  Resources (r_fds rs) (r_maps rs) (r_created rs) (name :: r_unlinked rs).

Lemma interp_clean_up name descriptor rs w :
  exists w', interp (tracked os) (clean_up_failed_creation name descriptor)
      (w, open_fd (created name rs) descriptor) =
    Some (tt, (w', unlinked name (created name rs))).
Proof.
  unfold clean_up_failed_creation. rewrite interp_bind.
  destruct (interp_close_segment descriptor (created name rs) w) as (w'&->).
  cbn [mbind option_bind fst snd]. rewrite interp_tracked. cbn [track].
  rewrite bool_decide_true by (simpl; apply list_elem_of_here).
  cbn. by eexists.
Qed.

(** The address comes from [mmap], the size from [fstat]. *)
Definition mapped (s : SharedMemorySegment) : Prop :=
  address_ s <> MAP_FAILED /\ exists z fd w, address_ s = ret (os _ (sys_mmap z fd) w).1.
Definition sized (s : SharedMemorySegment) : Prop :=
  exists fd w, let r := (os _ (sys_fstat_size fd) w).1 in ret r.1 <> -1 /\ size_ s = r.2.

Lemma create_shm_resources name size w rs :
  mmap_documented os ->
  exists r w' rs', interp (tracked os) (create_shm name size) (w, rs) = Some (r, (w', rs')) /\
    match r with
    | Value s => rs' = with_segment s (created name rs) /\ name_ s = name /\ size_ s = size /\
        is_open_segment s = true /\ owner_ s = true /\ linked_ s = true /\ mapped s
    | Unexpected _ => rs' = rs \/ rs' = unlinked name (created name rs)
    end.
Proof.
  intros Hmmap. unfold create_shm. case_bool; [eexists _, _, _; split; [reflexivity|by left]|].
  rewrite interp_tracked. destruct (os _ (sys_shm_open name true) w) as [o w1].
  cbn [fst snd track mbind option_bind]. cbv zeta.
  destruct (ret o =? -1) eqn:Ho; [eexists _, _, _; split; [reflexivity|by left]|].
  change (Resources _ _ _ _) with (open_fd (created name rs) (ret o)). cbn [mbind option_bind].
  rewrite (interp_use _ _ (ret o)) by auto with posix.
  destruct (os _ (sys_ftruncate _ _) w1) as [t w2]. cbn [fst snd]. case_bool.
  { rewrite interp_bind. destruct (interp_clean_up name (ret o) rs w2) as (w3&->).
    cbn. eexists _, _, _. split; [reflexivity|by right]. }
  rewrite interp_tracked. pose proof (Hmmap size (ret o) w2) as Hnz.
  destruct (os _ (sys_mmap _ _) w2) as [p w3] eqn:Hmap. cbn [fst snd track] in *.
  rewrite is_open_head. cbn [require mbind option_bind].
  destruct (ret p =? MAP_FAILED) eqn:Hp.
  { rewrite interp_bind. destruct (interp_clean_up name (ret o) rs w3) as (w4&->).
    cbn. eexists _, _, _. split; [reflexivity|by right]. }
  eexists _, _, _. split; [reflexivity|]. unfold is_open_segment, mapped. cbn.
  rewrite Ho, (proj2 (Z.eqb_neq (ret p) 0)) by done. split_and!; try done.
  - unfold with_segment, held_fds, held_maps. cbn.
    by rewrite Ho, (proj2 (Z.eqb_neq (ret p) 0)) by done.
  - by apply Z.eqb_neq.
  - exists size, (ret o), w2. by rewrite Hmap.
Qed.

Lemma attach_shm_resources name w rs :
  mmap_documented os ->
  exists r w' rs', interp (tracked os) (attach_shm name) (w, rs) = Some (r, (w', rs')) /\
    match r with
    | Value s => rs' = with_segment s rs /\ name_ s = name /\ 0 < size_ s /\
        is_open_segment s = true /\ owner_ s = false /\ mapped s /\ sized s
    | Unexpected _ => rs' = rs
    end.
Proof.
  intros Hmmap. unfold attach_shm. case_bool; [by eexists _, _, _|].
  rewrite interp_tracked. destruct (os _ (sys_shm_open name false) w) as [o w1].
  cbn [fst snd track mbind option_bind]. cbv zeta.
  destruct (ret o =? -1) eqn:Ho; [by eexists _, _, _|]. cbn [mbind option_bind].
  rewrite (interp_use _ _ (ret o)) by auto with posix.
  destruct (os _ (sys_fstat_size _) w1) as [[t st_size] w2] eqn:Hstat. cbn [fst snd]. case_bool.
  { rewrite interp_bind. destruct (interp_close_segment (ret o) rs w2) as (w3&->).
    cbn. by eexists _, _, _. }
  destruct (st_size <=? 0) eqn:Hsz.
  { rewrite interp_bind. destruct (interp_close_segment (ret o) rs w2) as (w3&->).
    cbn. by eexists _, _, _. }
  rewrite interp_tracked. pose proof (Hmmap st_size (ret o) w2) as Hnz.
  destruct (os _ (sys_mmap _ _) w2) as [p w3] eqn:Hmap. cbn [fst snd track] in *.
  rewrite is_open_head. cbn [require mbind option_bind].
  destruct (ret p =? MAP_FAILED) eqn:Hp.
  { rewrite interp_bind. destruct (interp_close_segment (ret o) rs w3) as (w4&->).
    cbn. by eexists _, _, _. }
  to_prop. eexists _, _, _. split; [reflexivity|]. unfold is_open_segment, mapped, sized. cbn.
  rewrite !(proj2 (Z.eqb_neq _ _)) by done. split_and!; try done.
  - unfold with_segment, held_fds, held_maps. cbn. by rewrite !(proj2 (Z.eqb_neq _ _)) by done.
  - exists st_size, (ret o), w2. by rewrite Hmap.
  - exists (ret o), w1. by rewrite Hstat.
Qed.

(** [close_shm] keeps the identity of the segment. *)
Definition same_name (s s' : SharedMemorySegment) : Prop :=
  name_ s' = name_ s /\ owner_ s' = owner_ s /\ linked_ s' = linked_ s.

(** Removing what lies below at most one other resource. *)
Lemma remove_below {A} `{EqDecision A} (x : A) (p l : list A) :
  (length p <= 1)%nat -> remove_one x (p ++ x :: l) = Some (p ++ l).
Proof.
  intros Hp. destruct p as [|y [|]]; simpl in Hp |- *; [by rewrite decide_True| |lia].
  case_decide; [by subst|]. by rewrite decide_True.
Qed.

Lemma held_fds_length s : (length (held_fds s) <= 1)%nat.
Proof. unfold held_fds. case_bool; simpl; lia. Qed.
Lemma held_maps_length s : (length (held_maps s) <= 1)%nat.
Proof. unfold held_maps. case_bool; simpl; lia. Qed.

(** The segment [s] is closed while a more recent segment [t] is held. *)
Abbreviation below t s rs := (with_segment t (with_segment s rs)).

Lemma close_unmap_resources t s w rs :
  exists e s' w', interp (tracked os) (close_unmap s) (w, below t s rs) =
      Some ((e, s'), (w', below t s' rs)) /\
    same_name s s' /\ descriptor_ s' = descriptor_ s /\
    (address_ s' = 0 \/ s' = s /\ exists a z w0, ret (os _ (sys_munmap a z) w0).1 = -1).
Proof.
  destruct s as [n d a z o l]. unfold close_unmap. cbn [address_ size_].
  destruct (a =? 0) eqn:Ea; cbn [negb].
  { to_prop. eexists _, _, _. split; [reflexivity|]. split_and!; auto; by split_and!. }
  rewrite interp_tracked. cbn [track].
  assert (r_maps (below t (Segment n d a z o l) rs) = held_maps t ++ (a, z) :: r_maps rs) as ->
    by (change (held_maps t ++ held_maps (Segment n d a z o l) ++ r_maps rs = held_maps t ++ (a, z) :: r_maps rs);
        unfold held_maps at 2; cbn; by rewrite Ea).
  rewrite (remove_below _ _ _ (held_maps_length t)). cbn [mbind option_bind]. case_bool; to_prop.
  - eexists _, _, _. split; [reflexivity|]. split_and!; [done|done|]. right. split; [done|by eexists _, _, _].
  - exists 0, (Segment n d 0 0 o l). eexists. split; [reflexivity|]. split_and!; auto; done.
Qed.

Lemma close_file_resources t s w rs :
  exists e w', interp (tracked os) (close_file s) (w, below t s rs) =
      Some ((e, s{{ descriptor_ := -1 }}), (w', below t (s{{ descriptor_ := -1 }}) rs)).
Proof.
  destruct s as [n d a z o l]. unfold close_file. cbn [descriptor_].
  destruct (d =? -1) eqn:Ed; cbn [negb].
  { to_prop. subst. by eexists _, _. }
  rewrite interp_tracked. cbn [track].
  assert (r_fds (below t (Segment n d a z o l) rs) = held_fds t ++ d :: r_fds rs) as ->
    by (change (held_fds t ++ held_fds (Segment n d a z o l) ++ r_fds rs = held_fds t ++ d :: r_fds rs);
        unfold held_fds at 2; cbn; by rewrite Ed).
  rewrite (remove_below _ _ _ (held_fds_length t)). cbn [mbind option_bind]. to_prop.
  by eexists _, _.
Qed.

(** Closing: the descriptor always goes, and the mapping unless [munmap] refuses. *)
Lemma close_below_resources t s w rs :
  exists r s' w', interp (tracked os) (close_shm s) (w, below t s rs) =
      Some ((r, s'), (w', below t s' rs)) /\
    same_name s s' /\ descriptor_ s' = -1 /\
    (address_ s' = 0 \/ exists a z w0, ret (os _ (sys_munmap a z) w0).1 = -1).
Proof.
  unfold close_shm. rewrite interp_bind.
  destruct (close_unmap_resources t s w rs) as (e&s1&w1&->&Hn&Hd&Ha).
  cbn [mbind option_bind fst snd]. rewrite interp_bind.
  destruct (close_file_resources t s1 w1 rs) as (e2&w2&->). cbn [mbind option_bind fst snd].
  exists (if negb (e =? 0) then Unexpected (SegErr SegmentOperation_Unmap e) else
          if negb (e2 =? 0) then Unexpected (SegErr SegmentOperation_Close e2) else Value tt),
    (s1{{ descriptor_ := -1 }}), w2.
  split; [by repeat case_bool|]. split_and!; [by destruct s1|by destruct s1|].
  destruct Ha as [Ha|[_ ?]]; [left; by destruct s1|by right].
Qed.

Lemma close_shm_resources s w rs :
  exists r s' w', interp (tracked os) (close_shm s) (w, with_segment s rs) =
      Some ((r, s'), (w', with_segment s' rs)) /\
    same_name s s' /\ descriptor_ s' = -1 /\
    (address_ s' = 0 \/ exists a z w0, ret (os _ (sys_munmap a z) w0).1 = -1).
Proof.
  destruct (close_below_resources Segment_default s w rs) as (r&s'&w'&Hrun&H).
  rewrite !(with_segment_inert Segment_default) in Hrun by done. by exists r, s', w'.
Qed.

(** ** The life of a segment variable *)

(** [munmap] succeeds; the code only calls it with mappings it got from [mmap] (the
    resource tracker faults on others), for which it is documented to. *)
Definition munmap_documented : Prop := forall a z w, ret (os _ (sys_munmap a z) w).1 <> -1.

Lemma segment_destroy_resources s w rs :
  munmap_documented ->
  exists s' w', interp (tracked os) (Segment_destroy s) (w, with_segment s rs) = Some (s', (w', rs)).
Proof.
  intros Hun. unfold Segment_destroy. rewrite interp_bind.
  destruct (close_shm_resources s w rs) as (r&s'&w'&->&_&Hd&Ha).
  destruct Ha as [Ha|(a&z&w0&Ha)]; [|by apply Hun in Ha].
  rewrite (with_segment_inert s') by done. by exists s', w'.
Qed.

(** The owner removes the name it created. *)
Lemma unlink_created s w rs :
  owner_ s = true -> linked_ s = true ->
  exists r s' w', interp (tracked os) (unlink s) (w, with_segment s (created (name_ s) rs)) =
      Some ((r, s'), (w', with_segment s' (unlinked (name_ s) (created (name_ s) rs)))).
Proof.
  destruct s as [n d a z o l]. cbn. intros -> ->. unfold unlink. cbn [owner_ linked_ negb name_].
  rewrite interp_tracked. cbn [track].
  rewrite bool_decide_true by (simpl; apply list_elem_of_here). cbn [require mbind option_bind].
  case_bool; [case_bool|].
  - by eexists _, (Segment n d a z true false), _.
  - by eexists _, (Segment n d a z true true), _.
  - by eexists _, (Segment n d a z true false), _.
Qed.

Inductive segment_op :=
  | SegCreate (name : string) (size : Z)   (** move-assigned to the variable *)
  | SegAttach (name : string)
  | SegClose
  | SegUnlink.

(** A variable that is move-assigned what was made, if it was; the moved-from temporary is
    destroyed. *)
Definition assign_result (s : SharedMemorySegment)
    (r : expected SharedMemorySegment SegmentError) : io sys SharedMemorySegment :=
  match r with
  | Value other =>
      moved ← Segment_assign s other;
      let '(s, other) := moved in Segment_destroy other;; mret s
  | Unexpected _ => mret s
  end.

Definition run_segment_op (op : segment_op) (s : SharedMemorySegment) : io sys SharedMemorySegment :=
  match op with
  | SegCreate name size => r ← create_shm name size; assign_result s r
  | SegAttach name => r ← attach_shm name; assign_result s r
  | SegClose => r ← close_shm s; mret r.2
  | SegUnlink => r ← unlink s; mret r.2
  end.

Fixpoint run_segment_ops (ops : list segment_op) (s : SharedMemorySegment) :
    io sys SharedMemorySegment :=
  match ops with
  | [] => mret s
  | op :: ops => s ← run_segment_op op s; run_segment_ops ops s
  end.

(** The program holds [s] and what it held before, and an owner's name was created here. *)
Record segment_inv (rs0 : resources) (s : SharedMemorySegment) (base : resources) : Prop :=
  SegmentInv {
    inv_fds : r_fds base = r_fds rs0;
    inv_maps : r_maps base = r_maps rs0;
    inv_owner : owner_ s = true -> name_ s ∈ r_created base;
    inv_unlinked : owner_ s = true -> linked_ s = false -> name_ s ∈ r_unlinked base;
  }.

Lemma destroy_moved_from w rs :
  interp (tracked os) (Segment_destroy (Segment EmptyString (-1) 0 0 false false)) (w, rs) =
    Some (Segment EmptyString (-1) 0 0 false false, (w, rs)).
Proof. reflexivity. Qed.

Lemma assign_resources s t w rs :
  munmap_documented ->
  exists w', interp (tracked os) (assign_result s (Value t)) (w, with_segment t (with_segment s rs)) =
    Some (t, (w', with_segment t rs)).
Proof.
  intros Hun. unfold assign_result, Segment_assign. rewrite !interp_bind.
  destruct (close_below_resources t s w rs) as (r&s'&w1&->&_&Hd&Ha).
  destruct Ha as [Ha|(a&z&w0&Ha)]; [|by apply Hun in Ha].
  rewrite (with_segment_inert s') by done. exists w1. by destruct t.
Qed.

Lemma unlink_resources s w rs0 base :
  segment_inv rs0 s base ->
  exists r s' w' base', interp (tracked os) (unlink s) (w, with_segment s base) =
      Some ((r, s'), (w', with_segment s' base')) /\ segment_inv rs0 s' base'.
Proof.
  intros [Hf Hm Ho Hu]. destruct s as [n d a z o l]. unfold unlink. cbn [owner_ linked_ name_] in *.
  destruct o; cbn [negb]; [|by eexists _, _, _, _].
  destruct l; cbn [negb]; [|by eexists _, _, _, _].
  rewrite interp_tracked. cbn [track].
  rewrite bool_decide_true by by apply Ho. cbn [require mbind option_bind].
  change (Resources _ _ _ (n :: _)) with (with_segment (Segment n d a z true true) (unlinked n base)).
  assert (segment_inv rs0 (Segment n d a z true true) (unlinked n base)) by by split.
  assert (segment_inv rs0 (Segment n d a z true false) (unlinked n base)).
  { split; cbn; try done. intros. apply list_elem_of_here. }
  assert (forall r (s' : SharedMemorySegment) w', segment_inv rs0 s' (unlinked n base) ->
    with_segment (Segment n d a z true true) (unlinked n base) = with_segment s' (unlinked n base) ->
    exists r0 s0 w0 base0, interp (tracked os) (mret (r, s'))
        (w', with_segment (Segment n d a z true true) (unlinked n base)) =
      Some ((r0, s0) : expected unit SegmentError * _, (w0, with_segment s0 base0)) /\
      segment_inv rs0 s0 base0) as Hret.
  { intros r s' w' Hs' ->. by exists r, s', w', (unlinked n base). }
  case_bool; [case_bool|]; by apply Hret.
Qed.

Lemma segment_inv_created rs0 s base name :
  segment_inv rs0 s base -> segment_inv rs0 s (created name base).
Proof. intros [? ? Ho ?]. split; cbn; try done. intros. apply list_elem_of_further. by apply Ho. Qed.

Lemma segment_inv_unlinked rs0 s base name :
  segment_inv rs0 s base -> segment_inv rs0 s (unlinked name base).
Proof. intros [? ? ? Hu]. split; cbn; try done. intros. apply list_elem_of_further. by apply Hu. Qed.

Lemma segment_op_resources op s w rs0 base :
  mmap_documented os -> munmap_documented ->
  segment_inv rs0 s base ->
  exists s' w' base', interp (tracked os) (run_segment_op op s) (w, with_segment s base) =
      Some (s', (w', with_segment s' base')) /\ segment_inv rs0 s' base'.
Proof.
  intros Hmmap Hun Hinv. destruct op as [name size|name| |]; cbn [run_segment_op].
  - rewrite interp_bind.
    destruct (create_shm_resources name size w (with_segment s base) Hmmap)
      as (r&w1&rs1&->&Hr). cbn [mbind option_bind fst snd].
    destruct r as [t|e].
    + destruct Hr as (->&Hn&_&_&Ho&Hl&_).
      change (created name (with_segment s base)) with (with_segment s (created name base)).
      destruct (assign_resources s t w1 (created name base) Hun) as (w2&->).
      exists t, w2, (created name base). split; [done|].
      destruct Hinv as [Hf Hm _ _]. split; cbn; [done|done| |].
      * intros _. rewrite Hn. apply list_elem_of_here.
      * by rewrite Hl.
    + destruct Hr as [->| ->]; [by eexists _, _, base|].
      change (unlinked name (created name (with_segment s base))) with
        (with_segment s (unlinked name (created name base))).
      eexists _, _, (unlinked name (created name base)). split; [reflexivity|].
      by apply segment_inv_unlinked, segment_inv_created.
  - rewrite interp_bind.
    destruct (attach_shm_resources name w (with_segment s base) Hmmap) as (r&w1&rs1&->&Hr).
    cbn [mbind option_bind fst snd]. destruct r as [t|e]; [|subst; by eexists _, _, base].
    destruct Hr as (->&_&_&_&Ho&_). destruct (assign_resources s t w1 base Hun) as (w2&->).
    exists t, w2, base. split; [done|]. destruct Hinv. split; try done; by rewrite Ho.
  - rewrite interp_bind. destruct (close_shm_resources s w base) as (r&s'&w'&->&(Hn&Ho&Hl)&_).
    eexists _, _, base. split; [reflexivity|]. destruct Hinv. split; cbn; rewrite ?Hn, ?Ho, ?Hl; done.
  - rewrite interp_bind. destruct (unlink_resources s w rs0 base Hinv) as (r&s'&w'&base'&->&Hinv').
    by eexists _, _, base'.
Qed.

Lemma segment_ops_resources ops s w rs0 base :
  mmap_documented os -> munmap_documented ->
  segment_inv rs0 s base ->
  exists s' w' base', interp (tracked os) (run_segment_ops ops s) (w, with_segment s base) =
      Some (s', (w', with_segment s' base')) /\ segment_inv rs0 s' base'.
Proof.
  intros Hmmap Hun. revert s w base. induction ops as [|op ops IH]; intros s w base Hinv.
  { by eexists _, _, base. }
  cbn [run_segment_ops]. rewrite interp_bind.
  destruct (segment_op_resources op s w rs0 base Hmmap Hun Hinv) as (s1&w1&base1&->&Hinv1).
  cbn [mbind option_bind fst snd]. by apply IH.
Qed.
End Resources.

(** ** Names *)

Definition in_range (c lo hi : Ascii.ascii) : bool :=
  (Ascii.nat_of_ascii lo <=? Ascii.nat_of_ascii c)%nat
  && (Ascii.nat_of_ascii c <=? Ascii.nat_of_ascii hi)%nat.

(** The portable file name characters of POSIX. *)
Definition portable (c : Ascii.ascii) : bool :=
  in_range c "a" "z" || in_range c "A" "Z" || in_range c "0" "9"
  || bool_decide (c = "."%char) || bool_decide (c = "_"%char) || bool_decide (c = "-"%char).

Lemma allowed_portable c : string_elem c allowed_characters = portable c.
Proof. destruct c as [[] [] [] [] [] [] [] []]; vm_compute; reflexivity. Qed.

Lemma all_in_portable s :
  all_in allowed_characters s = forallb portable (String.list_ascii_of_string s).
Proof. induction s as [|c s IH]; [done|]. cbn [all_in]. by rewrite allowed_portable, IH. Qed.

(** ** Properties *)

(** A name is accepted exactly if it is a slash followed by 1 to 254 portable file name
    characters that are not the directory entries [.] and [..]; in particular it has no
    second slash and no NUL, so [c_str()] passes it whole. *)
Theorem shm_name_valid name :
  is_shm_name_valid name = true <->
  exists identifier, name = String "/" identifier /\
    (1 <= String.length identifier <= 254)%nat /\
    forallb portable (String.list_ascii_of_string identifier) = true /\
    identifier <> "." /\ identifier <> "..".
Proof.
  unfold is_shm_name_valid, max_segment_name_length. split.
  - destruct name as [|front identifier]; [done|]. cbn [String.length].
    case_bool; [done|]. apply orb_false_iff in E as [E1 E2].
    apply Nat.ltb_ge in E1, E2. case_bool_decide as Hf; [subst front|done]. cbn [negb].
    rewrite !andb_true_iff, !negb_true_iff, !bool_decide_eq_false, all_in_portable.
    intros [[? ?] ?]. exists identifier. split_and!; done || lia.
  - intros (identifier&->&Hl&Hp&Hd&Hdd). cbn [String.length].
    rewrite (proj2 (Nat.ltb_ge _ 2)), (proj2 (Nat.ltb_ge 255 _)) by lia. cbn [orb].
    rewrite bool_decide_true by done. cbn [negb].
    by rewrite !andb_true_iff, !negb_true_iff, !bool_decide_eq_false, all_in_portable.
Qed.

(** C33. [create_shm] on any system: on success the program holds one more descriptor, one
    more mapping of the requested size and one created name, all recorded in the owning
    segment; on failure, at whatever call, it holds nothing more, and a name it had
    created has been unlinked. *)
Theorem create_shm_all_or_nothing {W} (os : system W) name size w rs :
  mmap_documented os ->
  exists r w' rs', interp (tracked os) (create_shm name size) (w, rs) = Some (r, (w', rs')) /\
    match r with
    | Value s => rs' = with_segment s (created name rs) /\ Segment_size s = size /\
        is_open_segment s = true /\ Segment_is_owner s = true
    | Unexpected _ => r_fds rs' = r_fds rs /\ r_maps rs' = r_maps rs /\
        (rs' = rs \/ rs' = unlinked name (created name rs))
    end.
Proof.
  intros Hm. destruct (create_shm_resources os name size w rs Hm) as (r&w'&rs'&Hrun&Hr).
  exists r, w', rs'. split; [done|]. destruct r; [by destruct Hr as (?&_&?&?&?&_)|].
  by destruct Hr as [-> | ->]; auto.
Qed.

(** C34. [attach_shm] on any system never creates or unlinks a name, and on failure holds
    nothing; on success the segment holds the descriptor and a mapping of the nonempty
    size of the object and is not its owner. *)
Theorem attach_shm_all_or_nothing {W} (os : system W) name w rs :
  mmap_documented os ->
  exists r w' rs', interp (tracked os) (attach_shm name) (w, rs) = Some (r, (w', rs')) /\
    r_created rs' = r_created rs /\ r_unlinked rs' = r_unlinked rs /\
    match r with
    | Value s => rs' = with_segment s rs /\ 0 < Segment_size s /\ is_open_segment s = true /\
        Segment_is_owner s = false
    | Unexpected _ => rs' = rs
    end.
Proof.
  intros Hm. destruct (attach_shm_resources os name w rs Hm) as (r&w'&rs'&Hrun&Hr).
  exists r, w', rs'. split; [done|]. destruct r; [|by subst].
  by destruct Hr as (->&_&?&?&?&_).
Qed.

(** C35. The life of a segment variable: whatever sequence of creating and attaching (with
    move assignment of the result), closing and unlinking a program runs on it, and whatever
    the calls answer, as long as [munmap] succeeds, no descriptor is used after it was
    closed, nothing is closed or unmapped twice, no foreign name is unlinked, and after its
    destructor the program holds exactly the descriptors and mappings it held before. *)
Theorem segment_lifecycle {W} (os : system W) ops w rs :
  mmap_documented os -> munmap_documented os ->
  exists s w' rs',
    interp (tracked os) (s ← run_segment_ops ops Segment_default; Segment_destroy s) (w, rs) =
      Some (s, (w', rs')) /\
    r_fds rs' = r_fds rs /\ r_maps rs' = r_maps rs.
Proof.
  intros Hmmap Hun. rewrite interp_bind.
  pose proof (segment_ops_resources os ops Segment_default w rs rs Hmmap Hun) as H.
  rewrite with_segment_inert in H by done.
  destruct H as (s&w1&base&->&[Hf Hm _ _]); [by split|]. cbn [mbind option_bind fst snd].
  destruct (segment_destroy_resources os s w1 base Hun) as (s'&w2&->). by eexists s', w2, base.
Qed.

Lemma demo_mmap_documented d : mmap_documented (demo_system d).
Proof. done. Qed.
Lemma demo_munmap_documented d : munmap_documented (demo_system d).
Proof. done. Qed.

Lemma create_shm_all_or_nothing_witness :
  exists r w' rs', interp (tracked (demo_system [])) (create_shm "/lle" 320) (tt, no_resources) =
      Some (r, (w', rs')) /\
    match r with
    | Value s => rs' = with_segment s (created "/lle" no_resources) /\ size_ s = 320 /\
        is_open_segment s = true /\ owner_ s = true
    | Unexpected _ => r_fds rs' = [] /\ r_maps rs' = [] /\
        (rs' = no_resources \/ rs' = unlinked "/lle" (created "/lle" no_resources))
    end.
Proof.
  exact (create_shm_all_or_nothing (demo_system []) "/lle" 320 tt no_resources
           (demo_mmap_documented [])).
Defined.

Lemma attach_shm_all_or_nothing_witness :
  exists r w' rs', interp (tracked (demo_system [])) (attach_shm "/lle") (tt, no_resources) =
      Some (r, (w', rs')) /\ r_created rs' = [] /\ r_unlinked rs' = [] /\
    match r with
    | Value s => rs' = with_segment s no_resources /\ 0 < size_ s /\ is_open_segment s = true /\
        owner_ s = false
    | Unexpected _ => rs' = no_resources
    end.
Proof.
  exact (attach_shm_all_or_nothing (demo_system []) "/lle" tt no_resources
           (demo_mmap_documented [])).
Defined.

Lemma segment_lifecycle_witness :
  exists s w' rs',
    interp (tracked (demo_system []))
      (s ← run_segment_ops [SegCreate "/a" 320; SegAttach "/b"; SegUnlink; SegClose; SegClose]
             Segment_default; Segment_destroy s) (tt, no_resources) = Some (s, (w', rs')) /\
    r_fds rs' = [] /\ r_maps rs' = [].
Proof.
  exact (segment_lifecycle (demo_system []) _ tt no_resources
           (demo_mmap_documented []) (demo_munmap_documented [])).
Defined.
