(* ===== verification/Config.v ===== *)
(** * Configuration, statistics, start-up errors

    [src/include/lle/config.hpp], [src/include/lle/stats.hpp] and
    [src/include/lle/init_error.hpp]. *)

From S2P Require Import Prelude Event Ring Posix Protocol.

Inductive InitError :=
  | InitError_InvalidConfig
  | InitError_SharedMemory
  | InitError_Ring
  | InitError_AddressResolution
  | InitError_Socket
  | InitError_SessionId.

#[export] Instance InitError_eq_dec : EqDecision InitError.
Proof. solve_decision. Defined.

Record Endpoint := EndpointOf { address : string; port : Z }.

Record SenderConfig := SenderConfigOf {
  ingress_shm_name : string;
  receivers : list Endpoint;
  max_datagram_bytes : Z;
  retransmit_window_packets : Z;
  sender_delivery_mode : DeliveryMode;
  sender_cpu : Z;
  busy_spin_ingress : bool;
}.

(** The default member initializers. *)
Definition SenderConfig_default : SenderConfig :=
  SenderConfigOf EmptyString [] (u32 kMaxPacketBytes) 65536 DeliveryMode_BestEffort (-1) true.

Record ReceiverConfig := ReceiverConfigOf {
  listen : Endpoint;
  nack_target : Endpoint;
  egress_shm_name : string;
  egress_ring : RingConfig;
  receiver_delivery_mode : DeliveryMode;
  reorder_window_packets : Z;
  recovery_timeout_us : Z;
  receiver_cpu : Z;
  busy_poll_us : Z;
}.

Definition ReceiverConfig_default : ReceiverConfig :=
  ReceiverConfigOf (EndpointOf EmptyString 0) (EndpointOf EmptyString 0) EmptyString (Config 0 0)
    DeliveryMode_BestEffort 4096 100 (-1) 0.

(** What the defaulted move of a configuration leaves behind: vectors are empty, scalars
    keep their values; a moved-from string is valid but unspecified, here empty. *)
Definition SenderConfig_moved (c : SenderConfig) : SenderConfig :=
  SenderConfigOf EmptyString [] (max_datagram_bytes c) (retransmit_window_packets c)
    (sender_delivery_mode c) (sender_cpu c) (busy_spin_ingress c).
Definition ReceiverConfig_moved (c : ReceiverConfig) : ReceiverConfig :=
  ReceiverConfigOf (EndpointOf EmptyString (port (listen c))) (EndpointOf EmptyString (port (nack_target c)))
    EmptyString (egress_ring c) (receiver_delivery_mode c) (reorder_window_packets c)
    (recovery_timeout_us c) (receiver_cpu c) (busy_poll_us c).

Record EngineStats := Stats {
  events_in : Z;
  events_out : Z;
  packets_sent : Z;
  packets_received : Z;
  gaps_detected : Z;
  packets_missed : Z;
  duplicate_or_old_packets : Z;
  wrong_session_packets : Z;
  nack_sent : Z;
  retransmitted : Z;
  recovered : Z;
  unrecovered : Z;
  ingress_full : Z;
  malformed_packets : Z;
  events_dropped : Z;
  encode_errors : Z;
  send_errors : Z;
  ingress_errors : Z;
  receive_errors : Z;
  egress_full : Z;
  egress_errors : Z;
}.

#[export] Instance EngineStats_eq_dec : EqDecision EngineStats.
Proof. solve_decision. Defined.

Definition EngineStats_init : EngineStats :=
  Stats 0 0 0 0 0 0 0 0 0 0 0 0 0 0 0 0 0 0 0 0 0.

(** [++counter] on a [std::uint64_t]. *)
Definition incr (n : Z) : Z := u64 (n + 1).

Lemma incr_add n k : incr (u64 (n + k)) = u64 (n + (k + 1)).
Proof. unfold incr. rewrite wrap_add_l. f_equal. lia. Qed.

(** ** Counter arithmetic

    Adding counts to the counters, each a [std::uint64_t]; [stats_sum] adds two lists of
    counts without wrapping. *)

Definition stats_fields (st : EngineStats) : list Z :=
  [ events_in st; events_out st; packets_sent st; packets_received st; gaps_detected st;
   packets_missed st; duplicate_or_old_packets st; wrong_session_packets st; nack_sent st;
   retransmitted st; recovered st; unrecovered st; ingress_full st; malformed_packets st;
   events_dropped st; encode_errors st; send_errors st; ingress_errors st; receive_errors st;
   egress_full st; egress_errors st].

Definition stats_ok (st : EngineStats) : Prop := Forall (is_uint 64) (stats_fields st).

Definition stats_zip (f : Z -> Z -> Z) (a b : EngineStats) : EngineStats :=
  Stats
    (f (events_in a) (events_in b)) (f (events_out a) (events_out b))
    (f (packets_sent a) (packets_sent b)) (f (packets_received a) (packets_received b))
    (f (gaps_detected a) (gaps_detected b)) (f (packets_missed a) (packets_missed b))
    (f (duplicate_or_old_packets a) (duplicate_or_old_packets b))
    (f (wrong_session_packets a) (wrong_session_packets b)) (f (nack_sent a) (nack_sent b))
    (f (retransmitted a) (retransmitted b)) (f (recovered a) (recovered b))
    (f (unrecovered a) (unrecovered b)) (f (ingress_full a) (ingress_full b))
    (f (malformed_packets a) (malformed_packets b)) (f (events_dropped a) (events_dropped b))
    (f (encode_errors a) (encode_errors b)) (f (send_errors a) (send_errors b))
    (f (ingress_errors a) (ingress_errors b)) (f (receive_errors a) (receive_errors b))
    (f (egress_full a) (egress_full b)) (f (egress_errors a) (egress_errors b)).

Definition stats_add : EngineStats -> EngineStats -> EngineStats :=
  stats_zip (fun n k => u64 (n + k)).
Definition stats_sum : EngineStats -> EngineStats -> EngineStats := stats_zip Z.add.

Lemma stats_add_assoc st a b : stats_add (stats_add st a) b = stats_add st (stats_sum a b).
Proof.
  unfold stats_add, stats_sum, stats_zip. cbn.
  f_equal; rewrite wrap_add_l; f_equal; lia.
Qed.

Lemma stats_add_zero st : stats_ok st -> stats_add st EngineStats_init = st.
Proof.
  destruct st. unfold stats_ok, stats_fields, stats_add, stats_zip. cbn. intros Hst.
  repeat (apply Forall_cons in Hst as [? Hst]). by rewrite !Z.add_0_r, !wrap_small.
Qed.

Lemma stats_add_ok st a : stats_ok (stats_add st a).
Proof. unfold stats_ok. repeat apply Forall_cons_2; try by apply wrap_is_uint. constructor. Qed.

(** ** Random identities *)

(** The loop around [getrandom] in [Sender::initialize] (4 bytes) and
    [Receiver::initialize] (8 bytes): until the identity is not zero; at most [fuel]
    turns. *)
Fixpoint choose_id (bytes : Z) (fuel : nat) : io sys (option (expected Z unit)) :=
  match fuel with
  | O => mret None
  | S fuel =>
      answer ← call (sys_getrandom bytes);
      let '(got, value) := answer in
      if (ret got <? 0) && (errno got =? EINTR) then choose_id bytes fuel else
      if negb (ret got =? bytes) then mret (Some (Unexpected tt)) else
      let id := wrap (8 * bytes) value in
      if id =? 0 then choose_id bytes fuel else mret (Some (Value id))
  end.
