(* ===== verification/Engine.v ===== *)
(** * Programs in their environment

    The loops of the sender and the receiver read a stop flag another thread sets, operate
    on a ring another process operates on, and call the operating system. [engine] has
    these effects. A [world] is the state they act on: the bytes of the mapped segment,
    the ring handle of the peer process, the stop flag, the operating system and the
    resources held, and a log of what happened.

    The environment is arbitrary: it decides, at every effect, which operations the peer
    performs first and whether a stop is requested, and the system answers the calls. The
    operations of the peer are those of [Ring], run atomically between the effects of the
    program; [EngineWeak] proves that a peer that runs concurrently is covered. *)

From S2P Require Import Prelude Bytes Event Memory RingLayout Ring RingSpec RingGeometry.
From S2P Require Import RingRefinement RingSafety RingSystem RingHistory Posix.

Inductive engine : Type -> Type :=
  | stop_load : engine bool
  | stop_store (b : bool) : engine unit
  | sleep_for (milliseconds : Z) : engine unit
  | on_ring {A : Type} (p : prog A) : engine A
  | posix {R : Type} (c : sys R) : engine R
  | undefined {A : Type} : engine A.

Record world (W : Type) := World {
  w_os : W;
  w_held : resources;
  w_time : nat;
  w_stop : bool;
  w_ring : list byte;
  w_peer : SpscRing;
  w_peer_log : list (ring_op * ring_result);     (** what the peer did *)
  w_sent : list (list byte * sockaddr_in * sysret);  (** every [sendto] and its answer *)
  w_received : list recvret;                     (** every answer of [recvmsg] *)
}.
Arguments World {W} _ _ _ _ _ _ _ _ _.
Arguments w_os {W} _.
Arguments w_held {W} _.
Arguments w_time {W} _.
Arguments w_stop {W} _.
Arguments w_ring {W} _.
Arguments w_peer {W} _.
Arguments w_peer_log {W} _.
Arguments w_sent {W} _.
Arguments w_received {W} _.

Record environment (W : Type) := Environment {
  env_os : system W;
  env_stop : nat -> bool;           (** another thread calls [request_stop()] *)
  env_peer : nat -> list ring_op;   (** the peer's operations before the next effect *)
}.
Arguments Environment {W} _ _ _.
Arguments env_os {W} _.
Arguments env_stop {W} _.
Arguments env_peer {W} _.

(** The peer operates on the segment with its own handle, whichever side it is. *)
Definition peer_op (op : ring_op) (m : list byte) (h : SpscRing) :
    option (ring_result * (list byte * SpscRing)) :=
  '(r, s) ← exec_op op (RingSys m h h);
  Some (r, (sys_bytes s, if producer_op op then sys_producer s else sys_consumer s)).

Fixpoint peer_ops (ops : list ring_op) (m : list byte) (h : SpscRing) :
    option (list ring_result * (list byte * SpscRing)) :=
  match ops with
  | [] => Some ([], (m, h))
  | op :: ops =>
      '(r, (m, h)) ← peer_op op m h;
      '(rs, mh) ← peer_ops ops m h; Some (r :: rs, mh)
  end.

Section Handler.
Context {W : Type} (env : environment W).

(** What happens before an effect. *)
Definition env_step (w : world W) : option (world W) :=
  let ops := env_peer env (w_time w) in
  '(rs, (m, h)) ← peer_ops ops (w_ring w) (w_peer w);
  Some (World (w_os w) (w_held w) (S (w_time w)) (w_stop w || env_stop env (w_time w))
              m h (w_peer_log w ++ zip ops rs) (w_sent w) (w_received w)).

(** The log entries of a call. *)
Definition log_sent {R} (c : sys R) : R -> list (list byte * sockaddr_in * sysret) :=
  match c in sys R return R -> _ with
  | sys_sendto _ data destination => fun r => [(data, destination, r)]
  | _ => fun _ => []
  end.
Definition log_received {R} (c : sys R) : R -> list recvret :=
  match c in sys R return R -> _ with
  | sys_recvmsg _ _ => fun r => [r]
  | _ => fun _ => []
  end.

Definition perform {R} (e : engine R) (w : world W) : option (R * world W) :=
  match e in engine R return option (R * world W) with
  | stop_load => Some (w_stop w, w)
  | stop_store b =>
      Some (tt, World (w_os w) (w_held w) (w_time w) b (w_ring w) (w_peer w)
                      (w_peer_log w) (w_sent w) (w_received w))
  | sleep_for _ => Some (tt, w)
  | on_ring p =>
      '(a, m) ← run p (w_ring w);
      Some (a, World (w_os w) (w_held w) (w_time w) (w_stop w) m (w_peer w)
                     (w_peer_log w) (w_sent w) (w_received w))
  | posix c =>
      '(r, (os, held)) ← tracked (env_os env) _ c (w_os w, w_held w);
      Some (r, World os held (w_time w) (w_stop w) (w_ring w) (w_peer w) (w_peer_log w)
                     (w_sent w ++ log_sent c r) (w_received w ++ log_received c r))
  | undefined => None
  end.

Definition engine_handler : handler engine (world W) :=
  fun R e w => w ← env_step w; perform e w.
End Handler.

(** The outcome of one turn of a [while] loop. *)
Inductive loop := Continue | Break.

#[export] Instance loop_eq_dec : EqDecision loop.
Proof. solve_decision. Defined.

(** System-call programs as engine programs. *)
Definition syscalls {A} (p : io sys A) : io engine A := lift (@posix) p.

(** ** Executing effects *)

Lemma interp_effect {W} (env : environment W) {A R} (e : engine R) (f : R -> io engine A) w :
  interp (engine_handler env) (call e ≫= f) w =
    w1 ← env_step env w; r ← perform env e w1; interp (engine_handler env) (f r.1) r.2.
Proof.
  rewrite interp_call. unfold engine_handler. by destruct (env_step env w).
Qed.

Lemma interp_syscalls_call {W} (env : environment W) {A R} (c : sys R) (f : R -> io sys A) w :
  interp (engine_handler env) (syscalls (call c ≫= f)) w =
    w1 ← env_step env w; r ← perform env (posix c) w1;
    interp (engine_handler env) (syscalls (f r.1)) r.2.
Proof.
  unfold syscalls. unfold call, mbind, io_mbind. cbn [io_bind lift interp].
  unfold engine_handler. by destruct (env_step env w).
Qed.

Lemma interp_syscalls_bind {W} (env : environment W) {A B} (p : io sys A) (k : A -> io sys B) w :
  interp (engine_handler env) (syscalls (p ≫= k)) w =
    r ← interp (engine_handler env) (syscalls p) w;
    interp (engine_handler env) (syscalls (k r.1)) r.2.
Proof.
  unfold syscalls, mbind, io_mbind. revert w. induction p as [a|R e q IH]; intros w; [done|].
  cbn [io_bind lift interp]. destruct (engine_handler env _ _ w) as [[r w']|]; [|done].
  cbn. apply IH.
Qed.

(** ** The peer *)

Lemma peer_op_producer op m hp hc :
  producer_op op = true ->
  exec_op op (RingSys m hp hc) =
    '(r, (m', hp')) ← peer_op op m hp; Some (r, RingSys m' hp' hc).
Proof.
  intros Hop. unfold peer_op. destruct op as [ev| | |]; try done; cbn [exec_op].
  - by destruct (run (try_publish hp ev) m) as [[[r h] m']|].
  - by destruct (run (close_publication hp) m) as [[r m']|].
Qed.

Lemma peer_op_consumer op m hp hc :
  producer_op op = false ->
  exec_op op (RingSys m hp hc) =
    '(r, (m', hc')) ← peer_op op m hc; Some (r, RingSys m' hp hc').
Proof.
  intros Hop. unfold peer_op. destruct op as [ev| | |]; try done; cbn [exec_op].
  - destruct (run (try_acquire hc) m) as [[[r h] m']|]; [|done].
    cbn. by destruct (read_view m' r).
  - by destruct (run (release hc) m) as [[[r h] m']|].
Qed.

(** Which side the program is on: its handle, and the operations of its peer. *)
Inductive side := ConsumerSide | ProducerSide.

Definition side_sys (s : side) (m : list byte) (self peer : SpscRing) : ring_sys :=
  match s with ConsumerSide => RingSys m peer self | ProducerSide => RingSys m self peer end.

(** The peer only performs operations of the other side, on events of their types. *)
Definition peer_allowed (s : side) (op : ring_op) : Prop :=
  producer_op op = (match s with ConsumerSide => true | ProducerSide => false end) /\ op_ok op.

Lemma peer_ops_refine s ops m self peer q :
  sys_repr (side_sys s m self peer) q -> Forall (peer_allowed s) ops ->
  exists m' peer', peer_ops ops m peer = Some ((spec_ops ops q).1, (m', peer')) /\
    sys_repr (side_sys s m' self peer') (spec_ops ops q).2.
Proof.
  revert m peer q. induction ops as [|op ops IH]; intros m peer q Hs Hops; [by exists m, peer|].
  apply Forall_cons in Hops as [[Hop Hok] Hops]. cbn [peer_ops spec_ops].
  destruct (exec_op_refines op _ q Hs Hok) as (s1&Hrun&Hs1).
  assert (exists m1 peer1, peer_op op m peer = Some ((spec_op op q).1, (m1, peer1)) /\
            s1 = side_sys s m1 self peer1) as (m1&peer1&Hpeer&->).
  { destruct s; cbn [side_sys] in *.
    - rewrite peer_op_producer in Hrun by done.
      destruct (peer_op op m peer) as [[r [m1 p1]]|]; [|done]. simpl in Hrun.
      injection Hrun as <- <-. by exists m1, p1.
    - rewrite peer_op_consumer in Hrun by done.
      destruct (peer_op op m peer) as [[r [m1 p1]]|]; [|done]. simpl in Hrun.
      injection Hrun as <- <-. by exists m1, p1. }
  rewrite Hpeer. cbn [mbind option_bind]. destruct (spec_op op q) as [r q1].
  destruct (IH m1 peer1 q1 Hs1 Hops) as (m2&peer2&Hrun2&Hs2). cbn [fst snd] in *.
  rewrite Hrun2. cbn [mbind option_bind]. destruct (spec_ops ops q1). by exists m2, peer2.
Qed.

(** ** Moves of the environment *)

Definition log_published (l : list (ring_op * ring_result)) : list EventData :=
  published (map fst l) (map snd l).
Definition log_acquired (l : list (ring_op * ring_result)) : list EventData :=
  acquired (map snd l).

(** The program at side [s], with handle [self], and the world represent [q]. *)
Definition world_repr {W} (s : side) (w : world W) (self : SpscRing) (q : queue) : Prop :=
  sys_repr (side_sys s (w_ring w) self (w_peer w)) q.

(** What the peer does to the queue between two effects of the program. *)
Record peer_moves (s : side) (q q' : queue) (l : list (ring_op * ring_result)) : Prop := PeerMoves {
  moves_history : q_pending q ++ log_published l = log_acquired l ++ q_pending q';
  moves_config : q_config q' = q_config q;
  moves_consumer : s = ConsumerSide ->
    q_read q' = q_read q /\ q_held q' = q_held q /\ log_acquired l = [] /\
    q_events q' = q_events q ++ log_published l /\
    (q_state q = RingState_Closed -> q_state q' = RingState_Closed /\ log_published l = []);
  moves_producer : s = ProducerSide ->
    log_published l = [] /\ q_state q' = q_state q;
  moves_in_use : in_use q -> in_use q';
  moves_joint : match s with ConsumerSide => joint q l [] q' | ProducerSide => joint q [] l q' end;
}.

(** The world after a step of the environment. *)
Record env_moved {W} (env : environment W) (w w' : world W) (l : list (ring_op * ring_result)) :
    Prop := EnvMoved {
  moved_os : w_os w' = w_os w;
  moved_held : w_held w' = w_held w;
  moved_sent : w_sent w' = w_sent w;
  moved_received : w_received w' = w_received w;
  moved_time : w_time w' = S (w_time w);
  moved_stop : w_stop w' = w_stop w || env_stop env (w_time w);
  moved_log : w_peer_log w' = w_peer_log w ++ l;
}.

Lemma zip_ops ops q :
  map fst (zip ops (spec_ops ops q).1) = ops /\
  map snd (zip ops (spec_ops ops q).1) = (spec_ops ops q).1.
Proof.
  revert q. induction ops as [|op ops IH]; intros q; [done|].
  cbn [spec_ops]. destruct (spec_op op q) as [r q1]. specialize (IH q1).
  destruct (spec_ops ops q1) as [rs q2]. cbn in *. destruct IH as [-> ->]. done.
Qed.

(** One operation of a producer peer, on the events and the state. *)
Lemma spec_producer_events op q :
  producer_op op = true ->
  q_events (spec_op op q).2 = q_events q ++ published [op] [(spec_op op q).1] /\
  (q_state q = RingState_Closed ->
     q_state (spec_op op q).2 = RingState_Closed /\ published [op] [(spec_op op q).1] = []).
Proof.
  destruct op as [ev| | |]; try done; intros _; cbn.
  - unfold spec_publish. case_decide as Hs; cbn; [by rewrite app_nil_r|].
    repeat (case_bool; cbn; [rewrite app_nil_r; split; [done|]; by intros ->|]).
    split; [done|]. intros Hc. exfalso. rewrite Hc in Hs. first [discriminate Hs|by apply Hs].
  - by rewrite app_nil_r.
Qed.

Lemma spec_producer_history ops q :
  forallb producer_op ops = true ->
  let '(rs, q') := spec_ops ops q in
  acquired rs = [] /\ q_events q' = q_events q ++ published ops rs /\
  (q_state q = RingState_Closed -> q_state q' = RingState_Closed /\ published ops rs = []).
Proof.
  revert q. induction ops as [|op ops IH]; intros q Hops; [cbn; by rewrite app_nil_r|].
  simpl in Hops. apply andb_true_iff in Hops as [Hop Hops].
  pose proof (spec_producer_events op q Hop) as [He Hc]. cbn [spec_ops].
  assert (acquired [(spec_op op q).1] = []) as Ha.
  { destruct op as [ev| | |]; try done; cbn. by destruct (spec_publish q ev). }
  destruct (spec_op op q) as [r q1]. specialize (IH q1 Hops).
  destruct (spec_ops ops q1) as [rs q2]. cbn [fst snd] in *. destruct IH as (IHa&IHe&IHc).
  assert (acquired (r :: rs) = []) as Har.
  { destruct r as [?|[]|?|?]; done. }
  assert (published (op :: ops) (r :: rs) = published [op] [r] ++ published ops rs) as Hp.
  { clear. destruct op, r as [[]|[]|?|?]; reflexivity. }
  split; [done|]. rewrite Hp, IHe, He, <- app_assoc. split; [done|].
  intros Hst. destruct (Hc Hst) as [Hst1 ->]. destruct (IHc Hst1) as [Hst2 ->]. done.
Qed.

(** Operations of a consumer peer publish nothing and keep the state. *)
Lemma spec_consumer_history ops q :
  forallb (fun op => negb (producer_op op)) ops = true ->
  let '(rs, q') := spec_ops ops q in
  published ops rs = [] /\ q_state q' = q_state q /\ q_config q' = q_config q.
Proof.
  revert q. induction ops as [|op ops IH]; intros q Hops; [done|].
  simpl in Hops. apply andb_true_iff in Hops as [Hop Hops]. cbn [spec_ops].
  assert (q_state (spec_op op q).2 = q_state q /\ q_config (spec_op op q).2 = q_config q) as [Hs Hc].
  { destruct op as [ev| | |]; try done; cbn.
    - unfold spec_acquire. destruct (q_held q); [done|]. by destruct (q_events q).
    - unfold spec_release. by destruct (q_held q). }
  destruct (spec_op op q) as [r q1]. specialize (IH q1 Hops).
  destruct (spec_ops ops q1) as [rs q2]. cbn [fst snd] in *. destruct IH as (IHp&IHs&IHc).
  split_and!; [|congruence|congruence]. by destruct op.
Qed.

Lemma spec_ops_moves s ops q :
  queue_ok q -> Forall (peer_allowed s) ops ->
  peer_moves s q (spec_ops ops q).2 (zip ops (spec_ops ops q).1).
Proof.
  intros Hok Hops.
  assert (Forall op_ok ops) as Hoks by (eapply Forall_impl; [exact Hops|by intros ? []]).
  pose proof (spec_ops_history ops q Hok Hoks) as Hh.
  pose proof (zip_ops ops q) as [Hz1 Hz2].
  assert (Hprod : s = ConsumerSide -> forallb producer_op ops = true).
  { intros ->. apply forallb_iff_Forall. eapply Forall_impl; [exact Hops|by intros ? []]. }
  assert (Hcons : s = ProducerSide -> forallb (fun op => negb (producer_op op)) ops = true).
  { intros ->. apply forallb_iff_Forall. eapply Forall_impl; [exact Hops|by intros ? [-> _]]. }
  unfold log_published, log_acquired. split; unfold log_published, log_acquired; rewrite ?Hz1, ?Hz2.
  - by destruct (spec_ops ops q).
  - destruct s.
    + apply spec_producer_ops, Hprod. done.
    + pose proof (spec_consumer_history ops q (Hcons eq_refl)). destruct (spec_ops ops q). tauto.
  - intros Hs. pose proof (spec_producer_ops ops q (Hprod Hs)) as (_&Hr&Hhd&_).
    pose proof (spec_producer_history ops q (Hprod Hs)) as H. destruct (spec_ops ops q). tauto.
  - intros Hs. pose proof (spec_consumer_history ops q (Hcons Hs)) as H. destruct (spec_ops ops q). tauto.
  - apply spec_ops_in_use.
  - assert (Hleg : legal q (zip ops (spec_ops ops q).1) (spec_ops ops q).2)
      by (apply legal_spec_ops; rewrite Hz1, Hz2; by destruct (spec_ops ops q)).
    destruct s; (eexists; split; [exact Hleg|]).
    + by apply shares_producer; rewrite Hz1, Hprod.
    + by apply shares_consumer; rewrite Hz1, Hcons.
Qed.

Lemma env_step_moves {W} (env : environment W) s w self q :
  world_repr s w self q -> Forall (peer_allowed s) (env_peer env (w_time w)) ->
  exists w' q' l, env_step env w = Some w' /\ env_moved env w w' l /\
    world_repr s w' self q' /\ peer_moves s q q' l.
Proof.
  intros Hw Hops. unfold env_step.
  destruct (peer_ops_refine s _ _ self _ q Hw Hops) as (m'&peer'&->&Hs').
  cbn [mbind option_bind]. eexists _, _, _. split; [reflexivity|]. split; [by split|].
  split; [exact Hs'|]. apply spec_ops_moves; [|done].
  destruct s; apply Hw.
Qed.

(** ** Progress

    What a stretch of execution leaves in the world: the peer's operations [l], the sends
    [ss] and the answers of [recvmsg] [rs]. *)
Record progress {W} (env : environment W) (w w' : world W) (l : list (ring_op * ring_result))
    (ss : list (list byte * sockaddr_in * sysret)) (rs : list recvret) : Prop := Progress {
  pg_held : w_held w' = w_held w;
  pg_time : (w_time w <= w_time w')%nat;
  pg_stop : w_stop w = true -> w_stop w' = true;
  pg_requests : forall t, (w_time w <= t < w_time w')%nat -> env_stop env t = true ->
                  w_stop w' = true;
  pg_log : w_peer_log w' = w_peer_log w ++ l;
  pg_sent : w_sent w' = w_sent w ++ ss;
  pg_received : w_received w' = w_received w ++ rs;
}.

Lemma progress_refl {W} (env : environment W) (w : world W) : progress env w w [] [] [].
Proof. split; rewrite ?app_nil_r; done || lia. Qed.

Lemma progress_trans {W} (env : environment W) (w1 w2 w3 : world W) l1 l2 s1 s2 r1 r2 :
  progress env w1 w2 l1 s1 r1 -> progress env w2 w3 l2 s2 r2 ->
  progress env w1 w3 (l1 ++ l2) (s1 ++ s2) (r1 ++ r2).
Proof.
  intros [H1 H2 H3 H6 H4 H5 H7] [G1 G2 G3 G6 G4 G5 G7].
  split; [congruence|lia|auto| |rewrite app_assoc; congruence..].
  intros t Ht Hs. destruct (decide (t < w_time w2)%nat); [apply G3, (H6 t); [lia|done]|].
  apply (G6 t); [lia|done].
Qed.

Lemma env_moved_progress {W} (env : environment W) w w' l :
  env_moved env w w' l -> progress env w w' l [] [].
Proof.
  intros [M1 M2 M3 M4 M5 M6 M7].
  split; [done|lia| | |done|by rewrite app_nil_r..].
  - rewrite M6. by intros ->.
  - intros t Ht Hs. rewrite M6. replace t with (w_time w) in Hs by lia. by rewrite Hs, orb_true_r.
Qed.

Lemma log_published_app l1 l2 : log_published (l1 ++ l2) = log_published l1 ++ log_published l2.
Proof.
  unfold log_published. induction l1 as [|[op r] l1 IH]; [done|]. simpl.
  destruct op; try done. destruct r as [[]|?|?|?]; simpl; by rewrite IH.
Qed.

Lemma log_acquired_app l1 l2 : log_acquired (l1 ++ l2) = log_acquired l1 ++ log_acquired l2.
Proof.
  unfold log_acquired. induction l1 as [|[op r] l1 IH]; [done|]. simpl.
  destruct r as [?|[]|?|?]; simpl; by rewrite IH.
Qed.

(** A stop is requested early enough for [fuel] turns. *)
Definition stop_within {W} (env : environment W) (w : world W) (fuel : nat) : Prop :=
  (w_stop w = true /\ (0 < fuel)%nat) \/
  exists t, (w_time w <= t < w_time w + fuel)%nat /\ env_stop env t = true.

Lemma stop_within_next {W} (env : environment W) w w' l ss rs fuel :
  progress env w w' l ss rs -> (w_time w < w_time w')%nat ->
  stop_within env w (S fuel) -> w_stop w || env_stop env (w_time w) = false ->
  stop_within env w' fuel.
Proof.
  intros Hpg Ht [[Hs _]|(t&Ht'&Hs)] Hno; apply orb_false_iff in Hno as [Hno1 Hno2]; [congruence|].
  destruct (decide (t = w_time w)) as [->|]; [congruence|].
  destruct (decide (t < w_time w')%nat).
  - left. split; [apply (pg_requests _ _ _ _ _ _ Hpg t); [lia|done]|lia].
  - right. exists t. split; [lia|done].
Qed.

Section Steps.
Context {W : Type} (env : environment W) (s : side).
Hypothesis Hpeer : forall t, Forall (peer_allowed s) (env_peer env t).

(** One effect: first the environment moves, then the effect happens. *)
Lemma effect_moves {A R} (e : engine R) (f : R -> io engine A) w h q :
  world_repr s w h q ->
  exists w1 q1 l, interp (engine_handler env) (call e ≫= f) w =
      (r ← perform env e w1; interp (engine_handler env) (f r.1) r.2) /\
    progress env w w1 l [] [] /\ w_time w1 = S (w_time w) /\
    w_stop w1 = w_stop w || env_stop env (w_time w) /\
    world_repr s w1 h q1 /\ peer_moves s q q1 l.
Proof.
  intros Hw. destruct (env_step_moves env s w h q Hw (Hpeer _)) as (w1&q1&l&Hstep&Hm&Hw1&Hq).
  exists w1, q1, l. split; [by rewrite interp_effect, Hstep|].
  split_and!; [by apply env_moved_progress|apply Hm|apply Hm|done..].
Qed.

(** A ring program that returns. *)
Lemma perform_ring {A} (p : prog A) w a m :
  run p (w_ring w) = Some (a, m) ->
  perform env (on_ring p) w =
    Some (a, World (w_os w) (w_held w) (w_time w) (w_stop w) m (w_peer w)
                   (w_peer_log w) (w_sent w) (w_received w)).
Proof. intros H. cbn. by rewrite H. Qed.

(** A system call on an open descriptor. *)
Lemma posix_moves {A R} (c : sys R) fd (f : R -> io sys A) w h q :
  world_repr s w h q -> uses_fd c fd -> is_open (w_held w) fd = true ->
  exists r w1 q1 l, interp (engine_handler env) (syscalls (call c ≫= f)) w =
      interp (engine_handler env) (syscalls (f r)) w1 /\
    (exists os, r = (env_os env _ c os).1) /\
    progress env w w1 l (log_sent c r) (log_received c r) /\ w_time w1 = S (w_time w) /\
    w_stop w1 = w_stop w || env_stop env (w_time w) /\
    world_repr s w1 h q1 /\ peer_moves s q q1 l.
Proof.
  intros Hw Hc Ho. destruct (env_step_moves env s w h q Hw (Hpeer _)) as (w1&q1&l&Hstep&Hm&Hw1&Hq).
  rewrite interp_syscalls_call, Hstep. cbn [mbind option_bind perform tracked].
  destruct (env_os env R c (w_os w1)) as [r os'] eqn:Hr. rewrite (moved_held _ _ _ _ Hm), Hc by done.
  cbn [mbind option_bind fst snd]. eexists r, _, q1, l. split; [reflexivity|].
  split; [exists (w_os w1); by rewrite Hr|].
  pose proof (env_moved_progress env w w1 l Hm) as [P1 P2 P3 P4 P5 P6 P7]. destruct Hm.
  rewrite app_nil_r in P6, P7. cbn. split_and!; try done.
  split; cbn; try done; by rewrite ?P6, ?P7.
Qed.
End Steps.
