(* ===== verification/EngineIdle.v ===== *)
(** * Programs that leave the ring and the network alone

    Start-up and shutdown call the operating system, and a consumer's start-up also attaches
    to the ring; they send and receive no datagram and change nothing of the ring. So what
    happens to the queue while they run is what the peer did to it. *)

From S2P Require Import Prelude Bytes Event Memory RingLayout Ring RingSpec RingGeometry.
From S2P Require Import RingRefinement RingSafety RingSystem RingHistory RingInit Posix Udp Segment Config Engine.

(** System calls that carry no datagram. *)
Definition quiet {R} (c : sys R) : Prop := forall r, log_sent c r = [] /\ log_received c r = [].

Inductive quiet_calls {A} : io sys A -> Prop :=
  | quiet_done a : quiet_calls (Done a)
  | quiet_call {R} (c : sys R) k : quiet c -> (forall r, quiet_calls (k r)) -> quiet_calls (Call c k).

Inductive idle {A} : io engine A -> Prop :=
  | idle_done a : idle (Done a)
  | idle_sys {R} (c : sys R) k : quiet c -> (forall r, idle (k r)) -> idle (Call (posix c) k)
  | idle_attach memory k : (forall r, idle (k r)) -> idle (Call (on_ring (attach memory)) k).

Lemma quiet_bind {A B} (p : io sys A) (f : A -> io sys B) :
  quiet_calls p -> (forall a, quiet_calls (f a)) -> quiet_calls (p ≫= f).
Proof. intros Hp Hf. unfold mbind, io_mbind. induction Hp; cbn [io_bind]; [done|by apply quiet_call]. Qed.

Lemma idle_bind {A B} (p : io engine A) (f : A -> io engine B) :
  idle p -> (forall a, idle (f a)) -> idle (p ≫= f).
Proof.
  intros Hp Hf. unfold mbind, io_mbind.
  induction Hp; cbn [io_bind]; [done|by apply idle_sys|by apply idle_attach].
Qed.

Lemma idle_syscalls {A} (p : io sys A) : quiet_calls p -> idle (syscalls p).
Proof. unfold syscalls. induction 1; cbn [lift]; [by apply idle_done|by apply idle_sys]. Qed.

Lemma idle_call_attach memory : idle (call (on_ring (attach memory))).
Proof. apply idle_attach. intros r. apply idle_done. Qed.

Lemma quiet_call_bind {A R} (c : sys R) (f : R -> io sys A) :
  quiet c -> (forall r, quiet_calls (f r)) -> quiet_calls (call c ≫= f).
Proof. by apply quiet_call. Qed.

Create HintDb quiet.

(** Takes a program of system calls apart. *)
Ltac quiet_step :=
  match goal with
  | |- quiet_calls (mret _) => apply quiet_done
  | |- quiet_calls (call _ ≫= _) => apply quiet_call_bind; [by split|intros ?]
  | |- quiet_calls (_ ≫= _) => apply quiet_bind; [|intros ?]
  | |- quiet_calls (if ?b then _ else _) => destruct b
  | |- quiet_calls (let '(_, _) := ?x in _) => destruct x
  | |- quiet_calls (match ?r with Value _ => _ | Unexpected _ => _ end) => destruct r
  | |- quiet_calls _ => progress eauto with quiet
  end.

Lemma quiet_attach_shm name : quiet_calls (attach_shm name).
Proof. unfold attach_shm, close_descriptor. repeat quiet_step. Qed.

Lemma quiet_create_shm name size : quiet_calls (create_shm name size).
Proof. unfold create_shm, clean_up_failed_creation, close_descriptor. repeat quiet_step. Qed.

Lemma quiet_segment_destroy s : quiet_calls (Segment_destroy s).
Proof. unfold Segment_destroy, close_shm, close_unmap, close_file. repeat quiet_step. Qed.

Lemma quiet_unlink s : quiet_calls (unlink s).
Proof. unfold unlink. repeat quiet_step. Qed.

Lemma quiet_sender_open : quiet_calls UdpSender_open.
Proof. unfold UdpSender_open. repeat quiet_step. Qed.

Lemma quiet_sender_destroy u : quiet_calls (UdpSender_destroy u).
Proof. unfold UdpSender_destroy. repeat quiet_step. Qed.

Lemma quiet_receiver_destroy u : quiet_calls (UdpReceiver_destroy u).
Proof. unfold UdpReceiver_destroy. repeat quiet_step. Qed.

Lemma quiet_choose_id bytes fuel : quiet_calls (choose_id bytes fuel).
Proof. induction fuel as [|fuel IH]; [apply quiet_done|]. cbn [choose_id]. repeat (quiet_step || apply IH). Qed.

#[export] Hint Resolve quiet_attach_shm quiet_create_shm quiet_segment_destroy quiet_unlink
  quiet_sender_open quiet_sender_destroy quiet_receiver_destroy quiet_choose_id : quiet.

(** ** What the peer did in several steps *)

Lemma peer_moves_refl s q : peer_moves s q q [].
Proof. split; cbn; rewrite ?app_nil_r; try done. by destruct s; apply joint_refl. Qed.

Lemma peer_moves_trans s q1 q2 q3 l1 l2 :
  peer_moves s q1 q2 l1 -> peer_moves s q2 q3 l2 -> peer_moves s q1 q3 (l1 ++ l2).
Proof.
  intros [H1 C1 S1 P1 U1 J1] [H2 C2 S2 P2 U2 J2].
  split; rewrite ?log_published_app, ?log_acquired_app; [|congruence| | |by auto|].
  - by rewrite app_assoc, H1, <- !app_assoc, H2.
  - intros Hs. destruct (S1 Hs) as (R1&D1&A1&E1&X1), (S2 Hs) as (R2&D2&A2&E2&X2).
    split; [congruence|]. split; [congruence|]. split; [by rewrite A1, A2|].
    split; [by rewrite E2, E1, app_assoc|]. intros Hc. destruct (X1 Hc) as [Hc1 ->]. by apply X2.
  - intros Hs. destruct (P1 Hs) as [L1 T1], (P2 Hs) as [L2 T2]. split; [by rewrite L1, L2|congruence].
  - by destruct s; apply (joint_app _ _ _ _ _ _ _ J1 J2).
Qed.

(** ** Running *)

(** Time has passed, the peer has done [l], and nothing was sent or received. *)
Record idled {W} (w w' : world W) (l : list (ring_op * ring_result)) : Prop := Idled {
  id_stop : w_stop w = true -> w_stop w' = true;
  id_log : w_peer_log w' = w_peer_log w ++ l;
  id_sent : w_sent w' = w_sent w;
  id_received : w_received w' = w_received w;
}.

Lemma idled_trans {W} (w1 w2 w3 : world W) l1 l2 : idled w1 w2 l1 -> idled w2 w3 l2 -> idled w1 w3 (l1 ++ l2).
Proof. intros [S1 L1 T1 R1] [S2 L2 T2 R2]. split; [auto|by rewrite L2, L1, app_assoc|congruence..]. Qed.

Section Run.
Context {W : Type} (env : environment W) (s : side) (h : SpscRing).
Hypothesis Hpeer : forall t, Forall (peer_allowed s) (env_peer env t).
Abbreviation run_io := (interp (engine_handler env)).

(** One effect: the peer moves, then the effect keeps the ring and the logs. *)
Lemma idle_effect {A R} (e : engine R) (k : R -> io engine A) w q a w' :
  world_repr s w h q -> run_io (Call e k) w = Some (a, w') ->
  (forall w1 q1 r w2, world_repr s w1 h q1 -> perform env e w1 = Some (r, w2) ->
     w_ring w2 = w_ring w1 /\ w_peer w2 = w_peer w1 /\ idled w1 w2 []) ->
  exists r w2 q2 l, run_io (k r) w2 = Some (a, w') /\ world_repr s w2 h q2 /\ peer_moves s q q2 l /\
    idled w w2 l.
Proof using Hpeer.
  intros Hw Hrun He. destruct (env_step_moves env s w h q Hw (Hpeer _)) as (w1&q1&l&Hstep&Hm&Hw1&Hq).
  change (Call e k) with (call e ≫= k) in Hrun. rewrite interp_effect, Hstep in Hrun.
  cbn [mbind option_bind] in Hrun.
  destruct (perform env e w1) as [[r w2]|] eqn:Hp; [|done]. cbn [mbind option_bind fst snd] in Hrun.
  destruct (He w1 q1 r w2 Hw1 Hp) as (Hring&Hpr&Hid).
  exists r, w2, q1, l. split; [exact Hrun|]. split; [unfold world_repr; by rewrite Hring, Hpr|]. split; [done|].
  rewrite <- (app_nil_r l). eapply idled_trans; [|exact Hid]. destruct Hm. split; try done.
  intros Hs. by rewrite moved_stop, Hs.
Qed.

Lemma idle_run {A} (p : io engine A) w q a w' :
  idle p -> world_repr s w h q -> run_io p w = Some (a, w') ->
  exists q' l, world_repr s w' h q' /\ peer_moves s q q' l /\ idled w w' l.
Proof using Hpeer.
  intros Hp. revert w q. induction Hp as [x|R c k Hc _ IH|memory k _ IH]; intros w q Hw Hrun.
  - injection Hrun as <- <-. exists q, []. split; [done|]. split; [apply peer_moves_refl|].
    split; [done|by rewrite app_nil_r|done..].
  - destruct (idle_effect (posix c) k w q a w' Hw Hrun) as (r&w2&q2&l&Hrun2&Hw2&Hq2&Hid).
    { intros w1 q1 r w2 _. cbn [perform].
      destruct (tracked (env_os env) R c (w_os w1, w_held w1)) as [[r' [os held]]|]; [|done].
      intros [= <- <-]. destruct (Hc r') as [Hs Hr]. split; [done|]. split; [done|].
      split; [done|..]; cbn; by rewrite ?Hs, ?Hr, ?app_nil_r. }
    destruct (IH r w2 q2 Hw2 Hrun2) as (q3&l3&Hw3&Hq3&Hid3).
    exists q3, (l ++ l3). split; [done|]. split; [by eapply peer_moves_trans|by eapply idled_trans].
  - destruct (idle_effect (on_ring (attach memory)) k w q a w' Hw Hrun) as (r&w2&q2&l&Hrun2&Hw2&Hq2&Hid).
    { intros w1 q1 r w2 Hw1. cbn [perform].
      assert (ring_repr (w_ring w1) q1) as Hm by by destruct s; apply Hw1.
      rewrite (attach_runs memory) by (pose proof (segment_size_bounds _ (repr_valid _ _ Hm)) as [Hb _];
        pose proof (repr_size _ _ Hm); lia). cbn [mbind option_bind]. intros [= <- <-].
      split; [done|]. split; [done|]. split; [done|..]; cbn; by rewrite ?app_nil_r. }
    destruct (IH r w2 q2 Hw2 Hrun2) as (q3&l3&Hw3&Hq3&Hid3).
    exists q3, (l ++ l3). split; [done|]. split; [by eapply peer_moves_trans|by eapply idled_trans].
Qed.
End Run.
