(* ===== verification/EngineWeak.v ===== *)
(** * Engine programs beside a concurrent peer

    [Engine] lets the peer of a program operate between the effects of the program, whole
    operations at a time. Here the peer is a thread of its own: the program and the peer
    access the ring access by access, under release/acquire memory ([Weak]). The two
    refinement theorems say that for a program that keeps to the interface of the ring
    ([consumes], [produces]) this makes no difference: whatever it does beside a concurrent
    peer it also does in [Engine], for some operations of the peer between its effects, and
    these are the first of those with which the concurrent peer succeeded. So what holds in
    every environment of [Engine] holds beside a concurrent peer. *)

From S2P Require Import Prelude Bytes Event Memory RingLayout Ring RingSpec RingGeometry.
From S2P Require Import RingRefinement RingSafety RingSystem RingInit Weak RingWeak RingWeakSpec RingAttach RingHistory.
From S2P Require Import RingConcurrent Posix Engine.

(** The world with another ring and peer. *)
Definition with_ring {W} (w : world W) (m : list byte) (peer : SpscRing) (log : history) : world W :=
  World (w_os w) (w_held w) (w_time w) (w_stop w) m peer log (w_sent w) (w_received w).

(** The environment with other operations of the peer. *)
Definition with_peer {W} (env : environment W) (g : nat -> list ring_op) : environment W :=
  Environment (env_os env) (env_stop env) g.

(** The worlds differ at most in the ring and the peer. *)
Definition locally {W} (w u : world W) : Prop := u = with_ring w (w_ring u) (w_peer u) (w_peer_log u).

Lemma locally_refl {W} (w : world W) : locally w w.
Proof. by destruct w. Qed.

Lemma locally_same {W} (w u : world W) :
  locally w u -> w_stop u = w_stop w /\ w_sent u = w_sent w /\ w_received u = w_received w.
Proof. intros Hu. unfold locally in Hu. by rewrite Hu. Qed.

Section Programs.
Context {W : Type} (env : environment W).

(** ** The accesses of a program

    Effects that are not on the ring happen at once; they act on nothing the peer can see.
    An effect on the ring is a program over the shared memory. *)
Definition local_step (w : world W) : world W :=
  World (w_os w) (w_held w) (S (w_time w)) (w_stop w || env_stop env (w_time w))
        (w_ring w) (w_peer w) (w_peer_log w) (w_sent w) (w_received w).

Definition or_fault {A} (o : option A) : prog A := match o with Some a => Ret a | None => Fault end.

Definition beside {A} (p : prog A) (w : world W) : prog (A * world W) := a ← p; mret (a, w).

Definition effect_accesses {R} (e : engine R) : world W -> prog (R * world W) :=
  match e in engine R return world W -> prog (R * world W) with
  | on_ring p => beside p
  | e => fun w => or_fault (perform env e w)
  end.

Fixpoint accesses {A} (p : io engine A) (w : world W) : prog (A * world W) :=
  match p with
  | Done a => mret (a, w)
  | Call e k => r ← effect_accesses e (local_step w); accesses (k r.1) r.2
  end.

Definition local {R} (e : engine R) : Prop := match e with on_ring _ => False | _ => True end.

Lemma effect_local {R} (e : engine R) w r :
  local e -> perform env e w = Some r -> effect_accesses e w = mret r.
Proof using. intros He Hp. destruct e; try done; cbn [effect_accesses]; by rewrite Hp. Qed.

Lemma perform_with_ring {R} (e : engine R) w m h l :
  local e ->
  perform env e (with_ring w m h l) = r ← perform env e w; Some (r.1, with_ring r.2 m h l).
Proof using.
  destruct e as [|b|ms|B p|R c|]; try done; intros _.
  cbn [perform with_ring w_os w_held].
  by destruct (tracked (env_os env) R c (w_os w, w_held w)) as [[r [os held]]|].
Qed.

Lemma perform_keeps {R} (e : engine R) w r w' :
  perform env e w = Some (r, w') -> w_time w' = w_time w /\ w_peer_log w' = w_peer_log w.
Proof using.
  destruct e as [|b|ms|B p|R c|]; cbn [perform]; try (by intros [= <- <-]); try done.
  - destruct (run p (w_ring w)) as [[a m]|]; [|done]. by intros [= <- <-].
  - destruct (tracked (env_os env) R c (w_os w, w_held w)) as [[r' [os held]]|]; [|done].
    by intros [= <- <-].
Qed.

(** ** The operations of the peer *)

Definition run_with (g : nat -> list ring_op) {A} (p : io engine A) (u : world W) :=
  interp (engine_handler (with_peer env g)) p u.

Lemma run_with_call g {A R} (e : engine R) (k : R -> io engine A) u :
  run_with g (Call e k) u =
    u1 ← env_step (with_peer env g) u; r ← perform env e u1; run_with g (k r.1) r.2.
Proof using.
  unfold run_with. cbn [interp].
  change (engine_handler (with_peer env g) R e u) with (u1 ← env_step (with_peer env g) u; perform env e u1).
  by destruct (env_step (with_peer env g) u).
Qed.

Lemma env_step_agree g1 g2 (u : world W) :
  g1 (w_time u) = g2 (w_time u) -> env_step (with_peer env g1) u = env_step (with_peer env g2) u.
Proof using. intros Hg. unfold env_step. cbn. by rewrite Hg. Qed.

Lemma env_step_time g (u u' : world W) : env_step (with_peer env g) u = Some u' -> w_time u' = S (w_time u).
Proof using.
  unfold env_step. destruct (peer_ops _ _ _) as [[rs [m h]]|]; [|done]. cbn. by intros [= <-].
Qed.

Lemma run_with_agree g1 g2 {A} (p : io engine A) u :
  (forall t, (w_time u <= t)%nat -> g1 t = g2 t) -> run_with g1 p u = run_with g2 p u.
Proof using.
  revert u. induction p as [a|R e k IH]; intros u Hg; [done|].
  rewrite !run_with_call, (env_step_agree g1 g2) by (apply Hg; lia).
  destruct (env_step (with_peer env g2) u) as [u1|] eqn:Hu1; [|done]. cbn [mbind option_bind].
  destruct (perform env e u1) as [[r u2]|] eqn:Hu2; [|done]. cbn [mbind option_bind fst snd].
  apply IH. intros t Ht. apply Hg. apply env_step_time in Hu1. apply perform_keeps in Hu2. lia.
Qed.

Context (s : side).

Definition allowed (g : nat -> list ring_op) : Prop := forall t, Forall (peer_allowed s) (g t).

(** The program runs to its end, whatever the peer does between its effects. *)
Definition defined {A} (p : io engine A) (u : world W) : Prop :=
  forall g, allowed g -> is_Some (run_with g p u).

(** With some operations of the peer, [log] in all, the program gives [a] in [w'], and
    leaves the queue [q]. *)
Definition engine_run {A} (p : io engine A) (u : world W) (a : A) (w' : world W) (log : history)
    (q : queue) : Prop :=
  exists g u' self, allowed g /\ run_with g p u = Some (a, u') /\ locally w' u' /\
    w_peer_log u' = w_peer_log u ++ log /\ world_repr s u' self q.

Lemma allowed_first ops g t :
  Forall (peer_allowed s) ops -> allowed g -> allowed (fun u => if decide (u = t) then ops else g u).
Proof using. intros Hops Hg u. by case_decide. Qed.

(** The peer performs a legal history before an effect. *)
Lemma env_step_legal (w u : world W) self q log q' :
  locally w u -> world_repr s u self q -> legal q log q' -> Forall (peer_allowed s) (map fst log) ->
  exists m1 peer1, sys_repr (side_sys s m1 self peer1) q' /\
    forall g, g (w_time w) = map fst log ->
      env_step (with_peer env g) u = Some (with_ring (local_step w) m1 peer1 (w_peer_log u ++ log)).
Proof using.
  intros Hu Hs Hleg Hops. apply legal_spec_ops in Hleg.
  destruct (peer_ops_refine s (map fst log) (w_ring u) self (w_peer u) q Hs Hops) as (m1&peer1&Hrun&Hs1).
  rewrite Hleg in Hrun, Hs1. exists m1, peer1. split; [done|]. intros g Hg.
  assert (w_time u = w_time w) as Ht by by rewrite Hu.
  unfold env_step. cbn [env_peer with_peer]. rewrite Ht, Hg, Hrun. cbn [mbind option_bind fst].
  rewrite zip_fst_snd, Hu. reflexivity.
Qed.

(** One effect, after operations of the peer. *)
Lemma engine_effect {A R} (e : engine R) (k : R -> io engine A) w u self q log q' :
  locally w u -> world_repr s u self q -> legal q log q' -> Forall (peer_allowed s) (map fst log) ->
  exists m1 peer1, let u1 := with_ring (local_step w) m1 peer1 (w_peer_log u ++ log) in
    sys_repr (side_sys s m1 self peer1) q' /\
    (defined (Call e k) u -> is_Some (perform env e u1)) /\
    forall r u2, perform env e u1 = Some (r, u2) ->
      (defined (Call e k) u -> defined (k r) u2) /\
      forall a w' l qf, engine_run (k r) u2 a w' l qf -> engine_run (Call e k) u a w' (log ++ l) qf.
Proof using.
  intros Hu Hs Hleg Hops.
  destruct (env_step_legal w u self q log q' Hu Hs Hleg Hops) as (m1&peer1&Hs1&Hstep).
  exists m1, peer1. cbv zeta. set (u1 := with_ring _ _ _ _). split; [done|].
  set (next g := fun t => if decide (t = w_time w) then map fst log else g t).
  assert (Hnext : forall g, allowed g -> allowed (next g) /\
    run_with (next g) (Call e k) u = r ← perform env e u1; run_with (next g) (k r.1) r.2).
  { intros g Hg. split; [by apply allowed_first|]. rewrite run_with_call, Hstep; [done|].
    unfold next. by rewrite decide_True. }
  split.
  { intros Hd. destruct (Hnext (fun _ => [])) as [Ha Hr]; [by intros t|].
    specialize (Hd _ Ha). rewrite Hr in Hd. destruct (perform env e u1); [done|by destruct Hd]. }
  intros r u2 Hp. pose proof (perform_keeps _ _ _ _ Hp) as [Ht Hlog].
  assert (Hrest : forall g, allowed g ->
    run_with (next g) (Call e k) u = run_with g (k r) u2).
  { intros g Hg. rewrite (proj2 (Hnext g Hg)), Hp. cbn [mbind option_bind fst snd].
    apply run_with_agree. intros t Hle. unfold next. rewrite decide_False; [done|].
    unfold u1 in Ht. cbn in Ht. lia. }
  split.
  - intros Hd g Hg. rewrite <- Hrest by done. apply Hd, Hnext, Hg.
  - intros a w' l qf (g&u'&self'&Hg&Hrun&Hw'&Hl&Hq). exists (next g), u', self'. split; [by apply Hnext|].
    rewrite Hrest by done. split; [done|]. split; [done|]. split; [|done].
    rewrite Hl, Hlog. unfold u1. cbn. by rewrite app_assoc.
Qed.

(** An effect that is not on the ring: the peer does nothing. *)
Lemma engine_local {A R} (e : engine R) (k : R -> io engine A) w u self q :
  local e -> locally w u -> world_repr s u self q -> defined (Call e k) u ->
  exists r w2 u2, effect_accesses e (local_step w) = Ret (r, w2) /\ locally w2 u2 /\
    world_repr s u2 self q /\ defined (k r) u2 /\
    forall a w' l qf, engine_run (k r) u2 a w' l qf -> engine_run (Call e k) u a w' l qf.
Proof using.
  intros He Hu Hs Hd.
  destruct (engine_effect e k w u self q [] q Hu Hs (legal_nil q) (Forall_nil_2 _)) as (m1&peer1&Hs1&Hp&Hn).
  destruct (Hp Hd) as [[r u2] Hr]. destruct (Hn r u2 Hr) as [Hd2 Hrun].
  rewrite perform_with_ring in Hr by done.
  destruct (perform env e (local_step w)) as [[r' w2]|] eqn:Hw2; [|done].
  cbn in Hr. injection Hr as <- <-. exists r', w2, (with_ring w2 m1 peer1 (w_peer_log u ++ [])).
  split; [by apply effect_local|]. split; [done|]. split; [by destruct s|]. split; [by apply Hd2|done].
Qed.

Lemma undefined_not_defined {A R} (k : R -> io engine A) w u self q :
  locally w u -> world_repr s u self q -> ~ defined (Call undefined k) u.
Proof using.
  intros Hu Hs Hd.
  destruct (engine_effect undefined k w u self q [] q Hu Hs (legal_nil q) (Forall_nil_2 _)) as (m1&peer1&_&Hp&_).
  by destruct (Hp Hd).
Qed.

(** An effect on the ring, after operations of the peer. *)
Lemma engine_ring {A B} (p : prog B) (k : B -> io engine A) w u self q log q' :
  locally w u -> world_repr s u self q -> legal q log q' -> Forall (peer_allowed s) (map fst log) ->
  exists m1 peer1, sys_repr (side_sys s m1 self peer1) q' /\
    forall a m2, run p m1 = Some (a, m2) ->
      let u2 := with_ring (local_step w) m2 peer1 (w_peer_log u ++ log) in
      locally (local_step w) u2 /\ (defined (Call (on_ring p) k) u -> defined (k a) u2) /\
      forall b w' l qf, engine_run (k a) u2 b w' l qf -> engine_run (Call (on_ring p) k) u b w' (log ++ l) qf.
Proof using.
  intros Hu Hs Hleg Hops.
  destruct (engine_effect (on_ring p) k w u self q log q' Hu Hs Hleg Hops) as (m1&peer1&Hs1&_&Hn).
  exists m1, peer1. split; [done|]. intros a m2 Hrun. cbv zeta. split; [done|].
  apply Hn. cbn [perform]. change (w_ring (with_ring (local_step w) m1 peer1 (w_peer_log u ++ log))) with m1.
  by rewrite Hrun.
Qed.
End Programs.

(** ** Programs that keep to the interface of the ring

    [consumes Q h v p]: [p] is the only user of the consumer's handle, [h] at the start,
    and reads a view only while it holds it, [v] at the start; [Q] is what holds of the
    result, the handle and the view at the end. A program that attaches first has that
    handle, as [attach] will construct it, from the start, and leaves it unused until then. *)
Inductive consumes {A} (Q : A -> SpscRing -> option (EventView span) -> Prop) :
    SpscRing -> option (EventView span) -> io engine A -> Prop :=
  | consumes_done h v a : Q a h v -> consumes Q h v (Done a)
  | consumes_local h v {R} (e : engine R) k :
      local e -> (forall r, consumes Q h v (k r)) -> consumes Q h v (Call e k)
  | consumes_undefined h v {R} (k : R -> io engine A) : consumes Q h v (Call undefined k)
  | consumes_acquire h v k :
      (forall r h', consumes Q h' (match r with Value view => Some view | Unexpected _ => v end) (k (r, h'))) ->
      consumes Q h v (Call (on_ring (try_acquire h)) k)
  | consumes_read h view k :
      (forall ev, consumes Q h (Some view) (k ev)) ->
      consumes Q h (Some view) (Call (on_ring (view_bytes view)) k)
  | consumes_release h v k :
      (forall b h', consumes Q h' None (k (b, h'))) -> consumes Q h v (Call (on_ring (release h)) k)
  | consumes_attach h v c memory k :
      h = construct_handle c false -> (forall e, consumes Q h v (k (Unexpected e))) ->
      consumes Q h v (k (Value h)) -> consumes Q h v (Call (on_ring (attach memory)) k).

(** [produces Q h p]: [p] is the only user of the producer's handle, and only publishes
    events of their types. *)
Inductive produces {A} (Q : A -> SpscRing -> Prop) : SpscRing -> io engine A -> Prop :=
  | produces_done h a : Q a h -> produces Q h (Done a)
  | produces_local h {R} (e : engine R) k :
      local e -> (forall r, produces Q h (k r)) -> produces Q h (Call e k)
  | produces_undefined h {R} (k : R -> io engine A) : produces Q h (Call undefined k)
  | produces_publish h ev k :
      event_ok ev -> (forall r h', produces Q h' (k (r, h'))) ->
      produces Q h (Call (on_ring (try_publish h ev)) k)
  | produces_close h k :
      (forall b, produces Q h (k b)) -> produces Q h (Call (on_ring (close_publication h)) k).

Lemma consumes_bind {A B} (p : io engine A) (f : A -> io engine B) Q h v :
  consumes (fun a h v => consumes Q h v (f a)) h v p -> consumes Q h v (p ≫= f).
Proof.
  unfold mbind, io_mbind. induction 1; cbn [io_bind]; [done|..]; solve [econstructor; eauto].
Qed.

Lemma produces_bind {A B} (p : io engine A) (f : A -> io engine B) Q h :
  produces (fun a h => produces Q h (f a)) h p -> produces Q h (p ≫= f).
Proof.
  unfold mbind, io_mbind. induction 1; cbn [io_bind]; [done|..]; by constructor.
Qed.

Lemma consumes_mono {A} (Q Q' : A -> _ -> _ -> Prop) h v p :
  (forall a h v, Q a h v -> Q' a h v) -> consumes Q h v p -> consumes Q' h v p.
Proof. intros HQ. induction 1; solve [econstructor; eauto]. Qed.

Lemma produces_mono {A} (Q Q' : A -> _ -> Prop) h p :
  (forall a h, Q a h -> Q' a h) -> produces Q h p -> produces Q' h p.
Proof. intros HQ. induction 1; by constructor; auto. Qed.

(** Programs that begin with an effect. *)
Lemma consumes_call {A R} (e : engine R) (f : R -> io engine A) Q h v :
  local e -> (forall r, consumes Q h v (f r)) -> consumes Q h v (call e ≫= f).
Proof. by apply consumes_local. Qed.

Lemma produces_call {A R} (e : engine R) (f : R -> io engine A) Q h :
  local e -> (forall r, produces Q h (f r)) -> produces Q h (call e ≫= f).
Proof. by apply produces_local. Qed.

(** System calls are local. *)
Lemma consumes_syscalls {A} (p : io sys A) Q h v : (forall a, Q a h v) -> consumes Q h v (syscalls p).
Proof. intros HQ. unfold syscalls. induction p as [a|R e k IH]; cbn [lift]; by constructor. Qed.

Lemma produces_syscalls {A} (p : io sys A) Q h : (forall a, Q a h) -> produces Q h (syscalls p).
Proof. intros HQ. unfold syscalls. induction p as [a|R e k IH]; cbn [lift]; by constructor. Qed.

(** ** Refinement *)

Section Refinement.
Context {W : Type} (env : environment W).
Context (c : RingConfig) (Hc : valid_config c) (base : Z).

Abbreviation consumer_knows := (consumer_knows c base).
Abbreviation producer_knows := (producer_knows c base).
Abbreviation consumer_queue := (consumer_queue c base).
Abbreviation producer_queue := (producer_queue c base).

(** An effect on the ring is its program, then the rest. *)
Lemma safe_consumer_ring {A B} (p : prog B) (k : B -> io engine A) w kc Q :
  safe_consumer c base p kc (fun a kc => safe_consumer c base (accesses env (k a) (local_step env w)) kc Q) ->
  safe_consumer c base (accesses env (Call (on_ring p) k) w) kc Q.
Proof using.
  intros Hp. cbn [accesses effect_accesses]. apply safe_consumer_bind, safe_consumer_bind. exact Hp.
Qed.

Lemma safe_producer_ring {A B} (p : prog B) (k : B -> io engine A) w kp Q :
  safe_producer c base p kp (fun a kp => safe_producer c base (accesses env (k a) (local_step env w)) kp Q) ->
  safe_producer c base (accesses env (Call (on_ring p) k) w) kp Q.
Proof using.
  intros Hp. cbn [accesses effect_accesses]. apply safe_producer_bind, safe_producer_bind. exact Hp.
Qed.

(** *** The program is the consumer *)

(** The view is that of the event at the head, which is held. *)
Definition holds_view (v : option (EventView span)) (k : cknow) (h : SpscRing) : Prop :=
  forall view, v = Some view -> acquired_ h = true /\
    exists ev, ck_read k < ck_write base k /\ head_event base k ev /\ fits c ev /\
      view = slot_view c (ck_read k) ev.

Lemma learned_allowed n k k' log :
  learned n k k' log -> Forall (fits c) (ck_events k') -> Forall (peer_allowed ConsumerSide) (map fst log).
Proof using.
  intros (evs&Hev&_&->) Hf. rewrite Hev in Hf. apply Forall_app in Hf as [_ Hf].
  rewrite map_app. apply Forall_app. split.
  - unfold publications. rewrite map_map. apply Forall_map. eapply Forall_impl; [exact Hf|]. by intros ev [? _].
  - unfold closing, closures. destruct (_ && _); [|constructor]. apply Forall_map.
    apply Forall_replicate. by split.
Qed.

(** What the program did up to the end, as [Engine] can. *)
Definition consumer_did {A} (p : io engine A) (u : world W) (k : cknow) (a : A * world W) (k' : cknow) : Prop :=
  exists log h', engine_run env ConsumerSide p u a.1 a.2 log (consumer_queue k' h') /\ learned 1 k k' log.

(** The header it may read is that of a ring in use. *)
Definition header_known (k : cknow) : Prop :=
  exists m q, ring_repr m q /\ in_use q /\ q_config q = c /\ load_bytes m 0 192 = Some (ck_header k).

(** What is known between two effects. *)
Record consumer_at (h : SpscRing) (v : option (EventView span)) (k : cknow) (w u : world W) : Prop :=
  ConsumerAt {
    ca_local : locally w u;
    ca_header : header_known k;
    ca_knows : consumer_knows k h;
    ca_repr : world_repr ConsumerSide u h (consumer_queue k h);
    ca_view : holds_view v k h;
  }.

Lemma consumer_did_then {A B} (p : prog B) (f : B -> io engine A) b u u2 k k1 log a k' :
  (forall a w' l qf, engine_run env ConsumerSide (f b) u2 a w' l qf ->
     engine_run env ConsumerSide (Call (on_ring p) f) u a w' (log ++ l) qf) ->
  learned 1 k k1 log -> consumer_did (f b) u2 k1 a k' -> consumer_did (Call (on_ring p) f) u k a k'.
Proof using.
  intros Hrun Hl (l&h'&Hr&Hl2). exists (log ++ l), h'. split; [by apply Hrun|by eapply learned_app].
Qed.

Lemma header_learned k k' : learns c base k k' -> header_known k -> header_known k'.
Proof using. intros Hl (m&q&Hm&Huse&Hq&Hh). exists m, q. by rewrite (ln_header _ _ _ _ Hl). Qed.

(** Attaching: the same as alone, after the operations of the producer it learned of. *)
Lemma consumer_attaches {A} (f : _ -> io engine A) c' memory h v k w u k' :
  h = construct_handle c' false ->
  consumer_at h v k w u -> defined env ConsumerSide (Call (on_ring (attach memory)) f) u ->
  learns c base k k' ->
  let r := attach_result c memory in
  (forall h', r = Value h' -> h' = h) /\
  exists u2, consumer_at h v k' (local_step env w) u2 /\ defined env ConsumerSide (f r) u2 /\
    forall a k'', consumer_did (f r) u2 k' a k'' ->
      consumer_did (Call (on_ring (attach memory)) f) u k a k''.
Proof using Hc.
  intros Hh [Hu Hhd Hk Hrepr Hv] Hd Hl r. pose proof (consumer_learns_same _ _ _ _ _ Hk Hl) as Hk'. split.
  { intros h'. unfold r, attach_result. destruct (invalid_memory memory); [done|].
    destruct (mem_size memory =? segment_size c); [|done]. intros [= <-].
    destruct (cn_handle _ _ _ _ Hk) as [_ _ Hn _ Hcap]. rewrite Hh in Hn, Hcap |- *. cbn in Hn, Hcap.
    by destruct c, c'; cbn in *; subst. }
  destruct (learns_legal c base 1 k k' h Nat.lt_0_1 Hk Hl) as (log&Hlog&Hleg).
  destruct (engine_ring env ConsumerSide (attach memory) f w u h _ log _ Hu Hrepr Hleg
    (learned_allowed _ _ _ _ Hlog (cn_fits _ _ _ _ Hk'))) as (m1&peer1&Hs1&Hnext).
  destruct (Hnext r m1) as (Hu2&Hd2&Hdid).
  { apply (attach_any memory m1 (consumer_queue k' h)); [apply Hs1|]. unfold in_use. cbn.
    destruct (ck_closed k'); auto. }
  eexists. split; [split; [exact Hu2|by eapply header_learned|done|exact Hs1|]|].
  - intros view ->. destruct (Hv view eq_refl) as [Hac _]. by rewrite Hh in Hac.
  - split; [by apply Hd2|]. intros a k''. by eapply consumer_did_then.
Qed.

(** Acquiring: the same as alone, after the operations of the producer it learned of. *)
Lemma consumer_acquires {A} (f : _ -> io engine A) h v k w u k' h' r :
  consumer_at h v k w u -> defined env ConsumerSide (Call (on_ring (try_acquire h)) f) u ->
  consumer_knows k' h' -> learns c base k k' ->
  spec_acquire (consumer_queue k' h) = (r, consumer_queue k' h') ->
  h' = acquire_handle (consumer_queue k' h) h ->
  let r := expected_map (slot_view c (ck_read k')) r in
  exists u2, consumer_at h' (match r with Value view => Some view | Unexpected _ => v end) k' (local_step env w) u2 /\
    defined env ConsumerSide (f (r, h')) u2 /\
    forall a k'', consumer_did (f (r, h')) u2 k' a k'' ->
      consumer_did (Call (on_ring (try_acquire h)) f) u k a k''.
Proof using.
  intros [Hu Hhd Hk Hrepr Hv] Hd Hk' Hl Hspec Hh'. cbv zeta.
  destruct (learns_legal c base 1 k k' h Nat.lt_0_1 Hk Hl) as (log&Hlog&Hleg).
  destruct (engine_ring env ConsumerSide (try_acquire h) f w u h _ log _ Hu Hrepr Hleg
    (learned_allowed _ _ _ _ Hlog (cn_fits _ _ _ _ Hk'))) as (m1&peer1&Hs1&Hnext).
  destruct (try_acquire_runs m1 _ h (sys_segment _ _ Hs1) (sys_consumer_ok _ _ Hs1)) as (Hrun&Hm&Hco).
  unfold acquire_result in Hrun. rewrite Hspec, <- Hh' in *. cbn [fst snd] in *.
  destruct (Hnext _ _ Hrun) as (Hu2&Hd2&Hdid).
  eexists. split; [split; [exact Hu2|by eapply header_learned|done| |]|].
  - pose proof (producer_ok_acquire _ _ (sys_producer_ok _ _ Hs1)) as Hp. rewrite Hspec in Hp.
    split; [done|done|done|apply Hs1].
  - destruct r as [ev|e]; cbn [expected_map].
    + intros view [= <-]. destruct (acquired_head c base k' h ev _ (consumer_learns_same _ _ _ _ _ Hk Hl) Hspec)
        as (?&?&?&?). split; [done|by exists ev].
    + intros view ->. destruct (Hv view eq_refl) as (Hac&ev&Hlt&Hev&Hf&->).
      assert (h' = h) as ->. { rewrite Hh'. unfold acquire_handle. cbn. by rewrite Hac. }
      split; [done|]. exists ev. destruct Hl as [Hr [evs He] _ _ _ _ _]. unfold ck_write, head_event in *.
      rewrite He, Hr, length_app. split; [lia|]. split; [by apply lookup_app_l_Some|done].
  - split; [by apply Hd2|]. intros a k''. by eapply consumer_did_then.
Qed.

(** Reading the view it holds. *)
Lemma consumer_reads {A} (f : _ -> io engine A) h view k w u :
  consumer_at h (Some view) k w u -> defined env ConsumerSide (Call (on_ring (view_bytes view)) f) u ->
  exists ev u2, view = slot_view c (ck_read k) ev /\ ck_read k < ck_write base k /\
    head_event base k ev /\ fits c ev /\ consumer_at h (Some view) k (local_step env w) u2 /\
    defined env ConsumerSide (f ev) u2 /\
    forall a k'', consumer_did (f ev) u2 k a k'' ->
      consumer_did (Call (on_ring (view_bytes view)) f) u k a k''.
Proof using.
  intros [Hu Hhd Hk Hrepr Hv] Hd. destruct (Hv view eq_refl) as (Hac&ev&Hlt&Hev&Hf&->).
  destruct (engine_ring env ConsumerSide (view_bytes (slot_view c (ck_read k) ev)) f w u h _ [] _ Hu Hrepr
    (legal_nil _) (Forall_nil_2 _)) as (m1&peer1&Hs1&Hnext).
  pose proof (head_view_bytes m1 _ ev _ (sys_segment _ _ Hs1) (consumer_queue_head base k ev Hev)) as Hb.
  destruct (Hnext ev m1) as (Hu2&Hd2&Hdid).
  { by apply run_view_bytes. }
  exists ev. eexists. do 4 (split; [done|]). split; [split; [exact Hu2|done|done|exact Hs1|done]|].
  split; [by apply Hd2|]. intros a k''. by apply (consumer_did_then _ _ _ _ _ _ _ []), learned_nothing.
Qed.

(** Releasing. *)
Lemma consumer_releases {A} (f : _ -> io engine A) h v k w u k' h' r :
  consumer_at h v k w u -> defined env ConsumerSide (Call (on_ring (release h)) f) u ->
  consumer_knows k' h' -> ck_events k' = ck_events k -> ck_closed k' = ck_closed k ->
  ck_header k' = ck_header k ->
  spec_release (consumer_queue k h) = (r, consumer_queue k' h') -> h' = release_handle h ->
  exists u2, consumer_at h' None k' (local_step env w) u2 /\ defined env ConsumerSide (f (r, h')) u2 /\
    forall a k'', consumer_did (f (r, h')) u2 k' a k'' ->
      consumer_did (Call (on_ring (release h)) f) u k a k''.
Proof using.
  intros [Hu Hhd Hk Hrepr Hv] Hd Hk' He Hcl Hhdr Hspec Hh'.
  destruct (engine_ring env ConsumerSide (release h) f w u h _ [] _ Hu Hrepr
    (legal_nil _) (Forall_nil_2 _)) as (m1&peer1&Hs1&Hnext).
  destruct (release_runs m1 _ h (sys_segment _ _ Hs1) (sys_consumer_ok _ _ Hs1)) as (m2&Hrun&Hm&Hco).
  rewrite Hspec, <- Hh' in *. cbn [fst snd] in *.
  destruct (Hnext _ _ Hrun) as (Hu2&Hd2&Hdid). eexists.
  split; [split; [exact Hu2|unfold header_known; by rewrite Hhdr|done| |done]|].
  - pose proof (producer_ok_release _ _ (sys_producer_ok _ _ Hs1)) as Hp. rewrite Hspec in Hp.
    split; [done|done|done|apply Hs1].
  - split; [by apply Hd2|]. intros a k''. by apply (consumer_did_then _ _ _ _ _ _ _ []), learned_nothing.
Qed.

Theorem consumer_refines {A} Q (p : io engine A) h v k w u :
  consumes Q h v p -> consumer_at h v k w u -> defined env ConsumerSide p u ->
  safe_consumer c base (accesses env p w) k (consumer_did p u k).
Proof using Hc.
  intros Hp. revert k w u. induction Hp as [h v a _|h v R e f He _ IH|h v R f|h v f _ IH|h view f _ IH|h v f _ IH|
    h v c' memory f Hh _ IHe _ IHv];
    intros k w u Hat Hd.
  - exists [], h. split; [|by apply learned_nothing]. exists (fun _ => []), u, h.
    split; [by intros t|]. split; [done|]. split; [apply Hat|]. split; [by rewrite app_nil_r|apply Hat].
  - pose proof Hat as [Hu Hhd Hk Hrepr Hv].
    destruct (engine_local env ConsumerSide e f w u h _ He Hu Hrepr Hd) as (r&w2&u2&Hr&Hu2&Hrepr2&Hd2&Hrun).
    cbn [accesses]. rewrite Hr. cbn [mbind prog_mbind prog_bind].
    eapply safe_consumer_mono; [|by apply (IH r k w2 u2)].
    intros a k' (log&h'&Hlog&Hl). exists log, h'. split; [by apply Hrun|done].
  - destruct Hat as [Hu _ _ Hrepr _]. by destruct (undefined_not_defined env _ f w u h _ Hu Hrepr).
  - apply safe_consumer_ring, safe_try_acquire; [exact Hc|apply Hat|]. intros k' h' r Hk' Hl Hspec Hh'.
    destruct (consumer_acquires f h v k w u k' h' r Hat Hd Hk' Hl Hspec Hh') as (u2&Hat2&Hd2&Hdid).
    eapply safe_consumer_mono; [exact Hdid|by apply IH].
  - destruct (consumer_reads f h view k w u Hat Hd) as (ev&u2&->&Hlt&Hev&Hf&Hat2&Hd2&Hdid).
    apply safe_consumer_ring, safe_view_bytes; try done.
    eapply safe_consumer_mono; [exact Hdid|by apply IH].
  - apply safe_consumer_ring, safe_release; [apply Hat|]. intros k' h' r Hk' He Hcl Hhdr Hspec Hh'.
    destruct (consumer_releases f h v k w u k' h' r Hat Hd Hk' He Hcl Hhdr Hspec Hh') as (u2&Hat2&Hd2&Hdid).
    eapply safe_consumer_mono; [exact Hdid|by apply IH].
  - destruct (ca_header _ _ _ _ _ Hat) as (m&q&Hm&Huse&Hq&Hhdr).
    apply safe_consumer_ring, (safe_attach_any c base memory m q); [done..| |].
    { eapply learns_refl, Hat. }
    rewrite Hq. intros k' Hl.
    destruct (consumer_attaches f c' memory h v k w u k' Hh Hat Hd Hl) as (Hr&u2&Hat2&Hd2&Hdid).
    eapply safe_consumer_mono; [exact Hdid|].
    destruct (attach_result c memory) as [h'|e]; [rewrite (Hr h' eq_refl) in *|]; by eauto.
Qed.

(** *** The program is the producer *)

Context (held : bool).   (** whether the consumer held a view at the start *)

Lemma by_producer_nil log :
  by_producer log = [] ->
  by_consumer log = log /\ Forall (peer_allowed ProducerSide) (map fst log) /\ published_in log = [] /\
  Forall op_ok (map fst log).
Proof using.
  unfold by_producer, by_consumer. induction log as [|[op r] log IH]; [done|].
  cbn [List.filter map fst]. destruct (producer_op op) eqn:Hop; [done|]. cbn [negb].
  intros Hl. destruct (IH Hl) as (Hc'&Ha&Hpub&Hok).
  rewrite Hc', published_in_cons, Hpub, app_nil_r. split; [done|]. split; [constructor; [|done]; split; [done|by destruct op]|].
  split; [by destruct op|]. constructor; [by destruct op|done].
Qed.

(** What the program did up to the end, as [Engine] can: [log] has its operations and
    those of the consumer it learned of. *)
Record producer_log (k : pknow) (log : history) (k' : pknow) : Prop := ProducerLog {
  pl_legal : legal (producer_queue held k) log (producer_queue held k');
  pl_ok : Forall op_ok (map fst log);
  pl_learned : successes (by_consumer log) = by_consumer log;
  pl_events : pk_events k' = pk_events k ++ published_in log;
}.

Lemma producer_log_nil k : producer_log k [] k.
Proof using. split; [constructor|constructor|done|by rewrite app_nil_r]. Qed.

Lemma producer_log_app k k1 k2 l1 l2 :
  producer_log k l1 k1 -> producer_log k1 l2 k2 -> producer_log k (l1 ++ l2) k2.
Proof using.
  intros [L1 O1 S1 E1] [L2 O2 S2 E2]. split.
  - by eapply legal_app.
  - rewrite map_app. by apply Forall_app.
  - unfold successes in *. by rewrite by_consumer_app, List.filter_app, S1, S2.
  - by rewrite E2, E1, published_in_app, app_assoc.
Qed.

Definition producer_did {A} (p : io engine A) (u : world W) (k : pknow) (a : A * world W) (k' : pknow) : Prop :=
  exists log h', engine_run env ProducerSide p u a.1 a.2 (by_consumer log) (producer_queue held k') /\
    producer_log k log k' /\
    producer_knows k' h'.

Record producer_at (h : SpscRing) (k : pknow) (w u : world W) : Prop := ProducerAt {
  pa_local : locally w u;
  pa_knows : producer_knows k h;
  pa_repr : world_repr ProducerSide u h (producer_queue held k);
}.

Lemma producer_did_then {A B} (p : prog B) (f : B -> io engine A) b u u2 k k1 log a k' :
  (forall a w' l qf, engine_run env ProducerSide (f b) u2 a w' l qf ->
     engine_run env ProducerSide (Call (on_ring p) f) u a w' (by_consumer log ++ l) qf) ->
  producer_log k log k1 -> producer_did (f b) u2 k1 a k' -> producer_did (Call (on_ring p) f) u k a k'.
Proof using.
  intros Hrun Hl (l&h'&Hr&Hl2&Hk'). exists (log ++ l), h'. rewrite by_consumer_app.
  split; [by apply Hrun|]. split; [by eapply producer_log_app|done].
Qed.

(** Publishing: the same as alone, after the operations of the consumer it learned of. *)
Lemma producer_publishes {A} (f : _ -> io engine A) h ev k w u k' h' r :
  producer_at h k w u -> defined env ProducerSide (Call (on_ring (try_publish h ev)) f) u -> event_ok ev ->
  producer_knows k' h' -> pk_read k <= pk_read k' <= pk_write base k ->
  pk_events k' = pk_events k ++ (if decide (r = PublishResult_Ok) then [ev] else []) ->
  spec_publish (producer_queue held (set_pk_read k (pk_read k'))) ev = (r, producer_queue held k') ->
  h' = publish_handle (producer_queue held (set_pk_read k (pk_read k'))) h ev ->
  exists u2, producer_at h' k' (local_step env w) u2 /\ defined env ProducerSide (f (r, h')) u2 /\
    forall a k'', producer_did (f (r, h')) u2 k' a k'' ->
      producer_did (Call (on_ring (try_publish h ev)) f) u k a k''.
Proof using Hc.
  intros [Hu Hk Hrepr] Hd Hev Hk' Hread Hevents Hspec Hh'.
  destruct (releases_legal c base held k h (pk_read k') Hk Hread) as (log&Hleg&Hbp&Hsuc).
  destruct (by_producer_nil log Hbp) as (Hbc&Hallow&Hpub&Hok).
  destruct (engine_ring env ProducerSide (try_publish h ev) f w u h _ log _ Hu Hrepr Hleg Hallow)
    as (m1&peer1&Hs1&Hnext).
  destruct (try_publish_runs m1 _ h ev (sys_segment _ _ Hs1) (sys_producer_ok _ _ Hs1) Hev)
    as (m2&Hrun&Hm&Hpo).
  pose proof (consumer_ok_publish _ ev peer1 (sys_consumer_ok _ _ Hs1)) as Hco.
  rewrite Hspec, <- Hh' in *. cbn [fst snd] in *.
  destruct (Hnext _ _ Hrun) as (Hu2&Hd2&Hdid). eexists. split; [split; [exact Hu2|done|]|].
  - split; [done|done|done|apply Hk'].
  - split; [by apply Hd2|]. intros a k''.
    apply (producer_did_then _ _ _ _ _ _ _ (log ++ [(OpPublish ev, ResPublish r)])).
    + rewrite by_consumer_app, Hbc. cbn. by rewrite app_nil_r.
    + split.
      * eapply legal_app; [exact Hleg|]. apply legal_one. cbn [spec_op]. by rewrite Hspec.
      * rewrite map_app. apply Forall_app. split; [done|]. by apply Forall_singleton.
      * rewrite by_consumer_app, Hbc. cbn. rewrite app_nil_r. by rewrite Hbc in Hsuc.
      * rewrite published_in_app, Hpub, Hevents. by destruct r.
Qed.

(** Closing. *)
Lemma producer_closes {A} (f : _ -> io engine A) h k w u :
  producer_at h k w u -> defined env ProducerSide (Call (on_ring (close_publication h)) f) u ->
  producer_knows (close k) h ->
  exists u2, producer_at h (close k) (local_step env w) u2 /\ defined env ProducerSide (f true) u2 /\
    forall a k'', producer_did (f true) u2 (close k) a k'' ->
      producer_did (Call (on_ring (close_publication h)) f) u k a k''.
Proof using.
  intros [Hu Hk Hrepr] Hd Hk'.
  destruct (engine_ring env ProducerSide (close_publication h) f w u h _ [] _ Hu Hrepr
    (legal_nil _) (Forall_nil_2 _)) as (m1&peer1&Hs1&Hnext).
  destruct (close_refines m1 _ h (sys_segment _ _ Hs1) (prod_handle _ _ (sys_producer_ok _ _ Hs1))
    (pn_creator _ _ _ _ Hk)) as (m2&Hrun&Hm).
  destruct (Hnext _ _ Hrun) as (Hu2&Hd2&Hdid). eexists. split; [split; [exact Hu2|done|]|].
  - destruct (sys_producer_ok _ _ Hs1), (sys_consumer_ok _ _ Hs1). split; [done|by split|by split|apply Hk'].
  - split; [by apply Hd2|]. intros a k''.
    apply (producer_did_then _ _ _ _ _ _ _ [(OpClose, ResClose true)]); [done|].
    split; [by apply legal_one|by apply Forall_singleton|done|by rewrite app_nil_r].
Qed.

Theorem producer_refines {A} Q (p : io engine A) h k w u :
  produces Q h p -> producer_at h k w u -> defined env ProducerSide p u ->
  safe_producer c base (accesses env p w) k (producer_did p u k).
Proof using Hc.
  intros Hp. revert k w u. induction Hp as [h a _|h R e f He _ IH|h R f|h ev f Hev _ IH|h f _ IH]; intros k w u Hat Hd.
  - exists [], h. split; [|split; [apply producer_log_nil|apply Hat]]. exists (fun _ => []), u, h.
    split; [by intros t|]. split; [done|]. split; [apply Hat|]. split; [by rewrite app_nil_r|apply Hat].
  - pose proof Hat as [Hu Hk Hrepr].
    destruct (engine_local env ProducerSide e f w u h _ He Hu Hrepr Hd) as (r&w2&u2&Hr&Hu2&Hrepr2&Hd2&Hrun).
    cbn [accesses]. rewrite Hr. cbn [mbind prog_mbind prog_bind].
    eapply safe_producer_mono; [|by apply (IH r k w2 u2)].
    intros a k' (log&h'&Hlog&Hl). exists log, h'. split; [by apply Hrun|done].
  - destruct Hat as [Hu _ Hrepr]. by destruct (undefined_not_defined env _ f w u h _ Hu Hrepr).
  - apply safe_producer_ring, (safe_try_publish c Hc base held); [apply Hat|done|].
    intros k' h' r Hk' Hr He Hspec Hh'.
    destruct (producer_publishes f h ev k w u k' h' r Hat Hd Hev Hk' Hr He Hspec Hh') as (u2&Hat2&Hd2&Hdid).
    eapply safe_producer_mono; [exact Hdid|by apply IH].
  - apply safe_producer_ring, (safe_close c base held); [apply Hat|]. intros Hk' _.
    destruct (producer_closes f h k w u Hat Hd Hk') as (u2&Hat2&Hd2&Hdid).
    eapply safe_producer_mono; [exact Hdid|by apply IH].
Qed.
End Refinement.

(** What a producer stored, from what its consumer acquired and left. *)
Lemma legal_stored {W} (u : world W) h1 h2 q q1 q2 log evs :
  queue_ok q -> legal q log q1 -> Forall op_ok (map fst log) ->
  world_repr ProducerSide u h1 q1 -> world_repr ProducerSide u h2 q2 ->
  q_pending q ++ evs = log_acquired (by_consumer log) ++ q_pending q2 -> evs = published_in log.
Proof.
  intros Hq Hleg Hok H1 H2 Hhist.
  assert (q1 = q2) as <-.
  { apply (ring_repr_unique (w_ring u)); [apply H1|apply H2|].
    by rewrite <- (cons_held _ _ (sys_consumer_ok _ _ H1)), <- (cons_held _ _ (sys_consumer_ok _ _ H2)). }
  unfold log_acquired in Hhist. rewrite (acquired_by_consumer _ _ _ Hleg), <- (legal_fifo _ _ _ Hleg Hq Hok) in Hhist.
  by apply app_inv_head in Hhist.
Qed.

(** ** Executions *)

Section Executions.
Context {W : Type} (env : environment W) {A : Type} (p : io engine A) (u : world W).

(** The program beside a producer, or a consumer, that runs its operations. *)
Definition beside_producer (ops : list ring_op) :=
  Threads (at_rest (w_ring u)) (view_init, client ops (w_peer u)) (view_init, accesses env p u).

Definition beside_consumer (ops : list ring_op) :=
  Threads (at_rest (w_ring u)) (view_init, accesses env p u) (view_init, client ops (w_peer u)).

(** The consumer attaches to the ring first. *)
Definition beside_attaching (memory : memory_span) (ops : list ring_op) :=
  Threads (at_rest (w_ring u)) (view_init, accesses env p u) (view_init, attach_client memory ops).
End Executions.

(** What the two threads give at the end. *)
Definition outcome {A B} (s : config A B) : option (A * B) :=
  match (cf_producer s).2, (cf_consumer s).2 with
  | Ret a, Ret b => Some (a, b)
  | _, _ => None
  end.

Lemma outcome_finished {A B} (s : config A B) a b : outcome s = Some (a, b) -> finished_with s a b.
Proof.
  unfold outcome, finished_with. destruct (cf_producer s).2; try done. destruct (cf_consumer s).2; try done.
  by intros [= -> ->].
Qed.

(** An execution has no undefined behaviour and can be continued to the end. *)
Definition completes {A B} (schedule : list (thread * nat)) (s0 : config A B) : Prop :=
  exists s, execute schedule s0 = Some s /\
    exists rest s', execute rest s = Some s' /\ both_finished s' = true.

Lemma safe_completes c (Hc : valid_config c) base first {A B} QP QC schedule (s0 : config A B) :
  safe_config c base first QP QC s0 -> completes schedule s0.
Proof.
  intros Hs0. destruct (execute_safe c Hc base first QP QC schedule s0 Hs0) as (s&Hrun&Hs).
  exists s. split; [done|].
  destruct (execution_finishes c Hc base first QP QC s Hs) as (rest&m'&vp&vc&a&b&Hrest).
  eexists rest, _. by split.
Qed.

Lemma safe_finished c (Hc : valid_config c) base first {A B} QP QC schedule (s0 s : config A B) a b :
  safe_config c base first QP QC s0 -> execute schedule s0 = Some s -> finished_with s a b ->
  exists m vp vc kp kc, inv c base first m vp vc kp kc /\ QP a kp /\ QC b kc.
Proof.
  intros Hs0 Hrun [Hpr Hco]. destruct (execute_safe c Hc base first QP QC schedule s0 Hs0) as (s'&Hrun'&Hs).
  rewrite Hrun in Hrun'. injection Hrun' as <-. destruct Hs as (kp&kc&Hinv&Hsp&Hsc).
  rewrite Hpr in Hsp. rewrite Hco in Hsc. by exists (cf_memory s), (cf_producer s).1, (cf_consumer s).1, kp, kc.
Qed.

Section Beside.
Context {W : Type} (env : environment W) {A : Type} (p : io engine A) (u : world W) (self : SpscRing) (q : queue).
Context (Huse : in_use q).

Section Consumer.
Context (Hp : exists Q, consumes Q self None p) (Hdef : defined env ConsumerSide p u).
Context (Hs : world_repr ConsumerSide u self q).
Context (ops : list ring_op) (Hok : Forall op_ok ops) (Hops : forallb producer_op ops = true).

Let c := q_config q.

Lemma beside_producer_safe :
  safe_config c (q_read q) (length (q_events q)) (producer_done q (w_ring u) ops)
    (consumer_did env c (q_read q) p u (start_consumer (w_ring u) q)) (beside_producer env p u ops).
Proof using Huse Hp Hdef Hs Hok Hops.
  pose proof (repr_valid _ _ (sys_segment _ _ Hs)) as Hv. cbn in Hv.
  exists (start_producer (w_ring u) q), (start_consumer (w_ring u) q).
  split; [by eapply start_inv|]. destruct Hp as [Q Hcons]. split.
  - apply (producer_client _ Hv); [by eapply start_producer_knows|done..].
  - apply (consumer_refines env c Hv (q_read q) Q p self None); [done| |done].
    split; [apply locally_refl| |by eapply start_consumer_knows| |done].
    { exists (w_ring u), q. split; [apply Hs|]. do 2 (split; [done|]).
      exact (iv_header _ _ _ _ _ _ _ _ (start_inv _ _ _ _ Hs Huse)). }
    unfold c. by rewrite (proj2 (start_queues q (w_ring u) (w_peer u) self Hs Huse)).
Qed.

Lemma beside_producer_finished schedule s rs hp' a w' :
  execute schedule (beside_producer env p u ops) = Some s -> finished_with s (rs, hp') (a, w') ->
  length rs = length ops /\
  exists log rest qf, engine_run env ConsumerSide p u a w' log qf /\
    successes (zip ops rs) = log ++ rest /\
    (q_state qf = RingState_Closed -> published_in rest = []).
Proof using Huse Hp Hdef Hs Hok Hops.
  intros Hrun Hfin. pose proof (repr_valid _ _ (sys_segment _ _ Hs)) as Hv. cbn in Hv.
  destruct (safe_finished _ Hv _ _ _ _ _ _ _ _ _ beside_producer_safe Hrun Hfin)
    as (m&vp&vc&kp&kc&Hinv&Hprod&log&h'&Hdid&Hl).
  split; [apply Hprod|].
  destruct (learned_successes q (w_ring u) (w_peer u) self Hs Huse ops _ m vp vc kp kc Hinv rs hp' Hprod log Hl)
    as (rest&Hrest&Hclosed).
  exists log, rest, (consumer_queue c (q_read q) kc h'). split; [done|]. split; [done|].
  cbn. destruct (ck_closed kc); [by intros _; apply Hclosed|done].
Qed.
End Consumer.

Section Producer.
Context (Hp : exists Q, produces Q self p) (Hdef : defined env ProducerSide p u).
Context (Hs : world_repr ProducerSide u self q).
Context (ops : list ring_op) (Hops : forallb consumer_op ops = true).

Let c := q_config q.

Lemma beside_safe {B} (peer : prog B) Done :
  safe_consumer c (q_read q) peer (start_consumer (w_ring u) q) Done ->
  safe_config c (q_read q) (length (q_events q))
    (producer_did env c (q_read q) (q_held q) p u (start_producer (w_ring u) q)) Done
    (Threads (at_rest (w_ring u)) (view_init, accesses env p u) (view_init, peer)).
Proof using Huse Hp Hdef Hs.
  intros Hpeer. pose proof (repr_valid _ _ (sys_segment _ _ Hs)) as Hv. cbn in Hv.
  exists (start_producer (w_ring u) q), (start_consumer (w_ring u) q).
  split; [by eapply start_inv|]. destruct Hp as [Q Hprod]. split.
  - apply (producer_refines env c Hv (q_read q) (q_held q) Q p self); [done| |done].
    split; [apply locally_refl|by eapply start_producer_knows|].
    unfold c. by rewrite (proj1 (start_queues q (w_ring u) self (w_peer u) Hs Huse)).
  - exact Hpeer.
Qed.

Lemma beside_consumer_safe :
  safe_config c (q_read q) (length (q_events q))
    (producer_did env c (q_read q) (q_held q) p u (start_producer (w_ring u) q))
    (consumer_done q (w_ring u) (w_peer u) ops) (beside_consumer env p u ops).
Proof using Huse Hp Hdef Hs Hops.
  apply beside_safe, (consumer_client _ (repr_valid _ _ (sys_segment _ _ Hs))); [by eapply start_consumer_knows|done].
Qed.

Lemma beside_attaching_safe memory :
  w_peer u = construct_handle c false ->
  invalid_memory memory = false -> Z.of_nat (length (w_ring u)) = mem_size memory ->
  safe_config c (q_read q) (length (q_events q))
    (producer_did env c (q_read q) (q_held q) p u (start_producer (w_ring u) q))
    (attaching_done q (w_ring u) (w_peer u) ops) (beside_attaching env p u memory ops).
Proof using Huse Hp Hdef Hs Hops. intros Hc Hmem Hlen. by apply beside_safe, (attaching_client q _ self). Qed.

(** The operations of the program are those of some producer. *)
Lemma producer_did_done a kp :
  producer_did env c (q_read q) (q_held q) p u (start_producer (w_ring u) q) a kp ->
  exists log h', engine_run env ProducerSide p u a.1 a.2 (by_consumer log) (producer_queue c (q_read q) (q_held q) kp) /\
    legal q log (producer_queue c (q_read q) (q_held q) kp) /\ Forall op_ok (map fst log) /\
    successes (by_consumer log) = by_consumer log /\
    producer_done q (w_ring u) (map fst (by_producer log)) (map snd (by_producer log), h') kp.
Proof using Huse Hs.
  intros (log&h'&Hrun&[Hleg Hlok Hsuc Hev]&Hk). exists log, h'. split; [done|].
  pose proof (proj1 (start_queues q (w_ring u) self (w_peer u) Hs Huse)) as Hq.
  rewrite <- published_by_producer in Hev.
  assert (zip (map fst (by_producer log)) (map snd (by_producer log)) = by_producer log) as Hz by apply zip_fst_snd.
  split; [by unfold c in Hleg; rewrite Hq in Hleg|]. split; [done|]. split; [done|].
  split; [by cbn; rewrite !length_map|].
  split; [done|]. split; [done|]. exists log. by cbn [fst]; rewrite Hz.
Qed.

(** What both did, once they have finished. *)
Definition both_did (a : A) (w' : world W) (rs : list ring_result) : Prop :=
  length rs = length ops /\ (ResAcquire (Unexpected AcquireError_InvalidSlot) ∉ rs) /\
  exists log rest qf pending, engine_run env ProducerSide p u a w' (by_consumer log) qf /\
    successes (zip ops rs) = by_consumer log ++ rest /\ legal q log qf /\ Forall op_ok (map fst log) /\
    q_pending q ++ published_in log = acquired rs ++ pending /\
    (ResAcquire (Unexpected AcquireError_Closed) ∈ rs -> pending = []).

Lemma both_finished_did m vp vc kp kc a w' rs hc' :
  inv c (q_read q) (length (q_events q)) m vp vc kp kc ->
  producer_did env c (q_read q) (q_held q) p u (start_producer (w_ring u) q) (a, w') kp ->
  consumer_done q (w_ring u) (w_peer u) ops (rs, hc') kc -> both_did a w' rs.
Proof using Huse Hs.
  intros Hinv Hdid Hcons.
  destruct (producer_did_done _ _ Hdid) as (log&h'&Hengine&Hleg&Hlok&Hsuc&Hprod).
  split; [apply Hcons|].
  assert (Hbp : Forall op_ok (map fst (by_producer log))).
  { rewrite Forall_map in Hlok |- *. rewrite Forall_forall in Hlok |- *. intros x Hx. apply Hlok.
    apply list_elem_of_In. apply list_elem_of_In, filter_In in Hx. apply Hx. }
  destruct (finished_fifo q (w_ring u) self (w_peer u) Hs Huse _ ops Hbp _ m vp vc kp kc Hinv
    _ rs h' hc' Hprod Hcons) as (Hvalid&pending&Hfifo&Hclosed).
  split; [done|].
  destruct (consumer_successes q (w_ring u) self (w_peer u) Hs Huse _ ops Hbp _ m vp vc kp kc Hinv
    _ rs h' hc' Hprod Hcons log Hleg) as (n&Hn); [symmetry; apply zip_fst_snd|done|].
  eexists log, _, _, pending. split; [done|]. split; [done|]. split; [done|]. split; [done|]. split; [|done].
  by rewrite <- Hfifo, <- (published_by_producer log).
Qed.

Lemma beside_consumer_finished schedule s a w' rs hc' :
  execute schedule (beside_consumer env p u ops) = Some s -> finished_with s (a, w') (rs, hc') ->
  both_did a w' rs.
Proof using Huse Hp Hdef Hs Hops.
  intros Hrun Hfin. pose proof (repr_valid _ _ (sys_segment _ _ Hs)) as Hv. cbn in Hv.
  destruct (safe_finished _ Hv _ _ _ _ _ _ _ _ _ beside_consumer_safe Hrun Hfin)
    as (m&vp&vc&kp&kc&Hinv&Hdid&Hcons). by eapply both_finished_did.
Qed.

Lemma beside_attaching_finished memory schedule s a w' r :
  w_peer u = construct_handle c false ->
  invalid_memory memory = false -> Z.of_nat (length (w_ring u)) = mem_size memory ->
  execute schedule (beside_attaching env p u memory ops) = Some s -> finished_with s (a, w') r ->
  exists rs hc', r = Value (rs, hc') /\ both_did a w' rs.
Proof using Huse Hp Hdef Hs Hops.
  intros Hc Hmem Hlen Hrun Hfin. pose proof (repr_valid _ _ (sys_segment _ _ Hs)) as Hv. cbn in Hv.
  destruct (safe_finished _ Hv _ _ _ _ _ _ _ _ _ (beside_attaching_safe memory Hc Hmem Hlen) Hrun Hfin)
    as (m&vp&vc&kp&kc&Hinv&Hdid&[rs hc']&->&Hcons). exists rs, hc'. split; [done|by eapply both_finished_did].
Qed.
End Producer.
End Beside.

(** C4. Beside a concurrent peer, access by access, under release/acquire memory, an engine
    program that keeps to the interface of the ring and runs to its end in every environment
    of [Engine] does nothing it does not do there: no execution has undefined behaviour,
    every one can be continued until both threads have finished, and then the result is
    that of an [Engine] run in which the peer does, between the effects of the program, the
    first of the operations with which it succeeded. *)
Theorem engine_refines_concurrency {W} (env : environment W) {A} (p : io engine A) u self q ops schedule :
  in_use q ->
  ((exists Q, consumes Q self None p) -> defined env ConsumerSide p u -> world_repr ConsumerSide u self q ->
   Forall op_ok ops -> forallb producer_op ops = true ->
   completes schedule (beside_producer env p u ops) /\
   forall s rs hp' a w', execute schedule (beside_producer env p u ops) = Some s ->
     finished_with s (rs, hp') (a, w') ->
     exists log rest q', engine_run env ConsumerSide p u a w' log q' /\ successes (zip ops rs) = log ++ rest) /\
  ((exists Q, produces Q self p) -> defined env ProducerSide p u -> world_repr ProducerSide u self q ->
   forallb consumer_op ops = true ->
   completes schedule (beside_consumer env p u ops) /\
   forall s a w' rs hc', execute schedule (beside_consumer env p u ops) = Some s ->
     finished_with s (a, w') (rs, hc') ->
     exists log rest q', engine_run env ProducerSide p u a w' log q' /\ successes (zip ops rs) = log ++ rest).
Proof.
  intros Huse. split.
  - intros Hp Hdef Hs Hok Hops. pose proof (repr_valid _ _ (sys_segment _ _ Hs)) as Hv. split.
    + eapply safe_completes; [exact Hv|]. by eapply beside_producer_safe.
    + intros s rs hp' a w' Hrun Hfin.
      destruct (beside_producer_finished env p u self q Huse Hp Hdef Hs ops Hok Hops schedule s rs hp' a w' Hrun Hfin)
        as (_&log&rest&qf&Hengine&Hsuc&_). by exists log, rest, qf.
  - intros Hp Hdef Hs Hops. pose proof (repr_valid _ _ (sys_segment _ _ Hs)) as Hv. split.
    + eapply safe_completes; [exact Hv|]. by eapply beside_consumer_safe.
    + intros s a w' rs hc' Hrun Hfin.
      destruct (beside_consumer_finished env p u self q Huse Hp Hdef Hs ops Hops schedule s a w' rs hc' Hrun Hfin)
        as (_&_&log&rest&qf&pending&Hengine&Hsuc&_). by exists (by_consumer log), rest, qf.
Qed.
