(* ===== verification/Sender.v ===== *)
(** * The sender

    [src/include/lle/sender.hpp] and [src/src/sender/sender.cpp]: start-up, the loop that
    turns ring events into datagrams, and the move constructor. The loop is a program of
    [Engine] effects; [SenderSpec] states and proves what it does in any environment. *)

From S2P Require Import Prelude Bytes Event Protocol Memory RingLayout Ring Posix Udp Segment.
From S2P Require Import Config RingSystem Engine.

Record Sender := SenderOf {
  config_ : SenderConfig;
  segment_ : SharedMemorySegment;
  ingress_ : SpscRing;
  udp_ : UdpSender;
  destinations_ : list UdpAddress;
  session_id_ : Z;
  packet_sequence_ : Z;
  stats_ : EngineStats;
}.

(** Assignments to the members the loop changes. *)
Definition set_stats (self : Sender) (stats : EngineStats) : Sender :=
  SenderOf (config_ self) (segment_ self) (ingress_ self) (udp_ self) (destinations_ self)
    (session_id_ self) (packet_sequence_ self) stats.
Definition set_ingress (self : Sender) (ingress : SpscRing) : Sender :=
  SenderOf (config_ self) (segment_ self) ingress (udp_ self) (destinations_ self)
    (session_id_ self) (packet_sequence_ self) (stats_ self).
Definition set_sequence (self : Sender) (sequence : Z) : Sender :=
  SenderOf (config_ self) (segment_ self) (ingress_ self) (udp_ self) (destinations_ self)
    (session_id_ self) sequence (stats_ self).

(** ** The loop *)

(** [for (const auto& destination : destinations_)]; the result is [sent_to_any]. *)
Fixpoint send_to_all (self : Sender) (datagram : list byte) (destinations : list UdpAddress)
    (sent_to_any : bool) : io engine (bool * Sender) :=
  match destinations with
  | [] => mret (sent_to_any, self)
  | destination :: destinations =>
      sent ← syscalls (send_to (udp_ self) datagram destination);
      let stats := stats_ self in
      if has_value sent then
        send_to_all (set_stats self (stats{{ packets_sent := incr (packets_sent stats) }}))
          datagram destinations true
      else
        send_to_all (set_stats self (stats{{ send_errors := incr (send_errors stats) }}))
          datagram destinations sent_to_any
  end.

(** The body after a successful [try_acquire]. *)
Definition process_event (self : Sender) (view : EventView span) (packet : list byte) :
    io engine (loop * (Sender * list byte)) :=
  let stats := stats_ self in
  let self := set_stats self (stats{{ events_in := incr (events_in stats) }}) in
  let max := Z.to_nat (max_datagram_bytes (config_ self)) in
  event ← call (on_ring (view_bytes view));
  match encode_data event (session_id_ self) (packet_sequence_ self) (take max packet) with
  | None => call undefined
  | Some (encoded, output) =>
      let packet := output ++ drop max packet in
      released ← call (on_ring (release (ingress_ self)));
      let self := set_ingress self released.2 in
      match encoded with
      | Unexpected _ =>
          let stats := stats_ self in
          mret (Continue,
            (set_stats self (stats{{ encode_errors := incr (encode_errors stats);
                                     events_dropped := incr (events_dropped stats) }}), packet))
      | Value size =>
          let datagram := take (Z.to_nat size) output in
          sent ← send_to_all self datagram (destinations_ self) false;
          let '(sent_to_any, self) := sent in
          let stats := stats_ self in
          let self := set_stats self
            (if (sent_to_any : bool)
             then stats{{ events_out := incr (events_out stats) }}
             else stats{{ events_dropped := incr (events_dropped stats) }}) in
          if packet_sequence_ self =? u64_max then
            call (stop_store true);; mret (Break, (self, packet))
          else
            mret (Continue,
              (set_sequence self (u64 (packet_sequence_ self + 1)), packet))
      end
  end.

(** One turn of the loop. *)
Definition Sender_once (self : Sender) (packet : list byte) : io engine (loop * (Sender * list byte)) :=
  stop_requested ← call stop_load;
  if (stop_requested : bool) then mret (Break, (self, packet)) else
  acquired ← call (on_ring (try_acquire (ingress_ self)));
  let '(event, ingress) := acquired in
  let self := set_ingress self ingress in
  match event with
  | Unexpected error =>
      if decide (error = AcquireError_Empty) then
        (if negb (busy_spin_ingress (config_ self)) then call (sleep_for 1) else mret tt);;
        mret (Continue, (self, packet))
      else
        let stats := stats_ self in
        let self :=
          if decide (error <> AcquireError_Closed)
          then set_stats self (stats{{ ingress_errors := incr (ingress_errors stats) }})
          else self in
        mret (Break, (self, packet))
  | Value view => process_event self view packet
  end.

(** At most [fuel] turns; the result says whether the loop has ended. *)
Fixpoint Sender_loop (fuel : nat) (self : Sender) (packet : list byte) : io engine (bool * Sender) :=
  match fuel with
  | O => mret (false, self)
  | S fuel =>
      turn ← Sender_once self packet;
      let '(next, (self, packet)) := turn in
      if decide (next = Break) then mret (true, self) else Sender_loop fuel self packet
  end.

Definition Sender_run (fuel : nat) (self : Sender) : io engine (bool * Sender) :=
  Sender_loop fuel self (replicate (Z.to_nat kMaxPacketBytes) Byte.x00).

Definition Sender_request_stop : io engine unit := call (stop_store true).

Definition Sender_stats (self : Sender) : EngineStats := stats_ self.

(** ** Construction *)

(** The private constructor; the packet sequence starts at 1. *)
Definition Sender_construct (config : SenderConfig) (segment : SharedMemorySegment)
    (ingress : SpscRing) (udp : UdpSender) (destinations : list UdpAddress) (session_id : Z) :
    Sender :=
  SenderOf config (Segment_move segment).1 (SpscRing_move ingress).1 (UdpSender_move udp).1
    destinations session_id 1 EngineStats_init.

(** The move constructor, on the sender and its stop flag. *)
Definition Sender_move (other : Sender) (stop_requested : bool) :
    (Sender * bool) * (Sender * bool) :=
  ((SenderOf (config_ other) (Segment_move (segment_ other)).1 (SpscRing_move (ingress_ other)).1
      (UdpSender_move (udp_ other)).1 (destinations_ other) (session_id_ other)
      (packet_sequence_ other) (stats_ other), stop_requested),
   (SenderOf (SenderConfig_moved (config_ other)) (Segment_move (segment_ other)).2 (SpscRing_move (ingress_ other)).2
      (UdpSender_move (udp_ other)).2 [] (session_id_ other)
      (packet_sequence_ other) (stats_ other), true)).

(** The implicit destructor: members in reverse order of declaration. *)
Definition Sender_destroy (self : Sender) : io sys unit :=
  UdpSender_destroy (udp_ self);; Segment_destroy (segment_ self);; mret tt.

(** Parse the endpoints in order; the first that does not parse decides. *)
Fixpoint parse_destinations (inet_pton : string -> option Z) (endpoints : list Endpoint) :
    option (list UdpAddress) :=
  match endpoints with
  | [] => Some []
  | endpoint :: endpoints =>
      match UdpAddress_ipv4 inet_pton (address endpoint) (port endpoint) with
      | Unexpected _ => None
      | Value destination =>
          (destination ::.) <$> parse_destinations inet_pton endpoints
      end
  end.

Definition invalid_sender_config (config : SenderConfig) : bool :=
  (bool_decide (ingress_shm_name config = EmptyString))
  || (bool_decide (receivers config = []))
  || (max_datagram_bytes config <? kMinDataPacketBytes)
  || (kMaxPacketBytes <? max_datagram_bytes config)
  || negb (bool_decide (sender_delivery_mode config = DeliveryMode_BestEffort))
  || negb (sender_cpu config =? -1).

(** The end of [initialize], with the ring attached: open the socket and draw the session.
    [None]: [getrandom] kept being interrupted for [fuel] turns. Destructors of the locals run
    on every early return, in reverse order. *)
Definition initialize_session (fuel : nat) (config : SenderConfig) (destinations : list UdpAddress)
    (segment : SharedMemorySegment) (ingress : SpscRing) : io engine (option (expected Sender InitError)) :=
  opened ← syscalls UdpSender_open;
  match opened with
  | Unexpected _ =>
      syscalls (Segment_destroy segment);; mret (Some (Unexpected InitError_Socket))
  | Value udp =>
      session_id ← syscalls (choose_id 4 fuel);
      match session_id with
      | None => mret None
      | Some (Unexpected _) =>
          syscalls (UdpSender_destroy udp);; syscalls (Segment_destroy segment);;
          mret (Some (Unexpected InitError_SessionId))
      | Some (Value session_id) =>
          mret (Some (Value (Sender_construct config segment ingress udp destinations session_id)))
      end
  end.

Definition Sender_initialize (inet_pton : string -> option Z) (fuel : nat) (config : SenderConfig) :
    io engine (option (expected Sender InitError)) :=
  if invalid_sender_config config then mret (Some (Unexpected InitError_InvalidConfig)) else
  match parse_destinations inet_pton (receivers config) with
  | None => mret (Some (Unexpected InitError_AddressResolution))
  | Some destinations =>
      attached ← syscalls (attach_shm (ingress_shm_name config));
      match attached with
      | Unexpected _ => mret (Some (Unexpected InitError_SharedMemory))
      | Value segment =>
          let '(data, size) := segment_bytes segment in
          ingress ← call (on_ring (attach (Memory data size)));
          match ingress with
          | Unexpected _ =>
              syscalls (Segment_destroy segment);; mret (Some (Unexpected InitError_Ring))
          | Value ingress => initialize_session fuel config destinations segment ingress
          end
      end
  end.
