(* ===== verification/SenderSpec.v ===== *)
(** * What the sender does

    The sender's loop, in any environment: it consumes the events of the ring in order,
    each exactly once; every encodable event goes to every destination, in order, as the
    wire image with the next packet sequence; the counters count exactly that. A [turn] is
    one consumed event with its [sendto] calls. *)

From S2P Require Import Prelude Bytes Event Protocol Memory RingLayout Ring RingSpec RingGeometry.
From S2P Require Import RingRefinement RingSafety RingSystem RingInit Posix Udp Segment Config Engine Sender.

Record turn := Turn { t_event : EventData; t_sends : list (list byte * sockaddr_in * sysret) }.

(** The encoder accepts the event for this sender and sequence. *)
Definition encodable (max sid seq : Z) (ev : EventData) : bool :=
  negb (sid =? 0) && negb (seq =? 0) && negb (sequence ev =? 0)
  && (payload_size ev <=? kMaxSingleEventPayloadBytes)
  && (data_packet_size (payload_size ev) <=? max).

#[global] Arguments encodable : simpl never.
#[global] Arguments data_packet : simpl never.

(** A [sendto] that sent the whole datagram. *)
Definition send_ok (s : list byte * sockaddr_in * sysret) : bool :=
  ret s.2 =? Z.of_nat (length s.1.1).

(** Each turn sends the image of its event to every destination in order, with consecutive
    sequences; an event that cannot be encoded uses no sequence and sends nothing. *)
Fixpoint turns_ok (max sid : Z) (dests : list UdpAddress) (seq : Z) (ts : list turn) : Prop :=
  match ts with
  | [] => True
  | t :: ts =>
      if encodable max sid seq (t_event t) then
        map fst (t_sends t) = map (fun d => (data_packet sid seq (t_event t), native d)) dests /\
        turns_ok max sid dests (seq + 1) ts
      else t_sends t = [] /\ turns_ok max sid dests seq ts
  end.

(** Turns that used a packet sequence. *)
Fixpoint encoded_turns (max sid seq : Z) (ts : list turn) : list turn :=
  match ts with
  | [] => []
  | t :: ts =>
      if encodable max sid seq (t_event t) then t :: encoded_turns max sid (seq + 1) ts
      else encoded_turns max sid seq ts
  end.

Definition sends (ts : list turn) := concat (map t_sends ts).

(** The counters after [ts]. *)
Definition stats_after (max sid seq : Z) (st : EngineStats) (ts : list turn) : EngineStats :=
  let enc := encoded_turns max sid seq ts in
  let out := count (fun t => existsb send_ok (t_sends t)) enc in
  let n := Z.of_nat (length ts) in
  st{{ events_in := u64 (events_in st + n);
       events_out := u64 (events_out st + out);
       events_dropped := u64 (events_dropped st + (n - out));
       encode_errors := u64 (encode_errors st + (n - Z.of_nat (length enc)));
       packets_sent := u64 (packets_sent st + count send_ok (sends ts));
       send_errors := u64 (send_errors st + count (fun s => negb (send_ok s)) (sends ts)) }}.

(** The sequence after [ts]; it stays at the last one when that is used up. *)
Definition sequence_after (max sid seq : Z) (ts : list turn) : Z :=
  Z.min u64_max (seq + Z.of_nat (length (encoded_turns max sid seq ts))).

(** The type invariant of the counters. *)
Record sender_stats_ok (st : EngineStats) : Prop := StatsOk {
  ok_events_in : is_uint 64 (events_in st);
  ok_events_out : is_uint 64 (events_out st);
  ok_events_dropped : is_uint 64 (events_dropped st);
  ok_encode_errors : is_uint 64 (encode_errors st);
  ok_packets_sent : is_uint 64 (packets_sent st);
  ok_send_errors : is_uint 64 (send_errors st);
}.

Record sender_ok (self : Sender) : Prop := SenderOk {
  so_max : 44 <= max_datagram_bytes (config_ self) <= 1416;
  so_session : 0 < session_id_ self < 2 ^ 32;
  so_sequence : 1 <= packet_sequence_ self <= u64_max;
  so_stats : sender_stats_ok (stats_ self);
}.

(** ** Progress of the world *)

(** The sender receives nothing. *)
Abbreviation progress env w w' l ss := (Engine.progress env w w' l ss []).

(** The queue while the program does nothing to it. *)
Record follows (q q' : queue) (pubs : list EventData) : Prop := Follows {
  fl_events : q_events q' = q_events q ++ pubs;
  fl_held : q_held q' = q_held q;
  fl_read : q_read q' = q_read q;
  fl_config : q_config q' = q_config q;
  fl_closed : q_state q = RingState_Closed -> q_state q' = RingState_Closed /\ pubs = [];
}.

Lemma follows_refl q : follows q q [].
Proof. split; rewrite ?app_nil_r; done. Qed.

Lemma follows_trans q1 q2 q3 p1 p2 :
  follows q1 q2 p1 -> follows q2 q3 p2 -> follows q1 q3 (p1 ++ p2).
Proof.
  intros [H1 H2 H3 H4 H5] [G1 G2 G3 G4 G5]. split; try congruence.
  - by rewrite G1, H1, app_assoc.
  - intros Hc. destruct (H5 Hc) as [Hc' ->]. destruct (G5 Hc') as [? ->]. done.
Qed.

Section Effects.
Context {W : Type} (env : environment W).
Hypothesis Hpeer : forall t, Forall (peer_allowed ConsumerSide) (env_peer env t).
Abbreviation run_io := (interp (engine_handler env)).

(** What a producer does to the queue meanwhile. *)
Lemma moves_follows q q1 l : peer_moves ConsumerSide q q1 l -> follows q q1 (log_published l).
Proof. intros [_ Hc Hcons _]. destruct (Hcons eq_refl) as (?&?&_&?&?). by split. Qed.

(** One effect: first the environment moves, then the effect happens. *)
Lemma effect_step {A R} (e : engine R) (f : R -> io engine A) w h q :
  world_repr ConsumerSide w h q ->
  exists w1 q1 l, run_io (call e ≫= f) w = (r ← perform env e w1; run_io (f r.1) r.2) /\
    progress env w w1 l [] /\ w_time w1 = S (w_time w) /\
    w_stop w1 = w_stop w || env_stop env (w_time w) /\
    world_repr ConsumerSide w1 h q1 /\ follows q q1 (log_published l).
Proof.
  intros Hw. destruct (effect_moves env ConsumerSide Hpeer e f w h q Hw)
    as (w1&q1&l&?&?&?&?&?&?). exists w1, q1, l. split_and!; try done. by apply moves_follows.
Qed.

(** [try_acquire] on an unheld ring: an event of the queue, or the reason there is none. *)
Lemma acquire_step {A} (f : _ -> io engine A) w h q :
  world_repr ConsumerSide w h q -> q_held q = false ->
  exists r w1 h1 q1 l, run_io (call (on_ring (try_acquire h)) ≫= f) w = run_io (f (r, h1)) w1 /\
    progress env w w1 l [] /\ world_repr ConsumerSide w1 h1 q1 /\
    q_events q1 = q_events q ++ log_published l /\
    (q_state q = RingState_Closed -> q_state q1 = RingState_Closed /\ log_published l = []) /\
    q_config q1 = q_config q /\
    match r with
    | Value view => exists ev evs, q_events q1 = ev :: evs /\ q_held q1 = true /\
        view = slot_view (q_config q1) (q_read q1) ev
    | Unexpected e => q_events q1 = [] /\ q_held q1 = false /\
        e = if decide (q_state q1 = RingState_Closed) then AcquireError_Closed else AcquireError_Empty
    end.
Proof.
  intros Hw Hheld.
  destruct (effect_step (on_ring (try_acquire h)) f w h q Hw)
    as (w1&q1&l&->&Hpg&_&_&Hw1&[He Hh Hr Hc Hcl]).
  destruct (try_acquire_refines (w_ring w1) q1 h (sys_segment _ _ Hw1) (sys_consumer_ok _ _ Hw1))
    as (h'&Hrun&Hm&Hcons).
  rewrite (perform_ring _ _ _ _ _ Hrun). cbn [mbind option_bind fst snd].
  pose proof (producer_ok_acquire _ _ (sys_producer_ok _ _ Hw1)) as Hprod.
  pose proof (sys_creator _ _ Hw1) as Hcr.
  eexists _, _, h', (spec_acquire q1).2, l. split; [reflexivity|].
  split; [by destruct Hpg; split|]. split; [by split|].
  unfold spec_acquire in *. rewrite Hh, Hheld in *. destruct (q_events q1) as [|ev evs] eqn:Hq.
  - cbn [fst snd expected_map]. split_and!; try done; congruence.
  - cbn [fst snd expected_map q_hold q_events q_held q_config q_read q_state].
    split_and!; try done; [congruence|by exists ev, evs].
Qed.

(** Reading the payload of the held event. *)
Lemma read_step {A} (f : _ -> io engine A) w h q ev evs view :
  world_repr ConsumerSide w h q -> q_events q = ev :: evs -> q_held q = true ->
  view = slot_view (q_config q) (q_read q) ev ->
  exists w1 q1 l, run_io (call (on_ring (view_bytes view)) ≫= f) w = run_io (f ev) w1 /\
    progress env w w1 l [] /\ world_repr ConsumerSide w1 h q1 /\ follows q q1 (log_published l).
Proof.
  intros Hw Hq Hheld ->.
  destruct (effect_step (on_ring (view_bytes (slot_view (q_config q) (q_read q) ev))) f w h q Hw)
    as (w1&q1&l&->&Hpg&_&_&Hw1&Hf).
  assert (q_events q1 = ev :: (evs ++ log_published l)) as Hq1
    by (rewrite (fl_events _ _ _ Hf), Hq; done).
  pose proof (head_view_bytes _ _ _ _ (sys_segment _ _ Hw1) Hq1) as Hb.
  rewrite (fl_config _ _ _ Hf), (fl_read _ _ _ Hf) in Hb.
  rewrite (perform_ring _ _ _ _ _ (run_view_bytes _ _ _ Hb)). cbn [mbind option_bind fst snd].
  eexists _, q1, l. split; [reflexivity|]. split; [by destruct Hpg; split|]. by split.
Qed.

(** Releasing the held event. *)
Lemma release_step {A} (f : _ -> io engine A) w h q ev evs :
  world_repr ConsumerSide w h q -> q_events q = ev :: evs -> q_held q = true ->
  exists w1 h1 q1 l, run_io (call (on_ring (release h)) ≫= f) w = run_io (f (true, h1)) w1 /\
    progress env w w1 l [] /\ world_repr ConsumerSide w1 h1 q1 /\ q_held q1 = false /\
    q_events q1 = evs ++ log_published l /\
    (q_state q = RingState_Closed -> q_state q1 = RingState_Closed /\ log_published l = []).
Proof.
  intros Hw Hq Hheld.
  destruct (effect_step (on_ring (release h)) f w h q Hw) as (w1&q1&l&->&Hpg&_&_&Hw1&[He Hh Hr Hc Hcl]).
  destruct (release_refines (w_ring w1) q1 h (sys_segment _ _ Hw1) (sys_consumer_ok _ _ Hw1))
    as (h'&m'&Hrun&Hm&Hcons).
  rewrite (perform_ring _ _ _ _ _ Hrun). cbn [mbind option_bind fst snd].
  pose proof (producer_ok_release _ _ (sys_producer_ok _ _ Hw1)) as Hprod.
  pose proof (sys_creator _ _ Hw1) as Hcr.
  unfold spec_release in *. rewrite Hh, Hheld in *. cbn [fst snd] in *.
  eexists _, h', (q_dequeue q1), l. split; [reflexivity|].
  split; [by destruct Hpg; split|]. split; [by split|]. split; [done|].
  cbn [q_dequeue q_events q_state]. rewrite He, Hq. by split.
Qed.

(** [sendto] on the open socket. *)
Lemma posix_step {A} fd data d (f : sysret -> io sys A) w h q :
  world_repr ConsumerSide w h q -> is_open (w_held w) fd = true ->
  exists r w1 q1 l, run_io (syscalls (call (sys_sendto fd data d) ≫= f)) w = run_io (syscalls (f r)) w1 /\
    progress env w w1 l [(data, d, r)] /\ world_repr ConsumerSide w1 h q1 /\
    follows q q1 (log_published l).
Proof.
  intros Hw Ho. destruct (posix_moves env ConsumerSide Hpeer (sys_sendto fd data d) fd f w h q Hw
    (uses_sendto _ _ _) Ho) as (r&w1&q1&l&Hrun&_&Hpg&_&_&Hw1&Hq).
  exists r, w1, q1, l. split_and!; try done. by apply moves_follows.
Qed.

(** ** Sending to every destination *)

(** The fields the loop never changes. *)
Record same_sender (self self' : Sender) : Prop := SameSender {
  ss_config : config_ self' = config_ self;
  ss_segment : segment_ self' = segment_ self;
  ss_udp : udp_ self' = udp_ self;
  ss_destinations : destinations_ self' = destinations_ self;
  ss_session : session_id_ self' = session_id_ self;
}.

Lemma same_sender_trans a b c : same_sender a b -> same_sender b c -> same_sender a c.
Proof. intros [] []. split; congruence. Qed.

(** Counting the sends of one event. *)
Definition count_sends (st : EngineStats) (ss : list (list byte * sockaddr_in * sysret)) :
    EngineStats :=
  st{{ packets_sent := u64 (packets_sent st + count send_ok ss);
       send_errors := u64 (send_errors st + count (fun s => negb (send_ok s)) ss) }}.

Lemma count_sends_nil st :
  is_uint 64 (packets_sent st) -> is_uint 64 (send_errors st) -> count_sends st [] = st.
Proof. intros. destruct st. unfold count_sends. cbn in *. rewrite !Z.add_0_r, !wrap_small by done. done. Qed.

Lemma count_sends_ok st s ss :
  send_ok s = true ->
  count_sends (st{{ packets_sent := incr (packets_sent st) }}) ss = count_sends st (s :: ss).
Proof.
  intros Hs. destruct st. unfold count_sends, incr. cbn. rewrite !count_cons, Hs. cbn [negb].
  rewrite wrap_add_l. by rewrite <- Z.add_assoc.
Qed.

Lemma count_sends_error st s ss :
  send_ok s = false ->
  count_sends (st{{ send_errors := incr (send_errors st) }}) ss = count_sends st (s :: ss).
Proof.
  intros Hs. destruct st. unfold count_sends, incr. cbn. rewrite !count_cons, Hs. cbn [negb].
  rewrite wrap_add_l. by rewrite <- Z.add_assoc.
Qed.

#[local] Arguments count_sends : simpl never.
#[local] Arguments incr : simpl never.

(** One [send_to]. *)
Lemma send_to_step u data d w h q :
  world_repr ConsumerSide w h q -> is_open (w_held w) (sender_socket_fd_ u) = true ->
  exists r w1 q1 l, run_io (syscalls (send_to u data d)) w =
      Some (if send_ok (data, native d, r) then Value tt else
            Unexpected (UdpErr UdpErrorCode_Send (if ret r <? 0 then errno r else 0)), w1) /\
    progress env w w1 l [(data, native d, r)] /\ world_repr ConsumerSide w1 h q1 /\
    follows q q1 (log_published l).
Proof.
  intros Hw Ho. unfold send_to.
  destruct (posix_step (sender_socket_fd_ u) data (native d)
    (fun sent =>
      if ret sent <? 0 then mret (Unexpected (UdpErr UdpErrorCode_Send (errno sent))) else
      if negb (ret sent =? Z.of_nat (length data))
      then mret (Unexpected (UdpErr UdpErrorCode_Send 0)) else
      mret (Value tt)) w h q Hw Ho) as (r&w1&q1&l&Hrun&Hpg&Hw1&Hf).
  exists r, w1, q1, l. split; [|done]. etransitivity; [exact Hrun|]. unfold send_ok. cbn [fst snd].
  destruct (ret r <? 0) eqn:Hneg.
  - to_prop. by rewrite (proj2 (Z.eqb_neq _ _)) by lia.
  - by destruct (ret r =? Z.of_nat (length data)).
Qed.

Lemma send_all_step data dests self b w h q :
  world_repr ConsumerSide w h q -> is_open (w_held w) (sender_socket_fd_ (udp_ self)) = true ->
  is_uint 64 (packets_sent (stats_ self)) -> is_uint 64 (send_errors (stats_ self)) ->
  exists ss w1 q1 l,
    run_io (send_to_all self data dests b) w =
      Some ((b || existsb send_ok ss, set_stats self (count_sends (stats_ self) ss)), w1) /\
    map fst ss = map (fun d => (data, native d)) dests /\
    progress env w w1 l ss /\ world_repr ConsumerSide w1 h q1 /\ follows q q1 (log_published l).
Proof.
  revert self b w q. induction dests as [|d dests IH]; intros self b w q Hw Ho Hp He.
  { exists [], w, q, []. split_and!; [| | |done|].
    - rewrite orb_false_r, count_sends_nil by done. by destruct self.
    - done.
    - apply progress_refl.
    - apply follows_refl. }
  cbn [send_to_all]. rewrite interp_bind.
  destruct (send_to_step (udp_ self) data d w h q Hw Ho) as (r&w1&q1&l&->&Hpg&Hw1&Hf).
  cbn [mbind option_bind fst snd].
  assert (Ho1 : is_open (w_held w1) (sender_socket_fd_ (udp_ self)) = true)
    by by rewrite (pg_held _ _ _ _ _ _ Hpg).
  destruct (send_ok (data, native d, r)) eqn:Hok; cbn [has_value].
  - set (self1 := set_stats self ((stats_ self){{ packets_sent := incr (packets_sent (stats_ self)) }})).
    destruct (IH self1 true w1 q1) as (ss&w2&q2&l2&->&Hss&Hpg2&Hw2&Hf2); try done;
      [subst self1; destruct self as [? ? ? ? ? ? ? []]; by apply wrap_is_uint|].
    exists ((data, native d, r) :: ss), w2, q2, (l ++ l2). split_and!.
    + simpl existsb. rewrite Hok, orb_true_r. subst self1. destruct self. cbn.
      by rewrite <- (count_sends_ok _ (data, native d, r)).
    + simpl. by rewrite Hss.
    + by apply (progress_trans _ _ _ _ _ _ _ _ _ _ Hpg).
    + done.
    + rewrite log_published_app. by eapply follows_trans.
  - set (self1 := set_stats self ((stats_ self){{ send_errors := incr (send_errors (stats_ self)) }})).
    destruct (IH self1 b w1 q1) as (ss&w2&q2&l2&->&Hss&Hpg2&Hw2&Hf2); try done;
      [subst self1; destruct self as [? ? ? ? ? ? ? []]; by apply wrap_is_uint|].
    exists ((data, native d, r) :: ss), w2, q2, (l ++ l2). split_and!.
    + simpl existsb. rewrite Hok. subst self1. destruct self. cbn.
      by rewrite <- (count_sends_error _ (data, native d, r)).
    + simpl. by rewrite Hss.
    + by apply (progress_trans _ _ _ _ _ _ _ _ _ _ Hpg).
    + done.
    + rewrite log_published_app. by eapply follows_trans.
Qed.

(** ** One event *)

(** The encoder's two outcomes. *)
Lemma encode_encodable ev sid seq out :
  exists r out', encode_data ev sid seq out = Some (r, out') /\ length out' = length out /\
    if encodable (Z.of_nat (length out)) sid seq ev
    then r = Value (data_packet_size (payload_size ev)) /\
         take (Z.to_nat (data_packet_size (payload_size ev))) out' = data_packet sid seq ev
    else exists e, r = Unexpected e.
Proof.
  rewrite encode_data_spec. pose proof (encode_reference_length ev sid seq out) as Hl.
  unfold encodable.
  rewrite (Z.leb_antisym _ (payload_size ev)), (Z.leb_antisym _ (data_packet_size _)).
  destruct (encode_reference ev sid seq out) as [r out'] eqn:He. unfold encode_reference in He.
  exists r, out'. split; [done|]. split; [done|].
  repeat case_bool_in He; pose proof (f_equal fst He) as Hr; pose proof (f_equal snd He) as Ho;
    cbn [fst snd] in Hr, Ho; subst r out'; cbn [negb andb]; try by eexists.
  split; [done|]. pose proof (length_data_packet sid seq ev) as Hd.
  rewrite <- Hd, Nat2Z.id. by rewrite take_app_length.
Qed.

(** The outcome of a turn that consumed an event. *)
Record consumed (self : Sender) (ev : EventData) (next : loop) (self' : Sender) (t : turn) : Prop :=
  Consumed {
    cs_event : t_event t = ev;
    cs_same : same_sender self self';
    cs_sends : turns_ok (max_datagram_bytes (config_ self)) (session_id_ self)
                 (destinations_ self) (packet_sequence_ self) [t];
    cs_stats : stats_ self' = stats_after (max_datagram_bytes (config_ self)) (session_id_ self)
                 (packet_sequence_ self) (stats_ self) [t];
    cs_next : next =
      if encodable (max_datagram_bytes (config_ self)) (session_id_ self) (packet_sequence_ self) ev
         && (packet_sequence_ self =? u64_max) then Break else Continue;
    cs_sequence : packet_sequence_ self' =
      if encodable (max_datagram_bytes (config_ self)) (session_id_ self) (packet_sequence_ self) ev
         && negb (packet_sequence_ self =? u64_max)
      then packet_sequence_ self + 1 else packet_sequence_ self;
  }.

Lemma wrap64_add0 n : is_uint 64 n -> u64 (n + 0) = n.
Proof. intros. by rewrite Z.add_0_r, wrap_small. Qed.

(** The turn whose event could not be encoded. *)
Lemma consumed_unencodable self h ev :
  sender_ok self ->
  encodable (max_datagram_bytes (config_ self)) (session_id_ self) (packet_sequence_ self) ev = false ->
  let st := stats_ self in
  let st1 := st{{ events_in := incr (events_in st) }} in
  consumed self ev Continue
    (set_stats (set_ingress self h)
       (st1{{ encode_errors := incr (encode_errors st1);
              events_dropped := incr (events_dropped st1) }}))
    (Turn ev []).
Proof.
  intros [_ _ _ [Hi Ho Hd He Hp Hs]] Henc. destruct self as [c sg i u ds sid seq st]. cbn in *.
  destruct st. cbn in *. split; cbn; rewrite ?Henc; try done.
  unfold stats_after, sends. cbn. rewrite ?Henc. cbn. unfold incr.
  rewrite !wrap64_add0 by done. done.
Qed.

(** The turn whose event was sent. *)
Lemma consumed_encoded self h ev ss :
  sender_ok self ->
  encodable (max_datagram_bytes (config_ self)) (session_id_ self) (packet_sequence_ self) ev = true ->
  map fst ss = map (fun d => (data_packet (session_id_ self) (packet_sequence_ self) ev, native d))
                 (destinations_ self) ->
  let st := stats_ self in
  let st1 := count_sends (st{{ events_in := incr (events_in st) }}) ss in
  let st2 := if existsb send_ok ss then st1{{ events_out := incr (events_out st1) }}
             else st1{{ events_dropped := incr (events_dropped st1) }} in
  let last := packet_sequence_ self =? u64_max in
  consumed self ev (if last then Break else Continue)
    (set_sequence (set_stats (set_ingress self h) st2)
       (if last then packet_sequence_ self else u64 (packet_sequence_ self + 1)))
    (Turn ev ss).
Proof.
  intros [_ _ Hseq [Hi Ho Hd He Hp Hs]] Henc Hss. destruct self as [c sg i u ds sid seq st]. cbn in *.
  destruct st. cbn in *. split; cbn; rewrite ?Henc; try done.
  - unfold stats_after, sends, count_sends. cbn. rewrite ?Henc. cbn. rewrite app_nil_r.
    rewrite count_cons. unfold count at 3. cbn. unfold incr.
    destruct (existsb send_ok ss); cbn; rewrite ?wrap64_add0 by done; done.
  - cbn [andb]. destruct (seq =? u64_max) eqn:E; cbn [negb]; [done|]. to_prop.
    apply wrap_small. uint.
Qed.

Lemma request_stop_step {A} (f : unit -> io engine A) w h q :
  world_repr ConsumerSide w h q ->
  exists w1 q1 l, run_io (call (stop_store true) ≫= f) w = run_io (f tt) w1 /\
    w_stop w1 = true /\ progress env w w1 l [] /\
    world_repr ConsumerSide w1 h q1 /\ follows q q1 (log_published l).
Proof.
  intros Hw. destruct (effect_step (stop_store true) f w h q Hw)
    as (w1&q1&l&->&[P1 P2 P3 _ P4 P5 P6]&Ht&_&Hw1&Hf).
  cbn [perform mbind option_bind fst snd]. eexists _, q1, l. split; [reflexivity|]. split; [done|].
  split; [by split|done].
Qed.

(** The event at the head of the ring has been taken out of it. *)
Record taken (w : world W) (q : queue) (evs : list EventData) (w' : world W) (q' : queue)
    (l : list (ring_op * ring_result)) (ss : list (list byte * sockaddr_in * sysret)) : Prop := Taken {
  tk_progress : progress env w w' l ss;
  tk_held : q_held q' = false;
  tk_events : q_events q' = evs ++ log_published l;
  tk_closed : q_state q = RingState_Closed -> q_state q' = RingState_Closed /\ log_published l = [];
}.

Lemma taken_follows w q evs w' q' l ss w2 q2 l2 ss2 :
  taken w q evs w' q' l ss -> progress env w' w2 l2 ss2 -> follows q' q2 (log_published l2) ->
  taken w q evs w2 q2 (l ++ l2) (ss ++ ss2).
Proof.
  intros [Hpg Hh He Hc] Hpg2 [He2 Hh2 _ _ Hc2].
  split; [exact (progress_trans _ _ _ _ _ _ _ _ _ _ Hpg Hpg2)|congruence| |].
  - by rewrite log_published_app, app_assoc, He2, He.
  - intros Hs. destruct (Hc Hs) as [Hs1 Hp1]. destruct (Hc2 Hs1) as [? Hp2].
    by rewrite log_published_app, Hp1, Hp2.
Qed.

(** What the body of the loop does with an event. *)
Record processed (self : Sender) (w : world W) (q : queue) (ev : EventData) (evs : list EventData)
    (next : loop) (self' : Sender) (w' : world W) (q' : queue) (l : list (ring_op * ring_result))
    (t : turn) : Prop := Processed {
  pr_consumed : consumed self ev next self' t;
  pr_taken : taken w q evs w' q' l (t_sends t);
  pr_break : next = Break -> w_stop w' = true;
  pr_repr : world_repr ConsumerSide w' (ingress_ self') q';
}.

(** The part after a successful encoding. *)
Lemma send_encoded_step self h ev evs (packet : list byte) w q w2 q2 l :
  sender_ok self -> taken w q evs w2 q2 l [] -> world_repr ConsumerSide w2 h q2 ->
  encodable (max_datagram_bytes (config_ self)) (session_id_ self) (packet_sequence_ self) ev = true ->
  is_open (w_held w) (sender_socket_fd_ (udp_ self)) = true ->
  let st := stats_ self in
  let self2 := set_ingress (set_stats self (st{{ events_in := incr (events_in st) }})) h in
  exists next self' w' q' l' t,
    run_io (sent ← send_to_all self2 (data_packet (session_id_ self) (packet_sequence_ self) ev)
                     (destinations_ self2) false;
      let '(sent_to_any, self) := sent in
      let stats := stats_ self in
      let self := set_stats self
        (if (sent_to_any : bool)
         then stats{{ events_out := incr (events_out stats) }}
         else stats{{ events_dropped := incr (events_dropped stats) }}) in
      if packet_sequence_ self =? u64_max then
        call (stop_store true);; mret (Break, (self, packet))
      else mret (Continue, (set_sequence self (u64 (packet_sequence_ self + 1)), packet))) w2 =
      Some ((next, (self', packet)), w') /\
    processed self w q ev evs next self' w' q' l' t.
Proof.
  intros Hok Htk Hw2 He Ho st self2. rewrite interp_bind.
  set (st1 := st{{ events_in := incr (events_in st) }}) in *. subst st.
  destruct (send_all_step (data_packet (session_id_ self) (packet_sequence_ self) ev)
    (destinations_ self) self2 false w2 h q2 Hw2) as (ss&w3&q3&l3&Hrun3&Hss&Hpg3&Hw3&Hf3).
  1: by rewrite (pg_held _ _ _ _ _ _ (tk_progress _ _ _ _ _ _ _ Htk)).
  1, 2: subst self2 st1; cbn [set_ingress set_stats stats_]; destruct (so_stats _ Hok); by destruct (stats_ self).
  change (destinations_ self2) with (destinations_ self).
  rewrite Hrun3. cbn [mbind option_bind fst snd orb].
  pose proof (consumed_encoded self h ev ss Hok He Hss) as Hcons. cbv zeta in Hcons. fold st1 in Hcons.
  pose proof (taken_follows _ _ _ _ _ _ _ _ _ _ _ Htk Hpg3 Hf3) as Htk3. cbn [app] in Htk3.
  change (packet_sequence_ (set_stats _ _)) with (packet_sequence_ self).
  destruct (packet_sequence_ self =? u64_max) eqn:Hlast.
  - match goal with |- context [run_io (call (stop_store true) ≫= ?f) w3] =>
      destruct (request_stop_step f w3 h q3 Hw3) as (w4&q4&l4&->&Hst&Hpg4&Hw4&Hf4) end.
    rewrite interp_ret. eexists _, _, w4, q4, _, (Turn ev ss). split; [reflexivity|].
    split; [exact Hcons| |done|exact Hw4].
    pose proof (taken_follows _ _ _ _ _ _ _ _ _ _ _ Htk3 Hpg4 Hf4) as Htk4. by rewrite app_nil_r in Htk4.
  - rewrite interp_ret. eexists _, _, w3, q3, _, (Turn ev ss). split; [reflexivity|].
    split; [exact Hcons|exact Htk3|done|exact Hw3].
Qed.

Lemma process_event_step self view packet w q ev evs :
  sender_ok self -> length packet = 1416%nat ->
  world_repr ConsumerSide w (ingress_ self) q -> q_events q = ev :: evs -> q_held q = true ->
  view = slot_view (q_config q) (q_read q) ev ->
  is_open (w_held w) (sender_socket_fd_ (udp_ self)) = true ->
  exists next self' packet' w' q' l t,
    run_io (process_event self view packet) w = Some ((next, (self', packet')), w') /\
    length packet' = 1416%nat /\ processed self w q ev evs next self' w' q' l t.
Proof.
  intros Hok Hpk Hw Hq Hheld Hview Ho. unfold process_event. cbv zeta.
  match goal with |- context [run_io (call _ ≫= ?f) w] =>
    destruct (read_step f w _ q ev evs view Hw Hq Hheld Hview) as (w1&q1&l1&->&Hpg1&Hw1&Hf1) end.
  set (max := Z.to_nat (max_datagram_bytes (config_ self))).
  assert (length (take max packet) = max) as Hout by (destruct (so_max _ Hok); rewrite length_take; lia).
  destruct (encode_encodable ev (session_id_ self) (packet_sequence_ self) (take max packet))
    as (encoded&output&Hencode&Hlo&Henc).
  rewrite Hout in Henc. unfold max in Henc. rewrite Z2Nat.id in Henc by (destruct (so_max _ Hok); lia). fold max in Henc.
  cbn [set_stats config_ session_id_ packet_sequence_]. fold max. rewrite Hencode. clear Hencode.
  assert (q_events q1 = ev :: (evs ++ log_published l1)) as Hq1 by (rewrite (fl_events _ _ _ Hf1), Hq; done).
  assert (q_held q1 = true) as Hheld1 by by rewrite (fl_held _ _ _ Hf1).
  match goal with |- context [run_io (call (on_ring (release (ingress_ (set_stats self ?st)))) ≫= ?f) w1] =>
    destruct (release_step f w1 _ q1 ev (evs ++ log_published l1)
                (Hw1 : world_repr ConsumerSide w1 (ingress_ (set_stats self st)) q1) Hq1 Hheld1)
      as (w2&h2&q2&l2&Hrun&Hpg2&Hw2&Hheld2&Hq2&Hcl2); rewrite Hrun; clear Hrun end.
  assert (Hlen' : length (output ++ drop max packet) = 1416%nat).
  { rewrite length_app, Hlo, Hout, length_drop. destruct (so_max _ Hok). lia. }
  assert (Htk : taken w q evs w2 q2 (l1 ++ l2) []).
  { split; [exact (progress_trans _ _ _ _ _ _ _ _ _ _ Hpg1 Hpg2)|done| |].
    - by rewrite log_published_app, app_assoc.
    - intros Hs. destruct (fl_closed _ _ _ Hf1 Hs) as [Hs1 Hp1]. destruct (Hcl2 Hs1) as [Hs2 Hp2].
      by rewrite log_published_app, Hp1, Hp2. }
  destruct (encodable _ _ _ ev) eqn:He.
  - destruct Henc as [-> Hdata]. cbv beta iota. rewrite Hdata.
    destruct (send_encoded_step self h2 ev evs (output ++ drop max packet) w q w2 q2 _ Hok Htk Hw2 He Ho)
      as (next&self'&w3&q3&l3&t&Hrun3&Hpr).
    by exists next, self', (output ++ drop max packet), w3, q3, l3, t.
  - destruct Henc as [e ->]. rewrite interp_ret.
    eexists _, _, _, w2, q2, (l1 ++ l2), (Turn ev []). split; [reflexivity|]. split; [done|].
    split; [exact (consumed_unencodable self h2 ev Hok He)|done..].
Qed.

(** ** One turn of the loop *)

(** What turns [ts] did to the sender. *)
Record advanced (self self' : Sender) (ts : list turn) : Prop := Advanced {
  ad_same : same_sender self self';
  ad_sends : turns_ok (max_datagram_bytes (config_ self)) (session_id_ self)
               (destinations_ self) (packet_sequence_ self) ts;
  ad_stats : stats_ self' = stats_after (max_datagram_bytes (config_ self)) (session_id_ self)
               (packet_sequence_ self) (stats_ self) ts;
  ad_sequence : packet_sequence_ self' = sequence_after (max_datagram_bytes (config_ self))
               (session_id_ self) (packet_sequence_ self) ts;
}.

Lemma stats_after_nil max sid seq st : sender_stats_ok st -> stats_after max sid seq st [] = st.
Proof.
  intros []. destruct st. unfold stats_after. cbn in *. by rewrite !wrap64_add0.
Qed.

Lemma advanced_nil self self' :
  sender_ok self -> same_sender self self' -> stats_ self' = stats_ self ->
  packet_sequence_ self' = packet_sequence_ self -> advanced self self' [].
Proof.
  intros [_ _ Hseq Hst] Hs Hstats Hsq. split; [done|done| |].
  - by rewrite stats_after_nil.
  - unfold sequence_after. cbn. rewrite Hsq. lia.
Qed.

Lemma consumed_advanced self ev next self' t :
  sender_ok self -> consumed self ev next self' t -> advanced self self' [t].
Proof.
  intros [_ _ Hseq _] [<- Hs Hsends Hst Hn Hsq]. split; try done.
  rewrite Hsq. unfold sequence_after. cbn [encoded_turns].
  destruct (encodable _ _ _ _); cbn [andb length]; [|lia].
  destruct (packet_sequence_ self =? u64_max) eqn:E; cbn [negb]; to_prop; lia.
Qed.

Lemma stats_after_ok max sid seq st ts : sender_stats_ok st -> sender_stats_ok (stats_after max sid seq st ts).
Proof. intros _. destruct st. split; cbn; by apply wrap_is_uint. Qed.

Lemma advanced_ok self self' ts : sender_ok self -> advanced self self' ts -> sender_ok self'.
Proof.
  intros [Hm Hs Hseq Hst] [[Hc _ _ _ Hsid] _ Hstats Hsq]. split.
  - by rewrite Hc.
  - by rewrite Hsid.
  - rewrite Hsq. unfold sequence_after. lia.
  - rewrite Hstats. by apply stats_after_ok.
Qed.

(** The outcome of a turn of the loop. *)
Record turned (self : Sender) (w : world W) (q : queue) (next : loop) (self' : Sender)
    (w' : world W) (q' : queue) (l : list (ring_op * ring_result)) (ts : list turn) : Prop :=
  Turned {
    tn_advanced : advanced self self' ts;
    tn_progress : progress env w w' l (sends ts);
    tn_time : (w_time w < w_time w')%nat;
    tn_repr : world_repr ConsumerSide w' (ingress_ self') q';
    tn_held : q_held q' = false;
    tn_events : q_events q ++ log_published l = map t_event ts ++ q_events q';
    tn_closed : q_state q = RingState_Closed -> q_state q' = RingState_Closed /\ log_published l = [];
    tn_break : next = Break -> w_stop w' = true \/
      (ts = [] /\ q_state q' = RingState_Closed /\ q_events q' = []);
    tn_continue : next = Continue ->
      packet_sequence_ self' = packet_sequence_ self +
        Z.of_nat (length (encoded_turns (max_datagram_bytes (config_ self)) (session_id_ self)
                            (packet_sequence_ self) ts));
    tn_stop : w_stop w || env_stop env (w_time w) = true -> next = Break;
    tn_length : (length ts <= 1)%nat;
    tn_busy : q_state q = RingState_Closed -> next = Continue -> length ts = 1%nat;
    tn_ok : Forall (fun t => event_ok (t_event t)) ts;
  }.

(** A turn up to the end of [try_acquire]: no stop was requested when it began. *)
Record polled (w : world W) (q : queue) (w2 : world W) (h2 : SpscRing) (q2 : queue)
    (l : list (ring_op * ring_result)) : Prop := Polled {
  po_progress : progress env w w2 l [];
  po_time : (w_time w < w_time w2)%nat;
  po_stop : w_stop w || env_stop env (w_time w) = false;
  po_repr : world_repr ConsumerSide w2 h2 q2;
  po_events : q_events q ++ log_published l = q_events q2;
  po_closed : q_state q = RingState_Closed -> q_state q2 = RingState_Closed /\ log_published l = [];
}.

Lemma sender_ok_ingress self h : sender_ok self -> sender_ok (set_ingress self h).
Proof. by intros []. Qed.

(** The turn of an event. *)
Lemma turned_event self packet w q w2 h2 q2 l view ev evs :
  sender_ok self -> length packet = 1416%nat -> polled w q w2 h2 q2 l ->
  q_events q2 = ev :: evs -> q_held q2 = true -> view = slot_view (q_config q2) (q_read q2) ev ->
  is_open (w_held w) (sender_socket_fd_ (udp_ self)) = true ->
  exists next self' packet' w' q' l' t,
    run_io (process_event (set_ingress self h2) view packet) w2 = Some ((next, (self', packet')), w') /\
    length packet' = 1416%nat /\ turned self w q next self' w' q' l' [t].
Proof.
  intros Hok Hpk [Hpg Ht Hst Hw2 Hev Hcl] Hq2 Hheld2 Hview Ho.
  pose proof (sender_ok_ingress self h2 Hok) as Hok2.
  destruct (process_event_step (set_ingress self h2) view packet w2 q2 ev evs Hok2 Hpk Hw2 Hq2
              Hheld2 Hview) as (next&self'&packet'&w3&q3&l3&t&->&Hpk'&[Hcons [Hpg3 Hh3 Hq3 Hcl3] Hbr Hw3]).
  { by rewrite (pg_held _ _ _ _ _ _ Hpg). }
  pose proof (progress_trans _ _ _ _ _ _ _ _ _ _ Hpg Hpg3) as Hpg'. cbn [app] in Hpg'.
  eexists _, self', _, w3, q3, (l ++ l3), t. split; [reflexivity|]. split; [done|].
  pose proof (consumed_advanced _ _ _ _ _ Hok2 Hcons) as [[] ? ? ?].
  destruct Hcons as [Hte _ _ _ Hnext Hseq]. pose proof (pg_time _ _ _ _ _ _ Hpg3).
  split; try done; try (cbn; lia).
  - unfold sends. simpl. by rewrite app_nil_r.
  - rewrite log_published_app, app_assoc, Hev, Hq2, Hq3. simpl. by rewrite Hte.
  - intros Hs. destruct (Hcl Hs) as [Hs2 Hp2]. destruct (Hcl3 Hs2) as [? Hp3].
    by rewrite log_published_app, Hp2, Hp3.
  - intros Hb. left. auto.
  - intros ->. rewrite Hseq. cbn [encoded_turns]. rewrite Hte.
    cbn [set_ingress config_ session_id_ packet_sequence_] in *.
    destruct (encodable _ _ _ _); cbn [andb length] in *; [|lia].
    destruct (_ =? u64_max); [done|]. cbn [negb]. lia.
  - by rewrite Hst.
  - constructor; [|done]. rewrite Hte.
    pose proof (queue_events _ (repr_ok _ _ (sys_segment _ _ Hw2))) as Hevs.
    rewrite Hq2 in Hevs. by apply Forall_cons in Hevs as [[? _] _].
Qed.

(** The turn of an empty ring: it ends the loop if the ring is closed. *)
Lemma turned_none self w q w2 h2 q2 l next w3 q3 l3 :
  sender_ok self -> polled w q w2 h2 q2 l -> q_events q2 = [] -> q_held q2 = false ->
  progress env w2 w3 l3 [] -> world_repr ConsumerSide w3 h2 q3 -> follows q2 q3 (log_published l3) ->
  (next = Break -> q_state q3 = RingState_Closed /\ q_events q3 = []) ->
  (next = Continue -> q_state q2 <> RingState_Closed) ->
  turned self w q next (set_ingress self h2) w3 q3 (l ++ l3) [].
Proof.
  intros Hok [Hpg Ht Hst Hw2 Hev Hcl] Hq2 Hheld2 Hpg3 Hw3 Hf3 Hbr Hct.
  pose proof (progress_trans _ _ _ _ _ _ _ _ _ _ Hpg Hpg3) as Hpg'. cbn [app] in Hpg'.
  pose proof (pg_time _ _ _ _ _ _ Hpg3). split; try done; try (cbn; lia).
  - by apply advanced_nil.
  - by rewrite (fl_held _ _ _ Hf3).
  - rewrite log_published_app, app_assoc, Hev. symmetry. apply Hf3.
  - intros Hs. destruct (Hcl Hs) as [Hs2 Hp2]. destruct (fl_closed _ _ _ Hf3 Hs2) as [? Hp3].
    by rewrite log_published_app, Hp2, Hp3.
  - intros Hb. right. by destruct (Hbr Hb).
  - by rewrite Hst.
  - intros Hs Hn. by destruct (Hct Hn), (Hcl Hs).
Qed.

(** Waiting a turn. *)
Lemma idle_step (spin : bool) w h q :
  world_repr ConsumerSide w h q ->
  exists w' q' l, run_io (if negb spin then call (sleep_for 1) else mret tt) w = Some (tt, w') /\
    progress env w w' l [] /\ world_repr ConsumerSide w' h q' /\ follows q q' (log_published l).
Proof.
  intros Hw. destruct spin; cbn [negb].
  - exists w, q, []. split; [done|]. split; [apply progress_refl|]. split; [done|apply follows_refl].
  - destruct (effect_step (sleep_for 1) (fun u => mret u) w h q Hw) as (w'&q'&l&Hrun&Hpg&_&_&Hw'&Hf).
    exists w', q', l. split; [exact Hrun|done].
Qed.

Lemma once_step self packet w q :
  sender_ok self -> length packet = 1416%nat ->
  world_repr ConsumerSide w (ingress_ self) q -> q_held q = false ->
  is_open (w_held w) (sender_socket_fd_ (udp_ self)) = true ->
  exists next self' packet' w' q' l ts,
    run_io (Sender_once self packet) w = Some ((next, (self', packet')), w') /\
    length packet' = 1416%nat /\ turned self w q next self' w' q' l ts.
Proof.
  intros Hok Hpk Hw Hheld Ho. unfold Sender_once.
  match goal with |- context [run_io (call stop_load ≫= ?f) w] =>
    destruct (effect_step stop_load f w _ q Hw) as (w1&q1&l1&->&Hpg1&Ht1&Hst1&Hw1&Hf1) end.
  cbn [perform mbind option_bind fst snd].
  assert (Hheld1 : q_held q1 = false) by by rewrite (fl_held _ _ _ Hf1).
  destruct (w_stop w1) eqn:Hstop.
  { rewrite interp_ret. eexists _, self, _, w1, q1, l1, []. split; [reflexivity|]. split; [done|].
    split; try done; try (cbn; lia); [by apply advanced_nil|by rewrite (fl_events _ _ _ Hf1)|apply Hf1|].
    intros _. by left. }
  match goal with |- context [run_io (call (on_ring (try_acquire _)) ≫= ?f) w1] =>
    destruct (acquire_step f w1 _ q1 Hw1 Hheld1) as (r&w2&h2&q2&l2&->&Hpg2&Hw2&He2&Hcl2&_&Hr) end.
  assert (Hpoll : polled w q w2 h2 q2 (l1 ++ l2)).
  { pose proof (pg_time _ _ _ _ _ _ Hpg2).
    split; [exact (progress_trans _ _ _ _ _ _ _ _ _ _ Hpg1 Hpg2)|lia|by rewrite <- Hst1|done| |].
    - rewrite log_published_app, app_assoc, He2. f_equal. symmetry. apply Hf1.
    - intros Hs. destruct (fl_closed _ _ _ Hf1 Hs) as [Hs1 Hp1]. destruct (Hcl2 Hs1) as [? Hp2].
      by rewrite log_published_app, Hp1, Hp2. }
  destruct r as [view|e].
  - destruct Hr as (ev&evs&Hq2&Hheld2&Hview).
    destruct (turned_event self packet w q w2 h2 q2 _ view ev evs Hok Hpk Hpoll Hq2 Hheld2 Hview Ho)
      as (next&self'&packet'&w3&q3&l3&t&Hrun&Hpk'&Htn).
    by exists next, self', packet', w3, q3, l3, [t].
  - destruct Hr as (Hq2&Hheld2&->). destruct (decide (q_state q2 = RingState_Closed)) as [Hc2|Hc2].
    + rewrite decide_False by done. rewrite decide_False by (intros []; done).
      rewrite interp_ret. eexists _, _, _, w2, q2, ((l1 ++ l2) ++ []), []. split; [reflexivity|].
      split; [done|]. eapply turned_none; try done; [apply progress_refl|apply follows_refl].
    + rewrite decide_True by done. rewrite interp_bind.
      destruct (idle_step (busy_spin_ingress (config_ (set_ingress self h2))) w2 h2 q2 Hw2)
        as (w3&q3&l3&->&Hpg3&Hw3&Hf3).
      cbn [mbind option_bind fst snd]. rewrite interp_ret.
      eexists _, _, _, w3, q3, ((l1 ++ l2) ++ l3), []. split; [reflexivity|]. split; [done|].
      by eapply turned_none.
Qed.

(** ** The whole loop *)

Lemma encoded_turns_app max sid seq a b :
  encoded_turns max sid seq (a ++ b) =
    encoded_turns max sid seq a ++
    encoded_turns max sid (seq + Z.of_nat (length (encoded_turns max sid seq a))) b.
Proof.
  revert seq. induction a as [|t a IH]; intros seq; simpl; [by rewrite Z.add_0_r|].
  case_bool; rewrite IH; [|done]. simpl. do 3 f_equal. lia.
Qed.

Lemma encoded_turns_length max sid seq ts : (length (encoded_turns max sid seq ts) <= length ts)%nat.
Proof.
  revert seq. induction ts as [|t ts IH]; intros seq; simpl; [lia|].
  case_bool; simpl; [pose proof (IH (seq + 1))|pose proof (IH seq)]; lia.
Qed.

Lemma turns_ok_app max sid dests seq a b :
  turns_ok max sid dests seq a ->
  turns_ok max sid dests (seq + Z.of_nat (length (encoded_turns max sid seq a))) b ->
  turns_ok max sid dests seq (a ++ b).
Proof.
  revert seq. induction a as [|t a IH]; intros seq; simpl; [by rewrite Z.add_0_r|].
  case_bool; intros [? Ha] Hb; (split; [done|]); apply IH; [done| |done|done].
  replace (seq + 1 + _) with (seq + Z.of_nat (length (t :: encoded_turns max sid (seq + 1) a)))
    by (simpl; lia). done.
Qed.

Lemma wrap64_add_add n a b c : c = a + b -> u64 (u64 (n + a) + b) = u64 (n + c).
Proof. intros ->. rewrite wrap_add_l. f_equal. lia. Qed.

Lemma stats_after_app max sid seq st a b :
  stats_after max sid (seq + Z.of_nat (length (encoded_turns max sid seq a)))
    (stats_after max sid seq st a) b = stats_after max sid seq st (a ++ b).
Proof.
  unfold stats_after, sends. rewrite encoded_turns_app, map_app, concat_app, !count_app, !length_app.
  destruct st. cbn.
  repeat match goal with |- context [u64 (u64 (?n + ?x) + ?y)] =>
    erewrite (wrap64_add_add n x y) by reflexivity end.
  f_equal; f_equal; lia.
Qed.

Lemma advanced_app self self1 self2 a b :
  advanced self self1 a -> advanced self1 self2 b ->
  packet_sequence_ self1 = packet_sequence_ self +
    Z.of_nat (length (encoded_turns (max_datagram_bytes (config_ self)) (session_id_ self)
                        (packet_sequence_ self) a)) ->
  advanced self self2 (a ++ b).
Proof.
  intros [[S1 S2 S3 S4 S5] A2 A3 A4] [[T1 T2 T3 T4 T5] B2 B3 B4] Hseq.
  rewrite S1, S4, S5, Hseq in *. split.
  - split; congruence.
  - by apply turns_ok_app.
  - rewrite B3, A3. apply stats_after_app.
  - rewrite B4. unfold sequence_after. rewrite encoded_turns_app, length_app. lia.
Qed.

Record ran (self : Sender) (w : world W) (q : queue) (ended : bool) (self' : Sender)
    (w' : world W) (q' : queue) (l : list (ring_op * ring_result)) (ts : list turn) : Prop := Ran {
  rn_advanced : advanced self self' ts;
  rn_progress : progress env w w' l (sends ts);
  rn_repr : world_repr ConsumerSide w' (ingress_ self') q';
  rn_held : q_held q' = false;
  rn_events : q_events q ++ log_published l = map t_event ts ++ q_events q';
  rn_closed : q_state q = RingState_Closed -> q_state q' = RingState_Closed /\ log_published l = [];
  rn_ended : ended = true -> w_stop w' = true \/
    (q_state q' = RingState_Closed /\ q_events q' = []);
  rn_ok : Forall (fun t => event_ok (t_event t)) ts;
  rn_bound : packet_sequence_ self + Z.of_nat (length (encoded_turns
    (max_datagram_bytes (config_ self)) (session_id_ self) (packet_sequence_ self) ts)) <= 2 ^ 64;
}.

Lemma sends_app a b : sends (a ++ b) = sends a ++ sends b.
Proof. unfold sends. by rewrite map_app, concat_app. Qed.

Lemma loop_runs fuel self packet w q :
  sender_ok self -> length packet = 1416%nat ->
  world_repr ConsumerSide w (ingress_ self) q -> q_held q = false ->
  is_open (w_held w) (sender_socket_fd_ (udp_ self)) = true ->
  exists ended self' w' q' l ts,
    run_io (Sender_loop fuel self packet) w = Some ((ended, self'), w') /\
    ran self w q ended self' w' q' l ts /\
    (stop_within env w fuel -> ended = true) /\
    (q_state q = RingState_Closed -> (length (q_events q) < fuel)%nat -> ended = true).
Proof.
  revert self packet w q. induction fuel as [|fuel IH]; intros self packet w q Hok Hpk Hw Hheld Ho.
  { exists false, self, w, q, [], []. split; [done|]. split; [split; try done|].
    - by apply advanced_nil.
    - apply progress_refl.
    - by rewrite app_nil_r.
    - destruct (so_sequence _ Hok). cbn. lia.
    - split; [|lia]. intros [[_ ?]|(t&?&_)]; lia. }
  cbn [Sender_loop]. rewrite interp_bind.
  destruct (once_step self packet w q Hok Hpk Hw Hheld Ho)
    as (next&self1&packet1&w1&q1&l1&ts1&->&Hpk1&[Hadv Hpg Ht Hw1 Hheld1 Hev Hcl Hbr Hct Hst Hlen Hbusy Hevok]).
  cbn [mbind option_bind fst snd]. destruct next.
  2: { rewrite decide_True by done. eexists true, self1, w1, q1, l1, ts1. split; [reflexivity|].
       split; [split; try done|done].
       - intros _. destruct (Hbr eq_refl) as [?|(?&?&?)]; auto.
       - pose proof (encoded_turns_length (max_datagram_bytes (config_ self)) (session_id_ self)
                       (packet_sequence_ self) ts1). destruct (so_sequence _ Hok). lia. }
  rewrite decide_False by done.
  pose proof (advanced_ok _ _ _ Hok Hadv) as Hok1. destruct (ad_same _ _ _ Hadv) as [_ _ Hudp _ _].
  destruct (IH self1 packet1 w1 q1 Hok1 Hpk1 Hw1 Hheld1)
    as (ended&self2&w2&q2&l2&ts2&Hrun&[Hadv2 Hpg2 Hw2 Hheld2 Hev2 Hcl2 Hend Hevok2 Hbound2]&Hstop2&Hdrain2).
  { by rewrite (pg_held _ _ _ _ _ _ Hpg), Hudp. }
  exists ended, self2, w2, q2, (l1 ++ l2), (ts1 ++ ts2). split; [exact Hrun|]. split; [split; try done|split].
  - eapply advanced_app; [done..|]. by apply Hct.
  - rewrite sends_app. exact (progress_trans _ _ _ _ _ _ _ _ _ _ Hpg Hpg2).
  - rewrite log_published_app, map_app, app_assoc, Hev, <- !app_assoc. by rewrite Hev2.
  - intros Hs. destruct (Hcl Hs) as [Hs1 Hp1]. destruct (Hcl2 Hs1) as [Hs2 Hp2].
    by rewrite log_published_app, Hp1, Hp2.
  - by apply Forall_app.
  - destruct (ad_same _ _ _ Hadv) as [Hcf _ _ _ Hsid]. rewrite Hcf, Hsid, (Hct eq_refl) in Hbound2.
    rewrite encoded_turns_app, length_app. lia.
  - intros Hs. apply Hstop2. eapply stop_within_next; [done..|].
    destruct (w_stop w || env_stop env (w_time w)); [by specialize (Hst eq_refl)|done].
  - intros Hs Hlt. destruct (Hcl Hs) as [Hs1 Hp1]. apply Hdrain2; [done|].
    specialize (Hbusy Hs eq_refl). rewrite Hp1, app_nil_r in Hev.
    apply (f_equal length) in Hev. rewrite length_app, length_map in Hev. lia.
Qed.
End Effects.

(** ** Properties *)

(** The sender may run: its peer is a producer on events of their types, its members obey
    their types, the segment represents a queue of which it holds nothing, and its socket
    is open. *)
Record sender_ready {W} (env : environment W) (self : Sender) (w : world W) (q : queue) : Prop :=
  SenderReady {
    rd_peer : forall t, Forall (peer_allowed ConsumerSide) (env_peer env t);
    rd_ok : sender_ok self;
    rd_repr : world_repr ConsumerSide w (ingress_ self) q;
    rd_held : q_held q = false;
    rd_socket : is_open (w_held w) (sender_socket_fd_ (udp_ self)) = true;
  }.

Lemma run_runs {W} (env : environment W) fuel self w q :
  sender_ready env self w q ->
  exists ended self' w' q' l ts,
    interp (engine_handler env) (Sender_run fuel self) w = Some ((ended, self'), w') /\
    ran env self w q ended self' w' q' l ts /\
    (stop_within env w fuel -> ended = true) /\
    (q_state q = RingState_Closed -> (length (q_events q) < fuel)%nat -> ended = true).
Proof. intros []. by apply loop_runs. Qed.

(** What is sent decodes. *)
Lemma turns_decode max sid dests seq ts :
  0 < sid < 2 ^ 32 -> max <= 1416 -> 1 <= seq ->
  seq + Z.of_nat (length (encoded_turns max sid seq ts)) <= 2 ^ 64 ->
  Forall (fun t => event_ok (t_event t)) ts -> turns_ok max sid dests seq ts ->
  Forall (fun s => exists k ev, In ev (map t_event ts) /\ Z.of_nat (length s.1.1) <= max /\
            seq <= k < seq + Z.of_nat (length (encoded_turns max sid seq ts)) /\
            map t_event (encoded_turns max sid seq ts) !! Z.to_nat (k - seq) = Some ev /\
            packet_ok sid k ev /\ s.1.1 = data_packet sid k ev)
    (sends ts).
Proof.
  intros Hsid Hmax. unfold sends. revert seq. induction ts as [|t ts IH]; intros seq Hseq Hb Hok; simpl; [done|].
  apply Forall_cons in Hok as [Hev Hok]. simpl in Hb.
  destruct (encodable max sid seq (t_event t)) eqn:He; simpl in Hb |- *; intros [Ht Hts]; apply Forall_app; split.
  - unfold encodable in He. to_prop. apply Forall_forall. intros s Hs.
    apply (list_elem_of_fmap_2 fst) in Hs. change (fst <$> t_sends t) with (map fst (t_sends t)) in Hs.
    rewrite Ht in Hs. apply list_elem_of_In, in_map_iff in Hs as (d&Hd&_).
    exists seq, (t_event t). rewrite <- Hd. cbn [fst].
    rewrite length_data_packet, Z.sub_diag. split_and!; try lia; [by left|done| |done].
    split; [split; [lia|uint]|split; [lia|uint]|by split|done].
  - eapply Forall_impl; [apply (IH (seq + 1)); [lia|lia|done|done]|]. intros s (k&ev&?&?&?&?&?&?).
    exists k, ev. replace (Z.to_nat (k - seq)) with (S (Z.to_nat (k - (seq + 1)))) by lia.
    split_and!; try done; [by right|lia|lia].
  - by rewrite Ht.
  - eapply Forall_impl; [apply (IH seq); [lia|lia|done|done]|]. intros s (k&ev&?&?&?&?&?&?).
    exists k, ev. split_and!; try done; [by right|lia|lia].
Qed.

(** The encoded turns are those with an encodable event, whatever the sequence. *)
Lemma encoded_filter max sid seq n ts :
  1 <= seq -> 1 <= n ->
  encoded_turns max sid seq ts = List.filter (fun t => encodable max sid n (t_event t)) ts.
Proof.
  intros Hseq Hn. revert seq Hseq. induction ts as [|t ts IH]; intros seq Hseq; [done|].
  cbn [encoded_turns List.filter].
  assert (encodable max sid seq (t_event t) = encodable max sid n (t_event t)) as ->.
  { unfold encodable. by rewrite (proj2 (Z.eqb_neq seq 0)), (proj2 (Z.eqb_neq n 0)) by lia. }
  by destruct (encodable max sid n (t_event t)); rewrite IH by lia.
Qed.

(** The other turns send nothing. *)
Lemma sends_encoded max sid dests seq ts :
  turns_ok max sid dests seq ts -> sends (encoded_turns max sid seq ts) = sends ts.
Proof.
  unfold sends. revert seq. induction ts as [|t ts IH]; intros seq; simpl; [done|].
  case_bool; intros [Ht Hts]; simpl; rewrite (IH _ Hts); [done|by rewrite Ht].
Qed.

Lemma count_out max sid dests seq ts :
  turns_ok max sid dests seq ts ->
  count (fun t => existsb send_ok (t_sends t)) (encoded_turns max sid seq ts) =
    count (fun t => existsb send_ok (t_sends t)) ts.
Proof.
  revert seq. induction ts as [|t ts IH]; intros seq; simpl; [done|].
  case_bool; intros [Ht Hts]; rewrite !count_cons, (IH _ Hts); [done|by rewrite Ht].
Qed.

(** What the [i]-th encoded turn sends. *)
Lemma turns_ok_lookup max sid dests seq ts i t :
  turns_ok max sid dests seq ts -> encoded_turns max sid seq ts !! i = Some t ->
  t ∈ ts /\ encodable max sid (seq + Z.of_nat i) (t_event t) = true /\
  map fst (t_sends t) = map (fun d => (data_packet sid (seq + Z.of_nat i) (t_event t), native d)) dests.
Proof.
  revert seq i. induction ts as [|t0 ts IH]; intros seq i; simpl; [done|].
  destruct (encodable max sid seq (t_event t0)) eqn:He; intros [Ht Hts].
  - destruct i as [|i]; simpl.
    + intros [= ->]. rewrite Z.add_0_r. split_and!; [by left|done..].
    + intros Hi. destruct (IH (seq + 1) i Hts Hi) as (?&?&?).
      replace (seq + Z.of_nat (S i)) with (seq + 1 + Z.of_nat i) by lia. split_and!; [by right|done..].
  - intros Hi. destruct (IH seq i Hts Hi) as (?&?&?). split_and!; [by right|done..].
Qed.

Lemma sent_image {A} (f : A -> list byte * sockaddr_in) dests (ss : list (list byte * sockaddr_in * sysret))
    data d0 :
  map fst ss = map f dests -> (forall d, (f d).1 = data) -> d0 ∈ ss -> d0.1.1 = data.
Proof.
  intros Hss Hf Hin. apply (list_elem_of_fmap_2 fst) in Hin. change (fst <$> ss) with (map fst ss) in Hin.
  rewrite Hss in Hin. apply list_elem_of_In, in_map_iff in Hin as (d&<-&_). apply Hf.
Qed.

(** The image of an encodable event decodes to it. *)
Lemma sent_decodes max sid k ev :
  0 < sid < 2 ^ 32 -> max <= 1416 -> 1 <= k -> k <= u64_max -> event_ok ev -> encodable max sid k ev = true ->
  packet_ok sid k ev /\ Z.of_nat (length (data_packet sid k ev)) <= max.
Proof.
  intros Hsid Hmax Hk Hb Hev He. unfold encodable in He. to_prop. rewrite length_data_packet.
  split; [|done]. split; [split; [lia|uint]|split; [lia|uint]|by split|done].
Qed.

(** C24. Whatever the producer, the system and the other threads do, the sender's loop never
    faults; it consumes the events of the ring in order, each once, leaving the rest in the
    ring; each encodable event is sent to every destination in order, failed sends
    included, as the wire image that carries the next packet sequence, and nothing else is
    sent. *)
Theorem sender_forwards_in_order {W} (env : environment W) fuel self w q :
  sender_ready env self w q ->
  exists ended self' w' q' l ts,
    interp (engine_handler env) (Sender_run fuel self) w = Some ((ended, self'), w') /\
    w_peer_log w' = w_peer_log w ++ l /\
    world_repr ConsumerSide w' (ingress_ self') q' /\
    q_events q ++ log_published l = map t_event ts ++ q_events q' /\
    w_sent w' = w_sent w ++ concat (map t_sends ts) /\
    turns_ok (max_datagram_bytes (config_ self)) (session_id_ self) (destinations_ self)
      (packet_sequence_ self) ts.
Proof.
  intros Hr. destruct (run_runs env fuel self w q Hr) as (e&s'&w'&q'&l&ts&Hrun&[[] [] ? ? ? ? ? ? ?]&_).
  by exists e, s', w', q', l, ts.
Qed.

(** The event of the turn can be encoded. *)
Definition encodes (self : Sender) (t : turn) : bool :=
  encodable (max_datagram_bytes (config_ self)) (session_id_ self) (packet_sequence_ self) (t_event t).

(** C25. The turns [ts] are the events the sender consumed, those of the ring in order.
    Nothing is sent but the datagrams of the encodable ones: each goes once to every
    destination, fits the configured size and is accepted by the decoder, which reads back
    the session, the packet sequence and that event with its payload. The sequences are
    consecutive from the sender's on; none is repeated or wraps. *)
Theorem sender_datagrams_decode {W} (env : environment W) fuel self w q :
  sender_ready env self w q ->
  exists ended self' w' q' l ts,
    interp (engine_handler env) (Sender_run fuel self) w = Some ((ended, self'), w') /\
    w_peer_log w' = w_peer_log w ++ l /\
    world_repr ConsumerSide w' (ingress_ self') q' /\
    q_events q ++ log_published l = map t_event ts ++ q_events q' /\
    let encoded := List.filter (encodes self) ts in
    w_sent w' = w_sent w ++ sends encoded /\
    forall i t, encoded !! i = Some t ->
      let k := packet_sequence_ self + Z.of_nat i in
      let decoded := decoded_view (session_id_ self) k (t_event t) in
      k <= u64_max /\ map (fun s => s.1.2) (t_sends t) = map native (destinations_ self) /\
      Forall (fun s => Z.of_nat (length s.1.1) <= max_datagram_bytes (config_ self) /\
        decode_data s.1.1 = Some (Value decoded) /\
        event_bytes s.1.1 (event decoded) = Some (t_event t)) (t_sends t).
Proof.
  intros Hr. destruct (run_runs env fuel self w q Hr)
    as (e&s'&w'&q'&l&ts&Hrun&[[_ Hts _ _] [] Hw' _ Hev _ _ Hok Hb]&_).
  destruct Hr as [_ [Hm Hs Hq _] _ _ _].
  exists e, s', w', q', l, ts. do 4 (split; [done|]). cbv zeta.
  pose proof (encoded_filter (max_datagram_bytes (config_ self)) (session_id_ self) (packet_sequence_ self)
    (packet_sequence_ self) ts ltac:(lia) ltac:(lia)) as Hf.
  fold (encodes self) in Hf. rewrite <- Hf.
  split; [by rewrite (sends_encoded _ _ _ _ _ Hts)|]. intros i t Ht.
  pose proof (lookup_lt_Some _ _ _ Ht). split; [lia|].
  destruct (turns_ok_lookup _ _ _ _ _ i t Hts Ht) as (Hin&He&Hsends).
  rewrite Forall_forall in Hok. specialize (Hok t Hin).
  split; [by apply (f_equal (map snd)) in Hsends; rewrite !map_map in Hsends|].
  apply Forall_forall. intros s Hsin.
  rewrite (sent_image _ _ _ _ s Hsends (fun _ => eq_refl) Hsin).
  edestruct sent_decodes as [Hpk Hl]; [exact Hs|exact (proj2 Hm)| | |exact Hok|exact He|]; [lia..|].
  split_and!; [done|by apply decode_data_packet|by apply decoded_event_bytes].
Qed.

(** C26. The counters, modulo their 64 bits, of the turns [ts], which are the events the
    sender consumed from the ring, in order, each with the [sendto] calls it led to, one to
    every destination for an encodable event and none for another: every event is counted
    in, and as out exactly when some destination accepted its datagram whole, otherwise as
    dropped; those that cannot be encoded are counted as such; every [sendto] is counted
    once, as a packet sent when it sent the whole datagram, otherwise as an error. *)
Theorem sender_accounting {W} (env : environment W) fuel self w q :
  sender_ready env self w q -> stats_ self = EngineStats_init ->
  exists ended self' w' q' l ts,
    interp (engine_handler env) (Sender_run fuel self) w = Some ((ended, self'), w') /\
    w_peer_log w' = w_peer_log w ++ l /\
    world_repr ConsumerSide w' (ingress_ self') q' /\
    q_events q ++ log_published l = map t_event ts ++ q_events q' /\
    w_sent w' = w_sent w ++ sends ts /\
    turns_ok (max_datagram_bytes (config_ self)) (session_id_ self) (destinations_ self)
      (packet_sequence_ self) ts /\
    let st := stats_ self' in
    let out t := existsb send_ok (t_sends t) in
    events_in st = u64 (Z.of_nat (length ts)) /\
    events_out st = u64 (count out ts) /\
    events_dropped st = u64 (count (fun t => negb (out t)) ts) /\
    encode_errors st = u64 (count (fun t => negb (encodes self t)) ts) /\
    packets_sent st = u64 (count send_ok (sends ts)) /\
    send_errors st = u64 (count (fun s => negb (send_ok s)) (sends ts)) /\
    ingress_errors st = 0.
Proof.
  intros Hr Hst. destruct (run_runs env fuel self w q Hr)
    as (e&s'&w'&q'&l&ts&Hrun&[[_ Hts Hstats _] [] Hw' _ Hev _ _ _ _]&_).
  pose proof (so_sequence _ (rd_ok _ _ _ _ Hr)) as Hq.
  exists e, s', w', q', l, ts. do 6 (split; [done|]). cbv zeta.
  rewrite Hstats, Hst. unfold stats_after. cbn. rewrite !Z.add_0_l.
  rewrite (count_out _ _ _ _ _ Hts).
  rewrite (encoded_filter _ _ _ (packet_sequence_ self)) by lia.
  pose proof (count_negb (fun t => existsb send_ok (t_sends t)) ts).
  pose proof (count_negb (encodes self) ts) as He. unfold count at 1 in He.
  fold (encodes self). split_and!; try done; f_equal; lia.
Qed.

(** C27. When the loop ends without a stop having been requested or the sequence used up,
    the producer has closed the ring and nothing is left in it: every event it published
    has been consumed. *)
Theorem sender_drains {W} (env : environment W) fuel self w q :
  sender_ready env self w q ->
  exists ended self' w' q' l ts,
    interp (engine_handler env) (Sender_run fuel self) w = Some ((ended, self'), w') /\
    w_peer_log w' = w_peer_log w ++ l /\
    world_repr ConsumerSide w' (ingress_ self') q' /\
    w_sent w' = w_sent w ++ concat (map t_sends ts) /\
    (ended = true -> w_stop w' = false ->
       q_state q' = RingState_Closed /\ q_events q' = [] /\
       q_events q ++ log_published l = map t_event ts).
Proof.
  intros Hr. destruct (run_runs env fuel self w q Hr)
    as (e&s'&w'&q'&l&ts&Hrun&[[] [] ? ? Hev ? Hend ? ?]&_).
  exists e, s', w', q', l, ts. split_and!; try done.
  intros He Hs. destruct (Hend He) as [|[Hc Hq]]; [congruence|].
  split_and!; [done..|]. by rewrite Hev, Hq, app_nil_r.
Qed.

(** C28. Termination: the loop ends within [fuel] turns if a stop was requested before or is
    requested within that many steps, and also if the producer had closed the ring and
    fewer than [fuel] events are left in it. *)
Theorem sender_terminates {W} (env : environment W) fuel self w q :
  sender_ready env self w q ->
  stop_within env w fuel \/
    (q_state q = RingState_Closed /\ (length (q_events q) < fuel)%nat) ->
  exists self' w',
    interp (engine_handler env) (Sender_run fuel self) w = Some ((true, self'), w').
Proof.
  intros Hr Hfuel. destruct (run_runs env fuel self w q Hr)
    as (e&s'&w'&q'&l&ts&Hrun&_&Hstop&Hdrain).
  exists s', w'. assert (e = true) as -> by tauto. done.
Qed.

(** ** A concrete run *)

(** The producer publishes two events, the second without a sequence, and closes. *)
Definition demo_env : environment unit :=
  Environment (demo_system []) (fun _ => false)
    (fun t => match t with
              | 0%nat => [OpPublish (demo_event 1)]
              | 3%nat => [OpPublish (demo_event 0); OpClose]
              | _ => []
              end).

Definition demo_sender : Sender :=
  SenderOf SenderConfig_default Segment_default (sys_consumer demo_sys) (UdpSnd 3)
    [UdpAddr (SockAddr AF_INET 5000 1); UdpAddr (SockAddr AF_INET 5000 2)] 7 1 EngineStats_init.

Definition demo_world : world unit :=
  World tt (open_fd no_resources 3) 0 false (sys_bytes demo_sys) (sys_producer demo_sys) [] [] [].

Lemma demo_sender_ready : sender_ready demo_env demo_sender demo_world (empty_queue demo_config).
Proof.
  split; try done.
  - assert (forall n, is_uint 64 n -> peer_allowed ConsumerSide (OpPublish (demo_event n))) as Hp
      by (intros n Hn; split; [done|by apply demo_event_ok]).
    intros [|[|[|[|t]]]]; cbn [demo_env env_peer];
      repeat (apply Forall_cons; split; [first [by apply Hp|by split]|]); done.
  - apply demo_sys_repr.
Qed.

Definition demo_run := interp (engine_handler demo_env) (Sender_run 10 demo_sender) demo_world.

(** The first event goes to both destinations, the second cannot be encoded, and the loop
    ends when the ring is closed and empty. *)
Example demo_run_result :
  (fun r => (r.1.1, packet_sequence_ r.1.2, events_in (stats_ r.1.2), events_out (stats_ r.1.2),
             events_dropped (stats_ r.1.2), encode_errors (stats_ r.1.2),
             map (fun s => snd s.1) (w_sent r.2))) <$> demo_run =
    Some (true, 2, 2, 1, 1, 1, [SockAddr AF_INET 5000 1; SockAddr AF_INET 5000 2]).
Proof. vm_compute. reflexivity. Qed.

Lemma sender_forwards_in_order_witness :
  exists ended self' w' q' l ts,
    demo_run = Some ((ended, self'), w') /\ w_peer_log w' = l /\
    world_repr ConsumerSide w' (ingress_ self') q' /\
    log_published l = map t_event ts ++ q_events q' /\
    w_sent w' = concat (map t_sends ts) /\
    turns_ok 1416 7 (destinations_ demo_sender) 1 ts.
Proof. exact (sender_forwards_in_order demo_env 10 demo_sender demo_world _ demo_sender_ready). Defined.

Lemma sender_datagrams_decode_witness :
  exists ended self' w' q' l ts, demo_run = Some ((ended, self'), w') /\ w_peer_log w' = l /\
    world_repr ConsumerSide w' (ingress_ self') q' /\
    log_published l = map t_event ts ++ q_events q' /\
    let encoded := List.filter (encodes demo_sender) ts in
    w_sent w' = sends encoded /\
    forall i t, encoded !! i = Some t ->
      let k := 1 + Z.of_nat i in
      k <= u64_max /\
      map (fun s => s.1.2) (t_sends t) = [SockAddr AF_INET 5000 1; SockAddr AF_INET 5000 2] /\
      Forall (fun s => Z.of_nat (length s.1.1) <= 1416 /\
        decode_data s.1.1 = Some (Value (decoded_view 7 k (t_event t))) /\
        event_bytes s.1.1 (event (decoded_view 7 k (t_event t))) = Some (t_event t)) (t_sends t).
Proof. exact (sender_datagrams_decode demo_env 10 demo_sender demo_world _ demo_sender_ready). Defined.

Lemma sender_accounting_witness :
  exists ended self' w' q' l ts, demo_run = Some ((ended, self'), w') /\ w_peer_log w' = l /\
    world_repr ConsumerSide w' (ingress_ self') q' /\
    log_published l = map t_event ts ++ q_events q' /\ w_sent w' = sends ts /\
    turns_ok 1416 7 (destinations_ demo_sender) 1 ts /\
    let st := stats_ self' in
    let out t := existsb send_ok (t_sends t) in
    events_in st = u64 (Z.of_nat (length ts)) /\ events_out st = u64 (count out ts) /\
    events_dropped st = u64 (count (fun t => negb (out t)) ts) /\
    encode_errors st = u64 (count (fun t => negb (encodes demo_sender t)) ts) /\
    packets_sent st = u64 (count send_ok (sends ts)) /\
    send_errors st = u64 (count (fun s => negb (send_ok s)) (sends ts)) /\
    ingress_errors st = 0.
Proof.
  exact (sender_accounting demo_env 10 demo_sender demo_world _ demo_sender_ready eq_refl).
Defined.

Lemma sender_drains_witness :
  exists ended self' w' q' l ts,
    demo_run = Some ((ended, self'), w') /\ w_peer_log w' = l /\
    world_repr ConsumerSide w' (ingress_ self') q' /\ w_sent w' = concat (map t_sends ts) /\
    (ended = true -> w_stop w' = false ->
       q_state q' = RingState_Closed /\ q_events q' = [] /\ log_published l = map t_event ts).
Proof. exact (sender_drains demo_env 10 demo_sender demo_world _ demo_sender_ready). Defined.

(** With a stop requested at the fifth step. *)
Definition demo_stop_env : environment unit :=
  Environment (demo_system []) (fun t => Nat.eqb t 5) (env_peer demo_env).

Lemma sender_terminates_witness :
  exists self' w', interp (engine_handler demo_stop_env) (Sender_run 10 demo_sender) demo_world =
    Some ((true, self'), w').
Proof.
  refine (sender_terminates demo_stop_env 10 demo_sender demo_world (empty_queue demo_config) _ _).
  - destruct demo_sender_ready. by split.
  - left. right. exists 5%nat. split; [cbn; lia|done].
Defined.
