(* ===== verification/SenderConcurrent.v ===== *)
(** * The sender beside a concurrent producer

    The sender's loop keeps to the interface of the ring, so the refinement theorem of
    [EngineWeak] applies: what [SenderSpec] proves in every environment holds when another
    process publishes at the same time, access by access, under release/acquire memory. *)

From S2P Require Import Prelude Bytes Event Protocol Memory RingLayout Ring RingSpec RingRefinement.
From S2P Require Import RingInit.
From S2P Require Import RingSystem Weak RingWeakSpec RingHistory RingConcurrent Posix Udp Segment Config.
From S2P Require Import Engine EngineWeak Sender SenderSpec.

(** ** The loop keeps to the interface *)

Lemma send_to_all_consumes self datagram destinations b Q h v :
  (forall b' self', ingress_ self' = ingress_ self -> Q (b', self') h v) ->
  consumes Q h v (send_to_all self datagram destinations b).
Proof.
  revert self b. induction destinations as [|d ds IH]; intros self b HQ; [by apply consumes_done, HQ|].
  cbn [send_to_all]. apply consumes_bind, consumes_syscalls. intros sent.
  destruct (has_value sent); apply IH; intros b' self' Hin; by apply HQ.
Qed.

Lemma process_event_consumes self view packet Q :
  (forall next self' packet' h, ingress_ self' = h -> Q (next, (self', packet')) h None) ->
  consumes Q (ingress_ self) (Some view) (process_event self view packet).
Proof.
  intros HQ. unfold process_event. cbv zeta. apply consumes_read. intros ev. cbn [io_bind].
  destruct (encode_data _ _ _ _) as [[encoded output]|]; [|by apply consumes_undefined].
  apply consumes_release. intros b h'. cbn [io_bind].
  destruct encoded as [size|e]; [|by apply consumes_done, HQ].
  apply consumes_bind, send_to_all_consumes. intros sent self' Hin.
  case_bool; [apply consumes_call; [done|intros _]|]; by apply consumes_done, HQ.
Qed.

Lemma Sender_once_consumes self packet Q :
  (forall next self' packet' h, ingress_ self' = h -> Q (next, (self', packet')) h None) ->
  consumes Q (ingress_ self) None (Sender_once self packet).
Proof.
  intros HQ. unfold Sender_once. apply consumes_call; [done|]. intros [|]; [by apply consumes_done, HQ|].
  apply consumes_acquire. intros r h'. cbn [io_bind].
  destruct r as [view|e]; [by apply (process_event_consumes (set_ingress self h'))|].
  destruct (decide (e = AcquireError_Empty)).
  - apply consumes_bind. destruct (negb _); [apply consumes_call; [done|intros u]|]; by apply consumes_done, consumes_done, HQ.
  - destruct (decide _); by apply consumes_done, HQ.
Qed.

Lemma Sender_run_consumes fuel self : consumes (fun _ _ _ => True) (ingress_ self) None (Sender_run fuel self).
Proof.
  unfold Sender_run. generalize (replicate (Z.to_nat kMaxPacketBytes) Byte.x00) as packet. revert self.
  induction fuel as [|fuel IH]; intros self packet; [by apply consumes_done|]. cbn [Sender_loop].
  apply consumes_bind, Sender_once_consumes. intros next self' packet' h Hh. subst h.
  destruct (decide (next = Break)); [by apply consumes_done|apply IH].
Qed.

(** The loop runs to its end in every environment. *)
Lemma sender_ready_with {W} (env : environment W) self w q g :
  sender_ready env self w q -> allowed ConsumerSide g -> sender_ready (with_peer env g) self w q.
Proof. intros [] Hg. by split. Qed.

Lemma sender_defined {W} (env : environment W) fuel self w q :
  sender_ready env self w q -> defined env ConsumerSide (Sender_run fuel self) w.
Proof.
  intros Hr g Hg. destruct (run_runs (with_peer env g) fuel self w q (sender_ready_with _ _ _ _ _ Hr Hg))
    as (e&s'&w'&q'&l&ts&Hrun&_). unfold run_with. by rewrite Hrun.
Qed.

(** ** Executions *)

Section Beside.
Context {W : Type} (env : environment W) (fuel : nat) (self : Sender) (u : world W) (q : queue).
Context (Hr : sender_ready env self u q) (Huse : in_use q).
Context (ops : list ring_op) (Hok : Forall op_ok ops) (Hops : forallb producer_op ops = true).

Lemma sender_beside_completes schedule : completes schedule (beside_producer env (Sender_run fuel self) u ops).
Proof using All.
  pose proof (rd_repr _ _ _ _ Hr) as Hs. pose proof (repr_valid _ _ (sys_segment _ _ Hs)) as Hv. cbn in Hv.
  eapply safe_completes; [exact Hv|]. eapply beside_producer_safe; try done.
  - eexists. apply Sender_run_consumes.
  - by eapply sender_defined.
Qed.

(** A finished execution is a run of [SenderSpec], beside a producer whose events are the
    first of those published. *)
Lemma sender_beside_finished schedule s rs hp' ended self' w' :
  execute schedule (beside_producer env (Sender_run fuel self) u ops) = Some s ->
  finished_with s (rs, hp') ((ended, self'), w') ->
  exists g u' q' log ts rest, ran (with_peer env g) self u q ended self' u' q' log ts /\
    locally w' u' /\ published ops rs = log_published log ++ rest /\
    (q_state q' = RingState_Closed -> rest = []).
Proof using All.
  intros Hrun Hfin.
  destruct (beside_producer_finished env (Sender_run fuel self) u (ingress_ self) q Huse
    (ex_intro _ _ (Sender_run_consumes fuel self)) (sender_defined env fuel self u q Hr) (rd_repr _ _ _ _ Hr)
    ops Hok Hops schedule s rs hp' (ended, self') w' Hrun Hfin)
    as (Hl&log&rest&qf&(g&u'&h&Hg&Hengine&Hu'&Hlog&Hqf)&Hsuc&Hclosed).
  destruct (run_runs (with_peer env g) fuel self u q (sender_ready_with _ _ _ _ _ Hr Hg))
    as (e&self2&u2&q2&l&ts&Hrun2&Hran&_).
  unfold run_with in Hengine. rewrite Hrun2 in Hengine. injection Hengine as -> -> ->.
  pose proof (pg_log _ _ _ _ _ _ (rn_progress _ _ _ _ _ _ _ _ _ _ Hran)) as Hl2.
  rewrite Hlog in Hl2. apply app_inv_head in Hl2 as <-.
  exists g, u', q2, log, ts, (published_in rest). split; [done|]. split; [done|]. split.
  - rewrite <- (published_in_zip ops rs Hl), <- published_successes, Hsuc. apply published_in_app.
  - destruct (ring_repr_content _ _ _ (sys_segment _ _ Hqf)
      (sys_segment _ _ (rn_repr _ _ _ _ _ _ _ _ _ _ Hran))) as (_&Hst&_&_). by rewrite <- Hst.
Qed.
End Beside.

(** C8. A sender beside a concurrent producer, access by access, under release/acquire memory:
    no execution has undefined behaviour, and every one can be continued until both have
    finished. When they have, the sender has consumed the pending and published events in
    order, each once, a tail left out; it has sent each encodable one to every destination
    with the next packet sequence, and nothing else; and the tail is empty when the loop
    ended without a stop. *)
Theorem sender_forwards_concurrently {W} (env : environment W) fuel self u q ops schedule :
  sender_ready env self u q -> in_use q -> Forall op_ok ops -> forallb producer_op ops = true ->
  completes schedule (beside_producer env (Sender_run fuel self) u ops) /\
  forall s rs hp' ended self' w',
    execute schedule (beside_producer env (Sender_run fuel self) u ops) = Some s ->
    finished_with s (rs, hp') ((ended, self'), w') ->
    exists ts left, q_events q ++ published ops rs = map t_event ts ++ left /\
      w_sent w' = w_sent u ++ concat (map t_sends ts) /\
      turns_ok (max_datagram_bytes (config_ self)) (session_id_ self) (destinations_ self)
        (packet_sequence_ self) ts /\
      (ended = true -> w_stop w' = false -> left = []).
Proof.
  intros Hr Huse Hok Hops. split; [by eapply sender_beside_completes|].
  intros s rs hp' ended self' w' Hrun Hfin.
  destruct (sender_beside_finished env fuel self u q Hr Huse ops Hok Hops schedule s rs hp' ended self' w' Hrun Hfin)
    as (g&u'&q'&log&ts&rest&[[] [] _ _ Hev _ Hend _ _]&Hu'&Hpub&Hrest).
  destruct (locally_same _ _ Hu') as (Hstop&Hsent&_).
  exists ts, (q_events q' ++ rest). split; [by rewrite Hpub, !app_assoc, Hev|].
  split; [by rewrite <- Hsent|]. split; [done|]. intros He Hs.
  destruct (Hend He) as [?|[Hc ->]]; [congruence|by rewrite Hrest].
Qed.

(** ** A concrete execution *)

(** The demo sender beside the producer of [RingConcurrent], in lockstep; it reads the newest
    messages. *)
Definition demo_schedule : list (thread * nat) := demo_lockstep 9 ++ demo_lockstep 9.

Abbreviation demo_beside := (beside_producer demo_env (Sender_run 10 demo_sender) demo_world demo_publications).

Definition demo_published : list ring_result :=
  [ResPublish PublishResult_Ok; ResPublish PublishResult_Ok; ResPublish PublishResult_Ok; ResClose true].

(** Both finish; three events went to two destinations. *)
Example demo_sender_results :
  (fun r => (r.1.1, r.2.1.1, packet_sequence_ r.2.1.2, w_stop r.2.2, length (w_sent r.2.2))) <$>
    (execute demo_schedule demo_beside ≫= outcome) = Some (demo_published, true, 4, false, 6%nat).
Proof. vm_compute. reflexivity. Qed.

Lemma demo_sender_finished :
  exists s hp' self' w', execute demo_schedule demo_beside = Some s /\
    finished_with s (demo_published, hp') ((true, self'), w') /\ w_stop w' = false.
Proof.
  pose proof demo_sender_results as Hres.
  destruct (execute demo_schedule demo_beside) as [s|]; [|discriminate Hres]. cbn [mbind option_bind] in Hres.
  destruct (outcome s) as [[[rs hp'] [[ended self'] w']]|] eqn:Hout; [|discriminate Hres].
  injection Hres as -> -> _ Hstop _. exists s, hp', self', w'. split; [reflexivity|].
  split; [by apply outcome_finished|exact Hstop].
Qed.

Lemma sender_forwards_concurrently_witness :
  completes demo_schedule demo_beside /\
  exists s hp' self' w' ts, execute demo_schedule demo_beside = Some s /\
    finished_with s (demo_published, hp') ((true, self'), w') /\
    map t_event ts = [demo_event 1; demo_event 2; demo_event 3] /\
    w_sent w' = concat (map t_sends ts) /\ turns_ok 1416 7 (destinations_ demo_sender) 1 ts.
Proof.
  destruct (sender_forwards_concurrently demo_env 10 demo_sender demo_world _ demo_publications demo_schedule
    demo_sender_ready (or_introl eq_refl) demo_publications_ok eq_refl) as [Hc Hf].
  split; [exact Hc|]. destruct demo_sender_finished as (s&hp'&self'&w'&Hrun&Hfin&Hstop).
  destruct (Hf s demo_published hp' true self' w' Hrun Hfin) as (ts&left&Hev&Hsent&Hts&Hleft).
  exists s, hp', self', w', ts. rewrite (Hleft eq_refl Hstop), app_nil_r in Hev.
  split; [exact Hrun|]. split; [exact Hfin|]. split; [symmetry; exact Hev|]. split; [exact Hsent|exact Hts].
Defined.
