(* ===== verification/Receiver.v ===== *)
(** * The receiver

    [src/include/lle/receiver.hpp] and [src/src/receiver/receiver.cpp]: start-up, the loop
    that turns datagrams into ring events, the move constructor and the destructor. The
    loop is a program of [Engine] effects; [ReceiverSpec] states and proves what it does in
    any environment. *)

From S2P Require Import Prelude Bytes Event Protocol GapDetector Memory RingLayout Ring Posix Udp.
From S2P Require Import Segment Config RingSystem Engine.

Record Receiver := ReceiverOf {
  config_ : ReceiverConfig;
  segment_ : SharedMemorySegment;
  egress_ : SpscRing;
  udp_ : UdpReceiver;
  stats_ : EngineStats;
  gap_detector_ : GapDetector;
}.

(** Assignments to the members the loop changes. *)
Definition set_stats (self : Receiver) (stats : EngineStats) : Receiver :=
  ReceiverOf (config_ self) (segment_ self) (egress_ self) (udp_ self) stats (gap_detector_ self).
Definition set_egress (self : Receiver) (egress : SpscRing) : Receiver :=
  ReceiverOf (config_ self) (segment_ self) egress (udp_ self) (stats_ self) (gap_detector_ self).
Definition set_detector (self : Receiver) (detector : GapDetector) : Receiver :=
  ReceiverOf (config_ self) (segment_ self) (egress_ self) (udp_ self) (stats_ self) detector.

Definition local_port (self : Receiver) : Z := local_port_ (udp_ self).

(** ** The loop *)

(** The counters of a rejected packet. *)
Definition count_rejected (stats : EngineStats) (status : PacketStatus) : EngineStats :=
  let stats :=
    if decide (status = PacketStatus_DuplicateOrOld)
    then stats{{ duplicate_or_old_packets := incr (duplicate_or_old_packets stats) }}
    else stats{{ wrong_session_packets := incr (wrong_session_packets stats) }} in
  stats{{ events_dropped := incr (events_dropped stats) }}.

(** The counters of an accepted packet, before its event is published. *)
Definition count_accepted (stats : EngineStats) (checked : CheckResult) : EngineStats :=
  let stats :=
    if 0 <? gap checked
    then stats{{ gaps_detected := incr (gaps_detected stats);
                 packets_missed := u64 (packets_missed stats + gap checked) }}
    else stats in
  stats{{ events_in := incr (events_in stats) }}.

(** The counters of a publication. *)
Definition count_published (stats : EngineStats) (published : PublishResult) : EngineStats :=
  if decide (published = PublishResult_Ok)
  then stats{{ events_out := incr (events_out stats) }}
  else
    let stats := stats{{ events_dropped := incr (events_dropped stats) }} in
    if decide (published = PublishResult_Full)
    then stats{{ egress_full := incr (egress_full stats) }}
    else stats{{ egress_errors := incr (egress_errors stats) }}.

(** The body after a successful [receive]; [datagram] are the received bytes. *)
Definition process_datagram (self : Receiver) (datagram : list byte) : io engine (loop * Receiver) :=
  let stats := stats_ self in
  let self := set_stats self (stats{{ packets_received := incr (packets_received stats) }}) in
  match decode_data datagram with
  | None => call undefined
  | Some (Unexpected _) =>
      let stats := stats_ self in
      mret (Continue, set_stats self (stats{{ malformed_packets := incr (malformed_packets stats) }}))
  | Some (Value decoded) =>
      let '(checked, detector) :=
        check (gap_detector_ self) (session_id decoded) (packet_sequence decoded) in
      let self := set_detector self detector in
      if decide (status checked <> PacketStatus_Accepted)
      then mret (Continue, set_stats self (count_rejected (stats_ self) (status checked)))
      else
        let self := set_stats self (count_accepted (stats_ self) checked) in
        match event_bytes datagram (event decoded) with
        | None => call undefined
        | Some ev =>
            published ← call (on_ring (try_publish (egress_ self) ev));
            let '(result, egress) := published in
            let self := set_egress self egress in
            let self := set_stats self (count_published (stats_ self) result) in
            mret (if decide (result = PublishResult_Closed) then Break else Continue, self)
        end
  end.

Definition receive_timeout_ms : Z := 10.

(** One turn of the loop. *)
Definition Receiver_once (self : Receiver) (packet : list byte) :
    io engine (loop * (Receiver * list byte)) :=
  stop_requested ← call stop_load;
  if (stop_requested : bool) then mret (Break, (self, packet)) else
  received ← syscalls (receive (udp_ self) packet receive_timeout_ms);
  let '(datagram, packet) := received in
  match datagram with
  | Unexpected error =>
      if bool_decide (code error = UdpErrorCode_Timeout) || (error_number error =? EINTR)
      then mret (Continue, (self, packet)) else
      let stats := stats_ self in
      if decide (code error = UdpErrorCode_DatagramTooLarge) then
        mret (Continue,
          (set_stats self (stats{{ packets_received := incr (packets_received stats);
                                   malformed_packets := incr (malformed_packets stats) }}), packet))
      else
        mret (Break,
          (set_stats self (stats{{ receive_errors := incr (receive_errors stats) }}), packet))
  | Value datagram =>
      if Z.of_nat (length packet) <? size datagram then call undefined else
      processed ← process_datagram self (take (Z.to_nat (size datagram)) packet);
      mret (processed.1, (processed.2, packet))
  end.

(** At most [fuel] turns; the result says whether the loop has ended. *)
Fixpoint Receiver_loop (fuel : nat) (self : Receiver) (packet : list byte) :
    io engine (bool * Receiver) :=
  match fuel with
  | O => mret (false, self)
  | S fuel =>
      turn ← Receiver_once self packet;
      let '(next, (self, packet)) := turn in
      if decide (next = Break) then mret (true, self) else Receiver_loop fuel self packet
  end.

(** The ring is closed when the loop has ended. *)
Definition Receiver_run (fuel : nat) (self : Receiver) : io engine (bool * Receiver) :=
  ran ← Receiver_loop fuel self (replicate (Z.to_nat kMaxPacketBytes) Byte.x00);
  let '(ended, self) := ran in
  if (ended : bool) then call (on_ring (close_publication (egress_ self)));; mret (true, self)
  else mret (false, self).

Definition Receiver_request_stop : io engine unit := call (stop_store true).

Definition Receiver_stats (self : Receiver) : EngineStats := stats_ self.

(** ** Construction and destruction *)

(** The private constructor. *)
Definition Receiver_construct (config : ReceiverConfig) (segment : SharedMemorySegment)
    (egress : SpscRing) (udp : UdpReceiver) : Receiver :=
  ReceiverOf config (Segment_move segment).1 (SpscRing_move egress).1 (UdpReceiver_move udp).1
    EngineStats_init GapDetector_init.

(** The move constructor, on the receiver and its stop flag. *)
Definition Receiver_move (other : Receiver) (stop_requested : bool) :
    (Receiver * bool) * (Receiver * bool) :=
  ((ReceiverOf (config_ other) (Segment_move (segment_ other)).1 (SpscRing_move (egress_ other)).1
      (UdpReceiver_move (udp_ other)).1 (stats_ other) (gap_detector_ other), stop_requested),
   (ReceiverOf (ReceiverConfig_moved (config_ other)) (Segment_move (segment_ other)).2 (SpscRing_move (egress_ other)).2
      (UdpReceiver_move (udp_ other)).2 (stats_ other) (gap_detector_ other), true)).

(** The destructor; then the members, in reverse order of declaration. *)
Definition Receiver_destroy (self : Receiver) : io engine unit :=
  segment ←
    (if owner_ (segment_ self) then
       call (on_ring (close_publication (egress_ self)));;
       unlinked ← syscalls (unlink (segment_ self)); mret unlinked.2
     else mret (segment_ self));
  syscalls (UdpReceiver_destroy (udp_ self));; syscalls (Segment_destroy segment);; mret tt.

Definition invalid_receiver_config (config : ReceiverConfig) : bool :=
  bool_decide (egress_shm_name config = EmptyString)
  || negb (bool_decide (receiver_delivery_mode config = DeliveryMode_BestEffort))
  || negb (receiver_cpu config =? -1) || negb (busy_poll_us config =? 0).

(** The listen address; an empty text means all local addresses. *)
Definition listen_address (inet_pton : string -> option Z) (endpoint : Endpoint) :
    option UdpAddress :=
  let text := if decide (address endpoint = EmptyString) then "0.0.0.0"%string
              else c_str (address endpoint) in
  (fun addr => UdpAddr (SockAddr AF_INET (port endpoint) addr)) <$> inet_pton text.

(** The segment exists: initialize the ring in it, or remove it again. *)
Definition initialize_egress (config : ReceiverConfig) (segment : SharedMemorySegment)
    (udp : UdpReceiver) (instance_id : Z) : io engine (expected Receiver InitError) :=
  let '(data, size) := segment_bytes segment in
  egress ← call (on_ring (initialize (Memory data size) (egress_ring config) instance_id));
  match egress with
  | Unexpected _ =>
      unlinked ← syscalls (unlink segment);
      syscalls (Segment_destroy unlinked.2);; syscalls (UdpReceiver_destroy udp);;
      mret (Unexpected InitError_Ring)
  | Value egress => mret (Value (Receiver_construct config segment egress udp))
  end.

(** [None]: [getrandom] kept being interrupted for [fuel] turns. Destructors of the
    locals run on every early return, in reverse order. *)
Definition Receiver_initialize (inet_pton : string -> option Z) (fuel : nat)
    (config : ReceiverConfig) : io engine (option (expected Receiver InitError)) :=
  if invalid_receiver_config config then mret (Some (Unexpected InitError_InvalidConfig)) else
  match required_bytes (egress_ring config) with
  | Unexpected _ => mret (Some (Unexpected InitError_InvalidConfig))
  | Value bytes =>
      match listen_address inet_pton (listen config) with
      | None => mret (Some (Unexpected InitError_AddressResolution))
      | Some listen =>
          bound ← syscalls (UdpReceiver_bind listen);
          match bound with
          | Unexpected _ => mret (Some (Unexpected InitError_Socket))
          | Value udp =>
              instance_id ← syscalls (choose_id 8 fuel);
              match instance_id with
              | None => mret None
              | Some (Unexpected _) =>
                  syscalls (UdpReceiver_destroy udp);; mret (Some (Unexpected InitError_Ring))
              | Some (Value instance_id) =>
                  created ← syscalls (create_shm (egress_shm_name config) bytes);
                  match created with
                  | Unexpected _ =>
                      syscalls (UdpReceiver_destroy udp);;
                      mret (Some (Unexpected InitError_SharedMemory))
                  | Value segment =>
                      initialized ← initialize_egress config segment udp instance_id;
                      mret (Some initialized)
                  end
              end
          end
      end
  end.
