(* ===== verification/ReceiverSpec.v ===== *)
(** * What the receiver does

    The receiver's loop, in any environment: every datagram is decoded and checked, the
    events of the accepted ones are published in order of arrival, the counters count
    exactly that, and the ring is closed when the loop ends. A run is described by the
    packets that arrived and by the results of the publications. *)

From coqutil Require Import Z.PushPullMod.
From S2P Require Import Prelude Bytes Event Protocol GapDetector Memory RingLayout Ring RingSpec.
From S2P Require Import RingGeometry RingRefinement RingSafety RingSystem RingHistory RingInit Posix Udp Segment.
From S2P Require Import Config Engine Receiver.

(** ** The packets of a run *)

(** What an answer of [recvmsg] delivers: the bytes of a datagram, [None] for one that did
    not fit the buffer. *)
Definition packet_of (r : recvret) : option (option (list byte)) :=
  if ret (recv_ret r) <? 0 then None
  else Some (if recv_truncated r then None else Some (recv_data r)).

Definition packets_of (rs : list recvret) : list (option (list byte)) := omap packet_of rs.

(** Session, packet sequence and event of a well-formed packet. *)
Definition identify (packet : option (list byte)) : option (Z * Z * EventData) :=
  data ← packet;
  match decode_data data with
  | Some (Value d) =>
      ev ← event_bytes data (event d); Some (session_id d, packet_sequence d, ev)
  | _ => None
  end.

Definition identified (packets : list (option (list byte))) : list (Z * Z * EventData) :=
  omap identify packets.

(** The verdicts of the detector on the packets, and its state afterwards. *)
Definition verdicts (d : GapDetector) (packets : list (option (list byte))) :=
  (check_all d (map fst (identified packets))).1.
Definition detector_after (d : GapDetector) (packets : list (option (list byte))) :=
  (check_all d (map fst (identified packets))).2.

(** The events of the accepted packets, and of these the ones that were stored. *)
Definition accepted_events (d : GapDetector) (packets : list (option (list byte))) :
    list EventData :=
  select (map snd (identified packets)) (map is_accepted (verdicts d packets)).

Definition is_ok (r : PublishResult) : bool := bool_decide (r = PublishResult_Ok).
Definition is_full (r : PublishResult) : bool := bool_decide (r = PublishResult_Full).

Definition stored_events (d : GapDetector) (packets : list (option (list byte)))
    (results : list PublishResult) : list EventData :=
  select (accepted_events d packets) (map is_ok results).

(** What the receiver does to the ring: it tries to publish the events of the accepted
    packets, with [results]; the end of the loop closes the ring. *)
Definition publications_tried (d : GapDetector) (packets : list (option (list byte)))
    (results : list PublishResult) : history :=
  attempts (accepted_events d packets) results.

Definition closing (ended : bool) : history := if ended then closures 1 else [].

Definition has_status (s : PacketStatus) (x : Z * Z * CheckResult) : bool :=
  bool_decide (status x.2 = s).
Definition has_gap (x : Z * Z * CheckResult) : bool := 0 <? gap x.2.

(** The counts of a run: [packets] arrived, [tr] are the verdicts on the well-formed ones,
    [results] the publications, [errs] the errors that ended it. *)
Definition received_counts (packets : list (option (list byte))) (tr : list (Z * Z * CheckResult))
    (results : list PublishResult) (errs : Z) : EngineStats :=
  let n := Z.of_nat (length packets) in
  let rejected := count (fun x => negb (is_accepted x)) tr in
  let refused := count (fun r => negb (is_ok r)) results in
  EngineStats_init{{
    packets_received := n;
    malformed_packets := n - Z.of_nat (length tr);
    duplicate_or_old_packets := count (has_status PacketStatus_DuplicateOrOld) tr;
    wrong_session_packets := count (has_status PacketStatus_WrongSession) tr;
    gaps_detected := count has_gap tr;
    packets_missed := total_gap tr;
    events_in := count is_accepted tr;
    events_out := count is_ok results;
    egress_full := count is_full results;
    egress_errors := refused - count is_full results;
    events_dropped := rejected + refused;
    receive_errors := errs }}.

(** What happened to the receiver: [packets] arrived, the accepted events were published
    with [results]. *)
Record arrived (self self' : Receiver) (packets : list (option (list byte)))
    (results : list PublishResult) (errs : Z) : Prop := Arrived {
  av_config : config_ self' = config_ self;
  av_segment : segment_ self' = segment_ self;
  av_udp : udp_ self' = udp_ self;
  av_detector : gap_detector_ self' = detector_after (gap_detector_ self) packets;
  av_stats : stats_ self' = stats_add (stats_ self)
    (received_counts packets (verdicts (gap_detector_ self) packets) results errs);
  av_results : length results = length (accepted_events (gap_detector_ self) packets);
}.

(** ** Runs in sequence *)

Lemma check_all_app d a b :
  check_all d (a ++ b) =
    ((check_all d a).1 ++ (check_all (check_all d a).2 b).1, (check_all (check_all d a).2 b).2).
Proof.
  revert d. induction a as [|x a IH]; intros d; simpl; [by destruct (check_all d b)|].
  destruct (check d x.1 x.2) as [r d1]. rewrite IH. by destruct (check_all d1 a).
Qed.

Lemma length_check_all d a : length (check_all d a).1 = length a.
Proof.
  revert d. induction a as [|x a IH]; intros d; simpl; [done|].
  destruct (check d x.1 x.2) as [r d1]. specialize (IH d1). destruct (check_all d1 a).
  simpl in *. by rewrite IH.
Qed.

Lemma identified_app a b : identified (a ++ b) = identified a ++ identified b.
Proof. apply omap_app. Qed.

Lemma verdicts_app d a b : verdicts d (a ++ b) = verdicts d a ++ verdicts (detector_after d a) b.
Proof. unfold verdicts, detector_after. by rewrite identified_app, map_app, check_all_app. Qed.

Lemma detector_after_app d a b :
  detector_after d (a ++ b) = detector_after (detector_after d a) b.
Proof. unfold detector_after. by rewrite identified_app, map_app, check_all_app. Qed.

Lemma length_verdicts d a : length (verdicts d a) = length (identified a).
Proof. unfold verdicts. by rewrite length_check_all, length_map. Qed.

Lemma accepted_events_app d a b :
  accepted_events d (a ++ b) = accepted_events d a ++ accepted_events (detector_after d a) b.
Proof.
  unfold accepted_events. rewrite verdicts_app, identified_app, !map_app.
  apply select_app. by rewrite !length_map, length_verdicts.
Qed.

Lemma publications_tried_app d a b ra rb :
  length ra = length (accepted_events d a) ->
  publications_tried d (a ++ b) (ra ++ rb) =
    publications_tried d a ra ++ publications_tried (detector_after d a) b rb.
Proof. intros Hl. unfold publications_tried. by rewrite accepted_events_app, attempts_app. Qed.

(** The stored events are those of the successful publications. *)
Lemma published_in_attempts evs results :
  length results = length evs -> published_in (attempts evs results) = select evs (map is_ok results).
Proof.
  unfold published_in, attempts. revert results. induction evs as [|ev evs IH]; intros [|r rs] Hl; try done.
  injection Hl as Hl. specialize (IH rs Hl). cbn. by destruct r; cbn; rewrite IH.
Qed.

Lemma published_in_tried d packets results :
  length results = length (accepted_events d packets) ->
  published_in (publications_tried d packets results) = stored_events d packets results.
Proof. apply published_in_attempts. Qed.

Lemma total_gap_app a b : total_gap (a ++ b) = total_gap a + total_gap b.
Proof. induction a as [|x a IH]; [done|]. simpl. unfold total_gap in *. lia. Qed.

Lemma received_counts_app p1 p2 t1 t2 r1 r2 e1 e2 :
  received_counts (p1 ++ p2) (t1 ++ t2) (r1 ++ r2) (e1 + e2) =
    stats_sum (received_counts p1 t1 r1 e1) (received_counts p2 t2 r2 e2).
Proof.
  unfold received_counts, stats_sum, stats_zip. cbn.
  rewrite !length_app, !count_app, total_gap_app. f_equal; lia.
Qed.

Lemma arrived_refl self self' :
  stats_ok (stats_ self) -> config_ self' = config_ self -> segment_ self' = segment_ self ->
  udp_ self' = udp_ self -> gap_detector_ self' = gap_detector_ self ->
  stats_ self' = stats_ self -> arrived self self' [] [] 0.
Proof.
  intros Hok ?????. split; try done. cbn. change (received_counts _ _ _ _) with EngineStats_init.
  by rewrite stats_add_zero.
Qed.

Lemma arrived_trans a b c p1 p2 r1 r2 e1 e2 :
  arrived a b p1 r1 e1 -> arrived b c p2 r2 e2 -> arrived a c (p1 ++ p2) (r1 ++ r2) (e1 + e2).
Proof.
  intros [C1 S1 U1 D1 T1 L1] [C2 S2 U2 D2 T2 L2]. rewrite D1 in *. split; try congruence.
  - by rewrite detector_after_app.
  - by rewrite T2, T1, stats_add_assoc, verdicts_app, received_counts_app.
  - by rewrite accepted_events_app, !length_app, L1, L2.
Qed.

(** Nothing arrives, counted or not. *)
Lemma arrived_then a b c p r e :
  arrived a b p r e -> config_ c = config_ b -> segment_ c = segment_ b -> udp_ c = udp_ b ->
  gap_detector_ c = gap_detector_ b -> stats_ c = stats_ b -> arrived a c p r e.
Proof. intros []. intros. split; congruence. Qed.

(** ** One packet *)

(** The counters with one more packet. *)
Definition one_more (st : EngineStats) : EngineStats :=
  st{{ packets_received := incr (packets_received st) }}.

#[local] Ltac count_up Hst :=
  match type of Hst with stats_ok ?st => destruct st end;
  unfold stats_ok, stats_fields in Hst; cbn in Hst;
  repeat (apply Forall_cons in Hst as [? Hst]);
  unfold stats_add, stats_zip, one_more, count_rejected, count_accepted, count_published, incr;
  repeat match goal with |- context [decide ?P] =>
    first [rewrite (decide_True (P:=P)) by done | rewrite (decide_False (P:=P)) by done] end; cbn.

#[local] Ltac same_counters := f_equal; rewrite ?Z.add_0_r, ?wrap_small by done; reflexivity.

Lemma counts_malformed st p :
  stats_ok st ->
  (one_more st){{ malformed_packets := incr (malformed_packets st) }} =
    stats_add st (received_counts [p] [] [] 0).
Proof. intros Hst. count_up Hst. same_counters. Qed.

Lemma counts_error st :
  stats_ok st ->
  st{{ receive_errors := incr (receive_errors st) }} = stats_add st (received_counts [] [] [] 1).
Proof. intros Hst. count_up Hst. same_counters. Qed.

(** A rejected packet has no gap. *)
Lemma counts_rejected st p id r :
  stats_ok st -> status r <> PacketStatus_Accepted -> gap r = 0 ->
  count_rejected (one_more st) (status r) = stats_add st (received_counts [p] [(id, r)] [] 0).
Proof.
  intros Hst Hr Hg. destruct r as [status g a b]. cbn in Hr, Hg. subst g.
  destruct status; [done|..]; count_up Hst; same_counters.
Qed.

Lemma counts_accepted st p id r res :
  stats_ok st -> status r = PacketStatus_Accepted -> 0 <= gap r ->
  count_published (count_accepted (one_more st) r) res =
    stats_add st (received_counts [p] [(id, r)] [res] 0).
Proof.
  intros Hst Hr Hg. destruct r as [status g a b]. cbn in Hr, Hg. subst status.
  destruct g as [|n|n]; [| |lia]; destruct res; count_up Hst; same_counters.
Qed.

(** What the decoder guarantees. *)
Lemma decoded_facts data d :
  decode_data data = Some (Value d) ->
  exists ev, event_bytes data (event d) = Some ev /\ event_ok ev /\
    packet_id_ok (session_id d, packet_sequence d) /\
    identify (Some data) = Some (session_id d, packet_sequence d, ev).
Proof.
  intros Hd. pose proof Hd as (sid&pseq&ev&Hok&->&->)%decode_data_iff.
  pose proof (decoded_event_bytes _ _ _ Hok) as Hev. exists ev.
  split; [done|]. split; [apply Hok|]. split.
  - destruct Hok as [[] [] _ _]. by split_and!.
  - unfold identify. cbn [mbind option_bind]. rewrite Hd. by rewrite Hev.
Qed.

Lemma check_gap d sid k :
  (status (check d sid k).1 <> PacketStatus_Accepted -> gap (check d sid k).1 = 0) /\
  0 <= gap (check d sid k).1.
Proof.
  unfold check, check_accept. cbn.
  repeat (case_bool; cbn; try (split; [done|lia])); (split; [done|]);
    apply wrap_is_uint; lia.
Qed.

Lemma identified_none p : identify p = None -> identified [p] = [].
Proof. intros H. unfold identified. cbn. by rewrite H. Qed.

Lemma identified_some p x : identify p = Some x -> identified [p] = [x].
Proof. intros H. unfold identified. cbn. by rewrite H. Qed.

Lemma check_one {B} d (x : Z * Z * B) :
  check_all d (map fst [x]) = ([(x.1, (check d x.1.1 x.1.2).1)], (check d x.1.1 x.1.2).2).
Proof. cbn. by destruct (check d x.1.1 x.1.2). Qed.

(** A datagram that is not a packet. *)
Lemma arrived_malformed self p :
  stats_ok (stats_ self) -> identify p = None ->
  arrived self (set_stats self ((one_more (stats_ self)){{ malformed_packets :=
      incr (malformed_packets (stats_ self)) }})) [p] [] 0.
Proof.
  intros Hst Hp. pose proof (identified_none p Hp) as Hi.
  split; try done; unfold verdicts, detector_after, accepted_events, verdicts; rewrite ?Hi; try done.
  by apply counts_malformed.
Qed.

(** A well-formed packet the detector refuses. *)
Lemma arrived_rejected self p sid k ev :
  stats_ok (stats_ self) -> identify p = Some (sid, k, ev) ->
  let c := check (gap_detector_ self) sid k in
  status c.1 <> PacketStatus_Accepted ->
  arrived self (set_stats (set_detector self c.2) (count_rejected (one_more (stats_ self)) (status c.1)))
    [p] [] 0.
Proof.
  intros Hst Hp c Hc. pose proof (identified_some p _ Hp) as Hi.
  split; try done; unfold verdicts, detector_after, accepted_events, verdicts;
    rewrite ?Hi, ?check_one; try done.
  - apply counts_rejected; [done..|]. by apply check_gap.
  - cbn. unfold is_accepted. by rewrite bool_decide_false.
Qed.

(** A packet whose event is published with [res]. *)
Lemma arrived_accepted self h p sid k ev res :
  stats_ok (stats_ self) -> identify p = Some (sid, k, ev) ->
  let c := check (gap_detector_ self) sid k in
  status c.1 = PacketStatus_Accepted ->
  arrived self (set_stats (set_egress (set_detector self c.2) h)
      (count_published (count_accepted (one_more (stats_ self)) c.1) res)) [p] [res] 0 /\
  publications_tried (gap_detector_ self) [p] [res] = attempts [ev] [res].
Proof.
  intros Hst Hp c Hc. pose proof (identified_some p _ Hp) as Hi. split.
  - split; try done; unfold verdicts, detector_after, accepted_events, verdicts;
      rewrite ?Hi, ?check_one; try done.
    + apply counts_accepted; [done..|]. by apply check_gap.
    + cbn. unfold is_accepted. by rewrite bool_decide_true.
  - unfold publications_tried, accepted_events, verdicts. rewrite Hi, check_one. cbn [map select fst snd].
    unfold is_accepted. cbn [snd]. by rewrite bool_decide_true.
Qed.

(** ** Effects next to a consumer *)

(** What happens to the queue: the consumer does [l], the receiver [own]. *)
Record served (q q' : queue) (l own : history) : Prop := Served {
  sv_history : q_pending q ++ published_in own = log_acquired l ++ q_pending q';
  sv_config : q_config q' = q_config q;
  sv_state : q_state q' = q_state q;
  sv_joint : joint q own l q';
}.

Lemma served_refl q : served q q [] [].
Proof. split; [apply app_nil_r|done..|apply joint_refl]. Qed.

Lemma served_trans q1 q2 q3 l1 l2 own1 own2 :
  served q1 q2 l1 own1 -> served q2 q3 l2 own2 -> served q1 q3 (l1 ++ l2) (own1 ++ own2).
Proof.
  intros [H1 H2 H3 J1] [G1 G2 G3 J2]. split; [|congruence..|by eapply joint_app].
  by rewrite log_acquired_app, published_in_app, app_assoc, H1, <- !app_assoc, G1.
Qed.

Lemma moves_served q q1 l : peer_moves ProducerSide q q1 l -> served q q1 l [].
Proof.
  intros [Hh Hc _ Hp _ Hj]. destruct (Hp eq_refl) as [Hl Hs]. rewrite Hl in Hh. by split.
Qed.

Section Effects.
Context {W : Type} (env : environment W).
Hypothesis Hpeer : forall t, Forall (peer_allowed ProducerSide) (env_peer env t).
Hypothesis Hrecv : recvmsg_documented (env_os env).
Abbreviation run_io := (interp (engine_handler env)).
Abbreviation progress w w' l rs := (Engine.progress env w w' l [] rs).

Lemma receiver_effect_step {A R} (e : engine R) (f : R -> io engine A) w h q :
  world_repr ProducerSide w h q ->
  exists w1 q1 l, run_io (call e ≫= f) w = (r ← perform env e w1; run_io (f r.1) r.2) /\
    progress w w1 l [] /\ w_time w1 = S (w_time w) /\
    w_stop w1 = w_stop w || env_stop env (w_time w) /\
    world_repr ProducerSide w1 h q1 /\ served q q1 l [].
Proof.
  intros Hw. destruct (effect_moves env ProducerSide Hpeer e f w h q Hw)
    as (w1&q1&l&?&?&?&?&?&?). exists w1, q1, l. split_and!; try done. by apply moves_served.
Qed.

Lemma receiver_posix_step {A R} (c : sys R) fd (f : R -> io sys A) w h q :
  world_repr ProducerSide w h q -> uses_fd c fd -> is_open (w_held w) fd = true ->
  (forall r, log_sent c r = []) ->
  exists r w1 q1 l, run_io (syscalls (call c ≫= f)) w = run_io (syscalls (f r)) w1 /\
    (exists os, r = (env_os env _ c os).1) /\ progress w w1 l (log_received c r) /\
    world_repr ProducerSide w1 h q1 /\ served q q1 l [].
Proof.
  intros Hw Hc Ho Hlog. destruct (posix_moves env ProducerSide Hpeer c fd f w h q Hw Hc Ho)
    as (r&w1&q1&l&Hrun&Hos&Hpg&_&_&Hw1&Hq). rewrite Hlog in Hpg.
  exists r, w1, q1, l. split_and!; try done. by apply moves_served.
Qed.

(** The pending events after one publication. *)
Lemma publish_step {A} (f : _ -> io engine A) w h q ev :
  world_repr ProducerSide w h q -> event_ok ev ->
  exists r w1 h1 q1 l, run_io (call (on_ring (try_publish h ev)) ≫= f) w = run_io (f (r, h1)) w1 /\
    progress w w1 l [] /\ world_repr ProducerSide w1 h1 q1 /\
    served q q1 l (attempts [ev] [r]).
Proof.
  intros Hw Hev. destruct (receiver_effect_step (on_ring (try_publish h ev)) f w h q Hw)
    as (w1&q1&l&->&Hpg&_&_&Hw1&Hs).
  destruct (exec_op_refines (OpPublish ev) _ q1 Hw1 Hev) as (s'&Hrun&Hs').
  cbn [side_sys exec_op spec_op] in Hrun, Hs'.
  destruct (run (try_publish h ev) (w_ring w1)) as [[[r h1] m1]|] eqn:Hp; [|done].
  rewrite (perform_ring _ _ _ _ _ Hp). cbn [mbind option_bind fst snd] in *.
  pose proof (spec_publish_pending q1 ev (repr_ok _ _ (sys_segment _ _ Hw1))) as Hpend.
  assert (Hstate : q_state (spec_publish q1 ev).2 = q_state q1 /\
                   q_config (spec_publish q1 ev).2 = q_config q1).
  { unfold spec_publish. destruct (decide (q_state q1 <> RingState_Ready)); [by split|].
    by repeat (case_bool; [by split|]). }
  pose proof (joint_publish q1 ev) as Hj.
  destruct (spec_publish q1 ev) as [r' q2]. cbn [fst snd] in *. injection Hrun as <- <-.
  eexists r, _, h1, q2, l. split; [reflexivity|]. split; [by destruct Hpg; split|].
  split; [exact Hs'|].
  assert (served q1 q2 [] (attempts [ev] [r])) as Hs2.
  { split; [|apply Hstate..|exact Hj]. rewrite Hpend. by destruct r; cbn; rewrite ?app_nil_r. }
  pose proof (served_trans _ _ _ _ _ _ _ Hs Hs2) as Hst. by rewrite app_nil_r in Hst.
Qed.

(** Closing the ring. *)
Lemma close_step {A} (f : bool -> io engine A) w h q :
  world_repr ProducerSide w h q ->
  exists w1 q1 l, run_io (call (on_ring (close_publication h)) ≫= f) w = run_io (f true) w1 /\
    progress w w1 l [] /\ world_repr ProducerSide w1 h q1 /\
    q_pending q = log_acquired l ++ q_pending q1 /\ q_state q1 = RingState_Closed /\
    joint q (closures 1) l q1.
Proof.
  intros Hw. destruct (receiver_effect_step (on_ring (close_publication h)) f w h q Hw)
    as (w1&q1&l&->&Hpg&_&_&Hw1&[Hh _ _ Hj]).
  destruct (exec_op_refines OpClose _ q1 Hw1 I) as (s'&Hrun&Hs').
  cbn [side_sys exec_op spec_op spec_close fst snd] in Hrun, Hs'.
  destruct (run (close_publication h) (w_ring w1)) as [[r m1]|] eqn:Hp; [|done].
  rewrite (perform_ring _ _ _ _ _ Hp). cbn [mbind option_bind fst snd] in *.
  injection Hrun as -> <-. eexists _, (q_close q1), l. split; [reflexivity|].
  split; [by destruct Hpg; split|]. split; [exact Hs'|]. cbn in Hh. rewrite app_nil_r in Hh.
  split; [rewrite Hh; done|]. split; [done|].
  pose proof (joint_app _ _ _ _ _ _ _ Hj (joint_close q1)) as Hj2. by rewrite app_nil_r in Hj2.
Qed.

(** What [receive] reports of the answers [rs] of [recvmsg]. *)
Definition reports (r : expected ReceivedDatagram UdpError) (buffer : list byte) (rs : list recvret) : Prop :=
  match r with
  | Value d => 0 <= size d <= Z.of_nat (length buffer) /\
      packets_of rs = [Some (take (Z.to_nat (size d)) buffer)]
  | Unexpected e =>
      packets_of rs = (if decide (code e = UdpErrorCode_DatagramTooLarge) then [None] else []) /\
      (code e = UdpErrorCode_DatagramTooLarge -> error_number e = 0)
  end.

Lemma reports_error e buffer :
  code e <> UdpErrorCode_DatagramTooLarge -> reports (Unexpected e) buffer [].
Proof. intros He. cbn. by rewrite decide_False. Qed.

Lemma receive_message_step u buffer w h q :
  world_repr ProducerSide w h q -> is_open (w_held w) (receiver_socket_fd_ u) = true ->
  exists r buffer' w1 q1 l rs,
    run_io (syscalls (receive_message u buffer)) w = Some ((r, buffer'), w1) /\
    progress w w1 l rs /\ world_repr ProducerSide w1 h q1 /\ served q q1 l [] /\
    length buffer' = length buffer /\ reports r buffer' rs.
Proof.
  intros Hw Ho. unfold receive_message.
  match goal with |- context [run_io (syscalls (call ?c ≫= ?f)) w] =>
    destruct (receiver_posix_step c (receiver_socket_fd_ u) f w h q Hw (uses_recvmsg _ _) Ho (fun _ => eq_refl))
      as (r&w1&q1&l&->&(os&Hos)&Hpg&Hw1&Hs) end.
  destruct (Hrecv (receiver_socket_fd_ u) (length buffer) os) as [Hfit Hlen].
  rewrite <- Hos in Hfit, Hlen. clear os Hos. cbn [log_received] in Hpg. cbv zeta.
  assert (Hpk : packets_of [r] = match packet_of r with Some p => [p] | None => [] end) by done.
  unfold packet_of in Hpk.
  destruct (ret (recv_ret r) <? 0) eqn:Hneg.
  { eexists _, _, w1, q1, l, [r]. split; [reflexivity|]. rewrite length_inserts. by split_and!. }
  destruct (recv_truncated r) eqn:Htr.
  { eexists _, _, w1, q1, l, [r]. split; [reflexivity|]. rewrite length_inserts. by split_and!. }
  to_prop. eexists _, _, w1, q1, l, [r]. split; [reflexivity|]. rewrite length_inserts.
  cbn [size reports]. rewrite length_inserts, Hlen by done. repeat (split; [done || lia|]).
  rewrite Hpk, Nat2Z.id. do 2 f_equal. symmetry. by apply take_inserts.
Qed.

(** [receive]: the packets it delivers and what it reports. *)
Lemma receive_step u buffer w h q :
  world_repr ProducerSide w h q -> is_open (w_held w) (receiver_socket_fd_ u) = true ->
  exists r buffer' w1 q1 l rs,
    run_io (syscalls (receive u buffer receive_timeout_ms)) w = Some ((r, buffer'), w1) /\
    progress w w1 l rs /\ world_repr ProducerSide w1 h q1 /\ served q q1 l [] /\
    length buffer' = length buffer /\ reports r buffer' rs.
Proof.
  intros Hw Ho. unfold receive. rewrite (proj2 (Z.leb_le _ _)) by done.
  match goal with |- context [run_io (syscalls (call ?c ≫= ?f)) w] =>
    destruct (receiver_posix_step c (receiver_socket_fd_ u) f w h q Hw (uses_poll _ _) Ho (fun _ => eq_refl))
      as ([ready readable]&w1&q1&l1&->&_&Hpg1&Hw1&Hs1) end.
  cbn [log_received] in Hpg1.
  assert (Hfail : forall e, code e <> UdpErrorCode_DatagramTooLarge ->
    exists r buffer' w2 q2 l rs,
      Some ((Unexpected e : expected ReceivedDatagram UdpError, buffer), w1) = Some ((r, buffer'), w2) /\
      progress w w2 l rs /\ world_repr ProducerSide w2 h q2 /\ served q q2 l [] /\
      length buffer' = length buffer /\ reports r buffer' rs).
  { intros e He. exists (Unexpected e), buffer, w1, q1, l1, []. split_and!; try done. by apply reports_error. }
  destruct (ret ready <? 0); [by apply Hfail|].
  destruct (ret ready =? 0); [by apply Hfail|].
  destruct readable; cbn [negb]; [|by apply Hfail].
  destruct (receive_message_step u buffer w1 h q1 Hw1) as (r&buffer'&w2&q2&l2&rs&->&Hpg2&Hw2&Hs2&Hrest).
  { by rewrite (pg_held _ _ _ _ _ _ Hpg1). }
  eexists r, buffer', w2, q2, (l1 ++ l2), rs. split; [reflexivity|].
  split; [exact (progress_trans _ _ _ _ _ _ _ _ _ _ Hpg1 Hpg2)|]. split; [exact Hw2|].
  split; [exact (served_trans _ _ _ _ _ _ _ Hs1 Hs2)|exact Hrest].
Qed.

(** ** One turn of the loop *)

Lemma process_step self data w q :
  stats_ok (stats_ self) -> world_repr ProducerSide w (egress_ self) q ->
  exists next self' w1 q1 l results,
    run_io (process_datagram self data) w = Some ((next, self'), w1) /\
    arrived self self' [Some data] results 0 /\ progress w w1 l [] /\
    world_repr ProducerSide w1 (egress_ self') q1 /\
    served q q1 l (publications_tried (gap_detector_ self) [Some data] results) /\
    (next = Break -> PublishResult_Closed ∈ results).
Proof.
  intros Hst Hw. unfold process_datagram. cbv zeta. fold (one_more (stats_ self)).
  rewrite decode_data_spec. pose proof (decode_data_spec data) as Hdec.
  destruct (decode_reference data) as [d|e].
  2: { eexists _, _, w, q, [], []. split; [reflexivity|].
       split; [apply arrived_malformed; [done|]; unfold identify; cbn; by rewrite Hdec|].
       split; [apply progress_refl|]. split; [exact Hw|]. split; [|done].
       unfold publications_tried. destruct (accepted_events _ _); apply served_refl. }
  destruct (decoded_facts data d Hdec) as (ev&Hev&Hok&_&Hid). rewrite Hev. cbn [set_stats gap_detector_].
  destruct (check (gap_detector_ self) (session_id d) (packet_sequence d)) as [c det] eqn:Hc.
  destruct (decide (status c <> PacketStatus_Accepted)) as [Hacc|Hacc].
  { eexists _, _, w, q, [], []. split; [reflexivity|].
    pose proof (arrived_rejected self _ _ _ _ Hst Hid) as Ha. cbv zeta in Ha. rewrite Hc in Ha.
    split; [exact (Ha Hacc)|].
    split; [apply progress_refl|]. split; [exact Hw|]. split; [|done].
    unfold publications_tried. destruct (accepted_events _ _); apply served_refl. }
  apply dec_stable in Hacc.
  match goal with |- context [run_io (call (on_ring (try_publish ?h ev)) ≫= ?f) w] =>
    destruct (publish_step f w h q ev Hw Hok) as (res&w1&h1&q1&l&->&Hpg&Hw1&Hs) end.
  pose proof (arrived_accepted self h1 _ _ _ _ res Hst Hid) as Ha. cbv zeta in Ha. rewrite Hc in Ha.
  destruct (Ha Hacc) as [Harr Hstored]. rewrite interp_ret.
  eexists _, _, w1, q1, l, [res]. split; [reflexivity|]. split; [exact Harr|].
  split; [done|]. split; [done|]. rewrite Hstored. split; [done|].
  destruct (decide (res = PublishResult_Closed)) as [->|]; [|done]. intros _. by apply list_elem_of_here.
Qed.

(** The outcome of a turn. *)
Record turned (self : Receiver) (w : world W) (q : queue) (next : loop) (self' : Receiver)
    (w' : world W) (q' : queue) (l : list (ring_op * ring_result)) (rs : list recvret)
    (results : list PublishResult) (errs : Z) : Prop := Turned {
  tn_arrived : arrived self self' (packets_of rs) results errs;
  tn_progress : progress w w' l rs;
  tn_time : (w_time w < w_time w')%nat;
  tn_repr : world_repr ProducerSide w' (egress_ self') q';
  tn_served : served q q' l (publications_tried (gap_detector_ self) (packets_of rs) results);
  tn_break : next = Break -> w_stop w' = true \/ errs = 1 \/ PublishResult_Closed ∈ results;
  tn_errs : next = Continue -> errs = 0;
  tn_stop : w_stop w || env_stop env (w_time w) = true -> next = Break;
}.

Lemma packets_of_app a b : packets_of (a ++ b) = packets_of a ++ packets_of b.
Proof. apply omap_app. Qed.

(** What a turn makes of an error of [receive]. *)
Definition after_error (self : Receiver) (e : UdpError) : loop * Receiver :=
  if bool_decide (code e = UdpErrorCode_Timeout) || (error_number e =? EINTR) then (Continue, self)
  else if decide (code e = UdpErrorCode_DatagramTooLarge) then
    (Continue, set_stats self ((stats_ self){{ packets_received := incr (packets_received (stats_ self));
                                               malformed_packets := incr (malformed_packets (stats_ self)) }}))
  else (Break, set_stats self ((stats_ self){{ receive_errors := incr (receive_errors (stats_ self)) }})).

Lemma turned_error self w q w2 q2 l rs e buffer :
  stats_ok (stats_ self) -> progress w w2 l rs -> (w_time w < w_time w2)%nat ->
  world_repr ProducerSide w2 (egress_ self) q2 -> served q q2 l [] -> reports (Unexpected e) buffer rs ->
  w_stop w || env_stop env (w_time w) = false ->
  exists errs, turned self w q (after_error self e).1 (after_error self e).2 w2 q2 l rs [] errs.
Proof.
  intros Hst Hpg Ht Hw2 Hs [Hr Herr] Hno. unfold after_error. case_bool.
  - assert (packets_of rs = []) as Hpk.
    { rewrite Hr. destruct (decide (code e = UdpErrorCode_DatagramTooLarge)) as [Hd|]; [|done].
      specialize (Herr Hd). apply orb_true_iff in E as [E|E]; [|by rewrite Herr in E].
      apply bool_decide_eq_true in E. congruence. }
    exists 0. split; rewrite ?Hpk, ?Hno; try done. by apply arrived_refl.
  - destruct (decide (code e = UdpErrorCode_DatagramTooLarge)) as [Hd|Hd].
    + exists 0. split; rewrite ?Hr, ?Hno; try done. by apply arrived_malformed.
    + exists 1. split; rewrite ?Hr, ?Hno; try done; [|by right; left].
      split; try done. cbn. by apply counts_error.
Qed.

Lemma receiver_once_step self packet w q :
  stats_ok (stats_ self) -> world_repr ProducerSide w (egress_ self) q ->
  is_open (w_held w) (receiver_socket_fd_ (udp_ self)) = true ->
  exists next self' packet' w' q' l rs results errs,
    run_io (Receiver_once self packet) w = Some ((next, (self', packet')), w') /\
    turned self w q next self' w' q' l rs results errs.
Proof.
  intros Hst Hw Ho. unfold Receiver_once.
  match goal with |- context [run_io (call stop_load ≫= ?f) w] =>
    destruct (receiver_effect_step stop_load f w _ q Hw) as (w1&q1&l1&->&Hpg1&Ht1&Hst1&Hw1&Hs1) end.
  cbn [perform mbind option_bind fst snd]. destruct (w_stop w1) eqn:Hstop.
  { rewrite interp_ret. eexists _, self, _, w1, q1, l1, [], [], 0. split; [reflexivity|].
    split; try done; try lia; [by apply arrived_refl|by left]. }
  rewrite interp_bind. destruct (receive_step (udp_ self) packet w1 _ q1 Hw1) as
    (r&packet'&w2&q2&l2&rs&->&Hpg2&Hw2&Hs2&Hlen&Hr).
  { by rewrite (pg_held _ _ _ _ _ _ Hpg1). }
  cbn [mbind option_bind fst snd].
  pose proof (progress_trans _ _ _ _ _ _ _ _ _ _ Hpg1 Hpg2) as Hpg. cbn [app] in Hpg.
  pose proof (served_trans _ _ _ _ _ _ _ Hs1 Hs2) as Hs. cbn [app] in Hs.
  pose proof (pg_time _ _ _ _ _ _ Hpg2) as Ht2. destruct r as [d|e].
  - destruct Hr as [Hsz Hpk]. rewrite (proj2 (Z.ltb_ge _ _)) by lia. rewrite interp_bind.
    destruct (process_step self (take (Z.to_nat (size d)) packet') w2 q2 Hst Hw2)
      as (next&self'&w3&q3&l3&results&->&Ha&Hpg3&Hw3&Hs3&Hbr).
    cbn [mbind option_bind fst snd]. rewrite interp_ret. pose proof (pg_time _ _ _ _ _ _ Hpg3).
    pose proof (progress_trans _ _ _ _ _ _ _ _ _ _ Hpg Hpg3) as Hpg'. cbn [app] in Hpg'.
    rewrite app_nil_r in Hpg'.
    eexists next, self', _, w3, q3, ((l1 ++ l2) ++ l3), rs, results, 0. split; [reflexivity|].
    split; rewrite ?Hpk, <- ?Hst1; try done; [lia| |by intros ?; right; right; apply Hbr].
    exact (served_trans _ _ _ _ _ _ _ Hs Hs3).
  - destruct (turned_error self w q w2 q2 _ rs e packet' Hst Hpg ltac:(lia) Hw2 Hs Hr) as [errs Htn].
    { by rewrite <- Hst1. }
    exists (after_error self e).1, (after_error self e).2, packet', w2, q2, (l1 ++ l2), rs, [], errs.
    split; [|exact Htn]. unfold after_error. case_bool; [done|].
    by destruct (decide (code e = UdpErrorCode_DatagramTooLarge)).
Qed.

(** ** The whole loop *)

Record ran (self : Receiver) (w : world W) (q : queue) (ended : bool) (self' : Receiver)
    (w' : world W) (q' : queue) (l : list (ring_op * ring_result)) (rs : list recvret)
    (results : list PublishResult) (errs : Z) : Prop := Ran {
  rn_arrived : arrived self self' (packets_of rs) results errs;
  rn_progress : progress w w' l rs;
  rn_repr : world_repr ProducerSide w' (egress_ self') q';
  rn_history : q_pending q ++ stored_events (gap_detector_ self) (packets_of rs) results =
                 log_acquired l ++ q_pending q';
  rn_joint : joint q (publications_tried (gap_detector_ self) (packets_of rs) results ++ closing ended) l q';
  rn_closed : ended = true -> q_state q' = RingState_Closed;
  rn_ended : ended = true -> w_stop w' = true \/ errs = 1 \/ PublishResult_Closed ∈ results;
}.

Lemma arrived_stats_ok self self' p r e : arrived self self' p r e -> stats_ok (stats_ self').
Proof. intros []. rewrite av_stats0. apply stats_add_ok. Qed.

Lemma receiver_loop_runs fuel self packet w q :
  stats_ok (stats_ self) -> world_repr ProducerSide w (egress_ self) q ->
  is_open (w_held w) (receiver_socket_fd_ (udp_ self)) = true ->
  exists ended self' w' q' l rs results errs,
    run_io (Receiver_loop fuel self packet) w = Some ((ended, self'), w') /\
    arrived self self' (packets_of rs) results errs /\ progress w w' l rs /\
    world_repr ProducerSide w' (egress_ self') q' /\
    served q q' l (publications_tried (gap_detector_ self) (packets_of rs) results) /\
    (ended = true -> w_stop w' = true \/ errs = 1 \/ PublishResult_Closed ∈ results) /\
    (stop_within env w fuel -> ended = true).
Proof.
  revert self packet w q. induction fuel as [|fuel IH]; intros self packet w q Hst Hw Ho.
  { exists false, self, w, q, [], [], [], 0. split; [done|].
    split; [by apply arrived_refl|]. split; [apply progress_refl|]. split; [done|].
    split; [apply served_refl|]. split; [done|]. intros [[_ ?]|(t&?&_)]; lia. }
  cbn [Receiver_loop]. rewrite interp_bind.
  destruct (receiver_once_step self packet w q Hst Hw Ho)
    as (next&self1&packet1&w1&q1&l1&rs1&res1&errs1&->&[Ha Hpg Ht Hw1 Hs Hbr Herr Hstop]).
  cbn [mbind option_bind fst snd]. destruct next.
  2: { rewrite decide_True by done. eexists true, self1, w1, q1, l1, rs1, res1, errs1.
       split; [reflexivity|]. by split_and!; try done; intros _; apply Hbr. }
  rewrite decide_False by done. rewrite (Herr eq_refl) in Ha.
  destruct (IH self1 packet1 w1 q1 (arrived_stats_ok _ _ _ _ _ Ha) Hw1)
    as (ended&self2&w2&q2&l2&rs2&res2&errs2&->&Ha2&Hpg2&Hw2&Hs2&Hend&Hstop2).
  { by rewrite (pg_held _ _ _ _ _ _ Hpg), (av_udp _ _ _ _ _ Ha). }
  eexists ended, self2, w2, q2, (l1 ++ l2), (rs1 ++ rs2), (res1 ++ res2), errs2.
  split; [reflexivity|]. rewrite packets_of_app. split; [by eapply (arrived_trans _ _ _ _ _ _ _ 0)|].
  split; [exact (progress_trans _ _ _ _ _ _ _ _ _ _ Hpg Hpg2)|]. split; [done|].
  split; [|split].
  - rewrite publications_tried_app by apply Ha. rewrite <- (av_detector _ _ _ _ _ Ha).
    by eapply served_trans.
  - intros He. destruct (Hend He) as [?|[?|?]]; [by left|by right; left|].
    right; right. apply elem_of_app. by right.
  - intros Hs'. apply Hstop2. eapply stop_within_next; [done..|].
    destruct (w_stop w || env_stop env (w_time w)); [by specialize (Hstop eq_refl)|done].
Qed.

Lemma receiver_runs fuel self w q :
  stats_ok (stats_ self) -> world_repr ProducerSide w (egress_ self) q ->
  is_open (w_held w) (receiver_socket_fd_ (udp_ self)) = true ->
  exists ended self' w' q' l rs results errs,
    run_io (Receiver_run fuel self) w = Some ((ended, self'), w') /\
    ran self w q ended self' w' q' l rs results errs /\
    (stop_within env w fuel -> ended = true).
Proof.
  intros Hst Hw Ho. unfold Receiver_run. rewrite interp_bind.
  destruct (receiver_loop_runs fuel self (replicate (Z.to_nat kMaxPacketBytes) Byte.x00) w q Hst Hw Ho)
    as (ended&self1&w1&q1&l1&rs&results&errs&->&Ha&Hpg&Hw1&Hs&Hend&Hstop).
  cbn [mbind option_bind fst snd]. destruct ended.
  2: { exists false, self1, w1, q1, l1, rs, results, errs. split; [reflexivity|].
       split; [|done]. split; try done; [|cbn [closing]; rewrite app_nil_r; apply Hs].
       rewrite <- published_in_tried by apply Ha. apply Hs. }
  match goal with |- context [run_io (call (on_ring (close_publication ?h)) ≫= ?f) w1] =>
    destruct (close_step f w1 h q1 Hw1) as (w2&q2&l2&->&Hpg2&Hw2&Hh2&Hc2&Hj2) end.
  rewrite interp_ret. exists true, self1, w2, q2, (l1 ++ l2), rs, results, errs. split; [reflexivity|].
  split; [|done].
  pose proof (progress_trans _ _ _ _ _ _ _ _ _ _ Hpg Hpg2) as Hpg'. cbn [app] in Hpg'. rewrite app_nil_r in Hpg'.
  split; try done.
  - rewrite <- published_in_tried by apply Ha. by rewrite log_acquired_app, (sv_history _ _ _ _ Hs), Hh2, app_assoc.
  - exact (joint_app _ _ _ _ _ _ _ (sv_joint _ _ _ _ Hs) Hj2).
  - intros _. destruct (Hend eq_refl) as [?|?]; [|by right]. left. by apply (pg_stop _ _ _ _ _ _ Hpg2).
Qed.
End Effects.

(** ** Facts about the counts *)

Lemma identified_ok packets : Forall packet_id_ok (map fst (identified packets)).
Proof.
  induction packets as [|p packets IH]; [done|]. unfold identified in *. cbn.
  destruct (identify p) as [[id ev]|] eqn:Hid; [|done]. constructor; [|done]. cbn.
  unfold identify in Hid. destruct p as [data|]; [|done]. cbn in Hid.
  destruct (decode_data data) as [[d|]|] eqn:Hd; try done.
  destruct (decoded_facts data d Hd) as (ev'&Hev&_&Hok&_). rewrite Hev in Hid.
  injection Hid as <- <-. done.
Qed.

Lemma count_statuses tr :
  count is_accepted tr + count (has_status PacketStatus_DuplicateOrOld) tr +
  count (has_status PacketStatus_WrongSession) tr = Z.of_nat (length tr).
Proof.
  induction tr as [|[id r] tr IH]; [done|]. rewrite !count_cons. simpl length.
  unfold is_accepted at 1, has_status at 1 3. cbn [snd].
  repeat case_bool_decide; try congruence; try lia. by destruct (status r).
Qed.

Lemma accepted_count d packets :
  Z.of_nat (length (accepted_events d packets)) = count is_accepted (verdicts d packets).
Proof.
  unfold accepted_events. pose proof (length_verdicts d packets) as Hl. revert Hl.
  generalize (verdicts d packets) (identified packets). clear.
  intros tr. induction tr as [|x tr IH]; intros [|i ids] Hl; try done. simpl in Hl.
  injection Hl as Hl. specialize (IH ids Hl). rewrite count_cons. simpl.
  destruct (is_accepted x); simpl length; lia.
Qed.

Lemma selected_count {A} (l : list A) bs :
  length l = length bs -> Z.of_nat (length (select l bs)) = count (fun b => b) bs.
Proof.
  revert l. induction bs as [|b bs IH]; intros [|x l] Hl; try done. simpl in Hl.
  injection Hl as Hl. specialize (IH l Hl). rewrite count_cons. destruct b; simpl; lia.
Qed.

Lemma count_map {A B} (f : B -> bool) (g : A -> B) l : count f (map g l) = count (fun x => f (g x)) l.
Proof. induction l as [|x l IH]; [done|]. simpl. by rewrite !count_cons, IH. Qed.

Lemma stored_count d packets results :
  length results = length (accepted_events d packets) ->
  Z.of_nat (length (stored_events d packets results)) = count is_ok results.
Proof.
  intros Hl. unfold stored_events. rewrite selected_count by by rewrite length_map.
  by rewrite count_map.
Qed.

Lemma accepted_length tr : Z.of_nat (length (accepted tr)) = count is_accepted tr.
Proof. unfold accepted. by rewrite length_map. Qed.

(** A fresh detector: everything up to its last sequence was accepted or counted missing. *)
Lemma fresh_detector_total packets :
  last_sequence_ (detector_after GapDetector_init packets) =
    total_gap (verdicts GapDetector_init packets) + count is_accepted (verdicts GapDetector_init packets).
Proof.
  pose proof (check_all_accounts _ _ detector_init_ok (identified_ok packets)) as [_ _ _ _ _ _ Ht _ _].
  rewrite accepted_length in Ht. unfold detector_after, verdicts. cbn in Ht |- *. lia.
Qed.

(** ** Properties *)

(** The receiver may run: its peer is a consumer, [recvmsg] does what its documentation
    says, the segment represents a queue whose producer is the receiver, and its socket is
    open. *)
Record receiver_ready {W} (env : environment W) (self : Receiver) (w : world W) (q : queue) : Prop :=
  ReceiverReady {
    rr_peer : forall t, Forall (peer_allowed ProducerSide) (env_peer env t);
    rr_recv : recvmsg_documented (env_os env);
    rr_stats : stats_ok (stats_ self);
    rr_repr : world_repr ProducerSide w (egress_ self) q;
    rr_socket : is_open (w_held w) (receiver_socket_fd_ (udp_ self)) = true;
  }.

Lemma receiver_run_runs {W} (env : environment W) fuel self w q :
  receiver_ready env self w q ->
  exists ended self' w' q' l rs results errs,
    interp (engine_handler env) (Receiver_run fuel self) w = Some ((ended, self'), w') /\
    ran env self w q ended self' w' q' l rs results errs /\
    (stop_within env w fuel -> ended = true).
Proof. intros []. by apply receiver_runs. Qed.

(** C29. Whatever the network, the consumer and the other threads do, the receiver's loop
    never faults. It tries to publish the events of the well-formed packets the gap detector
    accepts, all of them, once, in order of arrival, and nothing else, and closes the ring
    when it has ended: there is an order of these operations and the consumer's [l] in which
    the queue gives exactly the results each of them got, so an event is refused only when
    the ring is full, closed or too small for it. The consumer has acquired, or will find in
    the ring, exactly the events that were not refused, in this order, each once. *)
Theorem receiver_publishes_in_order {W} (env : environment W) fuel self w q :
  receiver_ready env self w q ->
  exists ended self' w' q' l rs results,
    interp (engine_handler env) (Receiver_run fuel self) w = Some ((ended, self'), w') /\
    w_received w' = w_received w ++ rs /\ w_peer_log w' = w_peer_log w ++ l /\
    world_repr ProducerSide w' (egress_ self') q' /\
    gap_detector_ self' = detector_after (gap_detector_ self) (packets_of rs) /\
    length results = length (accepted_events (gap_detector_ self) (packets_of rs)) /\
    joint q (publications_tried (gap_detector_ self) (packets_of rs) results ++ closing ended) l q' /\
    q_pending q ++ stored_events (gap_detector_ self) (packets_of rs) results =
      log_acquired l ++ q_pending q'.
Proof.
  intros Hr. destruct (receiver_run_runs env fuel self w q Hr)
    as (e&s'&w'&q'&l&rs&res&errs&Hrun&[[] [] ? ? ? ? ?]&_).
  by exists e, s', w', q', l, rs, res.
Qed.

(** C30. Accounting, modulo [2 ^ 64], for a receiver with fresh counters and detector: every
    datagram is counted once as malformed, duplicate, foreign or an event; every event
    once as stored, refused by a full ring or refused otherwise; dropped events are the
    rejected and refused ones; and the packets counted missing and the events together
    number the sequences up to the highest accepted one. *)
Theorem receiver_accounting {W} (env : environment W) fuel self w q :
  receiver_ready env self w q ->
  stats_ self = EngineStats_init -> gap_detector_ self = GapDetector_init ->
  exists ended self' w' q' l rs stored,
    interp (engine_handler env) (Receiver_run fuel self) w = Some ((ended, self'), w') /\
    w_received w' = w_received w ++ rs /\ w_peer_log w' = w_peer_log w ++ l /\
    world_repr ProducerSide w' (egress_ self') q' /\
    q_pending q ++ stored = log_acquired l ++ q_pending q' /\
    let st := stats_ self' in
    packets_received st = u64 (Z.of_nat (length (packets_of rs))) /\
    u64 (malformed_packets st + duplicate_or_old_packets st + wrong_session_packets st + events_in st) =
      packets_received st /\
    events_out st = u64 (Z.of_nat (length stored)) /\
    u64 (events_out st + egress_full st + egress_errors st) = events_in st /\
    events_dropped st = u64 (duplicate_or_old_packets st + wrong_session_packets st +
                             egress_full st + egress_errors st) /\
    u64 (packets_missed st + events_in st) = u64 (last_sequence_ (gap_detector_ self')).
Proof.
  intros Hr Hst Hd. destruct (receiver_run_runs env fuel self w q Hr)
    as (e&s'&w'&q'&l&rs&res&errs&Hrun&[[_ _ _ Hdet Hstats Hres] Hpg Hw' Hh _ _ _]&_).
  rewrite Hd in *. exists e, s', w', q', l, rs, (stored_events GapDetector_init (packets_of rs) res).
  split_and!; try done; try apply Hpg. cbv zeta.
  pose proof (count_statuses (verdicts GapDetector_init (packets_of rs))) as Hs.
  pose proof (accepted_count GapDetector_init (packets_of rs)) as Ha.
  pose proof (count_negb is_accepted (verdicts GapDetector_init (packets_of rs))) as Hn.
  pose proof (count_negb is_ok res) as Ho.
  pose proof (fresh_detector_total (packets_of rs)) as Ht. rewrite Hdet.
  pose proof (stored_count _ _ _ Hres) as Hso.
  rewrite Hstats, Hst, Hso, Ht. unfold stats_add, stats_zip, received_counts. cbn.
  rewrite !Z.add_0_l. unfold wrap. split_and!; try done; Z.push_pull_mod; f_equal; lia.
Qed.

(** C31. When the loop has ended the egress ring is closed, so its consumer will find the
    remaining events and then [Closed]; and the loop only ends because a stop was requested,
    an error of the socket was counted, or the ring refused an event as closed. The
    [results] are those its publications got: in some order of these, the closing of the
    ring and the consumer's operations [l] the queue gives exactly them. *)
Theorem receiver_closes {W} (env : environment W) fuel self w q :
  receiver_ready env self w q -> stats_ self = EngineStats_init ->
  exists ended self' w' q' l rs results,
    interp (engine_handler env) (Receiver_run fuel self) w = Some ((ended, self'), w') /\
    w_received w' = w_received w ++ rs /\ w_peer_log w' = w_peer_log w ++ l /\
    world_repr ProducerSide w' (egress_ self') q' /\
    length results = length (accepted_events (gap_detector_ self) (packets_of rs)) /\
    joint q (publications_tried (gap_detector_ self) (packets_of rs) results ++ closing ended) l q' /\
    events_in (stats_ self') = u64 (Z.of_nat (length results)) /\
    (ended = true -> q_state q' = RingState_Closed /\
       (w_stop w' = true \/ receive_errors (stats_ self') = 1 \/ PublishResult_Closed ∈ results)).
Proof.
  intros Hr Hst. destruct (receiver_run_runs env fuel self w q Hr)
    as (e&s'&w'&q'&l&rs&res&errs&Hrun&[[_ _ _ Hdet Hstats Hres] Hpg Hw' _ Hj Hc He]&_).
  exists e, s', w', q', l, rs, res.
  split_and!; try done; try apply Hpg.
  - rewrite Hstats, Hst. unfold stats_add, stats_zip, received_counts. cbn.
    by rewrite <- accepted_count, <- Hres.
  - intros Hend. split; [by apply Hc|]. destruct (He Hend) as [?|[->|Hcl]]; [by left| |by right; right].
    right; left. by rewrite Hstats, Hst.
Qed.

(** C32. Termination: the loop ends, with the ring closed, within [fuel] turns if a stop was
    requested before or is requested within that many steps. *)
Theorem receiver_terminates {W} (env : environment W) fuel self w q :
  receiver_ready env self w q -> stop_within env w fuel ->
  exists self' w' q', interp (engine_handler env) (Receiver_run fuel self) w = Some ((true, self'), w') /\
    world_repr ProducerSide w' (egress_ self') q' /\ q_state q' = RingState_Closed.
Proof.
  intros Hr Hs. destruct (receiver_run_runs env fuel self w q Hr)
    as (e&s'&w'&q'&l&rs&res&errs&Hrun&[]&Hstop).
  rewrite (Hstop Hs) in *. exists s', w', q'. split_and!; [done..|]. auto.
Qed.

(** ** A concrete run *)

(** The network delivers the same packet again and again; the consumer reads; a stop is
    requested at the ninth step. *)
Definition demo_datagram : list byte := data_packet 7 3 (demo_event 1).

Definition demo_env : environment unit :=
  Environment (demo_system demo_datagram) (fun t => Nat.eqb t 9)
    (fun t => match t with
              | 5%nat => [OpAcquire]
              | 6%nat => [OpRelease; OpAcquire]
              | _ => []
              end).

Definition demo_receiver : Receiver :=
  ReceiverOf ReceiverConfig_default Segment_default (sys_producer demo_sys) (UdpRcv 3 4000)
    EngineStats_init GapDetector_init.

Definition demo_world : world unit :=
  World tt (open_fd no_resources 3) 0 false (sys_bytes demo_sys) (sys_consumer demo_sys) [] [] [].

Lemma demo_receiver_ready :
  receiver_ready demo_env demo_receiver demo_world (empty_queue demo_config).
Proof.
  split.
  - intros [|[|[|[|[|[|[|t]]]]]]]; cbn [demo_env env_peer];
      repeat (apply Forall_cons; split; [by split|]); done.
  - apply demo_system_documented.
  - unfold stats_ok. repeat (apply Forall_cons; split; [done|]). done.
  - apply demo_sys_repr.
  - done.
Qed.

Definition demo_run := interp (engine_handler demo_env) (Receiver_run 10 demo_receiver) demo_world.

(** Two packets are missing in front of the first, which is stored and acquired; the later
    copies are duplicates. *)
Example demo_receiver_run_result :
  (fun r => (r.1.1, packets_received (stats_ r.1.2), packets_missed (stats_ r.1.2),
             duplicate_or_old_packets (stats_ r.1.2), events_out (stats_ r.1.2),
             log_acquired (w_peer_log r.2))) <$> demo_run =
    Some (true, 3, 2, 2, 1, [demo_event 1]).
Proof. vm_compute. reflexivity. Qed.

Lemma receiver_publishes_in_order_witness :
  exists ended self' w' q' l rs results, demo_run = Some ((ended, self'), w') /\
    w_received w' = rs /\ w_peer_log w' = l /\ world_repr ProducerSide w' (egress_ self') q' /\
    gap_detector_ self' = detector_after GapDetector_init (packets_of rs) /\
    length results = length (accepted_events GapDetector_init (packets_of rs)) /\
    joint (empty_queue demo_config)
      (publications_tried GapDetector_init (packets_of rs) results ++ closing ended) l q' /\
    stored_events GapDetector_init (packets_of rs) results = log_acquired l ++ q_pending q'.
Proof. exact (receiver_publishes_in_order demo_env 10 demo_receiver demo_world _ demo_receiver_ready). Defined.

Lemma receiver_accounting_witness :
  exists ended self' w' q' l rs stored, demo_run = Some ((ended, self'), w') /\
    w_received w' = rs /\ w_peer_log w' = l /\ world_repr ProducerSide w' (egress_ self') q' /\
    stored = log_acquired l ++ q_pending q' /\
    let st := stats_ self' in
    packets_received st = u64 (Z.of_nat (length (packets_of rs))) /\
    u64 (malformed_packets st + duplicate_or_old_packets st + wrong_session_packets st + events_in st) =
      packets_received st /\
    events_out st = u64 (Z.of_nat (length stored)) /\
    u64 (events_out st + egress_full st + egress_errors st) = events_in st /\
    events_dropped st = u64 (duplicate_or_old_packets st + wrong_session_packets st +
                             egress_full st + egress_errors st) /\
    u64 (packets_missed st + events_in st) = u64 (last_sequence_ (gap_detector_ self')).
Proof.
  exact (receiver_accounting demo_env 10 demo_receiver demo_world _ demo_receiver_ready eq_refl eq_refl).
Defined.

Lemma receiver_closes_witness :
  exists ended self' w' q' l rs results, demo_run = Some ((ended, self'), w') /\
    w_received w' = rs /\ w_peer_log w' = l /\ world_repr ProducerSide w' (egress_ self') q' /\
    length results = length (accepted_events GapDetector_init (packets_of rs)) /\
    joint (empty_queue demo_config)
      (publications_tried GapDetector_init (packets_of rs) results ++ closing ended) l q' /\
    events_in (stats_ self') = u64 (Z.of_nat (length results)) /\
    (ended = true -> q_state q' = RingState_Closed /\
       (w_stop w' = true \/ receive_errors (stats_ self') = 1 \/ PublishResult_Closed ∈ results)).
Proof.
  exact (receiver_closes demo_env 10 demo_receiver demo_world _ demo_receiver_ready eq_refl).
Defined.

Lemma receiver_terminates_witness :
  exists self' w' q', demo_run = Some ((true, self'), w') /\
    world_repr ProducerSide w' (egress_ self') q' /\ q_state q' = RingState_Closed.
Proof.
  refine (receiver_terminates demo_env 10 demo_receiver demo_world _ demo_receiver_ready _).
  right. exists 9%nat. split; [cbn; lia|done].
Defined.
