(* ===== verification/ReceiverConcurrent.v ===== *)
(** * The receiver beside a concurrent consumer

    The receiver's loop keeps to the interface of the ring, so the refinement theorem of
    [EngineWeak] applies: what [ReceiverSpec] proves in every environment holds when another
    process consumes at the same time, access by access, under release/acquire memory. *)

From S2P Require Import Prelude Bytes Event Protocol GapDetector Memory RingLayout Ring RingSpec RingRefinement.
From S2P Require Import RingSafety RingSystem RingInit Weak RingWeakSpec RingHistory RingConcurrent Posix Udp Segment Config.
From S2P Require Import Engine EngineWeak Receiver ReceiverSpec.
From S2P Require Sender SenderSpec SenderConcurrent.

(** ** The loop keeps to the interface *)

Lemma process_datagram_produces self datagram Q :
  (forall next self' h, egress_ self' = h -> Q (next, self') h) ->
  produces Q (egress_ self) (process_datagram self datagram).
Proof.
  intros HQ. unfold process_datagram. cbv zeta.
  destruct (decode_data datagram) as [[d|e]|] eqn:Hd; [|by apply produces_done, HQ|by constructor].
  destruct (check _ _ _) as [checked detector].
  destruct (decide (status checked <> PacketStatus_Accepted)); [by apply produces_done, HQ|].
  destruct (decoded_facts datagram d Hd) as (ev&->&Hev&_).
  apply produces_publish; [done|]. intros r h'. by apply produces_done, HQ.
Qed.

Lemma Receiver_once_produces self packet Q :
  (forall next self' packet' h, egress_ self' = h -> Q (next, (self', packet')) h) ->
  produces Q (egress_ self) (Receiver_once self packet).
Proof.
  intros HQ. unfold Receiver_once. apply produces_call; [done|]. intros [|]; [by apply produces_done, HQ|].
  apply produces_bind, produces_syscalls. intros [[datagram|e] packet'].
  - destruct (_ <? _); [by constructor|]. apply produces_bind, process_datagram_produces.
    intros next self' h Hh. by apply produces_done, HQ.
  - destruct (_ || _); [by apply produces_done, HQ|]. destruct (decide _); by apply produces_done, HQ.
Qed.

Lemma Receiver_loop_produces fuel self packet Q :
  (forall ended self' h, egress_ self' = h -> Q (ended, self') h) ->
  produces Q (egress_ self) (Receiver_loop fuel self packet).
Proof.
  intros HQ. revert self packet. induction fuel as [|fuel IH]; intros self packet; [by apply produces_done, HQ|].
  cbn [Receiver_loop]. apply produces_bind, Receiver_once_produces. intros next self' packet' h Hh. subst h.
  destruct (decide (next = Break)); [by apply produces_done, HQ|apply IH].
Qed.

Lemma Receiver_run_produces fuel self : produces (fun _ _ => True) (egress_ self) (Receiver_run fuel self).
Proof.
  unfold Receiver_run. apply produces_bind, Receiver_loop_produces. intros ended self' h Hh. subst h.
  destruct ended; [|by apply produces_done]. apply produces_close. intros b. by apply produces_done.
Qed.

(** The loop runs to its end in every environment. *)
Lemma receiver_ready_with {W} (env : environment W) self w q g :
  receiver_ready env self w q -> allowed ProducerSide g -> receiver_ready (with_peer env g) self w q.
Proof. intros [] Hg. by split. Qed.

Lemma receiver_defined {W} (env : environment W) fuel self w q :
  receiver_ready env self w q -> defined env ProducerSide (Receiver_run fuel self) w.
Proof.
  intros Hr g Hg. destruct (receiver_run_runs (with_peer env g) fuel self w q (receiver_ready_with _ _ _ _ _ Hr Hg))
    as (e&s'&w'&q'&l&rs&res&errs&Hrun&_). unfold run_with. by rewrite Hrun.
Qed.

(** ** Executions *)

Section Beside.
Context {W : Type} (env : environment W) (fuel : nat) (self : Receiver) (u : world W) (q : queue).
Context (Hr : receiver_ready env self u q) (Huse : in_use q).
Context (ops : list ring_op) (Hops : forallb consumer_op ops = true).

Lemma receiver_beside_completes schedule : completes schedule (beside_consumer env (Receiver_run fuel self) u ops).
Proof using All.
  pose proof (rr_repr _ _ _ _ Hr) as Hs. pose proof (repr_valid _ _ (sys_segment _ _ Hs)) as Hv. cbn in Hv.
  eapply safe_completes; [exact Hv|]. eapply beside_consumer_safe; try done.
  - eexists. apply Receiver_run_produces.
  - by eapply receiver_defined.
Qed.

(** A finished execution is a run of [ReceiverSpec]; the concurrent consumer may have found
    more of what the receiver stored than the one of that run. *)
Lemma receiver_beside_finished schedule s ended self' w' rs hc' :
  execute schedule (beside_consumer env (Receiver_run fuel self) u ops) = Some s ->
  finished_with s ((ended, self'), w') (rs, hc') ->
  (ResAcquire (Unexpected AcquireError_InvalidSlot) ∉ rs) /\
  exists g u' q' l arrivals results errs pending,
    ran (with_peer env g) self u q ended self' u' q' l arrivals results errs /\ locally w' u' /\
    (exists rest, successes (zip ops rs) = l ++ rest) /\
    q_pending q ++ stored_events (gap_detector_ self) (packets_of arrivals) results = acquired rs ++ pending /\
    (ResAcquire (Unexpected AcquireError_Closed) ∈ rs -> pending = []).
Proof using All.
  intros Hrun Hfin.
  destruct (beside_consumer_finished env (Receiver_run fuel self) u (egress_ self) q Huse
    (ex_intro _ _ (Receiver_run_produces fuel self)) (receiver_defined env fuel self u q Hr) (rr_repr _ _ _ _ Hr)
    ops Hops schedule s (ended, self') w' rs hc' Hrun Hfin)
    as (Hl&Hvalid&log&rest&qf&pending&(g&u'&h&Hg&Hengine&Hu'&Hlog&Hqf)&Hsuc&Hleg&Hlok&Hpending&Hclosed).
  split; [done|].
  destruct (receiver_run_runs (with_peer env g) fuel self u q (receiver_ready_with _ _ _ _ _ Hr Hg))
    as (e&self2&u2&q2&l&arrivals&results&errs&Hrun2&Hran&_).
  unfold run_with in Hengine. rewrite Hrun2 in Hengine. injection Hengine as -> -> ->.
  exists g, u', q2, l, arrivals, results, errs, pending. split; [done|]. split; [done|].
  pose proof Hran as [_ [] Hq2 Hhist _ _ _]. rewrite Hlog in pg_log. apply app_inv_head in pg_log as <-.
  split; [by exists rest|]. split; [|done].
  by rewrite (legal_stored u' h _ q qf q2 log _ (repr_ok _ _ (sys_segment _ _ (rr_repr _ _ _ _ Hr)))
    Hleg Hlok Hqf Hq2 Hhist).
Qed.
End Beside.

(** C9. A receiver beside a concurrent consumer, access by access, under release/acquire
    memory: no execution has undefined behaviour, and every one can be continued until both
    have finished. When they have, the receiver has tried to publish the events of the
    accepted packets, all of them, once, in order, and has counted what arrived and the
    results; these are the results of the queue in some order of its operations and a first
    part [seen] of the consumer's successful ones. The consumer has acquired, in order and
    each once, a prefix of what was pending and of the events that were not refused, without
    ever finding an invalid slot; and all of them when it was told the ring is closed. *)
Theorem receiver_publishes_concurrently {W} (env : environment W) fuel self u q ops schedule :
  receiver_ready env self u q -> in_use q -> forallb consumer_op ops = true ->
  completes schedule (beside_consumer env (Receiver_run fuel self) u ops) /\
  forall s ended self' w' rs hc',
    execute schedule (beside_consumer env (Receiver_run fuel self) u ops) = Some s ->
    finished_with s ((ended, self'), w') (rs, hc') ->
    (ResAcquire (Unexpected AcquireError_InvalidSlot) ∉ rs) /\
    exists arrivals results errs seen unseen q' pending,
      w_received w' = w_received u ++ arrivals /\
      gap_detector_ self' = detector_after (gap_detector_ self) (packets_of arrivals) /\
      length results = length (accepted_events (gap_detector_ self) (packets_of arrivals)) /\
      stats_ self' = stats_add (stats_ self)
        (received_counts (packets_of arrivals) (verdicts (gap_detector_ self) (packets_of arrivals)) results errs) /\
      joint q (publications_tried (gap_detector_ self) (packets_of arrivals) results ++ closing ended) seen q' /\
      successes (zip ops rs) = seen ++ unseen /\
      q_pending q ++ stored_events (gap_detector_ self) (packets_of arrivals) results = acquired rs ++ pending /\
      (ResAcquire (Unexpected AcquireError_Closed) ∈ rs -> pending = []).
Proof.
  intros Hr Huse Hops. split; [by eapply receiver_beside_completes|].
  intros s ended self' w' rs hc' Hrun Hfin.
  destruct (receiver_beside_finished env fuel self u q Hr Huse ops Hops schedule s ended self' w' rs hc' Hrun Hfin)
    as (Hvalid&g&u'&q'&l&arrivals&results&errs&pending&[[] [] _ _ Hj _ _]&Hu'&[unseen Hseen]&Hpending&Hclosed).
  destruct (locally_same _ _ Hu') as (_&_&Hrecv).
  split; [done|]. exists arrivals, results, errs, l, unseen, q', pending. by split; [rewrite <- Hrecv|].
Qed.

(** ** A concrete execution *)

(** The demo receiver beside the consumer of [RingConcurrent], in lockstep; it reads the
    newest messages. *)
Definition demo_schedule : list (thread * nat) := demo_lockstep 9 ++ demo_lockstep 9.

Abbreviation demo_beside := (beside_consumer demo_env (Receiver_run 10 demo_receiver) demo_world demo_acquisitions).

(** The consumer finds the ring empty twice, then the event, then the ring closed. *)
Definition demo_found : list ring_result :=
  concat (replicate 2 [ResAcquire (Unexpected AcquireError_Empty); ResRelease false]) ++
  [ResAcquire (Value (demo_event 1)); ResRelease true] ++
  concat (replicate 2 [ResAcquire (Unexpected AcquireError_Closed); ResRelease false]).

(** Both finish; three packets arrived. *)
Example demo_receiver_results :
  (fun r => (r.1.1.1, length (packets_of (w_received r.1.2)), r.2.1)) <$>
    (execute demo_schedule demo_beside ≫= outcome) = Some (true, 3%nat, demo_found).
Proof. vm_compute. reflexivity. Qed.

Lemma demo_receiver_finished :
  exists s self' w' hc', execute demo_schedule demo_beside = Some s /\
    finished_with s ((true, self'), w') (demo_found, hc').
Proof.
  pose proof demo_receiver_results as Hres.
  destruct (execute demo_schedule demo_beside) as [s|]; [|discriminate Hres]. cbn [mbind option_bind] in Hres.
  destruct (outcome s) as [[[[ended self'] w'] [rs hc']]|] eqn:Hout; [|discriminate Hres].
  injection Hres as -> _ ->. exists s, self', w', hc'. split; [reflexivity|by apply outcome_finished].
Qed.

Lemma receiver_publishes_concurrently_witness :
  completes demo_schedule demo_beside /\
  exists s self' w' hc' results seen unseen q', execute demo_schedule demo_beside = Some s /\
    finished_with s ((true, self'), w') (demo_found, hc') /\
    length results = length (accepted_events GapDetector_init (packets_of (w_received w'))) /\
    joint (empty_queue demo_config)
      (publications_tried GapDetector_init (packets_of (w_received w')) results ++ closures 1) seen q' /\
    successes (zip demo_acquisitions demo_found) = seen ++ unseen /\
    stored_events GapDetector_init (packets_of (w_received w')) results = [demo_event 1].
Proof.
  destruct (receiver_publishes_concurrently demo_env 10 demo_receiver demo_world _ demo_acquisitions demo_schedule
    demo_receiver_ready (or_introl eq_refl) eq_refl) as [Hc Hf].
  split; [exact Hc|]. destruct demo_receiver_finished as (s&self'&w'&hc'&Hrun&Hfin).
  destruct (Hf s true self' w' demo_found hc' Hrun Hfin)
    as (_&arrivals&results&errs&seen&unseen&q'&pending&Hrecv&_&Hlen&_&Hj&Hseen&Hev&Hpending).
  cbn [w_received demo_world app] in Hrecv. rewrite <- Hrecv in *.
  rewrite Hpending, app_nil_r in Hev by (apply list_elem_of_In; cbn; tauto).
  exists s, self', w', hc', results, seen, unseen, q'. split; [exact Hrun|]. split; [exact Hfin|].
  split; [exact Hlen|]. split; [exact Hj|]. split; [exact Hseen|exact Hev].
Defined.

(** Both engines are programs of the kind the refinement theorem of [EngineWeak] is about. *)
Lemma engine_refines_concurrency_witness :
  (exists s hp' self' w' log rest q',
     execute SenderConcurrent.demo_schedule SenderConcurrent.demo_beside = Some s /\
     finished_with s (SenderConcurrent.demo_published, hp') ((true, self'), w') /\
     engine_run SenderSpec.demo_env ConsumerSide (Sender.Sender_run 10 SenderSpec.demo_sender) SenderSpec.demo_world
       (true, self') w' log q' /\
     successes (zip demo_publications SenderConcurrent.demo_published) = log ++ rest) /\
  (exists s self' w' hc' log rest q',
     execute demo_schedule demo_beside = Some s /\ finished_with s ((true, self'), w') (demo_found, hc') /\
     engine_run demo_env ProducerSide (Receiver_run 10 demo_receiver) demo_world (true, self') w' log q' /\
     successes (zip demo_acquisitions demo_found) = log ++ rest).
Proof.
  split.
  - destruct SenderConcurrent.demo_sender_finished as (s&hp'&self'&w'&Hrun&Hfin&_).
    destruct (proj2 (proj1 (engine_refines_concurrency SenderSpec.demo_env
        (Sender.Sender_run 10 SenderSpec.demo_sender) SenderSpec.demo_world _ (empty_queue demo_config) demo_publications
        SenderConcurrent.demo_schedule (or_introl eq_refl))
      (ex_intro _ _ (SenderConcurrent.Sender_run_consumes 10 SenderSpec.demo_sender))
      (SenderConcurrent.sender_defined _ 10 _ _ _ SenderSpec.demo_sender_ready)
      (SenderSpec.rd_repr _ _ _ _ SenderSpec.demo_sender_ready) demo_publications_ok eq_refl)
      s _ _ _ _ Hrun Hfin) as (log&rest&q'&Hengine&Hsuc).
    exists s, hp', self', w', log, rest, q'. split; [exact Hrun|]. split; [exact Hfin|].
    split; [exact Hengine|exact Hsuc].
  - destruct demo_receiver_finished as (s&self'&w'&hc'&Hrun&Hfin).
    destruct (proj2 (proj2 (engine_refines_concurrency demo_env (Receiver_run 10 demo_receiver) demo_world
        _ (empty_queue demo_config) demo_acquisitions demo_schedule (or_introl eq_refl))
      (ex_intro _ _ (Receiver_run_produces 10 demo_receiver))
      (receiver_defined _ 10 _ _ _ demo_receiver_ready) (rr_repr _ _ _ _ demo_receiver_ready) eq_refl)
      s _ _ _ _ Hrun Hfin) as (log&rest&q'&Hengine&Hsuc).
    exists s, self', w', hc', log, rest, q'. split; [exact Hrun|]. split; [exact Hfin|].
    split; [exact Hengine|exact Hsuc].
Defined.
