(* ===== verification/Lifecycle.v ===== *)
(** * Start-up and shutdown

    [Sender::initialize], [Receiver::initialize] and the two destructors, over the
    resources of the system and the bytes of the segment: what a failed start-up held it
    has given back, and a started engine satisfies what the theorems about its loop
    ([SenderSpec], [ReceiverSpec]) assume. *)

From S2P Require Import Prelude Bytes Event Protocol GapDetector Memory RingLayout Ring RingSpec.
From S2P Require Import RingGeometry RingRefinement RingSafety RingSystem RingInit Posix Udp Segment.
From S2P Require Import Config Engine Sender SenderSpec.
From S2P Require Receiver ReceiverSpec RingConcurrent EngineWeak SenderConcurrent ReceiverConcurrent.
Import RingConcurrent(consumer_op).
Import EngineWeak(completes, beside_producer, beside_consumer).
Import Receiver(Receiver_initialize, Receiver_destroy, initialize_egress, listen_address, invalid_receiver_config).

(** ** Documented behaviour of the mappings

    [mmap] gives page-aligned nonzero addresses, [munmap] of a mapping succeeds, and
    [fstat] gives the size of the object, [n] bytes. *)
Record mapping_documented {W} (os : system W) (n : nat) : Prop := MappingDocumented {
  md_mmap : forall size fd w, let a := ret (os _ (sys_mmap size fd) w).1 in
              a <> MAP_FAILED -> a <> 0 /\ a mod 4096 = 0;
  md_munmap : munmap_documented os;
  md_fstat : forall fd w, let r := (os _ (sys_fstat_size fd) w).1 in
               ret r.1 <> -1 -> r.2 = Z.of_nat n;
}.

Lemma mapping_mmap {W} (os : system W) n : mapping_documented os n -> mmap_documented os.
Proof.
  intros [Hm _ _] size fd w. destruct (decide (ret (os _ (sys_mmap size fd) w).1 = MAP_FAILED)) as [->|H].
  - done.
  - by apply Hm.
Qed.

(** The buffer of a mapped segment passes the checks of the ring on addresses. *)
Lemma mapped_memory {W} (os : system W) n s size :
  mapping_documented os n -> mapped os s -> 192 <= size ->
  invalid_memory (Memory (address_ s) size) = false.
Proof.
  intros [Hm _ _] (Hf&z&fd&w&Ha) Hs. destruct (Hm z fd w) as [H0 Hal]; [congruence|].
  rewrite <- Ha in H0, Hal. unfold invalid_memory, ring_header_bytes, ring_memory_alignment.
  cbn [mem_data mem_size]. rewrite (proj2 (Z.eqb_neq _ _)), (proj2 (Z.ltb_ge _ _)) by done. cbn [orb].
  assert (address_ s mod 128 = 0) as ->; [|done].
  apply Z.mod_divide in Hal; [|done]. apply Z.mod_divide; [done|].
  eapply Z.divide_trans; [|exact Hal]. by exists 32.
Qed.

(** ** Choosing an identity *)

(** The answers of successive [getrandom] calls. *)
Fixpoint nth_random {W} (os : system W) (bytes : Z) (w : W) (k : nat) : sysret * Z :=
  match k with
  | O => (os _ (sys_getrandom bytes) w).1
  | S k => nth_random os bytes (os _ (sys_getrandom bytes) w).2 k
  end.

(** An answer that ends the loop: not interrupted, and short or not zero. *)
Definition decisive (bytes : Z) (answer : sysret * Z) : bool :=
  negb ((ret answer.1 <? 0) && (errno answer.1 =? EINTR))
  && (negb (ret answer.1 =? bytes) || negb (wrap (8 * bytes) answer.2 =? 0)).

Lemma choose_id_resources {W} (os : system W) bytes fuel w rs :
  0 <= bytes ->
  exists r w', interp (tracked os) (choose_id bytes fuel) (w, rs) = Some (r, (w', rs)) /\
    match r with
    | None => forall k, (k < fuel)%nat -> decisive bytes (nth_random os bytes w k) = false
    | Some (Value id) => is_uint (8 * bytes) id /\ id <> 0
    | Some (Unexpected _) => True
    end.
Proof.
  intros Hb. revert w. induction fuel as [|fuel IH]; intros w.
  { eexists None, w. split; [done|]. intros k Hk. lia. }
  cbn [choose_id]. rewrite interp_tracked. cbn [track mbind option_bind].
  assert (Hnth : forall d, decisive bytes (os _ (sys_getrandom bytes) w).1 = false ->
    (forall k, (k < fuel)%nat -> decisive bytes (nth_random os bytes d k) = false) ->
    d = (os _ (sys_getrandom bytes) w).2 ->
    forall k, (k < S fuel)%nat -> decisive bytes (nth_random os bytes w k) = false).
  { intros d H0 Hs -> [|k] Hk; [done|]. apply Hs. lia. }
  unfold decisive in Hnth at 1.
  destruct (os _ (sys_getrandom bytes) w) as [[got value] w1]. cbn [fst snd] in *.
  destruct ((ret got <? 0) && (errno got =? EINTR)).
  { destruct (IH w1) as (r&w'&->&Hr). eexists r, w'. split; [done|].
    destruct r as [[]|]; [done..|]. by eapply Hnth. }
  destruct (ret got =? bytes); cbn [negb]; [|by eexists _, _].
  cbv zeta. destruct (wrap (8 * bytes) value =? 0) eqn:Hz.
  { destruct (IH w1) as (r&w'&->&Hr). eexists r, w'. split; [done|].
    destruct r as [[]|]; [done..|]. by eapply Hnth. }
  eexists _, _. split; [reflexivity|]. to_prop. split; [apply wrap_is_uint; lia|done].
Qed.

(** ** System-call programs in the world of an engine *)

(** [moved w w']: time has passed and the peer has acted; the system state, the resources
    and the bytes are as given. *)
Record elapsed {W} (w w' : world W) (os : W) (held : resources) : Prop := Elapsed {
  el_os : w_os w' = os;
  el_held : w_held w' = held;
  el_stop : w_stop w = true -> w_stop w' = true;
}.

Section Startup.
Context {W : Type} (env : environment W).
(** An invariant of the segment and the peer's handle that the peer keeps. *)
Variable Inv : list byte -> SpscRing -> Prop.
Hypothesis Hinv : forall w, Inv (w_ring w) (w_peer w) ->
  exists w' l, env_step env w = Some w' /\ env_moved env w w' l /\ Inv (w_ring w') (w_peer w').
Abbreviation run_io := (interp (engine_handler env)).

Lemma startup_effect {A R} (e : engine R) (f : R -> io engine A) w :
  Inv (w_ring w) (w_peer w) ->
  exists w1, run_io (call e ≫= f) w = (r ← perform env e w1; run_io (f r.1) r.2) /\
    elapsed w w1 (w_os w) (w_held w) /\ Inv (w_ring w1) (w_peer w1).
Proof.
  intros Hw. destruct (Hinv w Hw) as (w1&l&Hstep&[M1 M2 _ _ _ M6 _]&Hw1).
  exists w1. split; [by rewrite interp_effect, Hstep|]. split; [|done].
  split; try done. rewrite M6. by intros ->.
Qed.

Lemma startup_syscalls {A} (p : io sys A) w r os held :
  Inv (w_ring w) (w_peer w) ->
  interp (tracked (env_os env)) p (w_os w, w_held w) = Some (r, (os, held)) ->
  exists w', run_io (syscalls p) w = Some (r, w') /\ elapsed w w' os held /\
    Inv (w_ring w') (w_peer w').
Proof.
  revert w. induction p as [a|R c k IH]; intros w Hw Hrun.
  { injection Hrun as <- <- <-. exists w. by split_and!. }
  destruct (Hinv w Hw) as (w1&l&Hstep&[M1 M2 _ _ _ M6 _]&Hw1).
  pose proof (interp_syscalls_call env c k w) as Hcall. pose proof (interp_tracked (env_os env) c k) as Ht.
  change (call c ≫= k) with (Call c k) in Hcall, Ht. rewrite Ht in Hrun. rewrite Hcall, Hstep.
  clear Hcall Ht. cbn [mbind option_bind perform tracked]. rewrite M1, M2.
  destruct (env_os env R c (w_os w)) as [a os1]. cbn [fst snd] in Hrun.
  destruct (track c a (w_held w)) as [held1|]; [|done]. cbn [mbind option_bind fst snd] in *.
  match goal with |- context [interp _ _ ?w2] =>
    destruct (IH a w2) as (w'&Hr&[E1 E2 E3]&Hw'); [exact Hw1|exact Hrun|] end.
  exists w'. split; [exact Hr|]. split; [|done]. split; try done.
  intros Hs. apply E3. cbn. rewrite M6. by rewrite Hs.
Qed.

(** The same in front of a continuation. *)
Lemma startup_bind {A B} (p : io sys A) (f : A -> io engine B) w r os held :
  Inv (w_ring w) (w_peer w) ->
  interp (tracked (env_os env)) p (w_os w, w_held w) = Some (r, (os, held)) ->
  exists w', run_io (syscalls p ≫= f) w = run_io (f r) w' /\ elapsed w w' os held /\
    Inv (w_ring w') (w_peer w').
Proof.
  intros Hw Hrun. destruct (startup_syscalls p w r os held Hw Hrun) as (w'&Hr&He&Hw').
  exists w'. split; [|done]. by rewrite interp_bind, Hr.
Qed.
End Startup.

(** Go on after a stretch of system calls whose tracked result [Hrun] is known. *)
#[local] Ltac after_calls step Hw Hrun w1 Hh1 Hw1 :=
  match goal with |- context [interp (engine_handler ?env) (syscalls ?p ≫= ?f) ?w] =>
    destruct (startup_bind env _ step p f w _ _ _ Hw Hrun) as (w1&->&[_ Hh1 _]&Hw1) end.

(** ** The sender *)

Section SenderStartup.
Context {W : Type} (env : environment W) (c : RingConfig).
Hypothesis Hpeer : forall t, Forall (peer_allowed ConsumerSide) (env_peer env t).
Hypothesis Hmap : mapping_documented (env_os env) (Z.to_nat (segment_size c)).
Abbreviation run_io := (interp (engine_handler env)).

(** The segment is a ring of configuration [c] with its producer; no consumer holds an event.
    Its queue satisfies [P], whatever the producer does. *)
Definition offering (P : queue -> Prop) (m : list byte) (producer : SpscRing) : Prop :=
  exists q, sys_repr (RingSys m producer (construct_handle c false)) q /\
    q_held q = false /\ q_config q = c /\ P q.

Definition offered : list byte -> SpscRing -> Prop := offering (fun _ => True).
(** After [attach] has accepted the ring. *)
Definition accepted : list byte -> SpscRing -> Prop := offering in_use.

Lemma offering_step (P : queue -> Prop) w :
  (forall q q' l, peer_moves ConsumerSide q q' l -> P q -> P q') -> offering P (w_ring w) (w_peer w) ->
  exists w' l, env_step env w = Some w' /\ env_moved env w w' l /\ offering P (w_ring w') (w_peer w').
Proof.
  intros HP (q&Hq&Hh&Hc&HPq).
  destruct (env_step_moves env ConsumerSide w (construct_handle c false) q Hq (Hpeer _))
    as (w1&q1&l&Hstep&Hm&Hw1&Hmoves). pose proof Hmoves as [_ Hc1 Hcons _ _].
  destruct (Hcons eq_refl) as (_&Hh1&_).
  exists w1, l. split; [done|]. split; [done|]. exists q1. split; [exact Hw1|].
  split; [congruence|]. split; [congruence|]. by apply (HP q q1 l).
Qed.

Lemma offered_step w :
  offered (w_ring w) (w_peer w) ->
  exists w' l, env_step env w = Some w' /\ env_moved env w w' l /\ offered (w_ring w') (w_peer w').
Proof. by apply offering_step. Qed.

Lemma accepted_step w :
  accepted (w_ring w) (w_peer w) ->
  exists w' l, env_step env w = Some w' /\ env_moved env w w' l /\ accepted (w_ring w') (w_peer w').
Proof. apply offering_step. intros q q' l Hm. apply Hm. Qed.

Lemma accepted_offered m p : accepted m p -> offered m p.
Proof. intros (q&?&?&?&_). by exists q. Qed.

(** Attaching to the ring. *)
Lemma attach_offered m p s :
  offered m p -> mapped (env_os env) s -> sized (env_os env) s -> 0 < size_ s ->
  exists r, run (attach (Memory (address_ s) (size_ s))) m = Some (r, m) /\
    forall h, r = Value h -> h = construct_handle c false /\ accepted m p.
Proof.
  intros (q&Hq&Hheld&Hc&_) Hmp (fd&w0&Hst&Hsz) _. destruct Hmap as [_ _ Hstat].
  specialize (Hstat fd w0 Hst). rewrite <- Hsz in Hstat.
  pose proof (sys_segment _ _ Hq) as Hm. cbn in Hm.
  pose proof (segment_size_bounds c) as Hb. rewrite <- Hc in Hb at 1.
  specialize (Hb (repr_valid _ _ Hm)).
  pose proof (repr_size _ _ Hm) as Hl. rewrite Hc in Hl.
  assert (invalid_memory (Memory (address_ s) (size_ s)) = false) as Hmem.
  { eapply mapped_memory; [exact Hmap|done|]. lia. }
  assert (Z.of_nat (length m) = mem_size (Memory (address_ s) (size_ s))) as Hlen by (cbn; lia).
  exists (attach_reference (Memory (address_ s) (size_ s)) m). split; [by apply attach_spec|].
  intros h Hh. destruct (attach_reference_Value _ _ _ _ Hm Hh) as [-> Huse]. rewrite Hc.
  split; [done|]. by exists q.
Qed.

(** What a started sender satisfies. *)
Record sender_started (inet_pton : string -> option Z) (config : SenderConfig) (held : resources)
    (self : Sender) (w : world W) : Prop := SenderStarted {
  st_ready : exists q, sender_ready env self w q /\ q_config q = c /\ in_use q;
  st_config : config_ self = config;
  st_destinations : parse_destinations inet_pton (receivers config) = Some (destinations_ self);
  st_fresh : packet_sequence_ self = 1 /\ stats_ self = EngineStats_init;
  st_held : w_held w = open_fd (with_segment (segment_ self) held) (sender_socket_fd_ (udp_ self));
  st_socket : 0 <= sender_socket_fd_ (udp_ self);
  st_name : name_ (segment_ self) = ingress_shm_name config /\ owner_ (segment_ self) = false;
}.

Lemma valid_sender_config config :
  invalid_sender_config config = false -> 44 <= max_datagram_bytes config <= 1416.
Proof.
  unfold invalid_sender_config, kMaxPacketBytes. change kMinDataPacketBytes with 44.
  intros H. to_prop. lia.
Qed.

(** Destroying the locals of a failed start-up. *)
Lemma drop_segment {A} (f : SharedMemorySegment -> io engine A) s held w :
  offered (w_ring w) (w_peer w) -> w_held w = with_segment s held ->
  exists w' s', run_io (syscalls (Segment_destroy s) ≫= f) w = run_io (f s') w' /\
    w_held w' = held /\ offered (w_ring w') (w_peer w').
Proof.
  intros Hw Hh. destruct (segment_destroy_resources (env_os env) s (w_os w) held (md_munmap _ _ Hmap))
    as (s'&os'&Hrun). rewrite <- Hh in Hrun.
  destruct (startup_bind env offered offered_step _ f w _ _ _ Hw Hrun) as (w'&Hr&[_ He _]&Hw').
  by exists w', s'.
Qed.

Lemma drop_udp {A} (f : unit -> io engine A) u held w :
  offered (w_ring w) (w_peer w) -> 0 <= sender_socket_fd_ u ->
  w_held w = open_fd held (sender_socket_fd_ u) ->
  exists w', run_io (syscalls (UdpSender_destroy u) ≫= f) w = run_io (f tt) w' /\
    w_held w' = held /\ offered (w_ring w') (w_peer w').
Proof.
  intros Hw Hfd Hh. destruct (destroy_sender_resources (env_os env) u (w_os w) held Hfd)
    as (os'&Hrun). rewrite <- Hh in Hrun.
  destruct (startup_bind env offered offered_step _ f w _ _ _ Hw Hrun) as (w'&Hr&[_ He _]&Hw').
  by exists w'.
Qed.

(** What [initialize] may give from [w] on, holding [held] at the start. *)
Definition sender_start (inet_pton : string -> option Z) (fuel : nat) (config : SenderConfig) (held : resources)
    (r : option (expected Sender InitError)) (w : world W) : Prop :=
  match r with
  | Some (Value self) => sender_started inet_pton config held self w
  | Some (Unexpected e) => w_held w = held /\
      (e = InitError_InvalidConfig <-> invalid_sender_config config = true)
  | None => exists os, forall k, (k < fuel)%nat -> decisive 4 (nth_random (env_os env) 4 os k) = false
  end.

(** With the ring attached. *)
Lemma session_starts inet_pton fuel config destinations seg held w :
  invalid_sender_config config = false ->
  parse_destinations inet_pton (receivers config) = Some destinations ->
  name_ seg = ingress_shm_name config -> owner_ seg = false ->
  accepted (w_ring w) (w_peer w) -> w_held w = with_segment seg held ->
  exists r w', run_io (initialize_session fuel config destinations seg (construct_handle c false)) w = Some (r, w') /\
    sender_start inet_pton fuel config held r w'.
Proof.
  intros Hcfg Hds Hname Hown Hw Hheld. unfold initialize_session, sender_start. rewrite Hcfg.
  pose proof (valid_sender_config config Hcfg) as Hmax.
  destruct (UdpSender_open_resources (env_os env) (w_os w) (w_held w)) as (r3&os3&held3&Hrun3&Hr3).
  after_calls accepted_step Hw Hrun3 w3 Hh3 Hw3.
  destruct r3 as [udp|e].
  2: { match goal with |- context [run_io (_ ≫= ?f) w3] =>
         destruct (drop_segment f seg held w3 (accepted_offered _ _ Hw3)) as (w4&s'&->&Hh4&_); [congruence|] end.
       rewrite interp_ret. by eexists _, w4. }
  destruct Hr3 as [Hfd Hheld3].
  destruct (choose_id_resources (env_os env) 4 fuel (w_os w3) (w_held w3)) as (r4&os4&Hrun4&Hr4); [done|].
  after_calls accepted_step Hw3 Hrun4 w4 Hh4 Hw4.
  assert (Hheld4 : w_held w4 = open_fd (with_segment seg held) (sender_socket_fd_ udp)) by congruence.
  destruct r4 as [[sid|e]|].
  - rewrite interp_ret. eexists _, w4. split; [reflexivity|]. destruct Hw4 as (q&Hq&Hheldq&Hc&Huse).
    destruct Hr4 as [Hsid Hsid0]. change (8 * 4) with 32 in Hsid. destruct udp as [fd], seg.
    split; try done. exists q. split; [|done]. split; try done.
    + split; cbn; try done; uint.
    + cbn. rewrite Hheld4. apply is_open_head.
  - match goal with |- context [run_io (syscalls (UdpSender_destroy udp) ≫= ?f) w4] =>
      destruct (drop_udp f udp _ w4 (accepted_offered _ _ Hw4) Hfd Hheld4) as (w5&->&Hh5&Hw5) end.
    match goal with |- context [run_io (_ ≫= ?f) w5] =>
      destruct (drop_segment f seg held w5 Hw5 Hh5) as (w6&s'&->&Hh6&_) end.
    rewrite interp_ret. by eexists _, w6.
  - rewrite interp_ret. eexists _, w4. split; [reflexivity|]. by exists (w_os w3).
Qed.

Lemma sender_starts inet_pton fuel config w :
  offered (w_ring w) (w_peer w) ->
  exists r w', run_io (Sender_initialize inet_pton fuel config) w = Some (r, w') /\
    sender_start inet_pton fuel config (w_held w) r w'.
Proof.
  intros Hw. unfold Sender_initialize, sender_start.
  destruct (invalid_sender_config config) eqn:Hcfg; [by eexists _, w|].
  destruct (parse_destinations inet_pton (receivers config)) as [ds|] eqn:Hds; [|by eexists _, w].
  destruct (attach_shm_resources (env_os env) (ingress_shm_name config) (w_os w) (w_held w)
    (mapping_mmap _ _ Hmap)) as (r1&os1&held1&Hrun1&Hr1).
  after_calls offered_step Hw Hrun1 w1 Hh1 Hw1.
  destruct r1 as [seg|e]; [|rewrite interp_ret; eexists _, w1; split; [done|]; split; [congruence|done]].
  destruct Hr1 as (Hheld1&Hname&Hsize&_&Hown&Hmp&Hsz). cbn [segment_bytes].
  match goal with |- context [run_io (call ?e ≫= ?f) w1] =>
    destruct (startup_effect env offered offered_step e f w1 Hw1) as (w2&->&[_ Hh2 _]&Hw2) end.
  destruct (attach_offered _ _ seg Hw2 Hmp Hsz Hsize) as (r2&Hrun2&Hr2).
  rewrite (perform_ring _ _ _ _ _ Hrun2). cbn [mbind option_bind fst snd].
  match goal with |- context [run_io _ ?w3] => set (w2' := w3) end.
  assert (Hw2' : offered (w_ring w2') (w_peer w2')) by exact Hw2.
  change (accepted (w_ring w2) (w_peer w2)) with (accepted (w_ring w2') (w_peer w2')) in Hr2.
  assert (Hheld2 : w_held w2' = with_segment seg (w_held w)) by (cbn; congruence).
  clearbody w2'. clear w2 Hh2 Hw2 Hrun2.
  destruct r2 as [ring|e].
  - destruct (Hr2 ring eq_refl) as [-> Hw3].
    destruct (session_starts inet_pton fuel config ds seg (w_held w) w2' Hcfg Hds Hname Hown Hw3 Hheld2)
      as (r&w'&Hrun&Hr). exists r, w'. split; [exact Hrun|]. unfold sender_start in Hr. by rewrite Hcfg in Hr.
  - match goal with |- context [run_io (_ ≫= ?f) w2'] =>
      destruct (drop_segment f seg (w_held w) w2' Hw2' Hheld2) as (w3&s'&->&Hh3&_) end.
    rewrite interp_ret. by eexists _, w3.
Qed.

(** A consumer with handle [h] next to its producer. *)
Definition consuming (h : SpscRing) (m : list byte) (producer : SpscRing) : Prop :=
  exists q, sys_repr (RingSys m producer h) q.

Lemma consuming_step h w :
  consuming h (w_ring w) (w_peer w) ->
  exists w' l, env_step env w = Some w' /\ env_moved env w w' l /\
    consuming h (w_ring w') (w_peer w').
Proof.
  intros (q&Hq). destruct (env_step_moves env ConsumerSide w h q Hq (Hpeer _))
    as (w1&q1&l&Hstep&Hm&Hw1&_). exists w1, l. split; [done|]. split; [done|]. by exists q1.
Qed.

(** Destroying the members of a sender. *)
Lemma sender_destroyed self held w h :
  consuming h (w_ring w) (w_peer w) -> 0 <= sender_socket_fd_ (udp_ self) ->
  w_held w = open_fd (with_segment (segment_ self) held) (sender_socket_fd_ (udp_ self)) ->
  exists w', run_io (syscalls (Sender_destroy self)) w = Some (tt, w') /\ w_held w' = held.
Proof.
  intros Hw Hfd Hheld. unfold Sender_destroy.
  destruct (destroy_sender_resources (env_os env) (udp_ self) (w_os w)
              (with_segment (segment_ self) held) Hfd) as (os1&Hrun1).
  destruct (segment_destroy_resources (env_os env) (segment_ self) os1 held (md_munmap _ _ Hmap))
    as (s'&os2&Hrun2).
  destruct (startup_syscalls env (consuming h) (consuming_step h)
    (UdpSender_destroy (udp_ self);; Segment_destroy (segment_ self);; mret tt) w tt os2 held Hw)
    as (w'&Hr&[_ He _]&_); [|by exists w'].
  rewrite Hheld, interp_bind, Hrun1. cbn [mbind option_bind fst snd].
  rewrite interp_bind, Hrun2. done.
Qed.
End SenderStartup.

(** ** The receiver *)

(** The socket is closed while a more recent segment is held. *)
Lemma destroy_receiver_below {W} (os : system W) u s w rs :
  0 <= receiver_socket_fd_ u ->
  exists w', interp (tracked os) (UdpReceiver_destroy u)
      (w, with_segment s (open_fd rs (receiver_socket_fd_ u))) = Some (tt, (w', with_segment s rs)).
Proof.
  intros Hfd. unfold UdpReceiver_destroy. rewrite (proj2 (Z.leb_le _ _)) by done.
  rewrite interp_tracked. cbn [track with_segment open_fd r_fds].
  rewrite (remove_below _ _ _ (held_fds_length s)). cbn [mbind option_bind fst snd]. by eexists.
Qed.

Section ReceiverStartup.
Context {W : Type} (env : environment W) (n : nat).
(** No consumer can attach before the segment exists. *)
Hypothesis Hsilent : forall t, env_peer env t = [].
Hypothesis Hmmap : mmap_documented (env_os env).
Hypothesis Hmunmap : munmap_documented (env_os env).
Abbreviation run_io := (interp (engine_handler env)).

(** The segment the receiver creates has [n] bytes. *)
Definition unused (m : list byte) (peer : SpscRing) : Prop := length m = n.

Lemma unused_step w :
  unused (w_ring w) (w_peer w) ->
  exists w' l, env_step env w = Some w' /\ env_moved env w w' l /\ unused (w_ring w') (w_peer w').
Proof.
  intros Hw. unfold env_step. rewrite Hsilent. cbn. eexists _, []. split; [reflexivity|].
  split; [|done]. by split.
Qed.

(** The consumer's side of the world. *)
Definition with_peer (w : world W) (peer : SpscRing) : world W :=
  World (w_os w) (w_held w) (w_time w) (w_stop w) (w_ring w) peer (w_peer_log w) (w_sent w) (w_received w).

(** What a started receiver satisfies: its segment is an empty ring, and whatever consumer
    then attaches, the receiver may run. *)
Record receiver_started (config : ReceiverConfig) (held : resources) (self : Receiver.Receiver)
    (w : world W) : Prop := ReceiverStarted {
  rs_ready : forall (env' : environment W) data hc m,
    (forall t, Forall (peer_allowed ProducerSide) (env_peer env' t)) ->
    recvmsg_documented (env_os env') ->
    run (attach (Memory data (Z.of_nat (length (w_ring w))))) (w_ring w) = Some (Value hc, m) ->
    ReceiverSpec.receiver_ready env' self (with_peer w hc) (empty_queue (egress_ring config));
  rs_ring : ring_repr (w_ring w) (empty_queue (egress_ring config));
  rs_config : Receiver.config_ self = config;
  rs_fresh : Receiver.stats_ self = EngineStats_init /\
             Receiver.gap_detector_ self = GapDetector_init;
  rs_held : w_held w = with_segment (Receiver.segment_ self)
              (open_fd (created (egress_shm_name config) held)
                 (receiver_socket_fd_ (Receiver.udp_ self)));
  rs_socket : 0 <= receiver_socket_fd_ (Receiver.udp_ self);
  rs_name : name_ (Receiver.segment_ self) = egress_shm_name config /\
            owner_ (Receiver.segment_ self) = true /\ linked_ (Receiver.segment_ self) = true;
}.

(** A consumer that attaches to the fresh ring. *)
Lemma attached_to_fresh data m c egress hc m' :
  ring_repr m (empty_queue c) -> producer_ok (empty_queue c) egress -> initializer_ egress = true ->
  run (attach (Memory data (Z.of_nat (length m)))) m = Some (Value hc, m') ->
  sys_repr (RingSys m egress hc) (empty_queue c).
Proof.
  intros Hm Hp Hi Hrun. rewrite attach_spec in Hrun by done. injection Hrun as Hr _.
  unfold attach_reference in Hr. destruct (first_failure _); [done|]. injection Hr as <-.
  rewrite (header_config_repr m _ Hm). by split.
Qed.

(** Destroying the socket of a failed start-up. *)
Lemma drop_receiver {A} (f : unit -> io engine A) u held w :
  unused (w_ring w) (w_peer w) -> 0 <= receiver_socket_fd_ u ->
  w_held w = open_fd held (receiver_socket_fd_ u) ->
  exists w', run_io (syscalls (UdpReceiver_destroy u) ≫= f) w = run_io (f tt) w' /\
    w_held w' = held /\ unused (w_ring w') (w_peer w').
Proof.
  intros Hw Hfd Hh. destruct (destroy_receiver_resources (env_os env) u (w_os w) held Hfd)
    as (os'&Hrun). rewrite <- Hh in Hrun.
  destruct (startup_bind env unused unused_step _ f w _ _ _ Hw Hrun) as (w'&Hr&[_ He _]&Hw').
  by exists w'.
Qed.

(** The ring in the created segment, or the segment and its name removed again. *)
Lemma egress_starts config seg udp id held w :
  unused (w_ring w) (w_peer w) -> config_ok (egress_ring config) -> is_uint 64 id ->
  size_ seg = Z.of_nat n -> owner_ seg = true -> linked_ seg = true ->
  name_ seg = egress_shm_name config -> 0 <= receiver_socket_fd_ udp ->
  w_held w = with_segment seg (created (egress_shm_name config) (open_fd held (receiver_socket_fd_ udp))) ->
  exists r w', run_io (initialize_egress config seg udp id) w = Some (r, w') /\
    match r with
    | Value self => receiver_started config held self w'
    | Unexpected e => e = InitError_Ring /\
        w_held w' = unlinked (egress_shm_name config) (created (egress_shm_name config) held)
    end.
Proof.
  intros Hw Hc Hid Hsz Hown Hlink Hname Hfd Hheld. unfold initialize_egress. cbn [segment_bytes].
  match goal with |- context [run_io (call ?e ≫= ?f) w] =>
    destruct (startup_effect env unused unused_step e f w Hw) as (w1&->&[_ Hh1 _]&Hw1) end.
  pose proof (initialize_outcome (Memory (address_ seg) (size_ seg)) (egress_ring config) id (w_ring w1)
    Hc Hid) as Hout. cbn [mem_size] in Hout. rewrite Hsz, Hw1 in Hout. specialize (Hout eq_refl).
  rewrite Hsz. destruct (first_failure _) as [e|].
  - rewrite (perform_ring _ _ _ _ _ Hout). cbn [mbind option_bind fst snd].
    match goal with |- context [run_io _ ?w3] => set (w2 := w3) end.
    assert (Hw2 : unused (w_ring w2) (w_peer w2)) by exact Hw1.
    assert (Hh2 : w_held w2 = with_segment seg (created (name_ seg) (open_fd held (receiver_socket_fd_ udp))))
      by (cbn; congruence).
    clearbody w2. clear w1 Hh1 Hw1 Hout.
    destruct (unlink_created (env_os env) seg (w_os w2) (open_fd held (receiver_socket_fd_ udp)) Hown Hlink)
      as (r&seg'&os3&Hrun3). rewrite <- Hh2 in Hrun3.
    after_calls unused_step Hw2 Hrun3 w3 Hh3 Hw3.
    destruct (segment_destroy_resources (env_os env) seg' (w_os w3)
      (unlinked (name_ seg) (created (name_ seg) (open_fd held (receiver_socket_fd_ udp)))) Hmunmap)
      as (s4&os4&Hrun4). rewrite <- Hh3 in Hrun4. cbn [snd].
    after_calls unused_step Hw3 Hrun4 w4 Hh4 Hw4.
    match goal with |- context [run_io (syscalls (UdpReceiver_destroy udp) ≫= ?f) w4] =>
      destruct (drop_receiver f udp (unlinked (name_ seg) (created (name_ seg) held)) w4 Hw4 Hfd)
        as (w5&->&Hh5&_); [exact Hh4|] end.
    rewrite interp_ret. eexists _, w5. split; [done|]. by rewrite Hname in Hh5.
  - destruct Hout as (ring&m'&Hrun&Hm&Hp&Hi). rewrite (perform_ring _ _ _ _ _ Hrun).
    cbn [mbind option_bind fst snd]. rewrite interp_ret. eexists _, _. split; [reflexivity|].
    assert (Hring : (SpscRing_move ring).1 = ring) by by destruct ring.
    split; try done; cbn [Receiver.Receiver_construct Receiver.config_ Receiver.segment_
      Receiver.udp_ Receiver.egress_ Receiver.stats_ Receiver.gap_detector_ w_held w_ring with_peer].
    + intros env' data hc m1 Hpeer Hrecv Hatt. split; try done.
      * unfold stats_ok. repeat (apply Forall_cons; split; [done|]). done.
      * unfold world_repr. cbn. cbn in Hring. rewrite Hring. by eapply attached_to_fresh.
      * destruct udp as [fd port], seg. cbn in Hheld |- *. rewrite Hh1, Hheld. cbn.
        apply bool_decide_eq_true, elem_of_app. right. apply list_elem_of_here.
    + destruct udp as [fd port], seg. rewrite Hh1. exact Hheld.
Qed.

(** After a failure only the name it may have created is different from [held]. *)
Definition given_back (config : ReceiverConfig) (held rs : resources) : Prop :=
  rs = held \/ rs = unlinked (egress_shm_name config) (created (egress_shm_name config) held).

(** What [initialize] may give from [w] on, holding [held] at the start. *)
Definition receiver_start (fuel : nat) (config : ReceiverConfig) (held : resources)
    (r : option (expected Receiver.Receiver InitError)) (w : world W) : Prop :=
  match r with
  | Some (Value self) => receiver_started config held self w
  | Some (Unexpected e) => given_back config held (w_held w) /\
      (e = InitError_InvalidConfig <->
         invalid_receiver_config config = true \/ has_value (required_bytes (egress_ring config)) = false)
  | None => exists os, forall k, (k < fuel)%nat -> decisive 8 (nth_random (env_os env) 8 os k) = false
  end.

Lemma receiver_start_fails fuel config held e w :
  invalid_receiver_config config = false -> has_value (required_bytes (egress_ring config)) = true ->
  e <> InitError_InvalidConfig -> given_back config held (w_held w) ->
  receiver_start fuel config held (Some (Unexpected e)) w.
Proof. intros Hcfg Hb He Hh. split; [done|]. rewrite Hcfg, Hb. split; [done|]. by intros [|]. Qed.

Lemma receiver_starts inet_pton fuel config w :
  unused (w_ring w) (w_peer w) -> config_ok (egress_ring config) ->
  (forall bytes, required_bytes (egress_ring config) = Value bytes -> bytes = Z.of_nat n) ->
  exists r w', run_io (Receiver_initialize inet_pton fuel config) w = Some (r, w') /\
    receiver_start fuel config (w_held w) r w'.
Proof.
  intros Hw Hc Hn. pose proof (receiver_start_fails fuel config (w_held w)) as Hfail.
  unfold Receiver_initialize, receiver_start in Hfail |- *.
  destruct (invalid_receiver_config config).
  { eexists _, w. split; [done|]. split; [by left|]. split; [by left|done]. }
  destruct (required_bytes (egress_ring config)) as [bytes|e]; cbn [has_value].
  2: { eexists _, w. split; [done|]. split; [by left|]. split; [by right|done]. }
  specialize (Hn bytes eq_refl). subst bytes. specialize (fun e w => Hfail e w eq_refl eq_refl) as Hfail'.
  clear Hfail. rename Hfail' into Hfail.
  destruct (listen_address inet_pton (listen config)) as [addr|];
    [|eexists _, w; split; [reflexivity|]; apply Hfail; [done|by left]].
  destruct (UdpReceiver_bind_resources (env_os env) addr (w_os w) (w_held w)) as (r1&os1&held1&Hrun1&Hr1).
  after_calls unused_step Hw Hrun1 w1 Hh1 Hw1.
  destruct r1 as [udp|e];
    [|rewrite interp_ret; eexists _, w1; split; [reflexivity|]; apply Hfail; [done|left; congruence]].
  destruct Hr1 as [Hfd ->].
  destruct (choose_id_resources (env_os env) 8 fuel (w_os w1) (w_held w1)) as (r2&os2&Hrun2&Hr2); [done|].
  after_calls unused_step Hw1 Hrun2 w2 Hh2 Hw2.
  rewrite Hh1 in Hh2. destruct r2 as [[id|e]|]; [|
    |rewrite interp_ret; eexists _, w2; split; [reflexivity|]; by exists (w_os w1)].
  2: { match goal with |- context [run_io (_ ≫= ?f) w2] =>
         destruct (drop_receiver f udp (w_held w) w2 Hw2 Hfd Hh2) as (w3&->&Hh3&_) end.
       rewrite interp_ret. eexists _, w3. split; [reflexivity|]. apply Hfail; [done|by left]. }
  destruct Hr2 as [Hid _]. change (8 * 8) with 64 in Hid.
  destruct (create_shm_resources (env_os env) (egress_shm_name config) (Z.of_nat n) (w_os w2) (w_held w2) Hmmap)
    as (r3&os3&held3&Hrun3&Hr3).
  after_calls unused_step Hw2 Hrun3 w3 Hh3 Hw3.
  rewrite Hh2 in Hr3. destruct r3 as [seg|e].
  - destruct Hr3 as (->&Hname&Hsz&_&Hown&Hlink&_). rewrite interp_bind.
    destruct (egress_starts config seg udp id (w_held w) w3 Hw3 Hc Hid Hsz Hown Hlink Hname Hfd Hh3)
      as (r4&w4&->&Hr4). cbn [mbind option_bind fst snd]. rewrite interp_ret.
    eexists _, w4. split; [reflexivity|]. destruct r4 as [self|e]; [done|].
    destruct Hr4 as [-> Hh4]. apply Hfail; [done|by right].
  - assert (exists held, w_held w3 = open_fd held (receiver_socket_fd_ udp) /\
      given_back config (w_held w) held) as (held&Hheld&Hor).
    { rewrite Hh3. destruct Hr3 as [-> | ->]; [exists (w_held w)|eexists (unlinked _ (created _ (w_held w)))];
        (split; [reflexivity|]); [by left|by right]. }
    match goal with |- context [run_io (_ ≫= ?f) w3] =>
      destruct (drop_receiver f udp held w3 Hw3 Hfd Hheld) as (w4&->&Hh4&_) end.
    rewrite interp_ret. eexists _, w4. split; [reflexivity|]. apply Hfail; [done|by rewrite Hh4].
Qed.
End ReceiverStartup.

(** Closing the ring and destroying a started receiver, next to any consumer. *)
Section ReceiverShutdown.
Context {W : Type} (env : environment W).
Hypothesis Hpeer : forall t, Forall (peer_allowed ProducerSide) (env_peer env t).
Hypothesis Hmunmap : munmap_documented (env_os env).
Abbreviation run_io := (interp (engine_handler env)).

(** The ring behind the handle [h] is closed. *)
Definition closed_ring (h : SpscRing) (m : list byte) (peer : SpscRing) : Prop :=
  exists q, sys_repr (side_sys ProducerSide m h peer) q /\ q_state q = RingState_Closed.

Lemma closed_ring_step h w :
  closed_ring h (w_ring w) (w_peer w) ->
  exists w' l, env_step env w = Some w' /\ env_moved env w w' l /\
    closed_ring h (w_ring w') (w_peer w').
Proof.
  intros (q&Hq&Hc). destruct (env_step_moves env ProducerSide w h q Hq (Hpeer _))
    as (w1&q1&l&Hstep&Hm&Hw1&[_ _ _ Hprod]). destruct (Hprod eq_refl) as [_ Hs1].
  exists w1, l. split; [done|]. split; [done|]. exists q1. split; [exact Hw1|]. congruence.
Qed.

Lemma receiver_destroyed held (self : Receiver.Receiver) w q :
  let seg := Receiver.segment_ self in
  let fd := receiver_socket_fd_ (Receiver.udp_ self) in
  owner_ seg = true -> linked_ seg = true -> 0 <= fd ->
  w_held w = with_segment seg (open_fd (created (name_ seg) held) fd) ->
  world_repr ProducerSide w (Receiver.egress_ self) q ->
  exists w', run_io (Receiver_destroy self) w = Some (tt, w') /\
    w_held w' = unlinked (name_ seg) (created (name_ seg) held) /\
    closed_ring (Receiver.egress_ self) (w_ring w') (w_peer w').
Proof.
  intros seg fd Hown Hlink Hfd Hh Hw.
  unfold Receiver_destroy. fold seg. rewrite Hown.
  set (h := Receiver.egress_ self) in *.
  rewrite interp_bind.
  match goal with |- context [run_io (call (on_ring (close_publication h)) ≫= ?f) w] =>
    destruct (ReceiverSpec.close_step env Hpeer f w h q Hw) as (w1&q1&l&->&Hpg&Hw1&_&Hc1&_) end.
  assert (Hi1 : closed_ring h (w_ring w1) (w_peer w1)) by by exists q1.
  pose proof (pg_held _ _ _ _ _ _ Hpg) as Hh1. rewrite Hh in Hh1.
  destruct (unlink_created (env_os env) seg (w_os w1) (open_fd held fd) Hown Hlink)
    as (r&seg'&os2&Hrun2).
  change (created (name_ seg) (open_fd held fd)) with (open_fd (created (name_ seg) held) fd) in Hrun2.
  rewrite <- Hh1 in Hrun2.
  after_calls (closed_ring_step h) Hi1 Hrun2 w2 Hh2 Hi2.
  rewrite interp_ret. cbn [mbind option_bind fst snd].
  set (rs := unlinked (name_ seg) (created (name_ seg) held)).
  destruct (destroy_receiver_below (env_os env) (Receiver.udp_ self) seg' (w_os w2) rs Hfd)
    as (os3&Hrun3). fold fd in Hrun3.
  change (with_segment seg' (open_fd rs fd))
    with (with_segment seg' (unlinked (name_ seg) (open_fd (created (name_ seg) held) fd))) in Hrun3.
  rewrite <- Hh2 in Hrun3.
  after_calls (closed_ring_step h) Hi2 Hrun3 w3 Hh3 Hi3.
  destruct (segment_destroy_resources (env_os env) seg' (w_os w3) rs Hmunmap) as (s4&os4&Hrun4).
  rewrite <- Hh3 in Hrun4.
  after_calls (closed_ring_step h) Hi3 Hrun4 w4 Hh4 Hi4.
  rewrite interp_ret. by exists w4.
Qed.
End ReceiverShutdown.

(** ** Properties *)

(** C37. The whole life of a sender, whatever the system answers, the producer does and the
    other threads do. [initialize] never faults. When it fails it has given back every
    descriptor and mapping it acquired, and it fails as [InvalidConfig] exactly on an
    invalid configuration. When it succeeds the ring is in use and the sender ready to run,
    with the parsed destinations, packet sequence 1 and counters at zero; however long it
    then runs, the destructor gives back exactly what start-up acquired; and beside a
    concurrent producer every execution of its loop is free of undefined behaviour and can
    be completed. It comes to no result only if every answer of [getrandom] was interrupted
    or zero. *)
Theorem sender_lifecycle {W} (env : environment W) c inet_pton fuel config w :
  (forall t, Forall (peer_allowed ConsumerSide) (env_peer env t)) ->
  mapping_documented (env_os env) (Z.to_nat (segment_size c)) ->
  offered c (w_ring w) (w_peer w) ->
  let run_io {A} := interp (A:=A) (engine_handler env) in
  exists r w', run_io (Sender_initialize inet_pton fuel config) w = Some (r, w') /\
    match r with
    | Some (Value self) =>
        (exists q, sender_ready env self w' q /\ q_config q = c /\ in_use q) /\ config_ self = config /\
        parse_destinations inet_pton (receivers config) = Some (destinations_ self) /\
        packet_sequence_ self = 1 /\ stats_ self = EngineStats_init /\
        forall turns, exists ended self' w1 w2,
          run_io (Sender_run turns self) w' = Some ((ended, self'), w1) /\
          run_io (syscalls (Sender_destroy self')) w1 = Some (tt, w2) /\
          w_held w2 = w_held w /\ (stop_within env w' turns -> ended = true) /\
          forall ops schedule, Forall op_ok ops -> forallb producer_op ops = true ->
            completes schedule (beside_producer env (Sender_run turns self) w' ops)
    | Some (Unexpected e) => w_held w' = w_held w /\
        (e = InitError_InvalidConfig <-> invalid_sender_config config = true)
    | None => exists os, forall k, (k < fuel)%nat -> decisive 4 (nth_random (env_os env) 4 os k) = false
    end.
Proof.
  intros Hpeer Hmap Hw run_io. subst run_io. cbv beta.
  destruct (sender_starts env c Hpeer Hmap inet_pton fuel config w Hw) as (r&w'&Hrun&Hr).
  exists r, w'. split; [exact Hrun|]. destruct r as [[self|e]|]; [|exact Hr..].
  destruct Hr as [(q&Hready&Hc&Huse) Hcf Hds [Hseq Hst] Hheld Hfd _].
  split; [by exists q|]. split_and!; try done. intros turns.
  destruct (run_runs env turns self w' q Hready) as (ended&self'&w1&q1&l&ts&Hrun1&[Had Hpg Hw1 _ _ _ _ _ _]&Hstop&_).
  destruct Had as [[_ Hseg Hudp _ _] _ _ _].
  destruct (sender_destroyed env c Hpeer Hmap self' (w_held w) w1 (ingress_ self')) as (w2&Hrun2&Hh2).
  - by exists q1.
  - by rewrite Hudp.
  - by rewrite (pg_held _ _ _ _ _ _ Hpg), Hudp, Hseg.
  - exists ended, self', w1, w2. do 4 (split; [done|]).
    intros ops schedule Hok Hops. by eapply SenderConcurrent.sender_beside_completes.
Qed.

(** C38. The whole life of a receiver. [initialize] never faults; when it fails it has given
    back everything it acquired, removing the name it may have created, and it fails as
    [InvalidConfig] exactly when the configuration or the geometry of its ring is invalid.
    When it succeeds the segment is an empty ring of the configured geometry; whatever
    consumer attaches to it, the receiver is ready to run; however long it runs, the
    destructor closes the ring, removes the name and gives back exactly what start-up
    acquired; and beside a concurrent consumer every execution of its loop is free of
    undefined behaviour and can be completed. It comes to no result only if every answer of
    [getrandom] was interrupted or zero. *)
Theorem receiver_lifecycle {W} (env : environment W) n inet_pton fuel config w :
  (forall t, env_peer env t = []) ->
  mmap_documented (env_os env) -> munmap_documented (env_os env) ->
  length (w_ring w) = n -> config_ok (egress_ring config) ->
  (forall bytes, required_bytes (egress_ring config) = Value bytes -> bytes = Z.of_nat n) ->
  let removed := unlinked (egress_shm_name config) (created (egress_shm_name config) (w_held w)) in
  exists r w', interp (engine_handler env) (Receiver_initialize inet_pton fuel config) w = Some (r, w') /\
    match r with
    | Some (Value self) =>
        forall (env' : environment W) data hc m,
          (forall t, Forall (peer_allowed ProducerSide) (env_peer env' t)) ->
          recvmsg_documented (env_os env') -> munmap_documented (env_os env') ->
          run (attach (Memory data (Z.of_nat (length (w_ring w'))))) (w_ring w') = Some (Value hc, m) ->
          let w0 := with_peer w' hc in
          ReceiverSpec.receiver_ready env' self w0 (empty_queue (egress_ring config)) /\
          forall turns, exists ended self' w1 w2,
            interp (engine_handler env') (Receiver.Receiver_run turns self) w0 = Some ((ended, self'), w1) /\
            interp (engine_handler env') (Receiver_destroy self') w1 = Some (tt, w2) /\
            w_held w2 = removed /\
            closed_ring (Receiver.egress_ self') (w_ring w2) (w_peer w2) /\
            forall ops schedule, forallb consumer_op ops = true ->
              completes schedule (beside_consumer env' (Receiver.Receiver_run turns self) w0 ops)
    | Some (Unexpected e) =>
        (w_held w' = w_held w \/ w_held w' = removed) /\
        (e = InitError_InvalidConfig <->
           invalid_receiver_config config = true \/ has_value (required_bytes (egress_ring config)) = false)
    | None => exists os, forall k, (k < fuel)%nat -> decisive 8 (nth_random (env_os env) 8 os k) = false
    end.
Proof.
  intros Hsilent Hmmap Hmunmap Hw Hc Hn removed.
  destruct (receiver_starts env n Hsilent Hmmap Hmunmap inet_pton fuel config w Hw Hc Hn)
    as (r&w'&Hrun&Hr).
  exists r, w'. split; [exact Hrun|]. destruct r as [[self|e]|]; [|exact Hr..].
  intros env' data hc m Hpeer Hrecv Hmunmap' Hatt w0.
  assert (ReceiverSpec.receiver_ready env' self w0 (empty_queue (egress_ring config))) as Hready.
  { exact (rs_ready _ _ _ _ Hr env' data hc m Hpeer Hrecv Hatt). }
  split; [done|]. intros turns.
  destruct (ReceiverSpec.receiver_run_runs env' turns self w0 _ Hready)
    as (ended&self'&w1&q1&l&rs&results&errs&Hrun1&[Har Hpg Hw1 _ _ _]&_).
  destruct Har as [_ Hseg Hudp _ _ _]. destruct Hr as [_ _ _ _ Hheld Hfd (Hname&Hown&Hlink)].
  destruct (receiver_destroyed env' Hpeer Hmunmap' (w_held w) self' w1 q1) as (w2&Hrun2&Hh2&Hc2);
    [by rewrite ?Hseg, ?Hudp..| |done|].
  - by rewrite (pg_held _ _ _ _ _ _ Hpg), Hudp, Hseg, Hname.
  - rewrite Hseg, Hname in Hh2. exists ended, self', w1, w2. do 4 (split; [done|]).
    intros ops schedule Hops. eapply ReceiverConcurrent.receiver_beside_completes; [done|by left|done].
Qed.

(** ** Concrete start-ups *)

Definition demo_inet_pton (text : string) : option Z :=
  if decide (text = "10.0.0.1"%string) then Some 167772161
  else if decide (text = "0.0.0.0"%string) then Some 0 else None.

Definition demo_sender_config : SenderConfig :=
  SenderConfigOf "/lle" [EndpointOf "10.0.0.1" 5000] 1416 65536 DeliveryMode_BestEffort (-1) true.

Definition demo_world : world unit :=
  World tt no_resources 0 false (sys_bytes demo_sys) (sys_producer demo_sys) [] [] [].

(** The demo sender starts, sends its event and stops. *)
Lemma sender_lifecycle_witness :
  let run_io {A} := interp (A:=A) (engine_handler SenderSpec.demo_env) in
  exists self w', run_io (Sender_initialize demo_inet_pton 1 demo_sender_config) demo_world =
      Some (Some (Value self), w') /\
    (exists q, sender_ready SenderSpec.demo_env self w' q /\ q_config q = demo_config /\ in_use q) /\
    destinations_ self = [UdpAddr (SockAddr AF_INET 5000 167772161)] /\
    forall turns, exists ended self' w1 w2,
      run_io (Sender_run turns self) w' = Some ((ended, self'), w1) /\
      run_io (syscalls (Sender_destroy self')) w1 = Some (tt, w2) /\ w_held w2 = no_resources.
Proof.
  assert (offered demo_config (w_ring demo_world) (w_peer demo_world)) as Hw.
  { exists (empty_queue demo_config). split; [apply demo_sys_repr|done]. }
  assert (mapping_documented (env_os SenderSpec.demo_env) (Z.to_nat (segment_size demo_config))) as Hmap.
  { split; [intros; by split|apply demo_munmap_documented|done]. }
  destruct (sender_lifecycle SenderSpec.demo_env demo_config demo_inet_pton 1 demo_sender_config
    demo_world (rd_peer _ _ _ _ demo_sender_ready) Hmap Hw) as (r&w'&Hrun&Hr).
  assert (exists self, r = Some (Value self)) as [self ->].
  { apply (f_equal (fmap fst)) in Hrun. vm_compute in Hrun. injection Hrun as <-. by eexists. }
  destruct Hr as (Hq&_&Hds&_&_&Hturns). exists self, w'. split; [exact Hrun|]. split; [exact Hq|]. split.
  { by injection Hds as <-. }
  intros turns. destruct (Hturns turns) as (ended&self'&w1&w2&Hr1&Hr2&Hh&_).
  exists ended, self', w1, w2. split; [exact Hr1|]. split; [exact Hr2|exact Hh].
Defined.

Definition demo_receiver_config : ReceiverConfig :=
  ReceiverConfigOf (EndpointOf EmptyString 4000) (EndpointOf EmptyString 0) "/lle" demo_config
    DeliveryMode_BestEffort 4096 100 (-1) 0.

Definition demo_receiver_world : world unit :=
  World tt no_resources 0 false (replicate 320 Byte.x00) (sys_consumer demo_sys) [] [] [].

Definition demo_quiet_env : environment unit :=
  Environment (demo_system []) (fun _ => false) (fun _ => []).

(** The demo receiver starts, a consumer attaches, and the receiver runs and is destroyed. *)
Lemma receiver_lifecycle_witness :
  exists self w', interp (engine_handler demo_quiet_env)
      (Receiver_initialize demo_inet_pton 1 demo_receiver_config) demo_receiver_world =
      Some (Some (Value self), w') /\
    exists hc m, run (attach (Memory 4096 (Z.of_nat (length (w_ring w'))))) (w_ring w') = Some (Value hc, m) /\
    forall turns, exists ended self' w1 w2,
      interp (engine_handler ReceiverSpec.demo_env) (Receiver.Receiver_run turns self) (with_peer w' hc) =
        Some ((ended, self'), w1) /\
      interp (engine_handler ReceiverSpec.demo_env) (Receiver_destroy self') w1 = Some (tt, w2) /\
      r_fds (w_held w2) = [] /\ r_maps (w_held w2) = [] /\
      closed_ring (Receiver.egress_ self') (w_ring w2) (w_peer w2).
Proof.
  destruct (receiver_lifecycle demo_quiet_env 320 demo_inet_pton 1 demo_receiver_config
    demo_receiver_world (fun _ => eq_refl) (demo_mmap_documented _) (demo_munmap_documented _)
    eq_refl) as (r&w'&Hrun&Hr).
  { by split. }
  { intros bytes Hb. vm_compute in Hb. by injection Hb as <-. }
  assert (exists self hc m, r = Some (Value self) /\
    run (attach (Memory 4096 (Z.of_nat (length (w_ring w'))))) (w_ring w') = Some (Value hc, m))
    as (self&hc&m&->&Hatt).
  { assert (w_ring w' = default [] ((fun r => w_ring r.2) <$> interp (engine_handler demo_quiet_env)
      (Receiver_initialize demo_inet_pton 1 demo_receiver_config) demo_receiver_world)) as ->
      by by rewrite Hrun.
    apply (f_equal (fmap fst)) in Hrun. vm_compute in Hrun. injection Hrun as <-.
    eexists _, _, _. split; [reflexivity|]. vm_compute. reflexivity. }
  exists self, w'. split; [exact Hrun|]. exists hc, m. split; [exact Hatt|]. intros turns.
  destruct (Hr ReceiverSpec.demo_env 4096 hc m (ReceiverSpec.rr_peer _ _ _ _ ReceiverSpec.demo_receiver_ready)
    (demo_system_documented _) (demo_munmap_documented _) Hatt) as [_ Hturns].
  destruct (Hturns turns) as (ended&self'&w1&w2&Hr1&Hr2&Hh&Hc&_).
  exists ended, self', w1, w2. split; [exact Hr1|]. split; [exact Hr2|].
  rewrite Hh. split; [done|]. split; [done|exact Hc].
Defined.
