(* ===== verification/SenderProcess.v ===== *)
(** * The process of a sender beside a concurrent producer

    Start-up, the loop and the destructor as one program, as the integration tests and an
    application use the class: [initialize], [run], destruction. The producer publishes all
    the time, access by access, under release/acquire memory: while the sender maps the
    segment and attaches to the ring, while it runs, and while it is destroyed. *)

From S2P Require Import Prelude Bytes Event Protocol Memory RingLayout Ring RingSpec RingGeometry.
From S2P Require Import RingRefinement RingSafety RingSystem RingInit Weak RingWeakSpec RingHistory RingConcurrent.
From S2P Require Import Posix Udp Segment Config Engine EngineIdle EngineWeak Sender SenderSpec.
From S2P Require Import SenderConcurrent Lifecycle.

(** A process that runs its sender for at most [turns] turns. *)
Definition sender_process (inet_pton : string -> option Z) (fuel turns : nat) (config : SenderConfig) :
    io engine (option (expected (bool * Sender) InitError)) :=
  started ← Sender_initialize inet_pton fuel config;
  match started with
  | Some (Value self) =>
      ran ← Sender_run turns self;
      syscalls (Sender_destroy ran.2);; mret (Some (Value ran))
  | Some (Unexpected e) => mret (Some (Unexpected e))
  | None => mret None
  end.

(** ** The process keeps to the interface of the ring *)

Lemma Sender_initialize_idle inet_pton fuel config : idle (Sender_initialize inet_pton fuel config).
Proof.
  unfold Sender_initialize, initialize_session. destruct (invalid_sender_config config); [apply idle_done|].
  destruct (parse_destinations _ _); [|apply idle_done].
  apply idle_bind; [apply idle_syscalls, quiet_attach_shm|]. intros [segment|e]; [|apply idle_done]. cbn [segment_bytes].
  apply idle_bind; [apply idle_call_attach|].
  intros [ingress|e]; [|apply idle_bind; [apply idle_syscalls, quiet_segment_destroy|intros; apply idle_done]].
  apply idle_bind; [apply idle_syscalls, quiet_sender_open|].
  intros [udp|e]; [|apply idle_bind; [apply idle_syscalls, quiet_segment_destroy|intros; apply idle_done]].
  apply idle_bind; [apply idle_syscalls, quiet_choose_id|]. intros [[id|e]|]; [apply idle_done| |apply idle_done].
  apply idle_bind; [apply idle_syscalls, quiet_sender_destroy|]. intros _.
  apply idle_bind; [apply idle_syscalls, quiet_segment_destroy|intros; apply idle_done].
Qed.

Lemma Sender_destroy_idle self : idle (syscalls (Sender_destroy self)).
Proof. apply idle_syscalls. unfold Sender_destroy. repeat quiet_step. Qed.

(** It starts with the handle [attach] gives it. *)
Lemma Sender_initialize_consumes inet_pton fuel config c :
  consumes (fun r h v => v = None /\ forall self, r = Some (Value self) -> ingress_ self = h)
    (construct_handle c false) None (Sender_initialize inet_pton fuel config).
Proof.
  assert (Hdone : forall (r : option (expected Sender InitError)) h, (forall self, r <> Some (Value self)) ->
    consumes (fun r h v => v = None /\ forall self, r = Some (Value self) -> ingress_ self = h) h None
      (mret r)) by (intros r h Hr; apply consumes_done; split; [done|intros self Hs; by destruct (Hr self)]).
  unfold Sender_initialize, initialize_session. destruct (invalid_sender_config config); [by apply Hdone|].
  destruct (parse_destinations _ _) as [ds|]; [|by apply Hdone].
  apply consumes_bind, consumes_syscalls. intros [segment|e]; [|by apply Hdone]. cbn [segment_bytes].
  apply consumes_attach with c; [done|intros e|].
  - cbn [io_bind]. apply consumes_bind, consumes_syscalls. intros s. by apply Hdone.
  - cbn [io_bind]. apply consumes_bind, consumes_syscalls.
    intros [udp|e]; [|apply consumes_bind, consumes_syscalls; intros s; by apply Hdone].
    apply consumes_bind, consumes_syscalls. intros [[id|e]|]; [| |by apply Hdone].
    + apply consumes_done. split; [done|]. by intros self [= <-].
    + apply consumes_bind, consumes_syscalls. intros u.
      apply consumes_bind, consumes_syscalls. intros s. by apply Hdone.
Qed.

Lemma sender_process_consumes inet_pton fuel turns config c :
  consumes (fun _ _ _ => True) (construct_handle c false) None (sender_process inet_pton fuel turns config).
Proof.
  unfold sender_process. apply consumes_bind. eapply consumes_mono; [|apply Sender_initialize_consumes].
  intros r h v [-> Hr]. destruct r as [[self|e]|]; [|by apply consumes_done..].
  rewrite <- (Hr self eq_refl). apply consumes_bind. eapply consumes_mono; [|apply Sender_run_consumes].
  intros ran h' v' _. apply consumes_bind, consumes_syscalls. intros u. by apply consumes_done.
Qed.

(** ** What it does alone, in any environment *)

(** The segment that can be mapped is a ring in use, with its producer and no consumer. *)
Record ring_offered {W} (env : environment W) (c : RingConfig) (u : world W) (q : queue) : Prop := RingOffered {
  ro_mapping : mapping_documented (env_os env) (Z.to_nat (segment_size c));
  ro_repr : world_repr ConsumerSide u (construct_handle c false) q;
  ro_config : q_config q = c;
  ro_free : q_held q = false;
  ro_use : in_use q;
}.

Section Process.
Context {W : Type} (env : environment W) (c : RingConfig).
Context (inet_pton : string -> option Z) (fuel turns : nat) (config : SenderConfig).
Context (w : world W) (q : queue) (Hoffered : ring_offered env c w q).

(** What the process has done when it ends in [w'], of the [events] that were in the ring or
    published meanwhile: the loop has consumed all but those [left], turn by turn. *)
Definition process_ran (ran : bool * Sender) (w' : world W) (events left : list EventData) : Prop :=
  let self := ran.2 in let session := session_id_ self in let max := max_datagram_bytes config in
  parse_destinations inet_pton (receivers config) = Some (destinations_ self) /\
  0 < session < 2 ^ 32 /\ 44 <= max <= 1416 /\
  exists ts, events = map t_event ts ++ left /\ w_sent w' = w_sent w ++ concat (map t_sends ts) /\
    turns_ok max session (destinations_ self) 1 ts /\ Forall (fun t => event_ok (t_event t)) ts /\
    Z.of_nat (length (encoded_turns max session 1 ts)) < 2 ^ 64 /\
    stats_ self = stats_after max session 1 EngineStats_init ts.

Definition process_result (r : option (expected (bool * Sender) InitError)) (w' : world W)
    (events left : list EventData) : Prop :=
  match r with
  | Some (Value ran) => w_held w' = w_held w /\ process_ran ran w' events left
  | Some (Unexpected e) => w_held w' = w_held w /\ w_sent w' = w_sent w /\
      (e = InitError_InvalidConfig <-> invalid_sender_config config = true)
  | None => w_sent w' = w_sent w /\
      exists os, forall k, (k < fuel)%nat -> decisive 4 (nth_random (env_os env) 4 os k) = false
  end.

(** The loop ended by itself. *)
Definition drained (r : option (expected (bool * Sender) InitError)) (w' : world W) : Prop :=
  w_stop w' = false /\ exists self, r = Some (Value (true, self)).

Lemma sender_process_runs (g : nat -> list ring_op) :
  allowed ConsumerSide g ->
  exists r w' h q' log,
    interp (engine_handler (EngineWeak.with_peer env g)) (sender_process inet_pton fuel turns config) w = Some (r, w') /\
    world_repr ConsumerSide w' h q' /\ w_peer_log w' = w_peer_log w ++ log /\
    process_result r w' (q_events q ++ log_published log) (q_events q') /\
    (drained r w' -> q_state q' = RingState_Closed /\ q_events q' = []).
Proof using Hoffered.
  intros Hg. set (env' := EngineWeak.with_peer env g). destruct Hoffered as [Hmap Hw Hc Hheld Huse].
  destruct (sender_starts env' c Hg Hmap inet_pton fuel config w) as (r&w1&Hrun1&Hr); [by exists q|].
  destruct (idle_run env' ConsumerSide (construct_handle c false) Hg _ w q r w1
    (Sender_initialize_idle inet_pton fuel config) Hw Hrun1) as (q1&l1&Hw1&Hq1&[Hst1 Hlog1 Hsent1 _]).
  unfold sender_process. rewrite interp_bind, Hrun1. cbn [mbind option_bind fst snd].
  destruct r as [[self|e]|].
  2-3: rewrite interp_ret; eexists _, w1, (construct_handle c false), q1, l1.
  2-3: split; [done|]; split; [done|]; split; [done|]; split; [|by intros (_&self&?)].
  2: by destruct Hr as [Hh Hr]; split_and!.
  2: by split_and!.
  destruct Hr as [(qs&Hready&_&_) Hcfg Hds [Hseq Hstats] Hh1 Hfd _].
  assert (qs = q1) as ->.
  { destruct Hready as [_ _ Hrepr Hhs _].
    apply (ring_repr_unique (w_ring w1)); [apply Hrepr|apply Hw1|].
    rewrite Hhs. destruct (moves_consumer _ _ _ _ Hq1 eq_refl) as (_&->&_). done. }
  destruct (run_runs env' turns self w1 q1 Hready) as (ended&self'&w2&q2&l2&ts&Hrun2&Hran&_).
  pose proof Hran as [[[Hcf Hseg Hudp Hdst Hid] Hts Hst _] Hpg Hw2 _ Hev2 _ Hend Hok Hb].
  rewrite interp_bind, Hrun2. cbn [mbind option_bind fst snd].
  destruct (sender_destroyed env' c Hg Hmap self' (w_held w) w2 (ingress_ self')) as (w3&Hrun3&Hh3).
  { by exists q2. }
  { by rewrite Hudp. }
  { by rewrite (pg_held _ _ _ _ _ _ Hpg), Hudp, Hseg. }
  destruct (idle_run env' ConsumerSide (ingress_ self') Hg _ w2 q2 tt w3
    (Sender_destroy_idle self') Hw2 Hrun3) as (q3&l3&Hw3&Hq3&[Hst3 Hlog3 Hsent3 _]).
  rewrite interp_bind, Hrun3. cbn [mbind option_bind fst snd]. rewrite interp_ret.
  exists (Some (Value (ended, self'))), w3, (ingress_ self'), q3, (l1 ++ l2 ++ l3).
  split; [done|]. split; [done|]. split.
  { by rewrite Hlog3, (pg_log _ _ _ _ _ _ Hpg), Hlog1, !app_assoc. }
  destruct (moves_consumer _ _ _ _ Hq1 eq_refl) as (_&_&_&He1&_).
  destruct (moves_consumer _ _ _ _ Hq3 eq_refl) as (_&_&_&He3&Hc3). split.
  - split; [done|]. unfold process_ran. cbn [snd]. rewrite Hid, Hdst, <- Hcfg, <- Hseq, <- Hstats.
    split; [by rewrite Hcfg|]. split; [apply Hready|]. split; [apply Hready|]. exists ts.
    split; [by rewrite !log_published_app, He3, !app_assoc, <- He1, Hev2|].
    split; [by rewrite Hsent3, (pg_sent _ _ _ _ _ _ Hpg), Hsent1|].
    split; [done|]. split; [done|]. split; [lia|done].
  - intros (Hstop&s&[= Hended _]). destruct (Hend Hended) as [Hs|[Hcl He]]; [by rewrite (Hst3 Hs) in Hstop|].
    destruct (Hc3 Hcl) as [Hcl3 Hp3]. split; [done|]. by rewrite He3, He, Hp3.
Qed.
End Process.

(** Beside a producer. *)
Section Beside.
Context {W : Type} (env : environment W) (c : RingConfig) (inet_pton : string -> option Z) (fuel turns : nat).
Context (config : SenderConfig) (u : world W) (q : queue) (Hoffered : ring_offered env c u q).
Context (ops : list ring_op) (Hok : Forall op_ok ops) (Hops : forallb producer_op ops = true).
Abbreviation process := (sender_process inet_pton fuel turns config).
Abbreviation threads := (beside_producer env process u ops).

Lemma sender_process_defined : defined env ConsumerSide process u.
Proof using Hoffered.
  intros g Hg. destruct (sender_process_runs env c inet_pton fuel turns config u q Hoffered g Hg)
    as (r&w'&h&q'&log&Hrun&_). by exists (r, w').
Qed.

Lemma sender_process_completes schedule : completes schedule threads.
Proof using All.
  pose proof Hoffered as [_ Hu _ _ Huse]. eapply safe_completes; [apply (repr_valid _ _ (sys_segment _ _ Hu))|].
  apply (beside_producer_safe env _ u (construct_handle c false) q Huse); try done; [|apply sender_process_defined].
  eexists. apply sender_process_consumes.
Qed.

Lemma sender_process_finished schedule s rs hp' r w' :
  execute schedule threads = Some s -> finished_with s (rs, hp') (r, w') ->
  exists left, process_result env inet_pton fuel config u r w' (q_events q ++ published ops rs) left /\
    (drained r w' -> left = []).
Proof using All.
  intros Hrun Hfin. pose proof Hoffered as [_ Hu _ _ Huse].
  destruct (beside_producer_finished env process u (construct_handle c false) q Huse
    (ex_intro _ _ (sender_process_consumes inet_pton fuel turns config c)) sender_process_defined Hu ops Hok Hops
    schedule s rs hp' r w' Hrun Hfin) as (Hl&log&rest&qf&(g&u'&h&Hg&Hengine&Hu'&Hlog&Hqf)&Hsuc&Hclosed).
  destruct (sender_process_runs env c inet_pton fuel turns config u q Hoffered g Hg)
    as (r2&u2&h2&q2&log2&Hrun2&Hq2&Hlog2&Hres&Hdr).
  unfold run_with in Hengine. rewrite Hrun2 in Hengine. injection Hengine as -> ->.
  rewrite Hlog in Hlog2. apply app_inv_head in Hlog2 as <-.
  destruct (ring_repr_content _ _ _ (sys_segment _ _ Hqf) (sys_segment _ _ Hq2)) as (_&Hst&_&_).
  assert (published ops rs = log_published log ++ published_in rest) as Hpub
    by by rewrite <- (published_in_zip ops rs Hl), <- published_successes, Hsuc, published_in_app.
  exists (q_events q2 ++ published_in rest). rewrite Hpub, app_assoc. unfold locally in Hu'. rewrite Hu' in Hres, Hdr.
  split; [|intros Hd; destruct (Hdr Hd) as [Hcl ->]; by rewrite (Hclosed (eq_trans Hst Hcl))].
  destruct r as [[ran|e]|]; [|exact Hres..]. destruct Hres as (Hh&Hds&Hid&Hmax&ts&Hev&Hts).
  split; [exact Hh|]. split; [exact Hds|]. split; [exact Hid|]. split; [exact Hmax|]. exists ts. split; [by rewrite Hev, app_assoc|exact Hts].
Qed.
End Beside.

(** C6. The whole process of a sender beside a concurrent producer, access by access, under
    release/acquire memory: it attaches to a ring in use while the producer publishes, runs
    for any number of turns and is destroyed. No execution has undefined behaviour, and
    every one can be continued until both have finished. When they have, the process holds
    what it held before, whether start-up failed or not; after a failed start-up it has sent
    nothing, and [InvalidConfig] is reported exactly for an invalid configuration;
    otherwise it has consumed the pending and published events in order, each once, a tail
    [left] out, sent each encodable one to every configured destination with the packet
    sequences from 1 on, and nothing else, and counted them so; and [left] is empty when the
    loop ended without a stop. *)
Theorem sender_process_concurrent {W} (env : environment W) c inet_pton fuel turns config u q ops schedule :
  ring_offered env c u q -> Forall op_ok ops -> forallb producer_op ops = true ->
  let threads := beside_producer env (sender_process inet_pton fuel turns config) u ops in
  completes schedule threads /\
  forall s rs hp' r w', execute schedule threads = Some s -> finished_with s (rs, hp') (r, w') ->
    exists left, process_result env inet_pton fuel config u r w' (q_events q ++ published ops rs) left /\
      (drained r w' -> left = []).
Proof.
  intros Hoffered Hok Hops. split; [by eapply sender_process_completes|].
  intros s rs hp' r w'. by eapply sender_process_finished.
Qed.

(** ** A concrete execution *)

Abbreviation demo_process := (beside_producer SenderSpec.demo_env
  (sender_process demo_inet_pton 1 10 demo_sender_config) demo_world demo_publications).

(** The ring fills up and is closed while the demo sender starts; it forwards the two events. *)
Definition demo_process_published : list ring_result :=
  [ResPublish PublishResult_Ok; ResPublish PublishResult_Ok; ResPublish PublishResult_Full; ResClose true].

Definition process_ended (r : option (expected (bool * Sender) InitError)) : bool :=
  match r with Some (Value ran) => ran.1 | _ => false end.

Example demo_process_results :
  (fun r => (r.1.1, process_ended r.2.1, w_stop r.2.2, length (w_sent r.2.2))) <$>
    (execute (demo_lockstep 9) demo_process ≫= outcome) = Some (demo_process_published, true, false, 2%nat).
Proof. vm_compute. reflexivity. Qed.

Lemma demo_process_finished :
  exists s hp' self w', execute (demo_lockstep 9) demo_process = Some s /\
    finished_with s (demo_process_published, hp') (Some (Value (true, self)), w') /\ w_stop w' = false.
Proof.
  pose proof demo_process_results as Hres.
  destruct (execute (demo_lockstep 9) demo_process) as [s|]; [|discriminate Hres]. cbn [mbind option_bind] in Hres.
  destruct (outcome s) as [[[rs hp'] [r w']]|] eqn:Hout; [|discriminate Hres].
  injection Hres as -> Hr Hstop _. cbn [fst snd] in Hr, Hstop.
  destruct r as [[[ended self]|e]|]; [|discriminate Hr..]. cbn [process_ended fst] in Hr. subst ended.
  exists s, hp', self, w'. split; [reflexivity|]. split; [by apply outcome_finished|exact Hstop].
Qed.

Lemma demo_ring_offered : ring_offered SenderSpec.demo_env demo_config demo_world (empty_queue demo_config).
Proof.
  split; [|apply demo_sys_repr|done|done|by left].
  split; [intros; by split|apply demo_munmap_documented|done].
Qed.

Lemma sender_process_concurrent_witness :
  completes (demo_lockstep 9) demo_process /\
  exists s hp' self w', execute (demo_lockstep 9) demo_process = Some s /\
    finished_with s (demo_process_published, hp') (Some (Value (true, self)), w') /\
    w_held w' = no_resources /\ exists ts, [demo_event 1; demo_event 2] = map t_event ts /\
      w_sent w' = concat (map t_sends ts).
Proof.
  destruct (sender_process_concurrent SenderSpec.demo_env demo_config demo_inet_pton 1 10 demo_sender_config
    demo_world (empty_queue demo_config) demo_publications (demo_lockstep 9) demo_ring_offered
    demo_publications_ok eq_refl) as [Hc Hf].
  split; [exact Hc|]. destruct demo_process_finished as (s&hp'&self&w'&Hrun&Hfin&Hstop).
  destruct (Hf s demo_process_published hp' (Some (Value (true, self))) w' Hrun Hfin)
    as (left&(Hheld&_&_&_&ts&Hev&Hsent&_)&Hleft).
  rewrite Hleft, app_nil_r in Hev by (split; [exact Hstop|by exists self]).
  exists s, hp', self, w'. split; [exact Hrun|]. split; [exact Hfin|]. split; [exact Hheld|].
  exists ts. split; [exact Hev|exact Hsent].
Defined.
