(* ===== verification/ReceiverProcess.v ===== *)
(** * The process of a receiver beside a consumer that attaches while it runs

    What follows a successful [initialize]: the loop and the destructor as one program. A
    consumer attaches to the new segment at any time, and acquires and releases, access by
    access, under release/acquire memory, while the receiver runs and while it is destroyed. *)

From S2P Require Import Prelude Bytes Event Protocol GapDetector Memory RingLayout Ring RingSpec RingGeometry.
From S2P Require Import RingRefinement RingSafety RingSystem RingInit RingAttach Weak RingWeakSpec RingHistory.
From S2P Require Import RingConcurrent Posix Udp Segment Config Engine EngineIdle EngineWeak Receiver ReceiverSpec.
From S2P Require Import ReceiverConcurrent.
From S2P Require Lifecycle.
Import Lifecycle(receiver_starts, receiver_started, rs_ready, rs_ring, rs_held, rs_socket, rs_name, rs_fresh).

(** A started receiver runs for at most [turns] turns and is destroyed. *)
Definition receiver_service (turns : nat) (self : Receiver) : io engine (bool * Receiver) :=
  ran ← Receiver_run turns self; Receiver_destroy ran.2;; mret ran.

(** ** The process keeps to the interface of the ring *)

Lemma Receiver_destroy_produces self : produces (fun _ _ => True) (egress_ self) (Receiver_destroy self).
Proof.
  assert (Hrest : forall segment, produces (fun _ _ => True) (egress_ self)
    (syscalls (UdpReceiver_destroy (udp_ self));; syscalls (Segment_destroy segment);; mret tt)).
  { intros segment. apply produces_bind, produces_syscalls. intros u.
    apply produces_bind, produces_syscalls. intros s. by apply produces_done. }
  unfold Receiver_destroy. destruct (owner_ (segment_ self)); [|apply Hrest].
  apply produces_bind, produces_close. intros b. apply produces_bind, produces_syscalls. intros u.
  apply produces_done, Hrest.
Qed.

Lemma receiver_service_produces turns self :
  produces (fun _ _ => True) (egress_ self) (receiver_service turns self).
Proof.
  unfold receiver_service, Receiver_run. apply produces_bind, produces_bind, Receiver_loop_produces.
  intros ended self' h Hh. subst h.
  assert (Hrest : produces (fun _ _ => True) (egress_ self') (Receiver_destroy self';; mret (ended, self'))).
  { apply produces_bind. eapply produces_mono; [|apply Receiver_destroy_produces].
    intros u h _. by apply produces_done. }
  destruct ended; [|by apply produces_done]. apply produces_close. intros b. by apply produces_done.
Qed.

(** ** What it does alone, in any environment *)

Section Service.
Context {W : Type} (env : environment W).
Hypothesis Hpeer : forall t, Forall (peer_allowed ProducerSide) (env_peer env t).
Abbreviation run_io := (interp (engine_handler env)).

(** Destruction closes the ring; a consumer may still take what is in it. *)
Lemma receiver_destroy_history self w w' q :
  owner_ (segment_ self) = true -> world_repr ProducerSide w (egress_ self) q ->
  run_io (Receiver_destroy self) w = Some (tt, w') ->
  exists q' l, world_repr ProducerSide w' (egress_ self) q' /\ w_peer_log w' = w_peer_log w ++ l /\
    w_received w' = w_received w /\ q_pending q = log_acquired l ++ q_pending q' /\
    q_state q' = RingState_Closed.
Proof using Hpeer.
  intros Hown Hw Hrun.
  set (rest := segment ← (unlinked ← syscalls (unlink (segment_ self)); mret unlinked.2);
    syscalls (UdpReceiver_destroy (udp_ self));; syscalls (Segment_destroy segment);; mret tt).
  assert (Hidle : idle rest).
  { apply idle_bind; [apply idle_bind; [apply idle_syscalls, quiet_unlink|intros u; apply idle_done]|].
    intros segment. apply idle_bind; [apply idle_syscalls, quiet_receiver_destroy|]. intros u.
    apply idle_bind; [apply idle_syscalls, quiet_segment_destroy|]. intros s. apply idle_done. }
  assert (Receiver_destroy self = call (on_ring (close_publication (egress_ self))) ≫= fun _ => rest) as Heq
    by by unfold Receiver_destroy; rewrite Hown.
  destruct (close_step env Hpeer (fun _ => rest) w (egress_ self) q Hw)
    as (w1&q1&l1&Hclose&[_ _ _ _ Hlog1 _ Hrec1]&Hw1&Hq1&Hc1&_). rewrite Heq, Hclose in Hrun.
  destruct (idle_run env ProducerSide (egress_ self) Hpeer _ w1 q1 tt w' Hidle Hw1 Hrun)
    as (q2&l2&Hw2&[Hh2 _ _ Hp2 _]&[_ Hlog2 _ Hrec2]).
  destruct (Hp2 eq_refl) as [Hl2 Hst2]. rewrite Hl2, app_nil_r in Hh2.
  exists q2, (l1 ++ l2). split; [exact Hw2|]. split; [by rewrite Hlog2, Hlog1, app_assoc|].
  split; [by rewrite Hrec2, Hrec1, app_nil_r|]. split; [by rewrite log_acquired_app, Hq1, Hh2, app_assoc|].
  congruence.
Qed.
End Service.

Section Process.
Context {W : Type} (env : environment W) (held : resources) (turns : nat) (self : Receiver) (w : world W) (q : queue).
Hypothesis Hmunmap : munmap_documented (env_os env).
Hypothesis Hready : forall g, allowed ProducerSide g -> receiver_ready (with_peer env g) self w q.
Hypothesis Hseg : owner_ (segment_ self) = true /\ linked_ (segment_ self) = true.
Hypothesis Hfd : 0 <= receiver_socket_fd_ (udp_ self).
Hypothesis Hheld :
  w_held w = with_segment (segment_ self) (open_fd (created (name_ (segment_ self)) held) (receiver_socket_fd_ (udp_ self))).

(** What the process has done when it ends in [w']: it has given back what it held, removed
    the name, and stored in the ring the events of accepted packets, as [results] say. *)
Record served (self' : Receiver) (w' : world W) (arrivals : list recvret) (results : list PublishResult) :
    Prop := Served {
  sv_held : w_held w' = unlinked (name_ (segment_ self)) (created (name_ (segment_ self)) held);
  sv_received : w_received w' = w_received w ++ arrivals;
  sv_detector : gap_detector_ self' = detector_after (gap_detector_ self) (packets_of arrivals);
  sv_results : length results = length (accepted_events (gap_detector_ self) (packets_of arrivals));
  sv_stats : exists errs, stats_ self' = stats_add (stats_ self)
    (received_counts (packets_of arrivals) (verdicts (gap_detector_ self) (packets_of arrivals)) results errs);
}.

Lemma receiver_service_runs (g : nat -> list ring_op) :
  allowed ProducerSide g ->
  exists ended self' w' q' l arrivals results,
    interp (engine_handler (with_peer env g)) (receiver_service turns self) w = Some ((ended, self'), w') /\
    world_repr ProducerSide w' (egress_ self') q' /\ w_peer_log w' = w_peer_log w ++ l /\
    served self' w' arrivals results /\
    q_pending q ++ stored_events (gap_detector_ self) (packets_of arrivals) results =
      log_acquired l ++ q_pending q' /\ q_state q' = RingState_Closed.
Proof using Hmunmap Hready Hseg Hfd Hheld.
  intros Hg. set (env' := with_peer env g). destruct Hseg as [Hown Hlink].
  destruct (receiver_run_runs env' turns self w q (Hready g Hg))
    as (ended&self'&w1&q1&l1&arrivals&results&errs&Hrun1&[Har Hpg Hw1 Hhist _ _ _]&_).
  destruct Har as [_ Hs Hu Hdet Hst Hres].
  destruct (Lifecycle.receiver_destroyed env' Hg Hmunmap held self' w1 q1) as (w2&Hrun2&Hh2&_);
    [by rewrite ?Hs, ?Hu..| |done|].
  { by rewrite (pg_held _ _ _ _ _ _ Hpg), Hu, Hs. }
  destruct (receiver_destroy_history env' Hg self' w1 w2 q1) as (q2&l2&Hw2&Hlog2&Hrec2&Hq2&Hc2); [by rewrite Hs|done..|].
  exists ended, self', w2, q2, (l1 ++ l2), arrivals, results.
  split. { unfold receiver_service. by rewrite interp_bind, Hrun1; cbn [mbind option_bind fst snd];
    rewrite interp_bind, Hrun2. }
  split; [done|]. split; [by rewrite Hlog2, (pg_log _ _ _ _ _ _ Hpg), app_assoc|]. split.
  { split; [by rewrite Hh2, Hs|by rewrite Hrec2, (pg_received _ _ _ _ _ _ Hpg)|done|done|by exists errs]. }
  split; [|done]. by rewrite Hhist, Hq2, log_acquired_app, app_assoc.
Qed.

(** *** Beside a consumer that attaches *)

Hypothesis Hrepr : world_repr ProducerSide w (egress_ self) q.
Hypothesis Huse : in_use q.
Hypothesis Hpeer : w_peer w = construct_handle (q_config q) false.
Context (memory : memory_span) (Hmem : invalid_memory memory = false).
Hypothesis Hlen : Z.of_nat (length (w_ring w)) = mem_size memory.
Context (ops : list ring_op) (Hops : forallb consumer_op ops = true).

Lemma receiver_service_defined : defined env ProducerSide (receiver_service turns self) w.
Proof using Hmunmap Hready Hseg Hfd Hheld.
  intros g Hg. destruct (receiver_service_runs g Hg) as (ended&self'&w'&q'&l&arrivals&results&Hrun&_).
  by exists ((ended, self'), w').
Qed.

Lemma receiver_service_completes schedule :
  completes schedule (beside_attaching env (receiver_service turns self) w memory ops).
Proof using All.
  eapply safe_completes; [apply (repr_valid _ _ (sys_segment _ _ Hrepr))|].
  apply (beside_attaching_safe env _ w (egress_ self) q Huse); try done.
  - eexists. apply receiver_service_produces.
  - apply receiver_service_defined.
Qed.

Lemma receiver_service_beside schedule s ended self' w' r :
  execute schedule (beside_attaching env (receiver_service turns self) w memory ops) = Some s ->
  finished_with s ((ended, self'), w') r ->
  exists rs hc' arrivals results pending, r = Value (rs, hc') /\
    (ResAcquire (Unexpected AcquireError_InvalidSlot) ∉ rs) /\ served self' w' arrivals results /\
    q_pending q ++ stored_events (gap_detector_ self) (packets_of arrivals) results = acquired rs ++ pending /\
    (ResAcquire (Unexpected AcquireError_Closed) ∈ rs -> pending = []).
Proof using All.
  intros Hrun Hfin.
  destruct (beside_attaching_finished env (receiver_service turns self) w (egress_ self) q Huse
    (ex_intro _ _ (receiver_service_produces turns self)) receiver_service_defined Hrepr ops Hops memory schedule
    s (ended, self') w' r Hpeer Hmem Hlen Hrun Hfin) as (rs&hc'&->&Hl&Hvalid&log&rest&qf&pending&
      (g&u'&h&Hg&Hengine&Hu'&Hlog&Hqf)&Hsuc&Hleg&Hlok&Hpending&Hclosed).
  destruct (receiver_service_runs g Hg) as (e&self2&u2&q2&l&arrivals&results&Hrun2&Hq2&Hlog2&Hsv&Hhist&_).
  unfold run_with in Hengine. rewrite Hrun2 in Hengine. injection Hengine as -> -> ->.
  rewrite Hlog in Hlog2. apply app_inv_head in Hlog2 as <-.
  exists rs, hc', arrivals, results, pending. split; [done|]. split; [done|].
  split; [unfold locally in Hu'; rewrite Hu' in Hsv; by destruct Hsv|]. split; [|done].
  by rewrite (legal_stored u' h _ q qf q2 log _ (repr_ok _ _ (sys_segment _ _ Hrepr)) Hleg Hlok Hqf Hq2 Hhist).
Qed.
End Process.

(** A successful [initialize], when nobody can attach yet to the segment it creates. *)
Record initialized {W} (env : environment W) inet_pton fuel config (w : world W) self w' : Prop := Initialized {
  in_peer : forall t, env_peer env t = [];
  in_mmap : mmap_documented (env_os env);
  in_munmap : munmap_documented (env_os env);
  in_config : config_ok (egress_ring config);
  in_bytes : forall bytes, required_bytes (egress_ring config) = Value bytes ->
    bytes = Z.of_nat (length (w_ring w));
  in_run : interp (engine_handler env) (Receiver_initialize inet_pton fuel config) w =
    Some (Some (Value self), w');
}.

(** The consumer has mapped the segment. *)
Definition mapping_of (c : RingConfig) (memory : memory_span) : Prop :=
  invalid_memory memory = false /\ mem_size memory = segment_size c.

(** The receiver may then run beside a consumer that attaches. *)
Section Initialized.
Context {W : Type} (env env' : environment W) (inet_pton : string -> option Z) (fuel turns : nat).
Context (config : ReceiverConfig) (w : world W) (self : Receiver) (w' : world W).
Context (Hinit : initialized env inet_pton fuel config w self w').
Context (Hrecv : recvmsg_documented (env_os env')) (Hmunmap : munmap_documented (env_os env')).
Context (memory : memory_span) (Hmap : mapping_of (egress_ring config) memory).
Context (ops : list ring_op) (Hops : forallb consumer_op ops = true).
Abbreviation u := (Lifecycle.with_peer w' (construct_handle (egress_ring config) false)).
Abbreviation threads := (beside_attaching env' (receiver_service turns self) u memory ops).

Lemma initialized_started : receiver_started config (w_held w) self w'.
Proof using Hinit.
  destruct Hinit as [Hsilent Hmmap Hmunmap' Hc Hn Hrun].
  destruct (receiver_starts env _ Hsilent Hmmap Hmunmap' inet_pton fuel config w eq_refl Hc Hn) as (r&w1&Hrun'&Hr).
  rewrite Hrun in Hrun'. by injection Hrun' as <- <-.
Qed.

Lemma initialized_length : Z.of_nat (length (w_ring w')) = mem_size memory.
Proof using Hinit Hmap.
  rewrite (proj2 Hmap). apply (repr_size _ _ (rs_ring _ _ _ _ initialized_started)).
Qed.

Lemma initialized_ready g :
  allowed ProducerSide g -> receiver_ready (with_peer env' g) self u (empty_queue (egress_ring config)).
Proof using All.
  intros Hg. pose proof initialized_started as Hst.
  apply (rs_ready _ _ _ _ Hst (with_peer env' g) (mem_data memory) _ (w_ring w')); [done|done|].
  pose proof initialized_length as Hlen. rewrite Hlen. destruct Hmap as [Hmem _]. destruct memory.
  by apply (attach_running _ _ _ (rs_ring _ _ _ _ Hst)); [left|..].
Qed.

Lemma initialized_repr : world_repr ProducerSide u (egress_ self) (empty_queue (egress_ring config)).
Proof using All. apply (rr_repr _ _ _ _ (initialized_ready (fun _ => []) (fun _ => Forall_nil_2 _))). Qed.

Lemma receiver_process_completes schedule : completes schedule threads.
Proof using All.
  pose proof initialized_started as Hst. destruct (rs_name _ _ _ _ Hst) as (Hname&Hown&Hlink).
  pose proof (rs_held _ _ _ _ Hst) as Hheld. rewrite <- Hname in Hheld.
  apply (receiver_service_completes env' (w_held w) turns self u (empty_queue (egress_ring config))); try done;
    [apply initialized_ready|apply Hst|apply initialized_repr|by left|apply Hmap|apply initialized_length].
Qed.

Lemma receiver_process_finished schedule s ended self' w'' r :
  execute schedule threads = Some s -> finished_with s ((ended, self'), w'') r ->
  gap_detector_ self = GapDetector_init /\
  exists rs hc' arrivals results pending, r = Value (rs, hc') /\
    (ResAcquire (Unexpected AcquireError_InvalidSlot) ∉ rs) /\
    served (w_held w) self u self' w'' arrivals results /\
    stored_events GapDetector_init (packets_of arrivals) results = acquired rs ++ pending /\
    (ResAcquire (Unexpected AcquireError_Closed) ∈ rs -> pending = []).
Proof using All.
  intros Hrun Hfin.
  pose proof initialized_started as Hst. destruct (rs_name _ _ _ _ Hst) as (Hname&Hown&Hlink).
  pose proof (rs_held _ _ _ _ Hst) as Hheld. rewrite <- Hname in Hheld.
  pose proof (proj2 (rs_fresh _ _ _ _ Hst)) as Hdet. split; [exact Hdet|]. rewrite <- Hdet.
  apply (receiver_service_beside env' (w_held w) turns self u (empty_queue (egress_ring config))
    Hmunmap initialized_ready (conj Hown Hlink) (rs_socket _ _ _ _ Hst) Hheld initialized_repr (or_introl eq_refl)
    eq_refl memory (proj1 Hmap) initialized_length ops Hops schedule s ended self' w'' r Hrun Hfin).
Qed.
End Initialized.

(** C7. The process of a receiver beside a consumer that attaches while it runs, access by
    access, under release/acquire memory, from a successful [initialize] on: whatever arrives,
    no execution of the loop and the destructor has undefined behaviour, and every one can be
    continued until both have finished. When they have, the consumer attached, and has
    acquired in order and each once a prefix of the events of the accepted packets that the
    ring took, without ever finding an invalid slot, and all of them when it was told the
    ring is closed; the process has given back everything it acquired, removed the name of
    the segment, and counted what arrived. *)
Theorem receiver_process_concurrent {W} (env env' : environment W) inet_pton fuel turns config w self w'
    memory ops schedule :
  initialized env inet_pton fuel config w self w' ->
  recvmsg_documented (env_os env') -> munmap_documented (env_os env') ->
  mapping_of (egress_ring config) memory -> forallb consumer_op ops = true ->
  let u := Lifecycle.with_peer w' (construct_handle (egress_ring config) false) in
  let threads := beside_attaching env' (receiver_service turns self) u memory ops in
  completes schedule threads /\
  forall s ended self' w'' r, execute schedule threads = Some s -> finished_with s ((ended, self'), w'') r ->
    exists rs hc' arrivals results pending, r = Value (rs, hc') /\
      (ResAcquire (Unexpected AcquireError_InvalidSlot) ∉ rs) /\
      served (w_held w) self u self' w'' arrivals results /\
      stored_events GapDetector_init (packets_of arrivals) results = acquired rs ++ pending /\
      (ResAcquire (Unexpected AcquireError_Closed) ∈ rs -> pending = []).
Proof.
  intros Hinit Hrecv Hmunmap Hmap Hops. split; [by eapply receiver_process_completes|].
  intros s ended self' w'' r Hrun Hfin. by eapply receiver_process_finished.
Qed.

(** ** A concrete execution *)

(** The demo receiver that has started, beside the consumer of [RingConcurrent], which attaches. *)
Definition demo_threads (self : Receiver) (w : world unit) :=
  beside_attaching ReceiverSpec.demo_env (receiver_service 10 self)
    (Lifecycle.with_peer w (construct_handle demo_config false)) (Memory 4096 320) demo_acquisitions.

Abbreviation demo_initialized := (interp (engine_handler Lifecycle.demo_quiet_env)
  (Receiver_initialize Lifecycle.demo_inet_pton 1 Lifecycle.demo_receiver_config) Lifecycle.demo_receiver_world).

Definition demo_taken : list ring_result :=
  [ResAcquire (Value (demo_event 1)); ResRelease true] ++
  concat (replicate 4 [ResAcquire (Unexpected AcquireError_Closed); ResRelease false]).

(** One packet arrives; the consumer acquires its event, then finds the ring closed. *)
Example demo_service_results :
  match demo_initialized with
  | Some (Some (Value self), w) =>
      (fun r => (r.1.1.1, length (packets_of (w_received r.1.2)), match r.2 with Value x => Some x.1 | Unexpected _ => None end)) <$>
        (execute (demo_lockstep 9) (demo_threads self w) ≫= outcome)
  | _ => None
  end = Some (true, 1%nat, Some demo_taken).
Proof. vm_compute. reflexivity. Qed.

Lemma demo_service_finished :
  exists self w s self' w' hc', demo_initialized = Some (Some (Value self), w) /\
    execute (demo_lockstep 9) (demo_threads self w) = Some s /\
    finished_with s ((true, self'), w') (Value (demo_taken, hc')).
Proof.
  pose proof demo_service_results as Hres.
  destruct demo_initialized as [[[[self|e]|] w]|]; [|discriminate Hres..].
  destruct (execute (demo_lockstep 9) (demo_threads self w)) as [s|] eqn:Hrun; [|discriminate Hres].
  cbn [mbind option_bind] in Hres.
  destruct (outcome s) as [[[[ended self'] w'] [[rs hc']|e]]|] eqn:Hout; [|discriminate Hres..].
  injection Hres as -> _ ->. exists self, w, s, self', w', hc'. split; [reflexivity|].
  split; [exact Hrun|by apply outcome_finished].
Qed.

Lemma demo_is_initialized self w :
  demo_initialized = Some (Some (Value self), w) ->
  initialized Lifecycle.demo_quiet_env Lifecycle.demo_inet_pton 1 Lifecycle.demo_receiver_config
    Lifecycle.demo_receiver_world self w.
Proof.
  assert (Hconf : config_ok (egress_ring Lifecycle.demo_receiver_config)) by by split.
  assert (Hbytes : forall bytes,
    required_bytes (egress_ring Lifecycle.demo_receiver_config) = Value bytes -> bytes = Z.of_nat 320).
  { intros bytes Hb. vm_compute in Hb. by injection Hb as <-. }
  intros Hinit. split; [exact (fun _ => eq_refl)|apply demo_mmap_documented|apply demo_munmap_documented
    |exact Hconf|exact Hbytes|exact Hinit].
Qed.

Lemma receiver_process_concurrent_witness :
  exists self w s self' w' hc' arrivals results, demo_initialized = Some (Some (Value self), w) /\
    completes (demo_lockstep 9) (demo_threads self w) /\
    execute (demo_lockstep 9) (demo_threads self w) = Some s /\
    finished_with s ((true, self'), w') (Value (demo_taken, hc')) /\
    r_fds (w_held w') = [] /\ r_maps (w_held w') = [] /\
    stored_events GapDetector_init (packets_of arrivals) results = [demo_event 1].
Proof.
  destruct demo_service_finished as (self&w&s&self'&w'&hc'&Hinit&Hrun&Hfin).
  destruct (receiver_process_concurrent Lifecycle.demo_quiet_env ReceiverSpec.demo_env
    Lifecycle.demo_inet_pton 1 10 Lifecycle.demo_receiver_config Lifecycle.demo_receiver_world self w
    (Memory 4096 320) demo_acquisitions (demo_lockstep 9) (demo_is_initialized self w Hinit)
    (demo_system_documented _) (demo_munmap_documented _) (conj eq_refl eq_refl) eq_refl) as [Hc Hf].
  destruct (Hf s true self' w' _ Hrun Hfin) as (rs&h&arrivals&results&pending&Heq&_&[Hheld _ _ _ _]&Hev&Hend).
  injection Heq as <- <-. rewrite Hend, app_nil_r in Hev by (apply list_elem_of_In; cbn; tauto).
  exists self, w, s, self', w', hc', arrivals, results. split; [exact Hinit|]. split; [exact Hc|].
  split; [exact Hrun|]. split; [exact Hfin|]. rewrite Hheld. split; [reflexivity|]. split; [reflexivity|exact Hev].
Defined.
