(* ===== verification/Pipeline.v ===== *)
(** * End to end

    A sender and a receiver with a network in between that loses, repeats, reorders and
    corrupts datagrams. The two sides meet in two interfaces: a wire format, whose images
    parse to what they were made of, and a filter on packet identities, which only keeps an
    increasing sequence of one session. Delivery in order is proved against the interfaces;
    the LLEP encoder and decoder and the gap detector are their instances. *)

From S2P Require Import Prelude Bytes Event Protocol GapDetector Memory RingLayout Ring RingSpec.
From S2P Require Import RingGeometry RingRefinement RingSafety RingSystem RingInit Posix Udp Config Engine Sender SenderSpec.
From S2P Require Receiver ReceiverSpec.
Import ReceiverSpec(packets_of, identify, identified, accepted_events, verdicts, is_ok, receiver_ready).

(** ** Interfaces *)

(** Images of events, by session and packet sequence. *)
Class WireFormat (E : Type) := {
  image : Z -> Z -> E -> list byte;
  parse : list byte -> option (Z * Z * E);
  sendable : Z -> Z -> E -> Prop;
  parse_image sid k e : sendable sid k e -> parse (image sid k e) = Some (sid, k, e);
}.

(** A filter decides packet by packet which identities to keep. *)
Section Keeps.
Context {S : Type} (step : S -> Z * Z -> bool * S).

Fixpoint keeps (s : S) (ids : list (Z * Z)) : list bool :=
  match ids with
  | [] => []
  | id :: ids => let '(b, s) := step s id in b :: keeps s ids
  end.
End Keeps.

Class PacketFilter (S : Type) := {
  filter_init : S;
  filter_step : S -> Z * Z -> bool * S;
  valid_id : Z * Z -> Prop;
  keeps_increasing ids : Forall valid_id ids ->
    StronglySorted Z.lt (map snd (select ids (keeps filter_step filter_init ids)));
  keeps_consecutive sid ids : Forall valid_id ids ->
    ids = map (fun i => (sid, Z.of_nat i)) (seq 1 (length ids)) ->
    keeps filter_step filter_init ids = map (fun _ => true) ids;
}.

(** ** Delivery *)

(** Elements at increasing positions form a sublist. *)
Lemma increasing_sublist {A} (start : Z) (ks : list Z) (es sent : list A) :
  StronglySorted Z.lt ks ->
  Forall2 (fun k e => start <= k /\ sent !! Z.to_nat (k - start) = Some e) ks es ->
  sublist es sent.
Proof.
  intros Hs. revert start es. induction sent as [|x sent IH] in ks, Hs |- *; intros start es Hes.
  { destruct Hes as [|k e ks es [_ Hk]]; [constructor|]. by rewrite lookup_nil in Hk. }
  destruct Hes as [|k e ks es [Hk He] Hes]; [apply sublist_nil_l|].
  apply StronglySorted_inv in Hs as [Hs Hlt].
  assert (Hshift : forall ks es, Forall (fun k => start < k) ks ->
    Forall2 (fun k e => start <= k /\ (x :: sent) !! Z.to_nat (k - start) = Some e) ks es ->
    Forall2 (fun k e => start + 1 <= k /\ sent !! Z.to_nat (k - (start + 1)) = Some e) ks es).
  { clear. intros ks es Hks. induction 1 as [|k e ks es [Hk He] Hes IH]; [constructor|].
    apply Forall_cons in Hks as [Hlt Hks]. constructor; [|by apply IH]. split; [lia|].
    replace (Z.to_nat (k - start)) with (S (Z.to_nat (k - (start + 1)))) in He by lia. done. }
  destruct (decide (k = start)) as [->|Hne].
  - rewrite Z.sub_diag in He. injection He as ->. constructor.
    apply (IH ks Hs (start + 1)). by apply Hshift.
  - constructor. apply (IH (k :: ks) ltac:(by constructor) (start + 1)). apply Hshift.
    + constructor; [lia|]. eapply Forall_impl; [exact Hlt|]. simpl. lia.
    + by constructor.
Qed.

(** What the well-formed ones of the arriving packets parse to. *)
Definition parsed {E} `{WireFormat E} (packets : list (option (list byte))) : list (Z * Z * E) :=
  omap (fun p => p ≫= parse) packets.

Section Delivery.
Context {E S : Type} `{Hwire : WireFormat E} `{Hfilter : PacketFilter S}.

(** The events of the packets that are kept. *)
Definition delivered (packets : list (option (list byte))) : list E :=
  select (map snd (parsed packets)) (keeps filter_step filter_init (map fst (parsed packets))).

(** Every packet is the image of a sent event, or does not parse. *)
Definition from_sender (sid start : Z) (sent : list E) (packet : option (list byte)) : Prop :=
  forall x, packet ≫= parse = Some x ->
    exists k e, x = (sid, k, e) /\ start <= k /\ sent !! Z.to_nat (k - start) = Some e /\ valid_id (sid, k).

Lemma select_map {A B} (f : A -> B) (l : list A) bs : select (map f l) bs = map f (select l bs).
Proof. revert bs. induction l as [|x l IH]; intros [|[] bs]; simpl; try done; by rewrite IH. Qed.

Lemma select_Forall {A} (P : A -> Prop) (l : list A) bs : Forall P l -> Forall P (select l bs).
Proof.
  intros Hl. revert bs. induction Hl as [|x l Hx Hl IH]; intros [|[] bs]; simpl; try done.
  by constructor.
Qed.

Lemma select_all {A} (l : list A) : select l (map (fun _ => true) l) = l.
Proof. induction l as [|x l IH]; simpl; [done|]. by rewrite IH. Qed.

(** What arrives is kept in the order it was sent, each event at most once. *)
Lemma delivered_sublist sid start sent packets :
  Forall (from_sender sid start sent) packets -> sublist (delivered packets) sent.
Proof.
  intros Hp. unfold delivered. set (bs := keeps _ _ _).
  assert (Hx : Forall (fun x => x.1.1 = sid /\ start <= x.1.2 /\
    sent !! Z.to_nat (x.1.2 - start) = Some x.2 /\ valid_id x.1) (parsed packets)).
  { unfold parsed. clear bs. induction Hp as [|p packets Hp Hps IH]; [constructor|]. cbn.
    destruct (p ≫= parse) as [x|] eqn:Hpx; [|done]. constructor; [|done].
    destruct (Hp x Hpx) as (k&e&->&?&?&?). done. }
  assert (Hsorted : StronglySorted Z.lt (map (fun x => x.1.2) (select (parsed packets) bs))).
  { pose proof (keeps_increasing (map fst (parsed packets))) as Hk. fold bs in Hk.
    rewrite select_map, map_map in Hk. apply Hk. apply Forall_map.
    eapply Forall_impl; [exact Hx|]. by intros ? (_&_&_&?). }
  rewrite select_map. eapply (increasing_sublist start); [exact Hsorted|].
  apply (select_Forall _ _ bs) in Hx. clear Hsorted.
  induction Hx as [|x l (_&?&?&_) Hl IH]; simpl; by constructor.
Qed.

(** If everything arrives in order, everything is delivered. *)
Lemma delivered_all sid sent packets :
  Forall (fun x => valid_id x.1) (parsed packets) ->
  parsed packets = zip (map (fun i => (sid, Z.of_nat i)) (seq 1 (length sent))) sent ->
  delivered packets = sent.
Proof.
  intros Hv Hp. unfold delivered.
  assert (Hl : length (map (fun i => (sid, Z.of_nat i)) (seq 1 (length sent))) = length sent)
    by by rewrite length_map, length_seq.
  assert (map fst (parsed packets) = map (fun i => (sid, Z.of_nat i)) (seq 1 (length sent))) as Hids.
  { rewrite Hp. apply (fst_zip (map _ _) sent). lia. }
  rewrite (keeps_consecutive sid).
  - rewrite map_map. replace (map (fun _ => true) (parsed packets))
      with (map (fun _ : E => true) (map snd (parsed packets))) by by rewrite map_map.
    rewrite select_all, Hp. apply (snd_zip (map _ _) sent). lia.
  - by apply Forall_map.
  - rewrite Hids at 1. rewrite Hids. by rewrite Hl.
Qed.
End Delivery.

(** ** The instances *)

#[export] Instance llep_format : WireFormat EventData.
Proof.
  refine {| image := data_packet; parse data := identify (Some data); sendable := packet_ok |}.
  intros sid k ev Hok. unfold identify. cbn [mbind option_bind].
  rewrite decode_data_packet by done. by rewrite decoded_event_bytes.
Defined.

Definition gap_step (d : GapDetector) (id : Z * Z) : bool * GapDetector :=
  let '(r, d) := check d id.1 id.2 in (bool_decide (status r = PacketStatus_Accepted), d).

Lemma keeps_check_all d ids : keeps gap_step d ids = map is_accepted (check_all d ids).1.
Proof.
  revert d. induction ids as [|id ids IH]; intros d; [done|]. cbn [keeps check_all]. unfold gap_step at 1.
  destruct (check d id.1 id.2) as [r d1]. rewrite IH. by destruct (check_all d1 ids).
Qed.

Lemma select_accepted d ids :
  select ids (map is_accepted (check_all d ids).1) = accepted (check_all d ids).1.
Proof.
  unfold accepted. revert d. induction ids as [|id ids IH]; intros d; [done|]. cbn [check_all].
  destruct (check d id.1 id.2) as [r d1]. specialize (IH d1). destruct (check_all d1 ids) as [tr d2].
  cbn [fst map select List.filter] in *. destruct (is_accepted (id, r)); [|done]. by rewrite IH.
Qed.

Lemma gap_consecutive sid n m d :
  detector_ok d -> last_sequence_ d = Z.of_nat n -> active_session_ d = 0 \/ active_session_ d = sid ->
  Forall packet_id_ok (map (fun i => (sid, Z.of_nat i)) (seq (S n) m)) ->
  keeps gap_step d (map (fun i => (sid, Z.of_nat i)) (seq (S n) m)) = map (fun _ => true) (seq (S n) m).
Proof.
  revert n d. induction m as [|m IH]; intros n d Hd Hl Hs Hids; [done|].
  cbn [seq map keeps] in *. apply Forall_cons in Hids as [Hid Hids]. unfold gap_step at 1. cbn [fst snd].
  pose proof (check_preserves_ok d _ _ Hd Hid) as Hd1. rewrite (check_spec d _ _ Hd Hid) in *.
  unfold check_reference in *. rewrite decide_True in * by done. rewrite decide_True in * by lia.
  cbn [snd] in Hd1. rewrite decide_True by lia. rewrite bool_decide_true by done. f_equal.
  apply IH; [done|done|by right|done].
Qed.

#[export] Instance gap_filter : PacketFilter GapDetector.
Proof.
  refine {| filter_init := GapDetector_init; filter_step := gap_step; valid_id := packet_id_ok |}.
  - intros ids Hids. rewrite keeps_check_all, select_accepted.
    apply (check_all_accounts ids _ detector_init_ok Hids).
  - intros sid ids Hids Heq. revert Hids. rewrite Heq at 1 2. intros Hids.
    rewrite (gap_consecutive sid 0 (length ids) GapDetector_init); [|apply detector_init_ok|done|by left|done].
    rewrite Heq at 2. by rewrite map_map.
Defined.

(** What the receiver accepts is what the interfaces deliver. *)
Lemma accepted_delivered packets :
  accepted_events GapDetector_init packets = delivered (S := GapDetector) packets.
Proof.
  unfold accepted_events, verdicts, delivered. cbn [filter_step filter_init gap_filter].
  rewrite keeps_check_all. reflexivity.
Qed.

(** ** The sender's datagrams *)

(** The network: every well-formed packet that arrives is a datagram of the sender; it may
    be lost, repeated, overtaken or arrive in pieces that no longer parse. *)
Definition network (sent : list (list byte * sockaddr_in * sysret)) (packets : list (option (list byte))) : Prop :=
  Forall (fun p => identify p <> None -> p ∈ map (fun s => Some s.1.1) sent) packets.

(** A network that delivers all that is sent to [d], in order, once. *)
Definition perfect_network (d : sockaddr_in) (sent : list (list byte * sockaddr_in * sysret))
    (packets : list (option (list byte))) : Prop :=
  packets = map (fun s => Some s.1.1) (List.filter (fun s => bool_decide (s.1.2 = d)) sent).

Lemma network_from_sender max sid dests seq ts packets :
  0 < sid < 2 ^ 32 -> max <= 1416 -> 1 <= seq ->
  seq + Z.of_nat (length (encoded_turns max sid seq ts)) <= 2 ^ 64 ->
  Forall (fun t => event_ok (t_event t)) ts -> turns_ok max sid dests seq ts ->
  network (sends ts) packets ->
  Forall (from_sender (S := GapDetector) sid seq (map t_event (encoded_turns max sid seq ts))) packets.
Proof.
  intros Hsid Hmax Hseq Hb Hok Hts Hnet.
  pose proof (turns_decode max sid dests seq ts Hsid Hmax Hseq Hb Hok Hts) as Hdec.
  eapply Forall_impl; [exact Hnet|]. intros p Hp x Hx.
  assert (identify p = Some x) as Hid by by destruct p.
  apply list_elem_of_In, in_map_iff in Hp as (s&<-&Hin); [|by rewrite Hid].
  rewrite Forall_forall in Hdec. apply list_elem_of_In in Hin.
  destruct (Hdec s Hin) as (k&ev&_&_&Hk&Hlk&Hpk&Hd). rewrite Hd in Hid.
  pose proof (parse_image sid k ev Hpk) as Hpi. cbn [parse llep_format image] in Hpi.
  rewrite Hpi in Hid. injection Hid as <-. exists k, ev. split_and!; [done|lia|done|].
  destruct Hpk as [[] [] _ _]. by split_and!.
Qed.

Lemma encoded_events max sid seq ts :
  1 <= seq -> map t_event (encoded_turns max sid seq ts) =
              List.filter (encodable max sid 1) (map t_event ts).
Proof. intros Hseq. by rewrite filter_map_comm, (encoded_filter max sid seq 1). Qed.

Lemma list_filter_sublist {A} (f : A -> bool) l : sublist (List.filter f l) l.
Proof. induction l as [|x l IH]; simpl; [constructor|]. destruct (f x); by constructor. Qed.

(** One datagram of a turn goes to [d]. *)
Lemma filter_no_destination (data : list byte) (d : sockaddr_in) (dests : list UdpAddress) :
  d ∉ map native dests ->
  List.filter (fun s => bool_decide (s.2 = d)) (map (fun x => (data, native x)) dests) = [].
Proof.
  induction dests as [|x dests IH]; [done|]. cbn. intros [Hne Hn]%not_elem_of_cons.
  rewrite bool_decide_false by congruence. by apply IH.
Qed.

Lemma filter_destination (data : list byte) (d : sockaddr_in) (dests : list UdpAddress) :
  NoDup (map native dests) -> d ∈ map native dests ->
  List.filter (fun s => bool_decide (s.2 = d)) (map (fun x => (data, native x)) dests) = [(data, d)].
Proof.
  induction dests as [|x dests IH]; [by intros _ ?%elem_of_nil|]. cbn. intros [Hx Hnd]%NoDup_cons Hin.
  destruct (decide (native x = d)) as [<-|Hne].
  - rewrite bool_decide_true by done. by rewrite filter_no_destination.
  - rewrite bool_decide_false by done. apply IH; [done|]. apply elem_of_cons in Hin as [|]; [congruence|done].
Qed.

(** What a perfect network delivers parses to the events in order, numbered from [n]. *)
Lemma perfect_parsed max sid dests d ts n :
  NoDup (map native dests) -> d ∈ map native dests ->
  0 < sid < 2 ^ 32 -> (1 <= n)%nat -> Forall (fun t => event_ok (t_event t)) ts ->
  Z.of_nat n + Z.of_nat (length (encoded_turns max sid (Z.of_nat n) ts)) <= 2 ^ 64 ->
  turns_ok max sid dests (Z.of_nat n) ts ->
  let enc := encoded_turns max sid (Z.of_nat n) ts in
  parsed (map (fun s => Some s.1.1) (List.filter (fun s => bool_decide (s.1.2 = d)) (sends ts))) =
    zip (map (fun i => (sid, Z.of_nat i)) (seq n (length enc))) (map t_event enc).
Proof.
  intros Hnd Hd Hsid. revert n. unfold sends. induction ts as [|t ts IH]; intros n Hn Hok Hb Hts; [done|].
  apply Forall_cons in Hok as [Hev Hok]. cbn [map concat encoded_turns turns_ok] in *.
  rewrite List.filter_app, map_app. unfold parsed in *. rewrite omap_app.
  destruct (encodable max sid (Z.of_nat n) (t_event t)) eqn:He; destruct Hts as [Ht Hts].
  - replace (Z.of_nat n + 1) with (Z.of_nat (S n)) in * by lia. cbn [length] in Hb.
    rewrite (IH (S n)); [|lia|done|lia|done]. cbn [length seq map zip zip_with].
    assert (map fst (List.filter (fun s => bool_decide (s.1.2 = d)) (t_sends t)) =
      [(data_packet sid (Z.of_nat n) (t_event t), d)]) as Hone.
    { pose proof (filter_map_comm (fun s : list byte * sockaddr_in => bool_decide (s.2 = d)) fst (t_sends t)) as Hf.
      rewrite Ht, filter_destination in Hf by done. symmetry. exact Hf. }
    destruct (List.filter (fun s => bool_decide (s.1.2 = d)) (t_sends t)) as [|s [|]]; [done| |done].
    injection Hone as Hs. cbn [map omap list_omap]. rewrite Hs. cbn [fst mbind option_bind].
    change (data_packet sid (Z.of_nat n) (t_event t)) with (image sid (Z.of_nat n) (t_event t)).
    rewrite parse_image; [done|]. unfold encodable in He. to_prop.
    split; [split; [lia|uint]|split; [lia|uint]|by split|done].
  - rewrite Ht. cbn [List.filter map omap list_omap app]. by apply IH.
Qed.

(** A perfect network is a network. *)
Lemma perfect_network_ok d sent packets : perfect_network d sent packets -> network sent packets.
Proof.
  intros ->. apply Forall_forall. intros p Hp _.
  apply list_elem_of_In, in_map_iff in Hp as (s&<-&[Hs _]%filter_In).
  apply list_elem_of_In, in_map_iff. by exists s.
Qed.

Lemma from_sender_valid sid start sent packets :
  Forall (from_sender (S := GapDetector) sid start sent) packets ->
  Forall (fun x => packet_id_ok x.1) (parsed packets).
Proof.
  unfold parsed. induction 1 as [|p packets Hp Hps IH]; [constructor|]. cbn [omap list_omap].
  destruct (p ≫= parse) as [x|] eqn:Hpx; [|done]. constructor; [|done].
  destruct (Hp x Hpx) as (k&e&->&_&_&?). done.
Qed.

(** What the receiver accepts of the datagrams of some turns of a sender. *)
Lemma turns_deliver max sid dests seq ts packets :
  0 < sid < 2 ^ 32 -> max <= 1416 -> 1 <= seq ->
  seq + Z.of_nat (length (encoded_turns max sid seq ts)) <= 2 ^ 64 ->
  Forall (fun t => event_ok (t_event t)) ts -> turns_ok max sid dests seq ts ->
  let accepted := accepted_events GapDetector_init packets in
  let consumed := map t_event ts in
  (network (sends ts) packets -> sublist accepted consumed) /\
  (forall d, perfect_network d (sends ts) packets -> seq = 1 ->
     NoDup (map native dests) -> d ∈ map native dests ->
     accepted = List.filter (encodable max sid 1) consumed).
Proof.
  intros Hsid Hmax Hseq Hb Hok Hts. cbv zeta. rewrite accepted_delivered. split.
  - intros Hnet. etransitivity; [eapply delivered_sublist, (network_from_sender max sid dests seq ts); done|].
    rewrite encoded_events by done. apply list_filter_sublist.
  - intros d Hperf -> Hnd Hin. rewrite <- (encoded_events _ _ 1) by done. apply (delivered_all sid).
    + eapply from_sender_valid, (network_from_sender max sid dests 1 ts); try done. by eapply perfect_network_ok.
    + rewrite Hperf, length_map. by apply (perfect_parsed _ _ dests d ts 1).
Qed.

(** And of what a run of the sender sent. *)
Lemma run_delivers {W} (env : environment W) snd w q ended snd' w' q' l ts packets :
  sender_ok snd -> ran env snd w q ended snd' w' q' l ts ->
  let accepted := accepted_events GapDetector_init packets in
  let consumed := map t_event ts in
  (network (sends ts) packets -> sublist accepted consumed) /\
  (forall d, perfect_network d (sends ts) packets -> packet_sequence_ snd = 1 ->
     NoDup (map native (destinations_ snd)) -> d ∈ map native (destinations_ snd) ->
     accepted = List.filter (encodable (max_datagram_bytes (config_ snd)) (session_id_ snd) 1) consumed).
Proof.
  intros [Hmax Hsid Hseq _] [[_ Hts _ _] _ _ _ _ _ _ Hok Hb]. apply turns_deliver; done || lia.
Qed.

(** ** Properties *)

(** End to end, whatever the producer, the consumer, the systems and the other threads
    do, with a network that loses, repeats, reorders and corrupts datagrams: neither side
    faults, and every event the consumer ever acquires or will find in the egress ring was
    consumed from the ingress ring, in the same order, each at most once. What is accepted
    of a sender that starts at sequence 1 over a perfect network to one of its destinations
    is every encodable event it consumed, and what is missing from the egress ring are
    exactly those the ring refused. *)
Theorem pipeline_in_order {Ws Wr} (es : environment Ws) (er : environment Wr) fs fr snd rcv ws wr qs qr :
  sender_ready es snd ws qs -> receiver_ready er rcv wr qr ->
  Receiver.gap_detector_ rcv = GapDetector_init ->
  exists ended_s snd' ws' qs' ls sent ended_r rcv' wr' qr' lr rs consumed accepted results,
    interp (engine_handler es) (Sender_run fs snd) ws = Some ((ended_s, snd'), ws') /\
    interp (engine_handler er) (Receiver.Receiver_run fr rcv) wr = Some ((ended_r, rcv'), wr') /\
    w_sent ws' = w_sent ws ++ sent /\ w_received wr' = w_received wr ++ rs /\
    w_peer_log ws' = w_peer_log ws ++ ls /\ w_peer_log wr' = w_peer_log wr ++ lr /\
    world_repr ConsumerSide ws' (ingress_ snd') qs' /\
    world_repr ProducerSide wr' (Receiver.egress_ rcv') qr' /\
    q_events qs ++ log_published ls = consumed ++ q_events qs' /\
    q_pending qr ++ select accepted (map is_ok results) = log_acquired lr ++ q_pending qr' /\
    length results = length accepted /\
    (network sent (packets_of rs) -> sublist accepted consumed) /\
    (forall d, perfect_network d sent (packets_of rs) -> packet_sequence_ snd = 1 ->
       NoDup (map native (destinations_ snd)) -> d ∈ map native (destinations_ snd) ->
       accepted = List.filter (encodable (max_datagram_bytes (config_ snd)) (session_id_ snd) 1) consumed).
Proof.
  intros Hs Hr Hd.
  destruct (run_runs es fs snd ws qs Hs) as (e&s'&ws'&qs'&ls&ts&Hruns&Hran&_).
  destruct (ReceiverSpec.receiver_run_runs er fr rcv wr qr Hr)
    as (e'&r'&wr'&qr'&lr&rs&res&errs&Hrunr&[[_ _ _ _ _ Hres] Hpgr Hwr Hh _ _]&_).
  destruct (run_delivers es snd ws qs e s' ws' qs' ls ts (packets_of rs) (rd_ok _ _ _ _ Hs) Hran) as [Hnet Hperf].
  destruct Hran as [_ Hpgs Hws _ Hevs _ _ _ _]. rewrite Hd in *.
  exists e, s', ws', qs', ls, (sends ts), e', r', wr', qr', lr, rs, (map t_event ts),
    (accepted_events GapDetector_init (packets_of rs)), res.
  split_and!; try done; try apply Hpgs; apply Hpgr.
Qed.

(** ** The engines stay well typed *)

(** C40. The invariant of the engines: after any number of turns of a loop, whatever happened
    around it, counters, session, packet sequence and gap detector are again values of
    their machine types, within their bounds, the segment represents a queue of which the
    sender holds nothing, the members that never change have not, and the socket is still
    open; so the loop can be entered again. *)
Theorem engines_stay_well_typed {W} (env : environment W) fuel w q :
  (forall self, sender_ready env self w q ->
     exists ended self' w' q',
       interp (engine_handler env) (Sender_run fuel self) w = Some ((ended, self'), w') /\
       sender_ready env self' w' q' /\ same_sender self self' /\
       packet_sequence_ self <= packet_sequence_ self') /\
  (forall self, receiver_ready env self w q -> detector_ok (Receiver.gap_detector_ self) ->
     exists ended self' w' q',
       interp (engine_handler env) (Receiver.Receiver_run fuel self) w = Some ((ended, self'), w') /\
       receiver_ready env self' w' q' /\ detector_ok (Receiver.gap_detector_ self') /\
       last_sequence_ (Receiver.gap_detector_ self) <= last_sequence_ (Receiver.gap_detector_ self')).
Proof.
  split; intros self Hr.
  - destruct (run_runs env fuel self w q Hr)
      as (e&self'&w'&q'&l&ts&Hrun&[Hadv Hpg Hrepr Hheld _ _ _ _ _]&_).
    destruct Hr as [Hpeer Hok _ _ Hopen]. pose proof (ad_same _ _ _ Hadv) as Hsame.
    exists e, self', w', q'. split; [exact Hrun|]. split; [split; try done|split; [done|]].
    + by eapply advanced_ok.
    + by rewrite (pg_held _ _ _ _ _ _ Hpg), (ss_udp _ _ Hsame).
    + rewrite (ad_sequence _ _ _ Hadv). destruct (so_sequence _ Hok). unfold sequence_after. lia.
  - intros Hd. destruct (ReceiverSpec.receiver_run_runs env fuel self w q Hr)
      as (e&self'&w'&q'&l&rs&res&errs&Hrun&[Harr Hpg Hrepr _ _ _]&_).
    destruct Hr as [Hpeer Hrecv _ _ Hopen]. pose proof Harr as [_ _ Hudp Hdet _ _].
    pose proof (check_all_accounts _ _ Hd (ReceiverSpec.identified_ok (packets_of rs))) as Hrun'.
    exists e, self', w', q'. split; [exact Hrun|]. split; [split; try done|split].
    + by eapply ReceiverSpec.arrived_stats_ok.
    + by rewrite (pg_held _ _ _ _ _ _ Hpg), Hudp.
    + rewrite Hdet. apply Hrun'.
    + rewrite Hdet. apply Hrun'.
Qed.

(** ** A concrete pipeline *)

(** The network delivers the one datagram of the demo sender once. *)
Definition demo_delivery_env : environment unit :=
  Environment (demo_system (data_packet 7 1 (demo_event 1))) (fun t => Nat.eqb t 4) (fun _ => []).

Lemma demo_delivery_ready :
  receiver_ready demo_delivery_env ReceiverSpec.demo_receiver ReceiverSpec.demo_world (empty_queue demo_config).
Proof.
  destruct ReceiverSpec.demo_receiver_ready as [_ _ ? ? ?].
  split; [by constructor|apply demo_system_documented|done..].
Qed.

Definition demo_delivery := interp (engine_handler demo_delivery_env)
  (Receiver.Receiver_run 10 ReceiverSpec.demo_receiver) ReceiverSpec.demo_world.

(** The packets that arrive are those sent to the first destination. *)
Example demo_perfect :
  packets_of <$> (w_received ∘ snd <$> demo_delivery) =
    (fun sent => map (fun s => Some s.1.1)
       (List.filter (fun s => bool_decide (s.1.2 = SockAddr AF_INET 5000 1)) sent)) <$>
    (w_sent ∘ snd <$> demo_run).
Proof. vm_compute. reflexivity. Qed.

Lemma pipeline_in_order_witness :
  exists ws' wr' qr' results consumed rest,
    snd <$> demo_run = Some ws' /\ snd <$> demo_delivery = Some wr' /\
    log_published (w_peer_log ws') = consumed ++ rest /\
    let accepted := List.filter (encodable 1416 7 1) consumed in
    select accepted (map is_ok results) = log_acquired (w_peer_log wr') ++ q_pending qr' /\
    length results = length accepted.
Proof.
  destruct (pipeline_in_order SenderSpec.demo_env demo_delivery_env 10 10 demo_sender
    ReceiverSpec.demo_receiver SenderSpec.demo_world ReceiverSpec.demo_world _ _
    demo_sender_ready demo_delivery_ready eq_refl)
    as (e&s'&ws'&qs'&ls&sent&e'&r'&wr'&qr'&lr&rs&consumed&accepted&results&Hs&Hr&Hsent&Hrs&Hls&Hlr&_&_&
        Hcons&Hacc&Hlen&_&Hperf).
  assert (Hs' : demo_run = Some (e, s', ws')) by exact Hs.
  assert (Hr' : demo_delivery = Some (e', r', wr')) by exact Hr. clear Hs Hr.
  cbn [w_sent w_received w_peer_log app ReceiverSpec.demo_world SenderSpec.demo_world] in *.
  assert (accepted = List.filter (encodable 1416 7 1) consumed) as ->.
  { apply (Hperf (SockAddr AF_INET 5000 1)); [|done| |].
    - pose proof demo_perfect as Hp. rewrite Hs', Hr' in Hp. cbn in Hp. rewrite Hsent, Hrs in Hp.
      by injection Hp as Hp.
    - apply NoDup_cons. split; [by intros ?%list_elem_of_singleton|apply NoDup_singleton].
    - apply list_elem_of_here. }
  exists ws', wr', qr', results, consumed, (q_events qs').
  rewrite Hs', Hr', Hls, Hlr.
  split; [reflexivity|]. split; [reflexivity|]. split; [exact Hcons|]. split; [exact Hacc|exact Hlen].
Defined.

Lemma engines_stay_well_typed_witness :
  (exists ended self' w' q',
     interp (engine_handler SenderSpec.demo_env) (Sender_run 10 demo_sender) SenderSpec.demo_world =
       Some ((ended, self'), w') /\
     sender_ready SenderSpec.demo_env self' w' q' /\ same_sender demo_sender self' /\
     1 <= packet_sequence_ self') /\
  (exists ended self' w' q',
     interp (engine_handler demo_delivery_env) (Receiver.Receiver_run 10 ReceiverSpec.demo_receiver)
       ReceiverSpec.demo_world = Some ((ended, self'), w') /\
     receiver_ready demo_delivery_env self' w' q' /\ detector_ok (Receiver.gap_detector_ self') /\
     0 <= last_sequence_ (Receiver.gap_detector_ self')).
Proof.
  split.
  - exact (proj1 (engines_stay_well_typed SenderSpec.demo_env 10 SenderSpec.demo_world _) _ demo_sender_ready).
  - exact (proj2 (engines_stay_well_typed demo_delivery_env 10 ReceiverSpec.demo_world _) _
      demo_delivery_ready detector_init_ok).
Defined.
