(* ===== verification/PipelineConcurrent.v ===== *)
(** * End to end, four processes

    A producer and the sender on one ring, a network, the receiver and a consumer on another
    ring. Both pairs run concurrently, access by access, under release/acquire memory
    ([SenderConcurrent], [ReceiverConcurrent]); what the network relates are the datagrams
    of finished executions ([Pipeline]). *)

From S2P Require Import Prelude Bytes Event Protocol GapDetector Memory RingLayout Ring RingSpec.
From S2P Require Import RingSafety RingSystem RingInit Weak RingConcurrent Posix Udp Config Engine EngineWeak.
From S2P Require Import Sender SenderSpec SenderConcurrent Pipeline.
From S2P Require Receiver ReceiverSpec ReceiverConcurrent.
Import ReceiverSpec(packets_of, accepted_events, is_ok, receiver_ready).

(** End to end beside a concurrent producer and a concurrent consumer, with a network that
    loses, repeats, reorders and corrupts datagrams: every execution of either side can be
    continued to its end; and what the consumer acquires from a ring that was empty is a
    subsequence of the events pending and published for the sender: in the same order, each
    at most once. Over a perfect network to a destination of a sender that starts at
    sequence 1 the accepted events are the encodable ones the sender consumed; it has
    consumed them all when its loop ended without a stop; and a consumer that was told the
    ring is closed has acquired all of the accepted ones the ring took. *)
Theorem pipeline_concurrent {Ws Wr} (es : environment Ws) (er : environment Wr) fs fr snd rcv us ur qs qr
    ops_p ops_c schedule_s schedule_r :
  sender_ready es snd us qs -> receiver_ready er rcv ur qr -> in_use qs -> in_use qr ->
  Forall op_ok ops_p -> forallb producer_op ops_p = true -> forallb consumer_op ops_c = true ->
  Receiver.gap_detector_ rcv = GapDetector_init ->
  let sending := beside_producer es (Sender_run fs snd) us ops_p in
  let receiving := beside_consumer er (Receiver.Receiver_run fr rcv) ur ops_c in
  completes schedule_s sending /\ completes schedule_r receiving /\
  forall ss sr rs_p hp' ended_s snd' ws' ended_r rcv' wr' rs_c hc',
    execute schedule_s sending = Some ss -> finished_with ss (rs_p, hp') ((ended_s, snd'), ws') ->
    execute schedule_r receiving = Some sr -> finished_with sr ((ended_r, rcv'), wr') (rs_c, hc') ->
    let published := q_events qs ++ published ops_p rs_p in
    exists sent arrivals consumed left accepted results pending,
      w_sent ws' = w_sent us ++ sent /\ w_received wr' = w_received ur ++ arrivals /\
      published = consumed ++ left /\ (ended_s = true -> w_stop ws' = false -> left = []) /\
      q_pending qr ++ select accepted (map is_ok results) = acquired rs_c ++ pending /\
      length results = length accepted /\ (ResAcquire (Unexpected AcquireError_Closed) ∈ rs_c -> pending = []) /\
      (network sent (packets_of arrivals) -> q_pending qr = [] -> sublist (acquired rs_c) published) /\
      (forall d, perfect_network d sent (packets_of arrivals) -> packet_sequence_ snd = 1 ->
         NoDup (map native (destinations_ snd)) -> d ∈ map native (destinations_ snd) ->
         accepted = List.filter (encodable (max_datagram_bytes (config_ snd)) (session_id_ snd) 1) consumed).
Proof.
  intros Hs Hr Hus Hur Hok Hops_p Hops_c Hd. cbv zeta.
  split; [by eapply sender_beside_completes|]. split; [by eapply ReceiverConcurrent.receiver_beside_completes|].
  intros ss sr rs_p hp' ended_s snd' ws' ended_r rcv' wr' rs_c hc' Hrs Hfs Hrr Hfr.
  destruct (sender_beside_finished es fs snd us qs Hs Hus ops_p Hok Hops_p _ ss rs_p hp' _ _ _ Hrs Hfs)
    as (gs&us'&qs'&ls&ts&rest&Hran&Hus'&Hpub&Hrest).
  destruct (ReceiverConcurrent.receiver_beside_finished er fr rcv ur qr Hr Hur ops_c Hops_c _ sr _ _ _ rs_c hc' Hrr Hfr)
    as (_&gr&ur'&qr'&lr&arrivals&results&errs&pending&[[_ _ _ _ _ Hres] Hpgr _ _ _ _ _]&Hur'&_&Hpending&Hclosed).
  destruct (locally_same _ _ Hus') as (Hstop&Hsent&_). destruct (locally_same _ _ Hur') as (_&_&Hrecv).
  destruct (run_delivers (with_peer es gs) snd us qs ended_s snd' us' qs' ls ts (packets_of arrivals)
    (rd_ok _ _ _ _ Hs) Hran) as [Hnet Hperf].
  destruct Hran as [_ Hpgs _ _ Hevs _ Hend _ _]. rewrite Hd in *.
  assert (Hcons : q_events qs ++ published ops_p rs_p = map t_event ts ++ q_events qs' ++ rest)
    by by rewrite Hpub, !app_assoc, Hevs.
  exists (sends ts), arrivals, (map t_event ts), (q_events qs' ++ rest),
    (accepted_events GapDetector_init (packets_of arrivals)), results, pending.
  split; [rewrite <- Hsent; apply Hpgs|]. split; [rewrite <- Hrecv; apply Hpgr|]. split; [done|].
  split. { intros He Hst. destruct (Hend He) as [?|[? ->]]; [congruence|by rewrite Hrest]. }
  split; [done|]. split; [done|]. split; [done|]. split; [|done].
  intros Hn Hq. rewrite Hq in Hpending. cbn [app] in Hpending. rewrite Hcons.
  etransitivity; [apply (sublist_inserts_r pending), reflexivity|]. rewrite <- Hpending.
  etransitivity; [apply select_sublist|]. etransitivity; [by apply Hnet|]. by apply sublist_inserts_r.
Qed.

(** ** A concrete pipeline *)

(** The network delivers the datagram for the first destination once; the consumer finds the
    event and then the ring closed. *)
Abbreviation demo_sending :=
  (beside_producer SenderSpec.demo_env (Sender_run 10 demo_sender) SenderSpec.demo_world
     [OpPublish (demo_event 1); OpClose]).
Abbreviation demo_receiving :=
  (beside_consumer demo_delivery_env (Receiver.Receiver_run 10 ReceiverSpec.demo_receiver)
     ReceiverSpec.demo_world demo_acquisitions).

Example demo_pipeline_results :
  (s ← execute demo_schedule demo_sending ≫= outcome; r ← execute demo_schedule demo_receiving ≫= outcome;
   Some (s.1.1, s.2.1.1, w_stop s.2.2, r.2.1, bool_decide (packets_of (w_received r.1.2) =
     map (fun x => Some x.1.1)
       (List.filter (fun x => bool_decide (x.1.2 = SockAddr AF_INET 5000 1)) (w_sent s.2.2))))) =
  Some ([ResPublish PublishResult_Ok; ResClose true], true, false, ReceiverConcurrent.demo_found, true).
Proof. vm_compute. reflexivity. Qed.

Lemma demo_publication_ok : Forall op_ok [OpPublish (demo_event 1); OpClose].
Proof. constructor; [by apply demo_event_ok|by constructor]. Qed.

Lemma demo_pipeline_finished :
  exists ss sr hp' snd' ws' ended_r rcv' wr' hc',
    execute demo_schedule demo_sending = Some ss /\
    finished_with ss ([ResPublish PublishResult_Ok; ResClose true], hp') ((true, snd'), ws') /\
    execute demo_schedule demo_receiving = Some sr /\
    finished_with sr ((ended_r, rcv'), wr') (ReceiverConcurrent.demo_found, hc') /\
    w_stop ws' = false /\ perfect_network (SockAddr AF_INET 5000 1) (w_sent ws') (packets_of (w_received wr')).
Proof.
  pose proof demo_pipeline_results as Hres.
  destruct (execute demo_schedule demo_sending) as [ss|]; [|discriminate Hres].
  destruct (execute demo_schedule demo_receiving) as [sr|]; [|cbn in Hres; by destruct (outcome ss)].
  cbn [mbind option_bind] in Hres.
  destruct (outcome ss) as [[[rs hp'] [[ended snd'] ws']]|] eqn:Hs; [|discriminate Hres].
  destruct (outcome sr) as [[[[ended_r rcv'] wr'] [rc hc']]|] eqn:Hr; [|discriminate Hres].
  injection Hres as -> -> Hstop -> Hnet.
  exists ss, sr, hp', snd', ws', ended_r, rcv', wr', hc'.
  split; [reflexivity|]. split; [by apply outcome_finished|]. split; [reflexivity|].
  split; [by apply outcome_finished|]. split; [exact Hstop|]. by apply bool_decide_eq_true in Hnet.
Qed.

Lemma pipeline_concurrent_witness :
  completes demo_schedule demo_sending /\ completes demo_schedule demo_receiving /\
  exists ss sr hp' snd' ws' ended_r rcv' wr' hc' results,
    execute demo_schedule demo_sending = Some ss /\
    finished_with ss ([ResPublish PublishResult_Ok; ResClose true], hp') ((true, snd'), ws') /\
    execute demo_schedule demo_receiving = Some sr /\
    finished_with sr ((ended_r, rcv'), wr') (ReceiverConcurrent.demo_found, hc') /\
    sublist (acquired ReceiverConcurrent.demo_found) [demo_event 1] /\
    select (List.filter (encodable 1416 7 1) [demo_event 1]) (map is_ok results) =
      acquired ReceiverConcurrent.demo_found.
Proof.
  destruct (pipeline_concurrent SenderSpec.demo_env demo_delivery_env 10 10 demo_sender ReceiverSpec.demo_receiver
    SenderSpec.demo_world ReceiverSpec.demo_world _ _ [OpPublish (demo_event 1); OpClose] demo_acquisitions
    demo_schedule demo_schedule demo_sender_ready demo_delivery_ready (or_introl eq_refl) (or_introl eq_refl)
    demo_publication_ok eq_refl eq_refl eq_refl) as (Hcs&Hcr&Hend).
  split; [exact Hcs|]. split; [exact Hcr|].
  destruct demo_pipeline_finished as (ss&sr&hp'&snd'&ws'&ended_r&rcv'&wr'&hc'&Hrs&Hfs&Hrr&Hfr&Hstop&Hnet).
  destruct (Hend ss sr _ hp' true snd' ws' ended_r rcv' wr' _ hc' Hrs Hfs Hrr Hfr)
    as (sent&arrivals&consumed&left&accepted&results&pending&Hsent&Harr&Hpub&Hleft&Hacq&_&Hclosed&Hsub&Hperf).
  cbn [w_sent w_received SenderSpec.demo_world ReceiverSpec.demo_world app] in Hsent, Harr.
  rewrite Hsent, Harr in Hnet. rewrite (Hleft eq_refl Hstop), app_nil_r in Hpub.
  rewrite Hclosed, app_nil_r in Hacq by (apply list_elem_of_In; cbn; tauto).
  exists ss, sr, hp', snd', ws', ended_r, rcv', wr', hc', results.
  split; [exact Hrs|]. split; [exact Hfs|]. split; [exact Hrr|]. split; [exact Hfr|].
  split; [exact (Hsub (perfect_network_ok _ _ _ Hnet) eq_refl)|].
  rewrite <- Hpub in Hperf. rewrite (Hperf _ Hnet eq_refl) in Hacq; [exact Hacq| |].
  - apply NoDup_cons. split; [by intros ?%list_elem_of_singleton|apply NoDup_singleton].
  - apply list_elem_of_here.
Defined.
