(* ===== verification/Deployment.v ===== *)
(** * A deployment: four processes from start to end

    A producer with its ring, the process of a sender, a network, the process of a receiver,
    and a consumer that attaches to the receiver's ring. Either pair runs concurrently,
    access by access, under release/acquire memory ([SenderProcess], [ReceiverProcess]); what
    the network relates are the datagrams of finished executions ([Pipeline]). *)

From S2P Require Import Prelude Bytes Event Protocol GapDetector Memory RingLayout Ring RingSpec.
From S2P Require Import RingSafety RingSystem RingInit RingAttach Weak RingConcurrent Posix Udp Segment Config.
From S2P Require Import Engine EngineWeak Sender SenderSpec SenderProcess Pipeline PipelineConcurrent ReceiverProcess.
From S2P Require Receiver ReceiverSpec Lifecycle.
Import ReceiverSpec(packets_of, accepted_events, is_ok).

(** C5. A deployment, from the start-up of the sender and a successful start-up of the receiver
    to the destruction of both, beside a producer that publishes and a consumer that attaches
    at any time, with a network that loses, repeats, reorders and corrupts datagrams. Every
    execution of either side can be continued to its end. When a sender that started and the
    receiver have finished, both have given back what they acquired, and what the consumer
    acquired is a subsequence of the events pending and published for the sender: in the same
    order, each at most once. Over a perfect network to one of the configured destinations
    the accepted events are the encodable ones the sender consumed; it has consumed them all
    when its loop ended without a stop; and a consumer that was told the ring is closed has
    acquired all of the accepted ones the ring took. *)
Theorem deployment_delivers {Ws Wr} (es : environment Ws) (er er' : environment Wr) c us qs inet_s fuel_s turns_s
    config_s ops_p inet_r fuel_r turns_r config_r wr rcv ur memory ops_c schedule_s schedule_r :
  ring_offered es c us qs -> Forall op_ok ops_p -> forallb producer_op ops_p = true ->
  initialized er inet_r fuel_r config_r wr rcv ur ->
  recvmsg_documented (env_os er') -> munmap_documented (env_os er') ->
  mapping_of (egress_ring config_r) memory -> forallb consumer_op ops_c = true ->
  let sending := beside_producer es (sender_process inet_s fuel_s turns_s config_s) us ops_p in
  let ur0 := Lifecycle.with_peer ur (construct_handle (egress_ring config_r) false) in
  let receiving := beside_attaching er' (receiver_service turns_r rcv) ur0 memory ops_c in
  completes schedule_s sending /\ completes schedule_r receiving /\
  forall ss sr rs_p hp' ended_s snd' ws' ended_r rcv' wr' r,
    execute schedule_s sending = Some ss ->
    finished_with ss (rs_p, hp') (Some (Value (ended_s, snd')), ws') ->
    execute schedule_r receiving = Some sr -> finished_with sr ((ended_r, rcv'), wr') r ->
    let published := q_events qs ++ published ops_p rs_p in
    exists sent arrivals consumed left accepted results rs_c hc' pending, r = Value (rs_c, hc') /\
      w_held ws' = w_held us /\ served (w_held wr) rcv ur0 rcv' wr' arrivals results /\
      w_sent ws' = w_sent us ++ sent /\ published = consumed ++ left /\
      (ended_s = true -> w_stop ws' = false -> left = []) /\
      select accepted (map is_ok results) = acquired rs_c ++ pending /\ length results = length accepted /\
      (ResAcquire (Unexpected AcquireError_Closed) ∈ rs_c -> pending = []) /\
      (network sent (packets_of arrivals) -> sublist (acquired rs_c) published) /\
      (forall d, perfect_network d sent (packets_of arrivals) ->
         NoDup (map native (destinations_ snd')) -> d ∈ map native (destinations_ snd') ->
         accepted = List.filter (encodable (max_datagram_bytes config_s) (session_id_ snd') 1) consumed).
Proof.
  intros Hs Hok Hops_p Hinit Hrecv Hmunmap Hmem Hops_c. cbv zeta.
  split; [by eapply sender_process_completes|]. split; [by eapply receiver_process_completes|].
  intros ss sr rs_p hp' ended_s snd' ws' ended_r rcv' wr' r Hrs Hends Hrr Hendr.
  destruct (sender_process_finished es c inet_s fuel_s turns_s config_s us qs Hs ops_p Hok Hops_p schedule_s
    ss rs_p hp' _ ws' Hrs Hends) as (left&[Hheld (Hds&Hid&Hmax&ts&Hev&Hsent&Hts&Hevs&Hb&_)]&Hleft).
  destruct (receiver_process_finished er er' inet_r fuel_r turns_r config_r wr rcv ur Hinit Hrecv Hmunmap memory Hmem
    ops_c Hops_c schedule_r sr ended_r rcv' wr' r Hrr Hendr) as (Hdet&rs_c&hc'&arrivals&results&pending&->&_&Hsv&Hacq&Hclosed).
  pose proof (sv_results _ _ _ _ _ _ _ Hsv) as Hres. rewrite Hdet in Hres.
  destruct (turns_deliver (max_datagram_bytes config_s) (session_id_ snd') (destinations_ snd') 1 ts
    (packets_of arrivals)) as [Hnet Hperf]; [done|lia|lia|cbn in *; lia|done|done|].
  exists (sends ts), arrivals, (map t_event ts), left, (accepted_events GapDetector_init (packets_of arrivals)),
    results, rs_c, hc', pending.
  split; [done|]. split; [done|]. split; [done|]. split; [done|]. split; [done|].
  split; [intros -> Hst; apply Hleft; split; [done|by exists snd']|].
  split; [done|]. split; [done|]. split; [done|]. split; [|by intros d Hp; apply (Hperf d)].
  intros Hn. rewrite Hev.
  etransitivity; [apply (sublist_inserts_r pending), reflexivity|]. rewrite <- Hacq.
  etransitivity; [apply select_sublist|]. etransitivity; [by apply Hnet|]. by apply sublist_inserts_r.
Qed.

(** ** A concrete deployment *)

(** The network delivers the datagram of the sender once. *)
Definition demo_network_env : environment unit :=
  Environment (demo_system (data_packet 7 1 (demo_event 1))) (fun t => Nat.eqb t 9) (fun _ => []).

Abbreviation demo_destination := (SockAddr AF_INET 5000 167772161).
Abbreviation demo_sending := (beside_producer SenderSpec.demo_env
  (sender_process Lifecycle.demo_inet_pton 1 10 Lifecycle.demo_sender_config) Lifecycle.demo_world
  [OpPublish (demo_event 1); OpClose]).

Definition demo_receiving (rcv : Receiver.Receiver) (w : world unit) :=
  beside_attaching demo_network_env (receiver_service 10 rcv)
    (Lifecycle.with_peer w (construct_handle demo_config false)) (Memory 4096 320) demo_acquisitions.

Definition sender_of (r : option (expected (bool * Sender) InitError)) : option (bool * list UdpAddress * Z) :=
  match r with
  | Some (Value ran) => Some (ran.1, destinations_ ran.2, session_id_ ran.2)
  | _ => None
  end.

Example demo_deployment_results :
  match demo_initialized with
  | Some (Some (Value rcv), w) =>
      s ← execute (demo_lockstep 9) demo_sending ≫= outcome;
      r ← execute (demo_lockstep 9) (demo_receiving rcv w) ≫= outcome;
      Some (s.1.1, sender_of s.2.1, w_stop s.2.2, match r.2 with Value x => Some x.1 | Unexpected _ => None end,
        bool_decide (packets_of (w_received r.1.2) = map (fun x => Some x.1.1)
          (List.filter (fun x => bool_decide (x.1.2 = demo_destination)) (w_sent s.2.2))),
        bool_decide (w_received w = []))
  | _ => None
  end = Some ([ResPublish PublishResult_Ok; ResClose true],
    Some (true, [UdpAddr demo_destination], 7), false, Some demo_taken, true, true).
Proof. vm_compute. reflexivity. Qed.

Lemma demo_deployment_finished :
  exists rcv w ss hp' snd' ws' sr ended_r rcv' wr' hc', demo_initialized = Some (Some (Value rcv), w) /\
    execute (demo_lockstep 9) demo_sending = Some ss /\
    finished_with ss ([ResPublish PublishResult_Ok; ResClose true], hp') (Some (Value (true, snd')), ws') /\
    execute (demo_lockstep 9) (demo_receiving rcv w) = Some sr /\
    finished_with sr ((ended_r, rcv'), wr') (Value (demo_taken, hc')) /\
    destinations_ snd' = [UdpAddr demo_destination] /\ session_id_ snd' = 7 /\ w_stop ws' = false /\
    perfect_network demo_destination (w_sent ws') (packets_of (w_received wr')) /\ w_received w = [].
Proof.
  pose proof demo_deployment_results as Hres.
  destruct demo_initialized as [[[[rcv|e]|] w]|]; [|discriminate Hres..].
  destruct (execute (demo_lockstep 9) demo_sending) as [ss|]; [|discriminate Hres].
  cbn [mbind option_bind] in Hres.
  destruct (outcome ss) as [[[rs hp'] [[[[ended snd']|e]|] ws']]|] eqn:Hs; cbn [mbind option_bind] in Hres;
    [|by destruct (execute _ _ ≫= outcome)..|discriminate Hres].
  destruct (execute (demo_lockstep 9) (demo_receiving rcv w)) as [sr|] eqn:Hrr; [|discriminate Hres].
  cbn [mbind option_bind] in Hres.
  destruct (outcome sr) as [[[[ended_r rcv'] wr'] [[rs_c hc']|e]]|] eqn:Hr; [|discriminate Hres..].
  injection Hres as -> -> Hdst Hid Hstop -> Hnet Hrecv.
  exists rcv, w, ss, hp', snd', ws', sr, ended_r, rcv', wr', hc'.
  split; [reflexivity|]. split; [reflexivity|]. split; [by apply outcome_finished|]. split; [exact Hrr|].
  split; [by apply outcome_finished|]. split; [exact Hdst|]. split; [exact Hid|]. split; [exact Hstop|].
  split; [by apply bool_decide_eq_true in Hnet|by apply bool_decide_eq_true in Hrecv].
Qed.

Lemma deployment_delivers_witness :
  exists rcv w ss hp' snd' ws' sr ended_r rcv' wr' hc' results,
    demo_initialized = Some (Some (Value rcv), w) /\
    completes (demo_lockstep 9) demo_sending /\ completes (demo_lockstep 9) (demo_receiving rcv w) /\
    execute (demo_lockstep 9) demo_sending = Some ss /\
    finished_with ss ([ResPublish PublishResult_Ok; ResClose true], hp') (Some (Value (true, snd')), ws') /\
    execute (demo_lockstep 9) (demo_receiving rcv w) = Some sr /\
    finished_with sr ((ended_r, rcv'), wr') (Value (demo_taken, hc')) /\
    w_held ws' = no_resources /\ r_fds (w_held wr') = [] /\ r_maps (w_held wr') = [] /\
    sublist (acquired demo_taken) [demo_event 1] /\
    select (List.filter (encodable 1416 7 1) [demo_event 1]) (map is_ok results) = acquired demo_taken.
Proof.
  assert (Hnd : NoDup (map native [UdpAddr demo_destination])) by apply NoDup_singleton.
  destruct demo_deployment_finished as (rcv&w&ss&hp'&snd'&ws'&sr&ended_r&rcv'&wr'&hc'&Hinit&Hrs&Hfs&Hrr&Hfr&
    Hdst&Hid&Hstop&Hnet&Hnone).
  destruct (deployment_delivers SenderSpec.demo_env Lifecycle.demo_quiet_env demo_network_env demo_config
    Lifecycle.demo_world (empty_queue demo_config) Lifecycle.demo_inet_pton 1 10 Lifecycle.demo_sender_config
    [OpPublish (demo_event 1); OpClose] Lifecycle.demo_inet_pton 1 10 Lifecycle.demo_receiver_config
    Lifecycle.demo_receiver_world rcv w (Memory 4096 320) demo_acquisitions (demo_lockstep 9) (demo_lockstep 9)
    demo_ring_offered demo_publication_ok eq_refl (demo_is_initialized rcv w Hinit) (demo_system_documented _)
    (demo_munmap_documented _) (conj eq_refl eq_refl) eq_refl) as (Hcs&Hcr&Hend).
  destruct (Hend ss sr _ hp' true snd' ws' ended_r rcv' wr' _ Hrs Hfs Hrr Hfr)
    as (sent&arrivals&consumed&left&accepted&results&rs_c&h&pending&Heq&Hheld&[Hheldr Hrecv _ _ _]&Hsent&Hpub&Hleft&
      Hacq&_&Hclosed&Hsub&Hperf).
  injection Heq as <- <-. cbn [w_received Lifecycle.with_peer] in Hrecv. rewrite Hnone in Hrecv.
  cbn [w_sent Lifecycle.demo_world app] in Hsent. cbn [app] in Hrecv.
  rewrite Hsent, Hrecv in Hnet. rewrite (Hleft eq_refl Hstop), app_nil_r in Hpub.
  rewrite Hclosed, app_nil_r in Hacq by (apply list_elem_of_In; cbn; tauto). rewrite Hdst, Hid in Hperf.
  exists rcv, w, ss, hp', snd', ws', sr, ended_r, rcv', wr', hc', results.
  split; [exact Hinit|]. split; [exact Hcs|]. split; [exact Hcr|]. split; [exact Hrs|]. split; [exact Hfs|].
  split; [exact Hrr|]. split; [exact Hfr|]. split; [exact Hheld|].
  rewrite Hheldr. split; [reflexivity|]. split; [reflexivity|].
  split; [exact (Hsub (perfect_network_ok _ _ _ Hnet))|].
  rewrite <- Hpub in Hperf. rewrite (Hperf _ Hnet Hnd) in Hacq; [exact Hacq|]. apply list_elem_of_here.
Defined.
