(* ===== verification/UdpSmoke.v ===== *)
(** * The UDP smoke test

    [src/apps/udp_smoke.cpp], the command-line program over the UDP transport, whole: the
    parser of the port, the messages, both modes and [main]. [std::from_chars] and the
    stream insertions belong to the standard library and are modelled; [inet_pton],
    [inet_ntop] and [strerror] belong to the C library of the platform and are parameters.
    What is written to [std::cout] and [std::cerr] is a list. *)

From stdpp Require Import pretty.
From S2P Require Import Prelude Bytes Posix Udp.
#[local] Open Scope string_scope.
#[local] Open Scope Z_scope.

Definition buffer_size : nat := 1024.
Definition max_message_size : Z := 256.

(** ** Parsing a port *)

Inductive errc := errc_ok | errc_invalid_argument | errc_result_out_of_range.

#[export] Instance errc_eq_dec : EqDecision errc.
Proof. solve_decision. Defined.

Definition digit (c : ascii) : option Z :=
  let d := Z.of_N (N_of_ascii c) - 48 in
  if (0 <=? d) && (d <=? 9) then Some d else None.

(** The longest prefix of digits: how many, the value with [acc] in front, the rest. *)
Fixpoint scan_digits (acc : Z) (text : string) : nat * Z * string :=
  match text with
  | EmptyString => (O, acc, text)
  | String c rest =>
      match digit c with
      | None => (O, acc, text)
      | Some d => let '(n, v, rest) := scan_digits (10 * acc + d) rest in (S n, v, rest)
      end
  end.

(** [std::from_chars] for [int], base 10: what is left of the text, the error, and the
    value, which keeps what it was on an error. *)
Definition from_chars (text : string) (value : Z) : string * errc * Z :=
  let '(negative, digits) :=
    match text with
    | String c rest => if decide (c = "-"%char) then (true, rest) else (false, text)
    | EmptyString => (false, text)
    end in
  let '(n, v, rest) := scan_digits 0 digits in
  if Nat.eqb n 0 then (text, errc_invalid_argument, value) else
  let v := if (negative : bool) then - v else v in
  if (v <? - 2 ^ 31) || (2 ^ 31 - 1 <? v) then (rest, errc_result_out_of_range, value)
  else (rest, errc_ok, v).

(** The exception carries its message. *)
Definition parse_port (text : string) : expected Z string :=
  let port := -1 in
  let '(end_, error, port) := from_chars text port in
  if bool_decide (error <> errc_ok) || bool_decide (end_ <> "") || (port <? 1) || (65535 <? port)
  then Unexpected (text +:+ " has invalid port number")
  else Value port.

(** ** Output and system calls *)

Inductive stream := cout | cerr.

#[export] Instance stream_eq_dec : EqDecision stream.
Proof. solve_decision. Defined.

Inductive app : Type -> Type :=
  | app_sys {R : Type} (c : sys R) : app R
  | print (s : stream) (text : string) : app unit
  | app_undefined {A : Type} : app A.

Definition system_calls {A} (p : io sys A) : io app A := lift (@app_sys) p.

Definition app_handler {W} (os : system W) : handler app (W * resources * list (stream * string)) :=
  fun R e '(w, out) =>
    match e in app R return option (R * (W * resources * list (stream * string))) with
    | app_sys c => '(r, w) ← tracked os _ c w; Some (r, (w, out))
    | print s text => Some (tt, (w, (out ++ [(s, text)])%list))
    | app_undefined => None
    end.

Definition newline : string := String "010"%char "".
Definition tab : string := String "009"%char "".

Section Program.
Variable inet_pton : string -> option Z.
(** The text of an address, or the [errno] of the failure. *)
Variable inet_ntop : Z -> expected string Z.
Variable strerror : Z -> string.

Definition error_text (code : UdpErrorCode) : string :=
  match code with
  | UdpErrorCode_InvalidAddress => "invalid IPv4 address"
  | UdpErrorCode_InvalidPort => "invalid port"
  | UdpErrorCode_Socket => "socket failed"
  | UdpErrorCode_Bind => "bind failed"
  | UdpErrorCode_Poll => "poll failed"
  | UdpErrorCode_Timeout => "timeout exceeded"
  | UdpErrorCode_Send => "send failed"
  | UdpErrorCode_Receive => "receive failed"
  | UdpErrorCode_DatagramTooLarge => "datagram exceeds receive buffer"
  end.

Definition print_error (operation : string) (error : UdpError) : io app unit :=
  call (print cerr (operation +:+ ": "));;
  call (print cerr (error_text (code error)));;
  (if negb (error_number error =? 0)
   then call (print cerr (": " +:+ strerror (error_number error))) else mret tt);;
  call (print cerr newline).

(** The body once the socket is bound; the socket is closed by the caller. *)
Definition receive_with (receiver : UdpReceiver) : io app Z :=
  call (print cout ("bound to UDP port " +:+ pretty (local_port_ receiver) +:+ newline));;
  received ← system_calls (receive receiver (replicate buffer_size Byte.x00) 10000);
  let '(datagram, buffer) := received in
  match datagram with
  | Unexpected error => print_error "receive" error;; mret 1
  | Value datagram =>
      match inet_ntop (sin_addr (peer datagram)) with
      | Unexpected error => call (print cerr ("inet_ntop: " +:+ strerror error +:+ newline));; mret 1
      | Value sender_ip =>
          call (print cout ("client: received packet (" +:+ pretty (size datagram) +:+ " bytes) from "
            +:+ sender_ip +:+ ":" +:+ pretty (sin_port (peer datagram)) +:+ newline +:+ tab));;
          (if Z.of_nat (length buffer) <? size datagram then call app_undefined else
           call (print cout (String.string_of_list_byte (take (Z.to_nat (size datagram)) buffer))));;
          call (print cout newline);; mret 0
      end
  end.

Definition receive_dm (port : Z) : io app Z :=
  bound ← system_calls (UdpReceiver_bind_port port);
  match bound with
  | Unexpected error => print_error "receive" error;; mret 1
  | Value receiver =>
      status ← receive_with receiver; system_calls (UdpReceiver_destroy receiver);; mret status
  end.

(** The body once the socket is open. *)
Definition send_with (sender : UdpSender) (destination : UdpAddress) (port : Z)
    (ip message : string) : io app Z :=
  sent ← system_calls (send_to sender (String.list_byte_of_string message) destination);
  match sent with
  | Unexpected error => print_error "send" error;; mret 1
  | Value _ =>
      call (print cout ("server: message send to " +:+ ip +:+ ":" +:+ pretty port +:+ newline));;
      mret 0
  end.

Definition send_dm (port : Z) (ip message : string) : io app Z :=
  let message_size := Z.of_nat (String.length message) in
  if max_message_size <? message_size
  then call (print cerr ("message too large" +:+ newline));; mret 1 else
  match UdpAddress_ipv4 inet_pton ip port with
  | Unexpected error => print_error "send" error;; mret 1
  | Value destination =>
      opened ← system_calls UdpSender_open;
      match opened with
      | Unexpected error => print_error "send" error;; mret 1
      | Value sender =>
          status ← send_with sender destination port ip message;
          system_calls (UdpSender_destroy sender);; mret status
      end
  end.

Definition usage : string :=
  "usage:" +:+ newline +:+ "  lle-udp-smoke receive <port>" +:+ newline +:+
  "  lle-udp-smoke send <port> <ip> <message>" +:+ newline.

(** [argv], with the name of the program in front; an exception ends in the handler of
    [main]. *)
Definition main (argv : list string) : io app Z :=
  let argc := length argv in
  let arg i := nth i argv "" in
  let caught error := call (print cerr (error +:+ newline));; mret 1 in
  if Nat.ltb argc 2 then call (print cerr usage);; mret 1 else
  let mode := arg 1%nat in
  if bool_decide (mode = "receive") && Nat.eqb argc 3 then
    match parse_port (arg 2%nat) with
    | Unexpected error => caught error
    | Value port => receive_dm (u16 port)
    end
  else if bool_decide (mode = "send") && Nat.eqb argc 5 then
    match parse_port (arg 2%nat) with
    | Unexpected error => caught error
    | Value port => send_dm (u16 port) (arg 3%nat) (arg 4%nat)
    end
  else call (print cerr ("invalid mode or arguments" +:+ newline));; mret 1.
End Program.

(** ** The parser *)

(** [numeral text v]: a nonempty text of digits of value [v]. *)
Fixpoint numeral_from (acc : Z) (text : string) : option Z :=
  match text with
  | EmptyString => Some acc
  | String c rest => d ← digit c; numeral_from (10 * acc + d) rest
  end.
Definition numeral (text : string) (v : Z) : Prop := text <> "" /\ numeral_from 0 text = Some v.

Lemma digit_range c d : digit c = Some d -> 0 <= d <= 9.
Proof. unfold digit. case_bool; [|done]. intros [= <-]. to_prop. lia. Qed.

(** Scanning to the end of a text is reading a numeral. *)
Lemma scan_numeral acc text :
  numeral_from acc text =
    let '(_, v, rest) := scan_digits acc text in if decide (rest = "") then Some v else None.
Proof.
  revert acc. induction text as [|c text IH]; intros acc; [done|]. cbn [numeral_from scan_digits].
  destruct (digit c) as [d|]; [|done]. cbn [mbind option_bind]. rewrite IH.
  by destruct (scan_digits (10 * acc + d) text) as [[n v] rest].
Qed.

Lemma scan_none acc text n v rest :
  scan_digits acc text = (n, v, rest) -> n = O <-> text = rest.
Proof.
  intros H. assert (String.length text = n + String.length rest)%nat as Hl.
  { revert acc n v rest H. induction text as [|c text IH]; intros acc n v rest; cbn [scan_digits].
    - by intros [= <- <- <-].
    - destruct (digit c) as [d|]; [|by intros [= <- <- <-]].
      destruct (scan_digits (10 * acc + d) text) as [[m u] r] eqn:Hs. intros [= <- <- <-].
      cbn. by rewrite (IH _ _ _ _ Hs). }
  split; [|intros ->; lia]. intros ->. revert H. destruct text as [|c text]; cbn [scan_digits].
  - by intros [= _ <-].
  - destruct (digit c); [|by intros [= _ <-]].
    by destruct (scan_digits _ text) as [[m u] r].
Qed.

Lemma scan_nonneg acc text : 0 <= acc -> 0 <= (scan_digits acc text).1.2.
Proof.
  revert acc. induction text as [|c text IH]; intros acc Hacc; cbn [scan_digits]; [done|].
  destruct (digit c) as [d|] eqn:Hd; [|done]. apply digit_range in Hd.
  pose proof (IH (10 * acc + d)). destruct (scan_digits _ text) as [[m u] r]. cbn in *. lia.
Qed.

(** The two halves of [from_chars]. *)
Lemma from_chars_minus rest value :
  exists e end_ v, from_chars (String "-" rest) value = (end_, e, v) /\ (e = errc_ok -> v <= 0).
Proof.
  unfold from_chars. rewrite decide_True by done.
  pose proof (scan_nonneg 0 rest) as Hv. destruct (scan_digits 0 rest) as [[n v] r]. cbn in Hv.
  destruct (Nat.eqb n 0); [by eexists _, _, _|]. destruct (_ || _); eexists _, _, _; (split; [reflexivity|]);
    [done|lia].
Qed.

Lemma from_chars_digits text value :
  (forall rest, text <> String "-" rest) ->
  from_chars text value =
    let '(n, v, rest) := scan_digits 0 text in
    if Nat.eqb n 0 then (text, errc_invalid_argument, value) else
    if (v <? - 2 ^ 31) || (2 ^ 31 - 1 <? v) then (rest, errc_result_out_of_range, value)
    else (rest, errc_ok, v).
Proof.
  intros Ht. unfold from_chars. destruct text as [|c text]; [done|].
  rewrite decide_False; [done|]. intros ->. by apply (Ht text).
Qed.

(** Exactly the numerals of 1 to 65535 are ports; leading zeros are allowed. *)
Lemma parse_port_spec text p :
  parse_port text = Value p <-> numeral text p /\ 1 <= p <= 65535.
Proof.
  unfold parse_port, numeral.
  assert ((exists rest, text = String "-" rest) \/ forall rest, text <> String "-" rest) as [[rest ->]|Ht].
  { destruct text as [|c rest]; [by right|]. destruct (decide (c = "-"%char)) as [->|].
    - left. by eexists.
    - right. intros ? [= -> _]. done. }
  - destruct (from_chars_minus rest (-1)) as (e&end_&v&->&Hv). split; [|by intros [[_ ?] _]].
    destruct (decide (e = errc_ok)) as [He|He]; [|by rewrite (bool_decide_true (e <> errc_ok))].
    specialize (Hv He). rewrite (proj2 (Z.ltb_lt v 1)) by lia. by rewrite orb_true_r.
  - rewrite from_chars_digits by done. rewrite scan_numeral.
    destruct (scan_digits 0 text) as [[n v] rest] eqn:Hs. pose proof (scan_none _ _ _ _ _ Hs) as Hn.
    destruct (Nat.eqb_spec n 0) as [->|Hn0].
    { rewrite bool_decide_true by done. cbn [orb]. split; [done|]. intros [[Hne Hd] _].
      case_decide; [|done]. subst. by destruct Hne; apply Hn. }
    assert (text <> "") by (intros ->; cbn in Hs; congruence).
    destruct (decide (rest = "")) as [Hr|Hr].
    2: { destruct ((v <? - 2 ^ 31) || (2 ^ 31 - 1 <? v)); rewrite (bool_decide_true (rest <> "")) by done;
         rewrite orb_true_r; (split; [done|by intros [[_ ?] _]]). }
    destruct ((v <? - 2 ^ 31) || (2 ^ 31 - 1 <? v)) eqn:Hrange.
    { rewrite bool_decide_true by done. split; [done|]. intros [[_ [= ->]] Hp].
      apply orb_true_iff in Hrange as [|]; to_prop; lia. }
    rewrite !bool_decide_false by (try (intros ?); done). cbn [orb].
    case_bool; (split; [|]).
    + done.
    + intros [[_ [= ->]] Hp]. apply orb_true_iff in E as [|]; to_prop; lia.
    + intros [= <-]. to_prop. split; [done|lia].
    + by intros [[_ [= ->]] _].
Qed.

(** ** Running the program *)

Section Running.
Context {W : Type} (os : system W).
Variable inet_pton : string -> option Z.
Variable inet_ntop : Z -> expected string Z.
Variable strerror : Z -> string.
Hypothesis Hrecv : recvmsg_documented os.
Abbreviation run_app := (interp (app_handler os)).

Lemma run_print {A} s text (f : unit -> io app A) w out :
  run_app (call (print s text) ≫= f) (w, out) = run_app (f tt) (w, (out ++ [(s, text)])%list).
Proof. by rewrite interp_call. Qed.

Lemma run_system {A B} (p : io sys A) (f : A -> io app B) w out :
  run_app (system_calls p ≫= f) (w, out) =
    r ← interp (tracked os) p w; run_app (f r.1) (r.2, out).
Proof.
  unfold system_calls. revert w. induction p as [a|R c k IH]; intros [w rs]; [done|].
  unfold mbind, io_mbind in *. cbn [lift io_bind interp app_handler].
  destruct (tracked os R c (w, rs)) as [[r [w1 rs1]]|]; [|done].
  cbn [mbind option_bind fst snd]. apply IH.
Qed.

(** Errors are only written to [cerr], and writing to [cerr] means status 1. *)
Definition verdict (status : Z) (out : list (stream * string)) : Prop :=
  (status = 0 /\ Forall (fun o => o.1 = cout) out) \/ (status = 1 /\ Exists (fun o => o.1 = cerr) out).

Lemma run_print_error {A} operation error (f : unit -> io app A) w out :
  exists errors, run_app (print_error strerror operation error ≫= f) (w, out) =
      run_app (f tt) (w, (out ++ errors)%list) /\ Exists (fun o => o.1 = cerr) errors.
Proof.
  unfold print_error. rewrite interp_bind, run_print, run_print, interp_bind.
  destruct (negb (error_number error =? 0)).
  - cbn. rewrite <- !app_assoc. eexists. split; [reflexivity|]. by constructor.
  - cbn. rewrite <- !app_assoc. eexists. split; [reflexivity|]. by constructor.
Qed.

(** What a status of zero means in each mode. *)
Definition received_from (fd : Z) (out : list (stream * string)) : Prop :=
  exists w0, let answer := (os _ (sys_recvmsg fd buffer_size) w0).1 in
    recv_truncated answer = false /\ (cout, String.string_of_list_byte (recv_data answer)) ∈ out.

Definition sent_to (destination : sockaddr_in) (message : string) : Prop :=
  exists fd w0, ret (os _ (sys_sendto fd (String.list_byte_of_string message) destination) w0).1 =
    Z.of_nat (String.length message).

Lemma receive_with_runs receiver w rs out :
  is_open rs (receiver_socket_fd_ receiver) = true ->
  exists status w' more, run_app (receive_with inet_ntop strerror receiver) ((w, rs), out) =
      Some (status, ((w', rs), (out ++ more)%list)) /\ verdict status more /\
    (status = 0 -> received_from (receiver_socket_fd_ receiver) more).
Proof.
  intros Hopen. unfold receive_with. rewrite run_print, run_system.
  destruct (receive_buffer os receiver (replicate buffer_size Byte.x00) 10000 w rs Hrecv Hopen)
    as (r&buffer&w1&->&Hlen&Hr). cbn [mbind option_bind fst snd].
  destruct r as [d|e].
  - destruct Hr as (Hsz&w0&Htr&Hdata&Hsize). rewrite length_replicate in Htr, Hdata, Hsize.
    destruct (inet_ntop _) as [ip|e].
    + rewrite run_print, (proj2 (Z.ltb_ge _ _)) by lia. rewrite run_print, run_print, interp_ret, Hdata.
      eexists 0, w1, _. rewrite <- !app_assoc. split; [reflexivity|]. split.
      * left. split; [done|]. repeat constructor.
      * intros _. exists w0. split; [done|]. do 2 apply list_elem_of_further. apply list_elem_of_here.
    + rewrite run_print, interp_ret. eexists 1, w1, _. rewrite <- !app_assoc. split; [reflexivity|].
      split; [|done]. right. split; [done|]. do 2 constructor. done.
  - destruct (run_print_error "receive" e (fun _ => mret 1) (w1, rs)
      (out ++ [(cout, "bound to UDP port " +:+ pretty (local_port_ receiver) +:+ newline)])%list)
      as (errors&->&He). rewrite interp_ret, <- app_assoc. eexists 1, w1, _. split; [reflexivity|].
    split; [|done]. right. split; [done|]. apply Exists_app. by right.
Qed.

Lemma receive_dm_runs port w rs out :
  exists status w' more, run_app (receive_dm inet_ntop strerror port) ((w, rs), out) =
      Some (status, ((w', rs), (out ++ more)%list)) /\ verdict status more /\
    (status = 0 -> exists fd, received_from fd more).
Proof.
  unfold receive_dm. rewrite run_system.
  destruct (UdpReceiver_bind_resources os (UdpAddr (SockAddr AF_INET port INADDR_ANY)) w rs)
    as (r&w1&rs1&Hrun&Hr). unfold UdpReceiver_bind_port. rewrite Hrun. cbn [mbind option_bind fst snd].
  destruct r as [u|e].
  - destruct Hr as [Hfd ->]. rewrite interp_bind.
    destruct (receive_with_runs u w1 (open_fd rs (receiver_socket_fd_ u)) out (is_open_head _ _))
      as (status&w2&more&->&Hv&Hs). cbn [mbind option_bind fst snd]. rewrite run_system.
    destruct (destroy_receiver_resources os u w2 rs Hfd) as (w3&->). cbn [mbind option_bind fst snd].
    rewrite interp_ret. exists status, w3, more. split; [done|]. split; [done|].
    intros H0. eexists. by apply Hs.
  - subst rs1. destruct (run_print_error "receive" e (fun _ => mret 1) (w1, rs) out) as (errors&->&He).
    rewrite interp_ret. eexists 1, w1, _. split; [reflexivity|]. split; [by right|done].
Qed.

(** Reporting an error and returning 1. *)
Lemma run_fails operation e w rs out :
  exists more, run_app (print_error strerror operation e;; mret 1) ((w, rs), out) =
    Some (1, ((w, rs), (out ++ more)%list)) /\ verdict 1 more.
Proof.
  destruct (run_print_error operation e (fun _ => mret 1) (w, rs) out) as (errors&->&He).
  rewrite interp_ret. eexists. split; [reflexivity|]. by right.
Qed.

Lemma send_with_runs sender destination port ip message w rs out :
  is_open rs (sender_socket_fd_ sender) = true ->
  exists status w' more, run_app (send_with strerror sender destination port ip message) ((w, rs), out) =
      Some (status, ((w', rs), (out ++ more)%list)) /\ verdict status more /\
    (status = 0 -> sent_to (native destination) message).
Proof.
  intros Hopen. unfold send_with, send_to. rewrite run_system.
  rewrite (interp_use _ _ (sender_socket_fd_ sender)) by auto with posix.
  assert (Hlen : length (String.list_byte_of_string message) = String.length message).
  { unfold String.list_byte_of_string. rewrite length_map. clear. by induction message; cbn; [|f_equal]. }
  set (a := os _ (sys_sendto _ _ _) w).
  assert (Hfail : forall e, exists status w' more,
    run_app (print_error strerror "send" e;; mret 1) ((a.2, rs), out) =
      Some (status, ((w', rs), (out ++ more)%list)) /\ verdict status more /\
    (status = 0 -> sent_to (native destination) message)).
  { intros e. destruct (run_fails "send" e a.2 rs out) as (more&->&Hv). by exists 1, a.2, more. }
  destruct (ret a.1 <? 0); [apply Hfail|].
  destruct (ret a.1 =? _) eqn:Ha; [|apply Hfail]. cbn [negb].
  rewrite interp_ret. cbn [mbind option_bind fst snd]. rewrite run_print, interp_ret.
  eexists 0, a.2, _. split; [reflexivity|]. split; [left; split; [done|by repeat constructor]|].
  intros _. exists (sender_socket_fd_ sender), w. apply Z.eqb_eq in Ha. by rewrite <- Hlen.
Qed.

Lemma send_dm_runs port ip message w rs out :
  exists status w' more, run_app (send_dm inet_pton strerror port ip message) ((w, rs), out) =
      Some (status, ((w', rs), (out ++ more)%list)) /\ verdict status more /\
    (status = 0 -> Z.of_nat (String.length message) <= max_message_size /\
       exists addr, inet_pton (c_str ip) = Some addr /\ sent_to (SockAddr AF_INET port addr) message).
Proof.
  unfold send_dm. cbv zeta. destruct (max_message_size <? _) eqn:Hsize.
  { rewrite run_print, interp_ret. eexists 1, w, _. split; [reflexivity|]. split; [|done].
    right. split; [done|]. by constructor. }
  destruct (UdpAddress_ipv4 inet_pton ip port) as [destination|e] eqn:Hip.
  2: { destruct (run_fails "send" e w rs out) as (more&->&?). by exists 1, w, more. }
  assert (exists addr, inet_pton (c_str ip) = Some addr /\
    destination = UdpAddr (SockAddr AF_INET port addr)) as (addr&Haddr&->).
  { unfold UdpAddress_ipv4 in Hip. destruct (port =? 0); [done|].
    destruct (inet_pton (c_str ip)) as [addr|]; [|done]. injection Hip as <-. by exists addr. }
  rewrite run_system. destruct (UdpSender_open_resources os w rs) as (r&w1&rs1&->&Hr).
  cbn [mbind option_bind fst snd]. destruct r as [u|e].
  2: { subst rs1. destruct (run_fails "send" e w1 rs out) as (more&->&?). by exists 1, w1, more. }
  destruct Hr as [Hfd ->]. rewrite interp_bind.
  destruct (send_with_runs u (UdpAddr (SockAddr AF_INET port addr)) port ip message w1
    (open_fd rs (sender_socket_fd_ u)) out (is_open_head _ _)) as (status&w2&more&->&Hv&Hs).
  cbn [mbind option_bind fst snd]. rewrite run_system.
  destruct (destroy_sender_resources os u w2 rs Hfd) as (w3&->). cbn [mbind option_bind fst snd].
  rewrite interp_ret. exists status, w3, more. split; [done|]. split; [done|].
  intros H0. split; [by to_prop|]. exists addr. split; [done|]. by apply Hs.
Qed.
End Running.

(** ** Properties *)

(** What the arguments ask for, and how success shows. *)
Inductive served {W} (os : system W) (inet_pton : string -> option Z)
    (out : list (stream * string)) : list string -> Prop :=
  | served_receive name port p fd :
      numeral port p -> 1 <= p <= 65535 -> received_from os fd out ->
      served os inet_pton out [name; "receive"; port]
  | served_send name port p ip addr message :
      numeral port p -> 1 <= p <= 65535 -> Z.of_nat (String.length message) <= max_message_size ->
      inet_pton (c_str ip) = Some addr -> sent_to os (SockAddr AF_INET p addr) message ->
      served os inet_pton out [name; "send"; port; ip; message].

(** C39. The smoke test ends on every command line and whatever the system answers, with
    every socket it opened closed again. Its status is 0 or 1; it writes to [cerr] exactly
    when the status is 1; and it is 0 only when the arguments are those of a mode, the port
    is a decimal numeral of 1 to 65535, and the work was done: a complete datagram was
    received and printed, or the whole message was accepted by [sendto]. *)
Theorem udp_smoke_main {W} (os : system W) inet_pton inet_ntop strerror argv w rs :
  recvmsg_documented os ->
  exists status w' out,
    interp (app_handler os) (main inet_pton inet_ntop strerror argv) ((w, rs), []) =
      Some (status, ((w', rs), out)) /\
    ((status = 0 /\ Forall (fun o => o.1 = cout) out) \/
     (status = 1 /\ Exists (fun o => o.1 = cerr) out)) /\
    (status = 0 -> served os inet_pton out argv).
Proof.
  intros Hrecv. unfold main. cbv zeta.
  assert (Hfail : forall text, exists status w' out,
    interp (app_handler os) (call (print cerr text);; mret 1) ((w, rs), []) =
      Some (status, ((w', rs), out)) /\ verdict status out /\ (status = 0 -> served os inet_pton out argv)).
  { intros text. rewrite run_print, interp_ret. eexists 1, w, _. split; [reflexivity|].
    split; [|done]. right. split; [done|]. by constructor. }
  destruct (Nat.ltb (length argv) 2); [apply Hfail|].
  destruct (bool_decide (nth 1 argv "" = "receive") && Nat.eqb (length argv) 3) eqn:Hr.
  - apply andb_true_iff in Hr as [Hmode Hargc]. apply bool_decide_eq_true in Hmode.
    destruct argv as [|name [|mode [|port [|]]]]; try done. cbn [nth] in *. subst mode.
    destruct (parse_port port) as [p|e] eqn:Hp; [|apply Hfail].
    apply parse_port_spec in Hp as [Hnum Hp]. unwrap.
    destruct (receive_dm_runs os inet_ntop strerror Hrecv p w rs []) as (status&w'&out&->&Hv&Hs).
    exists status, w', out. split; [done|]. split; [exact Hv|]. intros H0.
    destruct (Hs H0) as [fd Hfd]. by eapply served_receive.
  - destruct (bool_decide (nth 1 argv "" = "send") && Nat.eqb (length argv) 5) eqn:Hsend; [|apply Hfail].
    apply andb_true_iff in Hsend as [Hmode Hargc]. apply bool_decide_eq_true in Hmode.
    destruct argv as [|name [|mode [|port [|ip [|message [|]]]]]]; try done. cbn [nth] in *. subst mode.
    destruct (parse_port port) as [p|e] eqn:Hp; [|apply Hfail].
    apply parse_port_spec in Hp as [Hnum Hp]. unwrap.
    destruct (send_dm_runs os inet_pton strerror p ip message w rs []) as (status&w'&out&->&Hv&Hs).
    exists status, w', out. split; [done|]. split; [exact Hv|]. intros H0.
    destruct (Hs H0) as (Hlen&addr&Haddr&Hsent). by eapply served_send.
Qed.

(** ** Concrete runs *)

Definition demo_pton (text : string) : option Z := if decide (text = "10.0.0.1") then Some 167772161 else None.

Definition demo_main (argv : list string) :=
  interp (app_handler (demo_system [Byte.x68; Byte.x69]))
    (main demo_pton (fun _ => Value "10.0.0.2") (fun _ => "?") argv) ((tt, no_resources), []).

Example demo_main_send :
  (fun r => (r.1, map snd r.2.2)) <$> demo_main ["smoke"; "send"; "05000"; "10.0.0.1"; "hello"] =
    Some (0, ["server: message send to 10.0.0.1:5000" +:+ newline]).
Proof. vm_compute. reflexivity. Qed.

Example demo_main_bad_port :
  (fun r => (r.1, r.2.2)) <$> demo_main ["smoke"; "receive"; "65536"] =
    Some (1, [(cerr, "65536 has invalid port number" +:+ newline)]).
Proof. vm_compute. reflexivity. Qed.

(** The waiting datagram is received and printed. *)
Lemma udp_smoke_main_witness :
  exists w' out, demo_main ["smoke"; "receive"; "5000"] = Some (0, ((w', no_resources), out)) /\
    served (demo_system [Byte.x68; Byte.x69]) demo_pton out ["smoke"; "receive"; "5000"].
Proof.
  destruct (udp_smoke_main (demo_system [Byte.x68; Byte.x69]) demo_pton (fun _ => Value "10.0.0.2")
    (fun _ => "?") ["smoke"; "receive"; "5000"] tt no_resources (demo_system_documented _))
    as (status&w'&out&Hrun&_&Hs).
  assert (status = 0) as ->.
  { apply (f_equal (fmap fst)) in Hrun. vm_compute in Hrun. by injection Hrun as <-. }
  exists w', out. split; [exact Hrun|]. by apply Hs.
Defined.
