(* ===== verification/Apps.v ===== *)
(** * The engine applications

    [src/apps/lle-sender/main.cpp], [src/apps/lle-receiver/main.cpp] and
    [src/src/platform/version.cpp]. The applications do not run an engine yet: they print
    the version, which the build defines. *)

From S2P Require Import Prelude Posix UdpSmoke.
#[local] Open Scope string_scope.

Section Applications.
Context (LLE_VERSION_STRING : string).

Definition version : string := LLE_VERSION_STRING.

Definition lle_sender_main : io app Z :=
  call (print cout ("lle-sender " +:+ version +:+ " (transport scaffold)" +:+ newline));; mret 0%Z.

Definition lle_receiver_main : io app Z :=
  call (print cout ("lle-receiver " +:+ version +:+ " (transport scaffold)" +:+ newline));; mret 0%Z.
End Applications.

Lemma applications_print {W} (os : system W) v w out :
  interp (app_handler os) (lle_sender_main v) (w, out) =
    Some (0%Z, (w, (out ++ [(cout, "lle-sender " +:+ v +:+ " (transport scaffold)" +:+ newline)])%list)) /\
  interp (app_handler os) (lle_receiver_main v) (w, out) =
    Some (0%Z, (w, (out ++ [(cout, "lle-receiver " +:+ v +:+ " (transport scaffold)" +:+ newline)])%list)).
Proof. by destruct w. Qed.
