(* ===== verification/Conformance.v ===== *)
(** * The unit tests of the repository

    The scenarios of [src/tests/unit], evaluated on the definitions of this development: byte
    access, the encoder and the decoder of LLEP v1, the gap detector, the construction of a
    ring and the transfer of events through it, segment names and the configuration
    defaults. A test the program passes and its model would fail would show that a definition
    departs from the source, so these are checks of the definitions and not theorems about
    the program; each Section is named after the file whose tests it holds. *)

From stdpp Require Import strings.
From S2P Require Import Prelude Bytes Event ByteIO Protocol GapDetector Memory Layout RingLayout Ring.
From S2P Require Import Posix Segment Config.

(** ** Tests as programs

    A failing expectation is undefined behaviour, so a test passes when it runs to its end. *)

Definition expect (b : bool) : prog unit := if b then mret tt else Fault.

Definition passes (test : prog unit) (storage : list byte) : bool := bool_decide (is_Some (run test storage)).

#[local] Notation "a ≟ b" := (bool_decide (a = b)) (at level 70).

Definition errors {A E} `{EqDecision E} (r : expected A E) (e : E) : bool :=
  match r with Value _ => false | Unexpected e' => e' ≟ e end.

Definition succeeds {A E} (r : expected A E) : bool :=
  match r with Value _ => true | Unexpected _ => false end.

Definition bytes_of (zs : list Z) : list byte := map byte.of_Z zs.

(** ** [byte_io_test.cpp] *)
Section ByteIoTest.

Definition a5 (n : nat) : list byte := replicate n (byte.of_Z 0xa5).

Example WritesKnownLittleEndianBytesAtUnalignedOffset :
  write_u16 (a5 10) 1 0xcdef = Some (a5 1 ++ bytes_of [0xef; 0xcd] ++ a5 7) /\
  write_u32 (a5 10) 1 0x89abcdef = Some (a5 1 ++ bytes_of [0xef; 0xcd; 0xab; 0x89] ++ a5 5) /\
  write_u64 (a5 10) 1 0x0123456789abcdef =
    Some (a5 1 ++ bytes_of [0xef; 0xcd; 0xab; 0x89; 0x67; 0x45; 0x23; 0x01] ++ a5 1).
Proof. by vm_compute. Qed.

Example ReadsKnownLittleEndianBytesAtUnalignedOffset :
  let bytes := bytes_of [0xa5; 0xef; 0xcd; 0xab; 0x89; 0x67; 0x45; 0x23; 0x01; 0xa5] in
  read_u16 bytes 1 = Some 0xcdef /\ read_u32 bytes 1 = Some 0x89abcdef /\
  read_u64 bytes 1 = Some 0x0123456789abcdef.
Proof. by vm_compute. Qed.

Example ChecksExactFitAndRejectsShortOrInvalidRanges :
  [has_bytes 10 2 8; has_bytes 10 10 0; has_bytes 0 0 0;
   has_bytes 10 3 8; has_bytes 10 11 0; has_bytes 0 0 1; has_bytes 10 u64_max 1] =
  [true; true; true; false; false; false; false].
Proof. by vm_compute. Qed.
End ByteIoTest.

(** ** [encoder_test.cpp] *)
Section EncoderTest.

Example EncodesKnownSingleEventPacket :
  encode_data known_event 0x01020304 0x0102030405060708 (a5 50) = Some (Value 48, known_packet ++ a5 2).
Proof. by vm_compute. Qed.

Definition numbered_event (sequence : Z) (payload : list byte) : EventData := Event 7 sequence 9 payload.

(** The errors leave the output as it was. *)
Example RejectsInvalidInputWithoutWriting :
  let output := a5 1416 in
  let ev := numbered_event 8 (bytes_of [0x42]) in
  let rejects ev sid pseq output e := encode_data ev sid pseq output ≟ Some (Unexpected e, output) in
  rejects ev 0 1 output EncodeError_InvalidSessionId
  && rejects ev 1 0 output EncodeError_InvalidPacketSequence
  && rejects (numbered_event 0 (bytes_of [0x42])) 1 1 output EncodeError_InvalidEventSequence
  && rejects ev 1 1 (a5 43) EncodeError_OutputTooSmall
  && rejects (numbered_event 8 (replicate 1375 Byte.x00)) 1 1 output EncodeError_PayloadTooLarge = true.
Proof. by vm_compute. Qed.

Example EncodesEmptyAndMaximumPayload :
  match encode_data (numbered_event 8 []) 1 1 (a5 44),
        encode_data (numbered_event 8 (replicate 1374 Byte.x5a)) 1 2 (a5 1416) with
  | Some (Value n, empty), Some (Value m, largest) =>
      n = kMinDataPacketBytes /\ drop 40 empty = bytes_of [0; 0; 0; 0] /\
      m = kMaxPacketBytes /\ take 2 (drop 2 largest) = bytes_of [0x88; 0x05] /\
      take 2 (drop 40 largest) = bytes_of [0x5e; 0x05] /\ last largest = Some Byte.x5a
  | _, _ => False
  end.
Proof. vm_compute. tauto. Qed.
End EncoderTest.

(** ** [decoder_test.cpp] *)
Section DecoderTest.

Definition valid_packet : list byte :=
  bytes_of [0x4c; 0x11; 0x30; 0; 1; 0; 0; 0; 1; 0; 0; 0; 0; 0; 0; 0; 1; 0; 0; 0; 0; 0; 0; 0;
            0; 0; 0; 0; 0; 0; 0; 0; 7; 0; 0; 0; 0; 0; 0; 0; 3; 0; 0xde; 0xad; 0xbe; 0; 0; 0].

Definition rejected (packet : list byte) (e : DecodeError) : bool := decode_data packet ≟ Some (Unexpected e).

(** The packet with some bytes replaced. *)
Definition patch (edits : list (nat * Z)) : list byte :=
  foldl (fun packet edit => <[edit.1 := byte.of_Z edit.2]> packet) valid_packet edits.

Example ReadsKnownPacketWithPayloadViewIntoInput :
  decode_data valid_packet = Some (Value (DecodedData 1 1 (Event 7 1 0 (Span 42 3)))) /\
  span_bytes valid_packet (Span 42 3) = Some (bytes_of [0xde; 0xad; 0xbe]).
Proof. by vm_compute. Qed.

Definition through_wire (ev : EventData) (sid pseq : Z) : option (Z * Z * EventData) :=
  match encode_data ev sid pseq (replicate 1416 Byte.x00) with
  | Some (Value n, packet) =>
      let packet := take (Z.to_nat n) packet in
      match decode_data packet with
      | Some (Value d) => ev ← event_bytes packet (event d); Some (session_id d, packet_sequence d, ev)
      | _ => None
      end
  | _ => None
  end.

Example PreservesMetadataAndPayloadThroughEncodeDecode :
  let ev := Event 0x12345678 0x0102030405060708 0xfedcba9876543210 (bytes_of [0x00; 0x7f; 0x80; 0xff]) in
  through_wire ev 0xabcdef01 0x1020304050607080 = Some (0xabcdef01, 0x1020304050607080, ev).
Proof. by vm_compute. Qed.

Example RejectsInvalidHeaderAndIdentifiers :
  rejected (patch [(0%nat, 0)]) DecodeError_InvalidMagic
  && rejected (patch [(1%nat, 0x21)]) DecodeError_UnsupportedVersion
  && rejected (patch [(1%nat, 0x12)]) DecodeError_UnsupportedType
  && rejected (patch [(2%nat, 0x2f)]) DecodeError_PacketLengthMismatch
  && rejected (patch [(4%nat, 0)]) DecodeError_InvalidSessionId
  && rejected (patch [(8%nat, 0)]) DecodeError_InvalidPacketSequence
  && rejected (patch [(16%nat, 0)]) DecodeError_InvalidEventSequence = true.
Proof. by vm_compute. Qed.

Example RejectsTruncatedOversizedAndMalformedFrames :
  forallb (fun n => match decode_data (take n valid_packet) with Some (Unexpected _) => true | _ => false end)
          (seq 0 48)
  && rejected (replicate 1417 Byte.x00) DecodeError_PacketTooLarge
  && rejected (take 44 (patch [(2%nat, 0x2c)])) DecodeError_MalformedFrame
  && rejected (patch [(36%nat, 1)]) DecodeError_MalformedFrame
  && rejected (patch [(40%nat, 0x5f); (41%nat, 0x05)]) DecodeError_MalformedFrame
  && rejected (patch [(45%nat, 1)]) DecodeError_NonZeroPadding = true.
Proof. by vm_compute. Qed.

Example DecodesEmptyAndMaximumPayload :
  through_wire (numbered_event 8 []) 1 1 = Some (1, 1, numbered_event 8 []) /\
  through_wire (numbered_event 8 (replicate 1374 Byte.x5a)) 1 2 =
    Some (1, 2, numbered_event 8 (replicate 1374 Byte.x5a)).
Proof. by vm_compute. Qed.

Example RejectsBatchUntilMultipleEventViewsAreSupported :
  rejected (patch [(2%nat, 56)] ++ replicate 8 Byte.x00) DecodeError_UnsupportedBatch = true.
Proof. by vm_compute. Qed.
End DecoderTest.

(** ** [gap_detector_test.cpp] *)
Section GapDetectorTest.

(** The results of a new detector on the packets of some sessions. *)
Definition detected (ids : list (Z * Z)) : list CheckResult := (check_all GapDetector_init ids).1.*2.

Abbreviation ok := (Check PacketStatus_Accepted 0 0 0).
Abbreviation old := (Check PacketStatus_DuplicateOrOld 0 0 0).
Abbreviation foreign := (Check PacketStatus_WrongSession 0 0 0).

Example AcceptsConsecutivePacketsWithoutGaps :
  detected [(7, 1); (7, 2); (7, 3); (7, 4)] = [ok; ok; ok; ok].
Proof. by vm_compute. Qed.

Example ReportsMissingPrefixOnFirstPacket :
  detected [(7, 4); (7, 5)] = [Check PacketStatus_Accepted 3 1 3; ok].
Proof. by vm_compute. Qed.

Example ReportsExactRangesForSeparateGaps :
  detected [(7, 1); (7, 6); (7, 9)] =
    [ok; Check PacketStatus_Accepted 4 2 5; Check PacketStatus_Accepted 2 7 8].
Proof. by vm_compute. Qed.

Example RejectsDuplicateWithoutAdvancingSequence : detected [(7, 1); (7, 1); (7, 2)] = [ok; old; ok].
Proof. by vm_compute. Qed.

Example RejectsLatePacketWithoutMovingSequenceBackwards :
  detected [(7, 1); (7, 3); (7, 2); (7, 4)] = [ok; Check PacketStatus_Accepted 1 2 2; old; ok].
Proof. by vm_compute. Qed.

Example RejectsOtherSessionWithoutChangingActiveSession :
  detected [(7, 1); (8, 1); (8, 100); (7, 2)] = [ok; foreign; foreign; ok].
Proof. by vm_compute. Qed.

Example HandlesMaximumSequenceWithoutOverflow :
  detected [(7, 1); (7, u64_max); (7, u64_max); (7, 1)] =
    [ok; Check PacketStatus_Accepted (u64_max - 2) 2 (u64_max - 1); old; old].
Proof. by vm_compute. Qed.
End GapDetectorTest.

(** ** [ring_init_test.cpp] *)
Section RingInitTest.

Definition init_config : RingConfig := Config 2 33.
Definition init_size : Z := 192 + 2 * 128.
Definition init_memory (size : Z) : memory_span := Memory 4096 size.
Definition init_storage : list byte := replicate (Z.to_nat (init_size + 64)) (byte.of_Z 0x5a).

(** The field [a] of the header. *)
Definition field_is (w : nat) (a : addr) (v : Z) : prog unit := x ← load nonatomic w a; expect (x =? v).
Definition bytes_are (a : addr) (bs : list byte) : prog unit := x ← read_bytes a (length bs); expect (x ≟ bs).
Definition zero_at (a : addr) (n : nat) : prog unit := bytes_are a (replicate n Byte.x00).

Definition slot_initialized (slot : addr) : prog unit :=
  field_is 8 (slot + slot_event_sequence) 0;; field_is 8 (slot + slot_source_timestamp_ns) 0;;
  field_is 4 (slot + slot_stream_id) 0;; field_is 4 (slot + slot_payload_length) 0;;
  field_is 4 (slot + slot_reserved_0) 0;; field_is 4 (slot + slot_reserved_1) 0;;
  bytes_are (slot + 32) (bytes_of [0x5a]).

Example InitializesEveryHeaderFieldAndSlotMetadata :
  passes (result ← initialize (init_memory init_size) init_config 42;
          expect (succeeds result);;
          field_is 4 preamble_state (RingState_value RingState_Ready);;
          bytes_are preamble_magic ring_magic;;
          field_is 2 preamble_layout_version ring_layout_version;;
          field_is 2 preamble_header_bytes ring_header_bytes;;
          field_is 8 preamble_segment_bytes init_size;;
          field_is 4 preamble_slot_count 2;;
          field_is 4 preamble_slot_stride 128;;
          field_is 4 preamble_slot_payload_capacity 33;;
          field_is 8 preamble_instance_id 42;;
          field_is 4 preamble_reserved 0;;
          zero_at preamble_reserved_bytes 20;;
          field_is 8 producer_position 0;; field_is 8 consumer_position 0;;
          zero_at producer_reserved_bytes 56;; zero_at consumer_reserved_bytes 56;;
          slot_initialized 192;; slot_initialized (192 + 128);;
          bytes_are (Z.to_nat init_size) (bytes_of [0x5a])) init_storage = true.
Proof. by vm_compute. Qed.

(** [initialize] fails and leaves the storage as it was. *)
Definition init_rejects (memory : memory_span) (config : RingConfig) (id : Z) (e : RingError) : bool :=
  match run (initialize memory config id) init_storage with
  | Some (result, m) => errors result e && (m ≟ init_storage)
  | None => false
  end.

Example RejectsInvalidArgumentsWithoutWriting :
  forallb (fun count => init_rejects (init_memory init_size) (Config count 33) 42 RingError_InvalidConfig) [0; 1; 3]
  && init_rejects (init_memory init_size) init_config 0 RingError_InvalidConfig
  && forallb (fun size => init_rejects (init_memory size) init_config 42 RingError_InvalidMemory)
       [0; init_size - 1; init_size + 1]
  && forallb (fun offset => init_rejects (Memory (4096 + offset) init_size) init_config 42 RingError_InvalidMemory)
       [1; 64]
  && init_rejects (init_memory init_size) (Config 2 u32_max) 42 RingError_SizeOverflow = true.
Proof. by vm_compute. Qed.

Example AllowsMetadataOnlySlots : required_bytes (Config 2 0) = Value (192 + 2 * 64).
Proof. by vm_compute. Qed.

(** [RingAttachTest]: the tests start from an initialized ring. *)
Definition attach_passes (test : prog unit) : bool :=
  passes (initialize (init_memory init_size) init_config 42;; test) init_storage.

Definition attach_fails (memory : memory_span) (e : RingError) : prog unit :=
  result ← attach memory; expect (errors result e).

Definition set_state (state : Z) : prog unit := store memory_order_release 4 preamble_state state.

Example PreservesExistingContentsForReadyAndClosedRings :
  attach_passes
    (store memory_order_release 8 producer_position 9;; store memory_order_release 8 consumer_position 7;;
     let preserves state :=
       set_state (RingState_value state);;
       before ← read_bytes 0 (Z.to_nat init_size);
       result ← attach (init_memory init_size);
       expect (succeeds result);; bytes_are 0 before in
     preserves RingState_Ready;; preserves RingState_Closed) = true.
Proof. by vm_compute. Qed.

Example RejectsShortMisalignedAndWrongSizeMappings :
  forallb (fun memory => attach_passes (attach_fails memory RingError_InvalidMemory))
    [Memory 0 0; init_memory 191; Memory 4097 init_size; Memory 4160 init_size;
     init_memory (init_size - 1); init_memory (init_size + 1)] = true.
Proof. by vm_compute. Qed.

Example RejectsNotReadyAndUnknownStates :
  forallb (fun s => attach_passes (set_state s.1;; attach_fails (init_memory init_size) s.2))
    [(RingState_value RingState_Uninitialized, RingError_NotReady);
     (RingState_value RingState_Initializing, RingError_NotReady); (99, RingError_InvalidLayout)] = true.
Proof. by vm_compute. Qed.

Example RejectsInvalidMetadata :
  forallb (fun write => attach_passes (write;; attach_fails (init_memory init_size) RingError_InvalidLayout))
    [write_bytes preamble_magic (bytes_of [0x58]);
     store nonatomic 2 preamble_layout_version 2; store nonatomic 2 preamble_header_bytes 64;
     store nonatomic 8 preamble_instance_id 0; store nonatomic 8 preamble_segment_bytes 0;
     store nonatomic 4 preamble_slot_count 0; store nonatomic 4 preamble_slot_count 3;
     store nonatomic 4 preamble_slot_stride 64; store nonatomic 4 preamble_slot_payload_capacity u32_max;
     store nonatomic 4 preamble_reserved 1; write_bytes preamble_reserved_bytes [Byte.x01];
     write_bytes producer_reserved_bytes [Byte.x01]; write_bytes consumer_reserved_bytes [Byte.x01]] = true.
Proof. by vm_compute. Qed.
End RingInitTest.

(** ** [ring_transfer_test.cpp]

    A producer and a consumer on a new ring of two slots of four bytes. *)
Section RingTransferTest.

Definition four : list byte := bytes_of [1; 2; 3; 4].
Definition transfer_event (sequence : Z) (payload : list byte) : EventData := Event 7 sequence 456 payload.
Abbreviation event := (transfer_event 123 four).
Abbreviation slot n := (192 + n * 64)%nat.

Definition transfer_passes (test : SpscRing -> SpscRing -> prog unit) : bool :=
  passes (initialized ← initialize (Memory 4096 320) (Config 2 4) 42;
          attached ← attach (Memory 4096 320);
          match initialized, attached with
          | Value producer, Value consumer => test producer consumer
          | _, _ => Fault
          end) (replicate 320 Byte.x00).

(** The operations with what is expected of them; they give the handle back. *)
Definition publishes (producer : SpscRing) (ev : EventData) (r : PublishResult) : prog SpscRing :=
  result ← try_publish producer ev; expect (result.1 ≟ r);; mret result.2.

Definition acquires (consumer : SpscRing) (view : EventView span) : prog SpscRing :=
  result ← try_acquire consumer; expect (result.1 ≟ Value view);; mret result.2.

Definition acquires_none (consumer : SpscRing) (e : AcquireError) : prog SpscRing :=
  result ← try_acquire consumer; expect (errors result.1 e);; mret result.2.

Definition releases (consumer : SpscRing) (r : bool) : prog SpscRing :=
  result ← release consumer; expect (result.1 ≟ r);; mret result.2.

Definition closes (producer : SpscRing) (r : bool) : prog unit :=
  result ← close_publication producer; expect (result ≟ r).

Definition view (sequence : Z) (n size : nat) : EventView span := Event 7 sequence 456 (Span (slot n + 32) size).

Definition seed (position : Z) : prog unit :=
  store memory_order_release 8 producer_position position;;
  store memory_order_release 8 consumer_position position.

Example EmptyRingHasNoEvent :
  transfer_passes (fun producer consumer => acquires_none consumer AcquireError_Empty;; mret tt) = true.
Proof. by vm_compute. Qed.

Example TransfersMetadataAndViewsPayloadInPlace :
  transfer_passes (fun producer consumer =>
    publishes producer event PublishResult_Ok;;
    consumer ← acquires consumer (view 123 0 4);
    bytes_are (slot 0 + 32) four;;
    field_is 8 consumer_position 0;;
    acquires_none consumer AcquireError_AlreadyAcquired;; mret tt) = true.
Proof. by vm_compute. Qed.

Example FullRingDoesNotOverwriteHeldView :
  transfer_passes (fun producer consumer =>
    producer ← publishes producer event PublishResult_Ok;
    acquires consumer (view 123 0 4);;
    producer ← publishes producer event PublishResult_Ok;
    publishes producer (transfer_event 123 (replicate 4 Byte.x09)) PublishResult_Full;;
    field_is 8 producer_position 2;;
    bytes_are (slot 0 + 32) four) = true.
Proof. by vm_compute. Qed.

Example RejectsOversizedPayloadWithoutPublishing :
  transfer_passes (fun producer consumer =>
    publishes producer (transfer_event 123 (replicate 5 Byte.x00)) PublishResult_PayloadTooLarge;;
    field_is 8 producer_position 0;;
    acquires_none consumer AcquireError_Empty;; mret tt) = true.
Proof. by vm_compute. Qed.

Example AllowsEmptyPayload :
  transfer_passes (fun producer consumer =>
    publishes producer (transfer_event 123 []) PublishResult_Ok;;
    acquires consumer (view 123 0 0);; mret tt) = true.
Proof. by vm_compute. Qed.

Example MapsLogicalPositionToWrappedSlot :
  transfer_passes (fun producer consumer =>
    seed 3;;
    publishes producer event PublishResult_Ok;;
    acquires consumer (view 123 1 4);;
    field_is 8 producer_position 4;; field_is 8 consumer_position 3) = true.
Proof. by vm_compute. Qed.

Example ClosedEmptyRingRejectsPublicationAndAcquisition :
  transfer_passes (fun producer consumer =>
    set_state (RingState_value RingState_Closed);;
    publishes producer event PublishResult_Closed;;
    acquires_none consumer AcquireError_Closed;; mret tt) = true.
Proof. by vm_compute. Qed.

Example ClosedRingStillAllowsQueuedEvent :
  transfer_passes (fun producer consumer =>
    publishes producer event PublishResult_Ok;;
    set_state (RingState_value RingState_Closed);;
    acquires consumer (view 123 0 4);; mret tt) = true.
Proof. by vm_compute. Qed.

Example RejectsInvalidSlotWithoutHoldingIt :
  transfer_passes (fun producer consumer =>
    let rejects consumer field bad good :=
      store nonatomic 4 field bad;;
      consumer ← acquires_none consumer AcquireError_InvalidSlot;
      store nonatomic 4 field good;; mret consumer in
    publishes producer event PublishResult_Ok;;
    consumer ← rejects consumer (slot 0 + slot_payload_length)%nat 5 4;
    consumer ← rejects consumer (slot 0 + slot_reserved_0)%nat 1 0;
    consumer ← rejects consumer (slot 0 + slot_reserved_1)%nat 1 0;
    field_is 8 consumer_position 0;;
    acquires consumer (view 123 0 4);; mret tt) = true.
Proof. by vm_compute. Qed.

Example StopsBeforeLogicalCursorOverflow :
  transfer_passes (fun producer consumer =>
    seed u64_max;;
    publishes producer event PublishResult_Closed;;
    field_is 8 producer_position u64_max) = true.
Proof. by vm_compute. Qed.

Example MovedFromHandlesAreClosed :
  transfer_passes (fun producer consumer =>
    let (moved_producer, producer) := SpscRing_move producer in
    let (moved_consumer, consumer) := SpscRing_move consumer in
    publishes producer event PublishResult_Closed;;
    acquires_none consumer AcquireError_Closed;;
    publishes moved_producer event PublishResult_Ok;;
    acquires moved_consumer (view 123 0 4);; mret tt) = true.
Proof. by vm_compute. Qed.

Example ReleaseRequiresAcquisitionAndAllowsSlotReuse :
  transfer_passes (fun producer consumer =>
    consumer ← releases consumer false;
    producer ← publishes producer event PublishResult_Ok;
    producer ← publishes producer event PublishResult_Ok;
    consumer ← acquires consumer (view 123 0 4);
    consumer ← releases consumer true;
    releases consumer false;;
    field_is 8 consumer_position 1;;
    publishes producer event PublishResult_Ok;; mret tt) = true.
Proof. by vm_compute. Qed.

Example EveryPayloadLengthFitsAndCanBeReleased :
  transfer_passes (fun producer consumer =>
    foldr (fun size rest handles =>
        producer ← publishes handles.1 (transfer_event 123 (take size four)) PublishResult_Ok;
        consumer ← acquires handles.2 (view 123 (size mod 2) size);
        bytes_are (slot (size mod 2) + 32) (take size four);;
        consumer ← releases consumer true;
        rest (producer, consumer))
      (fun _ => mret tt) (seq 0 5) (producer, consumer)) = true.
Proof. by vm_compute. Qed.

Example CloseEmptyRingReportsClosed :
  transfer_passes (fun producer consumer =>
    closes producer true;;
    consumer ← acquires_none consumer AcquireError_Closed;
    releases consumer false;; mret tt) = true.
Proof. by vm_compute. Qed.

Fixpoint wraps (batches : nat) (producer consumer : SpscRing) (sequence : Z) : prog unit :=
  match batches with
  | O => mret tt
  | S batches =>
      producer ← publishes producer (transfer_event sequence four) PublishResult_Ok;
      producer ← publishes producer (transfer_event (sequence + 1) four) PublishResult_Ok;
      producer ← publishes producer event PublishResult_Full;
      consumer ← acquires consumer (view sequence 0 4);
      consumer ← releases consumer true;
      consumer ← acquires consumer (view (sequence + 1) 1 4);
      consumer ← releases consumer true;
      wraps batches producer consumer (sequence + 2)
  end.

Example RepeatedWrapsPreserveFifoOrder :
  transfer_passes (fun producer consumer => wraps 1000 producer consumer 0) = true.
Proof. by vm_compute. Qed.

Example OnlyInitializerCanCloseAndQueuedEventsDrain :
  transfer_passes (fun producer consumer =>
    closes consumer false;;
    producer ← publishes producer event PublishResult_Ok;
    producer ← publishes producer event PublishResult_Ok;
    closes producer true;; closes producer true;;
    publishes producer event PublishResult_Closed;;
    consumer ← acquires consumer (view 123 0 4);
    consumer ← releases consumer true;
    consumer ← acquires consumer (view 123 1 4);
    consumer ← releases consumer true;
    acquires_none consumer AcquireError_Closed;; mret tt) = true.
Proof. by vm_compute. Qed.

Example MoveTransfersHeldSlotAndCloseAuthority :
  transfer_passes (fun producer consumer =>
    producer ← publishes producer event PublishResult_Ok;
    consumer ← acquires consumer (view 123 0 4);
    let (moved_consumer, consumer) := SpscRing_move consumer in
    releases consumer false;;
    releases moved_consumer true;;
    field_is 8 consumer_position 1;;
    let (moved_producer, producer) := SpscRing_move producer in
    closes producer false;; closes moved_producer true) = true.
Proof. by vm_compute. Qed.

Example FinalCursorValueCanBeConsumedWithoutWrapping :
  transfer_passes (fun producer consumer =>
    seed (u64_max - 1);;
    producer ← publishes producer event PublishResult_Ok;
    consumer ← acquires consumer (view 123 0 4);
    consumer ← releases consumer true;
    field_is 8 consumer_position u64_max;;
    publishes producer event PublishResult_Closed;;
    closes producer true;;
    acquires_none consumer AcquireError_Closed;; mret tt) = true.
Proof. by vm_compute. Qed.
End RingTransferTest.

(** ** [shm_segment_test.cpp] and [smoke_test.cpp]

    The tests that need no operating system. *)
Section SegmentTest.

Example InvalidNames :
  forallb (fun name => negb (is_shm_name_valid name))
    [EmptyString; "/"; "lle-segment"; "/lle/nested"; "/lle segment"; "/."; "/..";
     "/lle" ++ String Ascii.zero "hidden"; String.concat EmptyString (replicate 256 "a")]%string
  && is_shm_name_valid "/lle-segment-test-4096-0" = true.
Proof. by vm_compute. Qed.

Example DefaultDatagramLimitMatchesProtocol : max_datagram_bytes SenderConfig_default = 1416.
Proof. by vm_compute. Qed.

Example PublicIdentifierWidthsMatchProtocol : sizeof uint64_t = 8%nat /\ sizeof uint32_t = 4%nat.
Proof. by vm_compute. Qed.
End SegmentTest.
